(* ===== verification/_CoqProject ===== *)
-Q . S2P
Prelude.v
Pagination.v
Utf8.v
Contracts.v
Validation.v
Framing.v
Transport.v
Native.v
Stream.v
Messages.v
Codec.v
CodecProofs.v
CodecSpec.v
Wire.v
WireProofs.v
CodecDemo.v
Sizes.v
Json.v
Diagnostics.v
DiagnosticsProofs.v
CommandLine.v
Registry.v
Store.v
StoreProofs.v
StoreSpec.v
Lawful.v
Builtins.v
Sessions.v
Replies.v
Dispatcher.v
Server.v
ServerProofs.v
Client.v
ClientProofs.v
ClientSteps.v
Application.v
ApplicationProofs.v
Demo.v
DemoProofs.v
Executables.v
EndToEnd.v
Link.v
LinkProofs.v
LinkProgress.v
System.v
Handles.v
Security.v
Connect.v
