(* ===== verification/Prelude.v ===== *)
(** * PipeForge: a verification development

    PipeForge is a C++20 remote-object service over Windows named pipes.  A client
    queues typed operations; each is encoded as a Protobuf payload, framed with a
    four-byte length, and written to a pipe.  A server worker reads the frame, decodes
    the request, executes it on the session's store under a global gate, and answers
    with a correlated response, which the client matches with the waiting call.

    ** Parts and files

    The files are listed in dependency order.  Source paths are those of the
    repository.

    - [Prelude], [Pagination]: machine integers with their wrap written out, sums over
      lists and maps, string order, the state monad, the hint databases and tactics of
      the development; what makes a sequence of pages with cursors an enumeration.
    - [Utf8], [Contracts], [Validation]: include/pipeforge/contracts.hpp,
      validation.hpp, src/contracts/validation.cpp.  Values, operations, outcomes,
      envelopes and every validator.  The UTF-8 validator is bundled with Protobuf and
      is the class [Utf8Ops] with the laws [Utf8Laws].
    - [Framing]: include/pipeforge/protocol.hpp, src/protocol/framing.cpp.  [frame] and
      the incremental [frame_decoder] with its mutable state.
    - [Transport], [Native], [Stream]: include/pipeforge/transport.hpp,
      src/transport/completion.hpp and .cpp, src/transport/windows/native.hpp and .cpp,
      stream.cpp, stream_state.hpp.  Failures, endpoints, [resolve_pending]; the
      overlapped operations over the class [Win32]; [send] and [receive] over the class
      [NativePipe], with the relation [reads] as the reference of [receive].
    - [Messages], [Codec], [CodecProofs], [CodecSpec]: proto/pipeforge/v1/protocol.proto,
      src/protocol/codec.cpp.  The messages of the schema, resource validation, the
      readers and writers and the four entry points, over the class [Protobuf] with the
      laws [ProtobufLaws].
    - [Wire], [WireProofs], [CodecDemo], [Sizes]: a reference implementation of the
      Protobuf encoding, the proof that it satisfies the laws, the codec on concrete
      messages, and the size bounds [ProtobufSizes].
    - [Json], [Diagnostics], [DiagnosticsProofs]: include/pipeforge/diagnostics.hpp,
      src/diagnostics/diagnostics.cpp.  The session, its counters, the log lines and the
      trace document, profiling scopes; the sinks answer through arguments, the file
      system is the class [Filesystem], the serializer the class [Json] with the law that
      its output is in the grammar [json_text].
    - [CommandLine]: include/pipeforge/application.hpp, [parse] of src/cli/application.cpp,
      and a reference grammar of the argument lists.
    - [Registry], [Store], [StoreProofs], [StoreSpec], [Lawful], [Builtins], [Sessions]:
      include/pipeforge/domain.hpp, src/domain/domain.cpp, builtins.cpp.  The class
      registry, the identifier source and the session store with one definition per
      operation; the store invariant; the abstract contract [spec_step] and the
      refinement; the contract of plug-in objects ([ObjectOps], [LawfulRegistry]); the
      classes Counter and TextBuffer as its instance; sequences of operations.
    - [Replies], [Dispatcher]: src/server/dispatcher.cpp, include/pipeforge/services.hpp.
      That every outcome fits a payload; request dispatch and rejection.
    - [Server], [ServerProofs]: src/transport/windows/server.cpp,
      include/pipeforge/pipe_server.hpp.  The host as a step system: one program point
      per worker, the shared identifier source, gate, stop flag and counters.
    - [Client], [ClientProofs], [ClientSteps]: src/client/client.cpp,
      include/pipeforge/client.hpp.  The connection as a step system: the caller, the
      writer, the reader and the monitor over one mutex, with the shared pending calls as
      a heap; what each step does to the calls and the threads.
    - [Application], [ApplicationProofs]: [run_application] and [print_command] of
      src/cli/application.cpp, src/cli/server_commands.cpp, the two files main.cpp.  The
      streams are texts with the state of the output stream, the commands functions on
      them.
    - [Demo], [DemoProofs], [Executables]: src/cli/client_commands.cpp.  The scenario over
      the class [ClientApi], the public interface of [client::connection]; the two
      executables with their own commands and the calls that the library's threads make
      on the diagnostic session meanwhile.
    - [EndToEnd], [Link], [LinkProofs], [LinkProgress]: a call from the client's queue
      through the server to its future; one client, the pipe and the whole host as a step
      system, in every interleaving.
    - [System]: an executable environment, not code of the repository: the client, the
      codec and the server as one instance of [ClientApi] on one fixed schedule, on which
      the demo runs from its command line as an example.
    - [Handles], [Security], [Connect]: the rest of src/transport/windows/native.cpp and
      stream.cpp, src/client/windows_channel.cpp.  [unique_handle] over a record of the
      handles closed; [logon_security], [create_instance] and the acquisitions of
      [server_state::launch] over the class [SecurityApi]; [pipe_stream::connect] and the
      channel adapter over the class [ConnectApi].

    ** What the theorems show

    - The decoder computes a one-pass parser of the whole byte stream, whatever the
      chunking; framed payloads come back in order; a stream delivers what its peer
      sent, whatever the sizes of native reads and writes; [receive] over any native pipe
      answers what its reference does, deadline and stop checks included; a failed stream
      is terminal.
    - No overlapped operation is released while the kernel still uses it; waits are
      bounded by the deadline.
    - The codec accepts exactly the valid messages that fit, inverts itself, returns
      only valid data in range from arbitrary bytes, and reports every failure under the
      identifier of the parsed envelope or as the end of the session.
    - The store refines an abstract contract without machine arithmetic, keeps its
      accounting exact, is unchanged by errors, enumerates completely, and keeps values
      and drops objects for ever; lawful plug-ins never cause an internal failure;
      counter arithmetic never overflows.
    - In every interleaving of the server's workers, stores stay well-formed and
      isolated, the gate is exclusive, the counter of active sessions is exact; the
      bytes a worker sends for a request decode to the outcome of its execution on the
      worker's session; a stop request ends all workers.
    - In every interleaving of the client's threads, a promise is completed at most
      once, and after closing exactly once; results are correlated; cancellation of an
      unsent call is local and of a sent call closes the session.
    - In every interleaving of a client, its pipe and the host, the session is
      sequential: calls are executed in the order they were made, at most once, as the
      abstract store allows, and a result is the outcome of its execution; no reply is
      refused; and while the connection, the session and the host last, every pending
      call can still be answered.
    - Diagnostics stay within their limits, never use a released logger, and leave one
      JSON document that reports the scopes refused; the command line is parsed as its
      grammar says, in any order; the exit codes of the executables mean what
      application.hpp documents, except that [--help] and [--version] do not notice a
      failed output stream; the server command stops and joins its host on every path.
    - The demo ends whatever answers it, with bounded calls and every connection closed.
    - A kernel handle has one owner and is closed once; the server starts with local pipes
      only its logon session can open, or leaves nothing behind; opening a connection ends
      by its deadline, waits in slices of 1 to 50 milliseconds and leaks nothing.

    ** Conventions

    A [std::variant<T, failure>] is a sum, an [optional] an [option].  [size_t] and
    [uint64_t] values are integers [Z] with [⊞] and [⊟] reducing modulo 2^64; an
    [int64_t] expression that leaves its range is undefined and evaluates to [None], as
    does [back()] of an empty vector.  A result [None] of an operation therefore means
    undefined behaviour or exhausted fuel, and the theorems exclude it.  Fuel appears in
    four loops: [send] gets one unit per byte of its frame, because each successful write
    consumes at least one; [receive] gets [receive_fuel], more than the bytes of the
    largest frame, because each read supplies at least one byte to a frame in progress;
    [list_pages] of the demo gets one unit more than there are inputs, because a page that
    does not end the listing adds a record; [connect_loop] gets any number of rounds that
    outlasts the deadline, on a clock that only the waits reporting their timeout are known
    to advance, and the instances lost to other clients.
    Unknown fields nest to a bounded depth that the recursion of the codec carries.

    Code outside the repository is a parameter: UTF-8 validation, Protobuf, the Win32
    functions, the clock and the plug-in objects are type classes, and each class of
    laws has an instance that the witnesses use.

    The classes [counting] of DemoProofs, [tracing] of Security and the notes of Connect
    put a record of the calls made in front of an arbitrary instance of their interface,
    so that the theorems can speak of what was called.  The laws [ClockLaws] of Connect are
    assumptions on the environment: a [WaitNamedPipeW] on a missing name may take no time.

    ** What is not modelled

    Allocation failure and other exceptions; the text pattern and the rotation of log
    files, which are spdlog's; the destructors of an [overlapped_operation]'s events,
    which [Handles] covers as [unique_handle] objects; the profiling scopes
    inside the client connection, which have no effect on results; benchmarks, tests and
    fuzzers. *)
From stdpp Require Import prelude gmap strings sorting pretty.
From Stdlib Require Import Ascii ZArith Lia.

(** ** Machine integers

    [size_t], [uint64_t] and [std::byte] arithmetic wraps; the model keeps the
    value as a [Z] and writes the reduction modulo 2^64 out.  [int64_t]
    arithmetic is written with the two's complement wrap, and the theorems show
    that no wrap happens on the paths the code takes. *)
Declare Scope u64_scope.
Delimit Scope u64_scope with u64.

Definition two64 : Z := 18446744073709551616.
Definition u64_max : Z := 18446744073709551615.
Definition i64_min : Z := -9223372036854775808.
Definition i64_max : Z := 9223372036854775807.

Definition u64_add (a b : Z) : Z := (a + b) mod two64.
Definition u64_sub (a b : Z) : Z := (a - b) mod two64.

Notation "a ⊞ b" := (u64_add a b) (at level 50, left associativity) : u64_scope.
Notation "a ⊟ b" := (u64_sub a b) (at level 50, left associativity) : u64_scope.
Open Scope Z_scope.
Open Scope u64_scope.

(** Reduction of a mathematical integer to [int64_t]. *)
Definition i64_wrap (z : Z) : Z := (z + 9223372036854775808) mod two64 - 9223372036854775808.

Definition in_u64 (z : Z) : Prop := 0 <= z <= u64_max.
Definition in_i64 (z : Z) : Prop := i64_min <= z <= i64_max.

(** Container sizes as [size_t] values. *)
Definition len {A} (l : list A) : Z := Z.of_nat (length l).
Definition strlen (s : string) : Z := Z.of_nat (String.length s).
Definition msize {V} (m : gmap Z V) : Z := Z.of_nat (size m).

(** [std::to_string] of an unsigned integer. *)
Definition to_string (z : Z) : string := pretty (Z.to_N z).

(** Whether a pointer, [std::function] or [std::optional] holds something. *)
Definition has_value {A} (o : option A) : bool := match o with Some _ => true | None => false end.

(** ** Ordered maps

    [std::map<uint64_t, V>] is a [gmap Z V]; iteration visits the entries in
    increasing key order. *)
Definition key_le {V} : relation (Z * V) := fun x y => x.1 <= y.1.
Definition key_lt {V} : relation (Z * V) := fun x y => x.1 < y.1.

#[global] Instance key_le_dec {V} : RelDecision (@key_le V).
Proof. intros x y. unfold key_le. apply _. Defined.

Definition entries {V} (m : gmap Z V) : list (Z * V) := merge_sort key_le (map_to_list m).

(** The iterator range [\[upper_bound(after), end)]. *)
Definition past_key {V} (after : Z) (e : Z * V) : Prop := after < e.1.

#[global] Instance past_key_dec {V} after (e : Z * V) : Decision (past_key after e).
Proof. unfold past_key. apply _. Defined.

Definition upper_bound {V} (after : Z) (m : gmap Z V) : list (Z * V) :=
  filter (past_key after) (entries m).

(** [std::map::emplace]: an existing key keeps its value. *)
Definition emplace {V} (k : Z) (v : V) (m : gmap Z V) : gmap Z V :=
  match m !! k with Some _ => m | None => <[k := v]> m end.

(** Sum of a charge over a map. *)
Definition msum {V} (f : V -> Z) (m : gmap Z V) : Z :=
  map_fold (fun _ v acc => f v + acc) 0 m.

(** Sum of a charge over a list. *)
Fixpoint zsum {A} (f : A -> Z) (l : list A) : Z :=
  match l with
  | [] => 0
  | x :: l' => f x + zsum f l'
  end.

(** ** Strict order on byte strings, as [std::string::operator<]. *)
Definition str_lt (a b : string) : Prop := String.le a b /\ a <> b.

(** ** Searching and testing

    [std::ranges::find] with a name projection: the first entry of that name. *)
Fixpoint find_named {A} (f : A -> string) (n : string) (l : list A) : option A :=
  match l with
  | [] => None
  | x :: l' => if decide (f x = n) then Some x else find_named f n l'
  end.

(** [std::ranges::all_of] over the characters of a string. *)
Fixpoint str_forallb (p : ascii -> bool) (s : string) : bool :=
  match s with
  | EmptyString => true
  | String c s' => p c && str_forallb p s'
  end.

(** The unsigned value of a character. *)
Definition char_code (c : ascii) : Z := Z.of_N (Ascii.N_of_ascii c).

(** ** Automation *)
Create HintDb pf.

(** [lia] with the integer bounds as numerals. *)
Ltac ulia := unfold in_u64, in_i64, two64, u64_max, i64_min, i64_max in *; lia.

(** Turn the boolean tests of the code into propositions. *)
Ltac bool_simp :=
  repeat match goal with
  | H : andb _ _ = true |- _ => apply andb_true_iff in H; destruct H
  | H : orb _ _ = false |- _ => apply orb_false_iff in H; destruct H
  | H : negb _ = true |- _ => apply negb_true_iff in H
  | H : negb _ = false |- _ => apply negb_false_iff in H
  | H : (_ =? _) = true |- _ => apply Z.eqb_eq in H
  | H : (_ =? _) = false |- _ => apply Z.eqb_neq in H
  | H : (_ <=? _) = true |- _ => apply Z.leb_le in H
  | H : (_ <=? _) = false |- _ => apply Z.leb_gt in H
  | H : (_ <? _) = true |- _ => apply Z.ltb_lt in H
  | H : (_ <? _) = false |- _ => apply Z.ltb_ge in H
  | H : bool_decide _ = true |- _ => apply bool_decide_eq_true in H
  | H : bool_decide _ = false |- _ => apply bool_decide_eq_false in H
  end.

(** Split on the innermost conditional of a hypothesis. *)
Ltac split_ifs_in H :=
  repeat match type of H with
  | context [if ?b then _ else _] =>
      lazymatch b with
      | context [if _ then _ else _] => fail
      | _ => destruct b eqn:?; simplify_eq/=
      end
  end.

(** Split on every scrutinee of a hypothesis, keeping the equations. *)
Ltac split_match_in H :=
  repeat match type of H with
  | context [match ?b with _ => _ end] =>
      lazymatch b with
      | context [match _ with _ => _ end] => fail
      | _ => destruct b eqn:?; simplify_eq/=
      end
  end.

(** Split on every scrutinee of the goal. *)
Ltac split_match :=
  repeat match goal with
  | |- context [match ?b with _ => _ end] =>
      lazymatch b with
      | context [match _ with _ => _ end] => fail
      | _ => destruct b eqn:?; simplify_eq/=
      end
  end.

(** ** Lemmas on machine integers *)
Lemma u64_add_exact a b : 0 <= a -> 0 <= b -> a + b < two64 -> a ⊞ b = a + b.
Proof. intros. unfold u64_add. apply Z.mod_small. lia. Qed.

Lemma u64_sub_exact a b : 0 <= b <= a -> a < two64 -> a ⊟ b = a - b.
Proof. intros. unfold u64_sub. apply Z.mod_small. lia. Qed.

Lemma u64_sub_small a b : 0 <= a - b < two64 -> a ⊟ b = a - b.
Proof. intros. unfold u64_sub. by apply Z.mod_small. Qed.

Lemma u64_add_range a b : 0 <= a ⊞ b < two64.
Proof. apply Z.mod_pos_bound. unfold two64. lia. Qed.

Lemma u64_sub_range a b : 0 <= a ⊟ b < two64.
Proof. apply Z.mod_pos_bound. unfold two64. lia. Qed.

Lemma i64_wrap_exact z : in_i64 z -> i64_wrap z = z.
Proof.
  unfold in_i64, i64_min, i64_max, i64_wrap. intros.
  rewrite Z.mod_small by (unfold two64; lia). lia.
Qed.

Lemma i64_wrap_range z : in_i64 (i64_wrap z).
Proof.
  unfold in_i64, i64_min, i64_max, i64_wrap.
  pose proof (Z.mod_pos_bound (z + 9223372036854775808) two64 eq_refl).
  unfold two64 in *. lia.
Qed.

(** ** Lemmas on lists *)
Lemma len_nonneg {A} (l : list A) : 0 <= len l.
Proof. unfold len. lia. Qed.

Lemma strlen_nonneg s : 0 <= strlen s.
Proof. unfold strlen. lia. Qed.

Lemma len_app {A} (l k : list A) : len (l ++ k) = len l + len k.
Proof. unfold len. rewrite length_app. lia. Qed.

Lemma len_pos {A} (l : list A) : l <> [] -> 0 < len l.
Proof. unfold len. destruct l; simpl; [done|lia]. Qed.

Lemma len_cons {A} (x : A) l : len (x :: l) = 1 + len l.
Proof. unfold len. simpl. lia. Qed.

Lemma len_nil {A} : len (@nil A) = 0.
Proof. done. Qed.

Lemma len_take {A} n (l : list A) : len (take n l) = Z.min (Z.of_nat n) (len l).
Proof. unfold len. rewrite length_take. lia. Qed.

Lemma len_drop {A} n (l : list A) : len (drop n l) = Z.max 0 (len l - Z.of_nat n).
Proof. unfold len. rewrite length_drop. lia. Qed.

Lemma strlen_app s t : strlen (s +:+ t) = strlen s + strlen t.
Proof.
  unfold strlen. induction s as [|a s IH]; [done|].
  change (String a s +:+ t) with (String a (s +:+ t)). cbn [String.length]. lia.
Qed.

Lemma zsum_nonneg {A} (f : A -> Z) l : (forall x, x ∈ l -> 0 <= f x) -> 0 <= zsum f l.
Proof.
  induction l as [|x l IH]; simpl; intros Hf; [lia|].
  pose proof (Hf x ltac:(set_solver)). specialize (IH ltac:(set_solver)). lia.
Qed.

Lemma zsum_bound {A} (f : A -> Z) l b :
  (forall x, x ∈ l -> f x <= b) -> zsum f l <= len l * b.
Proof.
  induction l as [|x l IH]; simpl; intros Hf; [unfold len; simpl; lia|].
  rewrite len_cons. pose proof (Hf x ltac:(set_solver)).
  specialize (IH ltac:(set_solver)). lia.
Qed.

Lemma zsum_app {A} (f : A -> Z) l k : zsum f (l ++ k) = zsum f l + zsum f k.
Proof. induction l; simpl; lia. Qed.

Lemma find_named_Some {A} (f : A -> string) n l x :
  find_named f n l = Some x -> x ∈ l /\ f x = n.
Proof.
  induction l as [|y l IH]; simpl; [done|]. case_decide; intros; simplify_eq.
  - split; [set_solver|done].
  - destruct IH; [done|]. split; [set_solver|done].
Qed.

Lemma find_named_None {A} (f : A -> string) n l :
  find_named f n l = None <-> n ∉ f <$> l.
Proof.
  induction l as [|y l IH]; simpl; [set_solver|]. case_decide; [set_solver|].
  rewrite IH, not_elem_of_cons. naive_solver.
Qed.

Lemma find_named_is_Some {A} (f : A -> string) n l :
  n ∈ f <$> l -> exists x, find_named f n l = Some x.
Proof.
  intros Hn. destruct (find_named f n l) eqn:E; [eauto|].
  by apply find_named_None in E.
Qed.

(** With distinct names the search is a bijection between names and entries. *)
Lemma find_named_NoDup {A} (f : A -> string) l x :
  NoDup (f <$> l) -> x ∈ l -> find_named f (f x) l = Some x.
Proof.
  induction l as [|y l IH]; simpl; [set_solver|].
  intros [Hy Hnd]%NoDup_cons [->|Hx]%elem_of_cons; [by rewrite decide_True|].
  rewrite decide_False; [auto|]. intros Heq. apply Hy. rewrite Heq.
  by apply list_elem_of_fmap_2.
Qed.

Lemma forallb_spec {A} (p : A -> bool) l :
  forallb p l = true <-> Forall (fun x => p x = true) l.
Proof. induction l; simpl; rewrite ?Forall_cons, ?andb_true_iff; naive_solver. Qed.

Lemma filter_all {A} (P : A -> Prop) `{!forall x, Decision (P x)} l : Forall P l -> filter P l = l.
Proof. induction 1 as [|x l Hx _ IH]; [done|]. by rewrite filter_cons_True, IH. Qed.

Lemma filter_fmap {A B} (f : A -> B) (P : B -> Prop) (Q : A -> Prop)
    `{!forall x, Decision (P x)} `{!forall x, Decision (Q x)} (l : list A) :
  (forall x, Q x <-> P (f x)) -> filter P (f <$> l) = f <$> filter Q l.
Proof.
  intros HPQ. induction l as [|x l IH]; [done|]. rewrite fmap_cons.
  destruct (decide (Q x)) as [HQ|HQ].
  - pose proof (proj1 (HPQ x) HQ). by rewrite (filter_cons_True Q), (filter_cons_True P), fmap_cons, IH.
  - assert (~ P (f x)) by (by rewrite <- HPQ).
    by rewrite (filter_cons_False Q), (filter_cons_False P), IH.
Qed.

Lemma str_forallb_app p s t : str_forallb p (s +:+ t) = str_forallb p s && str_forallb p t.
Proof.
  induction s as [|a s IH]; [done|].
  change (String a s +:+ t) with (String a (s +:+ t)). simpl. rewrite IH. by rewrite andb_assoc.
Qed.

Lemma str_forallb_impl (p q : ascii -> bool) s :
  (forall c, p c = true -> q c = true) -> str_forallb p s = true -> str_forallb q s = true.
Proof.
  intros Hpq. induction s as [|c s IH]; simpl; [done|]. rewrite !andb_true_iff. naive_solver.
Qed.

#[export] Hint Resolve len_nonneg strlen_nonneg : pf.

(** ** Strictly sorted lists

    A list sorted by a strict order has no duplicates and is determined by its
    elements. *)
Section sorted.
Context {A : Type} (R : relation A) `{!StrictOrder R}.

Lemma sorted_NoDup l : StronglySorted R l -> NoDup l.
Proof.
  induction 1 as [|x l Hl IH Hall]; constructor; [|done].
  intros Hx. rewrite Forall_forall in Hall. by destruct (irreflexivity R x (Hall x Hx)).
Qed.

Lemma sorted_ext l k :
  StronglySorted R l -> StronglySorted R k -> (forall x, x ∈ l <-> x ∈ k) -> l = k.
Proof.
  intros Hl Hk He. apply (StronglySorted_unique_strong R); [|done..|].
  - intros x y _ _ Hxy Hyx. by destruct (irreflexivity R x (transitivity Hxy Hyx)).
  - apply NoDup_Permutation; auto using sorted_NoDup.
Qed.

Lemma sorted_filter (P : A -> Prop) `{!forall x, Decision (P x)} l :
  StronglySorted R l -> StronglySorted R (filter P l).
Proof.
  induction 1 as [|x l Hl IH Hall]; [constructor|].
  rewrite filter_cons. case_decide; [|done].
  constructor; [done|]. rewrite Forall_forall in *. intros y [_ Hy]%list_elem_of_filter. auto.
Qed.
End sorted.

(** ** Lemmas on ordered maps *)
Section maps.
Context {V : Type}.
Implicit Types (m : gmap Z V).

#[global] Instance key_le_total : Total (@key_le V).
Proof. intros x y. unfold key_le. lia. Qed.
#[global] Instance key_le_trans : Transitive (@key_le V).
Proof. intros x y z. unfold key_le. lia. Qed.
#[global] Instance key_lt_strict : StrictOrder (@key_lt V).
Proof. split; [intros x Hx|intros x y z]; unfold key_lt in *; lia. Qed.

Lemma entries_perm m : entries m ≡ₚ map_to_list m.
Proof. apply merge_sort_Permutation. Qed.

Lemma elem_of_entries m k v : (k, v) ∈ entries m <-> m !! k = Some v.
Proof. rewrite entries_perm. apply elem_of_map_to_list. Qed.

Lemma entries_sorted m : StronglySorted key_lt (entries m).
Proof.
  assert (Hs : StronglySorted key_le (entries m)) by (apply (StronglySorted_merge_sort key_le)).
  assert (Hn : NoDup (entries m).*1).
  { rewrite entries_perm. apply NoDup_fst_map_to_list. }
  induction Hs as [|[k v] l Hl IH Hall]; [constructor|].
  apply NoDup_cons in Hn as [Hk Hn]. constructor; [auto|].
  rewrite Forall_forall in Hall |- *. intros [k' v'] Hin.
  specialize (Hall _ Hin). unfold key_le, key_lt in *; simpl in *.
  assert (k <> k'); [|lia].
  intros ->. apply Hk. apply list_elem_of_fmap. exists (k', v'); auto.
Qed.

Lemma upper_bound_spec after m k v :
  (k, v) ∈ upper_bound after m <-> m !! k = Some v /\ after < k.
Proof. unfold upper_bound. rewrite list_elem_of_filter, elem_of_entries. unfold past_key. simpl. tauto. Qed.

Lemma upper_bound_sorted after m : StronglySorted key_lt (upper_bound after m).
Proof. apply sorted_filter, entries_sorted. Qed.

Lemma emplace_fresh m k v : m !! k = None -> emplace k v m = <[k := v]> m.
Proof. unfold emplace. by intros ->. Qed.

Lemma msum_empty (f : V -> Z) : msum f ∅ = 0.
Proof. apply map_fold_empty. Qed.

Lemma msum_insert (f : V -> Z) m k v : m !! k = None -> msum f (<[k:=v]> m) = f v + msum f m.
Proof. intros. unfold msum. rewrite map_fold_insert_L; [done|intros; lia|done]. Qed.

Lemma msum_delete (f : V -> Z) m k v : m !! k = Some v -> msum f m = f v + msum f (delete k m).
Proof. intros. unfold msum. rewrite (map_fold_delete_L _ _ k v m); [done|intros; lia|done]. Qed.

Lemma msum_update (f : V -> Z) m k v w :
  m !! k = Some v -> msum f (<[k:=w]> m) = msum f m - f v + f w.
Proof.
  intros Hk. rewrite (msum_delete f m k v Hk).
  rewrite <- (insert_delete_eq m k w), msum_insert by apply lookup_delete_eq. lia.
Qed.

Lemma msum_nonneg (f : V -> Z) m : (forall k v, m !! k = Some v -> 0 <= f v) -> 0 <= msum f m.
Proof.
  induction m as [|k v m Hk IH] using map_ind; intros Hf; [rewrite msum_empty; lia|].
  rewrite msum_insert by done. pose proof (Hf k v ltac:(by rewrite lookup_insert_eq)).
  enough (0 <= msum f m) by lia. apply IH. intros k' v' Hk'.
  apply (Hf k'). rewrite lookup_insert_ne; congruence.
Qed.

Lemma msum_ext (f g : V -> Z) m :
  (forall k v, m !! k = Some v -> f v = g v) -> msum f m = msum g m.
Proof.
  induction m as [|k v m Hk IH] using map_ind; intros Hfg; [done|].
  rewrite !msum_insert by done. rewrite (Hfg k v) by apply lookup_insert_eq. f_equal.
  apply IH. intros k' v' Hk'. apply (Hfg k'). rewrite lookup_insert_ne; congruence.
Qed.

Lemma msum_lookup_le (f : V -> Z) m k v :
  (forall k v, m !! k = Some v -> 0 <= f v) -> m !! k = Some v -> f v <= msum f m.
Proof.
  intros Hf Hk. rewrite (msum_delete f m k v Hk).
  enough (0 <= msum f (delete k m)) by lia. apply msum_nonneg.
  intros k' v' [_ Hk']%lookup_delete_Some. eauto.
Qed.

Lemma msize_insert_fresh m k v : m !! k = None -> msize (<[k:=v]> m) = msize m + 1.
Proof. intros. unfold msize. rewrite map_size_insert_None by done. lia. Qed.

Lemma msize_delete m k v : m !! k = Some v -> msize (delete k m) = msize m - 1.
Proof.
  intros Hk. unfold msize. rewrite map_size_delete, Hk.
  pose proof (map_size_ne_0_lookup_2 m k ltac:(by exists v)). lia.
Qed.

Lemma msize_update m k v w : m !! k = Some v -> msize (<[k:=w]> m) = msize m.
Proof. intros Hk. unfold msize. rewrite map_size_insert, Hk. done. Qed.
End maps.

Lemma msum_fmap {V W} (f : W -> Z) (g : V -> W) (m : gmap Z V) :
  msum f (g <$> m) = msum (fun v => f (g v)) m.
Proof.
  induction m as [|k v m Hk IH] using map_ind; [by rewrite fmap_empty|].
  rewrite fmap_insert, !msum_insert by (rewrite ?lookup_fmap, Hk; done). by rewrite IH.
Qed.

Lemma msize_fmap {V W} (g : V -> W) (m : gmap Z V) : msize (g <$> m) = msize m.
Proof. unfold msize. by rewrite map_size_fmap. Qed.

(** ** Lemmas on the string order *)
Lemma str_lt_irrefl s : ~ str_lt s s.
Proof. intros []. done. Qed.

Lemma str_lt_trans a b c : str_lt a b -> str_lt b c -> str_lt a c.
Proof.
  intros [Hab Hn] [Hbc Hm]. split; [by etrans|].
  intros ->. apply Hn. by apply (anti_symm String.le).
Qed.

Lemma str_lt_le_trans a b c : str_lt a b -> String.le b c -> str_lt a c.
Proof.
  intros [Hab Hn] Hbc. split; [by etrans|].
  intros ->. apply Hn. by apply (anti_symm String.le).
Qed.

#[global] Instance str_lt_strict : StrictOrder str_lt.
Proof. split; [intros s; apply str_lt_irrefl|intros a b c; apply str_lt_trans]. Qed.

Lemma str_not_le a b : ~ String.le a b -> str_lt b a.
Proof.
  intros Hn. destruct (total String.le a b) as [|Hba]; [done|]. split; [done|].
  intros ->. done.
Qed.

Lemma str_not_lt a b : ~ str_lt a b -> String.le b a.
Proof.
  intros Hn. destruct (decide (a = b)) as [->|Hne]; [done|].
  destruct (total String.le b a) as [|Hab]; [done|]. exfalso. by apply Hn.
Qed.

#[global] Instance str_lt_dec : RelDecision str_lt.
Proof. intros a b. unfold str_lt. apply _. Defined.

Lemma str_empty_le s : String.le "" s.
Proof. unfold String.le. destruct s; done. Qed.

Lemma str_app_assoc (s t u : string) : (s +:+ t) +:+ u = s +:+ (t +:+ u).
Proof. induction s as [|c s IH]; [done|]. exact (f_equal (String c) IH). Qed.
Lemma str_app_nil_r (s : string) : s +:+ "" = s.
Proof. induction s as [|c s IH]; [done|]. exact (f_equal (String c) IH). Qed.

(** ** A state monad for code that talks to its environment *)
Definition stateM (K A : Type) : Type := K -> A * K.
Definition sret {K A} (a : A) : stateM K A := fun k => (a, k).
Definition sbind {K A B} (m : stateM K A) (f : A -> stateM K B) : stateM K B :=
  fun k => let '(a, k') := m k in f a k'.
Definition sget {K A} (f : K -> A) : stateM K A := fun k => (f k, k).
Definition smodify {K} (f : K -> K) : stateM K unit := fun k => (tt, f k).

Notation "'let!' x := m 'in' e" := (sbind m (fun x => e))
  (at level 10, x name, m at level 100, e at level 200).

(** An action on the second half of a state. *)
Definition slift {S K A} (m : stateM K A) : stateM (S * K) A :=
  fun s => let '(a, k) := m s.2 in (a, (s.1, k)).
