(* ===== verification/Pagination.v ===== *)
(** * Cursor pagination

    The registry and the session store answer list queries with a page and an
    exclusive continuation cursor.  This file states once what makes such a
    sequence of pages an enumeration: a client that follows the cursors collects
    every item after its start, in order and exactly once, and stops. *)
From stdpp Require Import prelude sorting.
From Stdlib Require Import ZArith Lia.
From S2P Require Import Prelude.

Section pagination.
Context {A C : Type}.
Context (R : relation A) `{!StrictOrder R}.
Context (key : A -> C) (past : C -> A -> Prop) `{!forall c x, Decision (past c x)}.
Context (key_past : forall x y, past (key x) y <-> R x y).
Context (past_up : forall c x y, past c x -> R x y -> past c y).
Context (items : list A) (items_sorted : StronglySorted R items).

(** The items after a cursor. *)
Definition remaining (c : C) : list A := filter (past c) items.

(** A page after the cursor [c]: the first items after it, and the key of the
    last one when items are left. *)
Definition page_ok (c : C) (page : list A) (next : option C) : Prop :=
  exists rest, remaining c = page ++ rest
    /\ match next with
       | None => rest = []
       | Some c' => rest <> [] /\ exists x, last page = Some x /\ c' = key x
       end.

(** Following the cursors from [c]; [None] when [fuel] runs out. *)
Fixpoint collect (page : C -> list A * option C) (fuel : nat) (c : C) : option (list A) :=
  match fuel with
  | O => None
  | S fuel' =>
      match page c with
      | (l, None) => Some l
      | (l, Some c') => app l <$> collect page fuel' c'
      end
  end.

Lemma remaining_sorted c : StronglySorted R (remaining c).
Proof. by apply sorted_filter. Qed.

Lemma remaining_next c page rest x :
  remaining c = page ++ rest -> last page = Some x -> remaining (key x) = rest.
Proof.
  intros Heq (l & ->)%last_Some. pose proof (remaining_sorted c) as Hs. rewrite Heq in Hs.
  pose proof Hs as (Hcross & Hpage & Hrest)%StronglySorted_app.
  apply (sorted_ext R); [apply remaining_sorted|done|]. intros y.
  unfold remaining at 1. rewrite list_elem_of_filter, key_past.
  assert (Hin : forall z, z ∈ remaining c <-> past c z /\ z ∈ items)
    by (intros z; apply list_elem_of_filter).
  split.
  - intros [Hxy Hy]. assert (Hx : x ∈ remaining c) by (rewrite Heq; set_solver).
    apply Hin in Hx as [Hcx _]. assert (Hyr : y ∈ remaining c) by (apply Hin; eauto).
    rewrite Heq in Hyr. apply elem_of_app in Hyr as [Hyp|]; [|done].
    assert (Hyx : y = x \/ R y x).
    { apply elem_of_app in Hyp as [Hyl|Hyx]; [right|set_solver].
      apply StronglySorted_app in Hpage as (Hc2 & _). apply Hc2; set_solver. }
    destruct Hyx as [->|Hyx]; [by destruct (irreflexivity R x)|].
    by destruct (irreflexivity R x (transitivity Hxy Hyx)).
  - intros Hy. split; [apply Hcross; set_solver|]. apply (proj1 (Hin y)). rewrite Heq. set_solver.
Qed.

(** A client that follows correct pages sees exactly the remaining items. *)
Lemma collect_complete (good : C -> Prop) page fuel c :
  (forall c', good c' -> page_ok c' (page c').1 (page c').2) ->
  (forall x, x ∈ items -> good (key x)) -> good c ->
  (length (remaining c) < fuel)%nat -> collect page fuel c = Some (remaining c).
Proof.
  intros Hok Hkey. revert c. induction fuel as [|fuel IH]; intros c Hc Hf; [lia|]. simpl.
  specialize (Hok c Hc). destruct (page c) as [l next]. destruct Hok as (rest & Heq & Hn). simpl in *.
  destruct next as [c'|].
  - destruct Hn as (Hne & x & Hlast & ->). pose proof (remaining_next c l rest x Heq Hlast) as Hr.
    rewrite IH, Hr; [by rewrite Heq| |].
    + apply Hkey. apply last_Some_elem_of in Hlast.
      assert (Hx : x ∈ remaining c) by (rewrite Heq; set_solver).
      by apply list_elem_of_filter in Hx as [_ Hx].
    + rewrite Hr. rewrite Heq, length_app in Hf. destruct l; [done|]. simpl in Hf. lia.
  - by rewrite Heq, Hn, app_nil_r.
Qed.
End pagination.
