(* ===== verification/Utf8.v ===== *)
(** * UTF-8 validation as an interface

    [utf8_range::IsStructurallyValid] comes with the bundled Protobuf sources
    and is not part of the repository: it is the operation of [Utf8Ops], and the
    facts about it that the program relies on are the laws of [Utf8Laws].  The
    reference validator at the end of the file (Unicode Standard, table 3-7) is
    an instance of both, used to evaluate the model on concrete input. *)
From stdpp Require Import prelude strings.
From Stdlib Require Import Ascii ZArith Lia.
From S2P Require Import Prelude.

Class Utf8Ops := is_structurally_valid : string -> bool.

(** The character is in the ASCII range. *)
Definition is_ascii_char (c : ascii) : bool := char_code c <? 128.

Class Utf8Laws `{Utf8Ops} : Prop := {
  utf8_app s t :
    is_structurally_valid s = true -> is_structurally_valid t = true ->
    is_structurally_valid (s +:+ t) = true;
  utf8_ascii s : str_forallb is_ascii_char s = true -> is_structurally_valid s = true;
}.

(** ** The reference validator

    A lead byte fixes how many continuation bytes follow and the range of the
    first of them. *)
Definition utf8_lead (b : Z) : option (nat * Z * Z) :=
  if b <? 128 then Some (0%nat, 128, 191)
  else if (194 <=? b) && (b <=? 223) then Some (1%nat, 128, 191)
  else if b =? 224 then Some (2%nat, 160, 191)
  else if b =? 237 then Some (2%nat, 128, 159)
  else if (225 <=? b) && (b <=? 239) then Some (2%nat, 128, 191)
  else if b =? 240 then Some (3%nat, 144, 191)
  else if (241 <=? b) && (b <=? 243) then Some (3%nat, 128, 191)
  else if b =? 244 then Some (3%nat, 128, 143)
  else None.

Fixpoint utf8_scan (need : nat) (lo hi : Z) (s : string) : bool :=
  match s with
  | EmptyString => match need with O => true | S _ => false end
  | String c s' =>
      match need with
      | O =>
          match utf8_lead (char_code c) with
          | Some (need', lo', hi') => utf8_scan need' lo' hi' s'
          | None => false
          end
      | S need' =>
          (lo <=? char_code c) && (char_code c <=? hi) && utf8_scan need' 128 191 s'
      end
  end.

Definition utf8_reference : Utf8Ops := utf8_scan 0 128 191.

Lemma utf8_scan_app s t need lo hi :
  utf8_scan need lo hi s = true -> utf8_scan 0 128 191 t = true ->
  utf8_scan need lo hi (s +:+ t) = true.
Proof.
  revert need lo hi. induction s as [|c s IH]; intros need lo hi Hs Ht.
  - destruct need; [|done]. change ("" +:+ t) with t. destruct t; done.
  - change (String c s +:+ t) with (String c (s +:+ t)). simpl in *.
    destruct need as [|need].
    + destruct (utf8_lead (char_code c)) as [[[n l] h]|]; [auto|done].
    + bool_simp. rewrite !andb_true_iff, !Z.leb_le. auto.
Qed.

Lemma utf8_scan_ascii s lo hi : str_forallb is_ascii_char s = true -> utf8_scan 0 lo hi s = true.
Proof.
  revert lo hi. induction s as [|c s IH]; intros lo hi Hs; [done|]. simpl in *.
  bool_simp. unfold is_ascii_char in *. unfold utf8_lead.
  destruct (char_code c <? 128) eqn:E; [auto|done].
Qed.

Lemma utf8_reference_laws : @Utf8Laws utf8_reference.
Proof.
  split; unfold is_structurally_valid, utf8_reference.
  - intros s t. apply utf8_scan_app.
  - intros s. apply utf8_scan_ascii.
Qed.
