(* ===== verification/Contracts.v ===== *)
(** * Shared contracts (include/pipeforge/contracts.hpp)

    The owning values, metadata, operations and outcomes that the codec, the
    domain and the client exchange.  A [std::string] is a [string] of bytes, a
    [std::vector] a list, an enumeration with a fixed [uint8_t] representation a
    [Z] with named constants (any representable value can occur, which is what
    the validators look for), and a [double] its 64-bit IEEE-754 pattern.  The
    valueless state of a [std::variant] (left behind by an exception thrown in an
    assignment) is not represented: exceptions are outside the model. *)
From stdpp Require Import prelude gmap strings.
From Stdlib Require Import ZArith Lia.
From S2P Require Import Prelude.

Definition version : Z := 1.
Definition max_payload_bytes : Z := 1024 * 1024.
Definition max_string_bytes : Z := 64 * 1024.
Definition frame_header_bytes : Z := 4.
Definition max_entries : Z := 64.
Definition max_name_bytes : Z := 128.
Definition max_recursion_depth : Z := 16.
Definition default_page_size : Z := 32.

(** ** Enumerations *)
Definition error_code : Type := Z.
Definition invalid_request : error_code := 1.
Definition not_found : error_code := 2.
Definition quota_exceeded : error_code := 3.
Definition timeout : error_code := 4.
Definition cancelled : error_code := 5.
Definition access_denied : error_code := 6.
Definition transport_failure : error_code := 7.
Definition internal_failure : error_code := 8.
Definition unsupported_version : error_code := 9.
Definition numeric_overflow : error_code := 10.

Definition value_kind : Type := Z.
Definition kind_text : value_kind := 1.
Definition kind_integer : value_kind := 2.
Definition kind_real : value_kind := 3.

(** ** Values *)
Inductive value :=
  | Text (s : string)
  | Integer (n : Z)
  | Real (bits : Z).

(** Sign-free part of a double, its exponent field, and the IEEE-754 tests. *)
Definition real_magnitude (bits : Z) : Z := bits mod 9223372036854775808.
Definition real_exponent (bits : Z) : Z := Z.land (Z.shiftr bits 52) 2047.
Definition real_isfinite (bits : Z) : bool := negb (real_exponent bits =? 2047).
Definition real_isnan (bits : Z) : bool := 9218868437227405312 <? real_magnitude bits.

(** [operator==] on doubles: NaN differs from everything, the zeros are equal. *)
Definition real_eqb (a b : Z) : bool :=
  negb (real_isnan a) && negb (real_isnan b)
  && ((a =? b) || ((real_magnitude a =? 0) && (real_magnitude b =? 0))).

(** [operator==] of the variant: same alternative, equal contents. *)
Definition value_eqb (v w : value) : bool :=
  match v, w with
  | Text s, Text t => bool_decide (s = t)
  | Integer m, Integer n => m =? n
  | Real a, Real b => real_eqb a b
  | _, _ => false
  end.

Record named_value := { nv_name : string; nv_data : value }.
Record value_record := { vr_id : Z; vr_data : value }.
Record parameter := { param_name : string; param_kind : value_kind }.
Record attribute := { attr_name : string; attr_kind : value_kind; attr_read_only : bool }.
Record method := {
  method_name : string;
  method_parameters : list parameter;
  method_result_kind : value_kind;
}.
Record class_description := {
  desc_name : string;
  desc_attributes : list attribute;
  desc_methods : list method;
  desc_constructor_parameters : list parameter;
}.
Record object_snapshot := {
  snap_id : Z;
  snap_class_name : string;
  snap_state : list named_value;
}.

(** ** Operations *)
Inductive operation :=
  | list_classes (after : string) (limit : Z)
  | describe_class (name : string)
  | put_value (data : value)
  | get_value (id : Z)
  | list_values (after : Z) (limit : Z)
  | create_object (class_name : string) (arguments : list named_value)
  | get_object (id : Z)
  | release_object (id : Z)
  | get_attribute (id : Z) (name : string)
  | invoke_method (id : Z) (name : string) (arguments : list named_value).

(** ** Outcomes *)
Record classes_page := { cp_names : list string; cp_next : string }.
Record values_page := { vp_values : list value_record; vp_next : Z }.
Record remote_error := { err_code : error_code; err_message : string }.

Inductive outcome :=
  | o_classes (page : classes_page)
  | o_description (d : class_description)
  | o_record (r : value_record)
  | o_values (page : values_page)
  | o_object (s : object_snapshot)
  | o_released
  | o_value (v : value)
  | o_error (e : remote_error).

Record request := { req_id : Z; req_body : operation; req_version : Z }.
Record response := { resp_id : Z; resp_body : outcome; resp_version : Z }.

(** ** Decidable equality *)
#[global] Instance value_eq_dec : EqDecision value.
Proof. solve_decision. Defined.
#[global] Instance named_value_eq_dec : EqDecision named_value.
Proof. solve_decision. Defined.
#[global] Instance value_record_eq_dec : EqDecision value_record.
Proof. solve_decision. Defined.
#[global] Instance parameter_eq_dec : EqDecision parameter.
Proof. unfold EqDecision, value_kind in *. solve_decision. Defined.
#[global] Instance attribute_eq_dec : EqDecision attribute.
Proof. solve_decision. Defined.
#[global] Instance method_eq_dec : EqDecision method.
Proof. solve_decision. Defined.
#[global] Instance class_description_eq_dec : EqDecision class_description.
Proof. solve_decision. Defined.
#[global] Instance object_snapshot_eq_dec : EqDecision object_snapshot.
Proof. solve_decision. Defined.
#[global] Instance operation_eq_dec : EqDecision operation.
Proof. solve_decision. Defined.
#[global] Instance classes_page_eq_dec : EqDecision classes_page.
Proof. solve_decision. Defined.
#[global] Instance values_page_eq_dec : EqDecision values_page.
Proof. solve_decision. Defined.
#[global] Instance remote_error_eq_dec : EqDecision remote_error.
Proof. solve_decision. Defined.
#[global] Instance outcome_eq_dec : EqDecision outcome.
Proof. solve_decision. Defined.

(** The contents of a value fit the C++ alternative that holds them. *)
Definition value_typed (v : value) : Prop :=
  match v with
  | Text _ => True
  | Integer n => in_i64 n
  | Real bits => in_u64 bits
  end.

Lemma real_exponent_range bits : 0 <= real_exponent bits < 2048.
Proof.
  unfold real_exponent. change 2047 with (Z.ones 11). rewrite Z.land_ones by lia.
  apply Z.mod_pos_bound. lia.
Qed.

(** A finite double is not a NaN, hence equal to itself. *)
Lemma real_finite_eqb_refl bits : real_isfinite bits = true -> real_eqb bits bits = true.
Proof.
  intros Hf. unfold real_eqb. rewrite Z.eqb_refl, orb_true_l, andb_true_r.
  enough (real_isnan bits = false) as -> by done.
  unfold real_isnan. apply Z.ltb_ge.
  destruct (Z.le_gt_cases (real_magnitude bits) 9218868437227405312) as [|Hgt]; [done|].
  exfalso. unfold real_isfinite in Hf. bool_simp. apply Hf.
  unfold real_exponent, real_magnitude in *. change 2047 with (Z.ones 11).
  rewrite Z.land_ones, Z.shiftr_div_pow2 by lia.
  change (2 ^ 52) with 4503599627370496. change (2 ^ 11) with 2048.
  assert (Hm : bits mod 9223372036854775808 / 4503599627370496 = bits / 4503599627370496 mod 2048).
  { change 9223372036854775808 with (4503599627370496 * 2048).
    rewrite Z.rem_mul_r by lia. rewrite Z.add_comm, Z.mul_comm, Z.div_add_l by lia.
    rewrite Z.mod_div by lia. lia. }
  rewrite <- Hm. change (Z.ones 11) with 2047. pose proof (Z.mod_pos_bound bits 9223372036854775808 eq_refl).
  symmetry. apply (Z.div_unique _ _ _ (bits mod 9223372036854775808 - 4503599627370496 * 2047)); lia.
Qed.
