(* ===== verification/Validation.v ===== *)
(** * Field, metadata and resource validation
    (include/pipeforge/validation.hpp, src/contracts/validation.cpp)

    One boolean function per validator.  Identifier characters are compared by
    their unsigned code; on a platform with signed [char] a byte above 127 is
    negative and fails the same range tests. *)
From stdpp Require Import prelude gmap strings.
From Stdlib Require Import Ascii ZArith Lia.
From S2P Require Import Prelude Utf8 Contracts.

Definition max_message_nodes : Z := 4096.

(** ** Validators *)
Definition in_range (lo hi : Z) (c : ascii) : bool := (lo <=? char_code c) && (char_code c <=? hi).

Definition is_digit (c : ascii) : bool := in_range 48 57 c.

Definition name_char (c : ascii) : bool :=
  in_range 97 122 c || in_range 65 90 c || is_digit c || (char_code c =? 95).

Definition valid_name (name : string) (allow_empty : bool) : bool :=
  match name with
  | EmptyString => allow_empty
  | String front _ =>
      if (max_name_bytes <? strlen name) || is_digit front then false
      else str_forallb name_char name
  end.

Definition valid_kind (kind : value_kind) : bool :=
  (kind =? kind_text) || (kind =? kind_integer) || (kind =? kind_real).

Definition kind_of (data : value) : value_kind :=
  match data with
  | Text _ => kind_text
  | Integer _ => kind_integer
  | Real _ => kind_real
  end.

Definition value_bytes (data : value) : Z :=
  match data with
  | Text s => strlen s
  | _ => 8
  end.

Definition valid_page_size (size : Z) : bool := negb (size =? 0) && (size <=? max_entries).

(** The loop of [valid_names]: the set holds the names seen so far, and an
    insertion that finds its name present ends the scan. *)
Fixpoint valid_names_from {A} (name : A -> string) (seen : gset string) (l : list A) : bool :=
  match l with
  | [] => true
  | x :: l' =>
      valid_name (name x) false && negb (bool_decide (name x ∈ seen))
      && valid_names_from name ({[name x]} ∪ seen) l'
  end.

Definition valid_names {A} (name : A -> string) (l : list A) : bool := valid_names_from name ∅ l.

Definition valid_parameters (parameters : list parameter) : bool :=
  (len parameters <=? max_entries) && valid_names param_name parameters
  && forallb (fun item => valid_kind (param_kind item)) parameters.

(** The second loop of [valid_description]: [nodes] accumulates the parameters of
    the methods; [None] is the early return. *)
Fixpoint count_methods (nodes : Z) (methods : list method) : option Z :=
  match methods with
  | [] => Some nodes
  | m :: rest =>
      if negb (valid_kind (method_result_kind m)) || negb (valid_parameters (method_parameters m))
      then None
      else count_methods (nodes ⊞ len (method_parameters m)) rest
  end.

Definition valid_description (d : class_description) : bool :=
  if negb (valid_name (desc_name d) false) || (max_entries <? len (desc_attributes d))
     || (max_entries <? len (desc_methods d)) || negb (valid_names attr_name (desc_attributes d))
     || negb (valid_names method_name (desc_methods d))
     || negb (valid_parameters (desc_constructor_parameters d))
  then false
  else
    let nodes := 1 ⊞ len (desc_attributes d) ⊞ len (desc_methods d)
                 ⊞ len (desc_constructor_parameters d) in
    if negb (forallb (fun a => valid_kind (attr_kind a)) (desc_attributes d)) then false
    else
      match count_methods nodes (desc_methods d) with
      | None => false
      | Some total => total <? max_message_nodes
      end.

Definition make_error (code : error_code) : remote_error :=
  if code =? invalid_request then {| err_code := code; err_message := "Invalid request" |}
  else if code =? not_found then {| err_code := code; err_message := "Resource not found" |}
  else if code =? quota_exceeded then {| err_code := code; err_message := "Resource limit exceeded" |}
  else if code =? timeout then {| err_code := code; err_message := "Operation timed out" |}
  else if code =? cancelled then {| err_code := code; err_message := "Operation cancelled" |}
  else if code =? access_denied then {| err_code := code; err_message := "Session access denied" |}
  else if code =? transport_failure then {| err_code := code; err_message := "Transport failure" |}
  else if code =? unsupported_version
       then {| err_code := code; err_message := "Unsupported protocol version" |}
  else if code =? numeric_overflow then {| err_code := code; err_message := "Numeric overflow" |}
  else {| err_code := internal_failure; err_message := "Internal failure" |}.

Section values.
Context `{Utf8Ops}.

Definition valid_value (data : value) : bool :=
  match data with
  | Text s => (strlen s <=? max_string_bytes) && is_structurally_valid s
  | Integer _ => true
  | Real bits => real_isfinite bits
  end.

Definition valid_named_values (l : list named_value) : bool :=
  (len l <=? max_entries) && valid_names nv_name l
  && forallb (fun item => valid_value (nv_data item)) l.

Definition argument_matches (arguments : list named_value) (p : parameter) : bool :=
  match find_named nv_name (param_name p) arguments with
  | None => false
  | Some found => kind_of (nv_data found) =? param_kind p
  end.

Definition valid_arguments (arguments : list named_value) (parameters : list parameter) : bool :=
  if negb (len arguments =? len parameters) || negb (valid_named_values arguments) then false
  else forallb (argument_matches arguments) parameters.
End values.

(** The signature of a parameter, and of an argument that could fill it. *)
Definition signature (p : parameter) : string * value_kind := (param_name p, param_kind p).
Definition argument_signature (a : named_value) : string * value_kind :=
  (nv_name a, kind_of (nv_data a)).

(** ** Names *)
Lemma valid_names_from_spec {A} (name : A -> string) seen l :
  valid_names_from name seen l = true <->
  Forall (fun x => valid_name (name x) false = true) l /\ NoDup (name <$> l)
  /\ (forall x, x ∈ l -> name x ∉ seen).
Proof.
  revert seen. induction l as [|x l IH]; intros seen; simpl.
  { split; [|done]. intros _. split_and!; [constructor|constructor|set_solver]. }
  rewrite !andb_true_iff, negb_true_iff, bool_decide_eq_false, IH, Forall_cons, NoDup_cons.
  split.
  - intros [[Hv Hs] (Hf & Hnd & Hns)]. split_and!; [done..| | done |].
    + intros (y & Hy & Hin)%list_elem_of_fmap. specialize (Hns _ Hin). set_solver.
    + intros y [->|Hy]%elem_of_cons; [done|]. specialize (Hns y Hy). set_solver.
  - intros ([Hv Hf] & [Hx Hnd] & Hs). split_and!; [done|apply Hs; set_solver|done..|].
    intros y Hy. rewrite elem_of_union, elem_of_singleton. intros [Heq|Hin].
    + apply Hx. rewrite <- Heq. by apply list_elem_of_fmap_2.
    + apply (Hs y); [set_solver|done].
Qed.

Lemma valid_names_spec {A} (name : A -> string) l :
  valid_names name l = true <->
  Forall (fun x => valid_name (name x) false = true) l /\ NoDup (name <$> l).
Proof. unfold valid_names. rewrite valid_names_from_spec. set_solver. Qed.

Lemma valid_name_length name b : valid_name name b = true -> strlen name <= max_name_bytes.
Proof.
  destruct name as [|c s]; simpl; [unfold strlen, max_name_bytes; simpl; lia|].
  intros Hn. split_ifs_in Hn; bool_simp; done.
Qed.

Lemma valid_name_chars name b : valid_name name b = true -> str_forallb name_char name = true.
Proof. destruct name as [|c s]; [done|]. unfold valid_name. case_match; [done|auto]. Qed.

Lemma valid_name_ne name : valid_name name false = true -> name <> "".
Proof. by destruct name. Qed.

Lemma valid_name_allow name : valid_name name false = true -> valid_name name true = true.
Proof. by destruct name. Qed.

Lemma name_char_ascii c : name_char c = true -> is_ascii_char c = true.
Proof.
  unfold name_char, is_digit, in_range, is_ascii_char. intros.
  repeat match goal with
  | H : _ || _ = true |- _ => apply orb_true_iff in H; destruct H
  end; bool_simp; apply Z.ltb_lt; lia.
Qed.

Lemma valid_name_utf8 `{Utf8Laws} name b :
  valid_name name b = true -> is_structurally_valid name = true.
Proof.
  intros Hn. apply utf8_ascii.
  eapply str_forallb_impl; [|by eapply valid_name_chars]. apply name_char_ascii.
Qed.

Lemma valid_kind_spec k :
  valid_kind k = true <-> k = kind_text \/ k = kind_integer \/ k = kind_real.
Proof. unfold valid_kind. rewrite !orb_true_iff, !Z.eqb_eq. tauto. Qed.

Lemma valid_kind_of v : valid_kind (kind_of v) = true.
Proof. by destruct v. Qed.

Lemma valid_page_size_spec n : 0 <= n -> valid_page_size n = true <-> 1 <= n <= max_entries.
Proof. unfold valid_page_size, max_entries. rewrite andb_true_iff, negb_true_iff, Z.eqb_neq, Z.leb_le. lia. Qed.

(** ** Errors *)
Lemma make_error_code c : invalid_request <= err_code (make_error c) <= numeric_overflow.
Proof.
  unfold make_error, invalid_request, not_found, quota_exceeded, timeout, cancelled, access_denied,
    transport_failure, internal_failure, unsupported_version, numeric_overflow.
  split_match; bool_simp; simpl; subst; lia.
Qed.

Lemma make_error_code_id c : 1 <= c <= 10 -> err_code (make_error c) = c.
Proof.
  intros Hc. assert (c = 1 \/ c = 2 \/ c = 3 \/ c = 4 \/ c = 5 \/ c = 6 \/ c = 7 \/ c = 8 \/ c = 9 \/ c = 10)
    as Hcases by lia.
  destruct_or! Hcases; subst; done.
Qed.

(** ** Values *)
Section value_facts.
Context `{Utf8Ops}.

Lemma value_bytes_nonneg v : 0 <= value_bytes v.
Proof. destruct v; simpl; auto with pf; lia. Qed.

Lemma value_bytes_bound v : valid_value v = true -> value_bytes v <= max_string_bytes.
Proof. destruct v; simpl; intros; bool_simp; unfold max_string_bytes in *; lia. Qed.

Lemma valid_value_eqb_refl v : valid_value v = true -> value_eqb v v = true.
Proof.
  destruct v; simpl; intros Hv; [by rewrite bool_decide_eq_true|by rewrite Z.eqb_refl|].
  by apply real_finite_eqb_refl.
Qed.

Lemma valid_named_values_spec l :
  valid_named_values l = true <->
  len l <= max_entries /\ Forall (fun x => valid_name (nv_name x) false = true) l
  /\ NoDup (nv_name <$> l) /\ Forall (fun x => valid_value (nv_data x) = true) l.
Proof.
  unfold valid_named_values.
  rewrite !andb_true_iff, Z.leb_le, valid_names_spec, forallb_spec. tauto.
Qed.

(** Distinctly named arguments match distinctly named parameters exactly when the
    two lists of signatures are permutations of each other. *)
Lemma arguments_perm arguments parameters :
  NoDup (nv_name <$> arguments) -> NoDup (param_name <$> parameters) ->
  len arguments = len parameters ->
  (forall p, p ∈ parameters -> argument_matches arguments p = true) <->
  argument_signature <$> arguments ≡ₚ signature <$> parameters.
Proof.
  intros Ha Hp Hlen.
  assert (Hsa : NoDup (argument_signature <$> arguments)).
  { apply (NoDup_fmap_1 fst). by rewrite <- list_fmap_compose. }
  assert (Hsp : NoDup (signature <$> parameters)).
  { apply (NoDup_fmap_1 fst). by rewrite <- list_fmap_compose. }
  split.
  - intros Hm. symmetry. apply submseteq_length_Permutation.
    + apply NoDup_submseteq; [done|]. intros s (p & -> & Hin)%list_elem_of_fmap.
      specialize (Hm p Hin). unfold argument_matches in Hm.
      destruct (find_named _ _ _) as [a|] eqn:E; [|done]. bool_simp.
      apply find_named_Some in E as [Hin' Hn]. apply list_elem_of_fmap.
      exists a. split; [|done]. unfold signature, argument_signature. congruence.
    + rewrite !length_fmap. unfold len in Hlen. lia.
  - intros Hperm p Hin. unfold argument_matches.
    assert (Hs : signature p ∈ argument_signature <$> arguments).
    { rewrite Hperm. by apply list_elem_of_fmap_2. }
    apply list_elem_of_fmap in Hs as (a & Hs & Ha').
    unfold signature, argument_signature in Hs. simplify_eq.
    replace (param_name p) with (nv_name a) by done.
    rewrite find_named_NoDup by done. apply Z.eqb_eq. done.
Qed.

Lemma valid_arguments_spec arguments parameters :
  NoDup (param_name <$> parameters) ->
  valid_arguments arguments parameters = true <->
  valid_named_values arguments = true
  /\ argument_signature <$> arguments ≡ₚ signature <$> parameters.
Proof.
  intros Hp. unfold valid_arguments.
  destruct (len arguments =? len parameters) eqn:El; simpl; bool_simp; last first.
  { split; [done|]. intros [_ Hperm%Permutation_length]. rewrite !length_fmap in Hperm.
    unfold len in El. lia. }
  destruct (valid_named_values arguments) eqn:Ev; simpl; [|naive_solver].
  apply valid_named_values_spec in Ev as (_ & _ & Hnd & _).
  rewrite forallb_spec, Forall_forall, arguments_perm by done. naive_solver.
Qed.
End value_facts.

(** ** Descriptions *)
Definition method_ok (m : method) : Prop :=
  valid_kind (method_result_kind m) = true /\ valid_parameters (method_parameters m) = true.

(** Messages that the wire form of a description consists of. *)
Definition description_nodes (d : class_description) : Z :=
  1 + len (desc_attributes d) + len (desc_methods d) + len (desc_constructor_parameters d)
  + zsum (fun m => len (method_parameters m)) (desc_methods d).

Lemma valid_parameters_spec l :
  valid_parameters l = true <->
  len l <= max_entries /\ Forall (fun x => valid_name (param_name x) false = true) l
  /\ NoDup (param_name <$> l) /\ Forall (fun x => valid_kind (param_kind x) = true) l.
Proof.
  unfold valid_parameters.
  rewrite !andb_true_iff, Z.leb_le, valid_names_spec, forallb_spec. tauto.
Qed.

Lemma count_methods_spec ms nodes total :
  0 <= nodes -> nodes + len ms * max_entries < two64 ->
  count_methods nodes ms = Some total <->
  Forall method_ok ms /\ total = nodes + zsum (fun m => len (method_parameters m)) ms.
Proof.
  revert nodes. induction ms as [|m ms IH]; intros nodes Hn Hb; simpl.
  { split; [intros; simplify_eq; split; [constructor|lia]|intros [_ ->]; f_equal; lia]. }
  rewrite len_cons in Hb. rewrite Forall_cons. unfold method_ok at 1.
  destruct (valid_kind (method_result_kind m)); simpl; [|naive_solver].
  destruct (valid_parameters (method_parameters m)) eqn:E; simpl; [|naive_solver].
  apply valid_parameters_spec in E as [Hl _]. pose proof (len_nonneg (method_parameters m)).
  pose proof (len_nonneg ms). unfold max_entries in *.
  rewrite u64_add_exact by lia. rewrite IH by lia. rewrite Z.add_assoc. tauto.
Qed.

Lemma valid_description_spec d :
  valid_description d = true <->
  (valid_name (desc_name d) false = true /\ len (desc_attributes d) <= max_entries
   /\ len (desc_methods d) <= max_entries /\ valid_names attr_name (desc_attributes d) = true
   /\ valid_names method_name (desc_methods d) = true
   /\ valid_parameters (desc_constructor_parameters d) = true)
  /\ Forall (fun a => valid_kind (attr_kind a) = true) (desc_attributes d)
  /\ Forall method_ok (desc_methods d) /\ description_nodes d < max_message_nodes.
Proof.
  unfold valid_description. set (guard := _ || _).
  destruct guard eqn:Eg; subst guard.
  { split; [done|]. intros ((H1 & H2 & H3 & H4 & H5 & H6) & _).
    rewrite H1, H4, H5, H6 in Eg. apply Z.ltb_ge in H2, H3. rewrite H2, H3 in Eg. done. }
  bool_simp. match goal with H : valid_parameters _ = true |- _ => pose proof H as Hc end.
  apply valid_parameters_spec in Hc as [Hc _].
  pose proof (len_nonneg (desc_attributes d)). pose proof (len_nonneg (desc_methods d)).
  pose proof (len_nonneg (desc_constructor_parameters d)). unfold max_entries in *.
  rewrite (u64_add_exact 1 (len _)) by (unfold two64; lia).
  rewrite (u64_add_exact (1 + len _) (len _)) by (unfold two64; lia).
  rewrite (u64_add_exact (1 + len _ + len _) (len _)) by (unfold two64; lia).
  destruct (forallb _ _) eqn:Ek; simpl; last first.
  { split; [done|]. intros (_ & Hk & _). apply forallb_spec in Hk. congruence. }
  apply forallb_spec in Ek. unfold description_nodes. set (n0 := 1 + _ + _ + _).
  destruct (count_methods n0 (desc_methods d)) as [total|] eqn:Ec.
  - apply count_methods_spec in Ec as [Hm ->]; [|unfold n0, two64, max_entries in *; lia..].
    rewrite Z.ltb_lt. tauto.
  - split; [done|]. intros (_ & _ & Hm & _).
    assert (Hs : count_methods n0 (desc_methods d)
      = Some (n0 + zsum (fun m => len (method_parameters m)) (desc_methods d)))
      by (apply count_methods_spec; unfold n0, two64, max_entries; [lia..|done]).
    congruence.
Qed.
