(* ===== verification/Framing.v ===== *)
(** * Length framing (include/pipeforge/protocol.hpp, src/protocol/framing.cpp)

    [frame] and the incremental [frame_decoder].  A [std::span<const std::byte>]
    is a list of bytes; a [std::variant<T, failure>] is the sum [T + failure].
    The specification at the end of the definitions is a one-step parser of the
    whole byte stream, [next_frame], and the theorems show that the decoder
    computes it whatever the chunking of its input. *)
From stdpp Require Import prelude.
From Stdlib Require Import ZArith Lia Strings.Byte.
From S2P Require Import Prelude Contracts.

(** ** Bytes *)
Abbreviation bytes := (list byte).
Definition byte_Z (b : byte) : Z := Z.of_N (Byte.to_N b).
Definition byte_of_Z (z : Z) : byte :=
  match Byte.of_N (Z.to_N (z mod 256)) with Some b => b | None => x00 end.

(** ** Failures *)
Inductive failure_code :=
  | fc_malformed
  | fc_invalid_fields
  | fc_unsupported_version
  | fc_limit_exceeded
  | fc_truncated.

Record failure := {
  f_code : failure_code;
  f_close_session : bool;
  f_request_id : option Z;
}.

#[global] Instance failure_code_eq_dec : EqDecision failure_code.
Proof. solve_decision. Defined.
#[global] Instance failure_eq_dec : EqDecision failure.
Proof. solve_decision. Defined.

(** ** Encoding *)
Definition two32 : Z := 4294967296.

Definition header_bytes (size : Z) : bytes :=
  (fun index => byte_of_Z (Z.land (Z.shiftr size (index * 8)) 255)) <$> [0; 1; 2; 3].

Definition frame (payload : bytes) : bytes + failure :=
  if bool_decide (payload = []) || (max_payload_bytes <? len payload)
  then inr {| f_code := fc_limit_exceeded; f_close_session := true; f_request_id := None |}
  else inl (header_bytes (len payload mod two32) ++ payload).

(** ** Incremental decoding *)
Record frame_progress := { consumed : Z; fp_payload : option bytes }.

Record frame_decoder := {
  header_ : bytes;
  header_used_ : Z;
  expected_ : Z;
  payload_ : bytes;
  poisoned_ : bool;
}.

Definition fresh_decoder : frame_decoder := {|
  header_ := [x00; x00; x00; x00];
  header_used_ := 0;
  expected_ := 0;
  payload_ := [];
  poisoned_ := false;
|}.

(** The loop over the header bytes: [length |= byte << shift; shift += 8]. *)
Fixpoint header_length_from (length shift : Z) (header : bytes) : Z :=
  match header with
  | [] => length
  | b :: rest =>
      header_length_from (Z.lor length (Z.shiftl (byte_Z b) shift mod two32)) (shift + 8) rest
  end.

Definition header_length (header : bytes) : Z := header_length_from 0 0 header.

(** The part of [consume] after the header is complete. *)
Definition consume_payload (d : frame_decoder) (original_size : Z) (input : bytes)
  : frame_decoder * (frame_progress + failure) :=
  let count := len input `min` (expected_ d ⊟ len (payload_ d)) in
  let payload := payload_ d ++ take (Z.to_nat count) input in
  let input' := drop (Z.to_nat count) input in
  if negb (len payload =? expected_ d)
  then ({| header_ := header_ d; header_used_ := header_used_ d; expected_ := expected_ d;
           payload_ := payload; poisoned_ := poisoned_ d |},
        inl {| consumed := original_size ⊟ len input'; fp_payload := None |})
  else ({| header_ := header_ d; header_used_ := 0; expected_ := 0;
           payload_ := []; poisoned_ := poisoned_ d |},
        inl {| consumed := original_size ⊟ len input'; fp_payload := Some payload |}).

Definition consume (d : frame_decoder) (input : bytes)
  : frame_decoder * (frame_progress + failure) :=
  if poisoned_ d
  then (d, inr {| f_code := fc_malformed; f_close_session := true; f_request_id := None |})
  else if header_used_ d <? len (header_ d) then
    let used := Z.to_nat (header_used_ d) in
    let count := len input `min` (len (header_ d) - header_used_ d) in
    let header := take used (header_ d) ++ take (Z.to_nat count) input
                  ++ drop (used + Z.to_nat count) (header_ d) in
    let input' := drop (Z.to_nat count) input in
    let header_used := header_used_ d ⊞ count in
    if negb (header_used =? len (header_ d))
    then ({| header_ := header; header_used_ := header_used; expected_ := expected_ d;
             payload_ := payload_ d; poisoned_ := false |},
          inl {| consumed := count; fp_payload := None |})
    else
      let length := header_length header in
      if (length =? 0) || (max_payload_bytes <? length)
      then ({| header_ := header; header_used_ := header_used; expected_ := expected_ d;
               payload_ := payload_ d; poisoned_ := true |},
            inr {| f_code := fc_limit_exceeded; f_close_session := true; f_request_id := None |})
      else consume_payload {| header_ := header; header_used_ := header_used;
                              expected_ := length; payload_ := payload_ d; poisoned_ := false |}
                           (len input) input'
  else consume_payload d (len input) input.

Definition finish (d : frame_decoder) : option failure :=
  if poisoned_ d || negb (header_used_ d =? 0)
  then Some {| f_code := if poisoned_ d then fc_malformed else fc_truncated;
               f_close_session := true; f_request_id := None |}
  else None.

(** ** A stream reader: call [consume] on the unconsumed suffix until the chunk
    is used up, as the header documents and [pipe_stream::receive] does. *)
Fixpoint feed (fuel : nat) (d : frame_decoder) (input : bytes)
  : frame_decoder * list bytes * option failure :=
  match input, fuel with
  | [], _ => (d, [], None)
  | _, O => (d, [], None)
  | _, S fuel' =>
      match consume d input with
      | (d', inr f) => (d', [], Some f)
      | (d', inl progress) =>
          let '(d'', payloads, error) := feed fuel' d' (drop (Z.to_nat (consumed progress)) input) in
          (d'', option_list (fp_payload progress) ++ payloads, error)
      end
  end.

Fixpoint feed_chunks (d : frame_decoder) (chunks : list bytes)
  : frame_decoder * list bytes * option failure :=
  match chunks with
  | [] => (d, [], None)
  | c :: rest =>
      match feed (length c) d c with
      | (d', payloads, Some f) => (d', payloads, Some f)
      | (d', payloads, None) =>
          let '(d'', more, error) := feed_chunks d' rest in (d'', payloads ++ more, error)
      end
  end.

(** ** Specification: parsing the whole stream *)
Inductive frame_step :=
  | NeedMore
  | BadLength
  | Frame (payload rest : bytes).

Definition next_frame (s : bytes) : frame_step :=
  if (length s <? 4)%nat then NeedMore
  else
    let n := header_length (take 4 s) in
    if (n =? 0) || (max_payload_bytes <? n) then BadLength
    else if len (drop 4 s) <? n then NeedMore
    else Frame (take (Z.to_nat n) (drop 4 s)) (drop (Z.to_nat n) (drop 4 s)).

(** [frames_of s ps r bad]: the stream [s] consists of the frames [ps] followed
    by the bytes [r], which are an incomplete frame or, when [bad], start with an
    invalid header. *)
Inductive frames_of : bytes -> list bytes -> bytes -> bool -> Prop :=
  | frames_more s : next_frame s = NeedMore -> frames_of s [] s false
  | frames_bad s : next_frame s = BadLength -> frames_of s [] s true
  | frames_cons s p s' ps r bad :
      next_frame s = Frame p s' -> frames_of s' ps r bad -> frames_of s (p :: ps) r bad.

(** The bytes of the current frame that a decoder has taken over. *)
Definition pending (d : frame_decoder) : bytes :=
  take (Z.to_nat (header_used_ d)) (header_ d) ++ payload_ d.

(** Decoder invariant: either the header is incomplete and nothing else is
    stored, or it announces a payload that is not complete yet. *)
Definition decoder_wf (d : frame_decoder) : Prop :=
  poisoned_ d = false /\ length (header_ d) = 4%nat
  /\ ((0 <= header_used_ d < 4 /\ payload_ d = [] /\ expected_ d = 0)
      \/ (header_used_ d = 4 /\ expected_ d = header_length (header_ d)
          /\ 0 < expected_ d <= max_payload_bytes /\ len (payload_ d) < expected_ d)).

(** ** Bytes and headers *)
Lemma byte_Z_range b : 0 <= byte_Z b < 256.
Proof. unfold byte_Z. pose proof (Byte.to_N_bounded b). lia. Qed.

Lemma byte_Z_of_Z z : byte_Z (byte_of_Z z) = z mod 256.
Proof.
  unfold byte_Z, byte_of_Z. pose proof (Z.mod_pos_bound z 256 eq_refl).
  destruct (Byte.of_N (Z.to_N (z mod 256))) as [b|] eqn:E.
  - apply Byte.to_of_N in E. rewrite E. lia.
  - apply Byte.of_N_None_iff in E. lia.
Qed.

Lemma lor_shiftl_add a b k : 0 <= k -> 0 <= a < 2 ^ k -> Z.lor a (Z.shiftl b k) = a + b * 2 ^ k.
Proof.
  intros Hk Ha. rewrite <- Z.shiftl_mul_pow2 by done.
  symmetry. rewrite Z.add_nocarry_lxor.
  - rewrite Z.lxor_lor; [done|]. apply Z.bits_inj'. intros n Hn.
    rewrite Z.land_spec, Z.shiftl_spec, Z.bits_0 by done.
    destruct (Z.lt_ge_cases n k).
    + rewrite (Z.testbit_neg_r b) by lia. apply andb_false_r.
    + rewrite <- (Z.mod_small a (2 ^ k)), Z.mod_pow2_bits_high by lia. done.
  - apply Z.bits_inj'. intros n Hn. rewrite Z.land_spec, Z.shiftl_spec, Z.bits_0 by done.
    destruct (Z.lt_ge_cases n k).
    + rewrite (Z.testbit_neg_r b) by lia. apply andb_false_r.
    + rewrite <- (Z.mod_small a (2 ^ k)), Z.mod_pow2_bits_high by lia. done.
Qed.

(** The header loop computes the little-endian value of four bytes. *)
Lemma header_length_value b0 b1 b2 b3 :
  header_length [b0; b1; b2; b3]
  = byte_Z b0 + byte_Z b1 * 256 + byte_Z b2 * 65536 + byte_Z b3 * 16777216.
Proof.
  pose proof (byte_Z_range b0). pose proof (byte_Z_range b1).
  pose proof (byte_Z_range b2). pose proof (byte_Z_range b3).
  unfold header_length. cbn [header_length_from].
  rewrite Z.shiftl_0_r, Z.lor_0_l.
  assert (Hs : forall b k, 0 <= b < 256 -> 0 <= k <= 24 -> Z.shiftl b k mod two32 = Z.shiftl b k).
  { intros b k Hb Hk. rewrite Z.shiftl_mul_pow2 by lia. apply Z.mod_small.
    assert (2 ^ k <= 2 ^ 24) by (apply Z.pow_le_mono_r; lia).
    assert (0 < 2 ^ k) by (apply Z.pow_pos_nonneg; lia).
    unfold two32. change (2 ^ 24) with 16777216 in *. nia. }
  rewrite !Hs by lia. rewrite Z.mod_small by (unfold two32; lia).
  change (0 + 8) with 8. change (8 + 8) with 16. change (16 + 8) with 24.
  rewrite (lor_shiftl_add _ _ 8), (lor_shiftl_add _ _ 16), (lor_shiftl_add _ _ 24);
    change (2 ^ 8) with 256; change (2 ^ 16) with 65536; change (2 ^ 24) with 16777216; lia.
Qed.

Lemma header_length_range h : length h = 4%nat -> 0 <= header_length h < two32.
Proof.
  destruct h as [|b0 [|b1 [|b2 [|b3 [|]]]]]; try done. intros _. rewrite header_length_value.
  pose proof (byte_Z_range b0). pose proof (byte_Z_range b1).
  pose proof (byte_Z_range b2). pose proof (byte_Z_range b3). unfold two32. lia.
Qed.

Lemma header_bytes_length n : length (header_bytes n) = 4%nat.
Proof. done. Qed.

Lemma header_roundtrip n : 0 <= n < two32 -> header_length (header_bytes n) = n.
Proof.
  intros Hn. unfold header_bytes. cbn [fmap list_fmap]. rewrite header_length_value.
  rewrite !byte_Z_of_Z. change 255 with (Z.ones 8). rewrite !Z.land_ones by lia.
  rewrite !Z.shiftr_div_pow2 by lia. change (2 ^ 8) with 256.
  change (2 ^ (0 * 8)) with 1. change (2 ^ (1 * 8)) with 256.
  change (2 ^ (2 * 8)) with 65536. change (2 ^ (3 * 8)) with 16777216.
  rewrite !Z.mod_mod by lia. unfold two32 in Hn. rewrite Z.div_1_r.
  Z.to_euclidean_division_equations. lia.
Qed.

(** ** One call of [consume] *)
Definition limit_failure : failure :=
  {| f_code := fc_limit_exceeded; f_close_session := true; f_request_id := None |}.

Definition in_payload (d : frame_decoder) : Prop :=
  poisoned_ d = false /\ length (header_ d) = 4%nat /\ header_used_ d = 4
  /\ expected_ d = header_length (header_ d) /\ 0 < expected_ d <= max_payload_bytes
  /\ len (payload_ d) < expected_ d.

Lemma consume_payload_more d osz input :
  in_payload d -> len (payload_ d ++ input) < expected_ d -> 0 <= osz - len input <= 4 ->
  exists d', consume_payload d osz input = (d', inl {| consumed := osz; fp_payload := None |})
    /\ decoder_wf d' /\ pending d' = pending d ++ input.
Proof.
  intros (Hp & Hh & Hu & He & Hb & Hl) Hlt Ho. rewrite len_app in Hlt.
  pose proof (len_nonneg (payload_ d)). pose proof (len_nonneg input).
  unfold max_payload_bytes in *. unfold consume_payload.
  rewrite (u64_sub_small (expected_ d)) by ulia.
  rewrite Z.min_l by lia. replace (Z.to_nat (len input)) with (length input) by (unfold len; lia).
  rewrite firstn_all, drop_all, len_app. destruct (_ =? expected_ d) eqn:E; bool_simp; [lia|].
  simpl. rewrite len_nil, u64_sub_small by ulia. rewrite Z.sub_0_r.
  eexists. split; [done|]. unfold decoder_wf, pending. simpl. rewrite len_app.
  split; [|by rewrite Hu, app_assoc].
  split_and!; [done..|]. right. unfold max_payload_bytes. split_and!; [done|done|lia..].
Qed.

Lemma consume_payload_done d osz input :
  in_payload d -> expected_ d <= len (payload_ d ++ input) ->
  0 <= osz - len input <= 4 ->
  let n := Z.to_nat (expected_ d) in
  exists d', consume_payload d osz input
      = (d', inl {| consumed := osz - len (drop n (payload_ d ++ input));
                    fp_payload := Some (take n (payload_ d ++ input)) |})
    /\ decoder_wf d' /\ pending d' = []
    /\ drop n (payload_ d ++ input) = drop (n - length (payload_ d)) input.
Proof.
  intros (Hp & Hh & Hu & He & Hb & Hl) Hlt Ho n. rewrite len_app in Hlt.
  pose proof (len_nonneg (payload_ d)). pose proof (len_nonneg input).
  unfold max_payload_bytes in *. unfold consume_payload.
  rewrite (u64_sub_small (expected_ d)) by ulia.
  rewrite Z.min_r by lia.
  assert (Hn : Z.to_nat (expected_ d - len (payload_ d)) = (n - length (payload_ d))%nat)
    by (unfold n, len; lia). rewrite Hn.
  assert (Hd : drop n (payload_ d ++ input) = drop (n - length (payload_ d)) input).
  { apply drop_app_ge. unfold n, len in *. lia. }
  assert (Ht : take n (payload_ d ++ input) = payload_ d ++ take (n - length (payload_ d)) input).
  { rewrite take_app_ge; [done|]. unfold n, len in *. lia. }
  rewrite Hd, Ht.
  assert (Hlen : len (payload_ d ++ take (n - length (payload_ d)) input) = expected_ d).
  { rewrite len_app, len_take. unfold n, len in *. lia. }
  rewrite Hlen, Z.eqb_refl. simpl.
  rewrite u64_sub_small by (rewrite len_drop; unfold n, len in *; ulia).
  eexists. split; [done|]. split_and!; [|done|done].
  unfold decoder_wf. simpl. split_and!; [done..|]. left. split_and!; [lia|lia|done|done].
Qed.

Lemma next_frame_long s n :
  (4 <= length s)%nat -> n = header_length (take 4 s) ->
  next_frame s = if (n =? 0) || (max_payload_bytes <? n) then BadLength
                 else if len (drop 4 s) <? n then NeedMore
                 else Frame (take (Z.to_nat n) (drop 4 s)) (drop (Z.to_nat n) (drop 4 s)).
Proof.
  intros Hs ->. unfold next_frame. destruct (length s <? 4)%nat eqn:E; [|done].
  apply Nat.ltb_lt in E. lia.
Qed.

(** What one call of [consume] does, by the first frame of the stream. *)
Definition consume_spec (d : frame_decoder) (input : bytes) : Prop :=
  match next_frame (pending d ++ input) with
  | NeedMore =>
      exists d', consume d input = (d', inl {| consumed := len input; fp_payload := None |})
        /\ decoder_wf d' /\ pending d' = pending d ++ input
  | BadLength => exists d', consume d input = (d', inr limit_failure) /\ poisoned_ d' = true
  | Frame p rest =>
      exists d', consume d input
          = (d', inl {| consumed := len input - len rest; fp_payload := Some p |})
        /\ decoder_wf d' /\ pending d' = []
        /\ rest = drop (Z.to_nat (len input - len rest)) input
        /\ len rest < len input
  end.

Lemma drop_suffix_len {A} k (l : list A) :
  drop k l = drop (Z.to_nat (len l - len (drop k l))) l.
Proof.
  rewrite len_drop. destruct (Nat.le_gt_cases (length l) k).
  - rewrite drop_ge, drop_ge; [done| |done]. unfold len. lia.
  - f_equal. unfold len. lia.
Qed.

(** The decoder whose header is complete, applied to the rest of the input. *)
Lemma consume_payload_spec d osz input :
  in_payload d -> 0 <= osz - len input <= 4 ->
  (osz = len input \/ payload_ d = [] /\ 0 < osz - len input) ->
  match next_frame (pending d ++ input) with
  | NeedMore =>
      exists d', consume_payload d osz input = (d', inl {| consumed := osz; fp_payload := None |})
        /\ decoder_wf d' /\ pending d' = pending d ++ input
  | BadLength => False
  | Frame p rest =>
      exists d', consume_payload d osz input
          = (d', inl {| consumed := osz - len rest; fp_payload := Some p |})
        /\ decoder_wf d' /\ pending d' = []
        /\ (exists k, rest = drop k input) /\ len rest < osz
  end.
Proof.
  intros Hw Ho Hc. pose proof Hw as (Hp & Hh & Hu & He & Hb & Hl).
  assert (Hpend : pending d = header_ d ++ payload_ d).
  { unfold pending. rewrite Hu. by rewrite take_ge by lia. }
  rewrite (next_frame_long _ (expected_ d)); last first.
  { by rewrite Hpend, <- app_assoc, take_app_le, take_ge by lia. }
  { rewrite Hpend, !length_app. lia. }
  assert (Hd4 : drop 4 (pending d ++ input) = payload_ d ++ input).
  { by rewrite Hpend, <- app_assoc, drop_app_ge, Hh by lia. }
  rewrite Hd4. destruct ((_ =? 0) || _) eqn:Ebad.
  { apply orb_true_iff in Ebad as [E|E]; bool_simp; lia. }
  destruct (len (payload_ d ++ input) <? expected_ d) eqn:Elt; bool_simp.
  - by apply consume_payload_more.
  - destruct (consume_payload_done d osz input Hw Elt Ho) as (d' & Hcp & Hwf & Hpd & Hdrop).
    exists d'. split_and!; [done..| |].
    + rewrite Hdrop. eauto.
    + rewrite Hdrop, len_drop. pose proof (len_nonneg input). unfold len in *.
      destruct Hc as [->|[Hnil ?]]; [|rewrite Hnil in *; simpl in *; lia].
      rewrite length_app in Elt. lia.
Qed.

(** The header phase, when the input ends before the header does. *)
Lemma consume_header_short d input :
  decoder_wf d -> 0 <= header_used_ d < 4 -> len input < 4 - header_used_ d ->
  consume_spec d input.
Proof.
  intros (Hp & Hh & Hw) Hu Hshort. destruct Hw as [(_ & Hpl & He)|(? & _)]; [|lia].
  assert (Hlh : len (header_ d) = 4) by (unfold len; lia). pose proof (len_nonneg input).
  unfold consume_spec, consume, pending. rewrite Hp, Hpl, Hlh, app_nil_r.
  replace (_ <? 4) with true by (symmetry; apply Z.ltb_lt; lia).
  replace (next_frame _) with NeedMore; last first.
  { unfold next_frame. destruct (length _ <? 4)%nat eqn:E4; [done|].
    apply Nat.ltb_ge in E4. rewrite length_app, length_take in E4. unfold len in *. lia. }
  rewrite Z.min_l by lia. rewrite u64_add_exact by ulia.
  destruct (_ =? 4) eqn:E; bool_simp; [lia|]. simpl.
  replace (Z.to_nat (len input)) with (length input) by (unfold len; lia).
  rewrite firstn_all. eexists. split; [done|].
  unfold decoder_wf; simpl. rewrite !length_app, length_take, length_drop. unfold len in *. split.
  - split_and!; [done|lia|left; split_and!; [lia|lia|done|done]].
  - rewrite app_nil_r, app_assoc, take_app_le by (rewrite length_app, length_take; lia).
    rewrite take_ge; [done|]. rewrite length_app, length_take. lia.
Qed.

(** The header phase, when the input completes the header. *)
Lemma consume_header_full d input :
  decoder_wf d -> 0 <= header_used_ d < 4 -> 4 - header_used_ d <= len input ->
  consume_spec d input.
Proof.
  intros (Hp & Hh & Hw) Hu Hlong. destruct Hw as [(_ & Hpl & He)|(? & _)]; [|lia].
  assert (Hlh : len (header_ d) = 4) by (unfold len; lia).
  unfold consume_spec, consume, pending. rewrite Hp, Hpl, Hlh, app_nil_r.
  replace (_ <? 4) with true by (symmetry; apply Z.ltb_lt; lia).
  set (used := Z.to_nat (header_used_ d)).
  rewrite Z.min_r by lia. rewrite u64_add_exact by ulia.
  replace (header_used_ d + (4 - header_used_ d)) with 4 by lia. simpl.
  set (c := Z.to_nat (4 - header_used_ d)).
  assert (Hc : (used + c = 4)%nat) by (unfold used, c; lia).
  rewrite Hc, (drop_ge (header_ d) 4), app_nil_r by lia.
  set (header := take used (header_ d) ++ take c input).
  assert (Hhl : length header = 4%nat).
  { unfold header. rewrite length_app, !length_take. unfold len in *. lia. }
  replace (take used (header_ d) ++ input) with (header ++ drop c input)
    by (unfold header; by rewrite <- app_assoc, take_drop).
  assert (Ht4 : take 4 (header ++ drop c input) = header) by (by rewrite take_app_le, take_ge by lia).
  destruct ((header_length header =? 0) || _) eqn:Ebad.
  { rewrite (next_frame_long _ (header_length header));
      [|rewrite length_app; lia|by rewrite Ht4]. rewrite Ebad. eauto. }
  set (dh := {| header_ := header; header_used_ := 4 |}).
  pose proof (header_length_range header Hhl). bool_simp.
  pose proof (consume_payload_spec dh (len input) (drop c input)) as Hs.
  rewrite len_drop in Hs. ospecialize* Hs; [| |right; split; [done|]|].
  - unfold in_payload, dh; simpl.
    split_and!; [done|done|done|done|lia|lia|unfold len; simpl; lia].
  - unfold c, len in *. lia.
  - unfold c, len in *. lia.
  - replace (pending dh) with header in Hs
      by (unfold pending, dh; cbn [header_ header_used_ payload_];
          rewrite app_nil_r, take_ge; [done|lia]).
    destruct (next_frame _) as [| |p rest]; [done|done|].
    destruct Hs as (d' & Hcp & Hwf & Hpd & [k Hk] & Hlt). exists d'. split_and!; [done..| |done].
    rewrite Hk, drop_drop. apply drop_suffix_len.
Qed.

Lemma consume_step d input : decoder_wf d -> consume_spec d input.
Proof.
  intros Hwf. pose proof Hwf as (Hp & Hh & [(Hu & _)|(Hu & He & Hb & Hl)]).
  - destruct (Z.lt_ge_cases (len input) (4 - header_used_ d));
      auto using consume_header_short, consume_header_full.
  - unfold consume_spec, consume. rewrite Hp.
    replace (_ <? _) with false by (unfold len; rewrite Hu, Hh; done).
    pose proof (consume_payload_spec d (len input) input) as Hs. pose proof (len_nonneg input).
    ospecialize* Hs; [unfold in_payload; tauto|lia|by left|].
    destruct (next_frame _) as [| |p rest]; [done|done|].
    destruct Hs as (d' & Hc & Hwf' & Hpd & [k Hk] & Hlt). exists d'. split_and!; [done..| |done].
    rewrite Hk. apply drop_suffix_len.
Qed.

(** ** Whole streams *)
Lemma next_frame_app s p s' t : next_frame s = Frame p s' -> next_frame (s ++ t) = Frame p (s' ++ t).
Proof.
  intros Hs. assert (Hl : (4 <= length s)%nat).
  { unfold next_frame in Hs. split_ifs_in Hs; try done. by apply Nat.ltb_ge. }
  rewrite (next_frame_long _ _ Hl eq_refl) in Hs.
  rewrite (next_frame_long _ (header_length (take 4 s)));
    [|rewrite length_app; lia|by rewrite take_app_le by lia].
  set (n := header_length (take 4 s)) in *.
  destruct (_ || _); [done|]. rewrite drop_app_le by lia.
  destruct (len (drop 4 s) <? n) eqn:E; [done|]. bool_simp. simplify_eq.
  rewrite len_app. pose proof (len_nonneg t).
  replace (_ <? _) with false by (symmetry; apply Z.ltb_ge; lia).
  unfold len in E. rewrite take_app_le, drop_app_le by lia. done.
Qed.

Lemma next_frame_app_bad s t : next_frame s = BadLength -> next_frame (s ++ t) = BadLength.
Proof.
  intros Hs. assert (Hl : (4 <= length s)%nat).
  { unfold next_frame in Hs. split_ifs_in Hs; try done. by apply Nat.ltb_ge. }
  rewrite (next_frame_long _ _ Hl eq_refl) in Hs.
  rewrite (next_frame_long _ (header_length (take 4 s)));
    [|rewrite length_app; lia|by rewrite take_app_le by lia].
  by split_ifs_in Hs.
Qed.

Lemma frames_of_app s ps r t ps' r' bad :
  frames_of s ps r false -> frames_of (r ++ t) ps' r' bad -> frames_of (s ++ t) (ps ++ ps') r' bad.
Proof.
  intros Hs. remember false as b eqn:Hb. induction Hs; simplify_eq; [done|].
  intros Ht. simpl. econstructor; [by apply next_frame_app|auto].
Qed.

Lemma frames_of_app_bad s ps r t : frames_of s ps r true -> frames_of (s ++ t) ps (r ++ t) true.
Proof.
  intros Hs. remember true as b eqn:Hb. induction Hs; simplify_eq.
  - apply frames_bad. by apply next_frame_app_bad.
  - econstructor; [by apply next_frame_app|auto].
Qed.

Lemma frames_of_det s ps r bad ps' r' bad' :
  frames_of s ps r bad -> frames_of s ps' r' bad' -> ps = ps' /\ r = r' /\ bad = bad'.
Proof.
  intros H1. revert ps' r' bad'.
  induction H1 as [| |s p s' ps r bad Hn Hs IH]; intros ps' r' bad' H2; inversion H2; simplify_eq;
    try congruence; try (by split_and!).
  match goal with H : next_frame s = Frame ?p' ?s2, H' : frames_of ?s2 _ _ _ |- _ =>
    rewrite Hn in H; simplify_eq; destruct (IH _ _ _ H') as (-> & -> & ->) end.
  by split_and!.
Qed.

Lemma decoder_wf_more d : decoder_wf d -> next_frame (pending d) = NeedMore.
Proof.
  intros (_ & Hh & [(Hu & Hpl & _)|(Hu & He & Hb & Hl)]); unfold pending.
  - rewrite Hpl, app_nil_r. unfold next_frame.
    destruct (length _ <? 4)%nat eqn:E; [done|]. apply Nat.ltb_ge in E.
    rewrite length_take in E. lia.
  - rewrite Hu, take_ge by lia.
    rewrite (next_frame_long _ (expected_ d)); [|rewrite length_app; lia|].
    + rewrite drop_app_ge, Hh by lia. simpl.
      destruct ((_ =? 0) || _) eqn:Ebad.
      { apply orb_true_iff in Ebad as [E|E]; bool_simp; lia. }
      by replace (_ <? _) with true by (symmetry; apply Z.ltb_lt; done).
    + by rewrite take_app_le, take_ge by lia.
Qed.

Lemma fresh_decoder_wf : decoder_wf fresh_decoder.
Proof. split_and!; [done..|]. left. simpl. split_and!; [lia|lia|done|done]. Qed.

Lemma finish_wf d : decoder_wf d ->
  finish d = if bool_decide (pending d = []) then None
             else Some {| f_code := fc_truncated; f_close_session := true; f_request_id := None |}.
Proof.
  intros (Hp & Hh & Hw). unfold finish. rewrite Hp. simpl.
  assert (Hz : header_used_ d = 0 <-> pending d = []).
  { unfold pending. rewrite <- length_zero_iff_nil, length_app, length_take.
    destruct Hw as [(Hu & -> & _)|(Hu & _)]; simpl; lia. }
  destruct (header_used_ d =? 0) eqn:E; bool_simp; simpl.
  - by rewrite bool_decide_eq_true_2 by tauto.
  - by rewrite bool_decide_eq_false_2 by tauto.
Qed.

(** What a reader has learned: the failure, if any, and the state it is left in. *)
Definition reader_result (d : frame_decoder) (r : bytes) (e : option failure) : Prop :=
  match e with
  | None => decoder_wf d /\ pending d = r
  | Some f => f = limit_failure /\ poisoned_ d = true
  end.

Definition is_bad (e : option failure) : bool := match e with Some _ => true | None => false end.

Lemma feed_spec fuel d input :
  decoder_wf d -> (length input <= fuel)%nat ->
  exists d' ps r e, feed fuel d input = (d', ps, e)
    /\ frames_of (pending d ++ input) ps r (is_bad e) /\ reader_result d' r e.
Proof.
  revert d input. induction fuel as [|fuel IH]; intros d input Hwf Hlen.
  { destruct input; [|simpl in Hlen; lia]. eexists d, [], (pending d), None.
    rewrite app_nil_r. split_and!; [done| |done..]. apply frames_more. by apply decoder_wf_more. }
  destruct input as [|b input].
  { eexists d, [], (pending d), None. rewrite app_nil_r. split_and!; [done| |done..].
    apply frames_more. by apply decoder_wf_more. }
  set (inp := b :: input) in *. pose proof (consume_step d inp Hwf) as Hs. unfold consume_spec in Hs.
  change (feed (S fuel) d inp) with
    (match consume d inp with
     | (d', inr f) => (d', [], Some f)
     | (d', inl progress) =>
        let '(d'', payloads, error) := feed fuel d' (drop (Z.to_nat (consumed progress)) inp) in
        (d'', option_list (fp_payload progress) ++ payloads, error)
     end).
  destruct (next_frame (pending d ++ inp)) as [| |p rest] eqn:En.
  - destruct Hs as (d' & -> & Hwf' & Hpd). simpl.
    rewrite drop_ge by (unfold len; lia).
    exists d', [], (pending d'), None. split_and!; [by destruct fuel| |done..].
    rewrite Hpd. by apply frames_more.
  - destruct Hs as (d' & -> & Hp). exists d', [], (pending d ++ inp), (Some limit_failure).
    split_and!; [done|by apply frames_bad|done].
  - destruct Hs as (d' & -> & Hwf' & Hpd & Hrest & Hlt). simpl.
    rewrite <- Hrest. destruct (IH d' rest Hwf') as (d'' & ps & r & e & -> & Hf & Hr).
    { unfold len in Hlt. lia. }
    exists d'', (p :: ps), r, e. split_and!; [done| |done].
    rewrite Hpd in Hf. by econstructor.
Qed.

Lemma feed_chunks_spec d chunks :
  decoder_wf d ->
  exists d' ps r e, feed_chunks d chunks = (d', ps, e)
    /\ frames_of (pending d ++ concat chunks) ps r (is_bad e) /\ reader_result d' r e.
Proof.
  revert d. induction chunks as [|c chunks IH]; intros d Hwf; simpl.
  { eexists d, [], (pending d), None. rewrite app_nil_r. split_and!; [done| |done..].
    apply frames_more. by apply decoder_wf_more. }
  destruct (feed_spec (length c) d c Hwf) as (d1 & ps1 & r1 & e1 & -> & Hf1 & Hr1); [done|].
  destruct e1 as [f|].
  - destruct Hr1 as [-> Hp]. eexists d1, ps1, _, (Some limit_failure).
    split_and!; [done| |done]. rewrite app_assoc. by apply frames_of_app_bad.
  - destruct Hr1 as [Hwf1 <-].
    destruct (IH d1 Hwf1) as (d2 & ps2 & r2 & e2 & -> & Hf2 & Hr2).
    eexists d2, (ps1 ++ ps2), r2, e2. split_and!; [done| |done].
    rewrite app_assoc. by eapply frames_of_app.
Qed.

(** A payload that [frame] accepts. *)
Definition frameable (payload : bytes) : Prop := payload <> [] /\ len payload <= max_payload_bytes.

Lemma frame_frameable p :
  frameable p -> frame p = inl (header_bytes (len p) ++ p).
Proof.
  intros [Hne Hl]. unfold frame. rewrite bool_decide_eq_false_2 by done.
  replace (_ <? _) with false by (symmetry; apply Z.ltb_ge; done). simpl.
  rewrite Z.mod_small; [done|]. pose proof (len_nonneg p). unfold max_payload_bytes, two32 in *. lia.
Qed.

Lemma next_frame_framed p rest :
  frameable p -> next_frame ((header_bytes (len p) ++ p) ++ rest) = Frame p rest.
Proof.
  intros [Hne Hl]. set (h := header_bytes (len p)).
  assert (Hh : length h = 4%nat) by apply header_bytes_length. rewrite <- app_assoc.
  assert (0 < len p) by (destruct p; [done|unfold len; simpl; lia]).
  rewrite (next_frame_long _ (len p)); [|rewrite length_app; lia|].
  - rewrite drop_app_ge, Hh by lia. simpl.
    destruct ((_ =? 0) || _) eqn:Ebad.
    { apply orb_true_iff in Ebad as [E|E]; bool_simp; lia. }
    rewrite drop_0, len_app. pose proof (len_nonneg rest).
    replace (_ <? _) with false by (symmetry; apply Z.ltb_ge; lia).
    replace (Z.to_nat (len p)) with (length p) by (unfold len; lia).
    by rewrite take_app_length, drop_app_length.
  - rewrite take_app_le, take_ge by lia. unfold h. rewrite header_roundtrip; [done|].
    unfold max_payload_bytes, two32 in *. lia.
Qed.

(** The concatenation of the framed payloads. *)
Definition framed_stream (payloads : list bytes) : bytes :=
  concat ((fun p => header_bytes (len p) ++ p) <$> payloads).

Lemma frames_of_framed payloads :
  Forall frameable payloads -> frames_of (framed_stream payloads) payloads [] false.
Proof.
  induction 1 as [|p ps Hp _ IH]; [by apply frames_more|].
  unfold framed_stream. simpl. econstructor; [by apply next_frame_framed|done].
Qed.

(** ** Properties *)

(** One call of [consume] on a well-formed decoder computes the next step of
    the stream made of the bytes it holds and its input: it takes the whole input
    and stays well-formed while the frame is incomplete, it poisons itself on a
    zero or oversized length, and otherwise it returns exactly the payload, reports
    the bytes it used (never zero of a nonempty frame) and is back at a frame
    boundary.  A well-formed decoder holds less than one header and one payload. *)
Lemma consume_correct (d : frame_decoder) (input : bytes) :
  decoder_wf d -> consume_spec d input /\ len (pending d) < 4 + max_payload_bytes.
Proof.
  intros Hwf. split; [by apply consume_step|]. unfold pending. rewrite len_app, len_take.
  destruct Hwf as (_ & Hh & [(Hu & -> & _)|(Hu & _ & Hb & Hl)]);
    unfold len, max_payload_bytes in *; simpl; lia.
Qed.

Lemma consume_correct_witness : consume_spec fresh_decoder [x02; x00; x00; x00; x41; x42; x43].
Proof. apply (consume_correct fresh_decoder). apply fresh_decoder_wf. Defined.

(** C6: Chunking independence.  However a byte stream is cut into reads, feeding a
    fresh decoder yields exactly the frames that the stream consists of, in order;
    it fails exactly when the bytes after them start with an invalid length, and
    otherwise the end-of-file check reports a truncation exactly when bytes of an
    unfinished frame remain. *)
Theorem decoder_chunk_independent (chunks : list bytes) :
  exists d ps r e, feed_chunks fresh_decoder chunks = (d, ps, e)
    /\ frames_of (concat chunks) ps r (is_bad e)
    /\ match e with
       | Some f => f = limit_failure /\ is_Some (finish d)
       | None => finish d = if bool_decide (r = []) then None
                            else Some {| f_code := fc_truncated; f_close_session := true;
                                         f_request_id := None |}
       end.
Proof.
  destruct (feed_chunks_spec fresh_decoder chunks fresh_decoder_wf) as (d & ps & r & e & He & Hf & Hr).
  exists d, ps, r, e. split_and!; [done..|]. destruct e as [f|]; destruct Hr as [H1 H2].
  - split; [done|]. unfold finish. rewrite H2. eauto.
  - rewrite finish_wf, H2 by done. done.
Qed.

(** Round trip.  Framing a sequence of nonempty payloads of at most 1 MiB,
    concatenating the frames and cutting the stream anywhere gives back exactly
    those payloads, and the stream ends at a clean boundary. *)
Lemma frame_stream_roundtrip (payloads chunks : list bytes) :
  Forall (fun p => exists framed, frame p = inl framed) payloads ->
  concat chunks = concat ((fun p => match frame p with inl b => b | inr _ => [] end) <$> payloads) ->
  exists d, feed_chunks fresh_decoder chunks = (d, payloads, None) /\ finish d = None.
Proof.
  intros Hok Hc. assert (Hf : Forall frameable payloads).
  { eapply Forall_impl; [done|]. intros p [b Hb]. unfold frame in Hb. split_ifs_in Hb. by bool_simp. }
  destruct (feed_chunks_spec fresh_decoder chunks fresh_decoder_wf) as (d & ps & r & e & -> & Hfr & Hr).
  assert (Hs : concat chunks = framed_stream payloads).
  { rewrite Hc. unfold framed_stream. f_equal. apply list_fmap_ext. intros i p Hp.
    rewrite Forall_lookup in Hf. by rewrite (frame_frameable _ (Hf _ _ Hp)). }
  simpl in Hfr. rewrite Hs in Hfr.
  destruct (frames_of_det _ _ _ _ _ _ _ Hfr (frames_of_framed _ Hf)) as (-> & -> & He).
  destruct e; [done|]. destruct Hr as [Hwf Hpd]. exists d. split; [done|].
  by rewrite finish_wf, Hpd by done.
Qed.

Lemma frame_stream_roundtrip_witness :
  exists d, feed_chunks fresh_decoder [[x02; x00; x00]; [x00; x41]; [x42; x01; x00; x00; x00; x43]]
            = (d, [[x41; x42]; [x43]], None) /\ finish d = None.
Proof.
  apply frame_stream_roundtrip; [|reflexivity].
  repeat (constructor; [by eexists|]). constructor.
Defined.
