(* ===== verification/Transport.v ===== *)
(** * Transport failures, endpoints and completion

    include/pipeforge/transport.hpp, src/transport/completion.hpp and
    src/transport/completion.cpp.  A wide string is the list of its character codes; a
    deadline is a count of nanoseconds on the monotonic clock, and [deadline_max] is
    [time_point::max()]. *)
From stdpp Require Import prelude.
From Stdlib Require Import ZArith Lia.
From S2P Require Import Prelude Contracts Framing.

(** ** Failures *)
Inductive failure_kind :=
  | fk_invalid_configuration
  | fk_timeout
  | fk_cancelled
  | fk_disconnected
  | fk_access_denied
  | fk_io_failure
  | fk_protocol_violation.

#[global] Instance failure_kind_eq_dec : EqDecision failure_kind.
Proof. solve_decision. Defined.

Record t_failure := {
  t_kind : failure_kind;
  t_native_error : Z;
  t_framing : option failure;
}.

(** [failure{kind}] and [failure{kind, code}]. *)
Definition t_fail (kind : failure_kind) : t_failure :=
  {| t_kind := kind; t_native_error := 0; t_framing := None |}.
Definition t_native (kind : failure_kind) (code : Z) : t_failure :=
  {| t_kind := kind; t_native_error := code; t_framing := None |}.

(** ** Configuration *)
Abbreviation wstring := (list Z).

(** [\\.\pipe\]. *)
Definition endpoint_prefix : wstring := [92; 92; 46; 92; 112; 105; 112; 101; 92].
(** [\\.\pipe\pipeforge-v1]. *)
Definition default_endpoint : wstring :=
  endpoint_prefix ++ [112; 105; 112; 101; 102; 111; 114; 103; 101; 45; 118; 49].
Definition max_endpoint_characters : Z := 240.

Definition default_timeout : Z := 5000.
Definition minimum_timeout : Z := 10.
Definition maximum_timeout : Z := 60000.
Definition max_sessions : Z := 4.

Definition endpoint_char (c : Z) : bool :=
  ((97 <=? c) && (c <=? 122)) || ((65 <=? c) && (c <=? 90)) || ((48 <=? c) && (c <=? 57))
  || (c =? 95) || (c =? 45) || (c =? 46).

Definition starts_with (name prefix : wstring) : bool :=
  bool_decide (take (length prefix) name = prefix).

Definition valid_endpoint (name : wstring) : bool :=
  if negb (starts_with name endpoint_prefix) || (len name <=? len endpoint_prefix)
     || (max_endpoint_characters <? len name)
  then false
  else forallb endpoint_char (drop (length endpoint_prefix) name).

(** ** Completion of a pending operation *)
Definition deadline_max : Z := i64_max.

Inductive wake_reason := wr_completed | wr_expired | wr_stopped | wr_failed.
Record wake_result := { w_reason : wake_reason; w_native_error : Z }.

Class CompletionBackend (B : Type) := {
  wait (until : Z) : stateM B wake_result;
  cancel : stateM B Z;
  complete (wait : bool) : stateM B (Z + t_failure);
}.

Definition resolve_pending {B} `{CompletionBackend B} (until : Z) : stateM B (Z + t_failure) :=
  let! wake := wait until in
  match w_reason wake with
  | wr_completed => complete false
  | reason =>
      let! cancellation_error := cancel in
      let! drained := complete true in
      let native_error :=
        match reason with
        | wr_failed => w_native_error wake
        | _ => match drained with inr e => t_native_error e | inl _ => cancellation_error end
        end in
      let kind :=
        match reason with
        | wr_expired => fk_timeout
        | wr_stopped => fk_cancelled
        | _ => fk_io_failure
        end in
      sret (inr (t_native kind native_error))
  end.
