(* ===== verification/Native.v ===== *)
(** * Overlapped pipe operations (src/transport/windows/native.hpp, native.cpp)

    [io_failure], [remaining], [preflight], the pinned operation [overlapped_operation]
    and the three calls built on it.  The Win32 functions, the monotonic clock and the
    stop token are the class [Win32]; their documented behaviour, as far as the
    lifetime of a pending operation depends on it, is [Win32Laws].  Handle
    ownership is in Handles.v, security descriptors are in Security.v. *)
From stdpp Require Import prelude.
From Stdlib Require Import ZArith Lia.
From S2P Require Import Prelude Contracts Framing Transport.

Definition buffer_bytes : Z := 16 * 1024.

(** Win32 constants. *)
Definition ERROR_SUCCESS : Z := 0.
Definition ERROR_ACCESS_DENIED : Z := 5.
Definition ERROR_BROKEN_PIPE : Z := 109.
Definition ERROR_NO_DATA : Z := 232.
Definition ERROR_PIPE_NOT_CONNECTED : Z := 233.
Definition ERROR_PIPE_CONNECTED : Z := 535.
Definition ERROR_OPERATION_ABORTED : Z := 995.
Definition ERROR_IO_INCOMPLETE : Z := 996.
Definition ERROR_IO_PENDING : Z := 997.
Definition INFINITE : Z := 4294967295.
Definition WAIT_OBJECT_0 : Z := 0.
Definition WAIT_TIMEOUT : Z := 258.

(** One operation on one pipe handle.  The three starting calls answer the bytes
    transferred at once; [in_flight] says whether the kernel may still access the
    operation's storage and buffer. *)
Class Win32 (K : Type) := {
  now : stateM K Z;
  stop_requested : stateM K bool;
  CreateEventW : stateM K bool;
  GetLastError : K -> Z;
  ConnectNamedPipe : stateM K bool;
  ReadFile (count : Z) : stateM K (option Z);
  WriteFile (buffer : bytes) : stateM K (option Z);
  WaitForMultipleObjects (milliseconds : Z) : stateM K Z;
  CancelIoEx : stateM K bool;
  GetOverlappedResult (wait : bool) : stateM K (option Z);
  in_flight : K -> bool;
}.

Definition io_failure (code : Z) : t_failure :=
  if (code =? ERROR_BROKEN_PIPE) || (code =? ERROR_PIPE_NOT_CONNECTED) || (code =? ERROR_NO_DATA)
  then t_native fk_disconnected code
  else if code =? ERROR_ACCESS_DENIED then t_native fk_access_denied code
  else if code =? ERROR_OPERATION_ABORTED then t_native fk_cancelled code
  else t_native fk_io_failure code.

(** [std::chrono::ceil<std::chrono::milliseconds>] of nanoseconds. *)
Definition ceil_milliseconds (d : Z) : Z :=
  let t := Z.quot d 1000000 in if t * 1000000 <? d then t + 1 else t.

(** The state of an [overlapped_operation] besides its kernel objects. *)
Record overlapped := { setup_error_ : Z; pending_ : bool }.

Section native.
Context {K : Type} `{Win32 K}.

Definition remaining (until : Z) : stateM K Z :=
  if until =? deadline_max then sret INFINITE
  else
    let! t := now in
    let milliseconds := ceil_milliseconds (until - t) in
    if milliseconds <=? 0 then sret 0 else sret (milliseconds `min` (INFINITE - 1)).

Definition preflight (until : Z) : stateM K (option t_failure) :=
  let! stopped := stop_requested in
  if (stopped : bool) then sret (Some (t_fail fk_cancelled))
  else
    let! t := now in
    if until <=? t then sret (Some (t_fail fk_timeout)) else sret None.

Definition overlapped_operation : stateM K overlapped :=
  let! completed := CreateEventW in
  if negb completed then sget (fun k => {| setup_error_ := GetLastError k; pending_ := false |})
  else
    let! cancelled := CreateEventW in
    if negb cancelled then sget (fun k => {| setup_error_ := GetLastError k; pending_ := false |})
    else sret {| setup_error_ := ERROR_SUCCESS; pending_ := false |}.

Definition drop_operation (o : overlapped) : stateM K unit :=
  if pending_ o then
    let! cancelled := CancelIoEx in
    let! transferred := GetOverlappedResult true in
    sret tt
  else sret tt.

Definition setup_error (o : overlapped) : option t_failure :=
  if setup_error_ o =? ERROR_SUCCESS then None else Some (io_failure (setup_error_ o)).

Definition set_pending (p : bool) : stateM (overlapped * K) unit :=
  smodify (fun s => ({| setup_error_ := setup_error_ s.1; pending_ := p |}, s.2)).

Definition operation_wait (until : Z) : stateM (overlapped * K) wake_result :=
  let! timeout := slift (remaining until) in
  let! signalled := slift (WaitForMultipleObjects timeout) in
  if signalled =? WAIT_OBJECT_0 then sret {| w_reason := wr_completed; w_native_error := 0 |}
  else if signalled =? WAIT_OBJECT_0 + 1 then sret {| w_reason := wr_stopped; w_native_error := 0 |}
  else if signalled =? WAIT_TIMEOUT then sret {| w_reason := wr_expired; w_native_error := 0 |}
  else sget (fun s => {| w_reason := wr_failed; w_native_error := GetLastError s.2 |}).

Definition operation_cancel : stateM (overlapped * K) Z :=
  let! cancelled := slift CancelIoEx in
  if (cancelled : bool) then sret ERROR_SUCCESS else sget (fun s => GetLastError s.2).

Definition operation_complete (wait : bool) : stateM (overlapped * K) (Z + t_failure) :=
  let! r := slift (GetOverlappedResult wait) in
  match r with
  | Some transferred => let! u := set_pending false in sret (inl transferred)
  | None =>
      let! code := sget (fun s => GetLastError s.2) in
      let! u :=
        (if code =? ERROR_IO_INCOMPLETE then
           let! c := slift CancelIoEx in
           let! t := slift (GetOverlappedResult true) in
           sret tt
         else sret tt) in
      let! u' := set_pending false in
      sret (inr (io_failure code))
  end.

#[global] Instance overlapped_backend : CompletionBackend (overlapped * K) := {|
  wait := operation_wait;
  cancel := operation_cancel;
  complete := operation_complete;
|}.

(** After a starting call that did not complete: not pending is an error. *)
Definition await_pending (code until : Z) : stateM (overlapped * K) (Z + t_failure) :=
  if negb (code =? ERROR_IO_PENDING) then sret (inr (io_failure code))
  else let! u := set_pending true in resolve_pending until.

(** The scope of an operation: its constructor, its setup error, its destructor. *)
Definition with_operation (until : Z) (body : stateM (overlapped * K) (Z + t_failure))
  : stateM K (Z + t_failure) :=
  let! error := preflight until in
  match error with
  | Some e => sret (inr e)
  | None =>
      let! o := overlapped_operation in
      match setup_error o with
      | Some e => let! u := drop_operation o in sret (inr e)
      | None =>
          fun k =>
            let '(r, (o', k')) := body (o, k) in
            (let! u := drop_operation o' in sret r) k'
      end
  end.

Definition accept_body (until : Z) : stateM (overlapped * K) (Z + t_failure) :=
  let! connected := slift ConnectNamedPipe in
  if (connected : bool) then sret (inl 0)
  else
    let! code := sget (fun s => GetLastError s.2) in
    if code =? ERROR_PIPE_CONNECTED then sret (inl 0) else await_pending code until.
Definition accept (until : Z) : stateM K (Z + t_failure) := with_operation until (accept_body until).

Definition read_body (size until : Z) : stateM (overlapped * K) (Z + t_failure) :=
  let! r := slift (ReadFile (size `min` buffer_bytes)) in
  match r with
  | Some transferred => sret (inl transferred)
  | None => let! code := sget (fun s => GetLastError s.2) in await_pending code until
  end.
Definition read_some (size until : Z) : stateM K (Z + t_failure) := with_operation until (read_body size until).

Definition write_body (buffer : bytes) (until : Z) : stateM (overlapped * K) (Z + t_failure) :=
  let! r := slift (WriteFile (take (Z.to_nat (len buffer `min` buffer_bytes)) buffer)) in
  match r with
  | Some transferred => sret (inl transferred)
  | None => let! code := sget (fun s => GetLastError s.2) in await_pending code until
  end.
Definition write_some (buffer : bytes) (until : Z) : stateM K (Z + t_failure) :=
  with_operation until (write_body buffer until).
End native.

(** ** Documented behaviour of the kernel

    Starting calls leave an operation in flight only when they report
    [ERROR_IO_PENDING]; waiting, cancelling and the clock start nothing;
    [GetOverlappedResult] returns success, or a failure other than
    [ERROR_IO_INCOMPLETE], only for a finished operation, and with [bWait] it returns
    only then. *)
Section laws.
Context {K : Type} `{Win32 K}.

Definition quiet {A} (m : stateM K A) : Prop := forall k, in_flight k = false -> in_flight (m k).2 = false.
Definition starts {A} (m : stateM K A) (done : A -> bool) : Prop :=
  forall k, done (m k).1 = true \/ GetLastError (m k).2 <> ERROR_IO_PENDING -> in_flight (m k).2 = false.

Class Win32Laws : Prop := {
  now_quiet : quiet now;
  stop_quiet : quiet stop_requested;
  event_quiet : quiet CreateEventW;
  wait_quiet t : quiet (WaitForMultipleObjects t);
  cancel_quiet : quiet CancelIoEx;
  connect_starts : starts ConnectNamedPipe id;
  read_starts n : starts (ReadFile n) has_value;
  write_starts b : starts (WriteFile b) has_value;
  result_waits k : in_flight (GetOverlappedResult true k).2 = false;
  result_polls k :
    has_value (GetOverlappedResult false k).1 = true
    \/ GetLastError (GetOverlappedResult false k).2 <> ERROR_IO_INCOMPLETE ->
    in_flight (GetOverlappedResult false k).2 = false;
}.
End laws.
Arguments Win32Laws K {_}.

(** ** No operation outlives its storage *)
Section drained.
Context {K : Type} `{Win32 K} `{!Win32Laws K}.

Definition settled (s : overlapped * K) : Prop := pending_ s.1 = false /\ in_flight s.2 = false.

Lemma complete_settles w s : settled (operation_complete w s).2.
Proof.
  unfold operation_complete, sbind, slift, sget, set_pending, smodify, sret.
  destruct s as [o k]. cbn [fst snd]. destruct (GetOverlappedResult w k) as [[n|] k'] eqn:Er; cbn [fst snd].
  - split; [done|]. cbn [snd]. destruct w.
    + pose proof (result_waits k) as Hw. by rewrite Er in Hw.
    + pose proof (result_polls k) as Hp. rewrite Er in Hp. auto.
  - destruct (GetLastError k' =? ERROR_IO_INCOMPLETE) eqn:Ec.
    + cbn. destruct (CancelIoEx k') as [c k1]. cbn.
      destruct (GetOverlappedResult true k1) as [t k2] eqn:E2. cbn. split; [done|].
      pose proof (result_waits k1) as Hw. by rewrite E2 in Hw.
    + split; [done|]. cbn [snd]. bool_simp. destruct w.
      * pose proof (result_waits k) as Hw. by rewrite Er in Hw.
      * pose proof (result_polls k) as Hp. rewrite Er in Hp. auto.
Qed.

(** Whatever the wait reports, the operation is over when [resolve_pending] returns. *)
Lemma resolve_settles until s : settled (resolve_pending until s).2.
Proof.
  unfold resolve_pending, sbind. cbn [wait cancel complete overlapped_backend].
  destruct (operation_wait until s) as [[[] e] s1]; cbn [w_reason];
    [apply complete_settles|..];
    (destruct (operation_cancel s1) as [c s2]; pose proof (complete_settles true s2);
     by destruct (operation_complete true s2)).
Qed.

Lemma await_settles code until o k :
  pending_ o = false -> (code <> ERROR_IO_PENDING -> in_flight k = false) ->
  settled (await_pending code until (o, k)).2.
Proof.
  intros Ho Hk. unfold await_pending. destruct (code =? _) eqn:Ec; cbn [negb]; bool_simp.
  - unfold sbind, set_pending, smodify. apply resolve_settles.
  - split; [done|]. by apply Hk.
Qed.

Lemma accept_body_settles until o k : pending_ o = false -> settled (accept_body until (o, k)).2.
Proof.
  intros Ho. unfold accept_body, sbind, slift, sget. cbn [fst snd].
  pose proof (connect_starts k) as Hs. destruct (ConnectNamedPipe k) as [[] k']; cbn [fst snd] in *.
  { split; [done|]. apply Hs. by left. }
  destruct (_ =? ERROR_PIPE_CONNECTED) eqn:Ec; bool_simp.
  { split; [done|]. apply Hs. right. cbn [snd]. rewrite Ec. done. }
  apply await_settles; [done|]. intros Hne. apply Hs. by right.
Qed.

Lemma read_body_settles size until o k : pending_ o = false -> settled (read_body size until (o, k)).2.
Proof.
  intros Ho. unfold read_body, sbind, slift, sget. cbn [fst snd].
  pose proof (read_starts (size `min` buffer_bytes) k) as Hs.
  destruct (ReadFile _ k) as [[n|] k']; cbn [fst snd] in *; [split; [done|]; apply Hs; by left|].
  apply await_settles; [done|]. intros Hne. apply Hs. by right.
Qed.

Lemma write_body_settles buffer until o k : pending_ o = false -> settled (write_body buffer until (o, k)).2.
Proof.
  intros Ho. unfold write_body, sbind, slift, sget. cbn [fst snd].
  pose proof (write_starts (take (Z.to_nat (len buffer `min` buffer_bytes)) buffer) k) as Hs.
  destruct (WriteFile _ k) as [[n|] k']; cbn [fst snd] in *; [split; [done|]; apply Hs; by left|].
  apply await_settles; [done|]. intros Hne. apply Hs. by right.
Qed.

Lemma sbind_quiet {A B} (m : stateM K A) (f : A -> stateM K B) :
  quiet m -> (forall a, quiet (f a)) -> quiet (sbind m f).
Proof. intros Hm Hf k Hk. unfold sbind. specialize (Hm k Hk). destruct (m k) as [a k']. by apply Hf. Qed.
Lemma sret_quiet {A} (a : A) : quiet (sret a).
Proof. by intros k Hk. Qed.
Lemma sget_quiet {A} (f : K -> A) : quiet (sget f).
Proof. by intros k Hk. Qed.

Lemma preflight_quiet until : quiet (preflight until).
Proof.
  apply sbind_quiet; [apply stop_quiet|]. intros []; [apply sret_quiet|].
  apply sbind_quiet; [apply now_quiet|]. intros t. destruct (_ <=? _); apply sret_quiet.
Qed.

Lemma constructor_quiet : quiet overlapped_operation.
Proof.
  apply sbind_quiet; [apply event_quiet|]. intros []; [|apply sget_quiet]. cbn [negb].
  apply sbind_quiet; [apply event_quiet|]. intros []; [apply sret_quiet|apply sget_quiet].
Qed.

Lemma constructor_idle k : pending_ (overlapped_operation k).1 = false.
Proof.
  unfold overlapped_operation, sbind, sget, sret. destruct (CreateEventW k) as [[] k1]; [|done].
  cbn [negb]. by destruct (CreateEventW k1) as [[] k2].
Qed.

Lemma with_operation_quiet until body :
  (forall o k, pending_ o = false -> settled (body (o, k)).2) -> quiet (with_operation until body).
Proof.
  intros Hb. apply sbind_quiet; [apply preflight_quiet|]. intros [e|]; [apply sret_quiet|].
  intros k Hk. unfold sbind. pose proof (constructor_quiet k Hk) as Hq. pose proof (constructor_idle k) as Hi.
  destruct (overlapped_operation k) as [o k1]. cbn [fst snd] in *.
  destruct (setup_error o) as [e|].
  - unfold drop_operation. rewrite Hi. done.
  - specialize (Hb o k1 Hi). destruct (body (o, k1)) as [r [o' k']]. destruct Hb as [Hp Hf].
    cbn [fst snd] in *. unfold drop_operation. rewrite Hp. done.
Qed.
End drained.

(** ** Properties *)

(** C14: No pipe operation outlives its storage.  Whatever the kernel answers within its
    documented behaviour, when [accept], [read_some] or [write_some] returns, the kernel
    no longer accesses the operation and its buffer: an operation that expired or was
    stopped has been cancelled and drained, not abandoned.  The operation is already
    settled before its destructor runs, so the destructor's fallback is never needed. *)
Theorem native_operations_drained {K : Type} `{Win32 K} `{!Win32Laws K} (k : K) until size buffer :
  in_flight k = false ->
  in_flight (accept until k).2 = false /\ in_flight (read_some size until k).2 = false
  /\ in_flight (write_some buffer until k).2 = false
  /\ forall o, pending_ o = false ->
       settled (accept_body until (o, k)).2 /\ settled (read_body size until (o, k)).2
       /\ settled (write_body buffer until (o, k)).2.
Proof.
  intros Hk. split_and!.
  - apply with_operation_quiet; [|done]. intros o k'. apply accept_body_settles.
  - apply with_operation_quiet; [|done]. intros o k'. apply read_body_settles.
  - apply with_operation_quiet; [|done]. intros o k'. apply write_body_settles.
  - intros o Ho. split_and!; [by apply accept_body_settles|by apply read_body_settles|by apply write_body_settles].
Qed.

(** Deadlines become waits without wrapping.  For a finite deadline [remaining] is
    zero exactly when it has passed, is never the value that means an infinite wait, does
    not end before the deadline unless it is cut to the largest finite wait, and
    overshoots it by less than a millisecond; only [time_point::max()] waits forever. *)
Lemma remaining_correct {K : Type} `{Win32 K} (k : K) until :
  let r := (remaining until k).1 in
  let left := until - (now k).1 in
  if until =? deadline_max then r = INFINITE
  else 0 <= r < INFINITE /\ (r = 0 <-> left <= 0)
       /\ (left <= r * 1000000 \/ r = INFINITE - 1) /\ (0 < left -> (r - 1) * 1000000 < left).
Proof.
  cbn zeta. unfold remaining. destruct (until =? deadline_max); [done|]. unfold sbind, sret.
  destruct (now k) as [t k']. cbn [fst]. set (d := until - t). clearbody d.
  assert (Hc : d <= ceil_milliseconds d * 1000000 < d + 1000000).
  { unfold ceil_milliseconds. pose proof (Z.quot_rem' d 1000000). pose proof (Z.rem_bound_abs d 1000000).
    destruct (_ <? d) eqn:E; bool_simp; [|split; [lia|]]; destruct (Z.le_gt_cases 0 d);
      [pose proof (Z.rem_bound_pos d 1000000)|pose proof (Z.rem_bound_neg_pos d 1000000)
      |pose proof (Z.rem_bound_pos d 1000000)|pose proof (Z.rem_bound_neg_pos d 1000000)]; lia. }
  destruct (ceil_milliseconds d <=? 0) eqn:E; bool_simp; cbn [fst]; unfold INFINITE; lia.
Qed.

(** A kernel whose operations stay pending until they are cancelled. *)
Module NativeDemo.
Record sim := { clock : Z; error : Z; flying : bool }.
Definition pend (k : sim) : sim := {| clock := clock k; error := ERROR_IO_PENDING; flying := true |}.

#[local] Instance sim_win32 : Win32 sim := {|
  now := sget clock;
  stop_requested := sret false;
  CreateEventW := sret true;
  GetLastError := error;
  ConnectNamedPipe := fun k => (false, pend k);
  ReadFile _ := fun k => (None, pend k);
  WriteFile _ := fun k => (None, pend k);
  WaitForMultipleObjects t := fun k =>
    (WAIT_TIMEOUT, {| clock := clock k + t * 1000000; error := error k; flying := flying k |});
  CancelIoEx := sret true;
  GetOverlappedResult wait := fun k =>
    (None, if wait : bool then {| clock := clock k; error := ERROR_OPERATION_ABORTED; flying := false |}
           else {| clock := clock k; error := ERROR_IO_INCOMPLETE; flying := flying k |});
  in_flight := flying;
|}.

#[local] Instance sim_laws : Win32Laws sim.
Proof.
  split; try (by intros k Hk); try (by intros t k Hk); try (by intros k).
  - intros k [Hd|He]; [done|by destruct He].
  - intros n k [Hd|He]; [done|by destruct He].
  - intros b k [Hd|He]; [done|by destruct He].
  - intros k [Hd|He]; [done|by destruct He].
Qed.

Definition start : sim := {| clock := 100; error := 0; flying := false |}.

Example expired_read :
  read_some 16384 5000100 start
  = (inr (t_native fk_timeout ERROR_OPERATION_ABORTED),
     {| clock := 5000100; error := ERROR_OPERATION_ABORTED; flying := false |}).
Proof. vm_compute. reflexivity. Qed.

Lemma native_operations_drained_witness :
  in_flight (accept 5000100 start).2 = false /\ in_flight (read_some 16384 5000100 start).2 = false
  /\ in_flight (write_some [] 5000100 start).2 = false.
Proof.
  assert (Hidle : in_flight start = false) by reflexivity.
  destruct (native_operations_drained start 5000100 16384 [] Hidle) as (Ha & Hr & Hw & _).
  split; [exact Ha|]. split; [exact Hr|exact Hw].
Defined.
End NativeDemo.
