(* ===== verification/Stream.v ===== *)
(** * Pipe streams (src/transport/windows/stream.cpp, stream_state.hpp)

    [send] and [receive] over the native layer, which is the class [NativePipe]:
    [pipe_read until] answers the bytes that [native::read_some] left at the front of
    the input buffer.  Both loops carry fuel; [send] makes progress with every write and
    [receive] with every read, so the fuel chosen is enough ([None] is excluded by the
    theorems). *)
From stdpp Require Import prelude.
From Stdlib Require Import ZArith Lia Strings.Byte.
From S2P Require Import Prelude Contracts Framing Transport Native.

Class NativePipe (K : Type) := {
  pipe_preflight (until : Z) : stateM K (option t_failure);
  pipe_read (until : Z) : stateM K (bytes + t_failure);
  pipe_write (buffer : bytes) (until : Z) : stateM K (Z + t_failure);
}.

Record stream_state := {
  s_input : bytes;
  s_begin : Z;
  s_end : Z;
  s_decoder : frame_decoder;
  s_failed : bool;
}.

(** A stream state on a fresh connection; the input array starts zeroed. *)
Definition fresh_stream : stream_state := {|
  s_input := replicate (Z.to_nat buffer_bytes) x00; s_begin := 0; s_end := 0;
  s_decoder := fresh_decoder; s_failed := false |}.

Definition set_failed (s : stream_state) : stream_state := {|
  s_input := s_input s; s_begin := s_begin s; s_end := s_end s;
  s_decoder := s_decoder s; s_failed := true |}.
Definition set_decoder (s : stream_state) (begin_ : Z) (d : frame_decoder) : stream_state := {|
  s_input := s_input s; s_begin := begin_; s_end := s_end s; s_decoder := d; s_failed := s_failed s |}.

(** [read_some] overwrites the front of the array; [begin] and [end] then delimit it. *)
Definition set_input (s : stream_state) (data : bytes) : stream_state := {|
  s_input := data ++ drop (length data) (s_input s); s_begin := 0; s_end := len data;
  s_decoder := s_decoder s; s_failed := s_failed s |}.

(** [std::span(input).first(end).subspan(begin)]. *)
Definition buffered (s : stream_state) : bytes :=
  drop (Z.to_nat (s_begin s)) (take (Z.to_nat (s_end s)) (s_input s)).

Section stream.
Context {K : Type} `{NativePipe K}.

(** The loop of [send] over the bytes not yet written. *)
Fixpoint send_loop (fuel : nat) (s : stream_state) (remaining : bytes) (until : Z) (k : K)
  : option (option t_failure * stream_state * K) :=
  match remaining, fuel with
  | [], _ => Some (None, s, k)
  | _, O => None
  | _, S fuel' =>
      match pipe_write remaining until k with
      | (inr error, k') => Some (Some error, set_failed s, k')
      | (inl count, k') =>
          if (count =? 0) || (len remaining <? count)
          then Some (Some (t_fail fk_disconnected), set_failed s, k')
          else send_loop fuel' s (drop (Z.to_nat count) remaining) until k'
      end
  end.

Definition send (s : option stream_state) (payload : bytes) (until : Z) (k : K)
  : option ((Z + t_failure) * option stream_state * K) :=
  match s with
  | None => Some (inr (t_fail fk_disconnected), s, k)
  | Some st =>
      if s_failed st then Some (inr (t_fail fk_disconnected), s, k)
      else
        match pipe_preflight until k with
        | (Some error, k') => Some (inr error, Some (set_failed st), k')
        | (None, k') =>
            match frame payload with
            | inr error =>
                Some (inr {| t_kind := fk_protocol_violation; t_native_error := 0; t_framing := Some error |},
                      Some (set_failed st), k')
            | inl owned =>
                match send_loop (length owned) st owned until k' with
                | None => None
                | Some (Some error, st', k'') => Some (inr error, Some st', k'')
                | Some (None, st', k'') => Some (inl (len owned), Some st', k'')
                end
            end
        end
  end.

(** The failure of a peer that went away, by what the decoder still holds. *)
Definition closed_failure (error : t_failure) (d : frame_decoder) : t_failure :=
  match t_kind error with
  | fk_disconnected =>
      {| t_kind := match finish d with Some _ => fk_protocol_violation | None => fk_disconnected end;
         t_native_error := t_native_error error; t_framing := finish d |}
  | _ => error
  end.

(** One read of [receive]: the failure it ends with, or the state to go on with. *)
Definition fill (s : stream_state) (until : Z) (k : K) : (t_failure + unit) * stream_state * K :=
  match pipe_read until k with
  | (inr error, k') => (inl (closed_failure error (s_decoder s)), set_failed s, k')
  | (inl data, k') =>
      if len data =? 0
      then (inl {| t_kind := match finish (s_decoder s) with
                             | Some _ => fk_protocol_violation
                             | None => fk_disconnected
                             end;
                   t_native_error := 0; t_framing := finish (s_decoder s) |}, set_failed s, k')
      else (inr tt, set_input s data, k')
  end.

Fixpoint receive_loop (fuel : nat) (s : stream_state) (until : Z) (k : K)
  : option ((bytes + t_failure) * stream_state * K) :=
  match fuel with
  | O => None
  | S fuel' =>
      match pipe_preflight until k with
      | (Some error, k') => Some (inr error, set_failed s, k')
      | (None, k') =>
          let read s :=
            match fill s until k' with
            | (inl error, s', k'') => Some (inr error, s', k'')
            | (inr _, s', k'') => receive_loop fuel' s' until k''
            end in
          if s_begin s <? s_end s then
            match consume (s_decoder s) (buffered s) with
            | (d, inr error) =>
                Some (inr {| t_kind := fk_protocol_violation; t_native_error := 0; t_framing := Some error |},
                      set_failed (set_decoder s (s_begin s) d), k')
            | (d, inl progress) =>
                let s' := set_decoder s (s_begin s + consumed progress) d in
                match fp_payload progress with
                | Some payload => Some (inl payload, s', k')
                | None => read s'
                end
            end
          else read s
      end
  end.

(** One header, one payload, and the two iterations around them. *)
Definition receive_fuel : nat := Z.to_nat (frame_header_bytes + max_payload_bytes + 2).

Definition receive (s : option stream_state) (until : Z) (k : K)
  : option ((bytes + t_failure) * option stream_state * K) :=
  match s with
  | None => Some (inr (t_fail fk_disconnected), s, k)
  | Some st =>
      if s_failed st then Some (inr (t_fail fk_disconnected), s, k)
      else
        match receive_loop receive_fuel st until k with
        | None => None
        | Some (r, st', k') => Some (r, Some st', k')
        end
  end.

Definition stream_close (s : option stream_state) : option stream_state := None.
End stream.

(** ** What [receive] computes

    [held] are the bytes received and not yet returned.  The reference parses them with
    the one-step parser of Framing and reads more only when a frame is incomplete. *)
Definition held_failure (held : bytes) : option failure :=
  if bool_decide (held = []) then None
  else Some {| f_code := fc_truncated; f_close_session := true; f_request_id := None |}.

Definition eof_failure (code : Z) (held : bytes) : t_failure := {|
  t_kind := match held with [] => fk_disconnected | _ => fk_protocol_violation end;
  t_native_error := code; t_framing := held_failure held |}.

Definition read_failure (e : t_failure) (held : bytes) : t_failure :=
  match t_kind e with fk_disconnected => eof_failure (t_native_error e) held | _ => e end.

Definition length_failure : t_failure :=
  {| t_kind := fk_protocol_violation; t_native_error := 0; t_framing := Some limit_failure |}.

(** [reads until held k r held' k']: a reader that holds [held] in front of the native
    pipe [k] answers [r], keeps [held'] and leaves the pipe at [k'].  Every round asks
    the stop token and the deadline first, whatever is held; then it takes a frame that
    is complete, and otherwise one native read. *)
Section reads.
Context {K : Type} `{NativePipe K} (until : Z).

Inductive reads : bytes -> K -> bytes + t_failure -> bytes -> K -> Prop :=
  | reads_refused held k e k' : pipe_preflight until k = (Some e, k') -> reads held k (inr e) held k'
  | reads_frame held k p rest k' :
      pipe_preflight until k = (None, k') -> next_frame held = Frame p rest -> reads held k (inl p) rest k'
  | reads_bad_length held k k' :
      pipe_preflight until k = (None, k') -> next_frame held = BadLength ->
      reads held k (inr length_failure) held k'
  | reads_error held k k1 e k' :
      pipe_preflight until k = (None, k1) -> next_frame held = NeedMore ->
      pipe_read until k1 = (inr e, k') -> reads held k (inr (read_failure e held)) held k'
  | reads_eof held k k1 k' :
      pipe_preflight until k = (None, k1) -> next_frame held = NeedMore ->
      pipe_read until k1 = (inl [], k') -> reads held k (inr (eof_failure 0 held)) held k'
  | reads_more held k k1 data k2 r held' k' :
      pipe_preflight until k = (None, k1) -> next_frame held = NeedMore ->
      pipe_read until k1 = (inl data, k2) -> data <> [] -> reads (held ++ data) k2 r held' k' ->
      reads held k r held' k'.

(** The reference answers at most one thing. *)
Lemma reads_deterministic held k r1 h1 k1 r2 h2 k2 :
  reads held k r1 h1 k1 -> reads held k r2 h2 k2 -> r1 = r2 /\ h1 = h2 /\ k1 = k2.
Proof.
  intros Hr. revert r2 h2 k2. induction Hr; intros r2 h2 k2' Hr2; inversion Hr2; subst;
    repeat match goal with
    | H1 : ?x = (_, _), H2 : ?x = (_, _) |- _ => rewrite H1 in H2; simplify_eq
    | H1 : next_frame ?x = _, H2 : next_frame ?x = _ |- _ => rewrite H1 in H2; simplify_eq
    end; auto.
Qed.
End reads.

(** A usable stream and the bytes it holds. *)
Definition stream_wf (s : stream_state) (held : bytes) : Prop :=
  s_failed s = false /\ decoder_wf (s_decoder s) /\ 0 <= s_begin s
  /\ s_end s <= len (s_input s) /\ held = pending (s_decoder s) ++ buffered s.

Lemma fresh_stream_wf : stream_wf fresh_stream [].
Proof.
  split_and!; [done|apply fresh_decoder_wf|done| |].
  - unfold fresh_stream, len. cbn [s_input s_end]. lia.
  - reflexivity.
Qed.

Lemma buffered_len s :
  0 <= s_begin s -> s_end s <= len (s_input s) -> len (buffered s) = 0 `max` (s_end s - s_begin s).
Proof. intros Hb He. unfold buffered. rewrite len_drop, len_take. unfold len in *. lia. Qed.

Lemma buffered_nil s :
  0 <= s_begin s -> s_end s <= len (s_input s) -> (s_begin s <? s_end s) = negb (bool_decide (buffered s = [])).
Proof.
  intros Hb He. pose proof (buffered_len s Hb He) as Hl. case_bool_decide as E.
  - rewrite E in Hl. change (len []) with 0 in Hl. apply Z.ltb_ge. lia.
  - apply len_pos in E. apply Z.ltb_lt. lia.
Qed.

Lemma set_input_buffered s data : buffered (set_input s data) = data.
Proof.
  unfold buffered, set_input. cbn [s_begin s_end s_input]. change (Z.to_nat 0) with 0%nat. rewrite drop_0.
  replace (Z.to_nat (len data)) with (length data) by (unfold len; lia). by rewrite take_app_length.
Qed.

Lemma finish_held d : decoder_wf d -> finish d = held_failure (pending d).
Proof. intros Hd. by rewrite finish_wf. Qed.

Lemma closed_held e d : decoder_wf d -> closed_failure e d = read_failure e (pending d).
Proof.
  intros Hd. unfold closed_failure, read_failure, eof_failure. rewrite (finish_held d Hd). unfold held_failure.
  destruct (t_kind e); try done. case_bool_decide as E; [by rewrite E|]. by destruct (pending d).
Qed.

Lemma advance_wf s n d :
  stream_wf s (pending (s_decoder s) ++ buffered s) -> decoder_wf d -> 0 <= n ->
  stream_wf (set_decoder s (s_begin s + n) d) (pending d ++ drop (Z.to_nat n) (buffered s)).
Proof.
  intros (Hf & _ & Hb & He & _) Hd Hn. split_and!; [done|done|cbn; lia|done|].
  f_equal. unfold buffered, set_decoder. cbn [s_begin s_end s_input]. rewrite drop_drop. f_equal. lia.
Qed.

Lemma set_input_wf s data : s_failed s = false -> decoder_wf (s_decoder s) ->
  stream_wf (set_input s data) (pending (s_decoder s) ++ data).
Proof.
  intros Hf Hd. split_and!; [done|done|done| |by rewrite set_input_buffered].
  cbn [set_input s_end s_input]. rewrite len_app. pose proof (len_nonneg (drop (length data) (s_input s))). lia.
Qed.

(** The iterations a call can still make: every one but the first consumes input. *)
Definition fuel_need (s : stream_state) : nat :=
  Z.to_nat (frame_header_bytes + max_payload_bytes - len (pending (s_decoder s)))
  + (if bool_decide (buffered s = []) then 1 else 0).

Lemma decoder_room d : decoder_wf d -> len (pending d) < frame_header_bytes + max_payload_bytes.
Proof.
  intros (_ & Hh & [(Hu & Hp & _)|(Hu & _ & Hb & Hl)]); unfold pending; rewrite len_app, len_take;
    [rewrite Hp|]; unfold len, frame_header_bytes, max_payload_bytes in *; cbn [length] in *; lia.
Qed.

Section receive_spec.
Context {K : Type} `{NativePipe K}.

(** What a run of the loop from the bytes [h] must have done. *)
Definition received (until : Z) (h : bytes) (k : K) (res : option ((bytes + t_failure) * stream_state * K)) : Prop :=
  exists r h' k' s', reads until h k r h' k' /\ res = Some (r, s', k')
    /\ match r with inl _ => stream_wf s' h' | inr _ => s_failed s' = true end.

Lemma finish_eof d : decoder_wf d ->
  {| t_kind := match finish d with Some _ => fk_protocol_violation | None => fk_disconnected end;
     t_native_error := 0; t_framing := finish d |} = eof_failure 0 (pending d).
Proof.
  intros Hd. rewrite finish_held by done. unfold eof_failure, held_failure.
  case_bool_decide as E; [by rewrite E|]. by destruct (pending d).
Qed.

(** One native read after a passed check, once the buffer is used up. *)
Lemma fill_received fuel s until k k1 :
  s_failed s = false -> decoder_wf (s_decoder s) -> pipe_preflight until k = (None, k1) ->
  (forall s' h' k2, stream_wf s' h' -> (fuel_need s' <= fuel)%nat -> received until h' k2 (receive_loop fuel s' until k2)) ->
  (Z.to_nat (frame_header_bytes + max_payload_bytes - len (pending (s_decoder s))) <= fuel)%nat ->
  received until (pending (s_decoder s)) k
    match fill s until k1 with
    | (inl error, s', k2) => Some (inr error, s', k2)
    | (inr _, s', k2) => receive_loop fuel s' until k2
    end.
Proof.
  intros Hf Hd Hpre IH Hfu. pose proof (decoder_wf_more _ Hd) as Hmore. unfold fill.
  destruct (pipe_read until k1) as [[data|e] k2] eqn:Er.
  - destruct (len data =? 0) eqn:El.
    + assert (data = []) as -> by (by destruct data).
      rewrite finish_eof by done. eexists _, _, _, _. split_and!; [by eapply reads_eof|done|done].
    + assert (Hne : data <> []) by (by intros ->).
      destruct (IH (set_input s data) (pending (s_decoder s) ++ data) k2) as (r & h' & k' & s' & Hr & He & Hs).
      * by apply set_input_wf.
      * unfold fuel_need. rewrite set_input_buffered. cbn [set_input s_decoder]. case_bool_decide; [done|]. lia.
      * exists r, h', k', s'. split_and!; [by eapply reads_more|done|done].
  - rewrite closed_held by done. eexists _, _, _, _. split_and!; [by eapply reads_error|done|done].
Qed.

Lemma receive_loop_spec fuel s h until k :
  stream_wf s h -> (fuel_need s <= fuel)%nat -> received until h k (receive_loop fuel s until k).
Proof.
  revert s h k. induction fuel as [|fuel IH]; intros s h k Hwf Hfuel.
  { destruct Hwf as (_ & Hd & _). apply decoder_room in Hd. unfold fuel_need in Hfuel. lia. }
  cbn [receive_loop]. destruct (pipe_preflight until k) as [[e|] k1] eqn:Hpre.
  { eexists _, _, _, _. split_and!; [by eapply reads_refused|done|done]. }
  pose proof Hwf as (Hf & Hd & Hb & He & Hh). rewrite (buffered_nil s Hb He). unfold fuel_need in Hfuel.
  case_bool_decide as Ebuf; cbn [negb].
  { rewrite Ebuf, app_nil_r in Hh. subst h. apply fill_received; [done|done|done|by intros; apply IH|lia]. }
  pose proof (consume_step (s_decoder s) (buffered s) Hd) as Hs. unfold consume_spec in Hs.
  rewrite <- Hh in Hs. rewrite Hh in Hwf. destruct (next_frame h) as [| |p rest] eqn:En.
  - destruct Hs as (d' & -> & Hd' & Hp'). cbn [fp_payload consumed]. rewrite <- Hp'.
    apply (fill_received fuel (set_decoder s _ d')); [done|done|done|by intros; apply IH|].
    cbn [set_decoder s_decoder]. rewrite Hp', Hh, len_app. apply len_pos in Ebuf. lia.
  - destruct Hs as (d' & -> & _). eexists _, _, _, _. split_and!; [by eapply reads_bad_length|done|done].
  - destruct Hs as (d' & -> & Hd' & Hp' & Hrest & Hlt). cbn [fp_payload consumed].
    eexists _, _, _, _. split_and!; [by eapply reads_frame|done|].
    pose proof (advance_wf s (len (buffered s) - len rest) d' Hwf Hd') as Ha. rewrite Hp', <- Hrest in Ha.
    apply Ha. lia.
Qed.

Lemma receive_spec s h until (k : K) :
  stream_wf s h ->
  exists r h' k' s', reads until h k r h' k' /\ receive (Some s) until k = Some (r, Some s', k')
    /\ match r with inl _ => stream_wf s' h' | inr _ => s_failed s' = true end.
Proof.
  intros Hwf. assert (Hf : (fuel_need s <= receive_fuel)%nat).
  { unfold fuel_need, receive_fuel. pose proof (len_nonneg (pending (s_decoder s))).
    change max_payload_bytes with 1048576. change frame_header_bytes with 4. case_bool_decide; lia. }
  destruct (receive_loop_spec receive_fuel s h until k Hwf Hf) as (r & h' & k' & s' & Hr & Hl & Hs).
  exists r, h', k', s'. split_and!; [done| |done]. unfold receive. destruct Hwf as (-> & _). by rewrite Hl.
Qed.
End receive_spec.

(** ** A scripted pipe

    The answers of the native layer, in order.  [sc_checks] are the readings of the stop
    token and the clock that [native::preflight] takes, and the check is the one of
    native.cpp; an exhausted list is a check that passes.  A write of [n] bytes transfers
    at most the bytes offered; an exhausted read script is a peer that closed its end, an
    exhausted write script writes everything. *)
Record script := {
  sc_checks : list (bool * Z);
  sc_reads : list (bytes + t_failure);
  sc_writes : list (Z + t_failure);
  sc_written : bytes;
}.

Definition check_reading (until : Z) (reading : bool * Z) : option t_failure :=
  if reading.1 then Some (t_fail fk_cancelled)
  else if until <=? reading.2 then Some (t_fail fk_timeout) else None.

#[global] Instance scripted_pipe : NativePipe script := {|
  pipe_preflight until := fun k =>
    match sc_checks k with
    | [] => (None, k)
    | c :: rest =>
        (check_reading until c, {| sc_checks := rest; sc_reads := sc_reads k; sc_writes := sc_writes k;
                                   sc_written := sc_written k |})
    end;
  pipe_read _ := fun k =>
    match sc_reads k with
    | [] => (inr (io_failure ERROR_BROKEN_PIPE), k)
    | r :: rest =>
        (r, {| sc_checks := sc_checks k; sc_reads := rest; sc_writes := sc_writes k; sc_written := sc_written k |})
    end;
  pipe_write buffer _ := fun k =>
    let write (n : Z) rest :=
      (inl n, {| sc_checks := sc_checks k; sc_reads := sc_reads k; sc_writes := rest;
                 sc_written := sc_written k ++ take (Z.to_nat n) buffer |}) in
    match sc_writes k with
    | [] => write (len buffer) []
    | inl n :: rest => write (n `min` len buffer) rest
    | inr e :: rest =>
        (inr e, {| sc_checks := sc_checks k; sc_reads := sc_reads k; sc_writes := rest; sc_written := sc_written k |})
    end;
|}.

(** The readings show no stop request and a clock before the deadline. *)
Definition in_time (until : Z) (k : script) : Prop :=
  Forall (fun c : bool * Z => c.1 = false /\ c.2 < until) (sc_checks k).

Lemma in_time_preflight until k :
  in_time until k -> exists k', pipe_preflight until k = (None, k') /\ in_time until k'
    /\ sc_reads k' = sc_reads k /\ sc_writes k' = sc_writes k /\ sc_written k' = sc_written k.
Proof.
  unfold in_time. cbn [pipe_preflight scripted_pipe]. destruct (sc_checks k) as [|[st t] rest] eqn:Ec; intros Hc.
  { exists k. by rewrite Ec. }
  apply Forall_cons in Hc as [[Hs Ht] Hc]. cbn in Hs, Ht. subst st.
  unfold check_reading. cbn. rewrite (proj2 (Z.leb_gt _ _) Ht). by eexists.
Qed.

(** ** What [send] writes *)
Definition write_ok (w : Z + t_failure) : Prop := match w with inl n => 0 < n | inr _ => False end.

Lemma send_loop_spec fuel s remaining until k :
  (length remaining <= fuel)%nat -> Forall write_ok (sc_writes k) ->
  exists k', send_loop fuel s remaining until k = Some (None, s, k')
    /\ sc_written k' = sc_written k ++ remaining /\ sc_checks k' = sc_checks k /\ Forall write_ok (sc_writes k').
Proof.
  revert remaining k. induction fuel as [|fuel IH]; intros rem k Hlen Hw.
  { destruct rem; [|cbn in Hlen; lia]. exists k. by rewrite app_nil_r. }
  destruct rem as [|b rem']; [exists k; by rewrite app_nil_r|]. set (rem := b :: rem') in *.
  set (wrote n rest := {| sc_checks := sc_checks k; sc_reads := sc_reads k; sc_writes := rest;
                          sc_written := sc_written k ++ take (Z.to_nat n) rem |}).
  assert (Hstep : forall n rest, 0 < n <= len rem -> Forall write_ok rest ->
    exists k', (if (n =? 0) || (len rem <? n) then Some (Some (t_fail fk_disconnected), set_failed s, wrote n rest)
                else send_loop fuel s (drop (Z.to_nat n) rem) until (wrote n rest)) = Some (None, s, k')
      /\ sc_written k' = sc_written k ++ rem /\ sc_checks k' = sc_checks k /\ Forall write_ok (sc_writes k')).
  { intros n rest Hn Hr. rewrite (proj2 (Z.eqb_neq n 0)), (proj2 (Z.ltb_ge _ _)) by lia. cbn [orb].
    destruct (IH (drop (Z.to_nat n) rem) (wrote n rest)) as (k' & -> & Hwr & Hrd & Hok); [|done|].
    - rewrite length_drop. cbn [length rem] in Hlen |- *. lia.
    - exists k'. split_and!; [done| |done|done]. rewrite Hwr. unfold wrote. cbn [sc_written].
      by rewrite <- app_assoc, take_drop. }
  cbn [send_loop pipe_write scripted_pipe rem]. change (b :: rem') with rem.
  assert (0 < len rem) by (unfold rem, len; cbn [length]; lia).
  destruct (sc_writes k) as [|[n|e] rest] eqn:Ew.
  - apply (Hstep (len rem) []); [lia|constructor].
  - apply Forall_cons in Hw as [Hn Hw]. cbn in Hn. apply (Hstep (n `min` len rem) rest); [lia|done].
  - apply Forall_cons in Hw as [[] _].
Qed.

Lemma send_spec s payload until k :
  s_failed s = false -> frameable payload -> in_time until k -> Forall write_ok (sc_writes k) ->
  exists k', send (Some s) payload until k = Some (inl (frame_header_bytes + len payload), Some s, k')
    /\ sc_written k' = sc_written k ++ (header_bytes (len payload) ++ payload)
    /\ in_time until k' /\ Forall write_ok (sc_writes k').
Proof.
  intros Hf Hp Ht Hw. unfold send. rewrite Hf.
  destruct (in_time_preflight until k Ht) as (k1 & -> & Ht1 & _ & Hw1 & Hwr1).
  rewrite (frame_frameable _ Hp). set (owned := header_bytes (len payload) ++ payload).
  rewrite <- Hw1 in Hw. rewrite <- Hwr1.
  destruct (send_loop_spec (length owned) s owned until k1) as (k' & -> & Hwr & Hrd & Hok); [done|done|].
  exists k'. split_and!; [|done|by unfold in_time; rewrite Hrd|done]. do 4 f_equal. unfold owned.
  rewrite len_app. unfold len at 1. by rewrite header_bytes_length.
Qed.

(** ** Transfer *)
Fixpoint send_all (s : option stream_state) (payloads : list bytes) (until : Z) (k : script)
  : option (option stream_state * script) :=
  match payloads with
  | [] => Some (s, k)
  | p :: rest =>
      match send s p until k with
      | Some (inl _, s', k') => send_all s' rest until k'
      | _ => None
      end
  end.

Fixpoint receive_all (n : nat) (s : option stream_state) (until : Z) (k : script)
  : option (list bytes * option stream_state * script) :=
  match n with
  | O => Some ([], s, k)
  | S n' =>
      match receive s until k with
      | Some (inl p, s', k') =>
          match receive_all n' s' until k' with
          | Some (ps, s'', k'') => Some (p :: ps, s'', k'')
          | None => None
          end
      | _ => None
      end
  end.

Lemma send_all_spec payloads s until k :
  s_failed s = false -> Forall frameable payloads -> in_time until k -> Forall write_ok (sc_writes k) ->
  exists k', send_all (Some s) payloads until k = Some (Some s, k')
    /\ sc_written k' = sc_written k ++ framed_stream payloads.
Proof.
  intros Hf Hp. revert k. induction Hp as [|p ps Hp _ IH]; intros k Ht Hw; cbn [send_all].
  { exists k. unfold framed_stream. cbn. by rewrite app_nil_r. }
  destruct (send_spec s p until k Hf Hp Ht Hw) as (k1 & -> & Hwr & Ht1 & Hok).
  destruct (IH k1 Ht1 Hok) as (k2 & -> & Hwr2). exists k2. split; [done|].
  rewrite Hwr2, Hwr. unfold framed_stream. rewrite fmap_cons. cbn [concat]. by rewrite <- !app_assoc.
Qed.

(** The reference on a pipe that still delivers the pieces [chunks], in time. *)
Definition delivers (until : Z) (k : script) (chunks : list bytes) : Prop :=
  in_time until k /\ sc_reads k = inl <$> chunks /\ Forall (fun c => c <> []) chunks.

Lemma reads_framed until p rest chunks h k :
  frameable p -> delivers until k chunks -> h ++ concat chunks = (header_bytes (len p) ++ p) ++ rest ->
  exists h' chunks' k', reads until h k (inl p) h' k' /\ delivers until k' chunks' /\ h' ++ concat chunks' = rest.
Proof.
  intros Hp (Ht & Hk & Hc). revert h k Ht Hk.
  induction Hc as [|c chunks Hne Hc IH]; intros h k Ht Hk Heq;
    destruct (in_time_preflight until k Ht) as (k1 & Hpre & Ht1 & Hr1 & _).
  - cbn [concat] in Heq. rewrite app_nil_r in Heq. exists rest, [], k1.
    unfold delivers. split_and!; [|done|by rewrite Hr1|done|by rewrite app_nil_r].
    apply reads_frame; [done|]. by rewrite Heq, next_frame_framed.
  - cbn [concat] in Heq. pose proof (next_frame_framed p rest Hp) as Hn. rewrite <- Heq in Hn.
    rewrite fmap_cons in Hk. destruct (next_frame h) as [| |p' r'] eqn:En.
    + set (k2 := {| sc_checks := sc_checks k1; sc_reads := inl <$> chunks; sc_writes := sc_writes k1;
                    sc_written := sc_written k1 |}).
      destruct (IH (h ++ c) k2 Ht1 eq_refl) as (h' & chunks' & k' & Hr & Hd & Hrest); [by rewrite <- app_assoc|].
      exists h', chunks', k'. split_and!; [|done|done].
      apply (reads_more until h k k1 c k2); [done|done| |done|done].
      cbn [pipe_read scripted_pipe]. by rewrite Hr1, Hk.
    + rewrite (next_frame_app_bad _ _ En) in Hn. done.
    + rewrite (next_frame_app _ _ _ (c ++ concat chunks) En) in Hn. injection Hn as -> Hr.
      exists r', (c :: chunks), k1. unfold delivers. split_and!; [by apply reads_frame|done|by rewrite Hr1|by constructor|done].
Qed.

Lemma receive_framed until p rest chunks s h k :
  frameable p -> stream_wf s h -> delivers until k chunks -> h ++ concat chunks = (header_bytes (len p) ++ p) ++ rest ->
  exists h' chunks' s' k', receive (Some s) until k = Some (inl p, Some s', k')
    /\ stream_wf s' h' /\ delivers until k' chunks' /\ h' ++ concat chunks' = rest.
Proof.
  intros Hp Hwf Hd Heq.
  destruct (reads_framed until p rest chunks h k Hp Hd Heq) as (h' & chunks' & k' & Hr & Hd' & Heq').
  destruct (receive_spec s h until k Hwf) as (r & h2 & k2 & s' & Hr2 & Hrec & Hs).
  destruct (reads_deterministic until _ _ _ _ _ _ _ _ Hr Hr2) as (<- & <- & <-).
  by exists h', chunks', s', k'.
Qed.

Lemma receive_all_spec payloads s h chunks until k :
  Forall frameable payloads -> stream_wf s h -> delivers until k chunks ->
  h ++ concat chunks = framed_stream payloads ->
  exists s' k', receive_all (length payloads) (Some s) until k = Some (payloads, Some s', k')
    /\ stream_wf s' [] /\ delivers until k' [].
Proof.
  intros Hp. revert s h chunks k. induction Hp as [|p ps Hp _ IH]; intros s h chunks k Hwf Hd Heq.
  - destruct h; [|done]. destruct Hd as (Ht & Hk & Hc).
    destruct chunks as [|c chunks]; [|apply Forall_cons in Hc as [Hne _]; by destruct c]. by exists s, k.
  - unfold framed_stream in Heq. rewrite fmap_cons in Heq. cbn [concat] in Heq.
    destruct (receive_framed until p _ chunks s h k Hp Hwf Hd Heq) as (h' & chunks' & s1 & k1 & Hr & Hwf1 & Hd1 & Heq1).
    cbn [length receive_all]. rewrite Hr.
    destruct (IH s1 h' chunks' k1 Hwf1 Hd1 Heq1) as (s2 & k2 & -> & Hwf2 & Hd2). by exists s2, k2.
Qed.

(** Nothing held and nothing to come: the next call reports the peer that closed. *)
Lemma receive_closed until s k :
  stream_wf s [] -> delivers until k [] ->
  exists s' k', receive (Some s) until k = Some (inr (io_failure ERROR_BROKEN_PIPE), Some s', k')
    /\ delivers until k' [].
Proof.
  intros Hwf (Ht & Hk & _). destruct (in_time_preflight until k Ht) as (k1 & Hpre & Ht1 & Hr1 & _).
  assert (Hr : reads until [] k (inr (read_failure (io_failure ERROR_BROKEN_PIPE) [])) [] k1).
  { apply (reads_error until [] k k1); [done|done|]. cbn [pipe_read scripted_pipe]. by rewrite Hr1, Hk. }
  destruct (receive_spec s [] until k Hwf) as (r & h2 & k2 & s' & Hr2 & Hrec & Hs).
  destruct (reads_deterministic until _ _ _ _ _ _ _ _ Hr Hr2) as (<- & <- & <-).
  exists s', k1. unfold delivers. split_and!; [done|done|by rewrite Hr1|done].
Qed.

(** ** Failures are terminal *)
Section terminal.
Context {K : Type} `{NativePipe K}.

Lemma send_loop_failed fuel s remaining until k e s' k' :
  send_loop fuel s remaining until k = Some (Some e, s', k') -> s_failed s' = true.
Proof.
  revert remaining k. induction fuel as [|fuel IH]; intros [|b rem] k; cbn [send_loop]; try done.
  destruct (pipe_write _ _ _) as [[n|e'] k1]; [|by intros [= _ <- _]].
  destruct (_ || _); [by intros [= _ <- _]|]. apply IH.
Qed.

Lemma fill_failed s until k e s' k' : fill s until k = (inl e, s', k') -> s_failed s' = true.
Proof.
  unfold fill. destruct (pipe_read until k) as [[data|e'] k1]; [|by intros [= _ <- _]].
  destruct (_ =? _); [by intros [= _ <- _]|done].
Qed.

Lemma receive_loop_failed fuel s until k e s' k' :
  receive_loop fuel s until k = Some (inr e, s', k') -> s_failed s' = true.
Proof.
  revert s k. induction fuel as [|fuel IH]; intros s k; cbn [receive_loop]; [done|].
  destruct (pipe_preflight until k) as [[e'|] k1]; [by intros [= _ <- _]|].
  assert (Hread : forall s1, match fill s1 until k1 with
    | (inl error, s2, k2) => Some (inr error, s2, k2)
    | (inr _, s2, k2) => receive_loop fuel s2 until k2 end = Some (inr e, s', k') -> s_failed s' = true).
  { intros s1. destruct (fill s1 until k1) as [[[e'|[]] s2] k2] eqn:Ef; [|apply IH].
    intros [= _ <- _]. by eapply fill_failed. }
  destruct (_ <? _); [|apply Hread].
  destruct (consume _ _) as [d [progress|f]]; [|by intros [= _ <- _]].
  destruct (fp_payload progress); [done|apply Hread].
Qed.
End terminal.

(** ** Properties *)

(** C16: [receive] computes the reference reader.  On a usable stream and over any
    native pipe, the call returns within its fuel, and what it returns is what the
    reference [reads] answers from the bytes held: the failure of the stop and deadline
    check, taken anew in every round before anything else; the next payload of the bytes
    received, the bytes after it kept for the next call; the failure of the native read,
    or of an empty read, which is a protocol violation when a frame was cut; or the
    protocol violation of an invalid length.  The reference answers one thing only.
    After a payload the stream is usable again, and after a failure it is marked failed. *)
Theorem receive_correct {K : Type} `{NativePipe K} (s : stream_state) (held : bytes) until (k : K) :
  stream_wf s held ->
  exists r held' k' s', receive (Some s) until k = Some (r, Some s', k')
    /\ (forall r2 held2 k2, reads until held k r2 held2 k2 <-> r2 = r /\ held2 = held' /\ k2 = k')
    /\ match r with inl _ => stream_wf s' held' | inr _ => s_failed s' = true end.
Proof.
  intros Hwf. destruct (receive_spec s held until k Hwf) as (r & h' & k' & s' & Hr & Hrec & Hs).
  exists r, h', k', s'. split_and!; [done| |done]. intros r2 h2 k2. split.
  - intros Hr2. by destruct (reads_deterministic until _ _ _ _ _ _ _ _ Hr Hr2) as (<- & <- & <-).
  - by intros (-> & -> & ->).
Qed.

(** Two reads make a payload while the clock is before the deadline; the reading at the
    deadline gives the timeout. *)
Lemma receive_correct_witness :
  let k cs rs := {| sc_checks := cs; sc_reads := rs; sc_writes := []; sc_written := [] |} in
  let k0 t := k [(false, 3); (false, t)] [inl [x02; x00; x00; x00; x41]; inl [x42; x07]] in
  (exists s', receive (Some fresh_stream) 5 (k0 4) = Some (inl [x41; x42], Some s', k [] []) /\ stream_wf s' [x07])
  /\ exists s', receive (Some fresh_stream) 5 (k0 5) = Some (inr (t_fail fk_timeout), Some s', k [] [inl [x42; x07]])
       /\ s_failed s' = true.
Proof.
  intros k k0. split.
  - destruct (receive_correct fresh_stream [] 5 (k0 4) fresh_stream_wf) as (r & h' & k' & s' & Hrec & Hr & Hs).
    destruct (proj1 (Hr (inl [x41; x42]) [x07] (k [] []))) as (<- & <- & <-); [|by exists s'].
    eapply reads_more; [reflexivity|reflexivity|reflexivity|discriminate|].
    eapply reads_more; [reflexivity|reflexivity|reflexivity|discriminate|].
    eapply reads_frame; reflexivity.
  - destruct (receive_correct fresh_stream [] 5 (k0 5) fresh_stream_wf) as (r & h' & k' & s' & Hrec & Hr & Hs).
    destruct (proj1 (Hr (inr (t_fail fk_timeout)) [x02; x00; x00; x00; x41] (k [] [inl [x42; x07]])))
      as (<- & <- & <-); [|by exists s'].
    eapply reads_more; [reflexivity|reflexivity|reflexivity|discriminate|].
    eapply reads_refused; reflexivity.
Defined.

(** C15: Payloads cross a pipe unchanged.  A sequence of nonempty payloads of at most
    1 MiB, sent over a stream whose writes are split anywhere, is written as the
    concatenation of its frames; a stream that reads those bytes in any pieces receives
    exactly the payloads in order, and then reports a clean disconnection.  On both
    sides no stop is requested and every reading of the clock is before the deadline. *)
Theorem stream_transfer (payloads : list bytes) until (k : script) :
  Forall frameable payloads -> in_time until k -> Forall write_ok (sc_writes k) -> sc_written k = [] ->
  exists k', send_all (Some fresh_stream) payloads until k = Some (Some fresh_stream, k')
    /\ forall checks chunks, Forall (fun c => c <> []) chunks -> concat chunks = sc_written k' ->
       let k2 := {| sc_checks := checks; sc_reads := inl <$> chunks; sc_writes := []; sc_written := [] |} in
       in_time until k2 ->
       exists s' k3, receive_all (length payloads) (Some fresh_stream) until k2 = Some (payloads, Some s', k3)
         /\ exists s'' k4, receive (Some s') until k3
              = Some (inr (io_failure ERROR_BROKEN_PIPE), Some s'', k4).
Proof.
  intros Hp Ht Hw Hz. destruct (send_all_spec payloads fresh_stream until k eq_refl Hp Ht Hw) as (k' & Hs & Hwr).
  exists k'. split; [done|]. intros checks chunks Hc Hcat k2 Ht2. rewrite Hwr, Hz in Hcat.
  assert (Hd : delivers until k2 chunks) by done.
  destruct (receive_all_spec payloads fresh_stream [] chunks until k2 Hp fresh_stream_wf Hd Hcat)
    as (s' & k3 & Hr & Hwf & Hd3). exists s', k3. split; [done|].
  destruct (receive_closed until s' k3 Hwf Hd3) as (s'' & k4 & He & _). by exists s'', k4.
Qed.

Lemma stream_transfer_witness :
  let k := {| sc_checks := [(false, 1); (false, 2)]; sc_reads := []; sc_writes := [inl 3; inl 1]; sc_written := [] |} in
  exists k', send_all (Some fresh_stream) [[x41; x42]; [x43]] 5 k = Some (Some fresh_stream, k')
    /\ exists s' k3, receive_all 2 (Some fresh_stream) 5
         {| sc_checks := [(false, 3)];
            sc_reads := [inl [x02; x00]; inl [x00; x00; x41; x42; x01]; inl [x00; x00; x00; x43]];
            sc_writes := []; sc_written := [] |} = Some ([[x41; x42]; [x43]], Some s', k3).
Proof.
  intros k. destruct (stream_transfer [[x41; x42]; [x43]] 5 k) as (k' & Hs & Hr).
  - repeat constructor; discriminate.
  - repeat constructor.
  - repeat constructor.
  - reflexivity.
  - exists k'. split; [exact Hs|].
    destruct (Hr [(false, 3)] [[x02; x00]; [x00; x00; x41; x42; x01]; [x00; x00; x00; x43]]) as (s' & k3 & Hall & _).
    + repeat constructor; discriminate.
    + assert (Hk : send_all (Some fresh_stream) [[x41; x42]; [x43]] 5 k
        = Some (Some fresh_stream, {| sc_checks := []; sc_reads := []; sc_writes := [];
            sc_written := [x02; x00; x00; x00; x41; x42; x01; x00; x00; x00; x43] |})) by reflexivity.
      rewrite Hk in Hs. injection Hs as <-. reflexivity.
    + repeat constructor.
    + exists s', k3. exact Hall.
Defined.

(** Every stream failure is terminal.  Whatever the native layer does, after [send]
    or [receive] has returned a failure every later call on the stream returns
    [disconnected] without touching the pipe. *)
Lemma stream_failure_terminal {K : Type} `{NativePipe K} (s : stream_state) payload until (k : K) e s' k' :
  send (Some s) payload until k = Some (inr e, s', k') \/ receive (Some s) until k = Some (inr e, s', k') ->
  forall payload' until' k2,
    send s' payload' until' k2 = Some (inr (t_fail fk_disconnected), s', k2)
    /\ receive s' until' k2 = Some (inr (t_fail fk_disconnected), s', k2).
Proof.
  intros He. assert (Hs : exists st, s' = Some st /\ s_failed st = true).
  { destruct He as [He|He]; [unfold send in He|unfold receive in He];
      destruct (s_failed s) eqn:Ef; try (injection He as _ <- _; by exists s).
    - destruct (pipe_preflight until k) as [[e'|] k1]; [injection He as _ <- _; by eexists|].
      destruct (frame payload) as [owned|f]; [|injection He as _ <- _; by eexists].
      destruct (send_loop _ _ _ _ _) as [[[[e'|] st'] k2]|] eqn:El; [|done..].
      injection He as _ <- _. eexists. split; [done|]. by eapply send_loop_failed.
    - destruct (receive_loop _ _ _ _) as [[[r st'] k1]|] eqn:El; [|done]. injection He as -> <- _.
      eexists. split; [done|]. by eapply receive_loop_failed. }
  destruct Hs as (st & -> & Hf). intros payload' until' k2. unfold send, receive. by rewrite Hf.
Qed.

Lemma stream_failure_terminal_witness :
  let k := {| sc_checks := []; sc_reads := [inl [x00; x00; x00; x00]]; sc_writes := []; sc_written := [] |} in
  exists e s' k', receive (Some fresh_stream) 5 k = Some (inr e, s', k')
    /\ t_kind e = fk_protocol_violation /\ receive s' 5 k' = Some (inr (t_fail fk_disconnected), s', k').
Proof.
  intros k. destruct (receive_spec fresh_stream [] 5 k fresh_stream_wf) as (r & h' & k' & s' & Hr & Hrec & _).
  assert (Hr2 : exists k2, reads 5 [] k (inr length_failure) [x00; x00; x00; x00] k2).
  { eexists. eapply reads_more; [reflexivity|reflexivity|reflexivity|discriminate|].
    eapply reads_bad_length; reflexivity. }
  destruct Hr2 as (k2 & Hr2). destruct (reads_deterministic 5 _ _ _ _ _ _ _ _ Hr Hr2) as (-> & _).
  eexists _, _, _. split; [exact Hrec|]. split; [reflexivity|].
  apply (stream_failure_terminal fresh_stream [] 5 k _ _ _ (or_intror Hrec) []).
Defined.
