(* ===== verification/Messages.v ===== *)
(** * Wire messages (proto/pipeforge/v1/protocol.proto)

    One record per message of the schema, with the fields the generated C++ classes
    expose and the set of unknown fields every parsed message carries.  A singular
    message field is an [option] (its presence), a oneof an [option] of its cases, an
    enumeration field the integer on the wire (proto3 enumerations are open), a
    [double] its bit pattern.  [node] is what reflection lets [validate_message] see
    of a message: its unknown fields and its listed message and string fields, in
    field-number order. *)
From stdpp Require Import prelude strings.
From Stdlib Require Import ZArith Lia.
From S2P Require Import Prelude Contracts.

(** ** Unknown fields *)
Inductive unknown_field :=
  | UF_varint (number v : Z)
  | UF_fixed32 (number v : Z)
  | UF_fixed64 (number v : Z)
  | UF_length_delimited (number : Z) (s : string)
  | UF_group (number : Z) (l : list unknown_field).

Abbreviation unknowns := (list unknown_field).

(** ** Messages *)
Inductive Value_data := kText (s : string) | kInteger (n : Z) | kReal (bits : Z).
Record pb_Value := { Value_case : option Value_data; Value_unknown : unknowns }.

Record pb_NamedValue := {
  NamedValue_name : string; NamedValue_value : option pb_Value; NamedValue_unknown : unknowns }.
Record pb_ValueRecord := {
  ValueRecord_id : Z; ValueRecord_value : option pb_Value; ValueRecord_unknown : unknowns }.
Record pb_Parameter := {
  Parameter_name : string; Parameter_kind : Z; Parameter_unknown : unknowns }.
Record pb_Attribute := {
  Attribute_name : string; Attribute_kind : Z; Attribute_read_only : bool;
  Attribute_unknown : unknowns }.
Record pb_Method := {
  Method_name : string; Method_parameters : list pb_Parameter; Method_result_kind : Z;
  Method_unknown : unknowns }.
Record pb_ClassDescription := {
  ClassDescription_name : string;
  ClassDescription_attributes : list pb_Attribute;
  ClassDescription_methods : list pb_Method;
  ClassDescription_constructor_parameters : list pb_Parameter;
  ClassDescription_unknown : unknowns }.
Record pb_ObjectSnapshot := {
  ObjectSnapshot_id : Z; ObjectSnapshot_class_name : string;
  ObjectSnapshot_state : list pb_NamedValue; ObjectSnapshot_unknown : unknowns }.

Record pb_ListClasses := {
  ListClasses_after : string; ListClasses_limit : Z; ListClasses_unknown : unknowns }.
Record pb_DescribeClass := { DescribeClass_name : string; DescribeClass_unknown : unknowns }.
Record pb_PutValue := { PutValue_value : option pb_Value; PutValue_unknown : unknowns }.
Record pb_ListValues := {
  ListValues_after : Z; ListValues_limit : Z; ListValues_unknown : unknowns }.
Record pb_CreateObject := {
  CreateObject_class_name : string; CreateObject_arguments : list pb_NamedValue;
  CreateObject_unknown : unknowns }.
(** [GetValue], [GetObject] and [ReleaseObject] have the same single field. *)
Record pb_Id := { Id_id : Z; Id_unknown : unknowns }.
Record pb_GetAttribute := {
  GetAttribute_id : Z; GetAttribute_name : string; GetAttribute_unknown : unknowns }.
Record pb_InvokeMethod := {
  InvokeMethod_id : Z; InvokeMethod_name : string; InvokeMethod_arguments : list pb_NamedValue;
  InvokeMethod_unknown : unknowns }.

Record pb_ClassesPage := {
  ClassesPage_names : list string; ClassesPage_next : string; ClassesPage_unknown : unknowns }.
Record pb_ValuesPage := {
  ValuesPage_values : list pb_ValueRecord; ValuesPage_next : Z; ValuesPage_unknown : unknowns }.
Record pb_Released := { Released_unknown : unknowns }.
Record pb_RemoteError := {
  RemoteError_code : Z; RemoteError_message : string; RemoteError_unknown : unknowns }.

Inductive Request_operation :=
  | kListClasses (m : pb_ListClasses)
  | kDescribeClass (m : pb_DescribeClass)
  | kPutValue (m : pb_PutValue)
  | kGetValue (m : pb_Id)
  | kListValues (m : pb_ListValues)
  | kCreateObject (m : pb_CreateObject)
  | kGetObject (m : pb_Id)
  | kReleaseObject (m : pb_Id)
  | kGetAttribute (m : pb_GetAttribute)
  | kInvokeMethod (m : pb_InvokeMethod).

Record pb_Request := {
  Request_version : option Z; Request_request_id : Z;
  Request_case : option Request_operation; Request_unknown : unknowns }.

Inductive Response_outcome :=
  | kClasses (m : pb_ClassesPage)
  | kDescription (m : pb_ClassDescription)
  | kValueRecord (m : pb_ValueRecord)
  | kValues (m : pb_ValuesPage)
  | kObject (m : pb_ObjectSnapshot)
  | kReleased (m : pb_Released)
  | kValue (m : pb_Value)
  | kError (m : pb_RemoteError).

Record pb_Response := {
  Response_version : option Z; Response_request_id : Z;
  Response_case : option Response_outcome; Response_unknown : unknowns }.

(** The default instance an absent message field reads as. *)
Definition default_Value : pb_Value := {| Value_case := None; Value_unknown := [] |}.
Definition get_Value (v : option pb_Value) : pb_Value := default default_Value v.

(** ** The reflection view

    [R_messages] is a listed message field (a singular one has one element),
    [R_strings] a listed string field; scalar fields are not inspected. *)
Inductive node := Node (unknown : unknowns) (fields : list rfield)
with rfield :=
  | R_messages (l : list node)
  | R_strings (l : list string).

(** [ListFields] omits empty repeated fields and implicit-presence strings that are
    empty. *)
Definition r_string (s : string) : list rfield :=
  if bool_decide (s = "") then [] else [R_strings [s]].
Definition r_strings (l : list string) : list rfield := if bool_decide (l = []) then [] else [R_strings l].
Definition r_message (o : option node) : list rfield :=
  match o with Some n => [R_messages [n]] | None => [] end.
Definition r_messages (l : list node) : list rfield :=
  match l with [] => [] | _ => [R_messages l] end.

Definition tree_Value (m : pb_Value) : node :=
  Node (Value_unknown m)
    match Value_case m with
    | Some (kText s) => [R_strings [s]]
    | _ => []
    end.
Definition tree_NamedValue (m : pb_NamedValue) : node :=
  Node (NamedValue_unknown m)
    (r_string (NamedValue_name m) ++ r_message (tree_Value <$> NamedValue_value m)).
Definition tree_ValueRecord (m : pb_ValueRecord) : node :=
  Node (ValueRecord_unknown m) (r_message (tree_Value <$> ValueRecord_value m)).
Definition tree_Parameter (m : pb_Parameter) : node :=
  Node (Parameter_unknown m) (r_string (Parameter_name m)).
Definition tree_Attribute (m : pb_Attribute) : node :=
  Node (Attribute_unknown m) (r_string (Attribute_name m)).
Definition tree_Method (m : pb_Method) : node :=
  Node (Method_unknown m)
    (r_string (Method_name m) ++ r_messages (tree_Parameter <$> Method_parameters m)).
Definition tree_ClassDescription (m : pb_ClassDescription) : node :=
  Node (ClassDescription_unknown m)
    (r_string (ClassDescription_name m)
     ++ r_messages (tree_Attribute <$> ClassDescription_attributes m)
     ++ r_messages (tree_Method <$> ClassDescription_methods m)
     ++ r_messages (tree_Parameter <$> ClassDescription_constructor_parameters m)).
Definition tree_ObjectSnapshot (m : pb_ObjectSnapshot) : node :=
  Node (ObjectSnapshot_unknown m)
    (r_string (ObjectSnapshot_class_name m)
     ++ r_messages (tree_NamedValue <$> ObjectSnapshot_state m)).
Definition tree_Id (m : pb_Id) : node := Node (Id_unknown m) [].

Definition tree_operation (op : Request_operation) : node :=
  match op with
  | kListClasses m => Node (ListClasses_unknown m) (r_string (ListClasses_after m))
  | kDescribeClass m => Node (DescribeClass_unknown m) (r_string (DescribeClass_name m))
  | kPutValue m => Node (PutValue_unknown m) (r_message (tree_Value <$> PutValue_value m))
  | kGetValue m | kGetObject m | kReleaseObject m => tree_Id m
  | kListValues m => Node (ListValues_unknown m) []
  | kCreateObject m =>
      Node (CreateObject_unknown m)
        (r_string (CreateObject_class_name m)
         ++ r_messages (tree_NamedValue <$> CreateObject_arguments m))
  | kGetAttribute m => Node (GetAttribute_unknown m) (r_string (GetAttribute_name m))
  | kInvokeMethod m =>
      Node (InvokeMethod_unknown m)
        (r_string (InvokeMethod_name m)
         ++ r_messages (tree_NamedValue <$> InvokeMethod_arguments m))
  end.

Definition tree_Request (m : pb_Request) : node :=
  Node (Request_unknown m) (r_message (tree_operation <$> Request_case m)).

Definition tree_outcome (o : Response_outcome) : node :=
  match o with
  | kClasses m =>
      Node (ClassesPage_unknown m) (r_strings (ClassesPage_names m) ++ r_string (ClassesPage_next m))
  | kDescription m => tree_ClassDescription m
  | kValueRecord m => tree_ValueRecord m
  | kValues m =>
      Node (ValuesPage_unknown m) (r_messages (tree_ValueRecord <$> ValuesPage_values m))
  | kObject m => tree_ObjectSnapshot m
  | kReleased m => Node (Released_unknown m) []
  | kValue m => tree_Value m
  | kError m => Node (RemoteError_unknown m) (r_string (RemoteError_message m))
  end.

Definition tree_Response (m : pb_Response) : node :=
  Node (Response_unknown m) (r_message (tree_outcome <$> Response_case m)).
