(* ===== verification/Codec.v ===== *)
(** * The payload codec (src/protocol/codec.cpp)

    Resource validation of parsed messages, the translation between messages and
    contracts, and the four entry points.  Protobuf itself (the generated classes'
    parser and serializer) is not part of the repository: it is the class
    [Protobuf], and the documented facts the codec relies on are [ProtobufLaws].
    The template parameter [Envelope] is a type class with an instance for each of
    the two envelopes. *)
From stdpp Require Import prelude gmap strings.
From Stdlib Require Import ZArith Lia.
From S2P Require Import Prelude Utf8 Contracts Validation Framing Messages.

Definition max_unknown_fields : Z := 128.

(** ** Resource limits *)

(** The loop of [bounded_unknowns], over the check of one field. *)
Section unknown_loop.
Context (field : unknown_field -> Z -> bool * Z).
Fixpoint unknowns_loop (l : unknowns) (remaining : Z) : bool * Z :=
  match l with
  | [] => (true, remaining)
  | f :: rest =>
      match field f remaining with
      | (true, remaining') => unknowns_loop rest remaining'
      | r => r
      end
  end.

Definition unknowns_level (depth : Z) (l : unknowns) (remaining : Z) : bool * Z :=
  if (max_recursion_depth <? depth) || (remaining <? len l) then (false, remaining)
  else unknowns_loop l (remaining - len l).
End unknown_loop.

(** One field of a set at [depth]; a group is a set one level deeper. *)
Fixpoint bounded_field (depth : Z) (f : unknown_field) (remaining : Z) : bool * Z :=
  match f with
  | UF_length_delimited _ s => (strlen s <=? max_string_bytes, remaining)
  | UF_group _ l => unknowns_level (bounded_field (depth + 1)) (depth + 1) l remaining
  | _ => (true, remaining)
  end.

Definition bounded_unknowns (unknown : unknowns) (remaining depth : Z) : bool * Z :=
  unknowns_level (bounded_field depth) depth unknown remaining.

Section codec.
Context `{Utf8Ops}.

Fixpoint validate_strings (l : list string) : option failure_code :=
  match l with
  | [] => None
  | text :: rest =>
      if max_string_bytes <? strlen text then Some fc_limit_exceeded
      else if negb (is_structurally_valid text) then Some fc_invalid_fields
      else validate_strings rest
  end.

(** The error, if any, and the two counters that the calls share by reference. *)
Abbreviation check := (option failure_code * (Z * Z))%type.

(** A loop over checks: the first error ends it. *)
Definition check_all {A} (f : A -> Z -> Z -> check) : list A -> Z -> Z -> check :=
  fix go l nodes unk :=
    match l with
    | [] => (None, (nodes, unk))
    | x :: rest =>
        match f x nodes unk with
        | (None, (nodes', unk')) => go rest nodes' unk'
        | r => r
        end
    end.

Fixpoint validate_message (m : node) (nodes unk : Z) : check :=
  match m with
  | Node unknown fields =>
      if nodes =? 0 then (Some fc_limit_exceeded, (nodes, unk))
      else
        match bounded_unknowns unknown unk 0 with
        | (false, unk') => (Some fc_limit_exceeded, (nodes ⊟ 1, unk'))
        | (true, unk') => check_all validate_field fields (nodes ⊟ 1) unk'
        end
  end
with validate_field (f : rfield) (nodes unk : Z) : check :=
  match f with
  | R_messages l =>
      if max_entries <? len l then (Some fc_limit_exceeded, (nodes, unk))
      else check_all validate_message l nodes unk
  | R_strings l =>
      if max_entries <? len l then (Some fc_limit_exceeded, (nodes, unk))
      else (validate_strings l, (nodes, unk))
  end.

(** ** Values and named values *)
Definition read_value (input : pb_Value) : option value :=
  match Value_case input with
  | Some (kText s) => Some (Text s)
  | Some (kInteger n) => Some (Integer n)
  | Some (kReal bits) => if real_isfinite bits then Some (Real bits) else None
  | None => None
  end.

Definition write_value (input : value) : pb_Value := {|
  Value_case := Some match input with
                     | Text s => kText s
                     | Integer n => kInteger n
                     | Real bits => kReal bits
                     end;
  Value_unknown := [] |}.

Definition read_entry (entry : pb_NamedValue) : option named_value :=
  data ← read_value (get_Value (NamedValue_value entry));
  Some {| nv_name := NamedValue_name entry; nv_data := data |}.

Definition read_named (entries : list pb_NamedValue) : option (list named_value) :=
  output ← mapM read_entry entries;
  if negb (valid_names nv_name output) then None else Some output.

Definition write_entry (entry : named_value) : pb_NamedValue := {|
  NamedValue_name := nv_name entry;
  NamedValue_value := Some (write_value (nv_data entry));
  NamedValue_unknown := [] |}.

Definition write_named (entries : list named_value) : list pb_NamedValue := write_entry <$> entries.

(** ** Operations *)
Definition read_operation (input : pb_Request) : option operation :=
  match Request_case input with
  | Some (kListClasses m) =>
      if valid_name (ListClasses_after m) true && valid_page_size (ListClasses_limit m)
      then Some (list_classes (ListClasses_after m) (ListClasses_limit m)) else None
  | Some (kDescribeClass m) =>
      if valid_name (DescribeClass_name m) false
      then Some (describe_class (DescribeClass_name m)) else None
  | Some (kPutValue m) =>
      data ← read_value (get_Value (PutValue_value m)); Some (put_value data)
  | Some (kGetValue m) => if negb (Id_id m =? 0) then Some (get_value (Id_id m)) else None
  | Some (kListValues m) =>
      if valid_page_size (ListValues_limit m)
      then Some (list_values (ListValues_after m) (ListValues_limit m)) else None
  | Some (kCreateObject m) =>
      if valid_name (CreateObject_class_name m) false then
        arguments ← read_named (CreateObject_arguments m);
        Some (create_object (CreateObject_class_name m) arguments)
      else None
  | Some (kGetObject m) => if negb (Id_id m =? 0) then Some (get_object (Id_id m)) else None
  | Some (kReleaseObject m) => if negb (Id_id m =? 0) then Some (release_object (Id_id m)) else None
  | Some (kGetAttribute m) =>
      if negb (GetAttribute_id m =? 0) && valid_name (GetAttribute_name m) false
      then Some (get_attribute (GetAttribute_id m) (GetAttribute_name m)) else None
  | Some (kInvokeMethod m) =>
      if negb (InvokeMethod_id m =? 0) && valid_name (InvokeMethod_name m) false then
        arguments ← read_named (InvokeMethod_arguments m);
        Some (invoke_method (InvokeMethod_id m) (InvokeMethod_name m) arguments)
      else None
  | None => None
  end.

Definition write_id (id : Z) : pb_Id := {| Id_id := id; Id_unknown := [] |}.

Definition write_operation (input : operation) : Request_operation :=
  match input with
  | list_classes after limit =>
      kListClasses {| ListClasses_after := after; ListClasses_limit := limit;
                      ListClasses_unknown := [] |}
  | describe_class name =>
      kDescribeClass {| DescribeClass_name := name; DescribeClass_unknown := [] |}
  | put_value data =>
      kPutValue {| PutValue_value := Some (write_value data); PutValue_unknown := [] |}
  | get_value id => kGetValue (write_id id)
  | list_values after limit =>
      kListValues {| ListValues_after := after; ListValues_limit := limit;
                     ListValues_unknown := [] |}
  | create_object class_name arguments =>
      kCreateObject {| CreateObject_class_name := class_name;
                       CreateObject_arguments := write_named arguments;
                       CreateObject_unknown := [] |}
  | get_object id => kGetObject (write_id id)
  | release_object id => kReleaseObject (write_id id)
  | get_attribute id name =>
      kGetAttribute {| GetAttribute_id := id; GetAttribute_name := name;
                       GetAttribute_unknown := [] |}
  | invoke_method id name arguments =>
      kInvokeMethod {| InvokeMethod_id := id; InvokeMethod_name := name;
                       InvokeMethod_arguments := write_named arguments;
                       InvokeMethod_unknown := [] |}
  end.

(** ** Records, parameters and descriptions *)
Definition read_record (input : pb_ValueRecord) : option value_record :=
  data ← read_value (get_Value (ValueRecord_value input));
  if negb (ValueRecord_id input =? 0)
  then Some {| vr_id := ValueRecord_id input; vr_data := data |} else None.

Definition write_record (input : value_record) : pb_ValueRecord := {|
  ValueRecord_id := vr_id input;
  ValueRecord_value := Some (write_value (vr_data input));
  ValueRecord_unknown := [] |}.

(** [static_cast<value_kind>] truncates to eight bits; the comparison undoes it. *)
Definition read_kind (wire : Z) : option value_kind :=
  let kind := wire mod 256 in
  if negb (valid_kind kind) || negb (kind =? wire) then None else Some kind.

Definition read_parameter (argument : pb_Parameter) : option parameter :=
  kind ← read_kind (Parameter_kind argument);
  Some {| param_name := Parameter_name argument; param_kind := kind |}.

Definition read_parameters (input : list pb_Parameter) : option (list parameter) :=
  output ← mapM read_parameter input;
  if negb (valid_names param_name output) then None else Some output.

Definition write_parameter (argument : parameter) : pb_Parameter := {|
  Parameter_name := param_name argument; Parameter_kind := param_kind argument;
  Parameter_unknown := [] |}.

Definition write_parameters (input : list parameter) : list pb_Parameter := write_parameter <$> input.

Definition read_attribute (field : pb_Attribute) : option attribute :=
  kind ← read_kind (Attribute_kind field);
  Some {| attr_name := Attribute_name field; attr_kind := kind;
          attr_read_only := Attribute_read_only field |}.

Definition read_method (function : pb_Method) : option method :=
  kind ← read_kind (Method_result_kind function);
  parameters ← read_parameters (Method_parameters function);
  Some {| method_name := Method_name function; method_parameters := parameters;
          method_result_kind := kind |}.

Definition read_description (input : pb_ClassDescription) : option class_description :=
  if negb (valid_name (ClassDescription_name input) false) then None
  else
    constructor ← read_parameters (ClassDescription_constructor_parameters input);
    attributes ← mapM read_attribute (ClassDescription_attributes input);
    methods ← mapM read_method (ClassDescription_methods input);
    if negb (valid_names attr_name attributes) || negb (valid_names method_name methods) then None
    else Some {| desc_name := ClassDescription_name input; desc_attributes := attributes;
                 desc_methods := methods; desc_constructor_parameters := constructor |}.

Definition write_attribute (field : attribute) : pb_Attribute := {|
  Attribute_name := attr_name field; Attribute_kind := attr_kind field;
  Attribute_read_only := attr_read_only field; Attribute_unknown := [] |}.

Definition write_method (function : method) : pb_Method := {|
  Method_name := method_name function;
  Method_parameters := write_parameters (method_parameters function);
  Method_result_kind := method_result_kind function; Method_unknown := [] |}.

Definition write_description (input : class_description) : pb_ClassDescription := {|
  ClassDescription_name := desc_name input;
  ClassDescription_attributes := write_attribute <$> desc_attributes input;
  ClassDescription_methods := write_method <$> desc_methods input;
  ClassDescription_constructor_parameters := write_parameters (desc_constructor_parameters input);
  ClassDescription_unknown := [] |}.

(** ** Outcomes *)

(** [std::ranges::is_sorted]: no element is less than the one before it. *)
Fixpoint is_sorted (l : list string) : bool :=
  match l with
  | x :: (y :: _) as rest => negb (bool_decide (str_lt y x)) && is_sorted rest
  | _ => true
  end.

(** [std::ranges::adjacent_find] finds two equal neighbours. *)
Fixpoint has_adjacent (l : list string) : bool :=
  match l with
  | x :: (y :: _) as rest => bool_decide (x = y) || has_adjacent rest
  | _ => false
  end.

Definition read_classes (m : pb_ClassesPage) : option classes_page :=
  let names := ClassesPage_names m in
  let next := ClassesPage_next m in
  if negb (forallb (fun name => valid_name name false) names) || negb (is_sorted names)
     || has_adjacent names
     || (negb (bool_decide (next = "")) && negb (bool_decide (last names = Some next)))
  then None
  else Some {| cp_names := names; cp_next := next |}.

(** The loop over the records of a page; [previous] is the last identifier. *)
Fixpoint read_records (previous : Z) (l : list pb_ValueRecord) : option (list value_record * Z) :=
  match l with
  | [] => Some ([], previous)
  | record :: rest =>
      match read_record record with
      | None => None
      | Some data =>
          if vr_id data <=? previous then None
          else
            match read_records (vr_id data) rest with
            | None => None
            | Some (records, previous') => Some (data :: records, previous')
            end
      end
  end.

Definition read_values (m : pb_ValuesPage) : option values_page :=
  let next := ValuesPage_next m in
  match read_records 0 (ValuesPage_values m) with
  | None => None
  | Some (records, previous) =>
      if negb (next =? 0) && (bool_decide (records = []) || negb (next =? previous)) then None
      else Some {| vp_values := records; vp_next := next |}
  end.

Definition read_outcome (input : pb_Response) : option outcome :=
  match Response_case input with
  | Some (kClasses m) => o_classes <$> read_classes m
  | Some (kDescription m) => o_description <$> read_description m
  | Some (kValueRecord m) => o_record <$> read_record m
  | Some (kValues m) => o_values <$> read_values m
  | Some (kObject m) =>
      if negb (ObjectSnapshot_id m =? 0) && valid_name (ObjectSnapshot_class_name m) false then
        state ← read_named (ObjectSnapshot_state m);
        Some (o_object {| snap_id := ObjectSnapshot_id m;
                          snap_class_name := ObjectSnapshot_class_name m; snap_state := state |})
      else None
  | Some (kReleased _) => Some o_released
  | Some (kValue m) => o_value <$> read_value m
  | Some (kError m) =>
      if (invalid_request <=? RemoteError_code m) && (RemoteError_code m <=? numeric_overflow)
      then Some (o_error {| err_code := RemoteError_code m; err_message := RemoteError_message m |})
      else None
  | None => None
  end.

Definition write_classes (p : classes_page) : pb_ClassesPage :=
  {| ClassesPage_names := cp_names p; ClassesPage_next := cp_next p; ClassesPage_unknown := [] |}.

Definition write_values (p : values_page) : pb_ValuesPage :=
  {| ValuesPage_values := write_record <$> vp_values p; ValuesPage_next := vp_next p;
     ValuesPage_unknown := [] |}.

Definition write_outcome (input : outcome) : Response_outcome :=
  match input with
  | o_classes page => kClasses (write_classes page)
  | o_description d => kDescription (write_description d)
  | o_record r => kValueRecord (write_record r)
  | o_values page => kValues (write_values page)
  | o_object s =>
      kObject {| ObjectSnapshot_id := snap_id s; ObjectSnapshot_class_name := snap_class_name s;
                 ObjectSnapshot_state := write_named (snap_state s); ObjectSnapshot_unknown := [] |}
  | o_released => kReleased {| Released_unknown := [] |}
  | o_value v => kValue (write_value v)
  | o_error e =>
      kError {| RemoteError_code := err_code e; RemoteError_message := err_message e;
                RemoteError_unknown := [] |}
  end.
End codec.

(** ** Protobuf

    Parsing with a total-bytes and a recursion limit ([None] is a parse failure or
    trailing input), the encoded size, and serialization into a buffer. *)
Class Protobuf := {
  parse_Request (total recursion : Z) (payload : bytes) : option pb_Request;
  size_Request : pb_Request -> Z;
  serialize_Request : pb_Request -> option bytes;
  parse_Response (total recursion : Z) (payload : bytes) : option pb_Response;
  size_Response : pb_Response -> Z;
  serialize_Response : pb_Response -> option bytes;
}.

(** What the templates use of their parameter. *)
Class Envelope (E : Type) := {
  env_request_id : E -> Z;
  env_version : E -> option Z;
  env_tree : E -> node;
  env_parse (total recursion : Z) (payload : bytes) : option E;
  env_size : E -> Z;
  env_serialize : E -> option bytes;
}.

#[global] Instance Request_envelope `{Protobuf} : Envelope pb_Request := {|
  env_request_id := Request_request_id; env_version := Request_version;
  env_tree := tree_Request; env_parse := parse_Request;
  env_size := size_Request; env_serialize := serialize_Request |}.
#[global] Instance Response_envelope `{Protobuf} : Envelope pb_Response := {|
  env_request_id := Response_request_id; env_version := Response_version;
  env_tree := tree_Response; env_parse := parse_Response;
  env_size := size_Response; env_serialize := serialize_Response |}.

Section envelope.
Context `{Utf8Ops} {E : Type} `{Envelope E}.

Definition fatal (code : failure_code) : failure :=
  {| f_code := code; f_close_session := true; f_request_id := None |}.
Definition recoverable (code : failure_code) (id : Z) : failure :=
  {| f_code := code; f_close_session := false; f_request_id := Some id |}.

Definition validate_envelope (message : E) : option failure :=
  let id := env_request_id message in
  if id =? 0 then Some (fatal fc_invalid_fields)
  else
    match env_version message with
    | None => Some (recoverable fc_invalid_fields id)
    | Some v =>
        if negb (v =? version) then Some (recoverable fc_unsupported_version id)
        else
          match validate_message (env_tree message) max_message_nodes max_unknown_fields with
          | (Some error, _) => Some (recoverable error id)
          | (None, _) => None
          end
    end.

Definition parse (payload : bytes) : E + failure :=
  if bool_decide (payload = []) || (max_payload_bytes <? len payload)
  then inr (fatal fc_limit_exceeded)
  else
    match env_parse max_payload_bytes max_recursion_depth payload with
    | None => inr (fatal fc_malformed)
    | Some message =>
        match validate_envelope message with
        | Some f => inr f
        | None => inl message
        end
    end.

Definition serialize (message : E) : bytes + failure :=
  if max_payload_bytes <? env_size message
  then inr (recoverable fc_limit_exceeded (env_request_id message))
  else
    match env_serialize message with
    | None => inr (fatal fc_malformed)
    | Some output => inl output
    end.
End envelope.

(** ** Entry points *)
Section entry.
Context `{Utf8Ops} `{Protobuf}.

Definition decode_request (payload : bytes) : request + failure :=
  match parse (E := pb_Request) payload with
  | inr f => inr f
  | inl message =>
      match read_operation message with
      | Some body => inl {| req_id := Request_request_id message; req_body := body;
                            req_version := default 0 (Request_version message) |}
      | None => inr (recoverable fc_invalid_fields (Request_request_id message))
      end
  end.

Definition decode_response (payload : bytes) : response + failure :=
  match parse (E := pb_Response) payload with
  | inr f => inr f
  | inl message =>
      match read_outcome message with
      | Some body => inl {| resp_id := Response_request_id message; resp_body := body;
                            resp_version := default 0 (Response_version message) |}
      | None => inr (recoverable fc_invalid_fields (Response_request_id message))
      end
  end.

Definition request_message (input : request) : pb_Request := {|
  Request_version := Some (req_version input); Request_request_id := req_id input;
  Request_case := Some (write_operation (req_body input)); Request_unknown := [] |}.

Definition response_message (input : response) : pb_Response := {|
  Response_version := Some (resp_version input); Response_request_id := resp_id input;
  Response_case := Some (write_outcome (resp_body input)); Response_unknown := [] |}.

Definition encode_request (input : request) : bytes + failure :=
  let message := request_message input in
  match validate_envelope message with
  | Some f => inr f
  | None =>
      match read_operation message with
      | None => inr (recoverable fc_invalid_fields (req_id input))
      | Some _ => serialize message
      end
  end.

Definition encode_response (input : response) : bytes + failure :=
  let message := response_message input in
  match validate_envelope message with
  | Some f => inr f
  | None =>
      match read_outcome message with
      | None => inr (recoverable fc_invalid_fields (resp_id input))
      | Some _ => serialize message
      end
  end.

Definition supported_version : Z := version.
End entry.
