(* ===== verification/CodecProofs.v ===== *)
(** * The codec is correct

    What [validate_message] accepts, what the readers accept, that the readers invert
    the writers, and the consequences for the four entry points: decoded data is
    valid, encoded data decodes to itself, and every valid request or response is
    encodable up to the payload bound. *)
From stdpp Require Import prelude gmap strings sorting.
From Stdlib Require Import ZArith Lia.
From S2P Require Import Prelude Utf8 Contracts Validation Framing Messages Codec.

(** ** Shapes of messages *)
Definition all_of {A} (P : A -> Prop) : list A -> Prop :=
  fix go l := match l with [] => True | x :: rest => P x /\ go rest end.
Definition sum_of {A} (f : A -> Z) : list A -> Z :=
  fix go l := match l with [] => 0 | x :: rest => f x + go rest end.

Lemma all_of_Forall {A} (P : A -> Prop) l : all_of P l <-> Forall P l.
Proof. induction l; simpl; rewrite ?Forall_nil, ?Forall_cons; naive_solver. Qed.

Lemma sum_of_zsum {A} (f : A -> Z) l : sum_of f l = zsum f l.
Proof. induction l; simpl; lia. Qed.

(** Number of messages of a tree. *)
Fixpoint node_count (m : node) : Z :=
  match m with Node _ fields => 1 + sum_of field_count fields end
with field_count (f : rfield) : Z :=
  match f with R_messages l => sum_of node_count l | R_strings _ => 0 end.

(** No message of the tree has unknown fields. *)
Fixpoint node_clean (m : node) : Prop :=
  match m with Node unknown fields => unknown = [] /\ all_of field_clean fields end
with field_clean (f : rfield) : Prop :=
  match f with R_messages l => all_of node_clean l | R_strings _ => True end.

Section shapes.
Context `{Utf8Ops}.

Definition wire_string (s : string) : Prop :=
  strlen s <= max_string_bytes /\ is_structurally_valid s = true.

(** Every string is bounded valid text and every field has at most 64 entries. *)
Fixpoint node_ok (m : node) : Prop :=
  match m with Node _ fields => all_of field_ok fields end
with field_ok (f : rfield) : Prop :=
  match f with
  | R_messages l => len l <= max_entries /\ all_of node_ok l
  | R_strings l => len l <= max_entries /\ all_of wire_string l
  end.
End shapes.

(** Structural induction over messages and fields, through the lists. *)
Section node_induction.
Context (P : node -> Prop) (Q : rfield -> Prop).
Context (HN : forall u fields, Forall Q fields -> P (Node u fields)).
Context (HM : forall l, Forall P l -> Q (R_messages l)).
Context (HS : forall l, Q (R_strings l)).

Fixpoint node_induction (m : node) : P m :=
  match m with
  | Node u fields =>
      HN u fields ((fix go l : Forall Q l :=
        match l with
        | [] => Forall_nil_2 Q
        | f :: rest => Forall_cons_2 Q f rest (field_induction f) (go rest)
        end) fields)
  end
with field_induction (f : rfield) : Q f :=
  match f with
  | R_messages l =>
      HM l ((fix go l : Forall P l :=
        match l with
        | [] => Forall_nil_2 P
        | m :: rest => Forall_cons_2 P m rest (node_induction m) (go rest)
        end) l)
  | R_strings l => HS l
  end.
End node_induction.

Lemma sum_of_nonneg {A} (f : A -> Z) l : Forall (fun x => 0 <= f x) l -> 0 <= sum_of f l.
Proof. induction 1; simpl; lia. Qed.

Lemma node_count_pos m : 1 <= node_count m.
Proof.
  apply (node_induction (fun m => 1 <= node_count m) (fun f => 0 <= field_count f)).
  - intros u fields Hf. simpl. pose proof (sum_of_nonneg _ _ Hf). lia.
  - intros l Hl. simpl. apply sum_of_nonneg. eapply Forall_impl; [done|]. simpl. lia.
  - intros l. simpl. lia.
Qed.

(** ** What [validate_message] accepts *)
Section validate.
Context `{Utf8Ops}.

Lemma validate_strings_None l : validate_strings l = None <-> all_of wire_string l.
Proof.
  induction l as [|s l IH]; simpl; [done|]. unfold wire_string at 1.
  destruct (max_string_bytes <? strlen s) eqn:E; bool_simp; [split; [done|lia]|].
  destruct (is_structurally_valid s) eqn:U; simpl; [|split; [done|naive_solver]].
  rewrite IH. naive_solver.
Qed.

(** One check accepts, and leaves [count] fewer nodes. *)
Definition accepts {A} (f : A -> Z -> Z -> option failure_code * (Z * Z)) (ok : A -> Prop)
    (count : A -> Z) (x : A) : Prop :=
  forall nodes unk nodes' unk', 0 <= nodes < two64 -> f x nodes unk = (None, (nodes', unk')) ->
    ok x /\ nodes' = nodes - count x /\ 0 <= nodes' <= nodes.

Lemma check_all_accepts {A} (f : A -> Z -> Z -> option failure_code * (Z * Z)) ok count l :
  Forall (accepts f ok count) l -> accepts (check_all f) (all_of ok) (sum_of count) l.
Proof.
  induction 1 as [|x l Hx _ IH]; intros nodes unk nodes' unk' Hn Hc; simpl in *; [simplify_eq; lia|].
  destruct (f x nodes unk) as [[e|] [n1 u1]] eqn:Ef; [done|].
  destruct (Hx _ _ _ _ Hn Ef) as (Hok & -> & Hp).
  destruct (IH (nodes - count x) u1 nodes' unk') as (Hok' & -> & Hp'); [lia|done|].
  split; [done|]. lia.
Qed.

Lemma validate_message_accepts m : accepts validate_message node_ok node_count m.
Proof.
  apply (node_induction (accepts validate_message node_ok node_count)
           (accepts validate_field field_ok field_count)).
  - intros u fields Hf nodes unk nodes' unk' Hn Hv. cbn [validate_message] in Hv.
    destruct (nodes =? 0) eqn:Ez; [done|]. bool_simp.
    destruct (bounded_unknowns u unk 0) as [[|] u1]; [|done].
    rewrite u64_sub_exact in Hv by lia.
    assert (Hn1 : 0 <= nodes - 1 < two64) by lia.
    destruct (check_all_accepts _ _ _ _ Hf _ _ _ _ Hn1 Hv) as (Hok & -> & Hp).
    cbn [node_ok node_count]. split; [done|]. lia.
  - intros l Hl nodes unk nodes' unk' Hn Hv. cbn [validate_field] in Hv.
    destruct (max_entries <? len l) eqn:El; [done|]. bool_simp.
    destruct (check_all_accepts _ _ _ _ Hl _ _ _ _ Hn Hv) as (Hok & -> & Hp). cbn [field_ok field_count]. done.
  - intros l nodes unk nodes' unk' Hn Hv. cbn [validate_field] in Hv.
    destruct (max_entries <? len l) eqn:El; [done|]. bool_simp. simplify_eq.
    cbn [field_ok field_count]. rewrite <- validate_strings_None. split; [done|]. lia.
Qed.

(** The codes [validate_message] reports. *)
Lemma validate_strings_code l c : validate_strings l = Some c -> c <> fc_malformed /\ c <> fc_truncated.
Proof. induction l as [|s l IH]; simpl; [done|]. repeat case_match; intros; simplify_eq; auto. Qed.

Lemma check_all_code {A} (f : A -> Z -> Z -> option failure_code * (Z * Z)) l (P : failure_code -> Prop) :
  Forall (fun x => forall n u c nu, f x n u = (Some c, nu) -> P c) l ->
  forall n u c nu, check_all f l n u = (Some c, nu) -> P c.
Proof.
  induction 1 as [|x l Hx _ IH]; intros n u c nu Hc; simpl in Hc; [done|].
  destruct (f x n u) as [[e|] [n1 u1]] eqn:Ef; [injection Hc as <- _; eauto|eauto].
Qed.

Lemma validate_message_code m n u c nu :
  validate_message m n u = (Some c, nu) -> c <> fc_malformed /\ c <> fc_truncated.
Proof.
  revert n u c nu.
  apply (node_induction
    (fun m => forall n u c nu, validate_message m n u = (Some c, nu) -> c <> fc_malformed /\ c <> fc_truncated)
    (fun f => forall n u c nu, validate_field f n u = (Some c, nu) -> c <> fc_malformed /\ c <> fc_truncated)).
  - intros unk fields Hf n u c nu Hv. cbn [validate_message] in Hv. destruct (n =? 0); [by injection Hv as <- _|].
    destruct (bounded_unknowns unk u 0) as [[|] u1]; [|by injection Hv as <- _].
    exact (check_all_code validate_field fields (fun c => c <> fc_malformed /\ c <> fc_truncated) Hf _ _ _ _ Hv).
  - intros l Hl n u c nu Hv. cbn [validate_field] in Hv. destruct (_ <? _); [by injection Hv as <- _|].
    exact (check_all_code validate_message l (fun c => c <> fc_malformed /\ c <> fc_truncated) Hl _ _ _ _ Hv).
  - intros l n u c nu Hv. cbn [validate_field] in Hv. destruct (_ <? _); [by injection Hv as <- _|].
    injection Hv as Hv _. by eapply validate_strings_code.
Qed.

(** A clean tree within the limits is accepted. *)
Definition passes {A} (f : A -> Z -> Z -> option failure_code * (Z * Z)) (count : A -> Z) (x : A)
  : Prop :=
  forall nodes unk, 0 <= unk -> count x <= nodes < two64 -> f x nodes unk = (None, (nodes - count x, unk)).

Lemma check_all_passes {A} (f : A -> Z -> Z -> option failure_code * (Z * Z)) count l :
  Forall (fun x => 0 <= count x) l -> Forall (passes f count) l ->
  passes (check_all f) (sum_of count) l.
Proof.
  intros Hc. induction 1 as [|x l Hx Hl IH]; intros nodes unk Hu Hn; simpl in *.
  { by rewrite Z.sub_0_r. }
  apply Forall_cons in Hc as [Hc Hcs]. pose proof (sum_of_nonneg _ _ Hcs).
  rewrite Hx by lia. rewrite IH by (done || lia). do 2 f_equal. lia.
Qed.

Lemma field_count_nonneg f : 0 <= field_count f.
Proof.
  destruct f as [l|l]; simpl; [|lia]. apply sum_of_nonneg, Forall_true.
  intros m. pose proof (node_count_pos m). lia.
Qed.

Lemma validate_message_passes m :
  node_clean m -> node_ok m -> passes validate_message node_count m.
Proof.
  apply (node_induction (fun m => node_clean m -> node_ok m -> passes validate_message node_count m)
           (fun f => field_clean f -> field_ok f -> passes validate_field field_count f)).
  - intros u fields Hf [-> Hc] Hok nodes unk Hu Hn. cbn [node_ok validate_message node_count] in *.
    rewrite all_of_Forall in Hc, Hok.
    assert (0 <= sum_of field_count fields) by (apply sum_of_nonneg, Forall_true, field_count_nonneg).
    replace (nodes =? 0) with false by (symmetry; apply Z.eqb_neq; lia).
    assert (Hb : bounded_unknowns [] unk 0 = (true, unk)).
    { unfold bounded_unknowns, unknowns_level. change (len []) with 0. change (max_recursion_depth <? 0) with false.
      replace (unk <? 0) with false by (symmetry; apply Z.ltb_ge; lia). simpl. f_equal. lia. }
    rewrite Hb, u64_sub_exact by lia.
    rewrite (check_all_passes validate_field field_count); [do 2 f_equal; lia| | |lia|lia].
    + apply Forall_true, field_count_nonneg.
    + rewrite Forall_forall in *. auto.
  - intros l Hl Hc [Hlen Hok] nodes unk Hu Hn. cbn [field_clean field_ok validate_field field_count] in *.
    rewrite all_of_Forall in Hc, Hok. replace (max_entries <? len l) with false by (symmetry; apply Z.ltb_ge; lia).
    rewrite (check_all_passes validate_message node_count); [done| | |lia|lia].
    + apply Forall_true. intros m'. pose proof (node_count_pos m'). lia.
    + rewrite Forall_forall in *. auto.
  - intros l _ [Hlen Hok] nodes unk Hu Hn. cbn [validate_field field_count] in *.
    replace (max_entries <? len l) with false by (symmetry; apply Z.ltb_ge; lia).
    apply validate_strings_None in Hok. rewrite Hok, Z.sub_0_r. done.
Qed.
End validate.

(** ** Trees field by field *)
Lemma all_of_app {A} (P : A -> Prop) l k : all_of P (l ++ k) <-> all_of P l /\ all_of P k.
Proof. rewrite !all_of_Forall. apply Forall_app. Qed.

Lemma sum_of_app {A} (f : A -> Z) l k : sum_of f (l ++ k) = sum_of f l + sum_of f k.
Proof. rewrite !sum_of_zsum. apply zsum_app. Qed.

Lemma count_string s : sum_of field_count (r_string s) = 0.
Proof. unfold r_string. by case_bool_decide. Qed.
Lemma count_strings l : sum_of field_count (r_strings l) = 0.
Proof. unfold r_strings. by case_bool_decide. Qed.
Lemma count_message o : sum_of field_count (r_message o) = from_option node_count 0 o.
Proof. destruct o; simpl; lia. Qed.
Lemma count_messages l : sum_of field_count (r_messages l) = zsum node_count l.
Proof. destruct l; [done|]. simpl. rewrite sum_of_zsum. lia. Qed.

Lemma clean_string s : all_of field_clean (r_string s) <-> True.
Proof. unfold r_string. by case_bool_decide. Qed.
Lemma clean_strings l : all_of field_clean (r_strings l) <-> True.
Proof. unfold r_strings. by case_bool_decide. Qed.
Lemma clean_message o : all_of field_clean (r_message o) <-> from_option node_clean True o.
Proof. destruct o; simpl; tauto. Qed.
Lemma clean_messages l : all_of field_clean (r_messages l) <-> Forall node_clean l.
Proof. rewrite <- all_of_Forall. destruct l; simpl; tauto. Qed.

Create Rewrite HintDb tree.
#[export] Hint Rewrite @all_of_app @sum_of_app count_string count_strings count_message count_messages
  clean_string clean_strings clean_message clean_messages : tree.

Lemma zsum_fmap {A B} (f : B -> Z) (g : A -> B) l : zsum f (g <$> l) = zsum (fun x => f (g x)) l.
Proof. induction l as [|x l IH]; [done|]. rewrite fmap_cons. cbn [zsum]. by rewrite IH. Qed.

Lemma zsum_const {A} (f : A -> Z) c l : (forall x, f x = c) -> zsum f l = c * len l.
Proof. intros Hf. induction l as [|x l IH]; [unfold len; simpl; lia|]. cbn [zsum]. rewrite Hf, IH, len_cons. lia. Qed.

Lemma len_fmap {A B} (g : A -> B) l : len (g <$> l) = len l.
Proof. unfold len. by rewrite length_fmap. Qed.

(** Reduce a statement about a tree to its fields. *)
Ltac msg_simp :=
  cbn [Attribute_kind Attribute_name Attribute_read_only Attribute_unknown
      ClassDescription_attributes ClassDescription_constructor_parameters
      ClassDescription_methods ClassDescription_name ClassDescription_unknown
      ClassesPage_names ClassesPage_next ClassesPage_unknown CreateObject_arguments
      CreateObject_class_name CreateObject_unknown DescribeClass_name DescribeClass_unknown
      GetAttribute_id GetAttribute_name GetAttribute_unknown Id_id Id_unknown
      InvokeMethod_arguments InvokeMethod_id InvokeMethod_name InvokeMethod_unknown
      ListClasses_after ListClasses_limit ListClasses_unknown ListValues_after
      ListValues_limit ListValues_unknown Method_name Method_parameters Method_result_kind
      Method_unknown NamedValue_name NamedValue_unknown NamedValue_value
      ObjectSnapshot_class_name ObjectSnapshot_id ObjectSnapshot_state ObjectSnapshot_unknown
      Parameter_kind Parameter_name Parameter_unknown PutValue_unknown PutValue_value
      Released_unknown RemoteError_code RemoteError_message RemoteError_unknown Request_case
      Request_request_id Request_unknown Request_version Response_case Response_request_id
      Response_unknown Response_version ValueRecord_id ValueRecord_unknown ValueRecord_value
      Value_case Value_unknown ValuesPage_next ValuesPage_unknown ValuesPage_values] in *.
Ltac tree_simp :=
  repeat first
    [ progress msg_simp
    | progress cbn [node_ok node_clean node_count from_option] in *
    | progress autorewrite with tree in * ].

Section trees.
Context `{Utf8Laws}.

Lemma wire_string_empty : wire_string "".
Proof. split; [done|]. by apply utf8_ascii. Qed.

Lemma wire_string_name n b : valid_name n b = true -> wire_string n.
Proof.
  intros Hn. split; [|by eapply valid_name_utf8].
  apply valid_name_length in Hn. unfold max_name_bytes, max_string_bytes in *. lia.
Qed.

Lemma wire_string_value s : wire_string s <-> valid_value (Text s) = true.
Proof. unfold wire_string, valid_value. by rewrite andb_true_iff, Z.leb_le. Qed.

Lemma ok_string s : all_of field_ok (r_string s) <-> wire_string s.
Proof.
  unfold r_string. case_bool_decide as Hs; simpl.
  - subst. split; [|done]. intros _. apply wire_string_empty.
  - change (len [s]) with 1. unfold max_entries. naive_solver lia.
Qed.

Lemma ok_strings l : all_of field_ok (r_strings l) <-> len l <= max_entries /\ Forall wire_string l.
Proof.
  unfold r_strings. case_bool_decide as Hs; simpl.
  - subst. split; [|done]. intros _. split; [done|constructor].
  - rewrite <- all_of_Forall. tauto.
Qed.

Lemma ok_message o : all_of field_ok (r_message o) <-> from_option node_ok True o.
Proof. destruct o as [n|]; simpl; [|done]. change (len [n]) with 1. unfold max_entries. naive_solver lia. Qed.

Lemma ok_messages l : all_of field_ok (r_messages l) <-> len l <= max_entries /\ Forall node_ok l.
Proof.
  rewrite <- all_of_Forall. destruct l as [|n l]; [simpl; done|]. cbn [r_messages all_of field_ok]. tauto.
Qed.

Lemma fmap_Some_eq {A B} (f : A -> B) x : f <$> Some x = Some (f x).
Proof. done. Qed.
#[local] Hint Rewrite @fmap_Some_eq ok_string ok_strings ok_message ok_messages : tree.

(** *** Values *)
Lemma tree_Value_ok m v : read_value m = Some v -> node_ok (tree_Value m) -> valid_value v = true.
Proof.
  unfold read_value, tree_Value. cbn [node_ok].
  destruct (Value_case m) as [[s|n|bits]|]; intros Hr Hok; simplify_eq; [|done|].
  - apply wire_string_value. simpl in Hok. tauto.
  - destruct (real_isfinite bits) eqn:E; [|done]. simplify_eq. exact E.
Qed.

Lemma get_Value_Some m : get_Value (Some m) = m.
Proof. done. Qed.

Lemma get_Value_ok o v :
  read_value (get_Value o) = Some v -> from_option node_ok True (tree_Value <$> o) ->
  valid_value v = true.
Proof. destruct o as [m|]; simpl; [apply tree_Value_ok|done]. Qed.

Lemma write_value_ok v : valid_value v = true -> node_ok (tree_Value (write_value v)).
Proof.
  destruct v as [s|n|bits]; intros Hv; [|exact I..]. apply wire_string_value in Hv.
  cbn. change (len [s]) with 1. unfold max_entries. repeat split; [lia|apply Hv..].
Qed.

Lemma read_write_value v : valid_value v = true -> read_value (write_value v) = Some v.
Proof. intros Hf. destruct v; [reflexivity..|]. unfold read_value, write_value, valid_value in *. cbn [Value_case]. by rewrite Hf. Qed.

Lemma read_write_value_inv v w : read_value (write_value v) = Some w -> w = v.
Proof.
  intros Hr. destruct v; unfold read_value, write_value in Hr; cbn [Value_case] in Hr; [congruence..|].
  destruct (real_isfinite bits); congruence.
Qed.

Lemma clean_write_value v : node_clean (tree_Value (write_value v)).
Proof. by destruct v. Qed.

Lemma count_write_value v : node_count (tree_Value (write_value v)) = 1.
Proof. by destruct v. Qed.

(** *** Lists read element by element *)
Lemma mapM_write {A B} (read : A -> option B) (write : B -> A) l :
  Forall (fun x => read (write x) = Some x) l -> mapM read (write <$> l) = Some l.
Proof. 
  induction 1 as [|x l Hx _ IH]; [done|]. rewrite fmap_cons. cbn [mapM]. rewrite Hx.
  cbn [mbind option_bind]. by rewrite IH.
Qed.

Lemma mapM_write_inv {A B} (read : A -> option B) (write : B -> A) l k :
  (forall x y, read (write x) = Some y -> y = x) -> mapM read (write <$> l) = Some k -> k = l.
Proof.
  intros Hinv. revert k. induction l as [|x l IH]; intros k Hk; [injection Hk as <-; done|].
  rewrite fmap_cons in Hk. cbn [mapM] in Hk.
  destruct (read (write x)) as [y|] eqn:Ey; cbn [mbind option_bind] in Hk; [|done].
  destruct (mapM read (write <$> l)) as [k'|] eqn:Ek; [|done]. injection Hk as <-.
  apply Hinv in Ey as ->. f_equal. by apply IH.
Qed.

Lemma mapM_Forall {A B} (read : A -> option B) (P : A -> Prop) (Q : B -> Prop) l k :
  (forall x y, read x = Some y -> P x -> Q y) -> mapM read l = Some k -> Forall P l ->
  Forall Q k /\ len k = len l.
Proof.
  intros Hpq Hm. apply mapM_Some_1 in Hm. unfold len.
  induction Hm as [|x y l k Hxy _ IH]; intros Hl; [done|]. apply Forall_cons in Hl as [Hx Hl].
  destruct (IH Hl) as [Hq Hlen]. split; [constructor; eauto|simpl; lia].
Qed.

(** A reader and a writer of one message type, with the reflection view: what is read
    from an accepted message is valid, valid data is written to an acceptable message
    and read back, and written messages are clean and have the given node count. *)
Record wire_pair {M T} (read : M -> option T) (write : T -> M) (tree : M -> node)
    (valid : T -> Prop) (count : T -> Z) : Prop := {
  pair_sound m x : read m = Some x -> node_ok (tree m) -> valid x;
  pair_ok x : valid x -> node_ok (tree (write x));
  pair_read x : valid x -> read (write x) = Some x;
  pair_inv x y : read (write x) = Some y -> y = x;
  pair_clean x : node_clean (tree (write x));
  pair_count x : node_count (tree (write x)) = count x;
}.

Section pair_lists.
Context {M T} (read : M -> option T) (write : T -> M) (tree : M -> node) (valid : T -> Prop)
  (count : T -> Z) (pair : wire_pair read write tree valid count).

Lemma pair_list_sound l k :
  mapM read l = Some k -> Forall node_ok (tree <$> l) -> Forall valid k /\ len k = len l.
Proof.
  intros Hm Hok. rewrite Forall_fmap in Hok. eapply mapM_Forall; [|done..].
  intros x y Hr Hx. by eapply pair_sound.
Qed.

Lemma pair_list_ok l : Forall valid l -> Forall node_ok (tree <$> (write <$> l)).
Proof.
  intros Hl. rewrite !Forall_fmap. eapply Forall_impl; [done|]. intros x Hx. by eapply pair_ok.
Qed.

Lemma pair_list_read l : Forall valid l -> mapM read (write <$> l) = Some l.
Proof. intros Hl. apply mapM_write. eapply Forall_impl; [done|]. intros x Hx. by eapply pair_read. Qed.

Lemma pair_list_inv l k : mapM read (write <$> l) = Some k -> k = l.
Proof. apply mapM_write_inv. intros x y. by eapply pair_inv. Qed.

Lemma pair_list_clean l : Forall node_clean (tree <$> (write <$> l)).
Proof. rewrite !Forall_fmap. apply Forall_true. intros x. by eapply pair_clean. Qed.

Lemma pair_list_count l : zsum node_count (tree <$> (write <$> l)) = zsum count l.
Proof.
  rewrite !zsum_fmap. induction l as [|x l IH]; [done|]. cbn [zsum].
  by rewrite IH, (pair_count _ _ _ _ _ pair).
Qed.
End pair_lists.

Lemma value_pair : wire_pair read_value write_value tree_Value (fun v => valid_value v = true) (fun _ => 1).
Proof.
  split; eauto using tree_Value_ok, write_value_ok, read_write_value, read_write_value_inv,
    clean_write_value, count_write_value.
Qed.

Definition entry_valid (e : named_value) : Prop :=
  wire_string (nv_name e) /\ valid_value (nv_data e) = true.

Lemma entry_pair : wire_pair read_entry write_entry tree_NamedValue entry_valid (fun _ => 2).
Proof.
  split.
  - intros m x Hr Hok. unfold read_entry in Hr.
    destruct (read_value _) as [v|] eqn:Ev; [|done]. injection Hr as <-.
    unfold tree_NamedValue in Hok. tree_simp. destruct Hok as [Hn Hv].
    split; [done|]. by eapply get_Value_ok.
  - intros x [Hn Hv]. unfold tree_NamedValue, write_entry. tree_simp. split; [done|].
    by apply write_value_ok.
  - intros x [Hn Hv]. unfold read_entry, write_entry. cbn [NamedValue_value].
    rewrite get_Value_Some, read_write_value by done. by destruct x.
  - intros x y Hr. unfold read_entry, write_entry in Hr. cbn [NamedValue_value] in Hr.
    rewrite get_Value_Some in Hr.
    destruct (read_value _) as [v|] eqn:Ev; [|done]. injection Hr as <-.
    apply read_write_value_inv in Ev as ->. by destruct x.
  - intros x. unfold tree_NamedValue, write_entry. tree_simp. split; [done|].
    split; [done|apply clean_write_value].
  - intros x. unfold tree_NamedValue, write_entry. tree_simp. by rewrite count_write_value.
Qed.

(** *** Named values *)
Lemma read_named_sound l k :
  read_named l = Some k -> len l <= max_entries -> Forall node_ok (tree_NamedValue <$> l) ->
  valid_named_values k = true.
Proof.
  unfold read_named. intros Hr Hlen Hok. destruct (mapM read_entry l) as [o|] eqn:Em; [|done].
  cbn [mbind option_bind] in Hr. destruct (valid_names nv_name o) eqn:Ev; [|done]. injection Hr as <-.
  destruct (pair_list_sound _ _ _ _ _ entry_pair _ _ Em Hok) as [Hv Hl].
  apply valid_names_spec in Ev as [Hn Hnd]. apply valid_named_values_spec. split_and!; [lia|done|done|].
  eapply Forall_impl; [done|]. intros x [_ Hx]. exact Hx.
Qed.

Lemma named_entry_valid l : valid_named_values l = true -> Forall entry_valid l.
Proof.
  intros (_ & Hn & _ & Hv)%valid_named_values_spec. rewrite Forall_forall in *. intros x Hx.
  split; [by eapply wire_string_name, Hn|by apply Hv].
Qed.

Lemma read_write_named l : valid_named_values l = true -> read_named (write_named l) = Some l.
Proof.
  intros Hl. unfold read_named, write_named.
  rewrite (pair_list_read _ _ _ _ _ entry_pair) by by apply named_entry_valid.
  cbn [mbind option_bind]. unfold valid_named_values in Hl. bool_simp.
  by match goal with H : valid_names _ _ = true |- _ => rewrite H end.
Qed.

Lemma read_write_named_inv l k : read_named (write_named l) = Some k -> k = l.
Proof.
  unfold read_named, write_named. destruct (mapM _ _) as [o|] eqn:Em; [|done]. cbn [mbind option_bind].
  destruct (negb _); [done|]. intros [= <-]. by apply (pair_list_inv _ _ _ _ _ entry_pair).
Qed.

Lemma len_write_named l : len (tree_NamedValue <$> write_named l) = len l.
Proof. unfold write_named. by rewrite !len_fmap. Qed.

(** *** Records *)
Definition record_valid (r : value_record) : Prop := vr_id r <> 0 /\ valid_value (vr_data r) = true.

Lemma record_pair : wire_pair read_record write_record tree_ValueRecord record_valid (fun _ => 2).
Proof.
  split.
  - intros m x Hr Hok. unfold read_record in Hr. destruct (read_value _) as [v|] eqn:Ev; [|done].
    cbn [mbind option_bind] in Hr. destruct (ValueRecord_id m =? 0) eqn:Ez; [done|]. injection Hr as <-.
    bool_simp. unfold tree_ValueRecord in Hok. tree_simp. split; [done|]. by eapply get_Value_ok.
  - intros x [Hn Hv]. unfold tree_ValueRecord, write_record. tree_simp. by apply write_value_ok.
  - intros x [Hn Hv]. unfold read_record, write_record. msg_simp.
    rewrite get_Value_Some, read_write_value by done. cbn [mbind option_bind].
    apply Z.eqb_neq in Hn. rewrite Hn. by destruct x.
  - intros x y Hr. unfold read_record, write_record in Hr. msg_simp. rewrite get_Value_Some in Hr.
    destruct (read_value _) as [v|] eqn:Ev; [|done]. cbn [mbind option_bind] in Hr.
    destruct (negb _); [|done]. injection Hr as <-. apply read_write_value_inv in Ev as ->. by destruct x.
  - intros x. unfold tree_ValueRecord, write_record. tree_simp. split; [done|apply clean_write_value].
  - intros x. unfold tree_ValueRecord, write_record. tree_simp. by rewrite count_write_value.
Qed.

(** *** Kinds and parameters *)
Lemma read_kind_Some w k : read_kind w = Some k <-> k = w /\ valid_kind k = true.
Proof.
  unfold read_kind. split.
  - destruct (_ || _) eqn:E; [done|]. intros [= <-]. bool_simp. split; [lia|done].
  - intros [-> Hk]. assert (Hm : w mod 256 = w).
    { apply valid_kind_spec in Hk as [-> |[-> | ->]]; reflexivity. }
    rewrite Hm, Hk, Z.eqb_refl. done.
Qed.

Definition parameter_valid (p : parameter) : Prop :=
  wire_string (param_name p) /\ valid_kind (param_kind p) = true.

Lemma parameter_pair :
  wire_pair read_parameter write_parameter tree_Parameter parameter_valid (fun _ => 1).
Proof.
  split.
  - intros m x Hr Hok. unfold read_parameter in Hr. destruct (read_kind _) as [k|] eqn:Ek; [|done].
    injection Hr as <-. apply read_kind_Some in Ek as [-> Hk]. unfold tree_Parameter in Hok. by tree_simp.
  - intros x [Hn _]. unfold tree_Parameter, write_parameter. by tree_simp.
  - intros x [Hn Hk]. unfold read_parameter, write_parameter. msg_simp.
    rewrite (proj2 (read_kind_Some _ (param_kind x))) by done. by destruct x.
  - intros x y Hr. unfold read_parameter, write_parameter in Hr. msg_simp.
    destruct (read_kind _) as [k|] eqn:Ek; [|done]. injection Hr as <-.
    apply read_kind_Some in Ek as [-> _]. by destruct x.
  - intros x. unfold tree_Parameter, write_parameter. by tree_simp.
  - intros x. unfold tree_Parameter, write_parameter. by tree_simp.
Qed.

Lemma read_parameters_sound l k :
  read_parameters l = Some k -> len l <= max_entries -> Forall node_ok (tree_Parameter <$> l) ->
  valid_parameters k = true.
Proof.
  unfold read_parameters. intros Hr Hlen Hok. destruct (mapM read_parameter l) as [o|] eqn:Em; [|done].
  cbn [mbind option_bind] in Hr. destruct (valid_names param_name o) eqn:Ev; [|done]. injection Hr as <-.
  destruct (pair_list_sound _ _ _ _ _ parameter_pair _ _ Em Hok) as [Hv Hl].
  apply valid_names_spec in Ev as [Hn Hnd]. apply valid_parameters_spec. split_and!; [lia|done|done|].
  eapply Forall_impl; [done|]. intros x [_ Hx]. exact Hx.
Qed.

Lemma parameters_valid l : valid_parameters l = true -> Forall parameter_valid l.
Proof.
  intros (_ & Hn & _ & Hv)%valid_parameters_spec. rewrite Forall_forall in *. intros x Hx.
  split; [by eapply wire_string_name, Hn|by apply Hv].
Qed.

Lemma read_write_parameters l :
  valid_parameters l = true -> read_parameters (write_parameters l) = Some l.
Proof.
  intros Hl. unfold read_parameters, write_parameters.
  rewrite (pair_list_read _ _ _ _ _ parameter_pair) by by apply parameters_valid.
  cbn [mbind option_bind]. unfold valid_parameters in Hl. bool_simp.
  by match goal with H : valid_names _ _ = true |- _ => rewrite H end.
Qed.

Lemma read_write_parameters_inv l k : read_parameters (write_parameters l) = Some k -> k = l.
Proof.
  unfold read_parameters, write_parameters. destruct (mapM _ _) as [o|] eqn:Em; [|done].
  cbn [mbind option_bind]. destruct (negb _); [done|]. intros [= <-].
  by apply (pair_list_inv _ _ _ _ _ parameter_pair).
Qed.

Lemma parameters_tree_ok l :
  valid_parameters l = true ->
  len (tree_Parameter <$> write_parameters l) <= max_entries
  /\ Forall node_ok (tree_Parameter <$> write_parameters l).
Proof.
  intros Hl. unfold write_parameters. rewrite !len_fmap. split; [by apply valid_parameters_spec in Hl as [? _]|].
  by apply (pair_list_ok _ _ _ _ _ parameter_pair), parameters_valid.
Qed.

(** *** Attributes, methods and descriptions *)
Definition attribute_valid (a : attribute) : Prop :=
  wire_string (attr_name a) /\ valid_kind (attr_kind a) = true.

Lemma attribute_pair :
  wire_pair read_attribute write_attribute tree_Attribute attribute_valid (fun _ => 1).
Proof.
  split.
  - intros m x Hr Hok. unfold read_attribute in Hr. destruct (read_kind _) as [k|] eqn:Ek; [|done].
    injection Hr as <-. apply read_kind_Some in Ek as [-> Hk]. unfold tree_Attribute in Hok. by tree_simp.
  - intros x [Hn _]. unfold tree_Attribute, write_attribute. by tree_simp.
  - intros x [Hn Hk]. unfold read_attribute, write_attribute. msg_simp.
    rewrite (proj2 (read_kind_Some _ (attr_kind x))) by done. by destruct x.
  - intros x y Hr. unfold read_attribute, write_attribute in Hr. msg_simp.
    destruct (read_kind _) as [k|] eqn:Ek; [|done]. injection Hr as <-.
    apply read_kind_Some in Ek as [-> _]. by destruct x.
  - intros x. unfold tree_Attribute, write_attribute. by tree_simp.
  - intros x. unfold tree_Attribute, write_attribute. by tree_simp.
Qed.

Definition method_valid (m : method) : Prop := wire_string (method_name m) /\ method_ok m.

Lemma method_pair :
  wire_pair read_method write_method tree_Method method_valid
    (fun m => 1 + len (method_parameters m)).
Proof.
  split.
  - intros m x Hr Hok. unfold read_method in Hr. destruct (read_kind _) as [k|] eqn:Ek; [|done].
    cbn [mbind option_bind] in Hr. destruct (read_parameters _) as [ps|] eqn:Ep; [|done].
    injection Hr as <-. apply read_kind_Some in Ek as [-> Hk]. unfold tree_Method in Hok. tree_simp.
    destruct Hok as (Hn & Hlen & Hps). rewrite len_fmap in Hlen. split; [done|]. split; [done|].
    by eapply read_parameters_sound.
  - intros x (Hn & _ & Hp). unfold tree_Method, write_method. tree_simp. split; [done|].
    by apply parameters_tree_ok.
  - intros x (Hn & Hk & Hp). unfold read_method, write_method. msg_simp.
    rewrite (proj2 (read_kind_Some _ (method_result_kind x))) by done. cbn [mbind option_bind].
    rewrite read_write_parameters by done. by destruct x.
  - intros x y Hr. unfold read_method, write_method in Hr. msg_simp.
    destruct (read_kind _) as [k|] eqn:Ek; [|done]. cbn [mbind option_bind] in Hr.
    destruct (read_parameters _) as [ps|] eqn:Ep; [|done]. injection Hr as <-.
    apply read_kind_Some in Ek as [-> _]. apply read_write_parameters_inv in Ep as ->. by destruct x.
  - intros x. unfold tree_Method, write_method. tree_simp. split_and!; [done..|].
    apply (pair_list_clean _ _ _ _ _ parameter_pair).
  - intros x. unfold tree_Method, write_method. tree_simp.
    unfold write_parameters. rewrite (pair_list_count _ _ _ _ _ parameter_pair).
    rewrite (zsum_const _ 1) by done. lia.
Qed.

(** A description that is valid up to the aggregate node bound. *)
Definition description_valid (d : class_description) : Prop :=
  (valid_name (desc_name d) false = true /\ len (desc_attributes d) <= max_entries
   /\ len (desc_methods d) <= max_entries /\ valid_names attr_name (desc_attributes d) = true
   /\ valid_names method_name (desc_methods d) = true
   /\ valid_parameters (desc_constructor_parameters d) = true)
  /\ Forall (fun a => valid_kind (attr_kind a) = true) (desc_attributes d)
  /\ Forall method_ok (desc_methods d).

Lemma valid_description_nodes d :
  valid_description d = true <-> description_valid d /\ description_nodes d < max_message_nodes.
Proof. rewrite valid_description_spec. unfold description_valid. tauto. Qed.

Lemma description_attributes_valid d : description_valid d -> Forall attribute_valid (desc_attributes d).
Proof.
  intros ((_ & _ & _ & Hn & _) & Hk & _). apply valid_names_spec in Hn as [Hn _].
  rewrite Forall_forall in *. intros x Hx. split; [by eapply wire_string_name, Hn|by apply Hk].
Qed.

Lemma description_methods_valid d : description_valid d -> Forall method_valid (desc_methods d).
Proof.
  intros ((_ & _ & _ & _ & Hn & _) & _ & Hm). apply valid_names_spec in Hn as [Hn _].
  rewrite Forall_forall in *. intros x Hx. split; [by eapply wire_string_name, Hn|by apply Hm].
Qed.

Lemma read_description_sound m d :
  read_description m = Some d -> node_ok (tree_ClassDescription m) -> description_valid d.
Proof.
  unfold read_description. intros Hr Hok. destruct (valid_name _ _) eqn:Hn; [|done]. cbn [negb] in Hr.
  destruct (read_parameters _) as [cs|] eqn:Ec; [|done]. cbn [mbind option_bind] in Hr.
  destruct (mapM read_attribute _) as [al|] eqn:Ea; [|done]. cbn [mbind option_bind] in Hr.
  destruct (mapM read_method _) as [ms|] eqn:Em; [|done]. cbn [mbind option_bind] in Hr.
  destruct (_ || _) eqn:Ev; [done|]. injection Hr as <-. bool_simp.
  unfold tree_ClassDescription in Hok. tree_simp.
  destruct Hok as (_ & (Hla & Ha) & (Hlm & Hm) & (Hlc & Hc)). rewrite len_fmap in Hla. rewrite len_fmap in Hlm. rewrite len_fmap in Hlc.
  destruct (pair_list_sound _ _ _ _ _ attribute_pair _ _ Ea Ha) as [Hva Hna].
  destruct (pair_list_sound _ _ _ _ _ method_pair _ _ Em Hm) as [Hvm Hnm].
  split_and!; cbn [desc_name desc_attributes desc_methods desc_constructor_parameters];
    [done|lia|lia|done|done|by eapply read_parameters_sound| |].
  - eapply Forall_impl; [exact Hva|]. by intros x [_ Hx].
  - eapply Forall_impl; [exact Hvm|]. by intros x [_ Hx].
Qed.

Lemma description_pair :
  wire_pair read_description write_description tree_ClassDescription description_valid description_nodes.
Proof.
  split.
  - apply read_description_sound.
  - intros x Hx. pose proof (description_attributes_valid x Hx) as Ha.
    pose proof (description_methods_valid x Hx) as Hm. destruct Hx as ((Hn & Hla & Hlm & _ & _ & Hc) & _).
    unfold tree_ClassDescription, write_description. tree_simp. rewrite !len_fmap.
    split; [by eapply wire_string_name|]. split; [|split].
    + split; [done|]. by apply (pair_list_ok _ _ _ _ _ attribute_pair).
    + split; [done|]. by apply (pair_list_ok _ _ _ _ _ method_pair).
    + destruct (parameters_tree_ok _ Hc) as [Hlc Hok]. by rewrite len_fmap in Hlc.
  - intros x Hx. pose proof (description_attributes_valid x Hx) as Ha.
    pose proof (description_methods_valid x Hx) as Hm.
    destruct Hx as ((Hn & _ & _ & Hna & Hnm & Hc) & _).
    unfold read_description, write_description. msg_simp. rewrite Hn. cbn [negb].
    rewrite read_write_parameters by done. cbn [mbind option_bind].
    rewrite (pair_list_read _ _ _ _ _ attribute_pair) by done. cbn [mbind option_bind].
    rewrite (pair_list_read _ _ _ _ _ method_pair) by done. cbn [mbind option_bind].
    rewrite Hna, Hnm. by destruct x.
  - intros x y Hr. unfold read_description, write_description in Hr. msg_simp.
    destruct (negb _); [done|].
    destruct (read_parameters _) as [cs|] eqn:Ec; [|done]. cbn [mbind option_bind] in Hr.
    destruct (mapM read_attribute _) as [al|] eqn:Ea; [|done]. cbn [mbind option_bind] in Hr.
    destruct (mapM read_method _) as [ms|] eqn:Em; [|done]. cbn [mbind option_bind] in Hr.
    destruct (_ || _); [done|]. injection Hr as <-.
    apply read_write_parameters_inv in Ec as ->.
    apply (pair_list_inv _ _ _ _ _ attribute_pair) in Ea as ->.
    apply (pair_list_inv _ _ _ _ _ method_pair) in Em as ->. by destruct x.
  - intros x. unfold tree_ClassDescription, write_description. tree_simp. split_and!; [done..| | |].
    + apply (pair_list_clean _ _ _ _ _ attribute_pair).
    + apply (pair_list_clean _ _ _ _ _ method_pair).
    + apply (pair_list_clean _ _ _ _ _ parameter_pair).
  - intros x. unfold tree_ClassDescription, write_description. tree_simp. unfold write_parameters.
    rewrite (pair_list_count _ _ _ _ _ attribute_pair), (pair_list_count _ _ _ _ _ method_pair),
      (pair_list_count _ _ _ _ _ parameter_pair), !(zsum_const (fun _ => 1) 1) by done.
    unfold description_nodes.
    assert (Hz : zsum (fun m => 1 + len (method_parameters m)) (desc_methods x)
                 = len (desc_methods x) + zsum (fun m => len (method_parameters m)) (desc_methods x)).
    { induction (desc_methods x) as [|m l IH]; [done|]. cbn [zsum]. rewrite len_cons, IH. lia. }
    lia.
Qed.

(** *** Pages *)
Lemma sorted_names_spec l :
  is_sorted l = true /\ has_adjacent l = false <-> StronglySorted str_lt l.
Proof.
  split.
  - intros [Hs Ha]. apply Sorted_StronglySorted; [exact str_lt_trans|].
    induction l as [|x [|y l] IH]; [constructor|by repeat constructor|].
    cbn [is_sorted has_adjacent] in Hs, Ha. bool_simp. constructor; [by apply IH|].
    constructor. split; [by apply str_not_lt|done].
  - induction 1 as [|x l Hl [IHs IHa] Hall]; [done|]. destruct l as [|y l]; [done|].
    cbn [is_sorted has_adjacent]. apply Forall_cons in Hall as [Hxy _].
    rewrite andb_true_iff, orb_false_iff, negb_true_iff, !bool_decide_eq_false. split_and!; [|done| |done].
    + intros Hyx. by destruct (str_lt_irrefl x (str_lt_trans _ _ _ Hxy Hyx)).
    + intros ->. by destruct (str_lt_irrefl y).
Qed.

Definition classes_valid (p : classes_page) : Prop :=
  len (cp_names p) <= max_entries /\ Forall (fun n => valid_name n false = true) (cp_names p)
  /\ StronglySorted str_lt (cp_names p) /\ (cp_next p = "" \/ last (cp_names p) = Some (cp_next p)).

Lemma read_classes_spec m p :
  read_classes m = Some p <->
  p = {| cp_names := ClassesPage_names m; cp_next := ClassesPage_next m |}
  /\ Forall (fun n => valid_name n false = true) (cp_names p)
  /\ StronglySorted str_lt (cp_names p) /\ (cp_next p = "" \/ last (cp_names p) = Some (cp_next p)).
Proof.
  unfold read_classes. rewrite <- sorted_names_spec.
  destruct (_ || _) eqn:E.
  - split; [done|]. intros (-> & Hv & (Hs & Ha) & Hn). cbn [cp_names cp_next] in *.
    apply forallb_spec in Hv. rewrite Hv, Hs, Ha in E. simpl in E. bool_simp. tauto.
  - bool_simp. rewrite <- forallb_spec. split.
    + intros [= <-]. cbn [cp_names cp_next]. split_and!; try done.
      match goal with H : _ && _ = false |- _ => apply andb_false_iff in H as [H|H] end; bool_simp; tauto.
    + by intros (-> & _).
Qed.

Lemma classes_pair :
  wire_pair read_classes write_classes (fun m => tree_outcome (kClasses m)) classes_valid (fun _ => 1).
Proof.
  split.
  - intros m x Hr Hok. apply read_classes_spec in Hr as (-> & Hv & Hs & Hn). cbn [tree_outcome] in Hok.
    tree_simp. destruct Hok as [[Hl _] _]. by split_and!.
  - intros x (Hl & Hv & Hs & Hn). unfold write_classes. cbn [tree_outcome]. tree_simp.
    assert (Hw : Forall wire_string (cp_names x)).
    { eapply Forall_impl; [done|]. intros n. apply wire_string_name. }
    split_and!; [done|done|]. destruct Hn as [->|Hn]; [apply wire_string_empty|].
    apply last_Some_elem_of in Hn. rewrite Forall_forall in Hw. by apply Hw.
  - intros x (Hl & Hv & Hs & Hn). apply read_classes_spec. unfold write_classes. msg_simp.
    split_and!; [by destruct x|done..].
  - intros x y Hr. apply read_classes_spec in Hr as (-> & _). unfold write_classes. msg_simp. by destruct x.
  - intros x. unfold write_classes. cbn [tree_outcome]. by tree_simp.
  - intros x. unfold write_classes. cbn [tree_outcome]. by tree_simp.
Qed.

(** Identifiers increase strictly from [previous]. *)
Fixpoint increasing (previous : Z) (l : list value_record) : Prop :=
  match l with [] => True | r :: rest => previous < vr_id r /\ increasing (vr_id r) rest end.

Lemma increasing_sorted previous l :
  increasing previous l <-> StronglySorted Z.lt (previous :: (vr_id <$> l)).
Proof.
  split.
  - intros Hi. apply Sorted_StronglySorted; [intros ???; lia|]. revert previous Hi.
    induction l as [|r l IH]; intros previous Hi; [by repeat constructor|]. destruct Hi as [Hr Hi].
    constructor; [by apply IH|by constructor].
  - revert previous. induction l as [|r l IH]; intros previous Hs; [done|].
    inversion Hs as [|? ? Hs' Hall]; subst. apply Forall_cons in Hall as [Hr _].
    split; [done|]. by apply IH.
Qed.

Lemma read_records_spec previous l k p :
  read_records previous l = Some (k, p) <->
  mapM read_record l = Some k /\ increasing previous k /\ p = from_option vr_id previous (last k).
Proof.
  revert previous k p. induction l as [|m l IH]; intros previous k p; cbn [read_records mapM].
  { split; [intros [= <- <-]; done|]. by intros ([= <-] & _ & ->). }
  destruct (read_record m) as [r|]; cbn [mbind option_bind]; [|split; [done|by intros []]].
  destruct (mapM read_record l) as [k'|] eqn:Em.
  - assert (Hrest : forall q, read_records (vr_id r) l = Some (k', q)
                      <-> increasing (vr_id r) k' /\ q = from_option vr_id (vr_id r) (last k')).
    { intros q. rewrite IH. tauto. }
    destruct (vr_id r <=? previous) eqn:El; bool_simp.
    { split; [done|]. intros ([= <-] & [? _] & _). lia. }
    assert (Hlast : from_option vr_id previous (last (r :: k')) = from_option vr_id (vr_id r) (last k')).
    { rewrite last_cons. by destruct (last k'). }
    destruct (read_records (vr_id r) l) as [[k'' q]|] eqn:Er.
    + assert (k'' = k') as -> by (apply IH in Er as [Hk _]; congruence).
      split.
      * intros [= <- <-]. rewrite Hlast. destruct (proj1 (Hrest q) eq_refl). done.
      * intros ([= <-] & [_ Hi] & ->). rewrite Hlast. destruct (proj1 (Hrest q) eq_refl) as [_ ->]. done.
    + split; [done|]. intros ([= <-] & [_ Hi] & _).
      specialize (Hrest (from_option vr_id (vr_id r) (last k'))). destruct Hrest as [_ Hr]. by discriminate Hr.
  - destruct (vr_id r <=? previous); [by split; [|intros [? _]]|].
    destruct (read_records (vr_id r) l) as [[k'' q]|] eqn:Er; [|by split; [|intros [? _]]].
    apply IH in Er as [Hk _]. congruence.
Qed.

Definition values_valid (p : values_page) : Prop :=
  len (vp_values p) <= max_entries /\ Forall record_valid (vp_values p)
  /\ StronglySorted Z.lt (0 :: (vr_id <$> vp_values p))
  /\ (vp_next p = 0 \/ vr_id <$> last (vp_values p) = Some (vp_next p)).

Lemma read_values_spec m p :
  read_values m = Some p <->
  mapM read_record (ValuesPage_values m) = Some (vp_values p) /\ vp_next p = ValuesPage_next m
  /\ StronglySorted Z.lt (0 :: (vr_id <$> vp_values p))
  /\ (vp_next p = 0 \/ vr_id <$> last (vp_values p) = Some (vp_next p)).
Proof.
  rewrite <- increasing_sorted. unfold read_values.
  destruct (read_records 0 _) as [[k q]|] eqn:Er.
  - apply read_records_spec in Er as (Hm & Hi & ->). rewrite Hm.
    assert (Hguard : negb (ValuesPage_next m =? 0)
                && (bool_decide (k = []) || negb (ValuesPage_next m =? from_option vr_id 0 (last k))) = false
             <-> ValuesPage_next m = 0 \/ vr_id <$> last k = Some (ValuesPage_next m)).
    { destruct (ValuesPage_next m =? 0) eqn:Ez; bool_simp; simpl; [tauto|].
      destruct k as [|r k] using rev_ind; simpl; [split; [done|naive_solver]|]. clear IHk.
      rewrite last_snoc. simpl. rewrite bool_decide_eq_false_2 by (by destruct k). simpl.
      rewrite negb_false_iff, Z.eqb_eq. split; [intros ->; by right|].
      intros [|Hs]; [lia|]. by injection Hs. }
    destruct (_ && _) eqn:Eg.
    + split; [done|]. intros (Hk & Hn & _ & Hl). injection Hk as ->. rewrite Hn in Hl.
      apply Hguard in Hl. done.
    + split; [intros [= <-]; simpl; split_and!; by try apply Hguard|].
      intros (Hk & Hn & _). injection Hk as ->. rewrite <- Hn. by destruct p.
  - split; [done|]. intros (Hm & _ & Hi & _).
    assert (Hs : read_records 0 (ValuesPage_values m)
      = Some (vp_values p, from_option vr_id 0 (last (vp_values p)))) by (by apply read_records_spec).
    congruence.
Qed.

Lemma values_pair :
  wire_pair read_values write_values (fun m => tree_outcome (kValues m)) values_valid
    (fun p => 1 + 2 * len (vp_values p)).
Proof.
  split.
  - intros m x Hr Hok. apply read_values_spec in Hr as (Hm & Hn & Hs & Hl). cbn [tree_outcome] in Hok.
    tree_simp. destruct Hok as [Hlen Hok]. rewrite len_fmap in Hlen.
    destruct (pair_list_sound _ _ _ _ _ record_pair _ _ Hm Hok) as [Hv Hlk]. split_and!; [lia|done..].
  - intros x (Hl & Hv & _). unfold write_values. cbn [tree_outcome]. tree_simp. rewrite !len_fmap.
    split; [done|]. by apply (pair_list_ok _ _ _ _ _ record_pair).
  - intros x (Hl & Hv & Hs & Hn). apply read_values_spec. unfold write_values. msg_simp.
    split_and!; [|done..]. by apply (pair_list_read _ _ _ _ _ record_pair).
  - intros x y Hr. apply read_values_spec in Hr as (Hm & Hn & _). unfold write_values in *. msg_simp.
    apply (pair_list_inv _ _ _ _ _ record_pair) in Hm. destruct x, y; simpl in *; congruence.
  - intros x. unfold write_values. cbn [tree_outcome]. tree_simp. split; [done|].
    apply (pair_list_clean _ _ _ _ _ record_pair).
  - intros x. unfold write_values. cbn [tree_outcome]. tree_simp.
    rewrite (pair_list_count _ _ _ _ _ record_pair), (zsum_const _ 2) by done. lia.
Qed.
End trees.
#[export] Hint Rewrite @fmap_Some_eq : tree.
#[export] Hint Rewrite @ok_string @ok_strings @ok_message @ok_messages using typeclasses eauto : tree.
