(* ===== verification/CodecSpec.v ===== *)
(** * Round trips and soundness of the codec

    The typing of messages and contracts, the documented behaviour of Protobuf that
    the codec relies on ([ProtobufLaws]), and the theorems about [encode_request],
    [encode_response], [decode_request] and [decode_response]. *)
From stdpp Require Import prelude gmap strings sorting.
From Stdlib Require Import ZArith Lia.
From S2P Require Import Prelude Utf8 Contracts Validation Framing Messages Codec CodecProofs.

(** ** Ranges of the generated fields *)
Definition in_u32 (z : Z) : Prop := 0 <= z < two32.
Definition in_i32 (z : Z) : Prop := -2147483648 <= z <= 2147483647.
Definition i32_max : Z := 2147483647.

Definition typed_Value (m : pb_Value) : Prop :=
  match Value_case m with
  | Some (kInteger n) => in_i64 n
  | Some (kReal bits) => in_u64 bits
  | _ => True
  end.
Definition typed_NamedValue (m : pb_NamedValue) : Prop := from_option typed_Value True (NamedValue_value m).
Definition typed_ValueRecord (m : pb_ValueRecord) : Prop :=
  in_u64 (ValueRecord_id m) /\ from_option typed_Value True (ValueRecord_value m).
Definition typed_Parameter (m : pb_Parameter) : Prop := in_i32 (Parameter_kind m).
Definition typed_Attribute (m : pb_Attribute) : Prop := in_i32 (Attribute_kind m).
Definition typed_Method (m : pb_Method) : Prop :=
  in_i32 (Method_result_kind m) /\ Forall typed_Parameter (Method_parameters m).
Definition typed_ClassDescription (m : pb_ClassDescription) : Prop :=
  Forall typed_Attribute (ClassDescription_attributes m)
  /\ Forall typed_Method (ClassDescription_methods m)
  /\ Forall typed_Parameter (ClassDescription_constructor_parameters m).
Definition typed_ObjectSnapshot (m : pb_ObjectSnapshot) : Prop :=
  in_u64 (ObjectSnapshot_id m) /\ Forall typed_NamedValue (ObjectSnapshot_state m).

Definition typed_operation (op : Request_operation) : Prop :=
  match op with
  | kListClasses m => in_u32 (ListClasses_limit m)
  | kDescribeClass _ => True
  | kPutValue m => from_option typed_Value True (PutValue_value m)
  | kGetValue m | kGetObject m | kReleaseObject m => in_u64 (Id_id m)
  | kListValues m => in_u64 (ListValues_after m) /\ in_u32 (ListValues_limit m)
  | kCreateObject m => Forall typed_NamedValue (CreateObject_arguments m)
  | kGetAttribute m => in_u64 (GetAttribute_id m)
  | kInvokeMethod m => in_u64 (InvokeMethod_id m) /\ Forall typed_NamedValue (InvokeMethod_arguments m)
  end.
Definition typed_Request (m : pb_Request) : Prop :=
  from_option in_u32 True (Request_version m) /\ in_u64 (Request_request_id m)
  /\ from_option typed_operation True (Request_case m).

Definition typed_outcome (o : Response_outcome) : Prop :=
  match o with
  | kClasses _ | kReleased _ => True
  | kDescription m => typed_ClassDescription m
  | kValueRecord m => typed_ValueRecord m
  | kValues m => in_u64 (ValuesPage_next m) /\ Forall typed_ValueRecord (ValuesPage_values m)
  | kObject m => typed_ObjectSnapshot m
  | kValue m => typed_Value m
  | kError m => in_i32 (RemoteError_code m)
  end.
Definition typed_Response (m : pb_Response) : Prop :=
  from_option in_u32 True (Response_version m) /\ in_u64 (Response_request_id m)
  /\ from_option typed_outcome True (Response_case m).

Definition default_Request : pb_Request :=
  {| Request_version := None; Request_request_id := 0; Request_case := None; Request_unknown := [] |}.
Definition default_Response : pb_Response :=
  {| Response_version := None; Response_request_id := 0; Response_case := None; Response_unknown := [] |}.

(** Messages of the schema nest at most four deep. *)
Definition schema_depth : Z := 4.

(** ** Protobuf, as documented

    A message within the signed 32-bit size is serialized to exactly its reported
    size; a message without unknown fields, whose fields are in range and whose
    strings are bounded valid text, parses back from its serialization; empty input
    is the default message; and parsed fields are in the range of their types. *)
Class ProtobufLaws `{Utf8Ops} `{Protobuf} : Prop := {
  Request_serialize m :
    size_Request m <= i32_max -> exists b, serialize_Request m = Some b /\ len b = size_Request m;
  Request_parse m b total recursion :
    typed_Request m -> node_clean (tree_Request m) -> node_ok (tree_Request m) ->
    serialize_Request m = Some b -> len b <= total <= i32_max -> schema_depth <= recursion ->
    parse_Request total recursion b = Some m;
  Request_empty total recursion : 0 <= total -> parse_Request total recursion [] = Some default_Request;
  Request_range total recursion b m : parse_Request total recursion b = Some m -> typed_Request m;
  Response_serialize m :
    size_Response m <= i32_max -> exists b, serialize_Response m = Some b /\ len b = size_Response m;
  Response_parse m b total recursion :
    typed_Response m -> node_clean (tree_Response m) -> node_ok (tree_Response m) ->
    serialize_Response m = Some b -> len b <= total <= i32_max -> schema_depth <= recursion ->
    parse_Response total recursion b = Some m;
  Response_empty total recursion : 0 <= total -> parse_Response total recursion [] = Some default_Response;
  Response_range total recursion b m : parse_Response total recursion b = Some m -> typed_Response m;
}.

(** ** Valid contracts *)
Section valid.
Context `{Utf8Ops}.

Definition operation_valid (op : operation) : Prop :=
  match op with
  | list_classes after limit => valid_name after true = true /\ valid_page_size limit = true
  | describe_class name => valid_name name false = true
  | put_value data => valid_value data = true
  | get_value id | get_object id | release_object id => id <> 0
  | list_values _ limit => valid_page_size limit = true
  | create_object name args => valid_name name false = true /\ valid_named_values args = true
  | get_attribute id name => id <> 0 /\ valid_name name false = true
  | invoke_method id name args =>
      id <> 0 /\ valid_name name false = true /\ valid_named_values args = true
  end.

Definition outcome_valid (o : outcome) : Prop :=
  match o with
  | o_classes page => classes_valid page
  | o_description d => valid_description d = true
  | o_record r => record_valid r
  | o_values page => values_valid page
  | o_object s =>
      snap_id s <> 0 /\ valid_name (snap_class_name s) false = true
      /\ valid_named_values (snap_state s) = true
  | o_released => True
  | o_value v => valid_value v = true
  | o_error e => invalid_request <= err_code e <= numeric_overflow /\ wire_string (err_message e)
  end.

Definition request_valid (r : request) : Prop :=
  req_id r <> 0 /\ req_version r = version /\ operation_valid (req_body r).
Definition response_valid (r : response) : Prop :=
  resp_id r <> 0 /\ resp_version r = version /\ outcome_valid (resp_body r).
End valid.

(** Contract data in the range of its C++ types. *)
Definition values_in_range (l : list named_value) : Prop := Forall (fun a => value_typed (nv_data a)) l.
Definition operation_in_range (op : operation) : Prop :=
  match op with
  | list_classes _ limit => in_u32 limit
  | describe_class _ => True
  | put_value data => value_typed data
  | get_value id | get_object id | release_object id | get_attribute id _ => in_u64 id
  | list_values after limit => in_u64 after /\ in_u32 limit
  | create_object _ args => values_in_range args
  | invoke_method id _ args => in_u64 id /\ values_in_range args
  end.
Definition request_in_range (r : request) : Prop :=
  in_u32 (req_version r) /\ in_u64 (req_id r) /\ operation_in_range (req_body r).

Definition in_u8 (z : Z) : Prop := 0 <= z < 256.
Definition record_in_range (r : value_record) : Prop := in_u64 (vr_id r) /\ value_typed (vr_data r).
Definition parameters_in_range (l : list parameter) : Prop := Forall (fun p => in_u8 (param_kind p)) l.
Definition description_in_range (d : class_description) : Prop :=
  Forall (fun a => in_u8 (attr_kind a)) (desc_attributes d)
  /\ Forall (fun m => in_u8 (method_result_kind m) /\ parameters_in_range (method_parameters m))
       (desc_methods d)
  /\ parameters_in_range (desc_constructor_parameters d).
Definition outcome_in_range (o : outcome) : Prop :=
  match o with
  | o_classes _ | o_released => True
  | o_description d => description_in_range d
  | o_record r => record_in_range r
  | o_values page => in_u64 (vp_next page) /\ Forall record_in_range (vp_values page)
  | o_object s => in_u64 (snap_id s) /\ values_in_range (snap_state s)
  | o_value v => value_typed v
  | o_error e => in_u8 (err_code e)
  end.
Definition response_in_range (r : response) : Prop :=
  in_u32 (resp_version r) /\ in_u64 (resp_id r) /\ outcome_in_range (resp_body r).

(** ** Ranges are kept by the writers and the readers *)
Lemma write_value_typed v : value_typed v -> typed_Value (write_value v).
Proof. by destruct v. Qed.

Lemma write_named_typed l : values_in_range l -> Forall typed_NamedValue (write_named l).
Proof.
  intros Hl. unfold write_named. rewrite Forall_fmap. eapply Forall_impl; [done|].
  intros x Hx. by apply write_value_typed.
Qed.

Lemma write_operation_typed op : operation_in_range op -> typed_operation (write_operation op).
Proof.
  destruct op; simpl; auto using write_value_typed, write_named_typed.
  intros [Hid Hargs]. split; [done|by apply write_named_typed].
Qed.

Lemma write_record_typed r : record_in_range r -> typed_ValueRecord (write_record r).
Proof. intros [Hid Hv]. split; [done|]. by apply write_value_typed. Qed.

Lemma u8_i32 z : in_u8 z -> in_i32 z.
Proof. unfold in_u8, in_i32. lia. Qed.

Lemma write_parameters_typed l : parameters_in_range l -> Forall typed_Parameter (write_parameters l).
Proof.
  intros Hl. unfold write_parameters. rewrite Forall_fmap. eapply Forall_impl; [done|].
  intros x Hx. by apply u8_i32.
Qed.

Lemma write_description_typed d : description_in_range d -> typed_ClassDescription (write_description d).
Proof.
  intros (Ha & Hm & Hc). unfold write_description. split_and!; msg_simp.
  - rewrite Forall_fmap. eapply Forall_impl; [done|]. intros x Hx. by apply u8_i32.
  - rewrite Forall_fmap. eapply Forall_impl; [done|]. intros x [Hk Hp].
    split; [by apply u8_i32|by apply write_parameters_typed].
  - by apply write_parameters_typed.
Qed.

Lemma write_outcome_typed o : outcome_in_range o -> typed_outcome (write_outcome o).
Proof.
  destruct o; simpl; auto using write_value_typed, write_record_typed, write_description_typed, u8_i32.
  - intros [Hn Hv]. split; [done|]. rewrite Forall_fmap. eapply Forall_impl; [done|].
    intros x Hx. by apply write_record_typed.
  - intros [Hid Hs]. split; [done|]. by apply write_named_typed.
Qed.

Section in_range.
Context `{Utf8Ops}.

Lemma read_value_typed o v :
  read_value (get_Value o) = Some v -> from_option typed_Value True o -> value_typed v.
Proof.
  destruct o as [m|]; [|done]. rewrite get_Value_Some. unfold read_value. cbn [from_option].
  unfold typed_Value. destruct (Value_case m) as [[s|n|bits]|]; intros Hr Ht; [by injection Hr as <-..| |done].
  destruct (real_isfinite bits); [|done]. by injection Hr as <-.
Qed.

Lemma read_named_typed l k :
  read_named l = Some k -> Forall typed_NamedValue l -> values_in_range k.
Proof.
  unfold read_named. destruct (mapM read_entry l) as [o|] eqn:Em; [|done]. cbn [mbind option_bind].
  destruct (negb _); [done|]. intros [= <-] Hl. unfold values_in_range.
  eapply (mapM_Forall read_entry typed_NamedValue); [|done..].
  intros x y Hr Hx. unfold read_entry in Hr. destruct (read_value _) as [v|] eqn:Ev; [|done].
  injection Hr as <-. by eapply read_value_typed.
Qed.

Lemma read_operation_typed m op :
  read_operation m = Some op -> typed_Request m -> operation_in_range op.
Proof.
  intros Hr (_ & _ & Ht). unfold read_operation in Hr.
  destruct (Request_case m) as [[x|x|x|x|x|x|x|x|x|x]|]; [..|done]; cbn [from_option typed_operation] in Ht.
  all: repeat match type of Hr with
       | (if ?b then _ else _) = _ => destruct b; [|done]
       | (read_value ?e ≫= _) = _ => destruct (read_value e) eqn:Ev; [|done]; cbn [mbind option_bind] in Hr
       | (read_named ?e ≫= _) = _ => destruct (read_named e) eqn:En; [|done]; cbn [mbind option_bind] in Hr
       end; injection Hr as <-; cbn [operation_in_range]; try done.
  - by eapply read_value_typed.
  - by eapply read_named_typed.
  - destruct Ht. split; [done|]. by eapply read_named_typed.
Qed.
Lemma read_kind_range w k : read_kind w = Some k -> in_u8 k.
Proof.
  unfold read_kind. destruct (_ || _); [done|]. intros [= <-]. unfold in_u8. by apply Z.mod_pos_bound.
Qed.

Lemma read_record_typed m r : read_record m = Some r -> typed_ValueRecord m -> record_in_range r.
Proof.
  unfold read_record. intros Hr [Hid Hv]. destruct (read_value _) as [v|] eqn:Ev; [|done].
  cbn [mbind option_bind] in Hr. destruct (negb _); [|done]. injection Hr as <-.
  split; [done|]. by eapply read_value_typed.
Qed.

Lemma read_records_typed l prev rs last :
  read_records prev l = Some (rs, last) -> Forall typed_ValueRecord l -> Forall record_in_range rs.
Proof.
  revert prev rs last. induction l as [|m l IH]; intros prev rs last; cbn [read_records].
  { intros [= <- _] _. constructor. }
  destruct (read_record m) as [r|] eqn:Er; [|done]. destruct (_ <=? _); [done|].
  destruct (read_records (vr_id r) l) as [[rs' last']|] eqn:El; [|done].
  intros [= <- _] [Hm Hl]%Forall_cons. constructor; [by eapply read_record_typed|by eapply IH].
Qed.

Lemma read_parameters_range l k : read_parameters l = Some k -> parameters_in_range k.
Proof.
  unfold read_parameters. destruct (mapM read_parameter l) as [o|] eqn:Em; [|done]. cbn [mbind option_bind].
  destruct (negb _); [done|]. intros [= <-].
  eapply (mapM_Forall read_parameter (fun _ => True)); [|done|by apply Forall_true].
  intros x y Hx _. unfold read_parameter in Hx. destruct (read_kind _) as [kd|] eqn:Ek; [|done].
  injection Hx as <-. by eapply read_kind_range.
Qed.

Lemma read_description_range m d : read_description m = Some d -> description_in_range d.
Proof.
  unfold read_description. intros Hr. destruct (negb _); [done|].
  destruct (read_parameters _) as [cs|] eqn:Ec; [|done]. cbn [mbind option_bind] in Hr.
  destruct (mapM read_attribute _) as [al|] eqn:Ea; [|done]. cbn [mbind option_bind] in Hr.
  destruct (mapM read_method _) as [ms|] eqn:Em; [|done]. cbn [mbind option_bind] in Hr.
  destruct (_ || _); [done|]. injection Hr as <-. unfold description_in_range. cbn. split_and!.
  - eapply (mapM_Forall read_attribute (fun _ => True)); [|done|by apply Forall_true].
    intros x y Hx _. unfold read_attribute in Hx. destruct (read_kind _) as [kd|] eqn:Ek; [|done].
    injection Hx as <-. by eapply read_kind_range.
  - eapply (mapM_Forall read_method (fun _ => True)); [|done|by apply Forall_true].
    intros x y Hx _. unfold read_method in Hx.
    destruct (read_kind (Method_result_kind x)) as [kd|] eqn:Ek; [|done].
    cbn [mbind option_bind] in Hx. destruct (read_parameters (Method_parameters x)) as [ps|] eqn:Ep; [|done]. injection Hx as <-.
    split; [by eapply read_kind_range|by eapply read_parameters_range].
  - by eapply read_parameters_range.
Qed.

Lemma read_outcome_typed m o :
  read_outcome m = Some o -> typed_Response m -> outcome_in_range o.
Proof.
  intros Hr (_ & _ & Ht). unfold read_outcome in Hr.
  destruct (Response_case m) as [[x|x|x|x|x|x|x|x]|]; [..|done]; cbn [from_option typed_outcome] in Ht.
  - by destruct (read_classes x); [injection Hr as <-|].
  - destruct (read_description x) eqn:E; [|done]. injection Hr as <-. by eapply read_description_range.
  - destruct (read_record x) eqn:E; [|done]. injection Hr as <-. by eapply read_record_typed.
  - unfold read_values in Hr. destruct (read_records 0 _) as [[rs last]|] eqn:E; [|done].
    destruct (_ && _); [done|]. injection Hr as <-. destruct Ht. split; [done|]. by eapply read_records_typed.
  - destruct (_ && _); [|done]. destruct (read_named _) eqn:E; [|done]. injection Hr as <-.
    destruct Ht. split; [done|]. by eapply read_named_typed.
  - by injection Hr as <-.
  - destruct (read_value x) as [v|] eqn:E; [|done]. injection Hr as <-.
    apply (read_value_typed (Some x) v); [by rewrite get_Value_Some|done].
  - destruct (_ && _) eqn:E; [|done]. injection Hr as <-. bool_simp. cbn.
    unfold in_u8, invalid_request, numeric_overflow in *. lia.
Qed.
End in_range.

(** ** Operations and outcomes as wire pairs *)
Section bodies.
Context `{Utf8Laws}.

Definition read_op (c : Request_operation) : option operation :=
  read_operation {| Request_version := None; Request_request_id := 0; Request_case := Some c;
                    Request_unknown := [] |}.
Definition read_out (c : Response_outcome) : option outcome :=
  read_outcome {| Response_version := None; Response_request_id := 0; Response_case := Some c;
                  Response_unknown := [] |}.

Lemma read_operation_case m : read_operation m = Request_case m ≫= read_op.
Proof. unfold read_operation. by destruct (Request_case m). Qed.
Lemma read_outcome_case m : read_outcome m = Response_case m ≫= read_out.
Proof. unfold read_outcome. by destruct (Response_case m). Qed.

Definition operation_count (op : operation) : Z :=
  match op with
  | put_value _ => 2
  | create_object _ args | invoke_method _ _ args => 1 + 2 * len args
  | _ => 1
  end.

(** Split the guards of a reader that succeeded. *)
Ltac read_inv Hr :=
  repeat match type of Hr with
  | (if ?b then _ else _) = _ => destruct b eqn:?; [|discriminate Hr]
  | (read_value ?e ≫= _) = _ => destruct (read_value e) eqn:?; [|discriminate Hr]; cbn [mbind option_bind] in Hr
  | (read_named ?e ≫= _) = _ => destruct (read_named e) eqn:?; [|discriminate Hr]; cbn [mbind option_bind] in Hr
  end; injection Hr as <-; bool_simp.

Lemma named_tree_ok l :
  valid_named_values l = true ->
  len (tree_NamedValue <$> write_named l) <= max_entries
  /\ Forall node_ok (tree_NamedValue <$> write_named l).
Proof.
  intros Hl. rewrite len_write_named. split; [by apply valid_named_values_spec in Hl as [? _]|].
  by apply (pair_list_ok _ _ _ _ _ entry_pair), named_entry_valid.
Qed.

Lemma named_count l : zsum node_count (tree_NamedValue <$> write_named l) = 2 * len l.
Proof. unfold write_named. rewrite (pair_list_count _ _ _ _ _ entry_pair). by apply zsum_const. Qed.

Lemma named_clean l : Forall node_clean (tree_NamedValue <$> write_named l).
Proof. apply (pair_list_clean _ _ _ _ _ entry_pair). Qed.

Lemma read_op_sound c op : read_op c = Some op -> node_ok (tree_operation c) -> operation_valid op.
Proof.
  unfold read_op, read_operation. cbn [Request_case]. intros Hr Hok.
  destruct c; read_inv Hr; cbn [operation_valid tree_operation] in *; tree_simp; try done.
  - by eapply get_Value_ok.
  - destruct Hok as [_ [Hlen Hok]]. rewrite len_fmap in Hlen. split; [done|]. by eapply read_named_sound.
  - destruct Hok as [_ [Hlen Hok]]. rewrite len_fmap in Hlen. split_and!; [done..|]. by eapply read_named_sound.
Qed.

Lemma write_op_ok op : operation_valid op -> node_ok (tree_operation (write_operation op)).
Proof.
  destruct op; cbn [operation_valid write_operation tree_operation]; intros Hv; unfold tree_Id; tree_simp;
    destruct_and?; split_and?; try done; eauto using wire_string_name, write_value_ok; by apply named_tree_ok.
Qed.

Lemma read_op_write op : operation_valid op -> read_op (write_operation op) = Some op.
Proof.
  unfold read_op, read_operation. cbn [Request_case].
  destruct op; cbn [operation_valid write_operation]; intros Hv; unfold write_id; msg_simp; destruct_and?;
    repeat match goal with
    | H : ?x <> 0 |- _ => apply Z.eqb_neq in H
    | H : ?b = _ |- context [?b] => rewrite H
    end; cbn [andb negb]; try done.
  - rewrite get_Value_Some, read_write_value by done. done.
  - rewrite read_write_named by done. done.
  - rewrite read_write_named by done. done.
Qed.

Lemma read_op_inv op op' : read_op (write_operation op) = Some op' -> op' = op.
Proof.
  unfold read_op, read_operation. cbn [Request_case]. intros Hr.
  destruct op; cbn [write_operation] in Hr; unfold write_id in Hr; msg_simp; read_inv Hr; try done.
  - rewrite get_Value_Some in *. f_equal. by apply read_write_value_inv.
  - f_equal. by apply read_write_named_inv.
  - f_equal. by apply read_write_named_inv.
Qed.

Lemma operation_pair :
  wire_pair read_op write_operation tree_operation operation_valid operation_count.
Proof.
  split; [apply read_op_sound|apply write_op_ok|apply read_op_write|apply read_op_inv| |].
  - intros op. destruct op; cbn [write_operation tree_operation]; unfold tree_Id; tree_simp; split_and?;
      try done; first [apply clean_write_value|apply named_clean].
  - intros op. destruct op; cbn [write_operation tree_operation operation_count]; unfold tree_Id; tree_simp;
      cbn [sum_of]; rewrite ?count_write_value, ?named_count; lia.
Qed.

Definition outcome_count (o : outcome) : Z :=
  match o with
  | o_description d => description_nodes d
  | o_record _ => 2
  | o_values page => 1 + 2 * len (vp_values page)
  | o_object s => 1 + 2 * len (snap_state s)
  | _ => 1
  end.

(** Validity of an outcome up to the aggregate node bound of a description. *)
Definition outcome_local (o : outcome) : Prop :=
  match o with
  | o_description d => description_valid d
  | _ => outcome_valid o
  end.

Lemma read_out_sound c o : read_out c = Some o -> node_ok (tree_outcome c) -> outcome_local o.
Proof.
  unfold read_out, read_outcome. cbn [Response_case]. intros Hr Hok. destruct c.
  - destruct (read_classes m) eqn:E; [|done]. injection Hr as <-. by eapply (pair_sound _ _ _ _ _ classes_pair).
  - destruct (read_description m) eqn:E; [|done]. injection Hr as <-.
    by eapply (pair_sound _ _ _ _ _ description_pair).
  - destruct (read_record m) eqn:E; [|done]. injection Hr as <-. by eapply (pair_sound _ _ _ _ _ record_pair).
  - destruct (read_values m) eqn:E; [|done]. injection Hr as <-. by eapply (pair_sound _ _ _ _ _ values_pair).
  - read_inv Hr. cbn [tree_outcome] in Hok. unfold tree_ObjectSnapshot in Hok. tree_simp.
    destruct Hok as [_ [Hlen Hok]]. rewrite len_fmap in Hlen. split_and!; [done..|]. by eapply read_named_sound.
  - by injection Hr as <-.
  - destruct (read_value m) eqn:E; [|done]. injection Hr as <-. by eapply tree_Value_ok.
  - read_inv Hr. cbn [tree_outcome] in Hok. tree_simp. done.
Qed.

Lemma write_out_ok o : outcome_local o -> node_ok (tree_outcome (write_outcome o)).
Proof.
  destruct o; cbn [outcome_local outcome_valid write_outcome]; intros Hv.
  - by apply (pair_ok _ _ _ _ _ classes_pair).
  - by apply (pair_ok _ _ _ _ _ description_pair).
  - by apply (pair_ok _ _ _ _ _ record_pair).
  - by apply (pair_ok _ _ _ _ _ values_pair).
  - destruct Hv as (_ & Hn & Hs). cbn [tree_outcome]. unfold tree_ObjectSnapshot. tree_simp.
    split; [by eapply wire_string_name|by apply named_tree_ok].
  - done.
  - by apply write_value_ok.
  - cbn [tree_outcome]. tree_simp. apply Hv.
Qed.

Lemma read_out_write o : outcome_local o -> read_out (write_outcome o) = Some o.
Proof.
  unfold read_out, read_outcome. cbn [Response_case].
  destruct o; cbn [outcome_local outcome_valid write_outcome]; intros Hv.
  - by rewrite (pair_read _ _ _ _ _ classes_pair page Hv).
  - by rewrite (pair_read _ _ _ _ _ description_pair).
  - by rewrite (pair_read _ _ _ _ _ record_pair).
  - by rewrite (pair_read _ _ _ _ _ values_pair page Hv).
  - destruct Hv as (Hz & Hn & Hs). msg_simp. apply Z.eqb_neq in Hz. rewrite Hz, Hn. cbn [negb andb].
    rewrite read_write_named by done. by destruct s.
  - done.
  - by rewrite read_write_value.
  - msg_simp. destruct Hv as [[H1 H2] _]. apply Z.leb_le in H1, H2. rewrite H1, H2. by destruct e.
Qed.

Lemma read_out_inv o o' : read_out (write_outcome o) = Some o' -> o' = o.
Proof.
  unfold read_out, read_outcome. cbn [Response_case]. intros Hr. destruct o; cbn [write_outcome] in Hr.
  - destruct (read_classes _) eqn:E; [|done]. injection Hr as <-. f_equal.
    by apply (pair_inv _ _ _ _ _ classes_pair).
  - destruct (read_description _) eqn:E; [|done]. injection Hr as <-. f_equal.
    by apply (pair_inv _ _ _ _ _ description_pair).
  - destruct (read_record _) eqn:E; [|done]. injection Hr as <-. f_equal.
    by apply (pair_inv _ _ _ _ _ record_pair).
  - destruct (read_values _) eqn:E; [|done]. injection Hr as <-. f_equal.
    by apply (pair_inv _ _ _ _ _ values_pair).
  - msg_simp. read_inv Hr. f_equal. destruct s; cbn in *. f_equal. by apply read_write_named_inv.
  - by injection Hr.
  - destruct (read_value _) eqn:E; [|done]. injection Hr as <-. f_equal. by apply read_write_value_inv.
  - msg_simp. read_inv Hr. by destruct e.
Qed.

Lemma outcome_pair :
  wire_pair read_out write_outcome tree_outcome outcome_local outcome_count.
Proof.
  split; [apply read_out_sound|apply write_out_ok|apply read_out_write|apply read_out_inv| |].
  - intros o. destruct o; cbn [write_outcome].
    + apply (pair_clean _ _ _ _ _ classes_pair).
    + apply (pair_clean _ _ _ _ _ description_pair).
    + apply (pair_clean _ _ _ _ _ record_pair).
    + apply (pair_clean _ _ _ _ _ values_pair).
    + cbn [tree_outcome]. unfold tree_ObjectSnapshot. tree_simp. split_and!; [done..|apply named_clean].
    + done.
    + apply clean_write_value.
    + cbn [tree_outcome]. by tree_simp.
  - intros o. destruct o; cbn [write_outcome outcome_count].
    + apply (pair_count _ _ _ _ _ classes_pair).
    + apply (pair_count _ _ _ _ _ description_pair).
    + apply (pair_count _ _ _ _ _ record_pair).
    + apply (pair_count _ _ _ _ _ values_pair).
    + cbn [tree_outcome]. unfold tree_ObjectSnapshot. tree_simp. rewrite named_count. lia.
    + done.
    + apply count_write_value.
    + cbn [tree_outcome]. tree_simp. lia.
Qed.
End bodies.

(** ** Envelopes *)
Section envelopes.
Context `{Utf8Laws} `{Protobuf}.

Lemma validate_envelope_None {E} `{Envelope E} (m : E) :
  validate_envelope m = None ->
  env_request_id m <> 0 /\ env_version m = Some version
  /\ node_ok (env_tree m) /\ node_count (env_tree m) <= max_message_nodes.
Proof.
  unfold validate_envelope. destruct (env_request_id m =? 0) eqn:Ez; [done|]. bool_simp.
  destruct (env_version m) as [v|]; [|done]. destruct (v =? version) eqn:Ev; [|done]. bool_simp. subst v.
  cbn [negb]. destruct (validate_message _ _ _) as [[e|] [n u]] eqn:Em; [done|]. intros _.
  apply validate_message_accepts in Em as (Hok & -> & Hn); [|done]. split_and!; [done..|lia].
Qed.

Lemma validate_envelope_clean {E} `{Envelope E} (m : E) :
  env_request_id m <> 0 -> env_version m = Some version -> node_clean (env_tree m) ->
  node_ok (env_tree m) -> node_count (env_tree m) <= max_message_nodes ->
  validate_envelope m = None.
Proof.
  intros Hid Hv Hc Hok Hn. unfold validate_envelope. apply Z.eqb_neq in Hid. rewrite Hid, Hv, Z.eqb_refl.
  cbn [negb]. rewrite validate_message_passes; [done|done|done|done|].
  split; [done|]. unfold max_message_nodes, two64. lia.
Qed.

Lemma request_tree r :
  node_count (tree_Request (request_message r)) = 1 + operation_count (req_body r)
  /\ node_clean (tree_Request (request_message r)).
Proof.
  unfold tree_Request, request_message. tree_simp. rewrite (pair_count _ _ _ _ _ operation_pair).
  split; [done|]. split; [done|]. apply (pair_clean _ _ _ _ _ operation_pair).
Qed.

Lemma request_tree_ok r :
  operation_valid (req_body r) -> node_ok (tree_Request (request_message r)).
Proof.
  intros Hv. unfold tree_Request, request_message. tree_simp. by apply (pair_ok _ _ _ _ _ operation_pair).
Qed.

Lemma response_tree r :
  node_count (tree_Response (response_message r)) = 1 + outcome_count (resp_body r)
  /\ node_clean (tree_Response (response_message r)).
Proof.
  unfold tree_Response, response_message. tree_simp. rewrite (pair_count _ _ _ _ _ outcome_pair).
  split; [done|]. split; [done|]. apply (pair_clean _ _ _ _ _ outcome_pair).
Qed.

Lemma response_tree_ok r :
  outcome_local (resp_body r) -> node_ok (tree_Response (response_message r)).
Proof.
  intros Hv. unfold tree_Response, response_message. tree_simp. by apply (pair_ok _ _ _ _ _ outcome_pair).
Qed.

(** The aggregate node bound: it binds only descriptions. *)
Lemma operation_count_bound op : operation_valid op -> operation_count op < max_message_nodes.
Proof.
  unfold max_message_nodes. destruct op; cbn [operation_valid operation_count]; intros Hv; try lia.
  - destruct Hv as [_ (Hl & _)%valid_named_values_spec]. unfold max_entries in Hl. lia.
  - destruct Hv as (_ & _ & (Hl & _)%valid_named_values_spec). unfold max_entries in Hl. lia.
Qed.

Lemma outcome_valid_count o :
  outcome_valid o <-> outcome_local o /\ outcome_count o < max_message_nodes.
Proof.
  destruct o; cbn [outcome_valid outcome_local outcome_count]; unfold max_message_nodes at 1;
    try (by split; [intros; split; [done|lia]|intros []]).
  - apply valid_description_nodes.
  - split; [|by intros []]. intros Hv. split; [done|]. destruct Hv as (Hl & _). unfold max_entries in Hl. lia.
  - split; [|by intros []]. intros Hv. split; [done|]. destruct Hv as (_ & _ & (Hl & _)%valid_named_values_spec).
    unfold max_entries in Hl. lia.
Qed.

(** Reading keeps the number of messages, so the bound on a parsed description is the
    bound of [valid_description]. *)
Lemma mapM_len {A B} (f : A -> option B) l k : mapM f l = Some k -> len k = len l.
Proof. intros Hm%mapM_Some_1. unfold len. by rewrite (Forall2_length _ _ _ Hm). Qed.

Lemma read_parameters_len l k : read_parameters l = Some k -> len k = len l.
Proof.
  unfold read_parameters. destruct (mapM _ _) as [o|] eqn:Em; [|done]. cbn [mbind option_bind].
  destruct (negb _); [done|]. intros [= <-]. by eapply mapM_len.
Qed.

Lemma parameters_count l : zsum node_count (tree_Parameter <$> l) = len l.
Proof. rewrite zsum_fmap, (zsum_const _ 1); [lia|]. intros x. unfold tree_Parameter. by tree_simp. Qed.

Lemma methods_count l k :
  mapM read_method l = Some k ->
  zsum node_count (tree_Method <$> l) = len k + zsum (fun m => len (method_parameters m)) k.
Proof.
  intros Hm%mapM_Some_1. induction Hm as [|m x l k Hx _ IH]; [done|].
  rewrite fmap_cons. cbn [zsum]. rewrite IH, len_cons. unfold read_method in Hx.
  destruct (read_kind _); [|done]. cbn [mbind option_bind] in Hx.
  destruct (read_parameters _) as [ps|] eqn:Ep; [|done]. injection Hx as <-.
  apply read_parameters_len in Ep. unfold tree_Method. tree_simp. rewrite parameters_count. simpl. lia.
Qed.

Lemma read_description_count m d :
  read_description m = Some d -> node_count (tree_ClassDescription m) = description_nodes d.
Proof.
  unfold read_description. intros Hr. destruct (negb _); [done|].
  destruct (read_parameters _) as [cs|] eqn:Ec; [|done]. cbn [mbind option_bind] in Hr.
  destruct (mapM read_attribute _) as [al|] eqn:Ea; [|done]. cbn [mbind option_bind] in Hr.
  destruct (mapM read_method _) as [ms|] eqn:Em; [|done]. cbn [mbind option_bind] in Hr.
  destruct (_ || _); [done|]. injection Hr as <-.
  unfold tree_ClassDescription, description_nodes. tree_simp.
  rewrite parameters_count, (methods_count _ _ Em).
  apply read_parameters_len in Ec. apply mapM_len in Ea.
  rewrite zsum_fmap, (zsum_const _ 1) by (intros x; unfold tree_Attribute; by tree_simp).
  cbn [desc_attributes desc_methods desc_constructor_parameters]. lia.
Qed.

Lemma read_out_valid c o :
  read_out c = Some o -> node_ok (tree_outcome c) -> node_count (tree_outcome c) < max_message_nodes ->
  outcome_valid o.
Proof.
  intros Hr Hok Hn. pose proof (read_out_sound c o Hr Hok) as Hl. destruct o; try exact Hl.
  apply valid_description_nodes. split; [exact Hl|].
  unfold read_out, read_outcome in Hr. cbn [Response_case] in Hr. destruct c; cbn [tree_outcome] in Hn.
  - by destruct (read_classes m).
  - destruct (read_description m) as [d'|] eqn:Ed; [|done]. injection Hr as ->.
    by rewrite (read_description_count _ _ Ed) in Hn.
  - by destruct (read_record m).
  - by destruct (read_values m).
  - destruct (_ && _); [|done]. by destruct (read_named _).
  - done.
  - by destruct (read_value m).
  - by destruct (_ && _).
Qed.

(** The checks before serialization accept exactly the valid requests. *)
Lemma request_checks r :
  validate_envelope (request_message r) = None /\ is_Some (read_operation (request_message r))
  <-> request_valid r.
Proof.
  rewrite read_operation_case. change (Request_case (request_message r) ≫= read_op)
    with (read_op (write_operation (req_body r))). split.
  - intros [(Hid & Hv & Hok & _)%validate_envelope_None [op Hop]].
    pose proof (pair_inv _ _ _ _ _ operation_pair _ _ Hop) as ->. cbn in Hid, Hv. injection Hv as Hv.
    split_and!; [done..|]. eapply (pair_sound _ _ _ _ _ operation_pair); [done|].
    unfold env_tree, Request_envelope, tree_Request, request_message in Hok. by tree_simp.
  - intros (Hid & Hv & Hop). pose proof (operation_count_bound _ Hop). split.
    + destruct (request_tree r) as [Hcount Hclean].
      apply validate_envelope_clean; [done|cbn; congruence|done|by apply request_tree_ok|].
      cbn [env_tree Request_envelope]. lia.
    + rewrite (pair_read _ _ _ _ _ operation_pair); eauto.
Qed.

Lemma response_checks r :
  validate_envelope (response_message r) = None /\ is_Some (read_outcome (response_message r))
  <-> response_valid r.
Proof.
  unfold response_valid. rewrite outcome_valid_count, read_outcome_case.
  change (Response_case (response_message r) ≫= read_out) with (read_out (write_outcome (resp_body r))). split.
  - intros [(Hid & Hv & Hok & Hn)%validate_envelope_None [o Ho]].
    pose proof (pair_inv _ _ _ _ _ outcome_pair _ _ Ho) as ->. cbn in Hid, Hv. injection Hv as Hv.
    cbn [env_tree Response_envelope] in *. destruct (response_tree r) as [Hcount _].
    split_and!; [done..| |lia]. eapply (pair_sound _ _ _ _ _ outcome_pair); [done|].
    unfold tree_Response, response_message in Hok. by tree_simp.
  - intros (Hid & Hv & Ho & Hn). split.
    + destruct (response_tree r) as [Hcount Hclean].
      apply validate_envelope_clean; [done|cbn; congruence|done|by apply response_tree_ok|].
      cbn [env_tree Response_envelope]. lia.
    + rewrite (pair_read _ _ _ _ _ outcome_pair); eauto.
Qed.
End envelopes.

(** ** Properties *)
Section properties.
Context `{Utf8Laws} `{Protobuf} `{!ProtobufLaws}.

(** What [parse] returns, and what [serialize] returns within the bound. *)
Lemma parse_accepts {E} `{Envelope E} payload (m : E) :
  parse payload = inl m ->
  payload <> [] /\ len payload <= max_payload_bytes
  /\ env_parse max_payload_bytes max_recursion_depth payload = Some m /\ validate_envelope m = None.
Proof.
  unfold parse. destruct (_ || _) eqn:E1; [done|]. bool_simp.
  destruct (env_parse _ _ _) as [m'|]; [|done]. destruct (validate_envelope m') eqn:Ev; [done|].
  intros [= <-]. by split_and!.
Qed.

Lemma request_roundtrip (r : request) (b : bytes) :
  request_in_range r -> encode_request r = inl b ->
  decode_request b = inl r /\ 0 < len b <= max_payload_bytes.
Proof.
  intros (Hrv & Hrid & Hrb) He. unfold encode_request in He.
  destruct (validate_envelope (request_message r)) as [f|] eqn:Ev; [done|].
  destruct (read_operation (request_message r)) as [op|] eqn:Eo; [|done].
  pose proof (proj1 (request_checks r) (conj Ev (mk_is_Some _ _ Eo))) as (Hid & Hver & Hop).
  unfold serialize in He. destruct (_ <? _) eqn:Es; [done|]. bool_simp.
  cbn [env_size env_serialize Request_envelope] in *.
  destruct (Request_serialize (request_message r)) as (b' & Hser & Hlen).
  { unfold max_payload_bytes, i32_max in *. lia. }
  rewrite Hser in He. injection He as ->.
  assert (Hparse : forall t d, len b <= t <= i32_max -> schema_depth <= d -> parse_Request t d b = Some (request_message r)).
  { intros t d Ht Hd. eapply Request_parse; [|by apply request_tree|by apply request_tree_ok|done..].
    split_and!; [done..|]. by apply write_operation_typed. }
  assert (Hne : b <> []).
  { intros ->. specialize (Hparse max_payload_bytes 4 ltac:(done) ltac:(done)). rewrite Request_empty in Hparse by done.
    injection Hparse as Hz. by destruct Hid. }
  split; [|split; [by apply len_pos|lia]].
  unfold decode_request, parse. rewrite bool_decide_eq_false_2 by done.
  replace (max_payload_bytes <? len b) with false by (symmetry; apply Z.ltb_ge; lia). cbn [orb].
  cbn [env_parse Request_envelope]. rewrite Hparse by (done || (unfold max_payload_bytes, i32_max in *; lia)).
  change (@validate_envelope _ _ Request_envelope) with (@validate_envelope _ pb_Request _). rewrite Ev, Eo.
  rewrite read_operation_case in Eo. cbn in Eo. apply (pair_inv _ _ _ _ _ operation_pair) in Eo as ->.
  by destruct r.
Qed.

Lemma response_roundtrip (r : response) (b : bytes) :
  response_in_range r -> encode_response r = inl b ->
  decode_response b = inl r /\ 0 < len b <= max_payload_bytes.
Proof.
  intros (Hrv & Hrid & Hrb) He. unfold encode_response in He.
  destruct (validate_envelope (response_message r)) as [f|] eqn:Ev; [done|].
  destruct (read_outcome (response_message r)) as [o|] eqn:Eo; [|done].
  pose proof (proj1 (response_checks r) (conj Ev (mk_is_Some _ _ Eo))) as (Hid & Hver & Ho).
  apply outcome_valid_count in Ho as [Ho _].
  unfold serialize in He. destruct (_ <? _) eqn:Es; [done|]. bool_simp.
  cbn [env_size env_serialize Response_envelope] in *.
  destruct (Response_serialize (response_message r)) as (b' & Hser & Hlen).
  { unfold max_payload_bytes, i32_max in *. lia. }
  rewrite Hser in He. injection He as ->.
  assert (Hparse : forall t d, len b <= t <= i32_max -> schema_depth <= d -> parse_Response t d b = Some (response_message r)).
  { intros t d Ht Hd. eapply Response_parse; [|by apply response_tree|by apply response_tree_ok|done..].
    split_and!; [done..|]. by apply write_outcome_typed. }
  assert (Hne : b <> []).
  { intros ->. specialize (Hparse max_payload_bytes 4 ltac:(done) ltac:(done)). rewrite Response_empty in Hparse by done.
    injection Hparse as Hz. by destruct Hid. }
  split; [|split; [by apply len_pos|lia]].
  unfold decode_response, parse. rewrite bool_decide_eq_false_2 by done.
  replace (max_payload_bytes <? len b) with false by (symmetry; apply Z.ltb_ge; lia). cbn [orb].
  cbn [env_parse Response_envelope]. rewrite Hparse by (done || (unfold max_payload_bytes, i32_max in *; lia)). rewrite Ev, Eo.
  rewrite read_outcome_case in Eo. cbn in Eo. apply (pair_inv _ _ _ _ _ outcome_pair) in Eo as ->.
  by destruct r.
Qed.

Lemma request_decoded (b : bytes) (r : request) :
  decode_request b = inl r ->
  request_valid r /\ operation_in_range (req_body r) /\ in_u64 (req_id r)
  /\ 0 < len b <= max_payload_bytes.
Proof.
  unfold decode_request. destruct (parse b) as [m|f] eqn:Ep; [|done].
  destruct (read_operation m) as [op|] eqn:Eo; [|done]. intros [= <-].
  apply parse_accepts in Ep as (Hne & Hlen & Hparse & Hval).
  apply Request_range in Hparse as Ht. pose proof (read_operation_typed m op Eo Ht) as Hr.
  apply validate_envelope_None in Hval as (Hid & Hver & Hok & _). destruct Ht as (_ & Hu & _).
  cbn [env_request_id env_version env_tree Request_envelope] in *. rewrite Hver.
  split; [split; [done|split; [done|]]|split; [exact Hr|split; [exact Hu|split; [by apply len_pos|done]]]].
  rewrite read_operation_case in Eo. destruct (Request_case m) as [c|] eqn:Ec; [|done].
  eapply (pair_sound _ _ _ _ _ operation_pair); [done|].
  unfold tree_Request in Hok. rewrite Ec in Hok. by tree_simp.
Qed.

Lemma response_decoded (b : bytes) (r : response) :
  decode_response b = inl r ->
  response_valid r /\ outcome_in_range (resp_body r) /\ in_u64 (resp_id r)
  /\ 0 < len b <= max_payload_bytes.
Proof.
  unfold decode_response. destruct (parse b) as [m|f] eqn:Ep; [|done].
  destruct (read_outcome m) as [o|] eqn:Eo; [|done]. intros [= <-].
  apply parse_accepts in Ep as (Hne & Hlen & Hparse & Hval).
  apply Response_range in Hparse as Ht. pose proof (read_outcome_typed m o Eo Ht) as Hr. destruct Ht as (_ & Hu & _).
  apply validate_envelope_None in Hval as (Hid & Hver & Hok & Hn).
  cbn [env_request_id env_version env_tree Response_envelope] in *. rewrite Hver.
  split; [split; [done|split; [done|]]|split; [exact Hr|split; [exact Hu|split; [by apply len_pos|done]]]].
  rewrite read_outcome_case in Eo. destruct (Response_case m) as [c|] eqn:Ec; [|done].
  unfold tree_Response in Hok, Hn. rewrite Ec in Hok, Hn. tree_simp.
  eapply read_out_valid; [exact Eo|exact Hok|lia].
Qed.

(** C8: Round trips.  Whatever Protobuf implementation satisfies its documented laws, every
    request that [encode_request] accepts, and every response, whatever its outcome, that
    [encode_response] accepts, is decoded from the produced payload to itself, and the
    payload is a nonempty frame body. *)
Theorem codec_roundtrip :
  (forall (r : request) b, request_in_range r -> encode_request r = inl b ->
     decode_request b = inl r /\ 0 < len b <= max_payload_bytes)
  /\ (forall (r : response) b, response_in_range r -> encode_response r = inl b ->
     decode_response b = inl r /\ 0 < len b <= max_payload_bytes).
Proof. split; [exact request_roundtrip|exact response_roundtrip]. Qed.

(** C17: Decoded messages are well typed.  Whatever bytes arrive, a request that
    [decode_request] returns has a nonzero identifier, the supported version, an operation
    whose names, pages, identifiers and values pass the shared validators, and integers in
    the range of their types; a response that [decode_response] returns passes them too,
    with sorted duplicate-free pages and consistent cursors, and its identifiers, kinds,
    cursors, error code and values are in the range of their types.  The domain and the
    client never see anything else. *)
Theorem decode_sound (b : bytes) :
  (forall r, decode_request b = inl r ->
     request_valid r /\ operation_in_range (req_body r) /\ in_u64 (req_id r) /\ 0 < len b <= max_payload_bytes)
  /\ (forall r, decode_response b = inl r ->
     response_valid r /\ outcome_in_range (resp_body r) /\ in_u64 (resp_id r) /\ 0 < len b <= max_payload_bytes).
Proof. split; [apply request_decoded|apply response_decoded]. Qed.

(** What an encoder returns, in terms of validity and of the reported size. *)
Definition request_encoded (r : request) (e : bytes + failure) : Prop :=
  match e with
  | inl b => request_valid r /\ len b = size_Request (request_message r) /\ len b <= max_payload_bytes
  | inr f =>
      ~ request_valid r
      \/ max_payload_bytes < size_Request (request_message r)
         /\ f = recoverable fc_limit_exceeded (req_id r)
  end.
Definition response_encoded (r : response) (e : bytes + failure) : Prop :=
  match e with
  | inl b => response_valid r /\ len b = size_Response (response_message r) /\ len b <= max_payload_bytes
  | inr f =>
      ~ response_valid r
      \/ max_payload_bytes < size_Response (response_message r)
         /\ f = recoverable fc_limit_exceeded (resp_id r)
  end.

Lemma encode_request_cases rq : request_encoded rq (encode_request rq).
Proof.
  pose proof (request_checks rq) as Hc. unfold encode_request, request_encoded.
  destruct (validate_envelope (request_message rq)) as [f|] eqn:Ev.
  { left. intros Hv. by apply Hc in Hv as [? _]. }
  destruct (read_operation (request_message rq)) as [op|] eqn:Eo; last first.
  { left. intros Hv. by apply Hc in Hv as [_ [? ?]]. }
  unfold serialize. cbn [env_size env_serialize Request_envelope].
  destruct (_ <? _) eqn:Es; bool_simp; [right; split; [lia|done]|].
  destruct (Request_serialize (request_message rq)) as (b & -> & Hlen).
  { unfold max_payload_bytes, i32_max in *. lia. }
  split; [apply Hc; eauto|]. split; [done|lia].
Qed.

Lemma encode_response_cases rs : response_encoded rs (encode_response rs).
Proof.
  pose proof (response_checks rs) as Hc. unfold encode_response, response_encoded.
  destruct (validate_envelope (response_message rs)) as [f|] eqn:Ev.
  { left. intros Hv. by apply Hc in Hv as [? _]. }
  destruct (read_outcome (response_message rs)) as [op|] eqn:Eo; last first.
  { left. intros Hv. by apply Hc in Hv as [_ [? ?]]. }
  unfold serialize. cbn [env_size env_serialize Response_envelope].
  destruct (_ <? _) eqn:Es; bool_simp; [right; split; [lia|done]|].
  destruct (Response_serialize (response_message rs)) as (b & -> & Hlen).
  { unfold max_payload_bytes, i32_max in *. lia. }
  split; [apply Hc; eauto|]. split; [done|lia].
Qed.

(** C36: Encoding is exact.  [encode_request] and [encode_response] produce a payload
    for every valid message whose encoding fits the payload bound, of exactly the
    size Protobuf reports, and for no other message; a valid message that does not fit
    is refused with a recoverable [limit_exceeded] under its own identifier.  In
    particular the aggregate node limit of the codec never rejects metadata that
    [valid_description] accepts. *)
Theorem encode_exact (rq : request) (rs : response) :
  request_encoded rq (encode_request rq) /\ response_encoded rs (encode_response rs).
Proof. split; [apply encode_request_cases|apply encode_response_cases]. Qed.
End properties.

(** ** The identifier a failure may name

    The identifier of a payload is trusted when the payload is within its bounds, parses
    completely and has a nonzero identifier; otherwise there is a reason why not. *)
Definition trusted_id {E} `{Envelope E} (payload : bytes) : failure_code + Z :=
  if bool_decide (payload = []) || (max_payload_bytes <? len payload) then inl fc_limit_exceeded
  else
    match env_parse max_payload_bytes max_recursion_depth payload with
    | None => inl fc_malformed
    | Some m => if env_request_id m =? 0 then inl fc_invalid_fields else inr (env_request_id m)
    end.

(** Without a trusted identifier a failure ends the session, names no request and gives
    the reason; with one it keeps the session open, names that very request, and is
    neither malformed nor truncated input. *)
Definition failure_classified (trusted : failure_code + Z) (f : failure) : Prop :=
  match trusted with
  | inl code => f = {| f_code := code; f_close_session := true; f_request_id := None |}
  | inr id =>
      f_close_session f = false /\ f_request_id f = Some id
      /\ f_code f <> fc_malformed /\ f_code f <> fc_truncated
  end.

Lemma parse_classified `{Utf8Ops} {E} `{Envelope E} (b : bytes) :
  match parse b with
  | inl m => trusted_id (E := E) b = inr (env_request_id (E := E) m)
  | inr f => failure_classified (trusted_id (E := E) b) f
  end.
Proof.
  unfold parse, trusted_id. destruct (_ || _); [done|].
  destruct (env_parse _ _ _) as [m|]; [|done]. destruct (validate_envelope m) as [g|] eqn:Ev.
  - unfold validate_envelope in Ev. destruct (env_request_id m =? 0); [by injection Ev as <-|].
    destruct (env_version m) as [v|]; [|by injection Ev as <-].
    destruct (negb (v =? version)); [by injection Ev as <-|].
    destruct (validate_message _ _ _) as [[e|] nu] eqn:Em; [|done]. injection Ev as <-.
    split; [done|]. split; [done|]. by eapply validate_message_code.
  - apply validate_envelope_None in Ev as (Hid & _). apply Z.eqb_neq in Hid. by rewrite Hid.
Qed.

(** C37: Decoding failures.  Whatever the bytes and whatever Protobuf does, a failed
    [decode_request] or [decode_response] closes the session exactly when the payload has
    no trusted identifier, that is when it is empty, too long, not parseable or has
    identifier zero: the failure then carries no identifier and the code of that reason.
    Otherwise the session stays open and the failure carries the identifier of the
    parsed envelope, with a code that is neither malformed nor truncated. *)
Theorem decode_failure_classified `{Utf8Ops} `{Protobuf} (b : bytes) (f : failure) :
  (decode_request b = inr f -> failure_classified (trusted_id (E := pb_Request) b) f)
  /\ (decode_response b = inr f -> failure_classified (trusted_id (E := pb_Response) b) f).
Proof.
  split; intros Hd.
  - unfold decode_request in Hd. pose proof (parse_classified (E := pb_Request) b) as Hp.
    destruct (parse b) as [m|g]; [|by injection Hd as <-].
    destruct (read_operation m); [done|]. injection Hd as <-. by rewrite Hp.
  - unfold decode_response in Hd. pose proof (parse_classified (E := pb_Response) b) as Hp.
    destruct (parse b) as [m|g]; [|by injection Hd as <-].
    destruct (read_outcome m); [done|]. injection Hd as <-. by rewrite Hp.
Qed.
