(* ===== verification/Wire.v ===== *)
(** * A reference implementation of the Protobuf wire format

    An instance of the [Protobuf] class, written from the published encoding: base-128
    varints, tags, length-delimited fields, groups, zig-zag and fixed-width scalars,
    field presence, oneof and merge semantics, and unknown fields.  It shows that the
    laws the codec relies on can hold, and it evaluates the codec on concrete payloads,
    such as the reviewed seeds of tests/fuzz/corpus. *)
From stdpp Require Import prelude gmap strings.
From Stdlib Require Import ZArith Lia Strings.Byte.
From S2P Require Import Prelude Utf8 Contracts Validation Framing Messages Codec CodecProofs CodecSpec.

Abbreviation to_str := Stdlib.Strings.String.string_of_list_byte.
Abbreviation of_str := Stdlib.Strings.String.list_byte_of_string.

(** ** Scalars *)
Fixpoint enc_varint (fuel : nat) (n : Z) : bytes :=
  match fuel with
  | O => []
  | S fuel' => if n <? 128 then [byte_of_Z n] else byte_of_Z (n mod 128 + 128) :: enc_varint fuel' (n / 128)
  end.

Fixpoint dec_varint (fuel : nat) (b : bytes) : option (Z * bytes) :=
  match fuel, b with
  | S fuel', x :: rest =>
      if byte_Z x <? 128 then Some (byte_Z x, rest)
      else
        match dec_varint fuel' rest with
        | Some (v, rest') => Some (byte_Z x - 128 + 128 * v, rest')
        | None => None
        end
  | _, _ => None
  end.

(** Ten bytes hold 64 bits; the decoder drops the bits above. *)
Definition put_varint (n : Z) : bytes := enc_varint 10 n.
Definition get_varint (b : bytes) : option (Z * bytes) :=
  match dec_varint 10 b with Some (v, rest) => Some (v mod two64, rest) | None => None end.

Fixpoint le_bytes (n : nat) (v : Z) : bytes :=
  match n with O => [] | S n' => byte_of_Z v :: le_bytes n' (v / 256) end.
Fixpoint le_value (b : bytes) : Z :=
  match b with [] => 0 | x :: rest => byte_Z x + 256 * le_value rest end.

Definition zigzag (n : Z) : Z := if 0 <=? n then 2 * n else -2 * n - 1.
Definition unzigzag (v : Z) : Z := if v mod 2 =? 0 then v / 2 else - (v / 2) - 1.
Definition to_i32 (v : Z) : Z := let w := v mod two32 in if w <? 2147483648 then w else w - two32.

(** ** Fields *)
Inductive wire :=
  | W_varint (v : Z)
  | W_i64 (v : Z)
  | W_len (b : bytes)
  | W_group (l : list (Z * wire))
  | W_i32 (v : Z).
Definition raw : Type := Z * wire.

Definition put_tag (number type : Z) : bytes := put_varint (number * 8 + type).

Fixpoint put_wire (number : Z) (w : wire) : bytes :=
  match w with
  | W_varint v => put_tag number 0 ++ put_varint v
  | W_i64 v => put_tag number 1 ++ le_bytes 8 v
  | W_len b => put_tag number 2 ++ put_varint (len b) ++ b
  | W_group l =>
      put_tag number 3
      ++ (fix go l := match l with [] => [] | (n, w') :: rest => put_wire n w' ++ go rest end) l
      ++ put_tag number 4
  | W_i32 v => put_tag number 5 ++ le_bytes 4 v
  end.
Definition put_field (f : raw) : bytes := put_wire f.1 f.2.
Fixpoint put_fields (l : list raw) : bytes :=
  match l with [] => [] | f :: rest => put_field f ++ put_fields rest end.

(** The fields of one message or group, until the end of the input or the end tag of
    the group; every field takes at least one byte, so the length is enough fuel. *)
Fixpoint get_fields (fuel : nat) (group : option Z) (depth : nat) (b : bytes)
  : option (list raw * bytes) :=
  match fuel with
  | O => None
  | S fuel' =>
      match b with
      | [] => match group with None => Some ([], []) | Some _ => None end
      | _ =>
          '(tag, r) ← get_varint b;
          let number := tag / 8 in
          let more (w : wire) (r1 : bytes) :=
            '(l, r2) ← get_fields fuel' group depth r1; Some ((number, w) :: l, r2) in
          if (number =? 0) || (536870912 <=? number) then None
          else if tag mod 8 =? 0 then '(v, r1) ← get_varint r; more (W_varint v) r1
          else if tag mod 8 =? 1 then
            if len r <? 8 then None else more (W_i64 (le_value (take 8 r))) (drop 8 r)
          else if tag mod 8 =? 2 then
            '(n, r1) ← get_varint r;
            if len r1 <? n then None
            else more (W_len (take (Z.to_nat n) r1)) (drop (Z.to_nat n) r1)
          else if tag mod 8 =? 3 then
            match depth with
            | O => None
            | S depth' => '(l, r1) ← get_fields fuel' (Some number) depth' r; more (W_group l) r1
            end
          else if tag mod 8 =? 4 then
            if bool_decide (group = Some number) then Some ([], r) else None
          else if tag mod 8 =? 5 then
            if len r <? 4 then None else more (W_i32 (le_value (take 4 r))) (drop 4 r)
          else None
      end
  end.

(** ** Messages from fields *)
Fixpoint merge_all {M} (merge : M -> raw -> option M) (m : M) (l : list raw) : option M :=
  match l with
  | [] => Some m
  | f :: rest => m' ← merge m f; merge_all merge m' rest
  end.

Definition parse_msg {M} (merge : nat -> M -> raw -> option M) (depth : nat) (init : M) (b : bytes)
  : option M :=
  '(l, _) ← get_fields (S (length b)) None depth b; merge_all (merge depth) init l.

(** A nested message takes one level of the recursion limit. *)
Definition parse_sub {M} (merge : nat -> M -> raw -> option M) (depth : nat) (init : M) (b : bytes)
  : option M :=
  match depth with O => None | S depth' => parse_msg merge depth' init b end.

Fixpoint unknown_of (number : Z) (w : wire) : unknown_field :=
  match w with
  | W_varint v => UF_varint number v
  | W_i64 v => UF_fixed64 number v
  | W_len b => UF_length_delimited number (to_str b)
  | W_group l => UF_group number ((fun f => unknown_of f.1 f.2) <$> l)
  | W_i32 v => UF_fixed32 number v
  end.
Definition unknown (f : raw) : unknown_field := unknown_of f.1 f.2.

Fixpoint raw_unknown (u : unknown_field) : raw :=
  match u with
  | UF_varint n v => (n, W_varint v)
  | UF_fixed32 n v => (n, W_i32 v)
  | UF_fixed64 n v => (n, W_i64 v)
  | UF_length_delimited n s => (n, W_len (of_str s))
  | UF_group n l => (n, W_group (raw_unknown <$> l))
  end.

(** Writing one field: implicit-presence scalars and strings are omitted when default. *)
Definition w_string (n : Z) (s : string) : list raw :=
  if bool_decide (s = "") then [] else [(n, W_len (of_str s))].
Definition w_uint (n v : Z) : list raw := if v =? 0 then [] else [(n, W_varint v)].
Definition w_enum (n v : Z) : list raw := if v =? 0 then [] else [(n, W_varint (v mod two64))].
Definition w_strings (n : Z) (l : list string) : list raw := (fun s => (n, W_len (of_str s))) <$> l.
Definition w_bool (n : Z) (v : bool) : list raw := if v then [(n, W_varint 1)] else [].
Definition w_message {M} (n : Z) (put : M -> bytes) (o : option M) : list raw :=
  match o with Some m => [(n, W_len (put m))] | None => [] end.
Definition w_messages {M} (n : Z) (put : M -> bytes) (l : list M) : list raw :=
  (fun m => (n, W_len (put m))) <$> l.

(** ** The messages of the schema *)
Section messages.
Context `{Utf8Ops}.

(** A string field must be valid text. *)
Definition get_string (b : bytes) : option string :=
  if is_structurally_valid (to_str b) then Some (to_str b) else None.

Definition put_Value (m : pb_Value) : bytes :=
  put_fields (match Value_case m with
              | Some (kText s) => [(1, W_len (of_str s))]
              | Some (kInteger n) => [(2, W_varint (zigzag n))]
              | Some (kReal bits) => [(3, W_i64 bits)]
              | None => []
              end ++ (raw_unknown <$> Value_unknown m)).
Definition merge_Value (depth : nat) (m : pb_Value) (f : raw) : option pb_Value :=
  match f with
  | (1, W_len b) =>
      s ← get_string b; Some {| Value_case := Some (kText s); Value_unknown := Value_unknown m |}
  | (2, W_varint v) =>
      Some {| Value_case := Some (kInteger (unzigzag v)); Value_unknown := Value_unknown m |}
  | (3, W_i64 v) => Some {| Value_case := Some (kReal v); Value_unknown := Value_unknown m |}
  | _ => Some {| Value_case := Value_case m; Value_unknown := Value_unknown m ++ [unknown f] |}
  end.

Definition put_NamedValue (m : pb_NamedValue) : bytes :=
  put_fields (w_string 1 (NamedValue_name m) ++ w_message 2 put_Value (NamedValue_value m)
              ++ (raw_unknown <$> NamedValue_unknown m)).
Definition new_NamedValue : pb_NamedValue :=
  {| NamedValue_name := ""; NamedValue_value := None; NamedValue_unknown := [] |}.
Definition merge_NamedValue (depth : nat) (m : pb_NamedValue) (f : raw) : option pb_NamedValue :=
  match f with
  | (1, W_len b) =>
      s ← get_string b;
      Some {| NamedValue_name := s; NamedValue_value := NamedValue_value m;
              NamedValue_unknown := NamedValue_unknown m |}
  | (2, W_len b) =>
      v ← parse_sub merge_Value depth (get_Value (NamedValue_value m)) b;
      Some {| NamedValue_name := NamedValue_name m; NamedValue_value := Some v;
              NamedValue_unknown := NamedValue_unknown m |}
  | _ => Some {| NamedValue_name := NamedValue_name m; NamedValue_value := NamedValue_value m;
                 NamedValue_unknown := NamedValue_unknown m ++ [unknown f] |}
  end.

Definition put_ValueRecord (m : pb_ValueRecord) : bytes :=
  put_fields (w_uint 1 (ValueRecord_id m) ++ w_message 2 put_Value (ValueRecord_value m)
              ++ (raw_unknown <$> ValueRecord_unknown m)).
Definition new_ValueRecord : pb_ValueRecord :=
  {| ValueRecord_id := 0; ValueRecord_value := None; ValueRecord_unknown := [] |}.
Definition merge_ValueRecord (depth : nat) (m : pb_ValueRecord) (f : raw) : option pb_ValueRecord :=
  match f with
  | (1, W_varint v) =>
      Some {| ValueRecord_id := v; ValueRecord_value := ValueRecord_value m;
              ValueRecord_unknown := ValueRecord_unknown m |}
  | (2, W_len b) =>
      v ← parse_sub merge_Value depth (get_Value (ValueRecord_value m)) b;
      Some {| ValueRecord_id := ValueRecord_id m; ValueRecord_value := Some v;
              ValueRecord_unknown := ValueRecord_unknown m |}
  | _ => Some {| ValueRecord_id := ValueRecord_id m; ValueRecord_value := ValueRecord_value m;
                 ValueRecord_unknown := ValueRecord_unknown m ++ [unknown f] |}
  end.

Definition put_Parameter (m : pb_Parameter) : bytes :=
  put_fields (w_string 1 (Parameter_name m) ++ w_enum 2 (Parameter_kind m)
              ++ (raw_unknown <$> Parameter_unknown m)).
Definition new_Parameter : pb_Parameter :=
  {| Parameter_name := ""; Parameter_kind := 0; Parameter_unknown := [] |}.
Definition merge_Parameter (depth : nat) (m : pb_Parameter) (f : raw) : option pb_Parameter :=
  match f with
  | (1, W_len b) =>
      s ← get_string b;
      Some {| Parameter_name := s; Parameter_kind := Parameter_kind m;
              Parameter_unknown := Parameter_unknown m |}
  | (2, W_varint v) =>
      Some {| Parameter_name := Parameter_name m; Parameter_kind := to_i32 v;
              Parameter_unknown := Parameter_unknown m |}
  | _ => Some {| Parameter_name := Parameter_name m; Parameter_kind := Parameter_kind m;
                 Parameter_unknown := Parameter_unknown m ++ [unknown f] |}
  end.

Definition put_Attribute (m : pb_Attribute) : bytes :=
  put_fields (w_string 1 (Attribute_name m) ++ w_enum 2 (Attribute_kind m)
              ++ w_bool 3 (Attribute_read_only m) ++ (raw_unknown <$> Attribute_unknown m)).
Definition new_Attribute : pb_Attribute :=
  {| Attribute_name := ""; Attribute_kind := 0; Attribute_read_only := false; Attribute_unknown := [] |}.
Definition merge_Attribute (depth : nat) (m : pb_Attribute) (f : raw) : option pb_Attribute :=
  match f with
  | (1, W_len b) =>
      s ← get_string b;
      Some {| Attribute_name := s; Attribute_kind := Attribute_kind m;
              Attribute_read_only := Attribute_read_only m; Attribute_unknown := Attribute_unknown m |}
  | (2, W_varint v) =>
      Some {| Attribute_name := Attribute_name m; Attribute_kind := to_i32 v;
              Attribute_read_only := Attribute_read_only m; Attribute_unknown := Attribute_unknown m |}
  | (3, W_varint v) =>
      Some {| Attribute_name := Attribute_name m; Attribute_kind := Attribute_kind m;
              Attribute_read_only := negb (v =? 0); Attribute_unknown := Attribute_unknown m |}
  | _ => Some {| Attribute_name := Attribute_name m; Attribute_kind := Attribute_kind m;
                 Attribute_read_only := Attribute_read_only m;
                 Attribute_unknown := Attribute_unknown m ++ [unknown f] |}
  end.

Definition put_Method (m : pb_Method) : bytes :=
  put_fields (w_string 1 (Method_name m) ++ w_messages 2 put_Parameter (Method_parameters m)
              ++ w_enum 3 (Method_result_kind m) ++ (raw_unknown <$> Method_unknown m)).
Definition new_Method : pb_Method :=
  {| Method_name := ""; Method_parameters := []; Method_result_kind := 0; Method_unknown := [] |}.
Definition merge_Method (depth : nat) (m : pb_Method) (f : raw) : option pb_Method :=
  match f with
  | (1, W_len b) =>
      s ← get_string b;
      Some {| Method_name := s; Method_parameters := Method_parameters m;
              Method_result_kind := Method_result_kind m; Method_unknown := Method_unknown m |}
  | (2, W_len b) =>
      x ← parse_sub merge_Parameter depth new_Parameter b;
      Some {| Method_name := Method_name m; Method_parameters := Method_parameters m ++ [x];
              Method_result_kind := Method_result_kind m; Method_unknown := Method_unknown m |}
  | (3, W_varint v) =>
      Some {| Method_name := Method_name m; Method_parameters := Method_parameters m;
              Method_result_kind := to_i32 v; Method_unknown := Method_unknown m |}
  | _ => Some {| Method_name := Method_name m; Method_parameters := Method_parameters m;
                 Method_result_kind := Method_result_kind m;
                 Method_unknown := Method_unknown m ++ [unknown f] |}
  end.

Definition put_ClassDescription (m : pb_ClassDescription) : bytes :=
  put_fields (w_string 1 (ClassDescription_name m)
              ++ w_messages 2 put_Attribute (ClassDescription_attributes m)
              ++ w_messages 3 put_Method (ClassDescription_methods m)
              ++ w_messages 4 put_Parameter (ClassDescription_constructor_parameters m)
              ++ (raw_unknown <$> ClassDescription_unknown m)).
Definition new_ClassDescription : pb_ClassDescription :=
  {| ClassDescription_name := ""; ClassDescription_attributes := []; ClassDescription_methods := [];
     ClassDescription_constructor_parameters := []; ClassDescription_unknown := [] |}.
Definition merge_ClassDescription (depth : nat) (m : pb_ClassDescription) (f : raw)
  : option pb_ClassDescription :=
  let set n a ms c u :=
    {| ClassDescription_name := n; ClassDescription_attributes := a; ClassDescription_methods := ms;
       ClassDescription_constructor_parameters := c; ClassDescription_unknown := u |} in
  let n := ClassDescription_name m in
  let a := ClassDescription_attributes m in
  let ms := ClassDescription_methods m in
  let c := ClassDescription_constructor_parameters m in
  let u := ClassDescription_unknown m in
  match f with
  | (1, W_len b) => s ← get_string b; Some (set s a ms c u)
  | (2, W_len b) => x ← parse_sub merge_Attribute depth new_Attribute b; Some (set n (a ++ [x]) ms c u)
  | (3, W_len b) => x ← parse_sub merge_Method depth new_Method b; Some (set n a (ms ++ [x]) c u)
  | (4, W_len b) => x ← parse_sub merge_Parameter depth new_Parameter b; Some (set n a ms (c ++ [x]) u)
  | _ => Some (set n a ms c (u ++ [unknown f]))
  end.

Definition put_ObjectSnapshot (m : pb_ObjectSnapshot) : bytes :=
  put_fields (w_uint 1 (ObjectSnapshot_id m) ++ w_string 2 (ObjectSnapshot_class_name m)
              ++ w_messages 3 put_NamedValue (ObjectSnapshot_state m)
              ++ (raw_unknown <$> ObjectSnapshot_unknown m)).
Definition new_ObjectSnapshot : pb_ObjectSnapshot :=
  {| ObjectSnapshot_id := 0; ObjectSnapshot_class_name := ""; ObjectSnapshot_state := [];
     ObjectSnapshot_unknown := [] |}.
Definition merge_ObjectSnapshot (depth : nat) (m : pb_ObjectSnapshot) (f : raw)
  : option pb_ObjectSnapshot :=
  let set i n s u := {| ObjectSnapshot_id := i; ObjectSnapshot_class_name := n;
                        ObjectSnapshot_state := s; ObjectSnapshot_unknown := u |} in
  let i := ObjectSnapshot_id m in
  let n := ObjectSnapshot_class_name m in
  let s := ObjectSnapshot_state m in
  let u := ObjectSnapshot_unknown m in
  match f with
  | (1, W_varint v) => Some (set v n s u)
  | (2, W_len b) => t ← get_string b; Some (set i t s u)
  | (3, W_len b) => x ← parse_sub merge_NamedValue depth new_NamedValue b; Some (set i n (s ++ [x]) u)
  | _ => Some (set i n s (u ++ [unknown f]))
  end.
Definition put_ListClasses (m : pb_ListClasses) : bytes :=
  put_fields (w_string 1 (ListClasses_after m)
              ++ w_uint 2 (ListClasses_limit m)
              ++ (raw_unknown <$> ListClasses_unknown m)).
Definition new_ListClasses : pb_ListClasses := {| ListClasses_after := ""; ListClasses_limit := 0; ListClasses_unknown := [] |}.
Definition merge_ListClasses (depth : nat) (m : pb_ListClasses) (f : raw) : option pb_ListClasses :=
  let set x0 x1 x2 := {| ListClasses_after := x0; ListClasses_limit := x1; ListClasses_unknown := x2 |} in
  let x0 := ListClasses_after m in
  let x1 := ListClasses_limit m in
  let x2 := ListClasses_unknown m in
  match f with
  | (1, W_len b) => s ← get_string b; Some (set s x1 x2)
  | (2, W_varint v) => Some (set x0 (v mod two32) x2)
  | _ => Some (set x0 x1 (x2 ++ [unknown f]))
  end.

Definition put_DescribeClass (m : pb_DescribeClass) : bytes :=
  put_fields (w_string 1 (DescribeClass_name m)
              ++ (raw_unknown <$> DescribeClass_unknown m)).
Definition new_DescribeClass : pb_DescribeClass := {| DescribeClass_name := ""; DescribeClass_unknown := [] |}.
Definition merge_DescribeClass (depth : nat) (m : pb_DescribeClass) (f : raw) : option pb_DescribeClass :=
  let set x0 x1 := {| DescribeClass_name := x0; DescribeClass_unknown := x1 |} in
  let x0 := DescribeClass_name m in
  let x1 := DescribeClass_unknown m in
  match f with
  | (1, W_len b) => s ← get_string b; Some (set s x1)
  | _ => Some (set x0 (x1 ++ [unknown f]))
  end.

Definition put_PutValue (m : pb_PutValue) : bytes :=
  put_fields (w_message 1 put_Value (PutValue_value m)
              ++ (raw_unknown <$> PutValue_unknown m)).
Definition new_PutValue : pb_PutValue := {| PutValue_value := None; PutValue_unknown := [] |}.
Definition merge_PutValue (depth : nat) (m : pb_PutValue) (f : raw) : option pb_PutValue :=
  let set x0 x1 := {| PutValue_value := x0; PutValue_unknown := x1 |} in
  let x0 := PutValue_value m in
  let x1 := PutValue_unknown m in
  match f with
  | (1, W_len b) => v ← parse_sub merge_Value depth (get_Value x0) b; Some (set (Some v) x1)
  | _ => Some (set x0 (x1 ++ [unknown f]))
  end.

Definition put_Id (m : pb_Id) : bytes :=
  put_fields (w_uint 1 (Id_id m)
              ++ (raw_unknown <$> Id_unknown m)).
Definition new_Id : pb_Id := {| Id_id := 0; Id_unknown := [] |}.
Definition merge_Id (depth : nat) (m : pb_Id) (f : raw) : option pb_Id :=
  let set x0 x1 := {| Id_id := x0; Id_unknown := x1 |} in
  let x0 := Id_id m in
  let x1 := Id_unknown m in
  match f with
  | (1, W_varint v) => Some (set v x1)
  | _ => Some (set x0 (x1 ++ [unknown f]))
  end.

Definition put_ListValues (m : pb_ListValues) : bytes :=
  put_fields (w_uint 1 (ListValues_after m)
              ++ w_uint 2 (ListValues_limit m)
              ++ (raw_unknown <$> ListValues_unknown m)).
Definition new_ListValues : pb_ListValues := {| ListValues_after := 0; ListValues_limit := 0; ListValues_unknown := [] |}.
Definition merge_ListValues (depth : nat) (m : pb_ListValues) (f : raw) : option pb_ListValues :=
  let set x0 x1 x2 := {| ListValues_after := x0; ListValues_limit := x1; ListValues_unknown := x2 |} in
  let x0 := ListValues_after m in
  let x1 := ListValues_limit m in
  let x2 := ListValues_unknown m in
  match f with
  | (1, W_varint v) => Some (set v x1 x2)
  | (2, W_varint v) => Some (set x0 (v mod two32) x2)
  | _ => Some (set x0 x1 (x2 ++ [unknown f]))
  end.

Definition put_CreateObject (m : pb_CreateObject) : bytes :=
  put_fields (w_string 1 (CreateObject_class_name m)
              ++ w_messages 2 put_NamedValue (CreateObject_arguments m)
              ++ (raw_unknown <$> CreateObject_unknown m)).
Definition new_CreateObject : pb_CreateObject := {| CreateObject_class_name := ""; CreateObject_arguments := []; CreateObject_unknown := [] |}.
Definition merge_CreateObject (depth : nat) (m : pb_CreateObject) (f : raw) : option pb_CreateObject :=
  let set x0 x1 x2 := {| CreateObject_class_name := x0; CreateObject_arguments := x1; CreateObject_unknown := x2 |} in
  let x0 := CreateObject_class_name m in
  let x1 := CreateObject_arguments m in
  let x2 := CreateObject_unknown m in
  match f with
  | (1, W_len b) => s ← get_string b; Some (set s x1 x2)
  | (2, W_len b) =>
      y ← parse_sub merge_NamedValue depth new_NamedValue b; Some (set x0 (x1 ++ [y]) x2)
  | _ => Some (set x0 x1 (x2 ++ [unknown f]))
  end.

Definition put_GetAttribute (m : pb_GetAttribute) : bytes :=
  put_fields (w_uint 1 (GetAttribute_id m)
              ++ w_string 2 (GetAttribute_name m)
              ++ (raw_unknown <$> GetAttribute_unknown m)).
Definition new_GetAttribute : pb_GetAttribute := {| GetAttribute_id := 0; GetAttribute_name := ""; GetAttribute_unknown := [] |}.
Definition merge_GetAttribute (depth : nat) (m : pb_GetAttribute) (f : raw) : option pb_GetAttribute :=
  let set x0 x1 x2 := {| GetAttribute_id := x0; GetAttribute_name := x1; GetAttribute_unknown := x2 |} in
  let x0 := GetAttribute_id m in
  let x1 := GetAttribute_name m in
  let x2 := GetAttribute_unknown m in
  match f with
  | (1, W_varint v) => Some (set v x1 x2)
  | (2, W_len b) => s ← get_string b; Some (set x0 s x2)
  | _ => Some (set x0 x1 (x2 ++ [unknown f]))
  end.

Definition put_InvokeMethod (m : pb_InvokeMethod) : bytes :=
  put_fields (w_uint 1 (InvokeMethod_id m)
              ++ w_string 2 (InvokeMethod_name m)
              ++ w_messages 3 put_NamedValue (InvokeMethod_arguments m)
              ++ (raw_unknown <$> InvokeMethod_unknown m)).
Definition new_InvokeMethod : pb_InvokeMethod := {| InvokeMethod_id := 0; InvokeMethod_name := ""; InvokeMethod_arguments := []; InvokeMethod_unknown := [] |}.
Definition merge_InvokeMethod (depth : nat) (m : pb_InvokeMethod) (f : raw) : option pb_InvokeMethod :=
  let set x0 x1 x2 x3 := {| InvokeMethod_id := x0; InvokeMethod_name := x1; InvokeMethod_arguments := x2; InvokeMethod_unknown := x3 |} in
  let x0 := InvokeMethod_id m in
  let x1 := InvokeMethod_name m in
  let x2 := InvokeMethod_arguments m in
  let x3 := InvokeMethod_unknown m in
  match f with
  | (1, W_varint v) => Some (set v x1 x2 x3)
  | (2, W_len b) => s ← get_string b; Some (set x0 s x2 x3)
  | (3, W_len b) =>
      y ← parse_sub merge_NamedValue depth new_NamedValue b; Some (set x0 x1 (x2 ++ [y]) x3)
  | _ => Some (set x0 x1 x2 (x3 ++ [unknown f]))
  end.

Definition put_ClassesPage (m : pb_ClassesPage) : bytes :=
  put_fields (w_strings 1 (ClassesPage_names m)
              ++ w_string 2 (ClassesPage_next m)
              ++ (raw_unknown <$> ClassesPage_unknown m)).
Definition new_ClassesPage : pb_ClassesPage := {| ClassesPage_names := []; ClassesPage_next := ""; ClassesPage_unknown := [] |}.
Definition merge_ClassesPage (depth : nat) (m : pb_ClassesPage) (f : raw) : option pb_ClassesPage :=
  let set x0 x1 x2 := {| ClassesPage_names := x0; ClassesPage_next := x1; ClassesPage_unknown := x2 |} in
  let x0 := ClassesPage_names m in
  let x1 := ClassesPage_next m in
  let x2 := ClassesPage_unknown m in
  match f with
  | (1, W_len b) => s ← get_string b; Some (set (x0 ++ [s]) x1 x2)
  | (2, W_len b) => s ← get_string b; Some (set x0 s x2)
  | _ => Some (set x0 x1 (x2 ++ [unknown f]))
  end.

Definition put_ValuesPage (m : pb_ValuesPage) : bytes :=
  put_fields (w_messages 1 put_ValueRecord (ValuesPage_values m)
              ++ w_uint 2 (ValuesPage_next m)
              ++ (raw_unknown <$> ValuesPage_unknown m)).
Definition new_ValuesPage : pb_ValuesPage := {| ValuesPage_values := []; ValuesPage_next := 0; ValuesPage_unknown := [] |}.
Definition merge_ValuesPage (depth : nat) (m : pb_ValuesPage) (f : raw) : option pb_ValuesPage :=
  let set x0 x1 x2 := {| ValuesPage_values := x0; ValuesPage_next := x1; ValuesPage_unknown := x2 |} in
  let x0 := ValuesPage_values m in
  let x1 := ValuesPage_next m in
  let x2 := ValuesPage_unknown m in
  match f with
  | (1, W_len b) =>
      y ← parse_sub merge_ValueRecord depth new_ValueRecord b; Some (set (x0 ++ [y]) x1 x2)
  | (2, W_varint v) => Some (set x0 v x2)
  | _ => Some (set x0 x1 (x2 ++ [unknown f]))
  end.

Definition put_Released (m : pb_Released) : bytes :=
  put_fields ((raw_unknown <$> Released_unknown m)).
Definition new_Released : pb_Released := {| Released_unknown := [] |}.
Definition merge_Released (depth : nat) (m : pb_Released) (f : raw) : option pb_Released :=
  let set x0 := {| Released_unknown := x0 |} in
  let x0 := Released_unknown m in
  match f with
  | _ => Some (set (x0 ++ [unknown f]))
  end.

Definition put_RemoteError (m : pb_RemoteError) : bytes :=
  put_fields (w_enum 1 (RemoteError_code m)
              ++ w_string 2 (RemoteError_message m)
              ++ (raw_unknown <$> RemoteError_unknown m)).
Definition new_RemoteError : pb_RemoteError := {| RemoteError_code := 0; RemoteError_message := ""; RemoteError_unknown := [] |}.
Definition merge_RemoteError (depth : nat) (m : pb_RemoteError) (f : raw) : option pb_RemoteError :=
  let set x0 x1 x2 := {| RemoteError_code := x0; RemoteError_message := x1; RemoteError_unknown := x2 |} in
  let x0 := RemoteError_code m in
  let x1 := RemoteError_message m in
  let x2 := RemoteError_unknown m in
  match f with
  | (1, W_varint v) => Some (set (to_i32 v) x1 x2)
  | (2, W_len b) => s ← get_string b; Some (set x0 s x2)
  | _ => Some (set x0 x1 (x2 ++ [unknown f]))
  end.

Definition put_operation (c : Request_operation) : raw :=
  match c with
  | kListClasses m => (10, W_len (put_ListClasses m))
  | kDescribeClass m => (11, W_len (put_DescribeClass m))
  | kPutValue m => (12, W_len (put_PutValue m))
  | kGetValue m => (13, W_len (put_Id m))
  | kListValues m => (14, W_len (put_ListValues m))
  | kCreateObject m => (15, W_len (put_CreateObject m))
  | kGetObject m => (16, W_len (put_Id m))
  | kReleaseObject m => (17, W_len (put_Id m))
  | kGetAttribute m => (18, W_len (put_GetAttribute m))
  | kInvokeMethod m => (19, W_len (put_InvokeMethod m))
  end.

(** A operation field continues the same case and replaces any other. *)
Definition merge_operation (depth : nat) (c : option Request_operation) (number : Z) (b : bytes)
  : option Request_operation :=
  match number with
  | 10 => kListClasses <$> parse_sub merge_ListClasses depth (match c with Some (kListClasses m) => m | _ => new_ListClasses end) b
  | 11 => kDescribeClass <$> parse_sub merge_DescribeClass depth (match c with Some (kDescribeClass m) => m | _ => new_DescribeClass end) b
  | 12 => kPutValue <$> parse_sub merge_PutValue depth (match c with Some (kPutValue m) => m | _ => new_PutValue end) b
  | 13 => kGetValue <$> parse_sub merge_Id depth (match c with Some (kGetValue m) => m | _ => new_Id end) b
  | 14 => kListValues <$> parse_sub merge_ListValues depth (match c with Some (kListValues m) => m | _ => new_ListValues end) b
  | 15 => kCreateObject <$> parse_sub merge_CreateObject depth (match c with Some (kCreateObject m) => m | _ => new_CreateObject end) b
  | 16 => kGetObject <$> parse_sub merge_Id depth (match c with Some (kGetObject m) => m | _ => new_Id end) b
  | 17 => kReleaseObject <$> parse_sub merge_Id depth (match c with Some (kReleaseObject m) => m | _ => new_Id end) b
  | 18 => kGetAttribute <$> parse_sub merge_GetAttribute depth (match c with Some (kGetAttribute m) => m | _ => new_GetAttribute end) b
  | 19 => kInvokeMethod <$> parse_sub merge_InvokeMethod depth (match c with Some (kInvokeMethod m) => m | _ => new_InvokeMethod end) b
  | _ => None
  end.

Definition put_Request (m : pb_Request) : bytes :=
  put_fields ((match Request_version m with Some v => [(1, W_varint v)] | None => [] end)
              ++ w_uint 2 (Request_request_id m)
              ++ (match Request_case m with Some c => [put_operation c] | None => [] end)
              ++ (raw_unknown <$> Request_unknown m)).
Definition merge_Request (depth : nat) (m : pb_Request) (f : raw) : option pb_Request :=
  let set v i c u := {| Request_version := v; Request_request_id := i; Request_case := c; Request_unknown := u |} in
  let v := Request_version m in
  let i := Request_request_id m in
  let c := Request_case m in
  let u := Request_unknown m in
  match f with
  | (1, W_varint x) => Some (set (Some (x mod two32)) i c u)
  | (2, W_varint x) => Some (set v x c u)
  | (number, W_len b) =>
      if (10 <=? number) && (number <=? 19)
      then y ← merge_operation depth c number b; Some (set v i (Some y) u)
      else Some (set v i c (u ++ [unknown f]))
  | _ => Some (set v i c (u ++ [unknown f]))
  end.

Definition put_outcome (c : Response_outcome) : raw :=
  match c with
  | kClasses m => (10, W_len (put_ClassesPage m))
  | kDescription m => (11, W_len (put_ClassDescription m))
  | kValueRecord m => (12, W_len (put_ValueRecord m))
  | kValues m => (13, W_len (put_ValuesPage m))
  | kObject m => (14, W_len (put_ObjectSnapshot m))
  | kReleased m => (15, W_len (put_Released m))
  | kValue m => (16, W_len (put_Value m))
  | kError m => (17, W_len (put_RemoteError m))
  end.

(** A outcome field continues the same case and replaces any other. *)
Definition merge_outcome (depth : nat) (c : option Response_outcome) (number : Z) (b : bytes)
  : option Response_outcome :=
  match number with
  | 10 => kClasses <$> parse_sub merge_ClassesPage depth (match c with Some (kClasses m) => m | _ => new_ClassesPage end) b
  | 11 => kDescription <$> parse_sub merge_ClassDescription depth (match c with Some (kDescription m) => m | _ => new_ClassDescription end) b
  | 12 => kValueRecord <$> parse_sub merge_ValueRecord depth (match c with Some (kValueRecord m) => m | _ => new_ValueRecord end) b
  | 13 => kValues <$> parse_sub merge_ValuesPage depth (match c with Some (kValues m) => m | _ => new_ValuesPage end) b
  | 14 => kObject <$> parse_sub merge_ObjectSnapshot depth (match c with Some (kObject m) => m | _ => new_ObjectSnapshot end) b
  | 15 => kReleased <$> parse_sub merge_Released depth (match c with Some (kReleased m) => m | _ => new_Released end) b
  | 16 => kValue <$> parse_sub merge_Value depth (match c with Some (kValue m) => m | _ => default_Value end) b
  | 17 => kError <$> parse_sub merge_RemoteError depth (match c with Some (kError m) => m | _ => new_RemoteError end) b
  | _ => None
  end.

Definition put_Response (m : pb_Response) : bytes :=
  put_fields ((match Response_version m with Some v => [(1, W_varint v)] | None => [] end)
              ++ w_uint 2 (Response_request_id m)
              ++ (match Response_case m with Some c => [put_outcome c] | None => [] end)
              ++ (raw_unknown <$> Response_unknown m)).
Definition merge_Response (depth : nat) (m : pb_Response) (f : raw) : option pb_Response :=
  let set v i c u := {| Response_version := v; Response_request_id := i; Response_case := c; Response_unknown := u |} in
  let v := Response_version m in
  let i := Response_request_id m in
  let c := Response_case m in
  let u := Response_unknown m in
  match f with
  | (1, W_varint x) => Some (set (Some (x mod two32)) i c u)
  | (2, W_varint x) => Some (set v x c u)
  | (number, W_len b) =>
      if (10 <=? number) && (number <=? 17)
      then y ← merge_outcome depth c number b; Some (set v i (Some y) u)
      else Some (set v i c (u ++ [unknown f]))
  | _ => Some (set v i c (u ++ [unknown f]))
  end.

(** ** The instance *)
Definition wire_protobuf : Protobuf := {|
  parse_Request total recursion b :=
    if total <? len b then None else parse_msg merge_Request (Z.to_nat recursion) default_Request b;
  size_Request m := len (put_Request m);
  serialize_Request m := Some (put_Request m);
  parse_Response total recursion b :=
    if total <? len b then None else parse_msg merge_Response (Z.to_nat recursion) default_Response b;
  size_Response m := len (put_Response m);
  serialize_Response m := Some (put_Response m);
|}.
End messages.

(** The reviewed seeds of the fuzzing corpus decode to the messages they stand for. *)
Module Seeds.
#[local] Existing Instance utf8_reference.
#[local] Existing Instance wire_protobuf.

Example put_integer :
  decode_request [x08; x01; x10; x01; x62; x04; x0a; x02; x10; x01]
  = inl {| req_id := 1; req_body := put_value (Integer (-1)); req_version := 1 |}.
Proof. vm_compute. reflexivity. Qed.

Example get_object_seed :
  decode_request [x08; x01; x10; x01; x82; x01; x02; x08; x01]
  = inl {| req_id := 1; req_body := get_object 1; req_version := 1 |}.
Proof. vm_compute. reflexivity. Qed.

Example released_seed :
  decode_response [x08; x01; x10; x01; x7a; x00]
  = inl {| resp_id := 1; resp_body := o_released; resp_version := 1 |}.
Proof. vm_compute. reflexivity. Qed.

Example encode_seed :
  encode_request {| req_id := 1; req_body := put_value (Integer (-1)); req_version := 1 |}
  = inl [x08; x01; x10; x01; x62; x04; x0a; x02; x10; x01].
Proof. vm_compute. reflexivity. Qed.
End Seeds.
