(* ===== verification/WireProofs.v ===== *)
(** * The reference wire format satisfies the Protobuf laws

    Round trips of the scalars, of field lists and of every message of the schema, and
    the ranges of parsed fields. *)
From stdpp Require Import prelude gmap strings.
From Stdlib Require Import ZArith Lia Strings.Byte.
From S2P Require Import Prelude Utf8 Contracts Validation Framing Messages Codec CodecProofs CodecSpec Wire.

(** [lia] with quotients and remainders by constants. *)
Ltac zlia := unfold in_i64, in_i32, i64_min, i64_max, two64, two32 in *; Z.to_euclidean_division_equations; lia.

(** ** Scalars *)
Lemma varint_roundtrip fuel n rest :
  fuel <> O -> 0 <= n < 128 ^ Z.of_nat fuel -> dec_varint fuel (enc_varint fuel n ++ rest) = Some (n, rest).
Proof.
  revert n. induction fuel as [|fuel IH]; intros n Hf Hn; [done|].
  rewrite Nat2Z.inj_succ, Z.pow_succ_r in Hn by lia.
  cbn [enc_varint]. destruct (n <? 128) eqn:E; bool_simp; cbn [app dec_varint]; rewrite byte_Z_of_Z.
  - rewrite Z.mod_small by lia. apply Z.ltb_lt in E. by rewrite E.
  - pose proof (Z.mod_pos_bound n 128 eq_refl). rewrite Z.mod_small by lia.
    replace (n mod 128 + 128 <? 128) with false by (symmetry; apply Z.ltb_ge; lia).
    rewrite IH.
    + do 2 f_equal. pose proof (Z.div_mod n 128 ltac:(lia)). lia.
    + intros ->. change (128 ^ Z.of_nat 0) with 1 in Hn. lia.
    + split; [apply Z.div_pos; lia|]. apply Z.div_lt_upper_bound; lia.
Qed.

Lemma get_put_varint n rest : 0 <= n < two64 -> get_varint (put_varint n ++ rest) = Some (n, rest).
Proof.
  intros Hn. unfold get_varint, put_varint. rewrite varint_roundtrip; [|done|].
  - by rewrite Z.mod_small.
  - split; [lia|]. change (128 ^ Z.of_nat 10) with 1180591620717411303424. ulia.
Qed.

Lemma put_varint_cons n : exists x l, put_varint n = x :: l.
Proof. unfold put_varint. cbn [enc_varint]. destruct (_ <? _); eauto. Qed.

Lemma le_bytes_length n v : length (le_bytes n v) = n.
Proof. revert v. induction n; simpl; auto. Qed.

Lemma le_roundtrip n v : 0 <= v < 256 ^ Z.of_nat n -> le_value (le_bytes n v) = v.
Proof.
  revert v. induction n as [|n IH]; intros v Hv; [simpl in *; lia|].
  cbn [le_bytes le_value]. rewrite byte_Z_of_Z. pose proof (Z.div_mod v 256 ltac:(lia)).
  rewrite Nat2Z.inj_succ, Z.pow_succ_r in Hv by lia.
  rewrite IH; [lia|]. split; [apply Z.div_pos; lia|]. apply Z.div_lt_upper_bound; lia.
Qed.

Lemma le_value_range b : 0 <= le_value b < 256 ^ len b.
Proof.
  induction b as [|x b IH]; [unfold len; simpl; lia|]. cbn [le_value]. pose proof (byte_Z_range x).
  rewrite len_cons, Z.pow_add_r by (pose proof (len_nonneg b); lia). lia.
Qed.

Lemma zigzag_range n : in_i64 n -> 0 <= zigzag n < two64.
Proof. intros Hn. unfold zigzag. destruct (0 <=? n) eqn:E; bool_simp; ulia. Qed.

Lemma zigzag_roundtrip n : unzigzag (zigzag n) = n.
Proof.
  unfold zigzag, unzigzag. destruct (0 <=? n) eqn:E; bool_simp.
  - replace ((2 * n) mod 2 =? 0) with true by (symmetry; apply Z.eqb_eq; zlia). zlia.
  - replace ((-2 * n - 1) mod 2 =? 0) with false by (symmetry; apply Z.eqb_neq; zlia). zlia.
Qed.

Lemma unzigzag_range v : 0 <= v < two64 -> in_i64 (unzigzag v).
Proof. intros Hv. unfold unzigzag. destruct (_ =? 0) eqn:E; bool_simp; zlia. Qed.

Lemma to_i32_range v : in_i32 (to_i32 v).
Proof.
  unfold to_i32, in_i32. pose proof (Z.mod_pos_bound v two32 eq_refl). unfold two32 in *.
  destruct (_ <? _) eqn:E; bool_simp; lia.
Qed.

Lemma to_i32_wrap v : in_i32 v -> to_i32 (v mod two64) = v.
Proof.
  unfold in_i32, to_i32, two64, two32. intros Hv.
  destruct (v mod 18446744073709551616 mod 4294967296 <? 2147483648) eqn:E; bool_simp; zlia.
Qed.

Lemma get_varint_range b v rest : get_varint b = Some (v, rest) -> 0 <= v < two64.
Proof.
  unfold get_varint. destruct (dec_varint 10 b) as [[w r]|]; [|done]. intros [= <- _].
  by apply Z.mod_pos_bound.
Qed.

(** ** Field lists *)

(** A field the encoder can write: no group, the number and scalars in range. *)
Definition raw_small (f : raw) : Prop :=
  1 <= f.1 < 536870912
  /\ match f.2 with
     | W_varint v | W_i64 v => 0 <= v < two64
     | W_len _ => True
     | W_group _ => False
     | W_i32 v => 0 <= v < two32
     end.

Lemma get_tag n t rest : 1 <= n < 536870912 -> 0 <= t < 8 ->
  get_varint (put_tag n t ++ rest) = Some (n * 8 + t, rest).
Proof. intros Hn Ht. unfold put_tag. apply get_put_varint. ulia. Qed.

Lemma tag_parts n t : 0 <= t < 8 -> (n * 8 + t) / 8 = n /\ (n * 8 + t) mod 8 = t.
Proof. intros Ht. split; zlia. Qed.

Lemma take_len_app {A} n (l k : list A) : n = len l -> take (Z.to_nat n) (l ++ k) = l.
Proof. intros ->. unfold len. rewrite Nat2Z.id. by rewrite take_app_length. Qed.
Lemma drop_len_app {A} n (l k : list A) : n = len l -> drop (Z.to_nat n) (l ++ k) = k.
Proof. intros ->. unfold len. rewrite Nat2Z.id. by rewrite drop_app_length. Qed.

Lemma get_fields_step fuel g d n t body rest :
  1 <= n < 536870912 -> 0 <= t < 8 ->
  get_fields (S fuel) g d (put_tag n t ++ body ++ rest)
  = (let more (w : wire) (r1 : bytes) :=
       '(l, r2) ← get_fields fuel g d r1; Some ((n, w) :: l, r2) in
     let r := body ++ rest in
     if t =? 0 then '(v, r1) ← get_varint r; more (W_varint v) r1
     else if t =? 1 then if len r <? 8 then None else more (W_i64 (le_value (take 8 r))) (drop 8 r)
     else if t =? 2 then
       '(k, r1) ← get_varint r;
       if len r1 <? k then None else more (W_len (take (Z.to_nat k) r1)) (drop (Z.to_nat k) r1)
     else if t =? 3 then
       match d with
       | O => None
       | S d' => '(l, r1) ← get_fields fuel (Some n) d' r; more (W_group l) r1
       end
     else if t =? 4 then if bool_decide (g = Some n) then Some ([], r) else None
     else if t =? 5 then if len r <? 4 then None else more (W_i32 (le_value (take 4 r))) (drop 4 r)
     else None).
Proof.
  intros Hn Ht. pose proof (get_tag n t (body ++ rest) Hn Ht) as Hget.
  assert (Hne : put_tag n t ++ body ++ rest <> []).
  { unfold put_tag. by destruct (put_varint_cons (n * 8 + t)) as (x & l & ->). }
  set (r := body ++ rest) in *. destruct (put_tag n t ++ r) as [|x b]; [done|].
  cbn [get_fields]. rewrite Hget. cbn [mbind option_bind].
  destruct (tag_parts n t Ht) as [-> ->].
  replace ((n =? 0) || (536870912 <=? n)) with false; [done|].
  symmetry. apply orb_false_iff. split; [apply Z.eqb_neq; lia|apply Z.leb_gt; lia].
Qed.

Lemma get_fields_cons fuel g d f rest :
  raw_small f -> (match f.2 with W_len b => len b <= i32_max | _ => True end) ->
  get_fields (S fuel) g d (put_field f ++ rest)
  = '(l, r2) ← get_fields fuel g d rest; Some (f :: l, r2).
Proof.
  destruct f as [n w]. intros [Hn Hw] Hlen. cbn [fst snd] in *. unfold put_field. cbn [fst snd].
  destruct w as [v|v|b|l|v]; cbn [put_wire]; rewrite <- ?app_assoc.
  - rewrite get_fields_step by lia. cbn [Z.eqb]. cbv zeta. rewrite get_put_varint by done. done.
  - rewrite get_fields_step by lia. cbn [Z.eqb Pos.eqb]. cbv zeta.
    assert (Hl : len (le_bytes 8 v) = 8) by (unfold len; by rewrite le_bytes_length).
    replace (len (le_bytes 8 v ++ rest) <? 8) with false
      by (symmetry; apply Z.ltb_ge; rewrite len_app; pose proof (len_nonneg rest); lia).
    change 8%nat with (Z.to_nat 8). rewrite take_len_app, drop_len_app by done.
    rewrite le_roundtrip; [done|]. change (256 ^ Z.of_nat (Z.to_nat 8)) with two64. lia.
  - rewrite get_fields_step by lia. cbn [Z.eqb Pos.eqb]. cbv zeta.
    pose proof (len_nonneg b). unfold i32_max in *.
    rewrite get_put_varint by ulia. cbn [mbind option_bind].
    replace (len (b ++ rest) <? len b) with false
      by (symmetry; apply Z.ltb_ge; rewrite len_app; pose proof (len_nonneg rest); lia).
    by rewrite take_len_app, drop_len_app.
  - done.
  - rewrite get_fields_step by lia. cbn [Z.eqb Pos.eqb]. cbv zeta.
    assert (Hl : len (le_bytes 4 v) = 4) by (unfold len; by rewrite le_bytes_length).
    replace (len (le_bytes 4 v ++ rest) <? 4) with false
      by (symmetry; apply Z.ltb_ge; rewrite len_app; pose proof (len_nonneg rest); lia).
    change 4%nat with (Z.to_nat 4). rewrite take_len_app, drop_len_app by done.
    rewrite le_roundtrip; [done|]. change (256 ^ Z.of_nat (Z.to_nat 4)) with two32. lia.
Qed.

Lemma put_field_pos f : (1 <= length (put_field f))%nat.
Proof.
  destruct f as [n w]. unfold put_field, put_tag. cbn [fst snd].
  assert (Hp : forall k l, (1 <= length (put_varint k ++ l))%nat).
  { intros k l. destruct (put_varint_cons k) as (x & l' & ->). simpl. lia. }
  destruct w; cbn [put_wire]; apply Hp.
Qed.

Lemma put_fields_length l : (length l <= length (put_fields l))%nat.
Proof.
  induction l as [|f l IH]; [done|]. cbn [put_fields length]. rewrite length_app.
  pose proof (put_field_pos f). lia.
Qed.

(** The contents of a length-delimited field are no longer than the whole. *)
Lemma put_fields_contents l n b : (n, W_len b) ∈ l -> len b <= len (put_fields l).
Proof.
  induction l as [|f l IH]; [set_solver|]. cbn [put_fields]. rewrite len_app.
  intros [<-|Hin]%elem_of_cons.
  - unfold put_field. cbn [fst snd put_wire]. rewrite !len_app.
    pose proof (len_nonneg (put_tag n 2)). pose proof (len_nonneg (put_varint (len b))).
    pose proof (len_nonneg (put_fields l)). lia.
  - specialize (IH Hin). pose proof (len_nonneg (put_field f)). lia.
Qed.

Definition contents_small (f : raw) : Prop := match f.2 with W_len b => len b <= i32_max | _ => True end.

Lemma get_put_fields l fuel d :
  Forall raw_small l -> Forall contents_small l -> (length l < fuel)%nat ->
  get_fields fuel None d (put_fields l) = Some (l, []).
Proof.
  intros Hs Hc. revert fuel. induction l as [|f l IH]; intros fuel Hf; (destruct fuel as [|fuel]; [simpl in Hf; lia|]).
  { done. }
  apply Forall_cons in Hs as [Hf1 Hs]. apply Forall_cons in Hc as [Hf2 Hc]. cbn [put_fields].
  rewrite get_fields_cons by done. cbn [length] in Hf. rewrite IH by (done || lia). done.
Qed.

Lemma parse_put {M} (merge : nat -> M -> raw -> option M) d init l :
  Forall raw_small l -> len (put_fields l) <= i32_max ->
  parse_msg merge d init (put_fields l) = merge_all (merge d) init l.
Proof.
  intros Hs Hl. unfold parse_msg. rewrite get_put_fields; [done|done| |].
  - apply Forall_forall. intros [n w] Hin. unfold contents_small. cbn [snd]. destruct w as [| |b| |]; try done.
    pose proof (put_fields_contents l n b Hin). lia.
  - pose proof (put_fields_length l). lia.
Qed.

Lemma merge_all_app {M} (merge : M -> raw -> option M) m l k :
  merge_all merge m (l ++ k) = merge_all merge m l ≫= fun m' => merge_all merge m' k.
Proof.
  revert m. induction l as [|f l IH]; intros m; [done|]. rewrite <- app_comm_cons. cbn [merge_all].
  destruct (merge m f) as [m'|]; [|done]. cbn [mbind option_bind]. apply IH.
Qed.

(** ** One written field at a time

    [set] rebuilds the message from the value of the field. *)
Section pieces.
Context `{Utf8Ops} {M : Type} (merge : M -> raw -> option M).

Lemma get_string_of s : wire_string s -> get_string (of_str s) = Some s.
Proof.
  intros [_ Hu]. unfold get_string. rewrite Stdlib.Strings.String.string_of_list_byte_of_string. by rewrite Hu.
Qed.

Lemma merge_w_string (set : string -> M) n s m :
  m = set "" -> merge m (n, W_len (of_str s)) = Some (set s) -> merge_all merge m (w_string n s) = Some (set s).
Proof. intros -> Hm. unfold w_string. case_bool_decide as Hs; [by subst|]. cbn [merge_all]. by rewrite Hm. Qed.

Lemma merge_w_uint (set : Z -> M) n v m :
  m = set 0 -> merge m (n, W_varint v) = Some (set v) -> merge_all merge m (w_uint n v) = Some (set v).
Proof.
  intros -> Hm. unfold w_uint. destruct (v =? 0) eqn:E; bool_simp; [by subst|]. cbn [merge_all]. by rewrite Hm.
Qed.

Lemma merge_w_enum (set : Z -> M) n v m :
  m = set 0 -> merge m (n, W_varint (v mod two64)) = Some (set v) ->
  merge_all merge m (w_enum n v) = Some (set v).
Proof.
  intros -> Hm. unfold w_enum. destruct (v =? 0) eqn:E; bool_simp; [by subst|]. cbn [merge_all]. by rewrite Hm.
Qed.

Lemma merge_w_bool (set : bool -> M) n v m :
  m = set false -> merge m (n, W_varint 1) = Some (set true) ->
  merge_all merge m (w_bool n v) = Some (set v).
Proof. intros -> Hm. destruct v; [|done]. cbn [w_bool merge_all]. by rewrite Hm. Qed.

Lemma merge_w_message {A} (put : A -> bytes) (set : option A -> M) n o m :
  m = set None -> (forall x, o = Some x -> merge m (n, W_len (put x)) = Some (set (Some x))) ->
  merge_all merge m (w_message n put o) = Some (set o).
Proof. intros -> Hm. destruct o as [x|]; [|done]. cbn [w_message merge_all]. by rewrite (Hm x eq_refl). Qed.

Lemma merge_w_messages {A} (put : A -> bytes) (set : list A -> M) n l m :
  m = set [] -> (forall xs x, x ∈ l -> merge (set xs) (n, W_len (put x)) = Some (set (xs ++ [x]))) ->
  merge_all merge m (w_messages n put l) = Some (set l).
Proof.
  intros -> Hm. change l with ([] ++ l) at 2. generalize (@nil A) as xs. revert Hm.
  induction l as [|x l IH]; intros Hm xs; [by rewrite app_nil_r|].
  unfold w_messages in *. rewrite fmap_cons. cbn [merge_all]. rewrite Hm by set_solver. cbn [mbind option_bind].
  rewrite IH; [by rewrite <- app_assoc|]. intros ys y Hy. apply Hm. set_solver.
Qed.

Lemma merge_w_strings (set : list string -> M) n l m :
  m = set [] -> (forall xs x, x ∈ l -> merge (set xs) (n, W_len (of_str x)) = Some (set (xs ++ [x]))) ->
  merge_all merge m (w_strings n l) = Some (set l).
Proof. intros Hm Hx. exact (merge_w_messages of_str set n l m Hm Hx). Qed.
End pieces.

(** *** Written fields are encodable *)
Definition number_ok (n : Z) : Prop := 1 <= n < 536870912.

Lemma small_string n s : number_ok n -> Forall raw_small (w_string n s).
Proof. intros Hn. unfold w_string. case_bool_decide; repeat constructor; apply Hn. Qed.
Lemma small_strings n l : number_ok n -> Forall raw_small (w_strings n l).
Proof. intros Hn. unfold w_strings. rewrite Forall_fmap. apply Forall_true. intros s. by split. Qed.
Lemma small_uint n v : number_ok n -> in_u64 v -> Forall raw_small (w_uint n v).
Proof.
  intros Hn Hv. unfold w_uint. destruct (v =? 0); [constructor|]. apply Forall_singleton. split; [done|]. cbn. ulia.
Qed.
Lemma small_enum n v : number_ok n -> Forall raw_small (w_enum n v).
Proof.
  intros Hn. unfold w_enum. destruct (v =? 0); [constructor|]. apply Forall_singleton. split; [done|].
  by apply Z.mod_pos_bound.
Qed.
Lemma small_bool n v : number_ok n -> Forall raw_small (w_bool n v).
Proof. intros Hn. destruct v; [|constructor]. apply Forall_singleton. split; [done|]. cbn. ulia. Qed.
Lemma small_message {A} n (put : A -> bytes) o : number_ok n -> Forall raw_small (w_message n put o).
Proof. intros Hn. destruct o; [|constructor]. apply Forall_singleton. by split. Qed.
Lemma small_messages {A} n (put : A -> bytes) l : number_ok n -> Forall raw_small (w_messages n put l).
Proof. intros Hn. unfold w_messages. rewrite Forall_fmap. apply Forall_true. intros s. by split. Qed.

Lemma u32_u64 z : in_u32 z -> in_u64 z.
Proof. unfold in_u32, two32. ulia. Qed.

Create HintDb small.
#[local] Hint Resolve small_string small_strings small_uint small_enum small_bool small_message
  small_messages u32_u64 : small.
#[local] Hint Extern 1 (number_ok _) => (unfold number_ok; lia) : small.
Ltac small := rewrite ?Forall_app; split_and?; auto with small.

(** The merge of one written field: reduce the reader to the field that it sees. *)
Tactic Notation "merge_step" reference(f) := unfold f; cbv beta iota zeta.

(** Accept a message that the parser has to return. *)
Section roundtrips.
Context `{Utf8Laws}.

Record good {M} (typed : M -> Prop) (tree : M -> node) (m : M) : Prop := {
  good_typed : typed m;
  good_clean : node_clean (tree m);
  good_ok : node_ok (tree m);
}.

Definition rt {M} (put : M -> bytes) (merge : nat -> M -> raw -> option M) (new : M) (d : nat)
    (P : M -> Prop) : Prop :=
  forall m, P m -> len (put m) <= i32_max -> parse_msg merge d new (put m) = Some m.

Lemma rt_sub {M} (put : M -> bytes) merge new d P m n l :
  rt put merge new d P -> P m -> (n, W_len (put m)) ∈ l -> len (put_fields l) <= i32_max ->
  parse_sub merge (S d) new (put m) = Some m.
Proof.
  intros Hrt HP Hin Hl. cbn [parse_sub]. apply Hrt; [done|].
  pose proof (put_fields_contents l n _ Hin). lia.
Qed.

Lemma in_w_message {A} n (put : A -> bytes) x : (n, W_len (put x)) ∈ w_message n put (Some x).
Proof. simpl. set_solver. Qed.

Lemma in_w_messages {A} n (put : A -> bytes) xs x :
  x ∈ xs -> (n, W_len (put x)) ∈ w_messages n put xs.
Proof. intros Hx. unfold w_messages. apply list_elem_of_fmap. eauto. Qed.

Ltac in_fields :=
  rewrite ?elem_of_app;
  repeat first [apply in_w_message | apply in_w_messages; assumption
               | match goal with |- _ \/ _ => (left; solve [in_fields]) || right end].

(** Parse a nested message that was written as one of the fields. *)
Ltac sub_field n x lem Hl :=
  let G := fresh in
  let I := fresh in
  lazymatch type of lem with
  | rt ?put ?merge ?new ?d ?P =>
      lazymatch type of Hl with
      | len (put_fields ?l) <= _ =>
          assert (G : P x) by (assumption || (split; assumption));
          assert (I : (n, W_len (put x)) ∈ l) by in_fields;
          rewrite (rt_sub put merge new d P x n l lem G I Hl); clear G I
      end
  end.

Lemma rt_Value d : rt put_Value merge_Value default_Value d (good typed_Value tree_Value).
Proof.
  intros [c u] [Ht Hc Hok] Hl. unfold tree_Value, typed_Value in *. tree_simp. destruct Hc as [-> _].
  unfold put_Value in *. msg_simp. rewrite fmap_nil, app_nil_r in *.
  destruct c as [[s|n|bits]|].
  - rewrite parse_put; [|apply Forall_singleton; split; cbn; [lia|done]|done].
    cbn [merge_all]. merge_step merge_Value.
    rewrite get_string_of by (simpl in Hok; tauto). done.
  - rewrite parse_put; [|apply Forall_singleton; split; cbn [fst snd]; [lia|by apply zigzag_range]|done].
    cbn [merge_all].
    merge_step merge_Value. by rewrite zigzag_roundtrip.
  - rewrite parse_put; [|apply Forall_singleton; split; cbn [fst snd]; ulia|done]. done.
  - rewrite parse_put; [|constructor|done]. done.
Qed.

Lemma rt_NamedValue d :
  rt put_NamedValue merge_NamedValue new_NamedValue (S d) (good typed_NamedValue tree_NamedValue).
Proof.
  intros [name v u] [Ht Hc Hok] Hl. unfold tree_NamedValue, typed_NamedValue in *. tree_simp.
  destruct Hc as (-> & _ & Hcv), Hok as [Hn Hv].
  unfold put_NamedValue in *. msg_simp. rewrite fmap_nil, app_nil_r in *.
  rewrite parse_put; [|small|done]. rewrite merge_all_app.
  rewrite (merge_w_string _ (fun s => {| NamedValue_name := s; NamedValue_value := None;
                                         NamedValue_unknown := [] |})); [|done|].
  2: { merge_step merge_NamedValue. by rewrite get_string_of. }
  cbn [mbind option_bind].
  rewrite (merge_w_message _ put_Value (fun o => {| NamedValue_name := name; NamedValue_value := o;
                                                    NamedValue_unknown := [] |})); [done|done|].
  intros x ->. tree_simp. merge_step merge_NamedValue. msg_simp.
  change (get_Value None) with default_Value.
  sub_field 2 x (rt_Value d) Hl. done.
Qed.

Lemma good_list {M} (typed : M -> Prop) (tree : M -> node) l :
  Forall typed l -> Forall node_clean (tree <$> l) -> Forall node_ok (tree <$> l) ->
  Forall (good typed tree) l.
Proof. rewrite !Forall_fmap, !Forall_forall. intros Ht Hc Ho x Hx. split; [auto|by apply Hc|by apply Ho]. Qed.

Lemma rt_ValueRecord d : rt put_ValueRecord merge_ValueRecord new_ValueRecord (S d)
  (good typed_ValueRecord tree_ValueRecord).
Proof.
  intros [x0 x1 u] [Ht Hc Hok] Hl. unfold tree_ValueRecord, typed_ValueRecord in *. tree_simp. destruct Hc as [-> Hc].
  unfold put_ValueRecord in *. msg_simp. rewrite ?fmap_nil, ?app_nil_r in *. destruct_and?.
  rewrite parse_put; [|small|done]. unfold new_ValueRecord. rewrite ?merge_all_app.
  rewrite (merge_w_uint _ (fun y => {| ValueRecord_id := y; ValueRecord_value := None; ValueRecord_unknown := [] |})); [|done|].
  2: { done. }
  cbn [mbind option_bind]. rewrite ?merge_all_app.
  rewrite (merge_w_message _ put_Value (fun y => {| ValueRecord_id := x0; ValueRecord_value := y; ValueRecord_unknown := [] |})); [|done|].
  2: { intros x ->. tree_simp. merge_step merge_ValueRecord. msg_simp. change (get_Value None) with default_Value. sub_field 2 x (rt_Value d) Hl. done. }
  done.
Qed.

Lemma rt_Parameter d : rt put_Parameter merge_Parameter new_Parameter d
  (good typed_Parameter tree_Parameter).
Proof.
  intros [x0 x1 u] [Ht Hc Hok] Hl. unfold tree_Parameter, typed_Parameter in *. tree_simp. destruct Hc as [-> Hc].
  unfold put_Parameter in *. msg_simp. rewrite ?fmap_nil, ?app_nil_r in *. destruct_and?.
  rewrite parse_put; [|small|done]. unfold new_Parameter. rewrite ?merge_all_app.
  rewrite (merge_w_string _ (fun y => {| Parameter_name := y; Parameter_kind := 0; Parameter_unknown := [] |})); [|done|].
  2: { merge_step merge_Parameter. by rewrite get_string_of. }
  cbn [mbind option_bind]. rewrite ?merge_all_app.
  rewrite (merge_w_enum _ (fun y => {| Parameter_name := x0; Parameter_kind := y; Parameter_unknown := [] |})); [|done|].
  2: { merge_step merge_Parameter. by rewrite to_i32_wrap. }
  done.
Qed.

Lemma rt_Attribute d : rt put_Attribute merge_Attribute new_Attribute d
  (good typed_Attribute tree_Attribute).
Proof.
  intros [x0 x1 x2 u] [Ht Hc Hok] Hl. unfold tree_Attribute, typed_Attribute in *. tree_simp. destruct Hc as [-> Hc].
  unfold put_Attribute in *. msg_simp. rewrite ?fmap_nil, ?app_nil_r in *. destruct_and?.
  rewrite parse_put; [|small|done]. unfold new_Attribute. rewrite ?merge_all_app.
  rewrite (merge_w_string _ (fun y => {| Attribute_name := y; Attribute_kind := 0; Attribute_read_only := false; Attribute_unknown := [] |})); [|done|].
  2: { merge_step merge_Attribute. by rewrite get_string_of. }
  cbn [mbind option_bind]. rewrite ?merge_all_app.
  rewrite (merge_w_enum _ (fun y => {| Attribute_name := x0; Attribute_kind := y; Attribute_read_only := false; Attribute_unknown := [] |})); [|done|].
  2: { merge_step merge_Attribute. by rewrite to_i32_wrap. }
  cbn [mbind option_bind]. rewrite ?merge_all_app.
  rewrite (merge_w_bool _ (fun y => {| Attribute_name := x0; Attribute_kind := x1; Attribute_read_only := y; Attribute_unknown := [] |})); [|done|].
  2: { done. }
  done.
Qed.

Lemma rt_Method d : rt put_Method merge_Method new_Method (S d)
  (good typed_Method tree_Method).
Proof.
  intros [x0 x1 x2 u] [Ht Hc Hok] Hl. unfold tree_Method, typed_Method in *. tree_simp. destruct Hc as [-> Hc].
  unfold put_Method in *. msg_simp. rewrite ?fmap_nil, ?app_nil_r in *. destruct_and?.
  assert (G1 : Forall (good typed_Parameter tree_Parameter) x1) by (apply good_list; assumption). rewrite Forall_forall in G1.
  rewrite parse_put; [|small|done]. unfold new_Method. rewrite ?merge_all_app.
  rewrite (merge_w_string _ (fun y => {| Method_name := y; Method_parameters := []; Method_result_kind := 0; Method_unknown := [] |})); [|done|].
  2: { merge_step merge_Method. by rewrite get_string_of. }
  cbn [mbind option_bind]. rewrite ?merge_all_app.
  rewrite (merge_w_messages _ put_Parameter (fun y => {| Method_name := x0; Method_parameters := y; Method_result_kind := 0; Method_unknown := [] |})); [|done|].
  2: { intros xs x Hx. pose proof (G1 x Hx). merge_step merge_Method. msg_simp. sub_field 2 x (rt_Parameter d) Hl. done. }
  cbn [mbind option_bind]. rewrite ?merge_all_app.
  rewrite (merge_w_enum _ (fun y => {| Method_name := x0; Method_parameters := x1; Method_result_kind := y; Method_unknown := [] |})); [|done|].
  2: { merge_step merge_Method. by rewrite to_i32_wrap. }
  done.
Qed.

Lemma rt_ClassDescription d : rt put_ClassDescription merge_ClassDescription new_ClassDescription (S (S d))
  (good typed_ClassDescription tree_ClassDescription).
Proof.
  intros [x0 x1 x2 x3 u] [Ht Hc Hok] Hl. unfold tree_ClassDescription, typed_ClassDescription in *. tree_simp. destruct Hc as [-> Hc].
  unfold put_ClassDescription in *. msg_simp. rewrite ?fmap_nil, ?app_nil_r in *. destruct_and?.
  assert (G1 : Forall (good typed_Attribute tree_Attribute) x1) by (apply good_list; assumption). rewrite Forall_forall in G1.
  assert (G2 : Forall (good typed_Method tree_Method) x2) by (apply good_list; assumption). rewrite Forall_forall in G2.
  assert (G3 : Forall (good typed_Parameter tree_Parameter) x3) by (apply good_list; assumption). rewrite Forall_forall in G3.
  rewrite parse_put; [|small|done]. unfold new_ClassDescription. rewrite ?merge_all_app.
  rewrite (merge_w_string _ (fun y => {| ClassDescription_name := y; ClassDescription_attributes := []; ClassDescription_methods := []; ClassDescription_constructor_parameters := []; ClassDescription_unknown := [] |})); [|done|].
  2: { merge_step merge_ClassDescription. by rewrite get_string_of. }
  cbn [mbind option_bind]. rewrite ?merge_all_app.
  rewrite (merge_w_messages _ put_Attribute (fun y => {| ClassDescription_name := x0; ClassDescription_attributes := y; ClassDescription_methods := []; ClassDescription_constructor_parameters := []; ClassDescription_unknown := [] |})); [|done|].
  2: { intros xs x Hx. pose proof (G1 x Hx). merge_step merge_ClassDescription. msg_simp. sub_field 2 x (rt_Attribute (S d)) Hl. done. }
  cbn [mbind option_bind]. rewrite ?merge_all_app.
  rewrite (merge_w_messages _ put_Method (fun y => {| ClassDescription_name := x0; ClassDescription_attributes := x1; ClassDescription_methods := y; ClassDescription_constructor_parameters := []; ClassDescription_unknown := [] |})); [|done|].
  2: { intros xs x Hx. pose proof (G2 x Hx). merge_step merge_ClassDescription. msg_simp. sub_field 3 x (rt_Method d) Hl. done. }
  cbn [mbind option_bind]. rewrite ?merge_all_app.
  rewrite (merge_w_messages _ put_Parameter (fun y => {| ClassDescription_name := x0; ClassDescription_attributes := x1; ClassDescription_methods := x2; ClassDescription_constructor_parameters := y; ClassDescription_unknown := [] |})); [|done|].
  2: { intros xs x Hx. pose proof (G3 x Hx). merge_step merge_ClassDescription. msg_simp. sub_field 4 x (rt_Parameter (S d)) Hl. done. }
  done.
Qed.

Lemma rt_ObjectSnapshot d : rt put_ObjectSnapshot merge_ObjectSnapshot new_ObjectSnapshot (S (S d))
  (good typed_ObjectSnapshot tree_ObjectSnapshot).
Proof.
  intros [x0 x1 x2 u] [Ht Hc Hok] Hl. unfold tree_ObjectSnapshot, typed_ObjectSnapshot in *. tree_simp. destruct Hc as [-> Hc].
  unfold put_ObjectSnapshot in *. msg_simp. rewrite ?fmap_nil, ?app_nil_r in *. destruct_and?.
  assert (G2 : Forall (good typed_NamedValue tree_NamedValue) x2) by (apply good_list; assumption). rewrite Forall_forall in G2.
  rewrite parse_put; [|small|done]. unfold new_ObjectSnapshot. rewrite ?merge_all_app.
  rewrite (merge_w_uint _ (fun y => {| ObjectSnapshot_id := y; ObjectSnapshot_class_name := ""; ObjectSnapshot_state := []; ObjectSnapshot_unknown := [] |})); [|done|].
  2: { done. }
  cbn [mbind option_bind]. rewrite ?merge_all_app.
  rewrite (merge_w_string _ (fun y => {| ObjectSnapshot_id := x0; ObjectSnapshot_class_name := y; ObjectSnapshot_state := []; ObjectSnapshot_unknown := [] |})); [|done|].
  2: { merge_step merge_ObjectSnapshot. by rewrite get_string_of. }
  cbn [mbind option_bind]. rewrite ?merge_all_app.
  rewrite (merge_w_messages _ put_NamedValue (fun y => {| ObjectSnapshot_id := x0; ObjectSnapshot_class_name := x1; ObjectSnapshot_state := y; ObjectSnapshot_unknown := [] |})); [|done|].
  2: { intros xs x Hx. pose proof (G2 x Hx). merge_step merge_ObjectSnapshot. msg_simp. sub_field 3 x (rt_NamedValue d) Hl. done. }
  done.
Qed.

Lemma rt_ListClasses d : rt put_ListClasses merge_ListClasses new_ListClasses d
  (good (fun m => typed_operation (kListClasses m)) (fun m => tree_operation (kListClasses m))).
Proof.
  intros [x0 x1 u] [Ht Hc Hok] Hl. cbn [typed_operation tree_operation] in *. unfold tree_Id in *. tree_simp. destruct Hc as [-> Hc].
  unfold put_ListClasses in *. msg_simp. rewrite ?fmap_nil, ?app_nil_r in *. destruct_and?.
  rewrite parse_put; [|small|done]. unfold new_ListClasses. rewrite ?merge_all_app.
  rewrite (merge_w_string _ (fun y => {| ListClasses_after := y; ListClasses_limit := 0; ListClasses_unknown := [] |})); [|done|].
  2: { merge_step merge_ListClasses. by rewrite get_string_of. }
  cbn [mbind option_bind]. rewrite ?merge_all_app.
  rewrite (merge_w_uint _ (fun y => {| ListClasses_after := x0; ListClasses_limit := y; ListClasses_unknown := [] |})); [|done|].
  2: { merge_step merge_ListClasses. by rewrite Z.mod_small. }
  done.
Qed.

Lemma rt_DescribeClass d : rt put_DescribeClass merge_DescribeClass new_DescribeClass d
  (good (fun m => typed_operation (kDescribeClass m)) (fun m => tree_operation (kDescribeClass m))).
Proof.
  intros [x0 u] [Ht Hc Hok] Hl. cbn [typed_operation tree_operation] in *. unfold tree_Id in *. tree_simp. destruct Hc as [-> Hc].
  unfold put_DescribeClass in *. msg_simp. rewrite ?fmap_nil, ?app_nil_r in *. destruct_and?.
  rewrite parse_put; [|small|done]. unfold new_DescribeClass. rewrite ?merge_all_app.
  rewrite (merge_w_string _ (fun y => {| DescribeClass_name := y; DescribeClass_unknown := [] |})); [|done|].
  2: { merge_step merge_DescribeClass. by rewrite get_string_of. }
  done.
Qed.

Lemma rt_PutValue d : rt put_PutValue merge_PutValue new_PutValue (S d)
  (good (fun m => typed_operation (kPutValue m)) (fun m => tree_operation (kPutValue m))).
Proof.
  intros [x0 u] [Ht Hc Hok] Hl. cbn [typed_operation tree_operation] in *. unfold tree_Id in *. tree_simp. destruct Hc as [-> Hc].
  unfold put_PutValue in *. msg_simp. rewrite ?fmap_nil, ?app_nil_r in *. destruct_and?.
  rewrite parse_put; [|small|done]. unfold new_PutValue. rewrite ?merge_all_app.
  rewrite (merge_w_message _ put_Value (fun y => {| PutValue_value := y; PutValue_unknown := [] |})); [|done|].
  2: { intros x ->. tree_simp. merge_step merge_PutValue. msg_simp. change (get_Value None) with default_Value. sub_field 1 x (rt_Value d) Hl. done. }
  done.
Qed.

Lemma rt_Id d : rt put_Id merge_Id new_Id d
  (good (fun m => typed_operation (kGetValue m)) (fun m => tree_operation (kGetValue m))).
Proof.
  intros [x0 u] [Ht Hc Hok] Hl. cbn [typed_operation tree_operation] in *. unfold tree_Id in *. tree_simp. destruct Hc as [-> Hc].
  unfold put_Id in *. msg_simp. rewrite ?fmap_nil, ?app_nil_r in *. destruct_and?.
  rewrite parse_put; [|small|done]. unfold new_Id. rewrite ?merge_all_app.
  rewrite (merge_w_uint _ (fun y => {| Id_id := y; Id_unknown := [] |})); [|done|].
  2: { done. }
  done.
Qed.

Lemma rt_ListValues d : rt put_ListValues merge_ListValues new_ListValues d
  (good (fun m => typed_operation (kListValues m)) (fun m => tree_operation (kListValues m))).
Proof.
  intros [x0 x1 u] [Ht Hc Hok] Hl. cbn [typed_operation tree_operation] in *. unfold tree_Id in *. tree_simp. destruct Hc as [-> Hc].
  unfold put_ListValues in *. msg_simp. rewrite ?fmap_nil, ?app_nil_r in *. destruct_and?.
  rewrite parse_put; [|small|done]. unfold new_ListValues. rewrite ?merge_all_app.
  rewrite (merge_w_uint _ (fun y => {| ListValues_after := y; ListValues_limit := 0; ListValues_unknown := [] |})); [|done|].
  2: { done. }
  cbn [mbind option_bind]. rewrite ?merge_all_app.
  rewrite (merge_w_uint _ (fun y => {| ListValues_after := x0; ListValues_limit := y; ListValues_unknown := [] |})); [|done|].
  2: { merge_step merge_ListValues. by rewrite Z.mod_small. }
  done.
Qed.

Lemma rt_CreateObject d : rt put_CreateObject merge_CreateObject new_CreateObject (S (S d))
  (good (fun m => typed_operation (kCreateObject m)) (fun m => tree_operation (kCreateObject m))).
Proof.
  intros [x0 x1 u] [Ht Hc Hok] Hl. cbn [typed_operation tree_operation] in *. unfold tree_Id in *. tree_simp. destruct Hc as [-> Hc].
  unfold put_CreateObject in *. msg_simp. rewrite ?fmap_nil, ?app_nil_r in *. destruct_and?.
  assert (G1 : Forall (good typed_NamedValue tree_NamedValue) x1) by (apply good_list; assumption). rewrite Forall_forall in G1.
  rewrite parse_put; [|small|done]. unfold new_CreateObject. rewrite ?merge_all_app.
  rewrite (merge_w_string _ (fun y => {| CreateObject_class_name := y; CreateObject_arguments := []; CreateObject_unknown := [] |})); [|done|].
  2: { merge_step merge_CreateObject. by rewrite get_string_of. }
  cbn [mbind option_bind]. rewrite ?merge_all_app.
  rewrite (merge_w_messages _ put_NamedValue (fun y => {| CreateObject_class_name := x0; CreateObject_arguments := y; CreateObject_unknown := [] |})); [|done|].
  2: { intros xs x Hx. pose proof (G1 x Hx). merge_step merge_CreateObject. msg_simp. sub_field 2 x (rt_NamedValue d) Hl. done. }
  done.
Qed.

Lemma rt_GetAttribute d : rt put_GetAttribute merge_GetAttribute new_GetAttribute d
  (good (fun m => typed_operation (kGetAttribute m)) (fun m => tree_operation (kGetAttribute m))).
Proof.
  intros [x0 x1 u] [Ht Hc Hok] Hl. cbn [typed_operation tree_operation] in *. unfold tree_Id in *. tree_simp. destruct Hc as [-> Hc].
  unfold put_GetAttribute in *. msg_simp. rewrite ?fmap_nil, ?app_nil_r in *. destruct_and?.
  rewrite parse_put; [|small|done]. unfold new_GetAttribute. rewrite ?merge_all_app.
  rewrite (merge_w_uint _ (fun y => {| GetAttribute_id := y; GetAttribute_name := ""; GetAttribute_unknown := [] |})); [|done|].
  2: { done. }
  cbn [mbind option_bind]. rewrite ?merge_all_app.
  rewrite (merge_w_string _ (fun y => {| GetAttribute_id := x0; GetAttribute_name := y; GetAttribute_unknown := [] |})); [|done|].
  2: { merge_step merge_GetAttribute. by rewrite get_string_of. }
  done.
Qed.

Lemma rt_InvokeMethod d : rt put_InvokeMethod merge_InvokeMethod new_InvokeMethod (S (S d))
  (good (fun m => typed_operation (kInvokeMethod m)) (fun m => tree_operation (kInvokeMethod m))).
Proof.
  intros [x0 x1 x2 u] [Ht Hc Hok] Hl. cbn [typed_operation tree_operation] in *. unfold tree_Id in *. tree_simp. destruct Hc as [-> Hc].
  unfold put_InvokeMethod in *. msg_simp. rewrite ?fmap_nil, ?app_nil_r in *. destruct_and?.
  assert (G2 : Forall (good typed_NamedValue tree_NamedValue) x2) by (apply good_list; assumption). rewrite Forall_forall in G2.
  rewrite parse_put; [|small|done]. unfold new_InvokeMethod. rewrite ?merge_all_app.
  rewrite (merge_w_uint _ (fun y => {| InvokeMethod_id := y; InvokeMethod_name := ""; InvokeMethod_arguments := []; InvokeMethod_unknown := [] |})); [|done|].
  2: { done. }
  cbn [mbind option_bind]. rewrite ?merge_all_app.
  rewrite (merge_w_string _ (fun y => {| InvokeMethod_id := x0; InvokeMethod_name := y; InvokeMethod_arguments := []; InvokeMethod_unknown := [] |})); [|done|].
  2: { merge_step merge_InvokeMethod. by rewrite get_string_of. }
  cbn [mbind option_bind]. rewrite ?merge_all_app.
  rewrite (merge_w_messages _ put_NamedValue (fun y => {| InvokeMethod_id := x0; InvokeMethod_name := x1; InvokeMethod_arguments := y; InvokeMethod_unknown := [] |})); [|done|].
  2: { intros xs x Hx. pose proof (G2 x Hx). merge_step merge_InvokeMethod. msg_simp. sub_field 3 x (rt_NamedValue d) Hl. done. }
  done.
Qed.

Lemma rt_ClassesPage d : rt put_ClassesPage merge_ClassesPage new_ClassesPage d
  (good (fun m => typed_outcome (kClasses m)) (fun m => tree_outcome (kClasses m))).
Proof.
  intros [x0 x1 u] [Ht Hc Hok] Hl. cbn [typed_outcome tree_outcome] in *. tree_simp. destruct Hc as [-> Hc].
  unfold put_ClassesPage in *. msg_simp. rewrite ?fmap_nil, ?app_nil_r in *. destruct_and?.
  rewrite parse_put; [|small|done]. unfold new_ClassesPage. rewrite ?merge_all_app.
  rewrite (merge_w_strings _ (fun y => {| ClassesPage_names := y; ClassesPage_next := ""; ClassesPage_unknown := [] |})); [|done|].
  2: { intros xs x Hx. merge_step merge_ClassesPage. rewrite get_string_of; [done|]. by match goal with HF : Forall wire_string _ |- _ => rewrite Forall_forall in HF; apply HF end. }
  cbn [mbind option_bind]. rewrite ?merge_all_app.
  rewrite (merge_w_string _ (fun y => {| ClassesPage_names := x0; ClassesPage_next := y; ClassesPage_unknown := [] |})); [|done|].
  2: { merge_step merge_ClassesPage. by rewrite get_string_of. }
  done.
Qed.

Lemma rt_ValuesPage d : rt put_ValuesPage merge_ValuesPage new_ValuesPage (S (S d))
  (good (fun m => typed_outcome (kValues m)) (fun m => tree_outcome (kValues m))).
Proof.
  intros [x0 x1 u] [Ht Hc Hok] Hl. cbn [typed_outcome tree_outcome] in *. tree_simp. destruct Hc as [-> Hc].
  unfold put_ValuesPage in *. msg_simp. rewrite ?fmap_nil, ?app_nil_r in *. destruct_and?.
  assert (G0 : Forall (good typed_ValueRecord tree_ValueRecord) x0) by (apply good_list; assumption). rewrite Forall_forall in G0.
  rewrite parse_put; [|small|done]. unfold new_ValuesPage. rewrite ?merge_all_app.
  rewrite (merge_w_messages _ put_ValueRecord (fun y => {| ValuesPage_values := y; ValuesPage_next := 0; ValuesPage_unknown := [] |})); [|done|].
  2: { intros xs x Hx. pose proof (G0 x Hx). merge_step merge_ValuesPage. msg_simp. sub_field 1 x (rt_ValueRecord d) Hl. done. }
  cbn [mbind option_bind]. rewrite ?merge_all_app.
  rewrite (merge_w_uint _ (fun y => {| ValuesPage_values := x0; ValuesPage_next := y; ValuesPage_unknown := [] |})); [|done|].
  2: { done. }
  done.
Qed.

Lemma rt_Released d : rt put_Released merge_Released new_Released d
  (good (fun m => typed_outcome (kReleased m)) (fun m => tree_outcome (kReleased m))).
Proof.
  intros [u] [Ht Hc Hok] Hl. cbn [typed_outcome tree_outcome] in *. tree_simp. destruct Hc as [-> Hc].
  unfold put_Released in *. msg_simp. rewrite ?fmap_nil, ?app_nil_r in *. destruct_and?.
  rewrite parse_put; [done|constructor|done].
Qed.

Lemma rt_RemoteError d : rt put_RemoteError merge_RemoteError new_RemoteError d
  (good (fun m => typed_outcome (kError m)) (fun m => tree_outcome (kError m))).
Proof.
  intros [x0 x1 u] [Ht Hc Hok] Hl. cbn [typed_outcome tree_outcome] in *. tree_simp. destruct Hc as [-> Hc].
  unfold put_RemoteError in *. msg_simp. rewrite ?fmap_nil, ?app_nil_r in *. destruct_and?.
  rewrite parse_put; [|small|done]. unfold new_RemoteError. rewrite ?merge_all_app.
  rewrite (merge_w_enum _ (fun y => {| RemoteError_code := y; RemoteError_message := ""; RemoteError_unknown := [] |})); [|done|].
  2: { merge_step merge_RemoteError. by rewrite to_i32_wrap. }
  cbn [mbind option_bind]. rewrite ?merge_all_app.
  rewrite (merge_w_string _ (fun y => {| RemoteError_code := x0; RemoteError_message := y; RemoteError_unknown := [] |})); [|done|].
  2: { merge_step merge_RemoteError. by rewrite get_string_of. }
  done.
Qed.

(** *** Envelopes *)
Lemma operation_rt d op n b :
  good typed_operation tree_operation op -> put_operation op = (n, W_len b) -> len b <= i32_max ->
  10 <= n <= 19 /\ merge_operation (S (S (S d))) None n b = Some op.
Proof.
  intros [Ht Hc Hok] Hp Hl. destruct op; injection Hp as <- <-; (split; [lia|]);
    unfold merge_operation; cbv iota; cbn [parse_sub].
  - by rewrite rt_ListClasses.
  - by rewrite rt_DescribeClass.
  - by rewrite (rt_PutValue (S d)).
  - by rewrite rt_Id.
  - by rewrite rt_ListValues.
  - by rewrite (rt_CreateObject d).
  - by rewrite rt_Id.
  - by rewrite rt_Id.
  - by rewrite rt_GetAttribute.
  - by rewrite (rt_InvokeMethod d).
Qed.

Lemma outcome_rt d o n b :
  good typed_outcome tree_outcome o -> put_outcome o = (n, W_len b) -> len b <= i32_max ->
  10 <= n <= 17 /\ merge_outcome (S (S (S d))) None n b = Some o.
Proof.
  intros [Ht Hc Hok] Hp Hl. destruct o; injection Hp as <- <-; (split; [lia|]);
    unfold merge_outcome; cbv iota; cbn [parse_sub].
  - by rewrite rt_ClassesPage.
  - by rewrite (rt_ClassDescription d).
  - by rewrite (rt_ValueRecord (S d)).
  - by rewrite (rt_ValuesPage d).
  - by rewrite (rt_ObjectSnapshot d).
  - by rewrite rt_Released.
  - by rewrite rt_Value.
  - by rewrite rt_RemoteError.
Qed.

Lemma put_operation_len op : exists n b, put_operation op = (n, W_len b) /\ number_ok n.
Proof. unfold number_ok. destruct op; cbn [put_operation]; eexists _, _; (split; [reflexivity|lia]). Qed.
Lemma put_outcome_len o : exists n b, put_outcome o = (n, W_len b) /\ number_ok n.
Proof. unfold number_ok. destruct o; cbn [put_outcome]; eexists _, _; (split; [reflexivity|lia]). Qed.

Lemma rt_Request d :
  rt put_Request merge_Request default_Request (S (S (S d))) (good typed_Request tree_Request).
Proof.
  intros [v i c u] [(Hv & Hi & Ht) Hc Hok] Hl. unfold tree_Request in *. tree_simp.
  destruct Hc as [-> Hc]. unfold put_Request in *. msg_simp. rewrite fmap_nil, app_nil_r in *.
  set (vs := match v with Some x => [(1, W_varint x)] | None => [] end) in *.
  set (cs := match c with Some x => [put_operation x] | None => [] end) in *.
  assert (Hs : Forall raw_small (vs ++ w_uint 2 i ++ cs)).
  { rewrite !Forall_app. split_and!; [|by apply small_uint; [unfold number_ok; lia|]|].
    - destruct v as [x|]; [|constructor]. apply Forall_singleton. cbn in Hv.
      split; cbn [fst snd]; [lia|]. unfold in_u32, two32 in Hv. ulia.
    - destruct c as [x|]; [|constructor]. apply Forall_singleton.
      destruct (put_operation_len x) as (n & b & -> & Hn). by split. }
  rewrite parse_put by done. rewrite merge_all_app.
  assert (Hver : merge_all (merge_Request (S (S (S d)))) default_Request vs
    = Some {| Request_version := v; Request_request_id := 0; Request_case := None; Request_unknown := [] |}).
  { destruct v as [x|]; [|done]. cbn [merge_all vs]. merge_step merge_Request. by rewrite Z.mod_small. }
  rewrite Hver. cbn [mbind option_bind]. rewrite merge_all_app.
  rewrite (merge_w_uint _ (fun y => {| Request_version := v; Request_request_id := y;
                                       Request_case := None; Request_unknown := [] |})); [|done|done].
  cbn [mbind option_bind]. destruct c as [x|]; [|done].
  destruct (put_operation_len x) as (n & b & Hp & _). cbn [cs] in *.
  assert (Hb : len b <= i32_max).
  { etrans; [|exact Hl]. eapply (put_fields_contents _ n). subst cs. rewrite Hp. set_solver. }
  destruct (operation_rt d x n b) as [Hn Hm]; [by split|done..|].
  subst cs. rewrite Hp. cbn [merge_all]. unfold merge_Request. msg_simp. rewrite Hm.
  assert (Hr : (10 <=? n) && (n <=? 19) = true) by (rewrite andb_true_iff, !Z.leb_le; lia). rewrite Hr.
  destruct n as [|n|n]; [lia| |lia]. by repeat (destruct n; try done; try lia).
Qed.

Lemma rt_Response d :
  rt put_Response merge_Response default_Response (S (S (S d))) (good typed_Response tree_Response).
Proof.
  intros [v i c u] [(Hv & Hi & Ht) Hc Hok] Hl. unfold tree_Response in *. tree_simp.
  destruct Hc as [-> Hc]. unfold put_Response in *. msg_simp. rewrite fmap_nil, app_nil_r in *.
  set (vs := match v with Some x => [(1, W_varint x)] | None => [] end) in *.
  set (cs := match c with Some x => [put_outcome x] | None => [] end) in *.
  assert (Hs : Forall raw_small (vs ++ w_uint 2 i ++ cs)).
  { rewrite !Forall_app. split_and!; [|by apply small_uint; [unfold number_ok; lia|]|].
    - destruct v as [x|]; [|constructor]. apply Forall_singleton. cbn in Hv.
      split; cbn [fst snd]; [lia|]. unfold in_u32, two32 in Hv. ulia.
    - destruct c as [x|]; [|constructor]. apply Forall_singleton.
      destruct (put_outcome_len x) as (n & b & -> & Hn). by split. }
  rewrite parse_put by done. rewrite merge_all_app.
  assert (Hver : merge_all (merge_Response (S (S (S d)))) default_Response vs
    = Some {| Response_version := v; Response_request_id := 0; Response_case := None; Response_unknown := [] |}).
  { destruct v as [x|]; [|done]. cbn [merge_all vs]. merge_step merge_Response. by rewrite Z.mod_small. }
  rewrite Hver. cbn [mbind option_bind]. rewrite merge_all_app.
  rewrite (merge_w_uint _ (fun y => {| Response_version := v; Response_request_id := y;
                                       Response_case := None; Response_unknown := [] |})); [|done|done].
  cbn [mbind option_bind]. destruct c as [x|]; [|done].
  destruct (put_outcome_len x) as (n & b & Hp & _).
  assert (Hb : len b <= i32_max).
  { etrans; [|exact Hl]. eapply (put_fields_contents _ n). subst cs. rewrite Hp. set_solver. }
  destruct (outcome_rt d x n b) as [Hn Hm]; [by split|done..|].
  subst cs. rewrite Hp. cbn [merge_all]. unfold merge_Response. msg_simp. rewrite Hm.
  assert (Hr : (10 <=? n) && (n <=? 17) = true) by (rewrite andb_true_iff, !Z.leb_le; lia). rewrite Hr.
  destruct n as [|n|n]; [lia| |lia]. by repeat (destruct n; try done; try lia).
Qed.
End roundtrips.

(** ** Parsed fields are in the range of their types *)
Definition raw_range (f : raw) : Prop :=
  match f.2 with
  | W_varint v | W_i64 v => 0 <= v < two64
  | _ => True
  end.

Lemma get_fields_range fuel g d b l r : get_fields fuel g d b = Some (l, r) -> Forall raw_range l.
Proof.
  revert g d b l r. induction fuel as [|fuel IH]; intros g d b l r Hg; [done|]. cbn [get_fields] in Hg.
  assert (Hmore : forall n w r1 l' r', raw_range (n, w) ->
    ('(k, r2) ← get_fields fuel g d r1; Some ((n, w) :: k, r2)) = Some (l', r') -> Forall raw_range l').
  { intros n w r1 l' r' Hw Hm. destruct (get_fields fuel g d r1) as [[k r2]|] eqn:E; [|done].
    injection Hm as <- <-. constructor; [done|]. by eapply IH. }
  destruct b as [|x b]; [destruct g; [done|]; by injection Hg as <- <-|].
  destruct (get_varint (x :: b)) as [[tag r0]|]; [|done]. cbn [mbind option_bind] in Hg. cbv zeta in Hg.
  destruct (_ || _); [done|].
  destruct (tag mod 8 =? 0).
  { destruct (get_varint r0) as [[v r1]|] eqn:Ev; [|done]. apply get_varint_range in Ev.
    cbn [mbind option_bind] in Hg. exact (Hmore (tag / 8) (W_varint v) r1 l r Ev Hg). }
  destruct (tag mod 8 =? 1).
  { destruct (len r0 <? 8) eqn:El; [done|]. bool_simp. eapply Hmore; [|exact Hg]. unfold raw_range. cbn [snd].
    pose proof (le_value_range (take 8 r0)) as Hr. rewrite len_take in Hr.
    replace (Z.of_nat 8 `min` len r0) with 8 in Hr by lia. exact Hr. }
  destruct (tag mod 8 =? 2).
  { destruct (get_varint r0) as [[v r1]|]; [|done]. cbn [mbind option_bind] in Hg.
    destruct (len r1 <? v); [done|]. eapply Hmore; [|exact Hg]. exact I. }
  destruct (tag mod 8 =? 3).
  { destruct d as [|d']; [done|]. destruct (get_fields fuel (Some (tag / 8)) d' r0) as [[k r1]|]; [|done].
    cbn [mbind option_bind] in Hg. eapply Hmore; [|exact Hg]. exact I. }
  destruct (tag mod 8 =? 4).
  { case_bool_decide; [|done]. by injection Hg as <- <-. }
  destruct (tag mod 8 =? 5); [|done]. destruct (len r0 <? 4); [done|].
  eapply Hmore; [|exact Hg]. exact I.
Qed.

(** Merging one field keeps the ranges. *)
Definition keeps {M} (merge : nat -> M -> raw -> option M) (typed : M -> Prop) : Prop :=
  forall d m f m', raw_range f -> typed m -> merge d m f = Some m' -> typed m'.

Lemma keeps_parse {M} (merge : nat -> M -> raw -> option M) typed d init b m :
  keeps merge typed -> typed init -> parse_msg merge d init b = Some m -> typed m.
Proof.
  intros Hk Hi Hp. unfold parse_msg in Hp.
  destruct (get_fields _ _ _ _) as [[l r]|] eqn:Eg; [|done]. cbn [mbind option_bind] in Hp.
  apply get_fields_range in Eg. revert init Hi Hp.
  induction Eg as [|f l Hf _ IH]; intros init Hi Hp; cbn [merge_all] in Hp; [by injection Hp as <-|].
  destruct (merge d init f) as [m1|] eqn:Em; [|done]. eapply IH; [|done]. by eapply Hk.
Qed.

Lemma keeps_sub {M} (merge : nat -> M -> raw -> option M) typed d init b m :
  keeps merge typed -> typed init -> parse_sub merge d init b = Some m -> typed m.
Proof. intros Hk Hi Hp. destruct d as [|d]; [done|]. by eapply keeps_parse. Qed.

Lemma mod_u32 v : in_u32 (v mod two32).
Proof. by apply Z.mod_pos_bound. Qed.

Lemma range_u64 v : 0 <= v < two64 -> in_u64 v.
Proof. ulia. Qed.

Lemma get_Value_typed o : from_option typed_Value True o -> typed_Value (get_Value o).
Proof. by destruct o. Qed.

(** Follow a reader through the field it was given. *)
Ltac field_cases Hm :=
  unfold mbind, option_bind in Hm;
  repeat match type of Hm with
  | context [match ?x with _ => _ end] => destruct x eqn:?; try discriminate Hm
  end;
  injection Hm as <-.
Tactic Notation "keeps_simple" reference(merge) reference(typed) :=
  intros d m [n w] m' Hr Ht Hm; unfold merge in Hm; cbv zeta in Hm; field_cases Hm;
  unfold typed, raw_range in *; msg_simp; cbn [snd] in *;
  destruct_and?; split_and?; try done;
  eauto using to_i32_range, mod_u32, range_u64, unzigzag_range.

Section ranges.
Context `{Utf8Ops}.

Lemma keeps_Value : keeps merge_Value typed_Value.
Proof. keeps_simple merge_Value typed_Value. Qed.

Lemma keeps_NamedValue : keeps merge_NamedValue typed_NamedValue.
Proof.
  keeps_simple merge_NamedValue typed_NamedValue.
  all: cbn [from_option]; eapply keeps_sub; [apply keeps_Value|by apply get_Value_typed|done].
Qed.

Lemma keeps_ValueRecord : keeps merge_ValueRecord typed_ValueRecord.
Proof.
  keeps_simple merge_ValueRecord typed_ValueRecord.
  all: cbn [from_option]; eapply keeps_sub; [apply keeps_Value|by apply get_Value_typed|done].
Qed.

Lemma keeps_Parameter : keeps merge_Parameter typed_Parameter.
Proof. keeps_simple merge_Parameter typed_Parameter. Qed.

Lemma keeps_Attribute : keeps merge_Attribute typed_Attribute.
Proof. keeps_simple merge_Attribute typed_Attribute. Qed.

(** Appending a parsed element to a repeated field. *)
Lemma keeps_snoc {M} (merge : nat -> M -> raw -> option M) typed d new b x l :
  keeps merge typed -> typed new -> parse_sub merge d new b = Some x -> Forall typed l ->
  Forall typed (l ++ [x]).
Proof.
  intros Hk Hn Hp Hl. apply Forall_app. split; [done|]. apply Forall_singleton. by eapply keeps_sub.
Qed.

Lemma new_Parameter_typed : typed_Parameter new_Parameter.
Proof. unfold typed_Parameter, in_i32. cbn. lia. Qed.
Lemma new_Attribute_typed : typed_Attribute new_Attribute.
Proof. unfold typed_Attribute, in_i32. cbn. lia. Qed.
Lemma new_Method_typed : typed_Method new_Method.
Proof. unfold typed_Method, in_i32. cbn. split; [lia|constructor]. Qed.
Lemma new_NamedValue_typed : typed_NamedValue new_NamedValue.
Proof. done. Qed.
Lemma new_ValueRecord_typed : typed_ValueRecord new_ValueRecord.
Proof. split; [cbn; ulia|done]. Qed.
#[local] Hint Resolve new_Parameter_typed new_Attribute_typed new_Method_typed new_NamedValue_typed
  new_ValueRecord_typed keeps_Parameter keeps_Attribute keeps_NamedValue keeps_ValueRecord
  keeps_snoc : small.

Lemma keeps_Method : keeps merge_Method typed_Method.
Proof. keeps_simple merge_Method typed_Method. all: eauto with small. Qed.
#[local] Hint Resolve keeps_Method : small.

Lemma keeps_ClassDescription : keeps merge_ClassDescription typed_ClassDescription.
Proof. keeps_simple merge_ClassDescription typed_ClassDescription. all: eauto with small. Qed.

Lemma keeps_ObjectSnapshot : keeps merge_ObjectSnapshot typed_ObjectSnapshot.
Proof. keeps_simple merge_ObjectSnapshot typed_ObjectSnapshot. all: eauto with small. Qed.

Lemma keeps_ListClasses : keeps merge_ListClasses (fun m => in_u32 (ListClasses_limit m)).
Proof. keeps_simple merge_ListClasses raw_range. Qed.
Lemma keeps_PutValue : keeps merge_PutValue (fun m => from_option typed_Value True (PutValue_value m)).
Proof.
  keeps_simple merge_PutValue raw_range.
  all: cbn [from_option]; eapply keeps_sub; [apply keeps_Value|by apply get_Value_typed|done].
Qed.
Lemma keeps_Id : keeps merge_Id (fun m => in_u64 (Id_id m)).
Proof. keeps_simple merge_Id raw_range. Qed.
Lemma keeps_ListValues :
  keeps merge_ListValues (fun m => in_u64 (ListValues_after m) /\ in_u32 (ListValues_limit m)).
Proof. keeps_simple merge_ListValues raw_range. Qed.
Lemma keeps_CreateObject : keeps merge_CreateObject (fun m => Forall typed_NamedValue (CreateObject_arguments m)).
Proof. keeps_simple merge_CreateObject raw_range. all: eauto with small. Qed.
Lemma keeps_GetAttribute : keeps merge_GetAttribute (fun m => in_u64 (GetAttribute_id m)).
Proof. keeps_simple merge_GetAttribute raw_range. Qed.
Lemma keeps_InvokeMethod :
  keeps merge_InvokeMethod
    (fun m => in_u64 (InvokeMethod_id m) /\ Forall typed_NamedValue (InvokeMethod_arguments m)).
Proof. keeps_simple merge_InvokeMethod raw_range. all: eauto with small. Qed.
Lemma keeps_ValuesPage :
  keeps merge_ValuesPage
    (fun m => in_u64 (ValuesPage_next m) /\ Forall typed_ValueRecord (ValuesPage_values m)).
Proof. keeps_simple merge_ValuesPage raw_range. all: eauto with small. Qed.
Lemma keeps_RemoteError : keeps merge_RemoteError (fun m => in_i32 (RemoteError_code m)).
Proof. keeps_simple merge_RemoteError raw_range. Qed.

Lemma zero_u64 : in_u64 0.
Proof. ulia. Qed.
Lemma zero_u32 : in_u32 0.
Proof. unfold in_u32, two32. lia. Qed.
Lemma zero_i32 : in_i32 0.
Proof. unfold in_i32. lia. Qed.

Lemma new_ClassDescription_typed : typed_ClassDescription new_ClassDescription.
Proof. repeat split; constructor. Qed.
Lemma new_ObjectSnapshot_typed : typed_ObjectSnapshot new_ObjectSnapshot.
Proof. split; [apply zero_u64|constructor]. Qed.

(** Where a oneof message starts from: the current case or a new message. *)
Ltac start_typed c :=
  destruct c as [[]|]; cbn in *;
  repeat match goal with H : _ /\ _ |- _ => destruct H | |- _ /\ _ => split end;
  try assumption; try (constructor; fail);
  try first [apply zero_u64 | apply zero_u32 | apply zero_i32 | apply new_ValueRecord_typed
             | apply new_ClassDescription_typed | apply new_ObjectSnapshot_typed]; auto.
Ltac case_typed Hm lem :=
  lazymatch type of Hm with
  | (_ <$> parse_sub ?merge ?d ?init ?b) = Some _ =>
      let x := fresh "x" in
      let E := fresh "E" in
      destruct (parse_sub merge d init b) as [x|] eqn:E; [|discriminate Hm]; injection Hm as <-;
      eapply (keeps_sub merge _ d init b x lem); [|exact E]
  end.

Ltac any_case_typed c Hm :=
  lazymatch type of Hm with
  | context [parse_sub merge_InvokeMethod] => case_typed Hm keeps_InvokeMethod; start_typed c
  | context [parse_sub merge_CreateObject] => case_typed Hm keeps_CreateObject; start_typed c
  | context [parse_sub merge_Id] => case_typed Hm keeps_Id; start_typed c
  | context [parse_sub merge_ListValues] => case_typed Hm keeps_ListValues; start_typed c
  | context [parse_sub merge_GetAttribute] => case_typed Hm keeps_GetAttribute; start_typed c
  | context [parse_sub merge_ListClasses] => case_typed Hm keeps_ListClasses; start_typed c
  | context [parse_sub merge_PutValue] => case_typed Hm keeps_PutValue; start_typed c
  | context [parse_sub merge_ClassDescription] => case_typed Hm keeps_ClassDescription; start_typed c
  | context [parse_sub merge_ValuesPage] => case_typed Hm keeps_ValuesPage; start_typed c
  | context [parse_sub merge_RemoteError] => case_typed Hm keeps_RemoteError; start_typed c
  | context [parse_sub merge_ObjectSnapshot] => case_typed Hm keeps_ObjectSnapshot; start_typed c
  | context [parse_sub merge_ValueRecord] => case_typed Hm keeps_ValueRecord; start_typed c
  | context [parse_sub merge_Value] => case_typed Hm keeps_Value; start_typed c
  | context [parse_sub ?m ?d ?i ?b] =>
      destruct (parse_sub m d i b); [injection Hm as <-; exact I|discriminate Hm]
  end.

Lemma merge_operation_typed d c n b y :
  from_option typed_operation True c -> merge_operation d c n b = Some y -> typed_operation y.
Proof.
  intros Hc Hm. unfold merge_operation in Hm.
  destruct n as [|n|n]; try discriminate Hm.
  repeat (destruct n as [n|n|]; try discriminate Hm).
  all: any_case_typed c Hm.
Qed.

Lemma merge_outcome_typed d c n b y :
  from_option typed_outcome True c -> merge_outcome d c n b = Some y -> typed_outcome y.
Proof.
  intros Hc Hm. unfold merge_outcome in Hm.
  destruct n as [|n|n]; try discriminate Hm.
  repeat (destruct n as [n|n|]; try discriminate Hm).
  all: any_case_typed c Hm.
Qed.

Lemma keeps_Request : keeps merge_Request typed_Request.
Proof.
  intros d [v i c u] [n w] m' Hr (Hv & Hi & Ht) Hm. cbn in Hv, Hi, Ht.
  unfold merge_Request in Hm. cbn [Request_version Request_request_id Request_case Request_unknown] in Hm.
  assert (Hlen : forall b, w = W_len b ->
    (if (10 <=? n) && (n <=? 19)
     then y ← merge_operation d c n b;
          Some {| Request_version := v; Request_request_id := i; Request_case := Some y; Request_unknown := u |}
     else Some {| Request_version := v; Request_request_id := i; Request_case := c;
                  Request_unknown := u ++ [unknown (n, w)] |}) = Some m' -> typed_Request m').
  { intros b _ Hb. destruct (_ && _); [|by injection Hb as <-].
    destruct (merge_operation d c n b) as [y|] eqn:Ey; [|done]. injection Hb as <-.
    split; [done|]. split; [done|]. by eapply merge_operation_typed. }
  destruct w as [x|x|b|l|x]; [|by destruct n as [|[[]|[]|]|]; injection Hm as <-| |by destruct n as [|[[]|[]|]|]; injection Hm as <-
                             |by destruct n as [|[[]|[]|]|]; injection Hm as <-].
  - destruct n as [|[p|[p|p|]|]|p]; injection Hm as <-; try done.
    + split; [done|]. split; [by apply range_u64|done].
    + split; [apply mod_u32|done].
  - apply (Hlen b eq_refl). by destruct n as [|[[]|[]|]|].
Qed.

Lemma keeps_Response : keeps merge_Response typed_Response.
Proof.
  intros d [v i c u] [n w] m' Hr (Hv & Hi & Ht) Hm. cbn in Hv, Hi, Ht.
  unfold merge_Response in Hm. cbn [Response_version Response_request_id Response_case Response_unknown] in Hm.
  assert (Hlen : forall b, w = W_len b ->
    (if (10 <=? n) && (n <=? 17)
     then y ← merge_outcome d c n b;
          Some {| Response_version := v; Response_request_id := i; Response_case := Some y; Response_unknown := u |}
     else Some {| Response_version := v; Response_request_id := i; Response_case := c;
                  Response_unknown := u ++ [unknown (n, w)] |}) = Some m' -> typed_Response m').
  { intros b _ Hb. destruct (_ && _); [|by injection Hb as <-].
    destruct (merge_outcome d c n b) as [y|] eqn:Ey; [|done]. injection Hb as <-.
    split; [done|]. split; [done|]. by eapply merge_outcome_typed. }
  destruct w as [x|x|b|l|x]; [|by destruct n as [|[[]|[]|]|]; injection Hm as <-| |by destruct n as [|[[]|[]|]|]; injection Hm as <-
                             |by destruct n as [|[[]|[]|]|]; injection Hm as <-].
  - destruct n as [|[p|[p|p|]|]|p]; injection Hm as <-; try done.
    + split; [done|]. split; [by apply range_u64|done].
    + split; [apply mod_u32|done].
  - apply (Hlen b eq_refl). by destruct n as [|[[]|[]|]|].
Qed.
End ranges.

(** ** The laws of the codec's Protobuf hold of the wire format *)
Section laws.
Context `{Utf8Laws}.

Lemma recursion_nat d : schema_depth <= d -> exists k, Z.to_nat d = S (S (S k)).
Proof. unfold schema_depth. intros Hd. exists (Z.to_nat (d - 3)). lia. Qed.

Lemma default_Request_typed : typed_Request default_Request.
Proof. split; [exact I|]. split; [apply zero_u64|exact I]. Qed.
Lemma default_Response_typed : typed_Response default_Response.
Proof. split; [exact I|]. split; [apply zero_u64|exact I]. Qed.

Lemma wire_laws : @ProtobufLaws H wire_protobuf.
Proof.
  split; cbn [parse_Request size_Request serialize_Request parse_Response size_Response
              serialize_Response wire_protobuf].
  - intros m _. by eexists.
  - intros m b total d Ht Hc Hok [= <-] Hb Hd. rewrite (proj2 (Z.ltb_ge _ _)) by lia.
    destruct (recursion_nat d Hd) as [k ->]. apply (rt_Request k m); [by split|lia].
  - intros total d Ht. rewrite (proj2 (Z.ltb_ge _ _)) by done. reflexivity.
  - intros total d b m Hm. destruct (_ <? _); [done|].
    exact (keeps_parse _ _ _ _ _ _ keeps_Request default_Request_typed Hm).
  - intros m _. by eexists.
  - intros m b total d Ht Hc Hok [= <-] Hb Hd. rewrite (proj2 (Z.ltb_ge _ _)) by lia.
    destruct (recursion_nat d Hd) as [k ->]. apply (rt_Response k m); [by split|lia].
  - intros total d Ht. rewrite (proj2 (Z.ltb_ge _ _)) by done. reflexivity.
  - intros total d b m Hm. destruct (_ <? _); [done|].
    exact (keeps_parse _ _ _ _ _ _ keeps_Response default_Response_typed Hm).
Qed.
End laws.
