(* ===== verification/CodecDemo.v ===== *)
(** * The codec on concrete messages

    The properties of CodecSpec.v at the reference UTF-8 validator and the reference
    wire format, whose laws are proved in Utf8.v and WireProofs.v. *)
From stdpp Require Import prelude gmap strings.
From Stdlib Require Import ZArith Lia Strings.Byte.
From S2P Require Import Prelude Utf8 Contracts Validation Framing Messages Codec CodecProofs CodecSpec Wire WireProofs.

Module CodecDemo.
#[local] Existing Instance utf8_reference.
#[local] Existing Instance utf8_reference_laws.
#[local] Existing Instance wire_protobuf.
#[local] Existing Instance wire_laws.

Definition invoke : request :=
  {| req_id := 300; req_version := 1;
     req_body := invoke_method 7 "increment" [{| nv_name := "delta"; nv_data := Integer (-5) |}] |}.
Definition page : response :=
  {| resp_id := 9; resp_version := 1;
     resp_body := o_values {| vp_values := [{| vr_id := 3; vr_data := Text "a" |};
                                            {| vr_id := 8; vr_data := Integer 42 |}]; vp_next := 8 |} |}.

Definition payload (r : request) : bytes := match encode_request r with inl b => b | inr _ => [] end.
Definition answer (r : response) : bytes := match encode_response r with inl b => b | inr _ => [] end.

Example invoke_bytes :
  encode_request invoke
  = inl [x08; x01; x10; xac; x02; x9a; x01; x1a; x08; x07; x12; x09; x69; x6e; x63; x72; x65; x6d; x65;
         x6e; x74; x1a; x0b; x0a; x05; x64; x65; x6c; x74; x61; x12; x02; x10; x09].
Proof. vm_compute. reflexivity. Qed.

Lemma codec_roundtrip_witness :
  decode_request (payload invoke) = inl invoke /\ decode_response (answer page) = inl page.
Proof.
  destruct codec_roundtrip as [Hq Hs]. split.
  - apply (Hq invoke).
    + split; [unfold in_u32, two32; cbn; lia|]. split; [unfold in_u64, u64_max; cbn; lia|].
      cbn. split; [unfold in_u64, u64_max; lia|]. repeat constructor; unfold i64_min, i64_max; lia.
    + vm_compute. reflexivity.
  - apply (Hs page).
    + split; [unfold in_u32, two32; cbn; lia|]. split; [unfold in_u64, u64_max; cbn; lia|].
      cbn. split; [unfold in_u64, u64_max; lia|].
      repeat constructor; unfold u64_max, i64_min, i64_max; cbn; lia.
    + vm_compute. reflexivity.
Defined.

Lemma decode_sound_witness :
  (request_valid invoke /\ operation_in_range (req_body invoke)) /\ (response_valid page /\ outcome_in_range (resp_body page)).
Proof.
  split.
  - destruct (decode_sound (payload invoke)) as [Hq _].
    destruct (Hq invoke) as (Hv & Hr & _); [vm_compute; reflexivity|]. split; [exact Hv|exact Hr].
  - destruct (decode_sound (answer page)) as [_ Hs].
    destruct (Hs page) as (Hv & Hr & _); [vm_compute; reflexivity|]. split; [exact Hv|exact Hr].
Defined.

Lemma encode_exact_witness :
  (request_valid invoke /\ len (payload invoke) = size_Request (request_message invoke)
   /\ len (payload invoke) <= max_payload_bytes)
  /\ encode_response {| resp_id := 0; resp_version := 1; resp_body := o_released |}
     = inr (fatal fc_invalid_fields).
Proof.
  split; [|vm_compute; reflexivity].
  assert (He : encode_request invoke = inl (payload invoke)) by (vm_compute; reflexivity).
  pose proof (proj1 (encode_exact invoke page)) as Hx. rewrite He in Hx. exact Hx.
Defined.

(** Request 5 without an operation: recoverable, under its own identifier; the same
    envelope with identifier zero ends the session. *)
Lemma decode_failure_classified_witness :
  let f := recoverable fc_invalid_fields 5 in
  (decode_request [x08; x01; x10; x05] = inr f /\ failure_classified (inr 5) f)
  /\ decode_response [x08; x01; x10; x00] = inr (fatal fc_invalid_fields)
  /\ failure_classified (inl fc_invalid_fields) (fatal fc_invalid_fields).
Proof.
  intros f. assert (Hd : decode_request [x08; x01; x10; x05] = inr f) by (vm_compute; reflexivity).
  assert (Hr : decode_response [x08; x01; x10; x00] = inr (fatal fc_invalid_fields)) by (vm_compute; reflexivity).
  split; [split; [exact Hd|]|split; [exact Hr|]].
  - exact (proj1 (decode_failure_classified _ f) Hd).
  - exact (proj2 (decode_failure_classified _ _) Hr).
Defined.
End CodecDemo.
