(* ===== verification/Sizes.v ===== *)
(** * How large an encoded response can be

    The published encoding spends at most ten bytes on a tag and at most ten on a
    length or a varint, so a field takes at most twenty bytes more than its contents.
    [bound_Response] adds this up over a message without unknown fields; that
    [ByteSizeLong] stays within it is the law [ProtobufSizes], proved here of the
    reference wire format.  A set field is encoded, so an envelope with an identifier is
    never empty. *)
From stdpp Require Import prelude gmap strings.
From Stdlib Require Import ZArith Lia Strings.Byte.
From S2P Require Import Prelude Utf8 Contracts Validation Framing Messages Codec CodecProofs CodecSpec Wire WireProofs.

Definition overhead : Z := 20.
Definition bound_string (s : string) : Z := overhead + strlen s.

Definition bound_Value (m : pb_Value) : Z :=
  match Value_case m with Some (kText s) => bound_string s | Some _ => overhead | None => 0 end.
Definition bound_field {M} (bound : M -> Z) (o : option M) : Z :=
  match o with Some m => overhead + bound m | None => 0 end.
Definition bound_fields {M} (bound : M -> Z) (l : list M) : Z := zsum (fun m => overhead + bound m) l.

Definition bound_NamedValue (m : pb_NamedValue) : Z :=
  bound_string (NamedValue_name m) + bound_field bound_Value (NamedValue_value m).
Definition bound_ValueRecord (m : pb_ValueRecord) : Z :=
  overhead + bound_field bound_Value (ValueRecord_value m).
Definition bound_Parameter (m : pb_Parameter) : Z := bound_string (Parameter_name m) + overhead.
Definition bound_Attribute (m : pb_Attribute) : Z := bound_string (Attribute_name m) + 2 * overhead.
Definition bound_Method (m : pb_Method) : Z :=
  bound_string (Method_name m) + bound_fields bound_Parameter (Method_parameters m) + overhead.
Definition bound_ClassDescription (m : pb_ClassDescription) : Z :=
  bound_string (ClassDescription_name m)
  + bound_fields bound_Attribute (ClassDescription_attributes m)
  + bound_fields bound_Method (ClassDescription_methods m)
  + bound_fields bound_Parameter (ClassDescription_constructor_parameters m).
Definition bound_ObjectSnapshot (m : pb_ObjectSnapshot) : Z :=
  overhead + bound_string (ObjectSnapshot_class_name m)
  + bound_fields bound_NamedValue (ObjectSnapshot_state m).

Definition bound_outcome (o : Response_outcome) : Z :=
  match o with
  | kClasses m => zsum bound_string (ClassesPage_names m) + bound_string (ClassesPage_next m)
  | kDescription m => bound_ClassDescription m
  | kValueRecord m => bound_ValueRecord m
  | kValues m => bound_fields bound_ValueRecord (ValuesPage_values m) + overhead
  | kObject m => bound_ObjectSnapshot m
  | kReleased _ => 0
  | kValue m => bound_Value m
  | kError m => overhead + bound_string (RemoteError_message m)
  end.
Definition bound_Response (m : pb_Response) : Z := 2 * overhead + bound_field bound_outcome (Response_case m).

Class ProtobufSizes `{Protobuf} : Prop := {
  Response_size m : node_clean (tree_Response m) -> size_Response m <= bound_Response m;
  Response_nonempty m : Response_request_id m <> 0 -> 0 < size_Response m;
}.

(** ** The reference wire format *)
Definition raw_bound (f : raw) : Z := match f.2 with W_len b => overhead + len b | _ => overhead end.
Definition plain (f : raw) : Prop := match f.2 with W_group _ => False | _ => True end.

Lemma enc_varint_length fuel n : (length (enc_varint fuel n) <= fuel)%nat.
Proof.
  revert n. induction fuel as [|fuel IH]; intros n; cbn [enc_varint]; [done|].
  destruct (_ <? _); cbn [length]; [lia|]. specialize (IH (n / 128)). lia.
Qed.

Lemma put_varint_length n : len (put_varint n) <= 10.
Proof. pose proof (enc_varint_length 10 n). unfold put_varint, len. lia. Qed.

Lemma le_bytes_len n v : len (le_bytes n v) = Z.of_nat n.
Proof. unfold len. by rewrite le_bytes_length. Qed.

Lemma put_field_bound f : plain f -> len (put_field f) <= raw_bound f.
Proof.
  destruct f as [n w]. unfold plain, put_field, raw_bound, put_tag, overhead. cbn [fst snd].
  destruct w as [v|v|b|l|v]; intros Hp; try done; cbn [put_wire]; unfold put_tag;
    rewrite ?len_app, ?le_bytes_len.
  - pose proof (put_varint_length (n * 8 + 0)). pose proof (put_varint_length v). lia.
  - pose proof (put_varint_length (n * 8 + 1)). lia.
  - pose proof (put_varint_length (n * 8 + 2)). pose proof (put_varint_length (len b)). lia.
  - pose proof (put_varint_length (n * 8 + 5)). lia.
Qed.

Lemma put_fields_bound l c : Forall plain l -> zsum raw_bound l <= c -> len (put_fields l) <= c.
Proof.
  intros Hl Hc. etrans; [|exact Hc]. clear Hc. induction Hl as [|f l Hf _ IH]; [done|].
  cbn [put_fields zsum]. rewrite len_app. pose proof (put_field_bound f Hf). lia.
Qed.

Lemma of_str_len s : len (of_str s) = strlen s.
Proof.
  unfold len, strlen, Stdlib.Strings.String.list_byte_of_string. rewrite List.length_map. f_equal.
  induction s as [|c s IH]; [done|]. cbn [Stdlib.Strings.String.list_ascii_of_string length String.length].
  by rewrite IH.
Qed.

(** A group of written fields, with what they take at most. *)
Definition takes (l : list raw) (c : Z) : Prop := Forall plain l /\ zsum raw_bound l <= c.

Lemma takes_put l c : takes l c -> len (put_fields l) <= c.
Proof. intros [Hl Hc]. by apply put_fields_bound. Qed.
Lemma takes_app l1 l2 c1 c2 : takes l1 c1 -> takes l2 c2 -> takes (l1 ++ l2) (c1 + c2).
Proof. intros [H1 ?] [H2 ?]. split; [by apply Forall_app|]. rewrite zsum_app. lia. Qed.
Lemma takes_string n s : takes (w_string n s) (bound_string s).
Proof.
  unfold w_string, bound_string, overhead. case_bool_decide as E.
  - subst s. split; [constructor|done].
  - split; [by apply Forall_singleton|]. cbn [zsum]. unfold raw_bound, overhead. cbn [snd].
    rewrite of_str_len. lia.
Qed.
Lemma takes_strings n l : takes (w_strings n l) (zsum bound_string l).
Proof.
  unfold w_strings, bound_string, overhead. induction l as [|s l [IH1 IH2]]; [split; [constructor|done]|].
  rewrite fmap_cons. split; [by constructor|]. cbn [zsum]. unfold raw_bound at 1, overhead. cbn [snd].
  rewrite of_str_len. lia.
Qed.
Lemma takes_one n w : plain (n, w) -> takes [(n, w)] (raw_bound (n, w)).
Proof. intros Hp. split; [by apply Forall_singleton|]. cbn [zsum]. lia. Qed.
Lemma takes_uint n v : takes (w_uint n v) overhead.
Proof. unfold w_uint. destruct (_ =? _); [split; [constructor|done]|]. by apply takes_one. Qed.
Lemma takes_enum n v : takes (w_enum n v) overhead.
Proof. unfold w_enum. destruct (_ =? _); [split; [constructor|done]|]. by apply takes_one. Qed.
Lemma takes_bool n v : takes (w_bool n v) overhead.
Proof. unfold w_bool. destruct v; [|split; [constructor|done]]. by apply takes_one. Qed.
Lemma takes_none : takes [] 0.
Proof. split; [constructor|done]. Qed.
Lemma takes_le l c c' : takes l c -> c <= c' -> takes l c'.
Proof. intros [? ?] ?. split; [done|lia]. Qed.

(** A message without unknown fields is encoded within its bound. *)
Definition fits {M} (put : M -> bytes) (bound : M -> Z) (tree : M -> node) : Prop :=
  forall m, node_clean (tree m) -> len (put m) <= bound m.

Lemma takes_message {M} n (put : M -> bytes) bound tree o :
  fits put bound tree -> from_option node_clean True (tree <$> o) ->
  takes (w_message n put o) (bound_field bound o).
Proof.
  intros Hf Hc. destruct o as [m|]; [|apply takes_none]. eapply takes_le; [by apply takes_one|].
  unfold raw_bound. cbn. specialize (Hf m Hc). lia.
Qed.
Lemma takes_messages {M} n (put : M -> bytes) bound tree l :
  fits put bound tree -> Forall node_clean (tree <$> l) ->
  takes (w_messages n put l) (bound_fields bound l).
Proof.
  intros Hf Hc. induction l as [|m l IH]; [apply takes_none|]. rewrite fmap_cons in Hc.
  apply Forall_cons in Hc as [Hm Hc]. specialize (IH Hc).
  unfold w_messages, bound_fields. rewrite fmap_cons. cbn [zsum].
  apply (takes_app [_]); [|exact IH]. eapply takes_le; [by apply takes_one|].
  unfold raw_bound. cbn. specialize (Hf m Hm). lia.
Qed.

Section wire.
Context `{Utf8Ops}.

Ltac fits_open Hc :=
  tree_simp; destruct Hc as [-> Hc]; msg_simp; rewrite fmap_nil, app_nil_r; apply takes_put;
  repeat match type of Hc with True /\ _ => destruct Hc as [_ Hc] | _ /\ True => destruct Hc as [Hc _] end.

Lemma fits_Value : fits put_Value bound_Value tree_Value.
Proof.
  intros [c u] Hc. unfold tree_Value in Hc. unfold put_Value, bound_Value. fits_open Hc.
  destruct c as [[t|n|b]|]; [|by apply takes_one..|apply takes_none].
  eapply takes_le; [by apply takes_one|]. unfold raw_bound, bound_string. cbn [snd].
  rewrite of_str_len. done.
Qed.

Lemma fits_NamedValue : fits put_NamedValue bound_NamedValue tree_NamedValue.
Proof.
  intros [n v u] Hc. unfold tree_NamedValue in Hc. unfold put_NamedValue, bound_NamedValue. fits_open Hc.
  apply takes_app; [apply takes_string|]. by eapply takes_message; [apply fits_Value|].
Qed.

Lemma fits_ValueRecord : fits put_ValueRecord bound_ValueRecord tree_ValueRecord.
Proof.
  intros [n v u] Hc. unfold tree_ValueRecord in Hc. unfold put_ValueRecord, bound_ValueRecord. fits_open Hc.
  apply takes_app; [apply takes_uint|]. by eapply takes_message; [apply fits_Value|].
Qed.

Lemma fits_Parameter : fits put_Parameter bound_Parameter tree_Parameter.
Proof.
  intros [n k u] Hc. unfold tree_Parameter in Hc. unfold put_Parameter, bound_Parameter. fits_open Hc.
  apply takes_app; [apply takes_string|apply takes_enum].
Qed.

Lemma fits_Attribute : fits put_Attribute bound_Attribute tree_Attribute.
Proof.
  intros [n k r u] Hc. unfold tree_Attribute in Hc. unfold put_Attribute, bound_Attribute. fits_open Hc.
  apply takes_app; [apply takes_string|]. apply (takes_app _ _ overhead overhead); [apply takes_enum|apply takes_bool].
Qed.

Lemma fits_Method : fits put_Method bound_Method tree_Method.
Proof.
  intros [n ps k u] Hc. unfold tree_Method in Hc. unfold put_Method, bound_Method. fits_open Hc.
  rewrite <- Z.add_assoc. apply takes_app; [apply takes_string|].
  apply takes_app; [|apply takes_enum]. by eapply takes_messages; [apply fits_Parameter|].
Qed.

Lemma fits_ClassDescription : fits put_ClassDescription bound_ClassDescription tree_ClassDescription.
Proof.
  intros [n al ms cs u] Hc. unfold tree_ClassDescription in Hc.
  unfold put_ClassDescription, bound_ClassDescription. fits_open Hc. destruct Hc as (Ha & Hm & Hp).
  rewrite <- !Z.add_assoc. apply takes_app; [apply takes_string|].
  apply takes_app; [by eapply takes_messages; [apply fits_Attribute|]|].
  apply takes_app; [by eapply takes_messages; [apply fits_Method|]|].
  by eapply takes_messages; [apply fits_Parameter|].
Qed.

Lemma fits_ObjectSnapshot : fits put_ObjectSnapshot bound_ObjectSnapshot tree_ObjectSnapshot.
Proof.
  intros [i n l u] Hc. unfold tree_ObjectSnapshot in Hc.
  unfold put_ObjectSnapshot, bound_ObjectSnapshot. fits_open Hc.
  rewrite <- !Z.add_assoc. apply takes_app; [apply takes_uint|]. apply takes_app; [apply takes_string|].
  by eapply takes_messages; [apply fits_NamedValue|].
Qed.

Lemma outcome_takes c : node_clean (tree_outcome c) -> takes [put_outcome c] (overhead + bound_outcome c).
Proof.
  assert (Hone : forall n b k, len b <= k -> takes [(n, W_len b)] (overhead + k)).
  { intros n b k Hk. eapply takes_le; [by apply takes_one|]. unfold raw_bound. cbn [snd]. lia. }
  intros Hc. destruct c as [m|m|m|m|m|m|m|m]; cbn [put_outcome bound_outcome tree_outcome] in *; apply Hone.
  - destruct m as [l n u]. unfold put_ClassesPage. fits_open Hc.
    apply takes_app; [apply takes_strings|apply takes_string].
  - by apply fits_ClassDescription.
  - by apply fits_ValueRecord.
  - destruct m as [l n u]. unfold put_ValuesPage. fits_open Hc.
    apply takes_app; [by eapply takes_messages; [apply fits_ValueRecord|]|apply takes_uint].
  - by apply fits_ObjectSnapshot.
  - destruct m as [u]. unfold put_Released. tree_simp. by destruct Hc as [-> _].
  - by apply fits_Value.
  - destruct m as [k t u]. unfold put_RemoteError. fits_open Hc.
    apply takes_app; [apply takes_enum|apply takes_string].
Qed.

Lemma wire_sizes : @ProtobufSizes wire_protobuf.
Proof.
  split.
  - intros [v i c u] Hc. unfold tree_Response in Hc. cbn [size_Response wire_protobuf].
    unfold put_Response, bound_Response. fits_open Hc.
    replace (2 * overhead) with (overhead + overhead) by done. rewrite <- !Z.add_assoc.
    apply takes_app; [destruct v as [v|]; [by apply takes_one|by eapply takes_le; [apply takes_none|]]|].
    apply takes_app; [apply takes_uint|]. destruct c as [c|]; [|apply takes_none].
    by apply outcome_takes.
  - intros m Hid. cbn [size_Response wire_protobuf]. unfold put_Response, w_uint.
    rewrite (proj2 (Z.eqb_neq _ 0)) by done. set (l := _ ++ _).
    unfold len. apply (Nat2Z.inj_lt 0). eapply Nat.lt_le_trans; [|exact (put_fields_length l)].
    subst l. destruct (Response_version m); apply Nat.lt_0_succ.
Qed.
End wire.
