(* ===== verification/Json.v ===== *)
(** * JSON texts

    The diagnostics write one JSON document piece by piece: the header, one serialized
    event per line and the footer.  This file holds the values that are serialized, the
    grammar of JSON texts (RFC 8259) over byte strings, and the interface of the
    serializer, [nlohmann::json::dump], which is not part of the repository: what the
    code relies on is that its result is a JSON text ([JsonLaws]).  The printer at the end
    is an instance. *)
From stdpp Require Import prelude strings pretty.
From Stdlib Require Import Ascii ZArith Lia.
From S2P Require Import Prelude.

Inductive json :=
  | jnum (z : Z)
  | jstr (s : string)
  | jobj (fields : list (string * json)).

(** A string of one quotation mark. *)
Definition dq : string := String "034" "".
Definition quoted (s : string) : string := dq +:+ s +:+ dq.

(** ** The grammar *)
Definition ws_char (c : ascii) : bool :=
  let n := char_code c in (n =? 32) || (n =? 9) || (n =? 10) || (n =? 13).
Definition digit_char (c : ascii) : bool := (48 <=? char_code c) && (char_code c <=? 57).
(** A byte that may stand for itself inside a string. *)
Definition plain_char (c : ascii) : bool :=
  let n := char_code c in (32 <=? n) && negb (n =? 34) && negb (n =? 92).
(** A byte that may follow a reverse solidus. *)
Definition escape_char (c : ascii) : bool :=
  let n := char_code c in
  (n =? 34) || (n =? 92) || (n =? 47) || (n =? 98) || (n =? 102) || (n =? 110) || (n =? 114) || (n =? 116).
Definition hex_char (c : ascii) : bool :=
  let n := char_code c in
  ((48 <=? n) && (n <=? 57)) || ((65 <=? n) && (n <=? 70)) || ((97 <=? n) && (n <=? 102)).

Inductive string_body : string -> Prop :=
  | body_nil : string_body ""
  | body_plain c s : plain_char c = true -> string_body s -> string_body (String c s)
  | body_escape c s : escape_char c = true -> string_body s -> string_body (String "092" (String c s))
  | body_hex a b c d s :
      hex_char a = true -> hex_char b = true -> hex_char c = true -> hex_char d = true -> string_body s ->
      string_body (String "092" (String "117" (String a (String b (String c (String d s)))))).

(** An unsigned integer: one zero, or digits that do not begin with one. *)
Definition digits (s : string) : Prop :=
  s <> "" /\ str_forallb digit_char s = true /\ (s = "0" \/ forall t, s <> String "048" t).

(** [elements] and [members] are what stands between the brackets and between the
    braces; fractions, exponents, [true], [false] and [null] do not occur. *)
Inductive json_text : string -> Prop :=
  | text_ws w s w' :
      str_forallb ws_char w = true -> str_forallb ws_char w' = true -> json_text s ->
      json_text (w +:+ s +:+ w')
  | text_digits s : digits s -> json_text s
  | text_negative s : digits s -> json_text ("-" +:+ s)
  | text_string s : string_body s -> json_text (quoted s)
  | text_array s : elements s -> json_text ("[" +:+ s +:+ "]")
  | text_object s : members s -> json_text ("{" +:+ s +:+ "}")
with elements : string -> Prop :=
  | elements_none w : str_forallb ws_char w = true -> elements w
  | elements_some s : element_list s -> elements s
with element_list : string -> Prop :=
  | element_one s : json_text s -> element_list s
  | element_more s t : json_text s -> element_list t -> element_list (s +:+ "," +:+ t)
with members : string -> Prop :=
  | members_none w : str_forallb ws_char w = true -> members w
  | members_some s : member_list s -> members s
with member_list : string -> Prop :=
  | member_one k v : string_body k -> json_text v -> member_list (quoted k +:+ ":" +:+ v)
  | member_more k v t :
      string_body k -> json_text v -> member_list t -> member_list (quoted k +:+ ":" +:+ v +:+ "," +:+ t).

Lemma plain_body s : str_forallb plain_char s = true -> string_body s.
Proof.
  induction s as [|c s IH]; [constructor|]. cbn. intros [Hc Hs]%andb_prop. constructor; auto.
Qed.

(** ** The serializer *)
Class Json := { dump : json -> string }.
Class JsonLaws `{Json} : Prop := { dump_text j : json_text (dump j) }.

(** ** A reference printer

    Compact; a byte that cannot stand in a string is replaced by a question mark. *)
Fixpoint escape (s : string) : string :=
  match s with
  | "" => ""
  | String c s' => String (if plain_char c then c else "063"%char) (escape s')
  end.

Definition print_integer (z : Z) : string :=
  if z <? 0 then "-" +:+ pretty (Z.to_N (- z)) else pretty (Z.to_N z).

Fixpoint print (j : json) : string :=
  match j with
  | jnum z => print_integer z
  | jstr s => quoted (escape s)
  | jobj fields =>
      "{" +:+ (fix go (l : list (string * json)) : string :=
                 match l with
                 | [] => ""
                 | [f] => quoted (escape f.1) +:+ ":" +:+ print f.2
                 | f :: rest => quoted (escape f.1) +:+ ":" +:+ print f.2 +:+ "," +:+ go rest
                 end) fields +:+ "}"
  end.

#[local] Instance json_reference : Json := {| dump := print |}.

Lemma escape_body s : string_body (escape s).
Proof.
  induction s as [|c s IH]; [constructor|]. cbn [escape]. constructor; [|done].
  by destruct (plain_char c) eqn:E.
Qed.

Lemma pretty_go_digits n s :
  str_forallb digit_char s = true -> str_forallb digit_char (pretty_N_go n s) = true.
Proof.
  revert s. induction (N.lt_wf_0 n) as [n _ IH]; intros s Hs.
  destruct (decide (n = 0)%N) as [->|Hn]; [by rewrite pretty_N_go_0|].
  rewrite pretty_N_go_step by lia. apply IH; [apply N.div_lt; lia|].
  cbn. rewrite Hs, andb_true_r. unfold pretty_N_char. repeat case_match; done.
Qed.

(** The last digit that [pretty] writes is the leading one. *)
Lemma pretty_go_lead n s : (0 < n)%N -> exists c t, pretty_N_go n s = String c t /\ c <> "048"%char.
Proof.
  revert s. induction (N.lt_wf_0 n) as [n _ IH]; intros s Hn.
  rewrite pretty_N_go_step by lia. destruct (decide (n / 10 = 0)%N) as [E|E].
  - rewrite E, pretty_N_go_0. eexists _, _. split; [done|]. apply N.div_small_iff in E; [|lia].
    rewrite N.mod_small by done. unfold pretty_N_char. repeat case_match; try done; lia.
  - apply IH; [apply N.div_lt; lia|]. by apply N.neq_0_lt_0.
Qed.

Lemma pretty_digits (n : N) : digits (pretty n).
Proof.
  unfold pretty, pretty_N. case_decide as E.
  { split; [done|]. split; [done|by left]. }
  destruct (pretty_go_lead n "") as (c & t & Hp & Hc); [lia|]. split; [by rewrite Hp|]. split.
  - by apply pretty_go_digits.
  - right. intros t'. rewrite Hp. by intros [= -> _].
Qed.

(** Induction over the values nested in an object. *)
Lemma json_nested (P : json -> Prop) :
  (forall z, P (jnum z)) -> (forall s, P (jstr s)) ->
  (forall fields, Forall (fun f => P f.2) fields -> P (jobj fields)) -> forall j, P j.
Proof.
  intros Hn Hs Ho. fix IH 1. intros [z|s|fields]; [apply Hn|apply Hs|]. apply Ho.
  induction fields as [|f fields IHl]; constructor; [apply IH|exact IHl].
Qed.

#[local] Instance json_reference_laws : JsonLaws.
Proof.
  split. intros j. induction j as [z|s|fields IH] using json_nested; cbn [dump json_reference print].
  - unfold print_integer. destruct (z <? 0); [apply text_negative|apply text_digits]; apply pretty_digits.
  - apply text_string, escape_body.
  - apply text_object. destruct fields as [|f fields]; [by apply members_none|]. apply members_some.
    revert f IH. induction fields as [|g fields IHl]; intros f [Hf Hr]%Forall_cons.
    + apply member_one; [apply escape_body|exact Hf].
    + apply (member_more _ (print f.2)); [apply escape_body|exact Hf|by apply IHl].
Qed.
