(* ===== verification/Diagnostics.v ===== *)
(** * Diagnostics (include/pipeforge/diagnostics.hpp, src/diagnostics/diagnostics.cpp)

    [diagnostic_state]: an optional log, an optional trace of profiling scopes, and the
    bookkeeping of the scopes that are open.  Every operation runs under the mutex of the
    state, so an operation is one step.  The spdlog sinks are two files of lines; a write
    or a flush that the sink reports as failed sets [failed_], and a line that was not
    written is not in the file.  What comes from the environment (whether a sink failed,
    the clock, the thread) is an argument.  Dereferencing the null [trace_] is [None]. *)
From stdpp Require Import prelude gmap strings pretty.
From Stdlib Require Import Ascii ZArith Lia.
From S2P Require Import Prelude Json.

Inductive log_level := level_debug | level_info | level_warning | level_error.

(** The levels of the logging library that the code uses. *)
Inductive native_log_level := spd_debug | spd_info | spd_warn | spd_err.
Definition native_level (level : log_level) : native_log_level :=
  match level with
  | level_debug => spd_debug
  | level_info => spd_info
  | level_warning => spd_warn
  | level_error => spd_err
  end.

Definition default_trace_event_limit : Z := 100000.
Definition trace_thread_limit : Z := 128.
Definition profile_name_bytes : nat := 256.

(** A path is its text; the empty one is not set. *)
Record diagnostic_options := {
  log_file : string;
  trace_file : string;
  trace_event_limit : Z;
}.

Definition default_diagnostics : diagnostic_options :=
  {| log_file := ""; trace_file := ""; trace_event_limit := default_trace_event_limit |}.

Definition path_empty (p : string) : bool := bool_decide (p = "").

(** ** Output paths

    [std::filesystem], [CompareStringOrdinal] ignoring case, and the constructors of the
    two sinks, which throw [spdlog_ex] with a text. *)
Class Filesystem := {
  fs_absolute (path : string) : option string;
  fs_weakly_canonical (path : string) : option string;
  fs_same_ordinal (a b : string) : bool;
  fs_equivalent (a b : string) : option bool;
  open_log_sink (path : string) : option string;
  open_trace_sink (path : string) : option string;
}.

(** The text of a [diagnostic_io_error]. *)
Definition canonical_output `{Filesystem} (path : string) : string + string :=
  match fs_absolute path with
  | None => inr "Cannot resolve diagnostic output path"
  | Some absolute =>
      match fs_weakly_canonical absolute with
      | None => inr "Cannot normalize diagnostic output path"
      | Some canonical => inl canonical
      end
  end.

Definition validate_paths `{Filesystem} (options : diagnostic_options) : option string :=
  if path_empty (log_file options) || path_empty (trace_file options) then None
  else
    match canonical_output (log_file options) with
    | inr error => Some error
    | inl log_path =>
        match canonical_output (trace_file options) with
        | inr error => Some error
        | inl trace_path =>
            let same_path := bool_decide (log_path = trace_path) || fs_same_ordinal log_path trace_path in
            let aliases := match fs_equivalent log_path trace_path with Some a => a | None => false end in
            if same_path || aliases then Some "Log and trace output must use different files" else None
        end
    end.

(** ** State

    [log_] and [trace_] say whether the logger exists; the lines stay in the files. *)
Record diagnostics := {
  failed_ : bool;
  log_ : bool;
  trace_ : bool;
  origin_ : Z;
  threads_ : gmap Z Z;
  event_limit_ : Z;
  active_ : Z;
  admitted_ : Z;
  dropped_ : Z;
  first_event_ : bool;
  trace_enabled_ : bool;
  closing_ : bool;
  log_lines : list (native_log_level * string);
  trace_lines : list string;
}.

Definition set_sinks (d : diagnostics) failed log trace : diagnostics := {|
  failed_ := failed; log_ := log; trace_ := trace; origin_ := origin_ d; threads_ := threads_ d;
  event_limit_ := event_limit_ d; active_ := active_ d; admitted_ := admitted_ d; dropped_ := dropped_ d;
  first_event_ := first_event_ d; trace_enabled_ := trace_enabled_ d; closing_ := closing_ d;
  log_lines := log_lines d; trace_lines := trace_lines d |}.
Definition set_counts (d : diagnostics) threads active admitted dropped : diagnostics := {|
  failed_ := failed_ d; log_ := log_ d; trace_ := trace_ d; origin_ := origin_ d; threads_ := threads;
  event_limit_ := event_limit_ d; active_ := active; admitted_ := admitted; dropped_ := dropped;
  first_event_ := first_event_ d; trace_enabled_ := trace_enabled_ d; closing_ := closing_ d;
  log_lines := log_lines d; trace_lines := trace_lines d |}.
Definition set_marks (d : diagnostics) first enabled closing : diagnostics := {|
  failed_ := failed_ d; log_ := log_ d; trace_ := trace_ d; origin_ := origin_ d; threads_ := threads_ d;
  event_limit_ := event_limit_ d; active_ := active_ d; admitted_ := admitted_ d; dropped_ := dropped_ d;
  first_event_ := first; trace_enabled_ := enabled; closing_ := closing;
  log_lines := log_lines d; trace_lines := trace_lines d |}.
Definition set_lines (d : diagnostics) failed log trace : diagnostics := {|
  failed_ := failed; log_ := log_ d; trace_ := trace_ d; origin_ := origin_ d; threads_ := threads_ d;
  event_limit_ := event_limit_ d; active_ := active_ d; admitted_ := admitted_ d; dropped_ := dropped_ d;
  first_event_ := first_event_ d; trace_enabled_ := trace_enabled_ d; closing_ := closing_ d;
  log_lines := log; trace_lines := trace |}.

(** One line of a sink; [ok] is whether the sink wrote it. *)
Definition write_log (d : diagnostics) (ok : bool) (line : native_log_level * string) : diagnostics :=
  if ok then set_lines d (failed_ d) (log_lines d ++ [line]) (trace_lines d)
  else set_lines d true (log_lines d) (trace_lines d).
Definition write_trace (d : diagnostics) (ok : bool) (line : string) : diagnostics :=
  if ok then set_lines d (failed_ d) (log_lines d) (trace_lines d ++ [line])
  else set_lines d true (log_lines d) (trace_lines d).

(** What the sinks report while an operation writes its event, its footer and flushes. *)
Record sink_io := { io_event : bool; io_footer : bool; io_trace_flush : bool; io_log_flush : bool }.
Definition io_ok : sink_io :=
  {| io_event := true; io_footer := true; io_trace_flush := true; io_log_flush := true |}.

(** ** The trace document *)
Definition trace_header : string := "{" +:+ quoted "traceEvents" +:+ ":[".
Definition trace_footer (metadata : string) : string :=
  "]," +:+ quoted "displayTimeUnit" +:+ ":" +:+ quoted "ms" +:+ "," +:+ quoted "otherData" +:+ ":"
  +:+ metadata +:+ "}".

Section diagnostics.
Context `{Json} (process_id : Z) (profiling_enabled : bool).

Definition process_event (application : string) : json :=
  jobj [("name", jstr "process_name"); ("ph", jstr "M"); ("pid", jnum process_id); ("tid", jnum 0);
        ("args", jobj [("name", jstr application)])].

Definition scope_event (name : string) (thread timestamp duration : Z) : json :=
  jobj [("name", jstr name); ("cat", jstr "pipeforge"); ("ph", jstr "X"); ("pid", jnum process_id);
        ("tid", jnum thread); ("ts", jnum timestamp); ("dur", jnum duration)].

Definition put_event (d : diagnostics) (ok : bool) (event : json) : diagnostics :=
  let line := (if first_event_ d then "" else ",") +:+ dump event in
  set_marks (write_trace d ok line) false (trace_enabled_ d) (closing_ d).

(** [write_event] dereferences [trace_]. *)
Definition write_event (d : diagnostics) (ok : bool) (event : json) : option diagnostics :=
  if trace_ d then Some (put_event d ok event) else None.

Definition finalize (d : diagnostics) (io : sink_io) : bool * diagnostics :=
  if negb (active_ d =? 0) then (false, d)
  else
    let d1 :=
      if trace_ d then
        let written := write_trace d (io_footer io) (trace_footer (dump (jobj [("droppedEvents", jnum (dropped_ d))]))) in
        set_sinks written (failed_ written || negb (io_trace_flush io)) (log_ d) false
      else d in
    let d2 := if log_ d1 then set_sinks d1 (failed_ d1 || negb (io_log_flush io)) false (trace_ d1) else d1 in
    (negb (failed_ d2), d2).

Definition log (d : diagnostics) (level : log_level) (message : string) (ok : bool) : diagnostics :=
  if log_ d && negb (closing_ d) then write_log d ok (native_level level, message) else d.

Definition tracing (d : diagnostics) : bool := trace_enabled_ d.
Definition failed (d : diagnostics) : bool := failed_ d.

Definition begin_scope (d : diagnostics) (identifier : Z) : option Z * diagnostics :=
  if negb (trace_ d) || closing_ d || failed_ d then (None, d)
  else if event_limit_ d <=? admitted_ d
  then (None, set_counts d (threads_ d) (active_ d) (admitted_ d) (dropped_ d ⊞ 1))
  else
    match threads_ d !! identifier with
    | Some thread => (Some thread, set_counts d (threads_ d) (active_ d ⊞ 1) (admitted_ d ⊞ 1) (dropped_ d))
    | None =>
        if trace_thread_limit <=? msize (threads_ d)
        then (None, set_counts d (threads_ d) (active_ d) (admitted_ d) (dropped_ d ⊞ 1))
        else
          let thread := msize (threads_ d) ⊞ 1 in
          (Some thread, set_counts d (<[identifier := thread]> (threads_ d)) (active_ d ⊞ 1) (admitted_ d ⊞ 1) (dropped_ d))
    end.

(** [duration_cast] from nanoseconds to microseconds truncates. *)
Definition microseconds (d : Z) : Z := Z.quot d 1000.

Definition end_scope (d : diagnostics) (name : string) (thread start stop : Z) (io : sink_io)
  : option (json * diagnostics) :=
  let event := scope_event name thread (microseconds (start - origin_ d)) (microseconds (stop - start)) in
  match write_event d (io_event io) event with
  | None => None
  | Some d1 =>
      let d2 := set_counts d1 (threads_ d1) (active_ d1 ⊟ 1) (admitted_ d1) (dropped_ d1) in
      Some (event, if closing_ d2 then (finalize d2 io).2 else d2)
  end.

Definition finish (d : diagnostics) (io : sink_io) : bool * diagnostics :=
  finalize (set_marks d (first_event_ d) (trace_enabled_ d) true) io.

(** The constructor: [header] and [event] are what the trace sink reports for its first
    two lines, which are written to the logger that was just made. *)
Definition open_diagnostics `{Filesystem} (application : string) (options : diagnostic_options)
    (clock : Z) (header event : bool) : diagnostics + string :=
  let d0 := {|
    failed_ := false; log_ := false; trace_ := false;
    origin_ := if profiling_enabled && negb (path_empty (trace_file options)) then clock else 0;
    threads_ := ∅; event_limit_ := trace_event_limit options; active_ := 0; admitted_ := 0; dropped_ := 0;
    first_event_ := true; trace_enabled_ := false; closing_ := false; log_lines := []; trace_lines := [] |} in
  match validate_paths options with
  | Some error => inr error
  | None =>
      match (if path_empty (log_file options) then None else open_log_sink (log_file options)) with
      | Some error => inr error
      | None =>
          let d1 := set_sinks d0 false (negb (path_empty (log_file options))) false in
          if profiling_enabled && negb (path_empty (trace_file options)) then
            match open_trace_sink (trace_file options) with
            | Some error => inr error
            | None =>
                let d2 := write_trace (set_sinks d1 false (log_ d1) true) header trace_header in
                let d3 := put_event d2 event (process_event application) in
                inl (set_marks d3 (first_event_ d3) true (closing_ d3))
            end
          else inl d1
      end
  end.

(** ** Sessions and scopes

    A session without output has no state.  [scopes] are the [profile_scope] objects
    that were admitted, by object; the other objects do nothing. *)
Record scope := { sc_name : string; sc_thread : Z; sc_start : Z }.
Record session_world := { state_ : option diagnostics; scopes : gmap Z scope }.

Definition open_diagnostic_session `{Filesystem} (application : string) (options : diagnostic_options)
    (clock : Z) (header event : bool) : session_world + string :=
  if path_empty (log_file options) && path_empty (trace_file options)
  then inl {| state_ := None; scopes := ∅ |}
  else
    match open_diagnostics application options clock header event with
    | inl d => inl {| state_ := Some d; scopes := ∅ |}
    | inr error => inr error
    end.

Definition session_log (w : session_world) (level : log_level) (message : string) (ok : bool) : session_world :=
  {| state_ := (fun d => log d level message ok) <$> state_ w; scopes := scopes w |}.

Definition session_finish (w : session_world) (io : sink_io) : bool * session_world :=
  match state_ w with
  | None => (true, w)
  | Some d => let '(r, d') := finish d io in (r, {| state_ := Some d'; scopes := scopes w |})
  end.

(** [~diagnostic_session]: the state lives on while scopes own it. *)
Definition destroy_session (w : session_world) (io : sink_io) : session_world :=
  match state_ w with None => w | Some _ => (session_finish w io).2 end.

Definition session_failed (w : session_world) : bool :=
  match state_ w with None => false | Some d => failed d end.

(** [profile_scope::profile_scope] of object [key] on thread [identifier]. *)
Definition open_scope (w : session_world) (key identifier : Z) (name : string) (clock : Z) : session_world :=
  match state_ w with
  | None => w
  | Some d =>
      if negb (tracing d) then w
      else
        let '(thread, d') := begin_scope d identifier in
        {| state_ := Some d';
           scopes :=
             match thread with
             | Some t =>
                 <[key := {| sc_name := String.substring 0 profile_name_bytes name; sc_thread := t;
                             sc_start := clock |}]> (scopes w)
             | None => scopes w
             end |}
  end.

(** [profile_scope::~profile_scope]; the event that was serialized. *)
Definition close_scope (w : session_world) (key stop : Z) (io : sink_io) : option (list json * session_world) :=
  match scopes w !! key, state_ w with
  | Some s, Some d =>
      match end_scope d (sc_name s) (sc_thread s) (sc_start s) stop io with
      | None => None
      | Some (event, d') => Some ([event], {| state_ := Some d'; scopes := delete key (scopes w) |})
      end
  | _, _ => Some ([], w)
  end.

Inductive d_event :=
  | de_log (level : log_level) (message : string) (ok : bool)
  | de_open (key identifier : Z) (name : string) (clock : Z)
  | de_close (key stop : Z) (io : sink_io)
  | de_finish (io : sink_io)
  | de_destroy (io : sink_io).

(** An object is constructed once before it is destroyed. *)
Definition d_allowed (w : session_world) (ev : d_event) : bool :=
  match ev with de_open key _ _ _ => negb (has_value (scopes w !! key)) | _ => true end.

Definition d_step (w : session_world) (ev : d_event) : option (list json * session_world) :=
  match ev with
  | de_log level message ok => Some ([], session_log w level message ok)
  | de_open key identifier name clock => Some ([], open_scope w key identifier name clock)
  | de_close key stop io => close_scope w key stop io
  | de_finish io => Some ([], (session_finish w io).2)
  | de_destroy io => Some ([], destroy_session w io)
  end.

(** The calls of a run and the events serialized along it; [None] is a null dereference. *)
Inductive d_run : session_world -> list d_event -> list json -> option session_world -> Prop :=
  | d_run_nil w : d_run w [] [] (Some w)
  | d_run_crash w ev evs : d_allowed w ev = true -> d_step w ev = None -> d_run w (ev :: evs) [] None
  | d_run_step w ev out w1 evs outs r :
      d_allowed w ev = true -> d_step w ev = Some (out, w1) -> d_run w1 evs outs r ->
      d_run w (ev :: evs) (out ++ outs) r.
End diagnostics.
