(* ===== verification/DiagnosticsProofs.v ===== *)
(** * What the diagnostics guarantee

    The invariant of the step system of Diagnostics.v: the counters agree with the open
    scopes and the events written, [trace_] is never dereferenced after its reset, and
    the trace file is at every moment a prefix of one JSON document, which the last scope
    or [finish] completes. *)
From stdpp Require Import prelude gmap strings pretty.
From Stdlib Require Import Ascii ZArith Lia.
From S2P Require Import Prelude Json Diagnostics.

(** ** The trace file *)
Section document.
Context `{Json}.

(** The lines of the events: all but the first begin with a comma. *)
Definition event_lines (events : list json) : list string :=
  match events with
  | [] => []
  | e :: rest => dump e :: ((fun x => "," +:+ dump x) <$> rest)
  end.

Definition footer_line (dropped : Z) : string := trace_footer (dump (jobj [("droppedEvents", jnum dropped)])).

Definition document (events : list json) (dropped : Z) : list string :=
  trace_header :: event_lines events ++ [footer_line dropped].

(** The bytes of a file of lines, each followed by [eol]. *)
Fixpoint file_text (eol : string) (lines : list string) : string :=
  match lines with [] => "" | line :: rest => line +:+ eol +:+ file_text eol rest end.

Lemma file_text_app eol l k : file_text eol (l ++ k) = file_text eol l +:+ file_text eol k.
Proof. induction l as [|x l IH]; [done|]. cbn [app file_text]. by rewrite IH, !str_app_assoc. Qed.

Context `{!JsonLaws} (eol : string) (eol_ws : str_forallb ws_char eol = true).

Lemma text_after s : json_text s -> json_text (s +:+ eol).
Proof. intros Hs. apply (text_ws "" s eol); done. Qed.

(** The lines of the events, one text per event, are what stands in the array. *)
Lemma event_lines_list rest : forall w e,
  str_forallb ws_char w = true -> element_list (w +:+ file_text eol (event_lines (e :: rest))).
Proof.
  induction rest as [|y rest IH]; intros w e Hw; cbn [event_lines fmap list_fmap file_text].
  - rewrite str_app_nil_r. by apply element_one, text_ws; [..|apply dump_text].
  - specialize (IH "" y eq_refl). cbn [event_lines file_text] in IH.
    rewrite (str_app_assoc "," (dump y)), <- (str_app_assoc (dump e) eol), <- (str_app_assoc w).
    apply element_more; [by apply text_ws; [..|apply dump_text]|exact IH].
Qed.

Lemma document_text e rest dropped : json_text (file_text eol (document (e :: rest) dropped)).
Proof.
  unfold document. cbn [file_text]. rewrite file_text_app.
  set (body := file_text eol (event_lines (e :: rest))).
  assert (Hb : elements (eol +:+ body)).
  { by apply elements_some, event_lines_list. }
  cbn [file_text]. unfold trace_header, footer_line, trace_footer.
  set (meta := dump _). assert (Hm : json_text meta) by apply dump_text.
  assert (Htail : member_list (quoted "displayTimeUnit" +:+ ":" +:+ quoted "ms" +:+ "," +:+ quoted "otherData" +:+ ":" +:+ meta)).
  { apply member_more; [by apply plain_body|by apply text_string, plain_body|].
    by apply member_one; [apply plain_body|]. }
  set (tail := quoted "displayTimeUnit" +:+ _) in Htail.
  assert (Hobj : json_text (("{" +:+ (quoted "traceEvents" +:+ ":" +:+ ("[" +:+ (eol +:+ body) +:+ "]") +:+ "," +:+ tail) +:+ "}") +:+ eol)).
  { apply text_after, text_object, members_some, member_more; [by apply plain_body|by apply text_array|done]. }
  unfold tail in Hobj. rewrite !str_app_assoc in *. rewrite str_app_nil_r. exact Hobj.
Qed.
End document.

(** ** The invariant *)
Section invariant.
Context `{Json} (process_id : Z) (application : string).

(** [out] are the events serialized for closed scopes. *)
Record d_core (d : diagnostics) (open : gmap Z scope) (out : list json) : Prop := {
  do_active : active_ d = msize open;
  do_admitted : admitted_ d = active_ d + len out;
  do_limit : admitted_ d <= event_limit_ d <= u64_max;
  do_scopes : open <> ∅ -> trace_ d = true;
  do_trace : trace_ d = true -> trace_enabled_ d = true;
  do_open : closing_ d = false -> trace_ d = trace_enabled_ d;
  do_first : trace_enabled_ d = true -> first_event_ d = false;
  do_untraced : trace_enabled_ d = false -> out = [];
  do_lines :
    trace_enabled_ d = true -> failed_ d = false ->
    trace_lines d = trace_header :: event_lines (process_event process_id application :: out)
                    ++ (if trace_ d then [] else [footer_line (dropped_ d)]);
  do_threads : msize (threads_ d) <= trace_thread_limit;
  do_thread i t : threads_ d !! i = Some t -> 1 <= t <= msize (threads_ d);
  do_distinct i j t : threads_ d !! i = Some t -> threads_ d !! j = Some t -> i = j;
  do_named key s :
    open !! key = Some s -> (String.length (sc_name s) <= profile_name_bytes)%nat
      /\ exists i, threads_ d !! i = Some (sc_thread s);
}.

(** Between operations, a closed session without scopes has released its sinks. *)
Definition d_ok (d : diagnostics) (open : gmap Z scope) (out : list json) : Prop :=
  d_core d open out /\ (closing_ d = true -> active_ d = 0 -> trace_ d = false /\ log_ d = false).

Definition w_ok (w : session_world) (out : list json) : Prop :=
  match state_ w with
  | None => scopes w = ∅ /\ out = []
  | Some d => d_ok d (scopes w) out
  end.

Lemma msize_zero {V} (m : gmap Z V) : msize m = 0 <-> m = ∅.
Proof. unfold msize. rewrite <- map_size_empty_iff. lia. Qed.

Lemma open_ok `{Filesystem} profiling options clock header event d :
  in_u64 (trace_event_limit options) ->
  open_diagnostics process_id profiling application options clock header event = inl d -> d_ok d ∅ [].
Proof.
  intros Hlim. unfold open_diagnostics. destruct (validate_paths options); [done|].
  destruct (if path_empty _ then _ else _); [done|].
  destruct (profiling && _).
  - destruct (open_trace_sink _); [done|]. intros [= <-]. unfold put_event, write_trace.
    split; [|by destruct header, event]. destruct header, event; split; cbn; try done;
      try (intros; rewrite ?lookup_empty in *; done); unfold in_u64 in Hlim; lia.
  - intros [= <-]. split; [|done]. split; cbn; try done; try (intros; rewrite ?lookup_empty in *; done).
Qed.

(** *** Operations *)
Lemma finalize_active d io : active_ d <> 0 -> finalize d io = (false, d).
Proof. intros Hn. unfold finalize. by rewrite (proj2 (Z.eqb_neq _ 0)). Qed.

Lemma finalize_ok d open out io : d_core d open out -> closing_ d = true -> d_ok (finalize d io).2 open out.
Proof.
  intros ok Hc. destruct (decide (active_ d = 0)) as [Ha|Ha].
  2: { rewrite finalize_active by done. by split. }
  assert (Hem : open = ∅) by (apply msize_zero; rewrite <- (do_active _ _ _ ok); done).
  unfold finalize. rewrite Ha. cbn [Z.eqb negb snd].
  destruct ok as [Hac Had Hli Hsc Htr Hop Hfi Hun Hln Hth Ht1 Ht2 Hna]. subst open.
  destruct (trace_ d) eqn:Et, (log_ d) eqn:El; cbn [log_ set_sinks write_trace];
    (split; [|intros _ _; destruct (io_footer io); cbn; rewrite ?Et; auto]);
    unfold write_trace; destruct (io_footer io); split; cbn; try done; try congruence;
    try (intros He Hf; rewrite ?orb_false_iff in Hf;
         rewrite Hln by (tauto || done); cbn; by rewrite ?app_nil_r, ?Et).
Qed.

Lemma finish_ok d open out io : d_ok d open out -> d_ok (finish d io).2 open out.
Proof.
  intros [ok _]. unfold finish. apply finalize_ok; [|done].
  destruct ok as [Hac Had Hli Hsc Htr Hop Hfi Hun Hln Hth Ht1 Ht2 Hna]. split; cbn; try done.
Qed.

Lemma log_ok d open out level message ok0 : d_ok d open out -> d_ok (log d level message ok0) open out.
Proof.
  intros [ok Hcl]. unfold log. destruct (log_ d && negb (closing_ d)); [|by split].
  destruct ok as [Hac Had Hli Hsc Htr Hop Hfi Hun Hln Hth Ht1 Ht2 Hna]. unfold write_log.
  destruct ok0; (split; [split; cbn; done|done]).
Qed.

(** A scope is refused, or it gets the number of its thread. *)
Lemma begin_scope_cases d open out identifier :
  d_ok d open out ->
  let '(r, d') := begin_scope d identifier in
  match r with
  | None => d_ok d' open out
  | Some thread =>
      forall key s, open !! key = None -> sc_thread s = thread -> (String.length (sc_name s) <= profile_name_bytes)%nat ->
        d_ok d' (<[key := s]> open) out
  end.
Proof.
  intros [ok Hcl]. unfold begin_scope.
  destruct (negb (trace_ d) || closing_ d || failed_ d) eqn:Eg; [by split|].
  apply orb_false_iff in Eg as [[Et%negb_false_iff Ec]%orb_false_iff Ef].
  assert (Hdrop : d_ok (set_counts d (threads_ d) (active_ d) (admitted_ d) (dropped_ d ⊞ 1)) open out).
  { destruct ok as [Hac Had Hli Hsc Htr Hop Hfi Hun Hln Hth Ht1 Ht2 Hna].
    split; [split; cbn; try done|done]. intros He Hf. rewrite Hln by done. by rewrite Et. }
  destruct (event_limit_ d <=? admitted_ d) eqn:El; [exact Hdrop|]. apply Z.leb_gt in El.
  pose proof (do_active _ _ _ ok) as Ha. pose proof (do_admitted _ _ _ ok) as Had. pose proof (do_limit _ _ _ ok) as Hl.
  assert (0 <= msize open) by (unfold msize; lia). pose proof (len_nonneg out).
  rewrite !(u64_add_exact _ 1) by (cbn; ulia).
  destruct ok as [Hac _ Hli Hsc Htr Hop Hfi Hun Hln Hth Ht1 Ht2 Hna].
  destruct (threads_ d !! identifier) as [thread|] eqn:Ei.
  - intros key s Hk Hst Hnm. split; [split; cbn; try done|cbn; intros Hx; congruence].
    + rewrite msize_insert_fresh by done. lia.
    + lia.
    + lia.
    + intros key' s' [[<- <-]|[_ Hs]]%lookup_insert_Some; [|by apply (Hna key')].
      split; [done|]. exists identifier. by rewrite Hst.
  - destruct (trace_thread_limit <=? msize (threads_ d)) eqn:Em; [exact Hdrop|]. apply Z.leb_gt in Em.
    assert (0 <= msize (threads_ d)) by (unfold msize; lia).
    rewrite u64_add_exact by (unfold trace_thread_limit in *; ulia).
    intros key s Hk Hst Hnm. split; [split; cbn; try done|cbn; intros Hx; congruence].
    + rewrite msize_insert_fresh by done. lia.
    + lia.
    + lia.
    + rewrite msize_insert_fresh by done. lia.
    + intros i t. rewrite msize_insert_fresh by done. intros [[<- <-]|[_ Hs]]%lookup_insert_Some; [lia|].
      specialize (Ht1 i t Hs). lia.
    + intros i j t [[<- <-]|[Hni Hi]]%lookup_insert_Some [[<- Heq]|[Hnj Hj]]%lookup_insert_Some; try done.
      * specialize (Ht1 j _ Hj). lia.
      * specialize (Ht1 i _ Hi). lia.
      * by eapply Ht2.
    + intros key' s' [[<- <-]|[_ Hs]]%lookup_insert_Some.
      * split; [done|]. exists identifier. by rewrite lookup_insert_eq, Hst.
      * destruct (Hna key' s' Hs) as [? (i & Hi)]. split; [done|]. exists i. rewrite lookup_insert_ne; [done|congruence].
Qed.

(** The destructor of an admitted scope finds the trace open. *)
Lemma end_scope_ok d open out key s stop io :
  d_ok d open out -> open !! key = Some s ->
  exists event d', end_scope process_id d (sc_name s) (sc_thread s) (sc_start s) stop io = Some (event, d')
    /\ event = scope_event process_id (sc_name s) (sc_thread s) (microseconds (sc_start s - origin_ d))
                (microseconds (stop - sc_start s))
    /\ d_ok d' (delete key open) (out ++ [event]).
Proof.
  intros [ok Hcl] Hs. assert (Hne : open <> ∅) by (intros ->; by rewrite lookup_empty in Hs).
  pose proof (do_scopes _ _ _ ok Hne) as Et. unfold end_scope, write_event. rewrite Et.
  set (event := scope_event _ _ _ _ _). eexists event, _. split; [done|]. split; [done|].
  set (d1 := put_event d (io_event io) event).
  set (d2 := set_counts d1 _ _ _ _).
  pose proof (msize_delete open key s Hs) as Hdel. assert (0 <= msize (delete key open)) by (unfold msize; lia).
  assert (Hcore : d_core d2 (delete key open) (out ++ [event])).
  { pose proof (do_trace _ _ _ ok Et) as Een.
    destruct ok as [Hac Had Hli Hsc Htr Hop Hfi Hun Hln Hth Ht1 Ht2 Hna]. unfold d2, d1, put_event, write_trace.
    assert (Hsub : active_ d ⊟ 1 = active_ d - 1).
    { apply u64_sub_exact; [lia|]. pose proof (len_nonneg out). ulia. }
    destruct (io_event io); split; cbn; rewrite ?Hsub, ?len_app, ?len_cons, ?len_nil; try done; try lia; try congruence;
      try (intros key' s' Hk'; apply lookup_delete_Some in Hk' as [_ Hk']; by apply (Hna key')).
    intros _ Hf. rewrite (Hln Een Hf), (Hfi Een), Et. cbn. by rewrite fmap_app, !app_nil_r. }
  destruct (closing_ d2) eqn:Ec; [by apply finalize_ok|]. split; [done|congruence].
Qed.

(** ** Runs *)
Lemma substring_length n s : (String.length (String.substring 0 n s) <= n)%nat.
Proof. revert n. induction s as [|c s IH]; intros [|n]; cbn; try lia. specialize (IH n). lia. Qed.

Lemma step_ok w out ev :
  w_ok w out -> d_allowed w ev = true ->
  exists o w', d_step process_id w ev = Some (o, w') /\ w_ok w' (out ++ o).
Proof.
  intros ok Hal. unfold w_ok in ok. destruct (state_ w) as [d|] eqn:Ew.
  - destruct ev as [level message ok0|key identifier name clock|key stop io|io|io]; cbn [d_step].
    + eexists _, _. split; [done|]. rewrite app_nil_r. unfold w_ok, session_log. cbn. rewrite Ew. cbn. by apply log_ok.
    + eexists _, _. split; [done|]. rewrite app_nil_r. unfold w_ok, open_scope. rewrite Ew.
      destruct (tracing d); cbn [negb]; [|by rewrite Ew].
      pose proof (begin_scope_cases d (scopes w) out identifier ok) as Hb.
      destruct (begin_scope d identifier) as [[thread|] d']; cbn; [|done].
      apply Hb; [|done|apply substring_length]. cbn in Hal. by destruct (scopes w !! key).
    + unfold close_scope. rewrite Ew. destruct (scopes w !! key) as [s|] eqn:Es.
      * destruct (end_scope_ok d _ out key s stop io ok Es) as (event & d' & -> & _ & ok').
        eexists _, _. split; [done|]. exact ok'.
      * eexists _, _. split; [done|]. rewrite app_nil_r. unfold w_ok. by rewrite Ew.
    + eexists _, _. split; [done|]. rewrite app_nil_r. unfold w_ok, session_finish. rewrite Ew.
      pose proof (finish_ok d _ out io ok) as Hf. by destruct (finish d io).
    + eexists _, _. split; [done|]. rewrite app_nil_r. unfold w_ok, destroy_session, session_finish. rewrite Ew.
      pose proof (finish_ok d _ out io ok) as Hf. by destruct (finish d io).
  - destruct ok as [Hs ->]. assert (Hsame : w_ok w []) by (unfold w_ok; by rewrite Ew).
    destruct ev as [level message ok0|key identifier name clock|key stop io|io|io]; cbn [d_step].
    + eexists _, _. split; [done|]. unfold w_ok, session_log. cbn. by rewrite Ew.
    + eexists _, _. split; [done|]. unfold open_scope. by rewrite Ew.
    + unfold close_scope. rewrite Ew. eexists _, _. split; [by destruct (scopes w !! key)|]. done.
    + eexists _, _. split; [done|]. unfold session_finish. by rewrite Ew.
    + eexists _, _. split; [done|]. unfold destroy_session. by rewrite Ew.
Qed.

Lemma run_ok w evs outs r : d_run process_id w evs outs r -> forall out, w_ok w out -> exists w', r = Some w' /\ w_ok w' (out ++ outs).
Proof.
  induction 1 as [w|w ev evs Hal Hst|w ev o w1 evs outs r Hal Hst Hrun IH]; intros out ok.
  - exists w. by rewrite app_nil_r.
  - destruct (step_ok w out ev ok Hal) as (o & w' & Hs & _). congruence.
  - destruct (step_ok w out ev ok Hal) as (o' & w' & Hs & ok'). rewrite Hst in Hs. injection Hs as <- <-.
    destruct (IH _ ok') as (w2 & -> & ok2). exists w2. by rewrite app_assoc.
Qed.

Lemma session_opened_ok `{Filesystem} profiling options clock header event w :
  in_u64 (trace_event_limit options) ->
  open_diagnostic_session process_id profiling application options clock header event = inl w -> w_ok w [].
Proof.
  intros Hlim. unfold open_diagnostic_session. destruct (path_empty _ && path_empty _); [by intros [= <-]|].
  destruct (open_diagnostics _ _ _ _ _ _ _) as [d|] eqn:Ed; [|done]. intros [= <-]. unfold w_ok. cbn.
  by eapply open_ok.
Qed.
End invariant.

(** ** Refused scopes

    The constructions of a scope that gave none although the session was tracing, had not
    been finished and had not failed, counted along a run from the outside: the object
    holds no scope after the call. *)
Definition recording (w : session_world) : bool :=
  match state_ w with Some d => trace_ d && negb (closing_ d) && negb (failed_ d) | None => false end.
Definition refused_call (w : session_world) (ev : d_event) (w' : session_world) : bool :=
  match ev with
  | de_open key _ _ _ => recording w && negb (has_value (scopes w' !! key))
  | _ => false
  end.
Fixpoint refused_scopes `{Json} (pid : Z) (w : session_world) (evs : list d_event) : Z :=
  match evs with
  | [] => 0
  | ev :: rest =>
      match d_step pid w ev with
      | None => 0
      | Some (_, w') => (if refused_call w ev w' then 1 else 0) + refused_scopes pid w' rest
      end
  end.

Section refused.
Context `{Json} (pid : Z).

Lemma finish_dropped d io : dropped_ (finish d io).2 = dropped_ d.
Proof. unfold finish, finalize, write_trace. cbn. repeat case_match; done. Qed.

Lemma end_scope_dropped d name thread start stop io event d' :
  end_scope pid d name thread start stop io = Some (event, d') -> dropped_ d' = dropped_ d.
Proof.
  unfold end_scope, write_event, put_event, write_trace. destruct (trace_ d); [|done]. intros [= _ <-].
  destruct (io_event io); cbn; (destruct (closing_ d); cbn; [|done]);
    unfold finalize, write_trace; cbn; repeat case_match; done.
Qed.

Lemma begin_scope_dropped d identifier :
  dropped_ (begin_scope d identifier).2
  = if trace_ d && negb (closing_ d) && negb (failed_ d) && negb (has_value (begin_scope d identifier).1)
    then dropped_ d ⊞ 1 else dropped_ d.
Proof.
  unfold begin_scope. destruct (trace_ d), (closing_ d), (failed_ d); cbn; try done.
  destruct (_ <=? _); [done|]. destruct (threads_ d !! identifier); [done|]. by destruct (_ <=? _).
Qed.

Lemma step_dropped app w out ev o w' d :
  w_ok pid app w out -> d_allowed w ev = true -> d_step pid w ev = Some (o, w') -> state_ w = Some d ->
  exists d', state_ w' = Some d' /\ dropped_ d' = if refused_call w ev w' then dropped_ d ⊞ 1 else dropped_ d.
Proof.
  intros ok Hal Hs Hd. destruct ev as [level message ok0|key identifier name clock|key stop io|io|io]; cbn in Hs.
  - injection Hs as <- <-. unfold session_log. cbn. rewrite Hd. eexists. split; [done|].
    unfold log, write_log. repeat case_match; done.
  - injection Hs as <- <-. unfold open_scope, refused_call, recording, tracing. rewrite Hd.
    cbn in Hal. destruct (scopes w !! key) eqn:Hk; [done|].
    destruct (trace_enabled_ d) eqn:Een; cbn [negb]; cycle 1.
    { exists d. split; [done|]. unfold w_ok in ok. rewrite Hd in ok. destruct ok as [core _].
      destruct (trace_ d) eqn:Et; [|done]. by rewrite (do_trace _ _ _ _ _ core Et) in Een. }
    pose proof (begin_scope_dropped d identifier) as Hb. destruct (begin_scope d identifier) as [thread d'].
    exists d'. split; [done|]. cbn [fst snd] in Hb. rewrite Hb. cbn [scopes].
    destruct thread; [by rewrite lookup_insert_eq|by rewrite Hk].
  - unfold close_scope in Hs. rewrite Hd in Hs.
    destruct (scopes w !! key) as [sc|]; [|injection Hs as <- <-; by exists d].
    destruct (end_scope _ _ _ _ _ _ _) as [[event d']|] eqn:Ee; [|done]. injection Hs as <- <-.
    exists d'. split; [done|]. by eapply end_scope_dropped.
  - injection Hs as <- <-. unfold session_finish. rewrite Hd. pose proof (finish_dropped d io) as Hf.
    destruct (finish d io) as [b d']. by exists d'.
  - injection Hs as <- <-. unfold destroy_session, session_finish. rewrite Hd. pose proof (finish_dropped d io) as Hf.
    destruct (finish d io) as [b d']. by exists d'.
Qed.

Lemma run_dropped app w evs outs r : d_run pid w evs outs r ->
  forall out d, w_ok pid app w out -> state_ w = Some d -> in_u64 (dropped_ d) ->
  forall w' d', r = Some w' -> state_ w' = Some d' -> dropped_ d' = (dropped_ d + refused_scopes pid w evs) mod two64.
Proof.
  induction 1 as [w|w ev evs Hal Hst|w ev o w1 evs outs r Hal Hst Hrun IH]; intros out d ok Hd Hu w' d' Hr Hd'; [|done|].
  - injection Hr as <-. rewrite Hd in Hd'. injection Hd' as <-. cbn. rewrite Z.add_0_r, Z.mod_small; [done|].
    unfold in_u64, u64_max, two64 in *. lia.
  - destruct (step_ok pid app w out ev ok Hal) as (o' & w2 & Hs & ok1). rewrite Hst in Hs. injection Hs as <- <-.
    destruct (step_dropped app w out ev o w1 d ok Hal Hst Hd) as (d1 & Hd1 & Hdr).
    assert (Hd1' : dropped_ d1 = (dropped_ d + (if refused_call w ev w1 then 1 else 0)) mod two64).
    { rewrite Hdr. destruct (refused_call w ev w1); [done|]. rewrite Z.add_0_r, Z.mod_small; [done|].
      unfold in_u64, u64_max, two64 in *. lia. }
    assert (Hu1 : in_u64 (dropped_ d1)).
    { rewrite Hd1'. pose proof (Z.mod_pos_bound (dropped_ d + (if refused_call w ev w1 then 1 else 0)) two64 ltac:(done)).
      unfold in_u64, u64_max, two64 in *. lia. }
    rewrite (IH _ d1 ok1 Hd1 Hu1 w' d' Hr Hd'), Hd1'. cbn [refused_scopes]. rewrite Hst.
    rewrite Z.add_mod_idemp_l by done. f_equal. lia.
Qed.

Lemma opened_dropped `{Filesystem} profiling app options clock header event w d :
  open_diagnostic_session pid profiling app options clock header event = inl w -> state_ w = Some d -> dropped_ d = 0.
Proof.
  unfold open_diagnostic_session, open_diagnostics. destruct (path_empty _ && path_empty _); [by intros [= <-]|].
  destruct (validate_paths options); [done|]. destruct (if path_empty _ then _ else _); [done|].
  destruct (profiling && _); [destruct (open_trace_sink _); [done|]|]; intros [= <-] [= <-]; [|done].
  unfold put_event, write_trace. by destruct header, event.
Qed.

(** A session has its state, or none, from the start. *)
Lemma run_state w evs outs r : d_run pid w evs outs r -> forall w', r = Some w' -> is_Some (state_ w') -> is_Some (state_ w).
Proof.
  induction 1 as [w|w ev evs Hal Hst|w ev o w1 evs outs r Hal Hst Hrun IH]; intros w' Hr Hs; [|done|].
  - by injection Hr as <-.
  - specialize (IH w' Hr Hs). destruct (state_ w) as [d|] eqn:Ew; [done|]. exfalso. destruct IH as [d1 Hd1].
    destruct ev; cbn in Hst; unfold session_log, open_scope, close_scope, session_finish, destroy_session in Hst;
      rewrite ?Ew in Hst; repeat case_match; simplify_eq/=; by rewrite ?Ew in Hd1.
Qed.
End refused.

(** A finished session without scopes: finishing again, logging and profiling do nothing. *)
Lemma finished_inert `{Json} pid app d open out io level message ok0 identifier :
  d_ok pid app d open out -> closing_ d = true -> active_ d = 0 ->
  finish d io = (negb (failed_ d), d) /\ log d level message ok0 = d /\ begin_scope d identifier = (None, d).
Proof.
  intros [ok Hcl] Hc Ha. destruct (Hcl Hc Ha) as [Ht Hl]. split; [|split].
  - destruct d. cbn in *. by subst.
  - unfold log. by rewrite Hl.
  - unfold begin_scope. by rewrite Ht.
Qed.

(** [finish] on a session without scopes. *)
Lemma finish_closes `{Json} d io : active_ (finish d io).2 = active_ d /\ closing_ (finish d io).2 = true.
Proof. unfold finish, finalize, write_trace. cbn. repeat case_match; done. Qed.

Lemma finish_done `{Json} pid app d out io :
  d_ok pid app d ∅ out ->
  (finish d io).1 = negb (failed_ (finish d io).2) /\ d_ok pid app (finish d io).2 ∅ out
  /\ closing_ (finish d io).2 = true /\ active_ (finish d io).2 = 0.
Proof.
  intros ok. destruct (finish_closes d io) as [Hac Hcl]. pose proof ok as [core _].
  assert (Hz : active_ (finish d io).2 = 0) by (rewrite Hac, (do_active _ _ _ _ _ core); done).
  split; [|split; [by apply finish_ok|done]]. unfold finish, finalize. cbn. by rewrite <- Hac, Hz.
Qed.

(** The file of a finished session. *)
Lemma trace_complete `{Json} `{!JsonLaws} pid app d out eol :
  d_ok pid app d ∅ out -> str_forallb ws_char eol = true ->
  trace_enabled_ d = true -> closing_ d = true -> failed_ d = false ->
  trace_lines d = document (process_event pid app :: out) (dropped_ d)
  /\ len out = admitted_ d /\ json_text (file_text eol (trace_lines d)).
Proof.
  intros [core Hfin] Hws Hen Hcl Hf. assert (Ha : active_ d = 0) by (by rewrite (do_active _ _ _ _ _ core)).
  destruct (Hfin Hcl Ha) as [Ht _]. pose proof (do_lines _ _ _ _ _ core Hen Hf) as Hl. rewrite Ht in Hl.
  split; [exact Hl|]. split; [rewrite (do_admitted _ _ _ _ _ core), Ha; lia|]. rewrite Hl. by apply document_text.
Qed.

(** ** Properties *)
Section properties.
Context `{Json} `{Filesystem} (pid : Z) (profiling : bool) (application : string) (options : diagnostic_options).
Context (clock : Z) (header event : bool).

(** C18: Diagnostics are safe and bounded.  Whatever scopes, log calls and [finish] calls
    follow the opening of a session, in any interleaving, and whatever the sinks report,
    the trace logger is never used after its release.  The active count is the number of
    open scopes, every admitted scope is open or was written exactly once, and admission
    stops at the event limit and at 128 threads, whose numbers are distinct; labels are
    bounded.  [finish] succeeds exactly when no scope is open and no sink failed; once it
    has, finishing again changes nothing and logging and profiling are ignored. *)
Theorem diagnostics_safe w0 evs outs r :
  in_u64 (trace_event_limit options) ->
  open_diagnostic_session pid profiling application options clock header event = inl w0 -> d_run pid w0 evs outs r ->
  exists w, r = Some w
    /\ forall d, state_ w = Some d ->
        active_ d = msize (scopes w) /\ admitted_ d = active_ d + len outs /\ admitted_ d <= event_limit_ d
        /\ msize (threads_ d) <= trace_thread_limit
        /\ (forall i j t, threads_ d !! i = Some t -> threads_ d !! j = Some t -> i = j)
        /\ (forall key s, scopes w !! key = Some s -> (String.length (sc_name s) <= profile_name_bytes)%nat)
        /\ forall io,
            (finish d io).1 = bool_decide (scopes w = ∅) && negb (failed_ (finish d io).2)
            /\ (scopes w = ∅ -> forall io' level message ok0 identifier,
                 finish (finish d io).2 io' = ((finish d io).1, (finish d io).2)
                 /\ log (finish d io).2 level message ok0 = (finish d io).2
                 /\ begin_scope (finish d io).2 identifier = (None, (finish d io).2)).
Proof.
  intros Hlim Hopen Hrun. pose proof (session_opened_ok pid application _ _ _ _ _ _ Hlim Hopen) as ok0.
  destruct (run_ok pid application _ _ _ _ Hrun [] ok0) as (w & -> & ok). exists w. split; [done|]. intros d Hd.
  unfold w_ok in ok. rewrite Hd in ok. pose proof ok as [core _].
  split; [apply (do_active _ _ _ _ _ core)|]. split; [apply (do_admitted _ _ _ _ _ core)|].
  split; [apply (do_limit _ _ _ _ _ core)|]. split; [apply (do_threads _ _ _ _ _ core)|].
  split; [apply (do_distinct _ _ _ _ _ core)|]. split; [intros key s Hs; by apply (do_named _ _ _ _ _ core key)|].
  intros io. pose proof (finish_ok pid application d _ _ io ok) as okf.
  pose proof (do_active _ _ _ _ _ core) as Ha. case_bool_decide as Hs.
  - rewrite Hs in ok, okf. destruct (finish_done pid application d _ io ok) as (Hr & _ & Hcl & Hz).
    split; [done|]. intros _ io' level message ok1 identifier. rewrite Hr. by eapply finished_inert.
  - split; [|done]. unfold finish. rewrite finalize_active; [done|]. cbn. rewrite Ha. by rewrite msize_zero.
Qed.

(** C19: The trace is one JSON document.  When a traced session is finished, its scopes are
    closed and no sink failed, the trace file holds the header, the process event, one
    event for each closed scope in the order of closing, separated by commas, and the
    footer, each exactly once; whatever white space ends a line, the file is a JSON text.
    The footer reports the number of scopes refused while the session was recording,
    modulo 2^64; scopes constructed after [finish] are not counted. *)
Theorem trace_document_complete `{!JsonLaws} (eol : string) w0 evs outs w d :
  in_u64 (trace_event_limit options) -> str_forallb ws_char eol = true ->
  open_diagnostic_session pid profiling application options clock header event = inl w0 ->
  d_run pid w0 evs outs (Some w) ->
  state_ w = Some d -> trace_enabled_ d = true -> closing_ d = true -> scopes w = ∅ -> failed_ d = false ->
  trace_lines d = document (process_event pid application :: outs) (refused_scopes pid w0 evs mod two64)
  /\ len outs = admitted_ d /\ json_text (file_text eol (trace_lines d)).
Proof.
  intros Hlim Hws Hopen Hrun Hd Hen Hcl Hs Hf. pose proof (session_opened_ok pid application _ _ _ _ _ _ Hlim Hopen) as ok0.
  destruct (run_ok pid application _ _ _ _ Hrun [] ok0) as (w' & [= <-] & ok).
  destruct (run_state pid _ _ _ _ Hrun w eq_refl) as [d0 Hd0]; [by rewrite Hd|].
  pose proof (opened_dropped pid _ _ _ _ _ _ _ _ Hopen Hd0) as Hz.
  pose proof (run_dropped pid application _ _ _ _ Hrun [] d0 ok0 Hd0) as Hdr. rewrite Hz in Hdr.
  specialize (Hdr ltac:(done) w d eq_refl Hd). rewrite Z.add_0_l in Hdr.
  unfold w_ok in ok. rewrite Hd, Hs in ok. rewrite <- Hdr. by apply trace_complete.
Qed.
End properties.

Module DiagnosticsDemo.
#[local] Existing Instance json_reference.
#[local] Existing Instance json_reference_laws.

(** A file system without links, whose sinks always open. *)
#[local] Instance plain_files : Filesystem := {|
  fs_absolute p := Some p; fs_weakly_canonical p := Some p; fs_same_ordinal a b := bool_decide (a = b);
  fs_equivalent _ _ := None; open_log_sink _ := None; open_trace_sink _ := None |}.

Definition options : diagnostic_options := {| log_file := "a.log"; trace_file := "a.json"; trace_event_limit := 1 |}.
Definition crlf : string := String "013" (String "010" "").

Definition opened : session_world :=
  match open_diagnostic_session 7 true "demo" options 1000 true true with inl w => w | inr _ => {| state_ := None; scopes := ∅ |} end.
Definition events : list d_event :=
  [de_open 1 50 "client.connect" 6000; de_open 2 51 "dropped" 7000; de_finish io_ok;
   de_open 3 50 "late" 8000; de_close 1 9000 io_ok].
Definition step_of (w : session_world) (ev : d_event) : list json * session_world :=
  match d_step 7 w ev with Some r => r | None => ([], w) end.
Definition closed : session_world := foldl (fun w ev => (step_of w ev).2) opened events.
Definition written : list json := [scope_event 7 "client.connect" 1 5 3].

Lemma opened_session : open_diagnostic_session 7 true "demo" options 1000 true true = inl opened.
Proof. vm_compute. reflexivity. Qed.

Lemma profiled_run : d_run 7 opened events written (Some closed).
Proof.
  apply (d_run_step 7 _ (de_open 1 50 "client.connect" 6000) [] (step_of opened (de_open 1 50 "client.connect" 6000)).2
    _ written); [vm_compute; reflexivity..|].
  eapply (d_run_step 7 _ (de_open 2 51 "dropped" 7000) [] _ _ written); [vm_compute; reflexivity..|].
  eapply (d_run_step 7 _ (de_finish io_ok) [] _ _ written); [vm_compute; reflexivity..|].
  eapply (d_run_step 7 _ (de_open 3 50 "late" 8000) [] _ _ written); [vm_compute; reflexivity..|].
  eapply (d_run_step 7 _ (de_close 1 9000 io_ok) written _ _ []); [vm_compute; reflexivity..|].
  exact (d_run_nil 7 closed).
Qed.

Lemma diagnostics_safe_witness :
  exists w, Some closed = Some w
    /\ forall d, state_ w = Some d -> active_ d = msize (scopes w) /\ admitted_ d = active_ d + 1.
Proof.
  destruct (diagnostics_safe 7 true "demo" options 1000 true true opened events written (Some closed)) as (w & Hw & Hok).
  - vm_compute. split; discriminate.
  - exact opened_session.
  - exact profiled_run.
  - exists w. split; [exact Hw|]. intros d Hd. destruct (Hok d Hd) as (Ha & Hb & _). split; [exact Ha|exact Hb].
Defined.

Lemma trace_document_complete_witness :
  exists d, state_ closed = Some d /\ trace_lines d = document (process_event 7 "demo" :: written) 1
    /\ json_text (file_text crlf (trace_lines d)).
Proof.
  eexists. split; [vm_compute; reflexivity|].
  edestruct (trace_document_complete 7 true "demo" options 1000 true true crlf opened events written closed)
    as (Hl & _ & Ht); [vm_compute; split; discriminate|reflexivity|exact opened_session|exact profiled_run
      |vm_compute; reflexivity|reflexivity|reflexivity|vm_compute; reflexivity|reflexivity|].
  split; [exact Hl|exact Ht].
Defined.
End DiagnosticsDemo.
