(* ===== verification/CommandLine.v ===== *)
(** * Command-line arguments (include/pipeforge/application.hpp, src/cli/application.cpp)

    [parse] walks over the arguments once and keeps the command it found, the set of
    options it was given and the values so far; an error is the text written to the error
    stream.  The reference at the end of the definitions says which argument lists are
    accepted without an order of evaluation: a list of tokens, one of them a command, the
    options pairwise distinct and each with an admissible value. *)
From stdpp Require Import prelude gmap strings pretty.
From Stdlib Require Import Ascii ZArith Lia.
From S2P Require Import Prelude Json Diagnostics Transport.

Inductive application_command :=
  | cmd_help
  | cmd_version
  | cmd_serve
  | cmd_demo_sync
  | cmd_demo_async
  | cmd_demo_mixed.

#[global] Instance application_command_eq_dec : EqDecision application_command.
Proof. solve_decision. Defined.

Record invocation := {
  inv_command : application_command;
  inv_endpoint : wstring;
  inv_timeout : Z;
  inv_sessions : Z;
}.

Definition default_invocation : invocation := {|
  inv_command := cmd_help; inv_endpoint := default_endpoint; inv_timeout := default_timeout;
  inv_sessions := max_sessions |}.

Definition set_command (i : invocation) c : invocation :=
  {| inv_command := c; inv_endpoint := inv_endpoint i; inv_timeout := inv_timeout i; inv_sessions := inv_sessions i |}.
Definition set_endpoint (i : invocation) e : invocation :=
  {| inv_command := inv_command i; inv_endpoint := e; inv_timeout := inv_timeout i; inv_sessions := inv_sessions i |}.
Definition set_timeout (i : invocation) t : invocation :=
  {| inv_command := inv_command i; inv_endpoint := inv_endpoint i; inv_timeout := t; inv_sessions := inv_sessions i |}.
Definition set_sessions (i : invocation) n : invocation :=
  {| inv_command := inv_command i; inv_endpoint := inv_endpoint i; inv_timeout := inv_timeout i; inv_sessions := n |}.
Definition set_log_file (d : diagnostic_options) p : diagnostic_options :=
  {| log_file := p; trace_file := trace_file d; trace_event_limit := trace_event_limit d |}.
Definition set_trace_file (d : diagnostic_options) p : diagnostic_options :=
  {| log_file := log_file d; trace_file := p; trace_event_limit := trace_event_limit d |}.

(** The map [commands]. *)
Definition find_command (argument : string) : option application_command :=
  if bool_decide (argument = "--help") then Some cmd_help
  else if bool_decide (argument = "--version") then Some cmd_version
  else if bool_decide (argument = "--serve") then Some cmd_serve
  else if bool_decide (argument = "--demo-sync") then Some cmd_demo_sync
  else if bool_decide (argument = "--demo-async") then Some cmd_demo_async
  else if bool_decide (argument = "--demo-mixed") then Some cmd_demo_mixed
  else None.

(** [std::wstring::assign] of [char]s: a negative [char] becomes a character above 65407. *)
Definition wide_char (c : ascii) : Z := if char_code c <? 128 then char_code c else char_code c + 65280.
Definition to_wide (s : string) : wstring := wide_char <$> String.list_ascii_of_string s.

(** [std::from_chars] into [std::uint32_t]: the longest run of digits, the value or the
    error, and what follows. *)
Inductive errc := invalid_argument | result_out_of_range.

Fixpoint scan_digits (s : string) (value : Z) : Z * string :=
  match s with
  | String c s' =>
      if digit_char c then scan_digits s' (value * 10 + (char_code c - 48)) else (value, s)
  | "" => (value, "")
  end.

Definition from_chars (s : string) : (Z + errc) * string :=
  match s with
  | String c _ =>
      if digit_char c then
        let '(value, rest) := scan_digits s 0 in
        (if value <? 4294967296 then inl value else inr result_out_of_range, rest)
      else (inr invalid_argument, s)
  | "" => (inr invalid_argument, s)
  end.

Definition prefixed (s : string) : bool := bool_decide (String.substring 0 2 s = "--").

(** ** The parser *)
Record parse_state := {
  p_options : invocation;
  p_has_command : bool;
  p_supplied : gset string;
  p_diagnostics : diagnostic_options;
}.

Definition is_option (argument : string) : bool :=
  bool_decide (argument = "--log-file") || bool_decide (argument = "--trace-file")
  || bool_decide (argument = "--endpoint") || bool_decide (argument = "--timeout-ms")
  || bool_decide (argument = "--sessions").

(** The branches on one option and its value; the set of options already has it. *)
Definition apply_option (argument value : string) (options : invocation) (diagnostics : diagnostic_options)
  : (invocation * diagnostic_options) + string :=
  if bool_decide (argument = "--log-file") || bool_decide (argument = "--trace-file") then
    inl (options, if bool_decide (argument = "--log-file") then set_log_file diagnostics value
                  else set_trace_file diagnostics value)
  else if bool_decide (argument = "--endpoint") then
    let options := set_endpoint options (to_wide value) in
    if negb (valid_endpoint (inv_endpoint options))
    then inr "Endpoint must be a bounded local named-pipe name."
    else inl (options, diagnostics)
  else
    match from_chars value with
    | (inl number, "") =>
        if bool_decide (argument = "--sessions") then
          if (number =? 0) || (max_sessions <? number)
          then inr "Session count is outside the supported bounds."
          else inl (set_sessions options number, diagnostics)
        else
          let options := set_timeout options number in
          if (inv_timeout options <? minimum_timeout) || (maximum_timeout <? inv_timeout options)
          then inr "Timeout is outside the supported bounds."
          else inl (options, diagnostics)
    | _ => inr "Numeric options require unsigned decimal integers."
    end.

Fixpoint parse_loop (remaining : list string) (st : parse_state) : parse_state + string :=
  match remaining with
  | [] => inl st
  | argument :: rest =>
      match find_command argument with
      | Some command =>
          if p_has_command st then inr "Exactly one command is required."
          else parse_loop rest {| p_options := set_command (p_options st) command; p_has_command := true;
                                  p_supplied := p_supplied st; p_diagnostics := p_diagnostics st |}
      | None =>
          if negb (is_option argument) then inr "Unsupported arguments. Use --help for available options."
          else
            match rest with
            | [] => inr "Options require one unique value."
            | value :: rest' =>
                if bool_decide (argument ∈ p_supplied st) || bool_decide (value = "") || prefixed value
                then inr "Options require one unique value."
                else
                  match apply_option argument value (p_options st) (p_diagnostics st) with
                  | inr error => inr error
                  | inl (options, diagnostics) =>
                      parse_loop rest' {| p_options := options; p_has_command := p_has_command st;
                                          p_supplied := {[argument]} ∪ p_supplied st;
                                          p_diagnostics := diagnostics |}
                  end
            end
      end
  end.

Definition is_runtime (c : application_command) : bool :=
  match c with cmd_help | cmd_version => false | _ => true end.

Definition parse (name : string) (arguments : list string) (diagnostics : diagnostic_options)
  : (invocation * diagnostic_options) + string :=
  match parse_loop arguments {| p_options := default_invocation; p_has_command := false; p_supplied := ∅;
                                p_diagnostics := diagnostics |} with
  | inr error => inr error
  | inl st =>
      if negb (p_has_command st) then inr "A command is required. Use --help for available options."
      else
        let command := inv_command (p_options st) in
        let runtime := is_runtime command in
        let supplied o := bool_decide (o ∈ p_supplied st) in
        if (negb runtime && (supplied "--endpoint" || supplied "--timeout-ms" || supplied "--sessions"))
           || (runtime && negb (Bool.eqb (bool_decide (command = cmd_serve)) (bool_decide (name = "pipeforge-server"))))
           || (supplied "--sessions" && negb (bool_decide (command = cmd_serve)))
        then inr "Command/options do not apply to this executable."
        else inl (p_options st, p_diagnostics st)
  end.

(** ** The accepted argument lists *)
Inductive option_name := on_log_file | on_trace_file | on_endpoint | on_timeout | on_sessions.

#[global] Instance option_name_eq_dec : EqDecision option_name.
Proof. solve_decision. Defined.

Definition option_text (o : option_name) : string :=
  match o with
  | on_log_file => "--log-file"
  | on_trace_file => "--trace-file"
  | on_endpoint => "--endpoint"
  | on_timeout => "--timeout-ms"
  | on_sessions => "--sessions"
  end.

Definition command_text (c : application_command) : string :=
  match c with
  | cmd_help => "--help"
  | cmd_version => "--version"
  | cmd_serve => "--serve"
  | cmd_demo_sync => "--demo-sync"
  | cmd_demo_async => "--demo-async"
  | cmd_demo_mixed => "--demo-mixed"
  end.

Inductive token := tok_command (c : application_command) | tok_option (o : option_name) (value : string).

Definition token_texts (t : token) : list string :=
  match t with tok_command c => [command_text c] | tok_option o v => [option_text o; v] end.
Definition texts (ts : list token) : list string := concat (token_texts <$> ts).

(** A decimal number that fits 32 bits, leading zeros allowed. *)
Fixpoint decimal (s : string) (value : Z) : Z :=
  match s with "" => value | String c s' => decimal s' (value * 10 + (char_code c - 48)) end.
Definition is_number (s : string) (n : Z) : Prop :=
  s <> "" /\ str_forallb digit_char s = true /\ n = decimal s 0 /\ n < 4294967296.

(** A value that an option takes. *)
Definition value_fits (o : option_name) (v : string) : Prop :=
  match o with
  | on_log_file | on_trace_file => True
  | on_endpoint => valid_endpoint (to_wide v) = true
  | on_timeout => exists n, is_number v n /\ minimum_timeout <= n <= maximum_timeout
  | on_sessions => exists n, is_number v n /\ 1 <= n <= max_sessions
  end.

Definition admissible (t : token) : Prop :=
  match t with
  | tok_command _ => True
  | tok_option o v => v <> "" /\ prefixed v = false /\ value_fits o v
  end.

(** What a token sets. *)
Definition set_token (r : invocation * diagnostic_options) (t : token) : invocation * diagnostic_options :=
  match t with
  | tok_command c => (set_command r.1 c, r.2)
  | tok_option on_log_file v => (r.1, set_log_file r.2 v)
  | tok_option on_trace_file v => (r.1, set_trace_file r.2 v)
  | tok_option on_endpoint v => (set_endpoint r.1 (to_wide v), r.2)
  | tok_option on_timeout v => (set_timeout r.1 (decimal v 0), r.2)
  | tok_option on_sessions v => (set_sessions r.1 (decimal v 0), r.2)
  end.

Definition token_command (t : token) : list application_command :=
  match t with tok_command c => [c] | _ => [] end.
Definition token_option (t : token) : list option_name := match t with tok_option o _ => [o] | _ => [] end.
Definition commands_of (ts : list token) : list application_command := concat (token_command <$> ts).
Definition options_of (ts : list token) : list option_name := concat (token_option <$> ts).

(** The server serves and nothing else does; only runtime commands take an endpoint and a
    timeout, and only the server a number of sessions. *)
Definition applicable (name : string) (c : application_command) (os : list option_name) : Prop :=
  (is_runtime c = false -> (on_endpoint ∉ os) /\ (on_timeout ∉ os))
  /\ (is_runtime c = true -> (c = cmd_serve <-> name = "pipeforge-server"))
  /\ (on_sessions ∈ os -> c = cmd_serve).

Definition accepted (name : string) (ts : list token) (diagnostics : diagnostic_options)
    (r : invocation * diagnostic_options) : Prop :=
  (exists c, commands_of ts = [c] /\ applicable name c (options_of ts))
  /\ NoDup (options_of ts) /\ Forall admissible ts
  /\ r = foldl set_token (default_invocation, diagnostics) ts.

(** ** Texts *)

(** Evaluates the comparisons of literal texts. *)
Ltac decide_texts :=
  repeat first [rewrite bool_decide_eq_true_2 by done|rewrite bool_decide_eq_false_2 by done]; cbn [orb andb negb].

Lemma find_command_spec s c : find_command s = Some c <-> s = command_text c.
Proof.
  unfold find_command. split.
  - repeat case_bool_decide; intros [= <-]; done.
  - intros ->. by destruct c.
Qed.

Lemma find_command_option o : find_command (option_text o) = None.
Proof. by destruct o. Qed.

Lemma is_option_spec s : is_option s = true <-> exists o, s = option_text o.
Proof.
  unfold is_option. rewrite !orb_true_iff, !bool_decide_eq_true. split.
  - intros [[[[->| ->]| ->]| ->]| ->];
      [exists on_log_file|exists on_trace_file|exists on_endpoint|exists on_timeout|exists on_sessions]; done.
  - intros [[] ->]; cbn; tauto.
Qed.

Lemma option_text_inj o o' : option_text o = option_text o' -> o = o'.
Proof. by destruct o, o'. Qed.
#[global] Instance option_text_Inj : Inj (=) (=) option_text.
Proof. intros o o'. apply option_text_inj. Qed.

Lemma scan_digits_all s v n : scan_digits s v = (n, "") <-> str_forallb digit_char s = true /\ n = decimal s v.
Proof.
  revert v. induction s as [|c s IH]; intros v; cbn.
  - split; [by intros [= ->]|]. by intros [_ ->].
  - destruct (digit_char c); cbn; [apply IH|]. split; [by intros [=]|by intros [[=] _]].
Qed.

Lemma from_chars_spec s n : from_chars s = (inl n, "") <-> is_number s n.
Proof.
  unfold from_chars, is_number. destruct s as [|c s].
  { split; [by intros [=]|by intros [? _]]. }
  pose proof (scan_digits_all (String c s) 0 n) as Hs. cbn [str_forallb].
  destruct (digit_char c) eqn:Ec.
  2: { split; [by intros [=]|by intros (_ & ? & _)]. }
  destruct (scan_digits (String c s) 0) as [v rest] eqn:E. split.
  - destruct (v <? 4294967296) eqn:Ev; [|by intros [=]]. intros [= -> ->]. apply Z.ltb_lt in Ev.
    destruct Hs as [Hs _]. destruct (Hs eq_refl) as [Hd Hn]. cbn [str_forallb] in Hd. rewrite Ec in Hd. by split_and!.
  - intros (_ & Hd & Hn & Hlt). destruct Hs as [_ Hs]. cbn [str_forallb] in Hs. rewrite Ec in Hs.
    assert (Hv : (v, rest) = (n, "")) by (apply Hs; done). injection Hv as -> ->.
    by rewrite (proj2 (Z.ltb_lt _ _) Hlt).
Qed.

Lemma decimal_nonneg s v : str_forallb digit_char s = true -> 0 <= v -> 0 <= decimal s v.
Proof.
  revert v. induction s as [|c s IH]; intros v; cbn; [done|]. intros [Hc Hs]%andb_prop Hv. apply IH; [done|].
  unfold digit_char in Hc. lia.
Qed.

Lemma apply_option_spec o v i d r :
  apply_option (option_text o) v i d = inl r <-> value_fits o v /\ r = set_token (i, d) (tok_option o v).
Proof.
  assert (Hnum : forall (f : Z -> (invocation * diagnostic_options) + string) (P : Z -> Prop) (g : Z -> _),
    (forall n, 0 <= n -> f n = inl r <-> P n /\ r = g n) ->
    match from_chars v with (inl n, "") => f n | _ => inr "Numeric options require unsigned decimal integers." end = inl r
    <-> (exists n, is_number v n /\ P n) /\ r = g (decimal v 0)).
  { intros f P g Hf. destruct (from_chars v) as [[n|e] rest] eqn:E.
    - destruct rest as [|c rest].
      + apply from_chars_spec in E. pose proof E as (_ & Hd & Hn & _).
        rewrite Hf by (rewrite Hn; by apply decimal_nonneg). split.
        * intros [HP ->]. split; [by exists n|]. by rewrite Hn.
        * intros [(n' & (_ & _ & -> & _) & HP) ->]. by rewrite Hn.
      + split; [done|]. intros [(n' & Hn%from_chars_spec & _) _]. congruence.
    - split; [by destruct rest|]. intros [(n' & Hn%from_chars_spec & _) _]. congruence. }
  destruct o; cbn [option_text value_fits set_token fst snd]; unfold apply_option; decide_texts.
  - split; [by intros [= <-]|by intros [_ ->]].
  - split; [by intros [= <-]|by intros [_ ->]].
  - cbn. destruct (valid_endpoint _); cbn; (split; [by intros; simplify_eq|by intros [? ->]]).
  - cbn. apply (Hnum _ (fun n => minimum_timeout <= n <= maximum_timeout) (fun n => (set_timeout i n, d))).
    intros n Hn. destruct (_ || _) eqn:E; bool_simp; (split; [intros; simplify_eq; by (try split; try lia)|intros [? ->]; (done || lia)]).
  - cbn. apply (Hnum _ (fun n => 1 <= n <= max_sessions) (fun n => (set_sessions i n, d))).
    intros n Hn. destruct (_ || _) eqn:E; bool_simp; (split; [intros; simplify_eq; by (try split; try lia)|intros [? ->]; (done || lia)]).
Qed.

(** ** The loop *)
Definition fits (st : parse_state) (t : token) : Prop :=
  admissible t
  /\ match t with
     | tok_command _ => p_has_command st = false
     | tok_option o _ => option_text o ∉ p_supplied st
     end.

Definition advance (st : parse_state) (t : token) : parse_state :=
  let r := set_token (p_options st, p_diagnostics st) t in
  match t with
  | tok_command _ => {| p_options := r.1; p_has_command := true; p_supplied := p_supplied st; p_diagnostics := r.2 |}
  | tok_option o _ =>
      {| p_options := r.1; p_has_command := p_has_command st;
         p_supplied := {[option_text o]} ∪ p_supplied st; p_diagnostics := r.2 |}
  end.

Lemma loop_token t rest st st' :
  parse_loop (token_texts t ++ rest) st = inl st' <-> fits st t /\ parse_loop rest (advance st t) = inl st'.
Proof.
  destruct t as [c|o v]; cbn [token_texts app parse_loop].
  - rewrite (proj2 (find_command_spec _ c) eq_refl). unfold fits, advance. cbn.
    destruct (p_has_command st); [|tauto]. split; [done|]. by intros [[_ ?] _].
  - rewrite find_command_option, (proj2 (is_option_spec _)) by eauto. cbn [negb]. unfold fits, advance. cbn [admissible].
    case_bool_decide as Hin; cbn [orb]; [split; [done|]; by intros [[_ ?] _]|].
    case_bool_decide as Hv; cbn [orb]; [split; [done|]; by intros [[[? _] _] _]|].
    destruct (prefixed v); [split; [done|]; by intros [[(_ & ? & _) _] _]|].
    pose proof (apply_option_spec o v (p_options st) (p_diagnostics st)) as Ha.
    destruct (apply_option _ _ _ _) as [[i d]|error].
    + destruct (proj1 (Ha _) eq_refl) as [Hf Hr]. rewrite <- Hr. cbn [fst snd]. tauto.
    + split; [done|]. intros [[(_ & _ & Hf) _] _]. specialize (Ha (set_token (p_options st, p_diagnostics st) (tok_option o v))).
      destruct Ha as [_ Ha]. by discriminate Ha.
Qed.

(** Whatever the loop accepts is a list of tokens. *)
Lemma loop_tokens n : forall args st st', (length args <= n)%nat -> parse_loop args st = inl st' -> exists ts, args = texts ts.
Proof.
  induction n as [|n IH]; intros [|argument rest] st st' Hn; try (cbn in Hn; lia); try (by exists []).
  cbn [parse_loop]. cbn in Hn. destruct (find_command argument) as [c|] eqn:Ec.
  - apply find_command_spec in Ec as ->. destruct (p_has_command st); [done|]. intros Hl.
    apply IH in Hl as [ts ->]; [|lia]. by exists (tok_command c :: ts).
  - destruct (is_option argument) eqn:Eo; cbn [negb]; [|done]. apply is_option_spec in Eo as [o ->].
    destruct rest as [|value rest]; [done|]. destruct (_ || _); [done|].
    destruct (apply_option _ _ _ _) as [[i d]|]; [|done]. intros Hl.
    apply IH in Hl as [ts ->]; [|cbn in Hn; lia]. by exists (tok_option o value :: ts).
Qed.

Lemma loop_spec ts : forall st st',
  parse_loop (texts ts) st = inl st' <->
  Forall admissible ts /\ NoDup (options_of ts) /\ (forall o, o ∈ options_of ts -> option_text o ∉ p_supplied st)
  /\ (length (commands_of ts) + (if p_has_command st then 1 else 0) <= 1)%nat /\ st' = foldl advance st ts.
Proof.
  induction ts as [|t ts IH]; intros st st'.
  - cbn. split; [intros [= <-]|by intros (_ & _ & _ & _ & ->)].
    split_and!; [constructor|constructor|by intros o ?%elem_of_nil|by destruct (p_has_command st); lia|done].
  - change (texts (t :: ts)) with (token_texts t ++ texts ts). rewrite loop_token, IH, Forall_cons. cbn [foldl].
    unfold fits. destruct t as [c|o v].
    + change (options_of (tok_command c :: ts)) with (options_of ts).
      change (commands_of (tok_command c :: ts)) with (c :: commands_of ts). cbn [advance p_supplied p_has_command length].
      destruct (p_has_command st); intuition (try lia; try done).
    + change (options_of (tok_option o v :: ts)) with (o :: options_of ts).
      change (commands_of (tok_option o v :: ts)) with (commands_of ts). cbn [advance p_supplied p_has_command].
      rewrite NoDup_cons. split.
      * intros ([Hadm Hin] & Hall & Hnd & Hns & Hlen & ->). split_and!; try done.
        -- intros Ho. specialize (Hns o Ho). set_solver.
        -- intros o' [->|Ho']%elem_of_cons; [done|]. specialize (Hns o' Ho'). set_solver.
      * intros ([Hadm Hall] & [Hni Hnd] & Hns & Hlen & ->). split_and!; try done.
        -- apply Hns. set_solver.
        -- intros o' Ho'. rewrite elem_of_union, elem_of_singleton. intros [He%option_text_inj|Hin]; [congruence|].
           apply (Hns o'); [set_solver|done].
Qed.

(** ** The state after the loop *)
Lemma advance_spec ts : forall st,
  let st' := foldl advance st ts in
  (p_options st', p_diagnostics st') = foldl set_token (p_options st, p_diagnostics st) ts
  /\ p_has_command st' = p_has_command st || negb (bool_decide (commands_of ts = []))
  /\ (forall s, s ∈ p_supplied st' <-> s ∈ p_supplied st \/ s ∈ option_text <$> options_of ts).
Proof.
  induction ts as [|t ts IH]; intros st; cbn [foldl].
  - split; [done|]. split; [by rewrite orb_false_r|]. intros s. cbn. set_solver.
  - destruct (IH (advance st t)) as (H1' & H2' & H3'). cbn zeta in *. rewrite H1', H2'. setoid_rewrite H3'.
    destruct t as [c|o v].
    + change (options_of (tok_command c :: ts)) with (options_of ts).
      change (commands_of (tok_command c :: ts)) with (c :: commands_of ts). split; [done|]. split; [|done].
      cbn. by rewrite orb_true_r.
    + change (options_of (tok_option o v :: ts)) with (o :: options_of ts).
      change (commands_of (tok_option o v :: ts)) with (commands_of ts).
      split; [by destruct o|]. split; [done|]. intros s. cbn. set_solver.
Qed.

Lemma command_set ts : forall r c, commands_of ts = [c] -> inv_command (foldl set_token r ts).1 = c.
Proof.
  assert (Hnone : forall ts r, commands_of ts = [] -> inv_command (foldl set_token r ts).1 = inv_command r.1).
  { clear ts. induction ts as [|[c|o v] ts IH]; intros r Hc; [done|done|].
    cbn [foldl]. rewrite IH by done. by destruct o. }
  induction ts as [|[c'|o v] ts IH]; intros r c Hc; [done| |].
  - change (c' :: commands_of ts = [c]) in Hc. injection Hc as -> Hc. cbn [foldl]. by rewrite Hnone.
  - cbn [foldl]. by apply IH.
Qed.

(** The condition of the last check, for any propositions the flags decide. *)
Lemma applicable_bool (r cs n e t s : bool) (CS N E T S : Prop) :
  (cs = true <-> CS) -> (n = true <-> N) -> (e = true <-> E) -> (t = true <-> T) -> (s = true <-> S) ->
  (r = false -> cs = false) ->
  ((r = false -> ~ E /\ ~ T) /\ (r = true -> (CS <-> N)) /\ (S -> CS)) <->
  (negb r && (e || t || s)) || (r && negb (Bool.eqb cs n)) || (s && negb cs) = false.
Proof.
  intros Hc Hn He Ht Hs Hr. rewrite <- Hc, <- Hn, <- He, <- Ht, <- Hs. clear Hc Hn He Ht Hs.
  destruct r, cs, n, e, t, s; cbn; intuition congruence.
Qed.

Lemma parse_texts name ts diagnostics r :
  parse name (texts ts) diagnostics = inl r <-> accepted name ts diagnostics r.
Proof.
  unfold parse, accepted.
  set (st0 := {| p_options := default_invocation; p_has_command := false; p_supplied := ∅; p_diagnostics := diagnostics |}).
  pose proof (loop_spec ts st0) as Hl. destruct (advance_spec ts st0) as (H1' & H2' & H3'). cbn zeta in *.
  assert (Hsup : forall o, bool_decide (option_text o ∈ p_supplied (foldl advance st0 ts)) = bool_decide (o ∈ options_of ts)).
  { intros o. apply bool_decide_ext. rewrite H3', list_elem_of_fmap. split; [|by right; exists o].
    intros [?|(o' & He%option_text_inj & Ho)]; [set_solver|by subst]. }
  cbn in H1', H2'. destruct (parse_loop (texts ts) st0) as [st|error] eqn:E.
  - destruct (proj1 (Hl st) eq_refl) as (Hadm & Hnd & _ & Hlen & ->). rewrite H2'. cbn in Hlen.
    destruct (commands_of ts) as [|c [|]] eqn:Ec; [|clear Hlen|cbn in Hlen; lia].
    + cbn. split; [done|]. by intros ((c & ? & _) & _).
    + rewrite bool_decide_eq_false_2 by done. cbn [negb].
      assert (Hcmd : inv_command (p_options (foldl advance st0 ts)) = c).
      { rewrite <- (command_set ts (default_invocation, diagnostics) c Ec), <- H1'. done. }
      rewrite Hcmd, H1'.
      pose proof (Hsup on_endpoint) as He. pose proof (Hsup on_timeout) as Ht. pose proof (Hsup on_sessions) as Hss.
      cbn [option_text] in He, Ht, Hss. rewrite He, Ht, Hss.
      assert (Happ : applicable name c (options_of ts) <->
        (negb (is_runtime c) && (bool_decide (on_endpoint ∈ options_of ts) || bool_decide (on_timeout ∈ options_of ts)
           || bool_decide (on_sessions ∈ options_of ts)))
        || (is_runtime c && negb (Bool.eqb (bool_decide (c = cmd_serve)) (bool_decide (name = "pipeforge-server"))))
        || (bool_decide (on_sessions ∈ options_of ts) && negb (bool_decide (c = cmd_serve))) = false).
      { unfold applicable. apply applicable_bool; try apply bool_decide_eq_true. by destruct c. }
      destruct (_ || _ || _) eqn:Eg.
      * split; [done|]. intros ((c' & [= <-] & Hap) & _). apply Happ in Hap. congruence.
      * split; [intros [= <-]|by intros (_ & _ & _ & ->)]. split; [|done]. exists c. split; [done|]. by apply Happ.
  - split; [done|]. intros ((c & Ec & _) & Hnd & Hadm & _). destruct (Hl (foldl advance st0 ts)) as [_ Hx].
    discriminate Hx. split_and!; try done. rewrite Ec. cbn. lia.
Qed.

Lemma parsed_tokens name args diagnostics r :
  parse name args diagnostics = inl r -> exists ts, args = texts ts /\ accepted name ts diagnostics r.
Proof.
  intros Hp. assert (Hts : exists ts, args = texts ts).
  { unfold parse in Hp. destruct (parse_loop _ _) as [st|] eqn:E; [|done]. by eapply loop_tokens. }
  destruct Hts as [ts ->]. exists ts. split; [done|]. by apply parse_texts.
Qed.

(** ** The order of the arguments *)
Definition slot (t : token) : option option_name := match t with tok_command _ => None | tok_option o _ => Some o end.

Lemma set_token_comm r t t' : slot t <> slot t' -> set_token (set_token r t) t' = set_token (set_token r t') t.
Proof. destruct t as [c|[] v], t' as [c'|[] v']; cbn; done || congruence. Qed.

Lemma slots_nodup ts : NoDup (options_of ts) -> (length (commands_of ts) <= 1)%nat -> NoDup (slot <$> ts).
Proof.
  assert (Hopt : forall ts o, Some o ∈ slot <$> ts -> o ∈ options_of ts).
  { clear ts. induction ts as [|[c|o' v] ts IH]; intros o; cbn.
    - by intros ?%elem_of_nil.
    - intros [[=]|Ho]%elem_of_cons. by apply IH.
    - change (options_of (tok_option o' v :: ts)) with (o' :: options_of ts).
      intros [[= ->]|Ho]%elem_of_cons; [by left|right; by apply IH]. }
  assert (Hcom : forall ts, None ∈ slot <$> ts -> (1 <= length (commands_of ts))%nat).
  { clear ts. induction ts as [|[c|o' v] ts IH]; cbn.
    - by intros ?%elem_of_nil.
    - intros _. lia.
    - intros [[=]|Ho]%elem_of_cons. by apply IH. }
  induction ts as [|[c|o v] ts IH]; cbn [fmap list_fmap slot]; [constructor|..].
  - change (commands_of (tok_command c :: ts)) with (c :: commands_of ts). cbn [length]. intros Hnd Hlen.
    apply NoDup_cons. split; [|apply IH; [done|lia]]. intros Hin%Hcom. lia.
  - change (options_of (tok_option o v :: ts)) with (o :: options_of ts). intros [Hni Hnd]%NoDup_cons Hlen.
    apply NoDup_cons. split; [|by apply IH]. intros Hin%Hopt. done.
Qed.

Lemma set_tokens_perm ts ts' : ts ≡ₚ ts' -> NoDup (slot <$> ts) -> forall r, foldl set_token r ts = foldl set_token r ts'.
Proof.
  induction 1 as [|t ts ts' Hp IH|t t' ts|ts1 ts2 ts3 Hp1 IH1 Hp2 IH2]; intros Hnd r; cbn [foldl].
  - done.
  - apply IH. by apply NoDup_cons in Hnd as [_ ?].
  - cbn in Hnd. apply NoDup_cons in Hnd as [Hni _]. rewrite set_token_comm; [done|]. set_solver.
  - rewrite IH1 by done. apply IH2. by rewrite <- Hp1.
Qed.

Lemma accepted_perm name ts ts' diagnostics r : ts ≡ₚ ts' -> accepted name ts diagnostics r -> accepted name ts' diagnostics r.
Proof.
  intros Hp ((c & Hc & Happ) & Hnd & Hadm & ->).
  assert (Hos : options_of ts ≡ₚ options_of ts') by (unfold options_of; by rewrite Hp).
  assert (Hcs : commands_of ts' = [c]).
  { symmetry. apply Permutation_singleton_l. rewrite <- Hc. unfold commands_of. by rewrite Hp. }
  split_and!.
  - exists c. split; [done|]. unfold applicable in *. by setoid_rewrite <- Hos.
  - by rewrite <- Hos.
  - by rewrite <- Hp.
  - apply set_tokens_perm; [done|]. apply slots_nodup; [done|]. rewrite Hc. cbn. lia.
Qed.

(** ** Validated invocations *)
Lemma set_tokens_bounds ts : forall r,
  Forall admissible ts ->
  valid_endpoint (inv_endpoint r.1) = true /\ minimum_timeout <= inv_timeout r.1 <= maximum_timeout
    /\ 1 <= inv_sessions r.1 <= max_sessions ->
  let i := (foldl set_token r ts).1 in
  valid_endpoint (inv_endpoint i) = true /\ minimum_timeout <= inv_timeout i <= maximum_timeout
    /\ 1 <= inv_sessions i <= max_sessions.
Proof.
  induction ts as [|t ts IH]; intros r Hadm Hr; [done|]. apply Forall_cons in Hadm as [Ht Hadm]. cbn [foldl].
  apply IH; [done|]. destruct Hr as (He & Hti & Hse). destruct t as [c|o v]; [done|].
  destruct Ht as (_ & _ & Hv). destruct o; cbn in *; try done.
  - destruct Hv as (n & (_ & _ & -> & _) & Hn). done.
  - destruct Hv as (n & (_ & _ & -> & _) & Hn). done.
Qed.

Lemma parsed_bounds name args diagnostics i d :
  parse name args diagnostics = inl (i, d) ->
  valid_endpoint (inv_endpoint i) = true /\ minimum_timeout <= inv_timeout i <= maximum_timeout
  /\ 1 <= inv_sessions i <= max_sessions
  /\ (is_runtime (inv_command i) = true -> (inv_command i = cmd_serve <-> name = "pipeforge-server")).
Proof.
  intros (ts & _ & (c & Hc & (_ & Happ & _)) & _ & Hadm & Hr)%parsed_tokens.
  pose proof (set_tokens_bounds ts (default_invocation, diagnostics) Hadm) as Hb. rewrite <- Hr in Hb. cbn in Hb.
  pose proof (command_set ts (default_invocation, diagnostics) c Hc) as Hcmd. rewrite <- Hr in Hcmd. cbn in Hcmd.
  destruct Hb as (He & Ht & Hs).
  { split; [by vm_compute|]. unfold minimum_timeout, maximum_timeout, default_timeout, max_sessions. lia. }
  rewrite Hcmd. done.
Qed.

Lemma parsed_limit name args diagnostics i d :
  parse name args diagnostics = inl (i, d) -> trace_event_limit d = trace_event_limit diagnostics.
Proof.
  intros (ts & _ & _ & _ & _ & Hr)%parsed_tokens.
  assert (Hk : forall ts r, trace_event_limit (foldl set_token r ts).2 = trace_event_limit r.2).
  { clear. induction ts as [|t ts IH]; intros r; [done|]. cbn [foldl]. rewrite IH. by destruct t as [c|[] v]. }
  specialize (Hk ts (default_invocation, diagnostics)). by rewrite <- Hr in Hk.
Qed.

(** ** Properties *)

(** C20: The parser.  [parse] accepts exactly the argument lists that the reference
    describes: one command, options that are pairwise distinct, each with a value that is
    not empty, does not begin with two hyphens and is admissible for it (a local pipe
    name, a decimal number within its bounds), and a command and options that apply to
    the executable.  The result is the default invocation with those values, and it does
    not depend on the order of the command and the options. *)
Theorem parse_correct name args diagnostics r :
  (parse name args diagnostics = inl r <-> exists ts, args = texts ts /\ accepted name ts diagnostics r)
  /\ forall ts ts', args = texts ts -> ts ≡ₚ ts' -> parse name args diagnostics = inl r ->
       parse name (texts ts') diagnostics = inl r.
Proof.
  split; [split|].
  - apply parsed_tokens.
  - intros (ts & -> & Ha). by apply parse_texts.
  - intros ts ts' -> Hp Ha%parse_texts. apply parse_texts. by eapply accepted_perm.
Qed.

Example parse_example :
  parse "pipeforge-server" ["--sessions"; "02"; "--serve"; "--log-file"; "a.log"] default_diagnostics
  = inl ({| inv_command := cmd_serve; inv_endpoint := default_endpoint; inv_timeout := 5000; inv_sessions := 2 |},
         {| log_file := "a.log"; trace_file := ""; trace_event_limit := 100000 |}).
Proof. vm_compute. reflexivity. Qed.
