(* ===== verification/Registry.v ===== *)
(** * Object interface, class registry and identifiers
    (include/pipeforge/domain.hpp, src/domain/domain.cpp)

    Registered objects are trusted plug-ins.  [ObjectOps] is the abstract class
    [object]: an implementation type with [clone], [state] and [invoke]; a null
    [unique_ptr] is [None], and [invoke], which may mutate the object also when it
    fails, returns the new object with its result.  The exceptions a plug-in may
    throw are outside the model. *)
From stdpp Require Import prelude gmap strings sorting.
From Stdlib Require Import ZArith Lia.
From S2P Require Import Prelude Pagination Utf8 Contracts Validation.

Definition max_stored_values : Z := 100.
Definition max_stored_objects : Z := 100.
Definition max_session_bytes : Z := 8 * 1024 * 1024.
Definition max_object_state_bytes : Z := max_payload_bytes / 2.
Definition record_charge : Z := 128.

(** ** The object interface *)
Class ObjectOps (Obj : Type) := {
  clone : Obj -> option Obj;
  state : Obj -> list named_value;
  invoke : Obj -> string -> list named_value -> (value + remote_error) * Obj;
}.

(** A factory returns an instance, possibly null, or an expected error; an empty
    [std::function] is [None]. *)
Record class_definition (Obj : Type) := {
  description : class_description;
  create : option (list named_value -> option Obj + remote_error);
  max_state_bytes : Z;
}.
Arguments description {Obj} _.
Arguments create {Obj} _.
Arguments max_state_bytes {Obj} _.

Definition def_name {Obj} (d : class_definition Obj) : string := desc_name (description d).

(** ** State accounting *)
Fixpoint state_charge_from (charge : Z) (fields : list named_value) : Z :=
  match fields with
  | [] => charge
  | f :: rest =>
      state_charge_from (charge ⊞ (record_charge ⊞ strlen (nv_name f) ⊞ value_bytes (nv_data f))) rest
  end.

Definition state_charge (fields : list named_value) : Z := state_charge_from 0 fields.

(** The attribute loop of [state_matches]. *)
Fixpoint attributes_match (fields : list named_value) (attributes : list attribute) : bool :=
  match attributes with
  | [] => true
  | a :: rest =>
      match find_named nv_name (attr_name a) fields with
      | None => false
      | Some found =>
          if negb (kind_of (nv_data found) =? attr_kind a) then false
          else attributes_match fields rest
      end
  end.

Definition state_matches `{Utf8Ops} {Obj} (d : class_definition Obj) (fields : list named_value)
  : bool :=
  if negb (len fields =? len (desc_attributes (description d))) || negb (valid_named_values fields)
  then false
  else if negb (attributes_match fields (desc_attributes (description d))) then false
  else state_charge fields <=? max_state_bytes d.

(** ** Registry *)
Record class_registry (Obj : Type) := { definitions_ : list (class_definition Obj) }.
Arguments definitions_ {Obj} _.

Definition empty_registry {Obj} : class_registry Obj := {| definitions_ := [] |}.

Definition registry_find {Obj} (r : class_registry Obj) (name : string)
  : option (class_definition Obj) :=
  find_named def_name name (definitions_ r).

(** Insertion at [std::ranges::lower_bound]: before the first entry whose name is
    not less. *)
Fixpoint insert_sorted {Obj} (d : class_definition Obj) (l : list (class_definition Obj))
  : list (class_definition Obj) :=
  match l with
  | [] => [d]
  | e :: rest =>
      if bool_decide (str_lt (def_name e) (def_name d)) then e :: insert_sorted d rest
      else d :: e :: rest
  end.

Definition registry_add {Obj} (r : class_registry Obj) (d : class_definition Obj)
  : option remote_error * class_registry Obj :=
  if negb (valid_description (description d)) || negb (has_value (create d))
     || (max_state_bytes d =? 0) || (max_object_state_bytes <? max_state_bytes d)
     || has_value (registry_find r (def_name d))
  then (Some (make_error invalid_request), r)
  else if max_entries <=? len (definitions_ r)
  then (Some (make_error quota_exceeded), r)
  else (None, {| definitions_ := insert_sorted d (definitions_ r) |}).

(** The iterator range [\[upper_bound(after), end)] of a sorted vector. *)
Fixpoint definitions_after {Obj} (after : string) (l : list (class_definition Obj))
  : list (class_definition Obj) :=
  match l with
  | [] => []
  | e :: rest => if bool_decide (str_lt after (def_name e)) then l else definitions_after after rest
  end.

(** The page loop of [list]: the names collected and the items left. *)
Fixpoint page_names {Obj} (limit : Z) (names : list string) (items : list (class_definition Obj))
  : list string * list (class_definition Obj) :=
  match items with
  | [] => (names, [])
  | e :: rest =>
      if len names <? limit then page_names limit (names ++ [def_name e]) rest else (names, items)
  end.

(** [None] stands for [page.names.back()] on an empty vector, which is undefined. *)
Definition registry_list {Obj} (r : class_registry Obj) (after : string) (limit : Z)
  : option (classes_page + remote_error) :=
  if negb (valid_name after true) || negb (valid_page_size limit)
  then Some (inr (make_error invalid_request))
  else
    let '(names, item) := page_names limit [] (definitions_after after (definitions_ r)) in
    match item with
    | [] => Some (inl {| cp_names := names; cp_next := "" |})
    | _ :: _ =>
        match last names with
        | Some back => Some (inl {| cp_names := names; cp_next := back |})
        | None => None
        end
    end.

(** ** Identifiers *)
Record identifier_source := { next_ : Z }.

Definition next (ids : identifier_source) : option Z * identifier_source :=
  if next_ ids =? 0 then (None, ids)
  else (Some (next_ ids), {| next_ := if next_ ids =? u64_max then 0 else next_ ids ⊞ 1 |}).

(** [n] successive calls of [next], until exhaustion. *)
Fixpoint issue (n : nat) (ids : identifier_source) : list Z * identifier_source :=
  match n with
  | O => ([], ids)
  | S n' =>
      match next ids with
      | (None, ids') => ([], ids')
      | (Some id, ids') => let '(l, ids'') := issue n' ids' in (id :: l, ids'')
      end
  end.

(** How many identifiers a source can still issue. *)
Definition available (ids : identifier_source) : Z :=
  if next_ ids =? 0 then 0 else two64 - next_ ids.

(** ** Registry invariant

    A registered definition passed the checks of [add]; the vector is strictly
    sorted by name and bounded. *)
Definition definition_ok {Obj} (d : class_definition Obj) : Prop :=
  valid_description (description d) = true /\ is_Some (create d)
  /\ 0 < max_state_bytes d <= max_object_state_bytes.

Definition name_lt {Obj} : relation (class_definition Obj) :=
  fun a b => str_lt (def_name a) (def_name b).

Definition registry_wf {Obj} (r : class_registry Obj) : Prop :=
  StronglySorted name_lt (definitions_ r) /\ Forall definition_ok (definitions_ r)
  /\ len (definitions_ r) <= max_entries.

(** ** Sorted insertion and search *)
Section registry_facts.
Context {Obj : Type}.
Implicit Types (d e : class_definition Obj) (l : list (class_definition Obj)) (r : class_registry Obj).

#[global] Instance name_lt_strict : StrictOrder (@name_lt Obj).
Proof.
  split.
  - intros d. apply str_lt_irrefl.
  - intros a b c. apply str_lt_trans.
Qed.

Lemma insert_sorted_perm d l : insert_sorted d l ≡ₚ d :: l.
Proof.
  induction l as [|e l IH]; simpl; [done|]. case_bool_decide; [|done].
  rewrite IH. apply Permutation_swap.
Qed.

Lemma insert_sorted_sorted d l :
  StronglySorted name_lt l -> def_name d ∉ def_name <$> l ->
  StronglySorted name_lt (insert_sorted d l).
Proof.
  induction 1 as [|e l Hl IH Hall]; simpl; intros Hd.
  { repeat constructor. }
  apply not_elem_of_cons in Hd as [Hne Hd]. case_bool_decide as Hlt.
  - constructor; [auto|]. rewrite insert_sorted_perm. by constructor.
  - apply str_not_lt in Hlt. assert (Hde : name_lt d e) by (split; auto).
    constructor; [by constructor|]. constructor; [done|].
    eapply Forall_impl; [done|]. intros x Hx. by transitivity e.
Qed.

Lemma sorted_names_NoDup l : StronglySorted name_lt l -> NoDup (def_name <$> l).
Proof.
  intros Hs. apply (sorted_NoDup str_lt).
  induction Hs as [|e l Hl IH Hall]; simpl; constructor; [done|].
  by apply Forall_fmap.
Qed.

Lemma find_named_insert_sorted d l n :
  def_name d ∉ def_name <$> l ->
  find_named def_name n (insert_sorted d l)
  = if decide (n = def_name d) then Some d else find_named def_name n l.
Proof.
  induction l as [|e l IH]; simpl; intros Hd.
  { repeat case_decide; congruence. }
  apply not_elem_of_cons in Hd as [Hne Hd]. case_bool_decide; simpl.
  - rewrite IH by done. repeat case_decide; congruence.
  - repeat case_decide; congruence.
Qed.

Lemma definitions_after_filter after l :
  StronglySorted name_lt l ->
  definitions_after after l = filter (fun e => str_lt after (def_name e)) l.
Proof.
  induction 1 as [|e l Hl IH Hall]; simpl; [done|]. rewrite filter_cons.
  case_bool_decide as Hlt; [rewrite decide_True by done|by rewrite decide_False].
  f_equal. symmetry. apply filter_all.
  eapply Forall_impl; [done|]. intros x Hx. by eapply str_lt_trans.
Qed.

Lemma page_names_spec limit names (items : list (class_definition Obj)) :
  let k := Z.to_nat (limit - len names) in
  page_names limit names items = (names ++ (def_name <$> take k items), drop k items).
Proof.
  revert names. induction items as [|e items IH]; intros names k; simpl.
  { by rewrite take_nil, drop_nil, app_nil_r. }
  destruct (len names <? limit) eqn:E; bool_simp.
  - rewrite IH, len_app. unfold k. change (len [def_name e]) with 1.
    replace (Z.to_nat (limit - len names)) with (S (Z.to_nat (limit - (len names + 1)))) by lia.
    simpl. by rewrite <- app_assoc.
  - unfold k. replace (Z.to_nat (limit - len names)) with 0%nat by lia. simpl. by rewrite app_nil_r.
Qed.

Lemma definition_names_valid l :
  Forall definition_ok l -> Forall (fun n => valid_name n false = true) (def_name <$> l).
Proof.
  intros Hl. rewrite Forall_fmap. eapply Forall_impl; [done|]. intros d (Hd & _).
  by apply valid_description_spec in Hd as ((Hn & _) & _).
Qed.

Lemma registry_find_Some r n d : registry_find r n = Some d -> d ∈ definitions_ r /\ def_name d = n.
Proof. apply find_named_Some. Qed.

Lemma registry_find_ok r n d : registry_wf r -> registry_find r n = Some d -> definition_ok d.
Proof.
  intros (_ & Hok & _) [Hin _]%registry_find_Some. rewrite Forall_forall in Hok. auto.
Qed.

Lemma registry_find_self r n d :
  registry_wf r -> registry_find r n = Some d -> registry_find r (def_name d) = Some d.
Proof. intros Hwf Hf. pose proof (registry_find_Some _ _ _ Hf) as [_ ->]. done. Qed.

Lemma empty_registry_wf : registry_wf (@empty_registry Obj).
Proof. split_and!; [constructor|constructor|done]. Qed.

(** The checks of [add] that answer [invalid_request]. *)
Definition addable r d : Prop :=
  valid_description (description d) = true /\ is_Some (create d) /\ max_state_bytes d <> 0
  /\ max_state_bytes d <= max_object_state_bytes /\ registry_find r (def_name d) = None.

Lemma registry_add_spec r d :
  (~ addable r d /\ registry_add r d = (Some (make_error invalid_request), r))
  \/ (addable r d /\ max_entries <= len (definitions_ r)
      /\ registry_add r d = (Some (make_error quota_exceeded), r))
  \/ (addable r d /\ len (definitions_ r) < max_entries
      /\ registry_add r d = (None, {| definitions_ := insert_sorted d (definitions_ r) |})).
Proof.
  unfold registry_add. destruct (_ || _) eqn:E.
  - left. split; [|done]. intros (H1 & [f Hf] & H3 & H4 & H5).
    apply Z.eqb_neq in H3. apply Z.ltb_ge in H4. rewrite H1, Hf, H3, H4, H5 in E. done.
  - right. bool_simp. assert (Ha : addable r d).
    { split_and!; [done| |done|done|].
      - destruct (create d); [eauto|done].
      - destruct (registry_find r (def_name d)); done. }
    destruct (max_entries <=? _) eqn:El; bool_simp; [left|right]; done.
Qed.

Lemma registry_add_wf r d :
  registry_wf r -> in_u64 (max_state_bytes d) -> registry_wf (registry_add r d).2.
Proof.
  intros Hwf Hu. destruct (registry_add_spec r d) as [[_ ->]|[(_ & _ & ->)|(Ha & Hl & ->)]]; [done..|].
  destruct Hwf as (Hs & Hok & Hb), Ha as (H1 & H2 & H3 & H4 & H5).
  apply find_named_None in H5. unfold registry_wf; simpl. split_and!.
  - by apply insert_sorted_sorted.
  - rewrite insert_sorted_perm. constructor; [|done]. split_and!; [done|done|ulia|done].
  - unfold len in *. rewrite insert_sorted_perm. simpl. lia.
Qed.

(** One page of [list], for a valid query on a well-formed registry. *)
Definition names r : list string := def_name <$> definitions_ r.

Definition names_page r (limit : Z) (after : string) : list string * option string :=
  match registry_list r after limit with
  | Some (inl page) =>
      (cp_names page, if bool_decide (cp_next page = "") then None else Some (cp_next page))
  | _ => ([], None)
  end.

Lemma names_sorted r : registry_wf r -> StronglySorted str_lt (names r).
Proof.
  intros (Hs & _). unfold names. induction Hs as [|e l Hl IH Hall]; simpl; constructor; [done|].
  by apply Forall_fmap.
Qed.

Lemma registry_list_page r limit after :
  registry_wf r -> 1 <= limit <= max_entries -> valid_name after true = true ->
  (exists page, registry_list r after limit = Some (inl page) /\ len (cp_names page) <= limit)
  /\ page_ok id str_lt (names r) after (names_page r limit after).1 (names_page r limit after).2.
Proof.
  intros Hwf Hlim Hn. unfold names_page, registry_list. rewrite Hn.
  replace (valid_page_size limit) with true by (symmetry; apply valid_page_size_spec; lia). simpl.
  pose proof Hwf as (Hs & Hok & _). rewrite definitions_after_filter by done.
  set (items := filter _ _). rewrite page_names_spec, len_nil, Z.sub_0_r. simpl.
  set (k := Z.to_nat limit).
  assert (Hrem : remaining str_lt (names r) after = (def_name <$> take k items) ++ (def_name <$> drop k items)).
  { rewrite <- fmap_app, take_drop. by apply filter_fmap. }
  assert (Hlen : len (def_name <$> take k items) <= limit).
  { unfold len. rewrite length_fmap, length_take. unfold k. lia. }
  destruct (drop k items) as [|e rest] eqn:Ed.
  { split; [eexists; split; done|]. simpl. exists []. by rewrite Hrem. }
  destruct (last (def_name <$> take k items)) as [b|] eqn:El; last first.
  { apply last_None in El. apply fmap_nil_inv in El. apply (f_equal length) in El.
    apply (f_equal length) in Ed. rewrite length_take in El. rewrite length_drop in Ed.
    unfold k in *. simpl in *. lia. }
  assert (Hb : b <> "").
  { apply last_Some_elem_of in El. apply valid_name_ne.
    assert (Hi : Forall definition_ok (take k items)).
    { apply Forall_take. unfold items. rewrite Forall_forall in Hok |- *.
      intros x [_ Hx]%list_elem_of_filter. auto. }
    apply definition_names_valid in Hi. rewrite Forall_forall in Hi. auto. }
  split; [eexists; split; done|]. simpl. rewrite bool_decide_eq_false_2 by done.
  exists (def_name <$> e :: rest). split_and!; [done|done|]. by exists b.
Qed.
End registry_facts.

(** ** Identifier lemmas *)
Lemma next_Some ids id ids' :
  in_u64 (next_ ids) -> next ids = (Some id, ids') ->
  id = next_ ids /\ 0 < id <= u64_max /\ in_u64 (next_ ids')
  /\ (next_ ids' = 0 \/ next_ ids' = id + 1).
Proof.
  intros Hu Hn. unfold next in Hn. destruct (next_ ids =? 0) eqn:E; simplify_eq. bool_simp. simpl.
  destruct (next_ ids =? u64_max) eqn:Em; bool_simp; [ulia|].
  rewrite u64_add_exact by ulia. ulia.
Qed.

Lemma next_None ids ids' : next ids = (None, ids') -> ids' = ids.
Proof. unfold next. by destruct (next_ ids =? 0); intros; simplify_eq. Qed.

Lemma issue_seq n ids :
  in_u64 (next_ ids) ->
  (issue n ids).1 = seqZ (next_ ids) (Z.min (Z.of_nat n) (available ids)).
Proof.
  revert ids. induction n as [|n IH]; intros ids Hu.
  { simpl. rewrite Z.min_l; [done|]. unfold available. destruct (_ =? 0); ulia. }
  cbn [issue]. unfold available. destruct (next ids) as [[id|] ids'] eqn:E.
  - destruct (next_Some _ _ _ Hu E) as (-> & Hr & Hu' & Hnext).
    specialize (IH ids' Hu'). destruct (issue n ids') as [l e]. cbn [fst] in *.
    replace (next_ ids =? 0) with false by (symmetry; apply Z.eqb_neq; lia).
    rewrite seqZ_cons by ulia. f_equal. rewrite IH. unfold available.
    destruct Hnext as [H0|H1].
    + unfold next in E. destruct (next_ ids =? 0); simplify_eq. simpl in *.
      destruct (next_ ids =? u64_max) eqn:Em; bool_simp; [|rewrite u64_add_exact in H0 by ulia; lia].
      rewrite Em. simpl. rewrite Z.min_r by lia. rewrite seqZ_nil by lia. rewrite seqZ_nil; [done|ulia].
    + rewrite H1. replace (next_ ids + 1 =? 0) with false by (symmetry; apply Z.eqb_neq; lia).
      f_equal; ulia.
  - simpl. unfold next in E. destruct (next_ ids =? 0) eqn:E0; simplify_eq.
    rewrite seqZ_nil; [done|lia].
Qed.

(** ** Properties *)

(** C33: Registration.  [add] on a well-formed registry rejects invalid metadata, an
    empty factory, a zero or oversized state bound and a duplicate name as an
    invalid request, a 65th class by quota, and leaves the registry unchanged in
    both cases; otherwise the registry stays sorted, unique and bounded, the new
    class is found under its name, and every other name resolves as before. *)
Theorem registry_add_correct {Obj} (r : class_registry Obj) (d : class_definition Obj) :
  registry_wf r -> in_u64 (max_state_bytes d) ->
  registry_wf (registry_add r d).2
  /\ match registry_add r d with
     | (Some e, r') =>
         r' = r /\ ((~ addable r d /\ e = make_error invalid_request)
                   \/ (addable r d /\ len (definitions_ r) = max_entries
                       /\ e = make_error quota_exceeded))
     | (None, r') =>
         addable r d
         /\ forall n, registry_find r' n
                      = if decide (n = def_name d) then Some d else registry_find r n
     end.
Proof.
  intros Hwf Hu. split; [by apply registry_add_wf|].
  destruct (registry_add_spec r d) as [[Ha ->]|[(Ha & Hl & ->)|(Ha & Hl & ->)]].
  - auto.
  - split; [done|]. right. destruct Hwf as (_ & _ & Hb). split_and!; [done|lia|done].
  - split; [done|]. intros n. unfold registry_find; simpl. apply find_named_insert_sorted.
    apply find_named_None. apply Ha.
Qed.

(** C34: Class enumeration.  For every page limit from 1 to 64, following the
    cursors of [list] from the empty name returns every registered class name
    exactly once, in increasing order, and stops; every page respects the limit
    and no page evaluates [back()] of an empty vector. *)
Theorem registry_enumeration {Obj} (r : class_registry Obj) (limit : Z) :
  registry_wf r -> 1 <= limit <= max_entries ->
  collect (names_page r limit) (S (length (definitions_ r))) "" = Some (names r)
  /\ StronglySorted str_lt (names r)
  /\ forall after, valid_name after true = true ->
       exists page, registry_list r after limit = Some (inl page) /\ len (cp_names page) <= limit.
Proof.
  intros Hwf Hlim. pose proof (names_sorted r Hwf) as Hs.
  assert (Hv : Forall (fun n => valid_name n false = true) (names r))
    by (apply definition_names_valid, Hwf).
  assert (Hrem : remaining str_lt (names r) "" = names r).
  { apply filter_all. eapply Forall_impl; [done|]. intros n Hn. split; [apply str_empty_le|].
    intros <-. done. }
  split_and!; [|done|intros; by apply registry_list_page].
  rewrite (collect_complete str_lt id str_lt) with (items := names r) (good := fun n => valid_name n true = true);
    rewrite ?Hrem; try done.
  - intros c x y Hcx Hxy. by transitivity x.
  - intros c Hc. by apply registry_list_page.
  - rewrite Forall_forall in Hv. intros x Hx. by apply valid_name_allow, Hv.
  - unfold names. rewrite length_fmap. lia.
Qed.

(** Identifiers.  [n] successive calls of [next] issue the consecutive values
    from the current one up to the largest 64-bit value at most, so they are
    nonzero, strictly increasing and never repeated, and an exhausted source
    (and one that starts at zero) issues nothing: the sequence does not wrap. *)
Theorem identifiers_consecutive (n : nat) (ids : identifier_source) :
  in_u64 (next_ ids) ->
  (issue n ids).1 = seqZ (next_ ids) (Z.min (Z.of_nat n) (available ids))
  /\ Forall (fun id => 0 < id <= u64_max) (issue n ids).1.
Proof.
  intros Hu. assert (Heq : (issue n ids).1 = seqZ (next_ ids) (Z.min (Z.of_nat n) (available ids)))
    by (by apply issue_seq).
  split; [done|]. rewrite Heq. apply Forall_forall. intros id Hid%elem_of_seqZ.
  unfold available in Hid. destruct (next_ ids =? 0) eqn:E; bool_simp; ulia.
Qed.

Lemma identifiers_consecutive_witness :
  (issue 5 {| next_ := u64_max - 1 |}).1 = [u64_max - 1; u64_max].
Proof.
  rewrite (proj1 (identifiers_consecutive 5 {| next_ := u64_max - 1 |} ltac:(unfold in_u64; vm_compute; split; congruence))).
  reflexivity.
Defined.
