(* ===== verification/Store.v ===== *)
(** * The session store (include/pipeforge/domain.hpp, src/domain/domain.cpp)

    One definition per [apply] overload, and [execute], which dispatches on the
    operation.  The registry is a frozen parameter; the shared identifier source is
    passed in and out.  The pointer [stored_object::definition] into the frozen
    registry is the definition itself.  A result [None] marks undefined behaviour
    ([back()] of an empty vector); the theorems of StoreProofs exclude it. *)
From stdpp Require Import prelude gmap strings sorting.
From Stdlib Require Import ZArith Lia.
From S2P Require Import Prelude Utf8 Contracts Validation Registry.

Definition page_byte_budget : Z := max_payload_bytes / 2.

Record session_limits := { lim_values : Z; lim_objects : Z; lim_bytes : Z }.

Definition default_limits : session_limits := {|
  lim_values := max_stored_values;
  lim_objects := max_stored_objects;
  lim_bytes := max_session_bytes;
|}.

Record stored_object (Obj : Type) := {
  so_definition : class_definition Obj;
  so_instance : Obj;
  so_charge : Z;
}.
Arguments so_definition {Obj} _.
Arguments so_instance {Obj} _.
Arguments so_charge {Obj} _.

Record session_store (Obj : Type) := {
  limits_ : session_limits;
  values_ : gmap Z value;
  objects_ : gmap Z (stored_object Obj);
  used_ : Z;
  closed_ : bool;
}.
Arguments limits_ {Obj} _.
Arguments values_ {Obj} _.
Arguments objects_ {Obj} _.
Arguments used_ {Obj} _.
Arguments closed_ {Obj} _.

(** The constructor clamps the requested limits to the hard ceilings. *)
Definition new_session_store {Obj} (limits : session_limits) : session_store Obj := {|
  limits_ := {| lim_values := lim_values limits `min` max_stored_values;
                lim_objects := lim_objects limits `min` max_stored_objects;
                lim_bytes := lim_bytes limits `min` max_session_bytes |};
  values_ := ∅;
  objects_ := ∅;
  used_ := 0;
  closed_ := false;
|}.

Definition close {Obj} (st : session_store Obj) : session_store Obj := {|
  limits_ := limits_ st;
  values_ := ∅;
  objects_ := ∅;
  used_ := 0;
  closed_ := true;
|}.

Definition accounted_bytes {Obj} (st : session_store Obj) : Z := used_ st.

Definition fail (code : error_code) : outcome := o_error (make_error code).

Definition widen (r : classes_page + remote_error) : outcome :=
  match r with
  | inl page => o_classes page
  | inr e => o_error e
  end.

(** The page loop of [list_values]: the records collected and the items left. *)
Fixpoint page_values (limit : Z) (records : list value_record) (bytes : Z) (items : list (Z * value))
  : list value_record * list (Z * value) :=
  match items with
  | [] => (records, [])
  | (id, v) :: rest =>
      if len records <? limit then
        let charge := record_charge ⊞ value_bytes v in
        if page_byte_budget ⊟ bytes <? charge then (records, items)
        else page_values limit (records ++ [{| vr_id := id; vr_data := v |}]) (bytes ⊞ charge) rest
      else (records, items)
  end.

Section store.
Context `{Utf8Ops} {Obj : Type} `{ObjectOps Obj}.
Context (registry : class_registry Obj).
Implicit Types (st : session_store Obj) (ids : identifier_source).

Definition apply_list_classes (after : string) (limit : Z) : option outcome :=
  widen <$> registry_list registry after limit.

Definition apply_describe_class (name : string) : outcome :=
  if negb (valid_name name false) then fail invalid_request
  else
    match registry_find registry name with
    | None => fail not_found
    | Some d => o_description (description d)
    end.

Definition apply_put_value st ids (data : value)
  : outcome * session_store Obj * identifier_source :=
  if negb (valid_value data) then (fail invalid_request, st, ids)
  else
    let charge := record_charge ⊞ value_bytes data in
    if (lim_values (limits_ st) <=? msize (values_ st)) || (lim_bytes (limits_ st) ⊟ used_ st <? charge)
    then (fail quota_exceeded, st, ids)
    else
      match next ids with
      | (None, ids') => (fail quota_exceeded, st, ids')
      | (Some id, ids') =>
          (o_record {| vr_id := id; vr_data := data |},
           {| limits_ := limits_ st; values_ := emplace id data (values_ st);
              objects_ := objects_ st; used_ := used_ st ⊞ charge; closed_ := closed_ st |},
           ids')
      end.

Definition apply_get_value st (id : Z) : outcome :=
  if id =? 0 then fail invalid_request
  else
    match values_ st !! id with
    | None => fail not_found
    | Some v => o_record {| vr_id := id; vr_data := v |}
    end.

Definition apply_list_values st (after limit : Z) : option outcome :=
  if negb (valid_page_size limit) then Some (fail invalid_request)
  else
    let '(records, item) := page_values limit [] 0 (upper_bound after (values_ st)) in
    match item with
    | [] => Some (o_values {| vp_values := records; vp_next := 0 |})
    | _ :: _ =>
        match last records with
        | Some back => Some (o_values {| vp_values := records; vp_next := vr_id back |})
        | None => None
        end
    end.

Definition apply_create_object st ids (class_name : string) (arguments : list named_value)
  : outcome * session_store Obj * identifier_source :=
  if negb (valid_name class_name false) then (fail invalid_request, st, ids)
  else
    match registry_find registry class_name with
    | None => (fail not_found, st, ids)
    | Some d =>
        if negb (valid_arguments arguments (desc_constructor_parameters (description d)))
        then (fail invalid_request, st, ids)
        else if lim_objects (limits_ st) <=? msize (objects_ st) then (fail quota_exceeded, st, ids)
        else
          match create d with
          | None => (fail internal_failure, st, ids) (* excluded by registration *)
          | Some factory =>
              match factory arguments with
              | inr e => (fail (err_code e), st, ids)
              | inl None => (fail internal_failure, st, ids)
              | inl (Some instance) =>
                  let fields := state instance in
                  if negb (state_matches d fields) then (fail internal_failure, st, ids)
                  else
                    let charge := record_charge ⊞ strlen class_name ⊞ state_charge fields in
                    if lim_bytes (limits_ st) ⊟ used_ st <? charge
                    then (fail quota_exceeded, st, ids)
                    else
                      match next ids with
                      | (None, ids') => (fail quota_exceeded, st, ids')
                      | (Some id, ids') =>
                          (o_object {| snap_id := id; snap_class_name := class_name;
                                       snap_state := fields |},
                           {| limits_ := limits_ st; values_ := values_ st;
                              objects_ := emplace id {| so_definition := d; so_instance := instance;
                                                        so_charge := charge |} (objects_ st);
                              used_ := used_ st ⊞ charge; closed_ := closed_ st |},
                           ids')
                      end
              end
          end
    end.

Definition apply_get_object st (id : Z) : outcome :=
  if id =? 0 then fail invalid_request
  else
    match objects_ st !! id with
    | None => fail not_found
    | Some found =>
        let fields := state (so_instance found) in
        if negb (state_matches (so_definition found) fields) then fail internal_failure
        else o_object {| snap_id := id; snap_class_name := def_name (so_definition found);
                         snap_state := fields |}
    end.

Definition apply_release_object st (id : Z) : outcome * session_store Obj :=
  if id =? 0 then (fail invalid_request, st)
  else
    match objects_ st !! id with
    | None => (fail not_found, st)
    | Some found =>
        (o_released,
         {| limits_ := limits_ st; values_ := values_ st; objects_ := delete id (objects_ st);
            used_ := used_ st ⊟ so_charge found; closed_ := closed_ st |})
    end.

Definition apply_get_attribute st (id : Z) (name : string) : outcome :=
  if negb (valid_name name false) then fail invalid_request
  else
    match apply_get_object st id with
    | o_object snapshot =>
        match find_named nv_name name (snap_state snapshot) with
        | None => fail not_found
        | Some found => o_value (nv_data found)
        end
    | other => other
    end.

Definition apply_invoke_method st (id : Z) (name : string) (arguments : list named_value)
  : outcome * session_store Obj :=
  if (id =? 0) || negb (valid_name name false) then (fail invalid_request, st)
  else
    match objects_ st !! id with
    | None => (fail not_found, st)
    | Some entry =>
        let d := so_definition entry in
        match find_named method_name name (desc_methods (description d)) with
        | None => (fail not_found, st)
        | Some m =>
            if negb (valid_arguments arguments (method_parameters m)) then (fail invalid_request, st)
            else
              match clone (so_instance entry) with
              | None => (fail internal_failure, st)
              | Some candidate =>
                  match invoke candidate name arguments with
                  | (inr e, _) => (fail (err_code e), st)
                  | (inl v, candidate') =>
                      let fields := state candidate' in
                      if negb (valid_value v) || negb (kind_of v =? method_result_kind m)
                         || negb (state_matches d fields)
                      then (fail internal_failure, st)
                      else
                        let charge := record_charge ⊞ strlen (def_name d) ⊞ state_charge fields in
                        let retained := used_ st ⊟ so_charge entry in
                        if lim_bytes (limits_ st) ⊟ retained <? charge
                        then (fail quota_exceeded, st)
                        else
                          (o_value v,
                           {| limits_ := limits_ st; values_ := values_ st;
                              objects_ := <[id := {| so_definition := d; so_instance := candidate';
                                                     so_charge := charge |}]> (objects_ st);
                              used_ := retained ⊞ charge; closed_ := closed_ st |})
                  end
              end
        end
    end.

Definition execute st ids (op : operation)
  : option (outcome * session_store Obj * identifier_source) :=
  if closed_ st then Some (fail access_denied, st, ids)
  else
    match op with
    | list_classes after limit =>
        (fun o => (o, st, ids)) <$> apply_list_classes after limit
    | describe_class name => Some (apply_describe_class name, st, ids)
    | put_value data => Some (apply_put_value st ids data)
    | get_value id => Some (apply_get_value st id, st, ids)
    | list_values after limit => (fun o => (o, st, ids)) <$> apply_list_values st after limit
    | create_object class_name arguments =>
        Some (apply_create_object st ids class_name arguments)
    | get_object id => Some (apply_get_object st id, st, ids)
    | release_object id => Some (apply_release_object st id, ids)
    | get_attribute id name => Some (apply_get_attribute st id name, st, ids)
    | invoke_method id name arguments => Some (apply_invoke_method st id name arguments, ids)
    end.
End store.
