(* ===== verification/StoreProofs.v ===== *)
(** * The session store is correct

    The store invariant and the lemmas about charges, machine arithmetic and pages
    that its preservation needs.  Everything here holds for an arbitrary
    implementation of the object interface. *)
From stdpp Require Import prelude gmap strings sorting.
From Stdlib Require Import ZArith Lia.
From S2P Require Import Prelude Pagination Utf8 Contracts Validation Registry Store.

(** ** Charges without wrap-around *)
Definition value_charge (v : value) : Z := record_charge + value_bytes v.
Definition field_charge (f : named_value) : Z :=
  record_charge + strlen (nv_name f) + value_bytes (nv_data f).
Definition fields_charge (fields : list named_value) : Z := zsum field_charge fields.
Definition object_charge {Obj} (d : class_definition Obj) (fields : list named_value) : Z :=
  record_charge + strlen (def_name d) + fields_charge fields.

Definition max_field_charge : Z := record_charge + max_name_bytes + max_string_bytes.

(** An attribute read as the parameter it could fill. *)
Definition attr_parameter (a : attribute) : parameter :=
  {| param_name := attr_name a; param_kind := attr_kind a |}.

(** An identifier that the source has handed out. *)
Definition issued (ids : identifier_source) (id : Z) : Prop :=
  0 < id <= u64_max /\ (next_ ids = 0 \/ id < next_ ids).

Section charges.
Context `{Utf8Ops} {Obj : Type}.
Implicit Types (d : class_definition Obj) (fields : list named_value).

Lemma field_charge_bound f :
  valid_name (nv_name f) false = true -> valid_value (nv_data f) = true ->
  0 <= field_charge f <= max_field_charge.
Proof.
  intros Hn Hv. apply valid_name_length in Hn. apply value_bytes_bound in Hv.
  pose proof (strlen_nonneg (nv_name f)). pose proof (value_bytes_nonneg (nv_data f)).
  unfold field_charge, max_field_charge, record_charge in *. lia.
Qed.

Lemma valid_fields_bound fields :
  valid_named_values fields = true ->
  0 <= fields_charge fields <= len fields * max_field_charge /\ len fields <= max_entries.
Proof.
  intros (Hl & Hn & _ & Hv)%valid_named_values_spec. rewrite Forall_forall in Hn, Hv.
  split_and!; [apply zsum_nonneg|apply zsum_bound|done]; intros f Hf; apply field_charge_bound; auto.
Qed.

Lemma state_charge_from_exact fields c :
  Forall (fun f => 0 <= field_charge f) fields -> 0 <= c -> c + fields_charge fields < two64 ->
  state_charge_from c fields = c + fields_charge fields.
Proof.
  unfold fields_charge. revert c. induction fields as [|f fields IH]; intros c Hf Hc Hb; simpl in *; [lia|].
  apply Forall_cons in Hf as [Hf Hfs].
  assert (0 <= zsum field_charge fields) by (apply zsum_nonneg; by rewrite Forall_forall in Hfs).
  unfold field_charge in *. pose proof (strlen_nonneg (nv_name f)).
  pose proof (value_bytes_nonneg (nv_data f)). unfold record_charge in *.
  rewrite (u64_add_exact 128) by ulia. rewrite (u64_add_exact (128 + _)) by ulia.
  rewrite (u64_add_exact c) by ulia. rewrite IH by (done || ulia). lia.
Qed.

Lemma state_charge_exact fields :
  valid_named_values fields = true -> state_charge fields = fields_charge fields.
Proof.
  intros Hv. pose proof (valid_fields_bound _ Hv) as [Hb Hl].
  apply valid_named_values_spec in Hv as (_ & Hn & _ & Hv). rewrite Forall_forall in Hn, Hv.
  unfold state_charge. rewrite state_charge_from_exact; [lia| |lia|].
  - apply Forall_forall. intros f Hf. apply field_charge_bound; auto.
  - unfold max_field_charge, record_charge, max_name_bytes, max_string_bytes, max_entries in *. ulia.
Qed.

Lemma attributes_match_spec fields attributes :
  attributes_match fields attributes = forallb (argument_matches fields) (attr_parameter <$> attributes).
Proof.
  induction attributes as [|a l IH]; [done|]. simpl. unfold argument_matches at 1. simpl.
  destruct (find_named _ _ _); [|done]. by destruct (_ =? _).
Qed.

(** [state_matches] accepts exactly the valid states whose names and kinds are
    those of the registered attributes, in any order, within the state bound. *)
Lemma state_matches_spec d fields :
  NoDup (attr_name <$> desc_attributes (description d)) ->
  state_matches d fields = true <->
  valid_named_values fields = true
  /\ argument_signature <$> fields
     ≡ₚ signature <$> (attr_parameter <$> desc_attributes (description d))
  /\ fields_charge fields <= max_state_bytes d.
Proof.
  intros Hnd. unfold state_matches.
  set (attrs := desc_attributes (description d)) in *.
  destruct (len fields =? len attrs) eqn:El; bool_simp; simpl; last first.
  { split; [done|]. intros (_ & Hp%Permutation_length & _). rewrite !length_fmap in Hp.
    unfold len in El. lia. }
  destruct (valid_named_values fields) eqn:Ev; simpl; [|naive_solver].
  rewrite state_charge_exact, attributes_match_spec by done.
  pose proof Ev as (_ & _ & Hn & _)%valid_named_values_spec.
  rewrite <- (arguments_perm fields (attr_parameter <$> attrs)); last first.
  { unfold len in *. by rewrite length_fmap. }
  { by rewrite <- list_fmap_compose. }
  { done. }
  destruct (forallb _ _) eqn:Ef; simpl.
  - rewrite forallb_spec, Forall_forall in Ef. rewrite Z.leb_le. naive_solver.
  - split; [done|]. intros (_ & Hm & _). apply Forall_forall, forallb_spec in Hm. congruence.
Qed.

Lemma definition_attrs_NoDup d :
  definition_ok d -> NoDup (attr_name <$> desc_attributes (description d)).
Proof.
  intros (Hd & _). apply valid_description_spec in Hd as ((_ & _ & _ & Ha & _) & _).
  by apply valid_names_spec in Ha as [_ Ha].
Qed.

Lemma state_matches_valid d fields :
  definition_ok d -> state_matches d fields = true ->
  valid_named_values fields = true /\ 0 <= fields_charge fields <= max_object_state_bytes.
Proof.
  intros Hd Hm. pose proof (definition_attrs_NoDup _ Hd) as Hnd.
  apply state_matches_spec in Hm as (Hv & _ & Hb); [|done].
  pose proof (valid_fields_bound _ Hv). destruct Hd as (_ & _ & Hs). split; [done|lia].
Qed.

Lemma definition_name_length d : definition_ok d -> 0 <= strlen (def_name d) <= max_name_bytes.
Proof.
  intros (Hd & _). apply valid_description_spec in Hd as ((Hn & _) & _).
  split; [apply strlen_nonneg|by eapply valid_name_length].
Qed.
End charges.

(** ** The invariant *)
Section invariant.
Context `{Utf8Ops} {Obj : Type} `{ObjectOps Obj}.
Context (registry : class_registry Obj).
Implicit Types (st : session_store Obj) (ids : identifier_source).

(** A retained object belongs to a registered class, its state matches the
    metadata, and its charge is the one of that state. *)
Definition object_wf (o : stored_object Obj) : Prop :=
  registry_find registry (def_name (so_definition o)) = Some (so_definition o)
  /\ state_matches (so_definition o) (state (so_instance o)) = true
  /\ so_charge o = object_charge (so_definition o) (state (so_instance o)).

Record store_wf st ids : Prop := {
  wf_ids : in_u64 (next_ ids);
  wf_lim_values : 0 <= lim_values (limits_ st) <= max_stored_values;
  wf_lim_objects : 0 <= lim_objects (limits_ st) <= max_stored_objects;
  wf_lim_bytes : 0 <= lim_bytes (limits_ st) <= max_session_bytes;
  wf_values : forall id v, values_ st !! id = Some v -> issued ids id /\ valid_value v = true;
  wf_objects : forall id o, objects_ st !! id = Some o -> issued ids id /\ object_wf o;
  wf_disjoint : forall id, values_ st !! id = None \/ objects_ st !! id = None;
  wf_used : used_ st = msum value_charge (values_ st) + msum so_charge (objects_ st);
  wf_quota : used_ st <= lim_bytes (limits_ st);
  wf_count_values : msize (values_ st) <= lim_values (limits_ st);
  wf_count_objects : msize (objects_ st) <= lim_objects (limits_ st);
  wf_closed : closed_ st = true -> values_ st = ∅ /\ objects_ st = ∅;
}.

(** The source may have advanced, on behalf of this or another session. *)
Definition ids_le (ids ids' : identifier_source) : Prop :=
  in_u64 (next_ ids') /\ (next_ ids' = 0 \/ (next_ ids <> 0 /\ next_ ids <= next_ ids')).

#[global] Instance ids_le_trans : Transitive ids_le.
Proof. intros a b c [_ Hab] [Hc Hbc]. split; [done|]. lia. Qed.

Lemma ids_le_refl ids : in_u64 (next_ ids) -> ids_le ids ids.
Proof. intros. split; [done|]. lia. Qed.

Lemma next_ids_le ids o ids' : in_u64 (next_ ids) -> next ids = (o, ids') -> ids_le ids ids'.
Proof.
  intros Hu Hn. destruct o as [id|].
  - destruct (next_Some _ _ _ Hu Hn) as (-> & Hr & Hu' & Hx). split; [done|]. lia.
  - apply next_None in Hn as ->. by apply ids_le_refl.
Qed.

Lemma issued_le ids ids' id : ids_le ids ids' -> issued ids id -> issued ids' id.
Proof. intros [_ Hle] [Hr Hi]. split; [done|]. lia. Qed.

Lemma issued_next ids id ids' : in_u64 (next_ ids) -> next ids = (Some id, ids') ->
  issued ids' id /\ ~ issued ids id.
Proof.
  intros Hu Hn. destruct (next_Some _ _ _ Hu Hn) as (-> & Hr & Hu' & Hx).
  unfold issued. split; [lia|]. intros [_ Hi]. lia.
Qed.

Lemma store_wf_le st ids ids' : ids_le ids ids' -> store_wf st ids -> store_wf st ids'.
Proof.
  intros Hle []. split; try done.
  - apply Hle.
  - intros id v Hv. destruct (wf_values0 id v Hv). eauto using issued_le.
  - intros id o Ho. destruct (wf_objects0 id o Ho). eauto using issued_le.
Qed.

Lemma new_session_wf limits ids :
  in_u64 (next_ ids) -> 0 <= lim_values limits -> 0 <= lim_objects limits -> 0 <= lim_bytes limits ->
  store_wf (new_session_store limits) ids.
Proof.
  intros Hu Hv Ho Hb. unfold max_stored_values, max_stored_objects, max_session_bytes in *.
  split; simpl; unfold max_stored_values, max_stored_objects, max_session_bytes;
    rewrite ?msum_empty; try done; try lia; try (by left);
    unfold msize; rewrite map_size_empty; lia.
Qed.

Lemma close_wf st ids : store_wf st ids -> store_wf (close st) ids.
Proof.
  intros []. split; simpl; rewrite ?msum_empty; try done; try lia; try (by left);
    unfold msize; rewrite map_size_empty; lia.
Qed.

(** ** Consequences of the invariant *)
Section facts.
Context (registry_ok : registry_wf registry) (st : session_store Obj) (ids : identifier_source).
Context (wf : store_wf st ids).

Lemma value_charge_bound v :
  valid_value v = true -> record_charge <= value_charge v <= record_charge + max_string_bytes.
Proof.
  intros Hv%value_bytes_bound. pose proof (value_bytes_nonneg v). unfold value_charge. lia.
Qed.

Lemma value_charge_exact v : valid_value v = true -> record_charge ⊞ value_bytes v = value_charge v.
Proof.
  intros Hv%value_charge_bound. unfold value_charge, record_charge, max_string_bytes in *.
  apply u64_add_exact; ulia.
Qed.

Lemma object_charge_bound (d : class_definition Obj) fields :
  definition_ok d -> state_matches d fields = true ->
  0 <= object_charge d fields <= record_charge + max_name_bytes + max_object_state_bytes.
Proof.
  intros Hd Hm. pose proof (definition_name_length d Hd).
  destruct (state_matches_valid d fields Hd Hm). unfold object_charge, record_charge. lia.
Qed.

Lemma object_charge_exact (d : class_definition Obj) fields n :
  definition_ok d -> state_matches d fields = true -> n = def_name d ->
  record_charge ⊞ strlen n ⊞ state_charge fields = object_charge d fields.
Proof.
  intros Hd Hm ->. pose proof (definition_name_length d Hd).
  destruct (state_matches_valid d fields Hd Hm) as [Hv Hb].
  rewrite state_charge_exact by done.
  unfold object_charge, record_charge, max_name_bytes, max_object_state_bytes, max_payload_bytes in *.
  change (1024 * 1024 / 2) with 524288 in *.
  rewrite (u64_add_exact 128) by ulia. apply u64_add_exact; ulia.
Qed.

Lemma stored_definition_ok id o : objects_ st !! id = Some o -> definition_ok (so_definition o).
Proof.
  intros Ho. destruct (wf_objects _ _ wf id o Ho) as (_ & Hf & _). by eapply registry_find_ok.
Qed.

Lemma stored_charge id o :
  objects_ st !! id = Some o ->
  0 <= so_charge o <= record_charge + max_name_bytes + max_object_state_bytes.
Proof.
  intros Ho. destruct (wf_objects _ _ wf id o Ho) as (_ & Hf & Hm & ->).
  apply object_charge_bound; [by eapply stored_definition_ok|done].
Qed.

Lemma values_sum_nonneg : 0 <= msum value_charge (values_ st).
Proof.
  apply msum_nonneg. intros id v Hv. destruct (wf_values _ _ wf id v Hv) as [_ Hv'].
  pose proof (value_charge_bound v Hv'). unfold record_charge in *. lia.
Qed.

Lemma objects_sum_nonneg : 0 <= msum so_charge (objects_ st).
Proof. apply msum_nonneg. intros id o Ho. by destruct (stored_charge id o Ho). Qed.

Lemma used_range : 0 <= used_ st <= lim_bytes (limits_ st).
Proof.
  rewrite (wf_used _ _ wf). pose proof values_sum_nonneg. pose proof objects_sum_nonneg.
  pose proof (wf_quota _ _ wf) as Hq. rewrite (wf_used _ _ wf) in Hq. lia.
Qed.

Lemma headroom_exact : lim_bytes (limits_ st) ⊟ used_ st = lim_bytes (limits_ st) - used_ st.
Proof.
  pose proof used_range. pose proof (wf_lim_bytes _ _ wf). unfold max_session_bytes in *.
  apply u64_sub_exact; ulia.
Qed.

Lemma stored_charge_le_used id o : objects_ st !! id = Some o -> 0 <= so_charge o <= used_ st.
Proof.
  intros Ho. split; [by apply (stored_charge id o)|]. rewrite (wf_used _ _ wf).
  pose proof values_sum_nonneg. enough (so_charge o <= msum so_charge (objects_ st)) by lia.
  apply (msum_lookup_le so_charge _ id); [|done]. intros k v Hv. by destruct (stored_charge k v Hv).
Qed.

Lemma fresh_id id ids' :
  next ids = (Some id, ids') -> values_ st !! id = None /\ objects_ st !! id = None.
Proof.
  intros Hn. destruct (issued_next _ _ _ (wf_ids _ _ wf) Hn) as [_ Hni].
  split.
  - destruct (values_ st !! id) as [v|] eqn:E; [|done]. by apply (wf_values _ _ wf) in E as [].
  - destruct (objects_ st !! id) as [o|] eqn:E; [|done]. by apply (wf_objects _ _ wf) in E as [].
Qed.
End facts.
End invariant.
