(* ===== verification/StoreSpec.v ===== *)
(** * The contract of the session store, and the refinement

    The abstract store has no running byte count, no machine arithmetic and no
    undefined behaviour: it holds the retained values and objects, and the budget
    in use is computed from them.  [spec_step] says when an operation is refused
    and with which code, what a query answers, and how a successful mutation
    changes the contents.  [execute_refines] shows that every execution of the
    detailed store, with an arbitrary plug-in, is such a step. *)
From stdpp Require Import prelude gmap strings sorting.
From Stdlib Require Import ZArith Lia.
From S2P Require Import Prelude Pagination Utf8 Contracts Validation Registry Store StoreProofs.

(** The integer fields of an operation are in the range of their C++ types. *)
Definition operation_typed (op : operation) : Prop :=
  match op with
  | list_classes _ limit => 0 <= limit
  | list_values after limit => 0 <= after /\ 0 <= limit
  | get_value id | get_object id | release_object id | get_attribute id _ | invoke_method id _ _ =>
      in_u64 id
  | _ => True
  end.

Definition entry_record (e : Z * value) : value_record := {| vr_id := e.1; vr_data := e.2 |}.

Section spec.
Context `{Utf8Ops} {Obj : Type} `{ObjectOps Obj}.
Context (registry : class_registry Obj).

Record abs_store := {
  a_limits : session_limits;
  a_values : gmap Z value;
  a_objects : gmap Z (class_definition Obj * Obj);
  a_closed : bool;
}.

Definition abs_charge (o : class_definition Obj * Obj) : Z := object_charge o.1 (state o.2).

(** The bytes in use, recomputed from the contents. *)
Definition a_used (a : abs_store) : Z :=
  msum value_charge (a_values a) + msum abs_charge (a_objects a).

Definition a_room (a : abs_store) (charge : Z) : Prop := a_used a + charge <= lim_bytes (a_limits a).

Definition exhausted (ids : identifier_source) : Prop := next_ ids = 0.

Definition abs (st : session_store Obj) : abs_store := {|
  a_limits := limits_ st;
  a_values := values_ st;
  a_objects := (fun o => (so_definition o, so_instance o)) <$> objects_ st;
  a_closed := closed_ st;
|}.

(** *** Refusals

    The call that a well-formed creation or invocation makes to the plug-in, and
    what it returns. *)
Definition constructs (n : string) (args : list named_value) (d : class_definition Obj)
    (r : option Obj + remote_error) : Prop :=
  registry_find registry n = Some d
  /\ valid_arguments args (desc_constructor_parameters (description d)) = true
  /\ exists factory, create d = Some factory /\ factory args = r.

Definition calls (a : abs_store) (id : Z) (n : string) (args : list named_value)
    (d : class_definition Obj) (i : Obj) (m : method) : Prop :=
  a_objects a !! id = Some (d, i)
  /\ find_named method_name n (desc_methods (description d)) = Some m
  /\ valid_arguments args (method_parameters m) = true.

Definition value_slot (a : abs_store) : Prop := msize (a_values a) < lim_values (a_limits a).
Definition object_slot (a : abs_store) : Prop := msize (a_objects a) < lim_objects (a_limits a).

Inductive refuses (a : abs_store) (ids : identifier_source) : operation -> error_code -> Prop :=
  | no_page_names after limit :
      ~ (valid_name after true = true /\ 1 <= limit <= max_entries) ->
      refuses a ids (list_classes after limit) invalid_request
  | no_describe_name n :
      valid_name n false = false -> refuses a ids (describe_class n) invalid_request
  | no_describe n :
      valid_name n false = true -> registry_find registry n = None ->
      refuses a ids (describe_class n) not_found
  | no_put_value v : valid_value v = false -> refuses a ids (put_value v) invalid_request
  | no_put_slot v :
      valid_value v = true -> ~ value_slot a -> refuses a ids (put_value v) quota_exceeded
  | no_put_room v :
      valid_value v = true -> value_slot a -> ~ a_room a (value_charge v) ->
      refuses a ids (put_value v) quota_exceeded
  | no_put_id v :
      valid_value v = true -> exhausted ids -> refuses a ids (put_value v) quota_exceeded
  | no_get_value_zero : refuses a ids (get_value 0) invalid_request
  | no_get_value id : id <> 0 -> a_values a !! id = None -> refuses a ids (get_value id) not_found
  | no_page_values after limit :
      ~ (1 <= limit <= max_entries) -> refuses a ids (list_values after limit) invalid_request
  | no_create_name n args :
      valid_name n false = false -> refuses a ids (create_object n args) invalid_request
  | no_create_class n args :
      valid_name n false = true -> registry_find registry n = None ->
      refuses a ids (create_object n args) not_found
  | no_create_arguments n args d :
      registry_find registry n = Some d ->
      valid_arguments args (desc_constructor_parameters (description d)) = false ->
      refuses a ids (create_object n args) invalid_request
  | no_create_slot n args d r :
      constructs n args d r -> ~ object_slot a -> refuses a ids (create_object n args) quota_exceeded
  | no_create_error n args d e :
      constructs n args d (inr e) -> refuses a ids (create_object n args) (err_code e)
  | no_create_null n args d :
      constructs n args d (inl None) -> refuses a ids (create_object n args) internal_failure
  | no_create_state n args d i :
      constructs n args d (inl (Some i)) -> state_matches d (state i) = false ->
      refuses a ids (create_object n args) internal_failure
  | no_create_room n args d i :
      constructs n args d (inl (Some i)) -> state_matches d (state i) = true ->
      ~ a_room a (abs_charge (d, i)) -> refuses a ids (create_object n args) quota_exceeded
  | no_create_id n args d i :
      constructs n args d (inl (Some i)) -> exhausted ids ->
      refuses a ids (create_object n args) quota_exceeded
  | no_get_object_zero : refuses a ids (get_object 0) invalid_request
  | no_get_object id : id <> 0 -> a_objects a !! id = None -> refuses a ids (get_object id) not_found
  | no_release_zero : refuses a ids (release_object 0) invalid_request
  | no_release id :
      id <> 0 -> a_objects a !! id = None -> refuses a ids (release_object id) not_found
  | no_attribute_name id n :
      valid_name n false = false -> refuses a ids (get_attribute id n) invalid_request
  | no_attribute_zero n :
      valid_name n false = true -> refuses a ids (get_attribute 0 n) invalid_request
  | no_attribute_object id n :
      valid_name n false = true -> id <> 0 -> a_objects a !! id = None ->
      refuses a ids (get_attribute id n) not_found
  | no_attribute id n d i :
      valid_name n false = true -> a_objects a !! id = Some (d, i) -> n ∉ nv_name <$> state i ->
      refuses a ids (get_attribute id n) not_found
  | no_invoke_name id n args :
      id = 0 \/ valid_name n false = false -> refuses a ids (invoke_method id n args) invalid_request
  | no_invoke_object id n args :
      id <> 0 -> valid_name n false = true -> a_objects a !! id = None ->
      refuses a ids (invoke_method id n args) not_found
  | no_invoke_method id n args d i :
      valid_name n false = true -> a_objects a !! id = Some (d, i) ->
      n ∉ method_name <$> desc_methods (description d) ->
      refuses a ids (invoke_method id n args) not_found
  | no_invoke_arguments id n args d i m :
      a_objects a !! id = Some (d, i) ->
      find_named method_name n (desc_methods (description d)) = Some m ->
      valid_arguments args (method_parameters m) = false ->
      refuses a ids (invoke_method id n args) invalid_request
  | no_invoke_clone id n args d i m :
      calls a id n args d i m -> clone i = None ->
      refuses a ids (invoke_method id n args) internal_failure
  | no_invoke_error id n args d i m c e c' :
      calls a id n args d i m -> clone i = Some c -> invoke c n args = (inr e, c') ->
      refuses a ids (invoke_method id n args) (err_code e)
  | no_invoke_result id n args d i m c v c' :
      calls a id n args d i m -> clone i = Some c -> invoke c n args = (inl v, c') ->
      ~ (valid_value v = true /\ kind_of v = method_result_kind m
         /\ state_matches d (state c') = true) ->
      refuses a ids (invoke_method id n args) internal_failure
  | no_invoke_room id n args d i m c v c' :
      calls a id n args d i m -> clone i = Some c -> invoke c n args = (inl v, c') ->
      valid_value v = true -> kind_of v = method_result_kind m -> state_matches d (state c') = true ->
      ~ a_room a (abs_charge (d, c') - abs_charge (d, i)) ->
      refuses a ids (invoke_method id n args) quota_exceeded.

(** *** Queries *)
Inductive answers (a : abs_store) : operation -> outcome -> Prop :=
  | yes_page_names after limit page :
      len (cp_names page) <= limit <= max_entries ->
      page_ok id str_lt (names registry) after (cp_names page)
        (if bool_decide (cp_next page = "") then None else Some (cp_next page)) ->
      answers a (list_classes after limit) (o_classes page)
  | yes_describe n d :
      registry_find registry n = Some d -> answers a (describe_class n) (o_description (description d))
  | yes_get_value id v :
      a_values a !! id = Some v -> answers a (get_value id) (o_record {| vr_id := id; vr_data := v |})
  | yes_page_values after limit l next :
      len l <= limit <= max_entries -> zsum (fun e => value_charge e.2) l <= page_byte_budget ->
      page_ok fst past_key (entries (a_values a)) after l
        (if next =? 0 then None else Some next) ->
      answers a (list_values after limit)
        (o_values {| vp_values := entry_record <$> l; vp_next := next |})
  | yes_get_object id d i :
      a_objects a !! id = Some (d, i) ->
      answers a (get_object id)
        (o_object {| snap_id := id; snap_class_name := def_name d; snap_state := state i |})
  | yes_attribute id n d i f :
      a_objects a !! id = Some (d, i) -> f ∈ state i -> nv_name f = n ->
      answers a (get_attribute id n) (o_value (nv_data f)).

(** *** Steps *)
Definition put_in (a : abs_store) (id : Z) (v : value) : abs_store := {|
  a_limits := a_limits a; a_values := <[id := v]> (a_values a);
  a_objects := a_objects a; a_closed := a_closed a |}.

Definition store_in (a : abs_store) (id : Z) (d : class_definition Obj) (i : Obj) : abs_store := {|
  a_limits := a_limits a; a_values := a_values a;
  a_objects := <[id := (d, i)]> (a_objects a); a_closed := a_closed a |}.

Definition drop_from (a : abs_store) (id : Z) : abs_store := {|
  a_limits := a_limits a; a_values := a_values a;
  a_objects := delete id (a_objects a); a_closed := a_closed a |}.

Inductive spec_step (a : abs_store) (ids : identifier_source)
  : operation -> outcome -> abs_store -> identifier_source -> Prop :=
  | step_closed op : a_closed a = true -> spec_step a ids op (fail access_denied) a ids
  | step_refused op c :
      a_closed a = false -> refuses a ids op c -> spec_step a ids op (fail c) a ids
  | step_answer op o : a_closed a = false -> answers a op o -> spec_step a ids op o a ids
  | step_put v id ids' :
      a_closed a = false -> valid_value v = true -> value_slot a -> a_room a (value_charge v) ->
      next ids = (Some id, ids') -> a_values a !! id = None -> a_objects a !! id = None ->
      spec_step a ids (put_value v) (o_record {| vr_id := id; vr_data := v |}) (put_in a id v) ids'
  | step_create n args d i id ids' :
      a_closed a = false -> constructs n args d (inl (Some i)) -> object_slot a ->
      state_matches d (state i) = true -> a_room a (abs_charge (d, i)) ->
      next ids = (Some id, ids') -> a_values a !! id = None -> a_objects a !! id = None ->
      spec_step a ids (create_object n args)
        (o_object {| snap_id := id; snap_class_name := n; snap_state := state i |})
        (store_in a id d i) ids'
  | step_release id d i :
      a_closed a = false -> a_objects a !! id = Some (d, i) ->
      spec_step a ids (release_object id) o_released (drop_from a id) ids
  | step_invoke id n args d i m c v c' :
      a_closed a = false -> calls a id n args d i m -> clone i = Some c -> invoke c n args = (inl v, c') ->
      valid_value v = true -> kind_of v = method_result_kind m ->
      state_matches d (state c') = true ->
      a_room a (abs_charge (d, c') - abs_charge (d, i)) ->
      spec_step a ids (invoke_method id n args) (o_value v) (store_in a id d c') ids.
End spec.

(** ** The refinement *)
Section refinement.
Context `{Utf8Ops} {Obj : Type} `{ObjectOps Obj}.
Context (registry : class_registry Obj) (registry_ok : registry_wf registry).
Implicit Types (st : session_store Obj) (ids : identifier_source).

(** One operation, run on a well-formed open store, is defined, keeps the store
    well-formed and is a step of the contract. *)
Definition refines st ids (op : operation)
    (r : outcome * session_store Obj * identifier_source) : Prop :=
  store_wf registry r.1.2 r.2 /\ ids_le ids r.2
  /\ spec_step registry (abs st) ids op r.1.1 (abs r.1.2) r.2.

Lemma a_used_abs st ids : store_wf registry st ids -> a_used (abs st) = used_ st.
Proof.
  intros wf. rewrite (wf_used _ _ _ wf). unfold a_used, abs; simpl. rewrite msum_fmap. f_equal.
  apply msum_ext. intros id o Ho. by destruct (wf_objects _ _ _ wf id o Ho) as (_ & _ & _ & ->).
Qed.

Lemma a_room_abs st ids c :
  store_wf registry st ids -> a_room (abs st) c <-> c <= lim_bytes (limits_ st) - used_ st.
Proof. intros wf. unfold a_room. rewrite (a_used_abs st ids wf). simpl. lia. Qed.

Lemma abs_lookup st id o :
  objects_ st !! id = Some o -> a_objects (abs st) !! id = Some (so_definition o, so_instance o).
Proof. intros Ho. simpl. by rewrite lookup_fmap, Ho. Qed.

Lemma abs_lookup_None st id : objects_ st !! id = None -> a_objects (abs st) !! id = None.
Proof. intros Ho. simpl. by rewrite lookup_fmap, Ho. Qed.

Lemma object_slot_abs st : object_slot (abs st) <-> msize (objects_ st) < lim_objects (limits_ st).
Proof. unfold object_slot; simpl. by rewrite msize_fmap. Qed.

Lemma refines_same st ids op o :
  store_wf registry st ids -> spec_step registry (abs st) ids op o (abs st) ids ->
  refines st ids op (o, st, ids).
Proof. intros wf Hs. split_and!; [done|apply ids_le_refl, wf|done]. Qed.

Lemma refines_refused st ids op c :
  store_wf registry st ids -> closed_ st = false -> refuses registry (abs st) ids op c ->
  refines st ids op (fail c, st, ids).
Proof. intros wf Hc Hr. apply refines_same; [done|]. by apply step_refused. Qed.

Lemma refines_answer st ids op o :
  store_wf registry st ids -> closed_ st = false -> answers registry (abs st) op o ->
  refines st ids op (o, st, ids).
Proof. intros wf Hc Hr. apply refines_same; [done|]. by apply step_answer. Qed.

Lemma next_exhausted ids ids' : next ids = (None, ids') -> exhausted ids /\ ids' = ids.
Proof. unfold next, exhausted. destruct (next_ ids =? 0) eqn:E; intros; simplify_eq. by bool_simp. Qed.

Lemma put_value_refines st ids v :
  store_wf registry st ids -> closed_ st = false ->
  refines st ids (put_value v) (apply_put_value st ids v).
Proof.
  intros wf Hc. unfold apply_put_value.
  destruct (valid_value v) eqn:Hv; simpl; [|by apply refines_refused; [..|constructor]].
  rewrite value_charge_exact, (headroom_exact registry registry_ok st ids) by done.
  destruct (_ <=? _) eqn:En; simpl; bool_simp.
  { apply refines_refused; [done..|]. apply no_put_slot; [done|]. unfold value_slot; simpl. lia. }
  destruct (_ <? _) eqn:Eb; simpl; bool_simp.
  { apply refines_refused; [done..|]. apply no_put_room; [done|done|]. rewrite a_room_abs by done. lia. }
  destruct (next ids) as [[id|] ids'] eqn:Eid; last first.
  { apply next_exhausted in Eid as [He ->]. apply refines_refused; [done..|]. by apply no_put_id. }
  destruct (fresh_id registry st ids wf id ids' Eid) as [Fv Fo].
  pose proof (next_ids_le _ _ _ (wf_ids _ _ _ wf) Eid) as Hle.
  destruct (issued_next _ _ _ (wf_ids _ _ _ wf) Eid) as [Hi _].
  pose proof (store_wf_le registry st ids ids' Hle wf) as wf'.
  pose proof (value_charge_bound v Hv). pose proof (used_range registry registry_ok st ids wf).
  pose proof (wf_lim_bytes _ _ _ wf). unfold record_charge, max_session_bytes in *.
  rewrite emplace_fresh by done. split_and!; [|done|]; cbn [fst snd].
  - destruct wf'. split; simpl; try done.
    + intros id' w [[<- <-]|[? Hw]]%lookup_insert_Some; [done|]. eauto.
    + intros id'. destruct (decide (id = id')) as [<-|]; [by right|]. by rewrite lookup_insert_ne.
    + rewrite msum_insert, u64_add_exact by (done || ulia). lia.
    + rewrite u64_add_exact by ulia. lia.
    + rewrite msize_insert_fresh by done. lia.
    + congruence.
  - apply (step_put registry (abs st) ids v id ids'); try done.
    + rewrite a_room_abs by done. lia.
    + by apply abs_lookup_None.
Qed.

Lemma abs_insert_object st id d i c u :
  abs {| limits_ := limits_ st; values_ := values_ st;
         objects_ := <[id := {| so_definition := d; so_instance := i; so_charge := c |}]> (objects_ st);
         used_ := u; closed_ := closed_ st |}
  = store_in (abs st) id d i.
Proof. unfold abs, store_in; simpl. by rewrite fmap_insert. Qed.

(** Storing a freshly created instance keeps the invariant. *)
Lemma store_fresh_object_wf st ids ids' id d i :
  store_wf registry st ids -> closed_ st = false -> next ids = (Some id, ids') ->
  registry_find registry (def_name d) = Some d -> state_matches d (state i) = true ->
  msize (objects_ st) < lim_objects (limits_ st) ->
  used_ st + object_charge d (state i) <= lim_bytes (limits_ st) ->
  store_wf registry
    {| limits_ := limits_ st; values_ := values_ st;
       objects_ := <[id := {| so_definition := d; so_instance := i;
                              so_charge := object_charge d (state i) |}]> (objects_ st);
       used_ := used_ st ⊞ object_charge d (state i); closed_ := closed_ st |} ids'.
Proof.
  intros wf Hc Eid Hf Hm Hn Hb.
  destruct (fresh_id registry st ids wf id ids' Eid) as [Fv Fo].
  destruct (issued_next _ _ _ (wf_ids _ _ _ wf) Eid) as [Hi _].
  pose proof (object_charge_bound d (state i) (registry_find_ok _ _ _ registry_ok Hf) Hm) as Hch.
  pose proof (used_range registry registry_ok st ids wf) as Hu.
  pose proof (wf_lim_bytes _ _ _ wf) as Hl. unfold max_session_bytes in Hl.
  pose proof (store_wf_le registry st ids ids' (next_ids_le _ _ _ (wf_ids _ _ _ wf) Eid) wf) as [].
  assert (Hx : used_ st ⊞ object_charge d (state i) = used_ st + object_charge d (state i))
    by (apply u64_add_exact; ulia).
  split; simpl; try done; rewrite ?Hx.
  - intros id' o [[<- <-]|[? Ho]]%lookup_insert_Some; [done|]. eauto.
  - intros id'. destruct (decide (id = id')) as [<-|]; [by left|]. by rewrite lookup_insert_ne.
  - rewrite msum_insert by done. simpl. lia.
  - lia.
  - rewrite msize_insert_fresh by done. lia.
  - congruence.
Qed.

Lemma create_object_refines st ids n args :
  store_wf registry st ids -> closed_ st = false ->
  refines st ids (create_object n args) (apply_create_object registry st ids n args).
Proof.
  intros wf Hc. unfold apply_create_object.
  destruct (valid_name n false) eqn:Hn; simpl; [|by apply refines_refused; [..|constructor]].
  destruct (registry_find registry n) as [d|] eqn:Hf; [|by apply refines_refused; [..|constructor]].
  pose proof (registry_find_Some _ _ _ Hf) as [_ Hdn].
  pose proof (registry_find_ok _ _ _ registry_ok Hf) as Hd.
  destruct (valid_arguments _ _) eqn:Ha; simpl; [|by apply refines_refused; [..|econstructor]].
  destruct (create d) as [factory|] eqn:Ecr; last by destruct Hd as (_ & [? ?] & _); congruence.
  assert (Hcon : constructs registry n args d (factory args)) by (split_and!; eauto).
  destruct (_ <=? _) eqn:En; bool_simp.
  { apply refines_refused; [done..|]. eapply no_create_slot; [done|]. rewrite object_slot_abs. lia. }
  destruct (factory args) as [[i|]|e];
    [|by apply refines_refused; [..|eapply no_create_null]
     |by apply refines_refused; [..|eapply no_create_error]].
  destruct (state_matches d (state i)) eqn:Em; simpl;
    [|by apply refines_refused; [..|eapply no_create_state]].
  rewrite (object_charge_exact d), (headroom_exact registry registry_ok st ids) by done.
  destruct (_ <? _) eqn:Eb; simpl; bool_simp.
  { apply refines_refused; [done..|]. eapply no_create_room; [done..|].
    rewrite a_room_abs by done. unfold abs_charge; simpl. lia. }
  destruct (next ids) as [[id|] ids'] eqn:Eid; last first.
  { apply next_exhausted in Eid as [He ->]. apply refines_refused; [done..|]. by eapply no_create_id. }
  destruct (fresh_id registry st ids wf id ids' Eid) as [Fv Fo].
  rewrite emplace_fresh by done. split_and!; cbn [fst snd].
  - apply (store_fresh_object_wf st ids); try done; [congruence|lia].
  - eapply next_ids_le; [apply wf|done].
  - rewrite abs_insert_object. eapply step_create; try done.
    + by rewrite object_slot_abs.
    + rewrite a_room_abs by done. unfold abs_charge; simpl. lia.
    + by apply abs_lookup_None.
Qed.

Lemma release_object_refines st ids id :
  store_wf registry st ids -> closed_ st = false ->
  refines st ids (release_object id) (apply_release_object st id, ids).
Proof.
  intros wf Hc. unfold apply_release_object.
  destruct (id =? 0) eqn:Ez; bool_simp; [subst; by apply refines_refused; [..|constructor]|].
  destruct (objects_ st !! id) as [o|] eqn:Ho; last first.
  { apply refines_refused; [done..|]. constructor; [done|]. by apply abs_lookup_None. }
  pose proof (stored_charge_le_used registry registry_ok st ids wf id o Ho).
  pose proof (wf_lim_bytes _ _ _ wf). pose proof (used_range registry registry_ok st ids wf).
  unfold max_session_bytes in *.
  assert (Hx : used_ st ⊟ so_charge o = used_ st - so_charge o) by (apply u64_sub_exact; ulia).
  split_and!; cbn [fst snd].
  - destruct wf. split; simpl; try done; rewrite ?Hx.
    + intros id' o' [_ Ho']%lookup_delete_Some. eauto.
    + intros id'. destruct (wf_disjoint id') as [|Hd]; [by left|right].
      rewrite lookup_delete. case_decide; done.
    + rewrite wf_used. rewrite (msum_delete so_charge (objects_ st) id o) by done. lia.
    + lia.
    + rewrite (msize_delete _ _ o) by done. lia.
    + intros Hcl. congruence.
  - apply ids_le_refl, wf.
  - pose proof (step_release registry (abs st) ids id _ _ Hc (abs_lookup st id o Ho)) as Hs.
    unfold drop_from, abs in *; simpl in *. by rewrite fmap_delete.
Qed.

(** Replacing the instance of a retained object keeps the invariant. *)
Lemma replace_object_wf st ids id o i :
  store_wf registry st ids -> closed_ st = false -> objects_ st !! id = Some o ->
  let d := so_definition o in
  state_matches d (state i) = true ->
  used_ st - so_charge o + object_charge d (state i) <= lim_bytes (limits_ st) ->
  store_wf registry
    {| limits_ := limits_ st; values_ := values_ st;
       objects_ := <[id := {| so_definition := d; so_instance := i;
                              so_charge := object_charge d (state i) |}]> (objects_ st);
       used_ := (used_ st - so_charge o) ⊞ object_charge d (state i); closed_ := closed_ st |} ids.
Proof.
  intros wf Hc Ho d Hm Hb.
  pose proof (stored_charge_le_used registry registry_ok st ids wf id o Ho).
  pose proof (object_charge_bound d (state i) (stored_definition_ok _ registry_ok _ _ wf _ _ Ho) Hm).
  pose proof (wf_lim_bytes _ _ _ wf) as Hl. unfold max_session_bytes in Hl.
  destruct (wf_objects _ _ _ wf id o Ho) as (Hi & Hf & _).
  assert (Hx : (used_ st - so_charge o) ⊞ object_charge d (state i)
               = used_ st - so_charge o + object_charge d (state i)) by (apply u64_add_exact; ulia).
  destruct wf. split; simpl; try done; rewrite ?Hx.
  - intros id' o' [[<- <-]|[? Ho']]%lookup_insert_Some; [done|]. eauto.
  - intros id'. destruct (wf_disjoint id') as [|Hd]; [by left|].
    destruct (decide (id = id')) as [<-|]; [congruence|right]. by rewrite lookup_insert_ne.
  - rewrite (msum_update so_charge _ _ o) by done. simpl. lia.
  - lia.
  - by rewrite (msize_update _ _ o).
  - congruence.
Qed.

Lemma invoke_method_refines st ids id n args :
  store_wf registry st ids -> closed_ st = false ->
  refines st ids (invoke_method id n args) (apply_invoke_method st id n args, ids).
Proof.
  intros wf Hc. unfold apply_invoke_method.
  destruct (id =? 0) eqn:Ez; bool_simp; simpl; [apply refines_refused; [done..|constructor; auto]|].
  destruct (valid_name n false) eqn:Hn; simpl; [|apply refines_refused; [done..|constructor; auto]].
  destruct (objects_ st !! id) as [o|] eqn:Ho; last first.
  { apply refines_refused; [done..|]. constructor; [done..|]. by apply abs_lookup_None. }
  pose proof (abs_lookup st id o Ho) as Ha. set (d := so_definition o) in *.
  destruct (find_named _ _ _) as [m|] eqn:Hm; last first.
  { apply refines_refused; [done..|]. eapply no_invoke_method; [done..|]. by apply find_named_None. }
  destruct (valid_arguments _ _) eqn:Hargs; simpl; [|by apply refines_refused; [..|econstructor]].
  assert (Hcall : calls (abs st) id n args d (so_instance o) m) by (by split_and!).
  destruct (clone (so_instance o)) as [c|] eqn:Hcl;
    [|by apply refines_refused; [..|eapply no_invoke_clone]].
  destruct (invoke c n args) as [[v|e] c'] eqn:Hinv;
    [|by apply refines_refused; [..|eapply no_invoke_error]].
  destruct (_ || _) eqn:Eres.
  { apply refines_refused; [done..|]. eapply no_invoke_result; [done..|].
    intros (Hv & Hk & Hs). apply Z.eqb_eq in Hk. rewrite Hv, Hk, Hs in Eres. done. }
  bool_simp.
  pose proof (stored_definition_ok _ registry_ok _ _ wf _ _ Ho) as Hd.
  pose proof (stored_charge_le_used registry registry_ok st ids wf id o Ho).
  pose proof (wf_lim_bytes _ _ _ wf) as Hl. unfold max_session_bytes in Hl.
  pose proof (used_range registry registry_ok st ids wf).
  destruct (wf_objects _ _ _ wf id o Ho) as (_ & _ & _ & Hch). fold d in Hch.
  rewrite (object_charge_exact d) by done.
  rewrite (u64_sub_exact (used_ st)), (u64_sub_exact (lim_bytes _)) by ulia.
  assert (Hroom : a_room (abs st) (abs_charge (d, c') - abs_charge (d, so_instance o))
    <-> used_ st - so_charge o + object_charge d (state c') <= lim_bytes (limits_ st)).
  { rewrite a_room_abs by done. unfold abs_charge. simpl. lia. }
  destruct (_ <? _) eqn:Eb; simpl; bool_simp.
  { apply refines_refused; [done..|]. eapply no_invoke_room; [done..|]. rewrite Hroom. lia. }
  split_and!; cbn [fst snd].
  - apply replace_object_wf; try done. fold d. lia.
  - apply ids_le_refl, wf.
  - rewrite abs_insert_object. eapply step_invoke; try done. apply Hroom. lia.
Qed.

(** *** Queries *)

(** The page loop takes a prefix of the items within the limit and the byte
    budget, and at least one item when it may. *)
Lemma page_values_spec limit records bytes items :
  Forall (fun e => valid_value e.2 = true) items -> 0 <= bytes <= page_byte_budget ->
  len records <= limit ->
  exists l rest, items = l ++ rest
    /\ page_values limit records bytes items = (records ++ (entry_record <$> l), rest)
    /\ len records + len l <= limit
    /\ bytes + zsum (fun e => value_charge e.2) l <= page_byte_budget
    /\ (bytes = 0 -> len records < limit -> items <> [] -> l <> []).
Proof.
  intros Hv. revert records bytes. induction Hv as [|[id v] items Hv _ IH]; intros records bytes Hb Hl.
  { exists [], []. simpl. rewrite app_nil_r, len_nil. split_and!; [done|done|lia|lia|done]. }
  simpl in Hv |- *. rewrite value_charge_exact by done. pose proof (value_charge_bound v Hv) as Hc.
  assert (Hbudget : page_byte_budget = 524288) by done.
  unfold record_charge, max_string_bytes in *. rewrite Hbudget in *.
  assert (Hstop : exists l rest, (id, v) :: items = l ++ rest
    /\ (records, (id, v) :: items) = (records ++ (entry_record <$> l), rest)
    /\ len records + len l <= limit
    /\ bytes + zsum (fun e => value_charge e.2) l <= 524288
    /\ l = []).
  { exists [], ((id, v) :: items). simpl. rewrite app_nil_r, len_nil. split_and!; [done|done|lia|lia|done]. }
  destruct (len records <? limit) eqn:El; bool_simp; last first.
  { destruct Hstop as (l & rest & ? & ? & ? & ? & ?). exists l, rest. split_and!; [done..|lia]. }
  rewrite u64_sub_exact by ulia.
  destruct (_ <? _) eqn:Eb; bool_simp.
  { destruct Hstop as (l & rest & ? & ? & ? & ? & ?). exists l, rest. split_and!; [done..|lia]. }
  rewrite u64_add_exact by ulia.
  destruct (IH (records ++ [{| vr_id := id; vr_data := v |}]) (bytes + value_charge v))
    as (l & rest & -> & -> & Hlen & Hsum & _); [lia|rewrite len_app; unfold len in *; simpl; lia|].
  exists ((id, v) :: l), rest. rewrite len_app in Hlen. rewrite len_cons. change (len [_]) with 1 in Hlen.
  simpl. rewrite <- app_assoc. split_and!; [done|done|lia|lia|done].
Qed.

Lemma list_classes_refines st ids after limit :
  store_wf registry st ids -> closed_ st = false -> 0 <= limit ->
  exists o, apply_list_classes registry after limit = Some o
    /\ refines st ids (list_classes after limit) (o, st, ids).
Proof.
  intros wf Hc Hlim. unfold apply_list_classes.
  destruct (decide (valid_name after true = true /\ 1 <= limit <= max_entries)) as [[Hn Hl]|Hbad].
  - destruct (registry_list_page registry limit after registry_ok Hl Hn) as [(page & Hp & Hlen) Hok].
    unfold names_page in Hok. rewrite Hp in Hok |- *. simpl in *. eexists; split; [done|].
    apply refines_answer; [done..|]. constructor; [lia|done].
  - exists (fail invalid_request). split; [|apply refines_refused; [done..|]; by constructor].
    unfold registry_list. destruct (_ || _) eqn:E; [done|]. bool_simp.
    destruct Hbad. split; [done|]. by apply valid_page_size_spec.
Qed.

Lemma list_values_refines st ids after limit :
  store_wf registry st ids -> closed_ st = false -> 0 <= limit ->
  exists o, apply_list_values st after limit = Some o
    /\ refines st ids (list_values after limit) (o, st, ids).
Proof.
  intros wf Hc Hlim. unfold apply_list_values. destruct (valid_page_size limit) eqn:Ep; simpl; last first.
  { eexists; split; [done|]. apply refines_refused; [done..|]. constructor.
    intros Hl. apply valid_page_size_spec in Hl; [congruence|done]. }
  apply valid_page_size_spec in Ep; [|done].
  assert (Hv : Forall (fun e => valid_value e.2 = true) (upper_bound after (values_ st))).
  { apply Forall_forall. intros [id v] [Hv _]%upper_bound_spec. by apply (wf_values _ _ _ wf) in Hv as []. }
  destruct (page_values_spec limit [] 0 _ Hv) as (l & rest & Heq & -> & Hlen & Hsum & Hne);
    [done|rewrite len_nil; lia|]. rewrite len_nil in *. simpl.
  destruct rest as [|e rest].
  { eexists; split; [done|]. apply refines_answer; [done..|]. constructor; [lia|lia|].
    simpl. exists []. split; [done|done]. }
  assert (Hl : l <> []) by (apply Hne; [done|rewrite len_nil; lia|by rewrite Heq; destruct l]).
  destruct l as [|e0 l _] using rev_ind; [done|].
  rewrite fmap_app. change (entry_record <$> [e0]) with [entry_record e0]. rewrite last_snoc.
  eexists; split; [done|]. change [entry_record e0] with (entry_record <$> [e0]).
  assert (Hpos : 0 < e0.1).
  { destruct e0 as [id v]. assert (Hin : (id, v) ∈ upper_bound after (values_ st)) by (rewrite Heq; set_solver).
    apply upper_bound_spec in Hin as [Hin _]. apply (wf_values _ _ _ wf) in Hin as [[? _] _]. simpl. lia. }
  apply refines_answer; [done..|]. rewrite <- fmap_app. constructor; [lia|lia|].
  simpl. replace (e0.1 =? 0) with false by (symmetry; apply Z.eqb_neq; lia).
  exists (e :: rest). split_and!; [done|done|]. exists e0. by rewrite last_snoc.
Qed.

Lemma get_object_refines st ids id :
  store_wf registry st ids -> closed_ st = false ->
  refines st ids (get_object id) (apply_get_object st id, st, ids).
Proof.
  intros wf Hc. unfold apply_get_object.
  destruct (id =? 0) eqn:Ez; bool_simp; [subst; by apply refines_refused; [..|constructor]|].
  destruct (objects_ st !! id) as [o|] eqn:Ho; last first.
  { apply refines_refused; [done..|]. constructor; [done|]. by apply abs_lookup_None. }
  destruct (wf_objects _ _ _ wf id o Ho) as (_ & _ & Hm & _). rewrite Hm. simpl.
  apply refines_answer; [done..|]. constructor. by apply abs_lookup.
Qed.

Lemma get_attribute_refines st ids id n :
  store_wf registry st ids -> closed_ st = false ->
  refines st ids (get_attribute id n) (apply_get_attribute st id n, st, ids).
Proof.
  intros wf Hc. unfold apply_get_attribute, apply_get_object.
  destruct (valid_name n false) eqn:Hn; simpl; [|by apply refines_refused; [..|constructor]].
  destruct (id =? 0) eqn:Ez; bool_simp; [subst; by apply refines_refused; [..|constructor]|].
  destruct (objects_ st !! id) as [o|] eqn:Ho; last first.
  { apply refines_refused; [done..|]. constructor; [done..|]. by apply abs_lookup_None. }
  destruct (wf_objects _ _ _ wf id o Ho) as (_ & _ & Hm & _). rewrite Hm. simpl.
  destruct (find_named _ _ _) as [f|] eqn:Hf.
  - apply find_named_Some in Hf as [Hin Hfn]. apply refines_answer; [done..|].
    econstructor; [by apply abs_lookup|done|done].
  - apply refines_refused; [done..|]. eapply no_attribute; [done|by apply abs_lookup|].
    by apply find_named_None.
Qed.

Lemma get_value_refines st ids id :
  store_wf registry st ids -> closed_ st = false ->
  refines st ids (get_value id) (apply_get_value st id, st, ids).
Proof.
  intros wf Hc. unfold apply_get_value.
  destruct (id =? 0) eqn:Ez; bool_simp; [subst; by apply refines_refused; [..|constructor]|].
  destruct (values_ st !! id) as [v|] eqn:Hv.
  - apply refines_answer; [done..|]. by constructor.
  - apply refines_refused; [done..|]. by constructor.
Qed.

Lemma describe_class_refines st ids n :
  store_wf registry st ids -> closed_ st = false ->
  refines st ids (describe_class n) (apply_describe_class registry n, st, ids).
Proof.
  intros wf Hc. unfold apply_describe_class.
  destruct (valid_name n false) eqn:Hn; simpl; [|by apply refines_refused; [..|constructor]].
  destruct (registry_find registry n) as [d|] eqn:Hf.
  - apply refines_answer; [done..|]. by constructor.
  - apply refines_refused; [done..|]. by constructor.
Qed.

(** Every execution is defined and is a step of the contract. *)
Lemma execute_step st ids op :
  store_wf registry st ids -> operation_typed op ->
  exists r, execute registry st ids op = Some r /\ refines st ids op r.
Proof.
  intros wf Ht. unfold execute. destruct (closed_ st) eqn:Hc.
  { eexists; split; [done|]. apply refines_same; [done|]. by apply step_closed. }
  destruct op; simpl in Ht.
  - destruct (list_classes_refines st ids after limit) as (o & -> & Hr); eauto.
  - eexists; split; [done|]. by apply describe_class_refines.
  - eexists; split; [done|]. by apply put_value_refines.
  - eexists; split; [done|]. by apply get_value_refines.
  - destruct Ht. destruct (list_values_refines st ids after limit) as (o & -> & Hr); eauto.
  - eexists; split; [done|]. by apply create_object_refines.
  - eexists; split; [done|]. by apply get_object_refines.
  - eexists; split; [done|]. by apply release_object_refines.
  - eexists; split; [done|]. by apply get_attribute_refines.
  - eexists; split; [done|]. by apply invoke_method_refines.
Qed.
End refinement.
