(* ===== verification/Lawful.v ===== *)
(** * Lawful plug-ins

    The contract that include/pipeforge/domain.hpp states for the trusted objects
    of a registry: a factory given valid arguments returns an instance or an
    expected error, [clone] is never null and copies the state, [state] reports
    exactly the registered attributes, and [invoke] answers a value of the declared
    kind or an expected error.  [LawfulRegistry] is that contract; a store over a
    lawful registry never answers [internal_failure], which the built-in classes
    of Builtins discharge. *)
From stdpp Require Import prelude gmap strings sorting.
From Stdlib Require Import ZArith Lia.
From S2P Require Import Prelude Pagination Utf8 Contracts Validation Registry Store StoreProofs StoreSpec.

Definition arguments_typed (args : list named_value) : Prop :=
  Forall (fun a => value_typed (nv_data a)) args.

(** The values an operation carries are in the range of their C++ types. *)
Definition operation_values_typed (op : operation) : Prop :=
  match op with
  | put_value v => value_typed v
  | create_object _ args | invoke_method _ _ args => arguments_typed args
  | _ => True
  end.

(** An expected error of a plug-in: a public code other than the internal one. *)
Definition expected_error (e : remote_error) : Prop :=
  1 <= err_code e <= 10 /\ err_code e <> internal_failure.

Class LawfulRegistry `{Utf8Ops} {Obj : Type} `{ObjectOps Obj} (registry : class_registry Obj) := {
  object_ok : class_definition Obj -> Obj -> Prop;
  lawful_create d factory args :
    d ∈ definitions_ registry -> create d = Some factory -> arguments_typed args ->
    valid_arguments args (desc_constructor_parameters (description d)) = true ->
    match factory args with
    | inl (Some i) => object_ok d i
    | inl None => False
    | inr e => expected_error e
    end;
  lawful_state d i :
    d ∈ definitions_ registry -> object_ok d i ->
    state_matches d (state i) = true /\ Forall (fun f => value_typed (nv_data f)) (state i);
  lawful_clone d i :
    d ∈ definitions_ registry -> object_ok d i ->
    exists c, clone i = Some c /\ object_ok d c /\ state c = state i;
  lawful_invoke d c n m args :
    d ∈ definitions_ registry -> object_ok d c -> arguments_typed args ->
    find_named method_name n (desc_methods (description d)) = Some m ->
    valid_arguments args (method_parameters m) = true ->
    match invoke c n args with
    | (inl v, c') =>
        valid_value v = true /\ kind_of v = method_result_kind m /\ value_typed v /\ object_ok d c'
    | (inr e, _) => expected_error e
    end;
}.

Section lawful.
Context `{Utf8Ops} {Obj : Type} `{ObjectOps Obj}.
Context (registry : class_registry Obj) `{!LawfulRegistry registry}.
Implicit Types (a : abs_store (Obj := Obj)) (st : session_store Obj).

Definition objects_lawful a : Prop :=
  forall id d i, a_objects a !! id = Some (d, i) -> d ∈ definitions_ registry /\ object_ok d i.

Lemma fail_internal c : 1 <= c <= 10 -> fail c = fail internal_failure -> c = internal_failure.
Proof.
  intros Hc Hf. assert (He : err_code (make_error c) = err_code (make_error internal_failure))
    by (unfold fail in Hf; congruence).
  rewrite !make_error_code_id in He by done. done.
Qed.

(** What a lawful plug-in answers to the calls the store makes. *)
Lemma lawful_constructs n args d r :
  constructs registry n args d r -> arguments_typed args ->
  d ∈ definitions_ registry
  /\ match r with
     | inl (Some i) => object_ok d i
     | inl None => False
     | inr e => expected_error e
     end.
Proof.
  intros (Hf & Ha & factory & Hc & <-) Ht. apply registry_find_Some in Hf as [Hd _].
  split; [done|]. by apply lawful_create.
Qed.

Lemma lawful_calls a id n args d i m c :
  objects_lawful a -> calls a id n args d i m -> clone i = Some c -> arguments_typed args ->
  d ∈ definitions_ registry
  /\ match invoke c n args with
     | (inl v, c') =>
         valid_value v = true /\ kind_of v = method_result_kind m /\ value_typed v /\ object_ok d c'
     | (inr e, _) => expected_error e
     end.
Proof.
  intros Ho (Hi & Hm & Ha) Hc Ht. destruct (Ho _ _ _ Hi) as [Hd Hok]. split; [done|].
  destruct (lawful_clone d i Hd Hok) as (c0 & Hc0 & Hokc & _). simplify_eq. by apply lawful_invoke.
Qed.

(** A lawful plug-in gives the store no reason to refuse with [internal_failure]. *)
Lemma refuses_expected a ids op c :
  objects_lawful a -> operation_values_typed op -> refuses registry a ids op c ->
  expected_error (make_error c).
Proof.
  intros Ho Ht Hr.
  assert (Hid : forall k, 1 <= k <= 10 -> k <> internal_failure -> expected_error (make_error k)).
  { intros k Hk Hne. unfold expected_error. by rewrite make_error_code_id. }
  destruct Hr as [| | | | | | | | | | | | | |n args d e Hcon|n args d Hcon|n args d i Hcon Hst| | | | | | | | | | | | | |
    |id n args d i m Hcall Hcl|id n args d i m c e c' Hcall Hcl Hinv
    |id n args d i m c v c' Hcall Hcl Hinv Hbad| ]; try (by apply Hid); simpl in Ht.
  - destruct (lawful_constructs _ _ _ _ Hcon Ht) as [_ []]. by apply Hid.
  - by destruct (lawful_constructs _ _ _ _ Hcon Ht) as [_ []].
  - destruct (lawful_constructs _ _ _ _ Hcon Ht) as [Hd Hok].
    destruct (lawful_state d i Hd Hok). congruence.
  - destruct Hcall as (Hi & _). destruct (Ho _ _ _ Hi) as [Hd Hok].
    destruct (lawful_clone d i Hd Hok) as (c & Hc & _). congruence.
  - destruct (lawful_calls _ _ _ _ _ _ _ _ Ho Hcall Hcl Ht) as [_ Hl]. rewrite Hinv in Hl.
    destruct Hl. by apply Hid.
  - destruct (lawful_calls _ _ _ _ _ _ _ _ Ho Hcall Hcl Ht) as [Hd Hl]. rewrite Hinv in Hl.
    destruct Hl as (Hv & Hk & _ & Hok). destruct Hbad. split_and!; [done..|].
    by apply (lawful_state d c').
Qed.

Lemma objects_lawful_insert a id d i :
  objects_lawful a -> d ∈ definitions_ registry -> object_ok d i -> objects_lawful (store_in a id d i).
Proof.
  intros Ho Hd Hok id' d' i' Hl; simpl in Hl. apply lookup_insert_Some in Hl as [[_ ?]|[_ Hi]]; [by simplify_eq|by eapply Ho].
Qed.

(** The values an answer carries are in the range of their C++ types. *)
Definition values_typed a : Prop := forall id v, a_values a !! id = Some v -> value_typed v.

(** Steps of the contract keep every retained object lawful. *)
Lemma spec_step_lawful a ids op o a' ids' :
  objects_lawful a -> values_typed a -> operation_values_typed op ->
  spec_step registry a ids op o a' ids' -> objects_lawful a' /\ values_typed a'.
Proof.
  intros Ho Hv Ht Hs.
  destruct Hs as [| | |v id ids' _ Hval _ _ _ _ _|n args d i id ids' _ Hcon _ _ _ _ _ _|id d i _ _
    |id n args d i m c v c' _ Hcall Hcl Hinv _ _ _ _]; try done.
  - split; [done|]. intros id' w Hl; simpl in Hl. apply lookup_insert_Some in Hl as [[_ <-]|[_ Hw]]; [done|eauto].
  - split; [|done]. destruct (lawful_constructs _ _ _ _ Hcon Ht). by apply objects_lawful_insert.
  - split; [|done]. intros id' d' i' Hl; simpl in Hl. apply lookup_delete_Some in Hl as [_ Hi]. by eapply Ho.
  - split; [|done]. destruct (lawful_calls _ _ _ _ _ _ _ _ Ho Hcall Hcl Ht) as [Hd Hl].
    rewrite Hinv in Hl. apply objects_lawful_insert; [done..|]. apply Hl.
Qed.

(** The only error outcomes of a lawful store are expected ones. *)
Lemma spec_step_expected a ids op e a' ids' :
  objects_lawful a -> operation_values_typed op ->
  spec_step registry a ids op (o_error e) a' ids' -> expected_error e /\ a' = a /\ ids' = ids.
Proof.
  intros Ho Ht Hs. inversion Hs; subst.
  - done.
  - split; [|done]. by eapply refuses_expected.
  - match goal with H : answers _ _ _ _ |- _ => inversion H end.
Qed.
End lawful.
