(* ===== verification/Builtins.v ===== *)
(** * The built-in classes (src/domain/builtins.cpp)

    [counter_object] and [text_buffer_object] are the constructors of one object
    type, an instance of [ObjectOps]; [counter_definition] and
    [text_buffer_definition] are their metadata and factories.  Signed arithmetic
    that leaves [int64_t] is undefined behaviour and evaluates to [None]. *)
From stdpp Require Import prelude gmap strings sorting.
From Stdlib Require Import ZArith Lia.
From S2P Require Import Prelude Pagination Utf8 Contracts Validation Registry Store StoreProofs StoreSpec Lawful.

(** ** Checked [int64_t] arithmetic *)
Definition i64_result (z : Z) : option Z :=
  if (i64_min <=? z) && (z <=? i64_max) then Some z else None.
Definition i64_add (a b : Z) : option Z := i64_result (a + b).
Definition i64_sub (a b : Z) : option Z := i64_result (a - b).

(** [c && e] with a right operand that may be undefined. *)
Definition and_then (c : bool) (e : option bool) : option bool := if c then e else Some false.
Definition or_else (a b : option bool) : option bool :=
  match a with
  | Some true => Some true
  | Some false => b
  | None => None
  end.

Lemma i64_result_exact z : in_i64 z -> i64_result z = Some z.
Proof.
  intros Hz. unfold i64_result.
  replace ((i64_min <=? z) && (z <=? i64_max)) with true; [done|].
  symmetry. rewrite andb_true_iff, !Z.leb_le. exact Hz.
Qed.

Inductive builtin_object :=
  | counter_object (value_ : Z)
  | text_buffer_object (text_ : string).

Section builtins.
Context `{Utf8Ops}.

Definition single_argument (arguments : list named_value) (name : string) : option value :=
  match arguments with
  | [a] => if negb (bool_decide (nv_name a = name)) || negb (valid_value (nv_data a)) then None
           else Some (nv_data a)
  | _ => None
  end.

Definition get_integer (argument : option value) : option Z :=
  match argument with Some (Integer n) => Some n | _ => None end.
Definition get_text (argument : option value) : option string :=
  match argument with Some (Text s) => Some s | _ => None end.

(** The guard of [increment] and its addition; [None] is signed overflow. *)
Definition increment_overflows (value_ delta : Z) : option bool :=
  or_else (and_then (0 <? delta) ((fun bound => bound <? value_) <$> i64_sub i64_max delta))
          (and_then (delta <? 0) ((fun bound => value_ <? bound) <$> i64_sub i64_min delta)).

Definition increment (value_ delta : Z) : option ((value + remote_error) * Z) :=
  match increment_overflows value_ delta with
  | None => None
  | Some true => Some (inr (make_error numeric_overflow), value_)
  | Some false => (fun sum => (inl (Integer sum), sum)) <$> i64_add value_ delta
  end.

Definition append (text_ suffix : string) : (value + remote_error) * string :=
  if max_string_bytes ⊟ strlen text_ <? strlen suffix then (inr (make_error quota_exceeded), text_)
  else (inl (Text (text_ +:+ suffix)), text_ +:+ suffix).

Definition counter_invoke (value_ : Z) (name : string) (arguments : list named_value)
  : (value + remote_error) * builtin_object :=
  if negb (bool_decide (name = "increment"))
  then (inr (make_error not_found), counter_object value_)
  else
    match get_integer (single_argument arguments "delta") with
    | None => (inr (make_error invalid_request), counter_object value_)
    | Some delta =>
        match increment value_ delta with
        | Some (r, value') => (r, counter_object value')
        | None => (inr (make_error internal_failure), counter_object value_) (* undefined behaviour *)
        end
    end.

Definition text_buffer_invoke (text_ : string) (name : string) (arguments : list named_value)
  : (value + remote_error) * builtin_object :=
  if negb (bool_decide (name = "append"))
  then (inr (make_error not_found), text_buffer_object text_)
  else
    match get_text (single_argument arguments "suffix") with
    | None => (inr (make_error invalid_request), text_buffer_object text_)
    | Some suffix => let '(r, text') := append text_ suffix in (r, text_buffer_object text')
    end.

Definition builtin_clone (o : builtin_object) : option builtin_object := Some o.

Definition builtin_state (o : builtin_object) : list named_value :=
  match o with
  | counter_object value_ => [{| nv_name := "value"; nv_data := Integer value_ |}]
  | text_buffer_object text_ => [{| nv_name := "text"; nv_data := Text text_ |}]
  end.

Definition builtin_invoke (o : builtin_object) (name : string) (arguments : list named_value)
  : (value + remote_error) * builtin_object :=
  match o with
  | counter_object value_ => counter_invoke value_ name arguments
  | text_buffer_object text_ => text_buffer_invoke text_ name arguments
  end.

#[global] Instance builtin_ops : ObjectOps builtin_object := {|
  clone := builtin_clone;
  state := builtin_state;
  invoke := builtin_invoke;
|}.

Definition counter_factory (arguments : list named_value) : option builtin_object + remote_error :=
  match get_integer (single_argument arguments "initial") with
  | None => inr (make_error invalid_request)
  | Some initial => inl (Some (counter_object initial))
  end.

Definition text_buffer_factory (arguments : list named_value)
  : option builtin_object + remote_error :=
  match get_text (single_argument arguments "initial") with
  | None => inr (make_error invalid_request)
  | Some initial => inl (Some (text_buffer_object initial))
  end.

Definition counter_definition : class_definition builtin_object := {|
  description := {|
    desc_name := "Counter";
    desc_attributes := [{| attr_name := "value"; attr_kind := kind_integer; attr_read_only := true |}];
    desc_methods := [{| method_name := "increment";
                        method_parameters := [{| param_name := "delta"; param_kind := kind_integer |}];
                        method_result_kind := kind_integer |}];
    desc_constructor_parameters := [{| param_name := "initial"; param_kind := kind_integer |}] |};
  create := Some counter_factory;
  max_state_bytes := max_object_state_bytes;
|}.

Definition text_buffer_definition : class_definition builtin_object := {|
  description := {|
    desc_name := "TextBuffer";
    desc_attributes := [{| attr_name := "text"; attr_kind := kind_text; attr_read_only := true |}];
    desc_methods := [{| method_name := "append";
                        method_parameters := [{| param_name := "suffix"; param_kind := kind_text |}];
                        method_result_kind := kind_text |}];
    desc_constructor_parameters := [{| param_name := "initial"; param_kind := kind_text |}] |};
  create := Some text_buffer_factory;
  max_state_bytes := max_object_state_bytes;
|}.

(** The registry the server starts with. *)
Definition builtin_registry : class_registry builtin_object :=
  (registry_add (registry_add empty_registry counter_definition).2 text_buffer_definition).2.
End builtins.

(** ** Arithmetic and append *)
Lemma increment_exact v d :
  in_i64 v -> in_i64 d ->
  increment v d
  = Some (if (i64_min <=? v + d) && (v + d <=? i64_max)
          then (inl (Integer (v + d)), v + d)
          else (inr (make_error numeric_overflow), v)).
Proof.
  intros Hv Hd. unfold increment, increment_overflows, i64_add, i64_sub.
  destruct (0 <? d) eqn:Ep; bool_simp; simpl.
  - rewrite i64_result_exact by ulia. simpl. replace (d <? 0) with false by (symmetry; apply Z.ltb_ge; lia).
    simpl. destruct (_ <? v) eqn:Eo; bool_simp; simpl.
    + replace (v + d <=? i64_max) with false by (symmetry; apply Z.leb_gt; ulia). by rewrite andb_false_r.
    + rewrite i64_result_exact by ulia. simpl.
      replace (i64_min <=? v + d) with true by (symmetry; apply Z.leb_le; ulia).
      by replace (v + d <=? i64_max) with true by (symmetry; apply Z.leb_le; ulia).
  - destruct (d <? 0) eqn:En; bool_simp; simpl.
    + rewrite i64_result_exact by ulia. simpl. destruct (v <? _) eqn:Eo; bool_simp; simpl.
      * by replace (i64_min <=? v + d) with false by (symmetry; apply Z.leb_gt; ulia).
      * rewrite i64_result_exact by ulia. simpl.
        replace (i64_min <=? v + d) with true by (symmetry; apply Z.leb_le; ulia).
        by replace (v + d <=? i64_max) with true by (symmetry; apply Z.leb_le; ulia).
    + rewrite i64_result_exact by ulia. simpl.
      replace (i64_min <=? v + d) with true by (symmetry; apply Z.leb_le; ulia).
      by replace (v + d <=? i64_max) with true by (symmetry; apply Z.leb_le; ulia).
Qed.

Lemma append_exact t s :
  strlen t <= max_string_bytes ->
  append t s
  = if strlen t + strlen s <=? max_string_bytes
    then (inl (Text (t +:+ s)), t +:+ s)
    else (inr (make_error quota_exceeded), t).
Proof.
  intros Ht. pose proof (strlen_nonneg t). pose proof (strlen_nonneg s). unfold append.
  rewrite u64_sub_exact by (unfold max_string_bytes in *; ulia).
  destruct (_ <? _) eqn:E; bool_simp.
  - by replace (strlen t + strlen s <=? max_string_bytes) with false by (symmetry; apply Z.leb_gt; lia).
  - by replace (strlen t + strlen s <=? max_string_bytes) with true by (symmetry; apply Z.leb_le; lia).
Qed.

(** ** The built-in registry is well-formed and lawful *)
Section builtin_facts.
Context `{Utf8Ops}.

Lemma valid_single_argument args p :
  valid_arguments args [p] = true ->
  exists v, args = [{| nv_name := param_name p; nv_data := v |}]
    /\ valid_value v = true /\ kind_of v = param_kind p
    /\ single_argument args (param_name p) = Some v.
Proof.
  intros Hv. apply valid_arguments_spec in Hv as [Hv Hp]; [|simpl; apply NoDup_singleton].
  apply Permutation_singleton_r in Hp. destruct args as [|[n v] [|]]; simplify_eq/=.
  apply valid_named_values_spec in Hv as (_ & _ & _ & Hv). apply Forall_cons in Hv as [Hv _]. simpl in *.
  match goal with Hs : argument_signature _ = _ |- _ => unfold signature, argument_signature in Hs end. simplify_eq/=.
  exists v. split_and!; [done..|].
  rewrite bool_decide_eq_true_2 by done. by rewrite Hv.
Qed.

Lemma builtin_registry_definitions :
  definitions_ builtin_registry = [counter_definition; text_buffer_definition].
Proof.
  assert (Hc : registry_add empty_registry counter_definition
               = (None, {| definitions_ := [counter_definition] |})).
  { unfold registry_add. set (b := _ || _). assert (b = false) as -> by (by vm_compute). reflexivity. }
  unfold builtin_registry. rewrite Hc. unfold registry_add. cbn [snd].
  set (b := _ || _). assert (b = false) as -> by (by vm_compute). reflexivity.
Qed.

Lemma builtin_registry_wf : registry_wf builtin_registry.
Proof. repeat apply registry_add_wf; [apply empty_registry_wf|by vm_compute..]. Qed.

Inductive builtin_ok : class_definition builtin_object -> builtin_object -> Prop :=
  | counter_ok n : in_i64 n -> builtin_ok counter_definition (counter_object n)
  | text_buffer_ok s :
      valid_value (Text s) = true -> builtin_ok text_buffer_definition (text_buffer_object s).

Lemma builtin_state_matches d o : builtin_ok d o -> state_matches d (state o) = true.
Proof.
  intros [n Hn|s Hs].
  - vm_compute. reflexivity.
  - apply state_matches_spec; [vm_compute; apply NoDup_singleton|]. split_and!.
    + unfold valid_named_values. change (valid_names nv_name (state (text_buffer_object s))) with true.
      simpl. unfold valid_value in Hs. by rewrite Hs.
    + reflexivity.
    + apply value_bytes_bound in Hs. unfold fields_charge, field_charge. simpl in *.
      unfold max_string_bytes, record_charge, max_object_state_bytes, max_payload_bytes in *.
      change (strlen "text") with 4. change (1024 * 1024 / 2) with 524288. lia.
Qed.

Lemma builtin_create d factory args :
  d ∈ definitions_ builtin_registry -> create d = Some factory -> arguments_typed args ->
  valid_arguments args (desc_constructor_parameters (description d)) = true ->
  exists o, factory args = inl (Some o) /\ builtin_ok d o.
Proof.
  rewrite builtin_registry_definitions. intros Hd Hc Ht Ha.
  apply elem_of_cons in Hd as [->|Hd]; [|apply list_elem_of_singleton in Hd as ->]; simpl in Hc, Ha; simplify_eq;
    apply valid_single_argument in Ha as (v & -> & Hv & Hk & Hs); cbn [param_name] in *;
    destruct v; try done; apply Forall_cons in Ht as [Ht _]; simpl in Ht.
  - exists (counter_object n). unfold counter_factory. rewrite Hs. split; [done|]. by constructor.
  - exists (text_buffer_object s). unfold text_buffer_factory. rewrite Hs. split; [done|]. by constructor.
Qed.
Lemma builtin_expected k : 1 <= k <= 10 -> k <> internal_failure -> expected_error (make_error k).
Proof. intros Hk Hne. unfold expected_error. by rewrite make_error_code_id. Qed.

Lemma counter_invoke_lawful v n m args :
  in_i64 v -> arguments_typed args ->
  find_named method_name n (desc_methods (description counter_definition)) = Some m ->
  valid_arguments args (method_parameters m) = true ->
  match counter_invoke v n args with
  | (inl w, o) =>
      valid_value w = true /\ kind_of w = method_result_kind m /\ value_typed w
      /\ builtin_ok counter_definition o
  | (inr e, _) => expected_error e
  end.
Proof.
  intros Hv Ht Hm Ha. simpl in Hm. case_decide; simplify_eq.
  apply valid_single_argument in Ha as (w & -> & Hw & Hk & Hs). cbn [param_name] in *.
  destruct w as [|d|]; [discriminate Hk| |discriminate Hk]. apply Forall_cons in Ht as [Ht _]. simpl in Ht.
  unfold counter_invoke. rewrite bool_decide_eq_true_2 by done. rewrite Hs. cbn [negb get_integer].
  rewrite increment_exact by done. destruct (_ && _) eqn:E; bool_simp; [|by apply builtin_expected].
  assert (in_i64 (v + d)) by ulia. split; [done|]. split; [done|]. split; [done|]. by constructor.
Qed.

Lemma text_buffer_invoke_lawful `{!Utf8Laws} t n m args :
  valid_value (Text t) = true -> arguments_typed args ->
  find_named method_name n (desc_methods (description text_buffer_definition)) = Some m ->
  valid_arguments args (method_parameters m) = true ->
  match text_buffer_invoke t n args with
  | (inl w, o) =>
      valid_value w = true /\ kind_of w = method_result_kind m /\ value_typed w
      /\ builtin_ok text_buffer_definition o
  | (inr e, _) => expected_error e
  end.
Proof.
  intros Hv Ht Hm Ha. simpl in Hm. case_decide; simplify_eq.
  apply valid_single_argument in Ha as (w & -> & Hw & Hk & Hs). cbn [param_name] in *.
  destruct w as [s| |]; [|discriminate Hk..]. pose proof (value_bytes_bound _ Hv) as Hb. simpl in Hb.
  unfold text_buffer_invoke. rewrite bool_decide_eq_true_2 by done. rewrite Hs. cbn [negb get_text].
  rewrite append_exact by done. destruct (_ <=? _) eqn:E; bool_simp; [|by apply builtin_expected].
  assert (valid_value (Text (t +:+ s)) = true).
  { unfold valid_value in *. bool_simp. rewrite andb_true_iff, Z.leb_le, strlen_app.
    split; [lia|]. by apply utf8_app. }
  split; [done|]. split; [done|]. split; [done|]. by constructor.
Qed.

#[global] Instance builtin_lawful `{!Utf8Laws} : LawfulRegistry builtin_registry.
Proof.
  apply (Build_LawfulRegistry _ _ _ _ builtin_ok).
  - intros d factory args Hd Hc Ht Ha.
    by destruct (builtin_create d factory args Hd Hc Ht Ha) as (o & -> & Hok).
  - intros d o _ Hok. split; [by apply builtin_state_matches|].
    destruct Hok as [n Hn|t _]; apply Forall_cons; (split; [|constructor]); [exact Hn|exact I].
  - intros d o _ Hok. by exists o.
  - intros d c n m args _ [v Hv|t Ht] Htyped Hm Ha.
    + by apply counter_invoke_lawful.
    + by apply text_buffer_invoke_lawful.
Defined.
End builtin_facts.

(** ** Properties *)

(** Counter.  For every 64-bit value and delta, [increment] evaluates no
    overflowing signed expression (also for the smallest delta), returns and stores
    the exact sum when it is representable, and otherwise reports
    [numeric_overflow] and keeps the value. *)
Lemma counter_increment_correct `{Utf8Ops} (v d : Z) :
  in_i64 v -> in_i64 d ->
  is_Some (increment v d)
  /\ invoke (counter_object v) "increment" [{| nv_name := "delta"; nv_data := Integer d |}]
     = if (i64_min <=? v + d) && (v + d <=? i64_max)
       then (inl (Integer (v + d)), counter_object (v + d))
       else (inr (make_error numeric_overflow), counter_object v).
Proof.
  intros Hv Hd. pose proof (increment_exact v d Hv Hd) as He. split; [rewrite He; eauto|].
  cbn [invoke builtin_ops builtin_invoke]. unfold counter_invoke.
  change (get_integer (single_argument _ _)) with (Some d). simpl. rewrite He. by destruct (_ && _).
Qed.

(** Text buffer.  [append] returns and stores the concatenation when it fits the
    string bound, without the subtraction wrapping, and otherwise reports
    [quota_exceeded] and keeps the text; the buffer never exceeds the bound and
    stays valid text, so the object remains a lawful instance of its class. *)
Lemma text_buffer_append_correct `{Utf8Laws} (t s : string) :
  valid_value (Text t) = true -> valid_value (Text s) = true ->
  invoke (text_buffer_object t) "append" [{| nv_name := "suffix"; nv_data := Text s |}]
  = (if strlen t + strlen s <=? max_string_bytes
     then (inl (Text (t +:+ s)), text_buffer_object (t +:+ s))
     else (inr (make_error quota_exceeded), text_buffer_object t))
  /\ state_matches text_buffer_definition
       (state (invoke (text_buffer_object t) "append" [{| nv_name := "suffix"; nv_data := Text s |}]).2)
     = true.
Proof.
  intros Ht Hs. pose proof (value_bytes_bound _ Ht) as Hb. cbn [value_bytes] in Hb.
  assert (Heq : invoke (text_buffer_object t) "append" [{| nv_name := "suffix"; nv_data := Text s |}]
    = if strlen t + strlen s <=? max_string_bytes
      then (inl (Text (t +:+ s)), text_buffer_object (t +:+ s))
      else (inr (make_error quota_exceeded), text_buffer_object t)).
  { cbn [invoke builtin_ops builtin_invoke]. unfold text_buffer_invoke, single_argument.
    cbn [nv_name nv_data]. rewrite Hs. simpl. rewrite append_exact by done. by destruct (_ <=? _). }
  split; [done|]. rewrite Heq. apply builtin_state_matches.
  destruct (_ <=? _) eqn:E; bool_simp; [|by constructor]. constructor. unfold valid_value in *. bool_simp.
  rewrite andb_true_iff, Z.leb_le, strlen_app. split; [lia|]. by apply utf8_app.
Qed.

(** C35: The built-in methods.  For every 64-bit value and delta, [increment] evaluates no
    overflowing signed expression (also for the smallest delta), returns and stores the
    exact sum when it is representable, and otherwise reports [numeric_overflow] and keeps
    the value.  For valid texts [append] returns and stores the concatenation when it fits
    the string bound, without the subtraction wrapping, and otherwise reports
    [quota_exceeded] and keeps the text; the buffer stays a lawful instance of its class. *)
Theorem builtin_methods_correct `{Utf8Laws} :
  (forall v d, in_i64 v -> in_i64 d ->
    is_Some (increment v d)
    /\ invoke (counter_object v) "increment" [{| nv_name := "delta"; nv_data := Integer d |}]
       = if (i64_min <=? v + d) && (v + d <=? i64_max)
         then (inl (Integer (v + d)), counter_object (v + d))
         else (inr (make_error numeric_overflow), counter_object v))
  /\ (forall t s, valid_value (Text t) = true -> valid_value (Text s) = true ->
    invoke (text_buffer_object t) "append" [{| nv_name := "suffix"; nv_data := Text s |}]
    = (if strlen t + strlen s <=? max_string_bytes
       then (inl (Text (t +:+ s)), text_buffer_object (t +:+ s))
       else (inr (make_error quota_exceeded), text_buffer_object t))
    /\ state_matches text_buffer_definition
         (state (invoke (text_buffer_object t) "append" [{| nv_name := "suffix"; nv_data := Text s |}]).2)
       = true).
Proof. split; [apply counter_increment_correct|apply text_buffer_append_correct]. Qed.

Lemma builtin_methods_correct_witness :
  @invoke _ (@builtin_ops utf8_reference) (counter_object (-1)) "increment"
    [{| nv_name := "delta"; nv_data := Integer i64_min |}]
  = (inr (make_error numeric_overflow), counter_object (-1))
  /\ @invoke _ (@builtin_ops utf8_reference) (text_buffer_object "pipe") "append"
       [{| nv_name := "suffix"; nv_data := Text "forge" |}]
     = (inl (Text "pipeforge"), text_buffer_object "pipeforge").
Proof.
  destruct (@builtin_methods_correct utf8_reference utf8_reference_laws) as [Hc Ht]. split.
  - destruct (Hc (-1) i64_min) as [_ He]; [unfold in_i64, i64_min, i64_max; lia..|]. rewrite He. reflexivity.
  - destruct (Ht "pipe" "forge") as [He _]; [reflexivity..|]. rewrite He. reflexivity.
Defined.

Lemma registry_add_correct_witness :
  (registry_add (@builtin_registry utf8_reference) (@counter_definition utf8_reference)).1
  = Some (make_error invalid_request).
Proof.
  pose proof (registry_add_correct (@builtin_registry utf8_reference) (@counter_definition utf8_reference)
    builtin_registry_wf ltac:(unfold in_u64; vm_compute; split; congruence)) as [_ Ha].
  destruct (registry_add _ _) as [[e|] r'].
  - destruct Ha as [_ [[_ ->]|(_ & Hl & _)]]; [reflexivity|].
    rewrite builtin_registry_definitions in Hl. discriminate Hl.
  - destruct Ha as [(_ & _ & _ & _ & Hn) _]. unfold registry_find in Hn.
    rewrite builtin_registry_definitions in Hn. discriminate Hn.
Defined.

Lemma registry_enumeration_witness :
  collect (names_page (@builtin_registry utf8_reference) 1) 3 "" = Some ["Counter"; "TextBuffer"].
Proof.
  pose proof (registry_enumeration (@builtin_registry utf8_reference) 1 builtin_registry_wf
    ltac:(unfold max_entries; lia)) as [Hc _].
  unfold names in Hc. rewrite builtin_registry_definitions in Hc. exact Hc.
Defined.
