(* ===== verification/Sessions.v ===== *)
(** * Sessions: what a client can rely on

    Sequences of operations on one store.  The theorems of this file are the
    session-level consequences of the refinement of StoreSpec: accounting, failure
    atomicity, enumeration, persistence of values, release and closing.  Several
    sessions that share the identifier source are the subject of ServerProofs. *)
From stdpp Require Import prelude gmap strings sorting.
From Stdlib Require Import ZArith Lia.
From S2P Require Import Prelude Pagination Utf8 Contracts Validation Registry Store StoreProofs StoreSpec Lawful Builtins.

Section run.
Context `{Utf8Ops} {Obj : Type} `{ObjectOps Obj}.
Context (registry : class_registry Obj).
Implicit Types (st : session_store Obj) (ids : identifier_source).

(** Successive calls of [execute]; the outcomes in order. *)
Fixpoint run st ids (ops : list operation)
  : option (list outcome * session_store Obj * identifier_source) :=
  match ops with
  | [] => Some ([], st, ids)
  | op :: rest =>
      match execute registry st ids op with
      | None => None
      | Some (o, st', ids') =>
          match run st' ids' rest with
          | None => None
          | Some (os, st'', ids'') => Some (o :: os, st'', ids'')
          end
      end
  end.

(** *** A failed operation changes nothing *)
Lemma execute_error_unchanged st ids op e st' ids' :
  execute registry st ids op = Some (o_error e, st', ids') -> st' = st /\ ids' = ids.
Proof.
  unfold execute. destruct (closed_ st); [intros; by simplify_eq|].
  destruct op; simpl; intros He.
  - destruct (apply_list_classes _ _ _); simplify_eq/=; done.
  - by simplify_eq.
  - unfold apply_put_value in He. split_match_in He; eauto using next_None.
  - by simplify_eq.
  - destruct (apply_list_values _ _ _); simplify_eq/=; done.
  - unfold apply_create_object in He. split_match_in He; eauto using next_None.
  - by simplify_eq.
  - injection He as He <-. unfold apply_release_object in He. split_match_in He; eauto.
  - by simplify_eq.
  - injection He as He <-. unfold apply_invoke_method in He. split_match_in He; eauto.
Qed.

(** *** What a step of the contract leaves alone *)
Lemma spec_step_keeps a ids op o a' ids' :
  spec_step registry a ids op o a' ids' -> a_limits a' = a_limits a /\ a_closed a' = a_closed a.
Proof. by destruct 1. Qed.

Lemma spec_step_values a ids op o a' ids' id v :
  spec_step registry a ids op o a' ids' -> a_values a !! id = Some v -> a_values a' !! id = Some v.
Proof.
  destruct 1; try done. intros Hv. simpl. rewrite lookup_insert_ne; congruence.
Qed.

Lemma spec_step_gone a ids op o a' ids' id :
  spec_step registry a ids op o a' ids' -> in_u64 (next_ ids) -> issued ids id ->
  a_objects a !! id = None -> a_objects a' !! id = None.
Proof.
  intros Hs Hu Hi Hn. destruct Hs as [| | | |n args d i id' ids' _ _ _ _ _ Hnext _ _|id' d i _ _
    |id' n args d i m c v c' _ (Hl & _)]; try done; simpl.
  - apply issued_next in Hnext as [_ Hni]; [|done]. rewrite lookup_insert_ne; congruence.
  - apply lookup_delete_None. auto.
  - rewrite lookup_insert_ne; congruence.
Qed.

Lemma abs_lookup_None_inv st id : a_objects (abs st) !! id = None -> objects_ st !! id = None.
Proof. simpl. rewrite lookup_fmap. by destruct (objects_ st !! id). Qed.

Context (registry_ok : registry_wf registry).

(** *** The invariant along a run *)
Lemma run_wf st ids ops :
  store_wf registry st ids -> Forall operation_typed ops ->
  exists os st' ids', run st ids ops = Some (os, st', ids') /\ length os = length ops
    /\ store_wf registry st' ids' /\ ids_le ids ids' /\ limits_ st' = limits_ st.
Proof.
  intros wf Ht. revert st ids wf. induction Ht as [|op ops Hop _ IH]; intros st ids wf; simpl.
  { exists [], st, ids. split_and!; try done. apply ids_le_refl, wf. }
  destruct (execute_step registry registry_ok st ids op wf Hop) as ([[o st1] ids1] & -> & wf1 & Hle & Hs).
  simpl in *. destruct (IH st1 ids1 wf1) as (os & st2 & ids2 & -> & Hlen & wf2 & Hle2 & Hlim).
  exists (o :: os), st2, ids2. split_and!; simpl; [done|lia|done|by etrans|].
  rewrite Hlim. by apply spec_step_keeps in Hs as [Hk _].
Qed.

(** Stored values stay, and released identifiers do not come back, along a run. *)
Lemma run_values st ids ops os st' ids' id v :
  store_wf registry st ids -> Forall operation_typed ops -> run st ids ops = Some (os, st', ids') ->
  values_ st !! id = Some v -> values_ st' !! id = Some v.
Proof.
  intros wf Ht. revert st ids os wf. induction Ht as [|op ops Hop _ IH]; intros st ids os wf Hr Hv;
    simpl in Hr; [by simplify_eq|].
  destruct (execute_step registry registry_ok st ids op wf Hop) as ([[o st1] ids1] & He & wf1 & _ & Hs).
  rewrite He in Hr. simpl in *. destruct (run st1 ids1 ops) as [[[os1 st2] ids2]|] eqn:Er; simplify_eq.
  eapply IH; [done..|]. by apply (spec_step_values _ _ _ _ _ _ _ _ Hs).
Qed.

Lemma run_objects_gone st ids ops os st' ids' id :
  store_wf registry st ids -> Forall operation_typed ops -> run st ids ops = Some (os, st', ids') ->
  issued ids id -> objects_ st !! id = None -> objects_ st' !! id = None.
Proof.
  intros wf Ht. revert st ids os wf. induction Ht as [|op ops Hop _ IH]; intros st ids os wf Hr Hi Ho;
    simpl in Hr; [by simplify_eq|].
  destruct (execute_step registry registry_ok st ids op wf Hop) as ([[o st1] ids1] & He & wf1 & Hle & Hs).
  rewrite He in Hr. simpl in *. destruct (run st1 ids1 ops) as [[[os1 st2] ids2]|] eqn:Er; simplify_eq.
  eapply IH; [done..|by eapply issued_le|]. apply abs_lookup_None_inv.
  eapply (spec_step_gone _ _ _ _ _ _ _ Hs (wf_ids _ _ _ wf) Hi). by apply abs_lookup_None.
Qed.

Lemma execute_keeps_wf st ids op o st' ids' :
  store_wf registry st ids -> operation_typed op -> execute registry st ids op = Some (o, st', ids') ->
  store_wf registry st' ids' /\ ids_le ids ids' /\ spec_step registry (abs st) ids op o (abs st') ids'.
Proof.
  intros wf Hop He. destruct (execute_step registry registry_ok st ids op wf Hop) as (r & He' & Hr).
  rewrite He in He'. by injection He' as <-.
Qed.

Lemma put_value_stored st ids v r st' ids' :
  store_wf registry st ids -> execute registry st ids (put_value v) = Some (o_record r, st', ids') ->
  vr_data r = v /\ values_ st' !! vr_id r = Some v /\ vr_id r <> 0.
Proof.
  intros wf He. unfold execute in He. destruct (closed_ st); [done|]. injection He as He.
  unfold apply_put_value in He. destruct (negb _); [done|]. destruct (_ || _); [done|].
  destruct (next ids) as [[id|] ids1] eqn:Hn; simplify_eq/=.
  destruct (fresh_id registry st ids wf _ _ Hn) as [Hf _]. rewrite emplace_fresh by done.
  pose proof (next_Some _ _ _ (wf_ids _ _ _ wf) Hn) as (-> & Hpos & _).
  split_and!; [done|by rewrite lookup_insert_eq|lia].
Qed.

Lemma run_closed st ids ops os st' ids' :
  store_wf registry st ids -> Forall operation_typed ops -> run st ids ops = Some (os, st', ids') ->
  closed_ st' = closed_ st.
Proof.
  intros wf Ht. revert st ids os wf. induction Ht as [|op ops Hop _ IH]; intros st ids os wf Hr;
    simpl in Hr; [by simplify_eq|].
  destruct (execute registry st ids op) as [[[o st1] ids1]|] eqn:He; [|done].
  destruct (run st1 ids1 ops) as [[[os1 st2] ids2]|] eqn:Er; simplify_eq.
  destruct (execute_keeps_wf st ids op _ _ _ wf Hop He) as (wf1 & _ & Hs%spec_step_keeps).
  rewrite (IH _ _ _ wf1 Er). apply Hs.
Qed.

Lemma release_object_effect st ids id st' ids' :
  store_wf registry st ids -> execute registry st ids (release_object id) = Some (o_released, st', ids') ->
  exists o, closed_ st = false /\ id <> 0 /\ objects_ st !! id = Some o /\ objects_ st' !! id = None
    /\ used_ st' = used_ st - so_charge o /\ closed_ st' = false.
Proof.
  intros wf He. unfold execute in He. destruct (closed_ st) eqn:Hc; [done|]. injection He as He <-.
  unfold apply_release_object in He. destruct (id =? 0) eqn:Hz; [done|]. bool_simp.
  destruct (objects_ st !! id) as [o|] eqn:Ho; simplify_eq. exists o. simpl.
  pose proof (stored_charge_le_used registry registry_ok st ids wf id o Ho).
  pose proof (used_range registry registry_ok st ids wf). pose proof (wf_lim_bytes _ _ _ wf).
  unfold max_session_bytes in *. rewrite u64_sub_exact by ulia. by rewrite lookup_delete_eq.
Qed.

Definition record_entry (r : value_record) : Z * value := (vr_id r, vr_data r).

(** One page of [list_values], as entries with an optional cursor. *)
Definition values_page st ids (limit after : Z) : list (Z * value) * option Z :=
  match execute registry st ids (list_values after limit) with
  | Some (o_values page, _, _) =>
      (record_entry <$> vp_values page,
       if vp_next page =? 0 then None else Some (vp_next page))
  | _ => ([], None)
  end.

Lemma record_entries (l : list (Z * value)) :
  record_entry <$> (entry_record <$> l) = l.
Proof. induction l as [|[id v] l IH]; [done|]. rewrite !fmap_cons, IH. done. Qed.

Lemma values_page_ok st ids limit after :
  store_wf registry st ids -> 1 <= limit <= max_entries -> 0 <= after ->
  len (values_page st ids limit after).1 <= limit
  /\ zsum (fun e => value_charge e.2) (values_page st ids limit after).1 <= page_byte_budget
  /\ page_ok fst past_key (entries (values_ st)) after
       (values_page st ids limit after).1 (values_page st ids limit after).2.
Proof.
  intros wf Hlim Ha. unfold values_page.
  destruct (execute_step registry registry_ok st ids (list_values after limit) wf) as ([[o st'] ids'] & -> & _ & _ & Hs);
    [simpl; lia|]. simpl in Hs.
  inversion Hs as [op Hcl|op c Hcl Href|op o' Hcl Hans| | | |]; subst; simpl.
  - simpl in Hcl. apply (wf_closed _ _ _ wf) in Hcl as [-> _]. split_and!; [unfold len; simpl; lia|done|].
    by exists [].
  - inversion Href; subst. lia.
  - inversion Hans; subst. simpl. rewrite record_entries. split_and!; [lia|done..].
Qed.

Lemma values_all_remaining st ids :
  store_wf registry st ids -> remaining past_key (entries (values_ st)) 0 = entries (values_ st).
Proof.
  intros wf. apply filter_all, Forall_forall. intros [id v] Hin%elem_of_entries.
  apply (wf_values _ _ _ wf) in Hin as [[? _] _]. unfold past_key. simpl. lia.
Qed.
End run.

(** ** Properties *)
Section properties.
Context `{Utf8Ops} {Obj : Type} `{ObjectOps Obj}.
Context (registry : class_registry Obj).
Implicit Types (st : session_store Obj) (ids : identifier_source).

(** C4: Refinement of the session store.  On a well-formed store over a registered
    set of arbitrary plug-ins, [execute] is defined for every operation (no
    [back()] of an empty vector, no wrap-around in the accounting), keeps the store
    well-formed, advances the identifier source at most forward, and is a step of
    the contract [spec_step]: it refuses exactly for a listed reason with the listed
    code, answers queries from the contents, and performs the listed change. *)
Theorem execute_refines st ids op :
  registry_wf registry -> store_wf registry st ids -> operation_typed op ->
  exists o st' ids', execute registry st ids op = Some (o, st', ids')
    /\ store_wf registry st' ids' /\ ids_le ids ids'
    /\ spec_step registry (abs st) ids op o (abs st') ids'.
Proof.
  intros Hr wf Hop. destruct (execute_step registry Hr st ids op wf Hop) as ([[o st'] ids'] & He & Hs).
  exists o, st', ids'. by split.
Qed.

(** C28: Failure atomicity.  Whatever the store, the registry and the plug-in do, an
    operation answered with an error leaves the stored values, objects, byte count
    and the identifier source as they were (a method that failed on the clone, or
    whose result was rejected, leaves no trace). *)
Theorem execute_failure_atomic st ids op e st' ids' :
  execute registry st ids op = Some (o_error e, st', ids') -> st' = st /\ ids' = ids.
Proof. apply execute_error_unchanged. Qed.

(** C7: Accounting.  After any sequence of operations on a new session the byte
    count is the sum of the charges of what is retained, and bytes, values and
    objects stay within the requested limits and the hard ceilings; the machine
    arithmetic never wraps. *)
Theorem session_accounting limits ids ops :
  registry_wf registry -> in_u64 (next_ ids) ->
  0 <= lim_values limits -> 0 <= lim_objects limits -> 0 <= lim_bytes limits ->
  Forall operation_typed ops ->
  exists os st' ids', run registry (new_session_store limits) ids ops = Some (os, st', ids')
    /\ length os = length ops
    /\ accounted_bytes st'
       = msum value_charge (values_ st')
         + msum (fun o => object_charge (so_definition o) (state (so_instance o))) (objects_ st')
    /\ accounted_bytes st' <= lim_bytes limits `min` max_session_bytes
    /\ msize (values_ st') <= lim_values limits `min` max_stored_values
    /\ msize (objects_ st') <= lim_objects limits `min` max_stored_objects.
Proof.
  intros Hr Hu Hv Ho Hb Hops. pose proof (new_session_wf registry limits ids Hu Hv Ho Hb) as wf.
  destruct (run_wf registry Hr _ ids ops wf Hops) as (os & st' & ids' & Hrun & Hlen & wf' & _ & Hlim).
  exists os, st', ids'. pose proof (wf_quota _ _ _ wf') as Hq. pose proof (wf_count_values _ _ _ wf') as Hcv.
  pose proof (wf_count_objects _ _ _ wf') as Hco. rewrite Hlim in Hq, Hcv, Hco. simpl in Hq, Hcv, Hco.
  split_and!; [done|done| |done|done|done].
  unfold accounted_bytes. rewrite (wf_used _ _ _ wf'). f_equal. apply msum_ext.
  intros id o Hlook. by destruct (wf_objects _ _ _ wf' id o Hlook) as (_ & _ & _ & ->).
Qed.

(** C30: Put then get.  A stored value is retrievable under the identifier that was
    returned, unchanged, after any further sequence of operations of the session. *)
Theorem put_get_roundtrip st ids v r st1 ids1 ops :
  registry_wf registry -> store_wf registry st ids ->
  execute registry st ids (put_value v) = Some (o_record r, st1, ids1) ->
  Forall operation_typed ops ->
  vr_data r = v
  /\ exists os st2 ids2, run registry st1 ids1 ops = Some (os, st2, ids2)
     /\ execute registry st2 ids2 (get_value (vr_id r)) = Some (o_record r, st2, ids2).
Proof.
  intros Hr wf He Hops.
  destruct (put_value_stored registry st ids v r st1 ids1 wf He) as (<- & Hlook & Hid).
  pose proof (execute_keeps_wf registry Hr st ids (put_value _) _ _ _ wf I He) as [wf1 _]. split; [done|].
  destruct (run_wf registry Hr st1 ids1 ops wf1 Hops) as (os & st2 & ids2 & Hrun & _ & wf2 & _).
  exists os, st2, ids2. split; [done|].
  pose proof (run_values registry Hr st1 ids1 ops os st2 ids2 _ _ wf1 Hops Hrun Hlook) as Hl2.
  unfold execute. destruct (closed_ st2) eqn:Hc2.
  { apply (wf_closed _ _ _ wf2) in Hc2 as [Hemp _]. rewrite Hemp in Hl2. done. }
  unfold apply_get_value. apply Z.eqb_neq in Hid. rewrite Hid, Hl2. by destruct r.
Qed.

(** C31: Release.  Releasing an object returns exactly its charge to the budget, and
    from then on, whatever the session does, its identifier names no object: the
    object cannot be read, invoked or released again, and no later object gets it. *)
Theorem release_is_final st ids id st1 ids1 ops :
  registry_wf registry -> store_wf registry st ids -> in_u64 id ->
  execute registry st ids (release_object id) = Some (o_released, st1, ids1) ->
  Forall operation_typed ops ->
  (exists o, objects_ st !! id = Some o /\ accounted_bytes st1 = accounted_bytes st - so_charge o)
  /\ exists os st2 ids2, run registry st1 ids1 ops = Some (os, st2, ids2)
     /\ execute registry st2 ids2 (get_object id) = Some (fail not_found, st2, ids2)
     /\ execute registry st2 ids2 (release_object id) = Some (fail not_found, st2, ids2).
Proof.
  intros Hr wf Hid He Hops.
  destruct (execute_keeps_wf registry Hr st ids (release_object id) _ _ _ wf Hid He) as (wf1 & Hle & _).
  destruct (release_object_effect registry Hr st ids id st1 ids1 wf He)
    as (o & Hc & Hz & Ho & Hnone & Hacc & Hc1). split; [eauto|].
  destruct (run_wf registry Hr st1 ids1 ops wf1 Hops) as (os & st2 & ids2 & Hrun & _).
  exists os, st2, ids2. split; [done|].
  assert (Hi : issued ids1 id).
  { eapply issued_le; [done|]. by apply (wf_objects _ _ _ wf id o). }
  pose proof (run_objects_gone registry Hr st1 ids1 ops os st2 ids2 id wf1 Hops Hrun Hi Hnone) as Hg.
  assert (Hc2 : closed_ st2 = false) by (rewrite (run_closed registry Hr _ _ _ _ _ _ wf1 Hops Hrun); done).
  unfold execute. rewrite Hc2. unfold apply_get_object, apply_release_object.
  apply Z.eqb_neq in Hz. by rewrite Hz, Hg.
Qed.

(** Closing.  [close] releases everything and is idempotent, the byte count is
    zero, and every operation of every later sequence is answered [access_denied]
    without any effect. *)
Lemma close_denies st ids ops :
  close (close st) = close st /\ accounted_bytes (close st) = 0
  /\ values_ (close st) = ∅ /\ objects_ (close st) = ∅
  /\ run registry (close st) ids ops
     = Some (replicate (length ops) (fail access_denied), close st, ids).
Proof.
  split_and!; [done..|]. induction ops as [|op ops IH]; [done|].
  cbn [run execute close closed_ length replicate] in *. change (execute _ _ _ _) with
    (Some (fail access_denied, close st, ids)). by rewrite IH.
Qed.

(** C27: Value enumeration.  For every page limit from 1 to 64, following the cursors
    of [list_values] from zero returns every stored value exactly once, in order of
    identifier, and stops, although pages are also cut by the byte budget; every
    page respects the limit and the budget, and no page is empty while values
    remain. *)
Theorem values_enumeration st ids limit :
  registry_wf registry -> store_wf registry st ids -> 1 <= limit <= max_entries ->
  collect (values_page registry st ids limit) (S (size (values_ st))) 0 = Some (entries (values_ st))
  /\ StronglySorted key_lt (entries (values_ st))
  /\ (forall id v, (id, v) ∈ entries (values_ st) <-> values_ st !! id = Some v)
  /\ forall after, 0 <= after -> len (values_page registry st ids limit after).1 <= limit
     /\ zsum (fun e => value_charge e.2) (values_page registry st ids limit after).1 <= page_byte_budget.
Proof.
  intros Hr wf Hlim. split_and!; [|apply entries_sorted|intros; apply elem_of_entries|];
    [|intros after Ha; by destruct (values_page_ok registry Hr st ids limit after wf Hlim Ha) as (? & ? & _)].
  rewrite (collect_complete key_lt fst past_key) with (items := entries (values_ st)) (good := fun c => 0 <= c).
  - by rewrite values_all_remaining with (ids := ids) (registry := registry).
  - done.
  - intros c x y. unfold past_key, key_lt. lia.
  - apply entries_sorted.
  - intros c Hc. by destruct (values_page_ok registry Hr st ids limit c wf Hlim Hc) as (_ & _ & ?).
  - intros [id v] Hin%elem_of_entries. apply (wf_values _ _ _ wf) in Hin as [[? _] _]. simpl. lia.
  - lia.
  - rewrite (values_all_remaining registry st ids wf). unfold entries.
    rewrite merge_sort_Permutation. rewrite length_map_to_list. lia.
Qed.
End properties.

(** ** Sessions over lawful plug-ins *)
Definition outcome_expected (o : outcome) : Prop :=
  match o with
  | o_error e => expected_error e
  | _ => True
  end.

Section lawful_runs.
Context `{Utf8Ops} {Obj : Type} `{ObjectOps Obj}.
Context (registry : class_registry Obj) `{!LawfulRegistry registry}.
Context (registry_ok : registry_wf registry).

Lemma run_lawful st ids ops os st' ids' :
  store_wf registry st ids -> objects_lawful registry (abs st) -> values_typed (abs st) ->
  Forall (fun op => operation_typed op /\ operation_values_typed op) ops ->
  run registry st ids ops = Some (os, st', ids') -> Forall outcome_expected os.
Proof.
  intros wf Ho Hv Ht. revert st ids os wf Ho Hv.
  induction Ht as [|op ops [Hop Hval] _ IH]; intros st ids os wf Ho Hv Hr;
    simpl in Hr; [by simplify_eq|].
  destruct (execute registry st ids op) as [[[o st1] ids1]|] eqn:He; [|done].
  destruct (run registry st1 ids1 ops) as [[[os1 st2] ids2]|] eqn:Er; simplify_eq.
  destruct (execute_keeps_wf registry registry_ok st ids op _ _ _ wf Hop He) as (wf1 & _ & Hs).
  destruct (spec_step_lawful registry _ _ _ _ _ _ Ho Hv Hval Hs) as [Ho1 Hv1].
  constructor; [|by eapply IH]. destruct o; try done. simpl.
  by apply (spec_step_expected registry _ _ _ _ _ _ Ho Hval Hs).
Qed.

(** C29: Lawful plug-ins cause no internal failure.  Over a registry whose classes
    honour the object contract, no operation of any session, whatever the client
    sends, is answered with [internal_failure] or with a code outside the public
    range. *)
Theorem lawful_session_expected limits ids ops :
  in_u64 (next_ ids) -> 0 <= lim_values limits -> 0 <= lim_objects limits -> 0 <= lim_bytes limits ->
  Forall (fun op => operation_typed op /\ operation_values_typed op) ops ->
  exists os st' ids', run registry (new_session_store limits) ids ops = Some (os, st', ids')
    /\ length os = length ops /\ Forall outcome_expected os.
Proof.
  intros Hu Hv Ho Hb Hops. pose proof (new_session_wf registry limits ids Hu Hv Ho Hb) as wf.
  assert (Hops' : Forall operation_typed ops) by (eapply Forall_impl; [done|]; by intros ? []).
  destruct (run_wf registry registry_ok _ ids ops wf Hops') as (os & st' & ids' & Hrun & Hlen & _).
  exists os, st', ids'. split_and!; [done..|]. eapply run_lawful; [done| | |done..].
  - intros id d i Hl. simpl in Hl. by rewrite fmap_empty in Hl.
  - done.
Qed.
End lawful_runs.

(** ** A session over the built-in classes *)
Module Demo.
#[local] Existing Instance utf8_reference.
#[local] Existing Instance utf8_reference_laws.

Definition ids0 : identifier_source := {| next_ := 1 |}.
Definition arg (n : string) (v : value) : named_value := {| nv_name := n; nv_data := v |}.

Definition ops : list operation :=
  [put_value (Text "hello"); create_object "Counter" [arg "initial" (Integer 7)];
   put_value (Integer 42); invoke_method 2 "increment" [arg "delta" (Integer 5)];
   list_values 0 1; invoke_method 2 "increment" [arg "delta" (Integer i64_max)]].

Definition result := run builtin_registry (new_session_store default_limits) ids0 ops.
Definition store : session_store builtin_object :=
  match result with Some (_, st, _) => st | None => new_session_store default_limits end.
Definition ids : identifier_source := match result with Some (_, _, i) => i | None => ids0 end.

Lemma ops_typed : Forall operation_typed ops.
Proof. repeat constructor; simpl; unfold in_u64, u64_max; lia. Qed.

Lemma new_wf : store_wf builtin_registry (new_session_store default_limits) ids0.
Proof. apply new_session_wf; unfold in_u64; simpl; done. Qed.

Lemma store_wf : store_wf builtin_registry store ids.
Proof.
  destruct (run_wf builtin_registry builtin_registry_wf _ ids0 ops new_wf ops_typed)
    as (os & st & i & Hrun & _ & wf & _).
  unfold store, ids, result. by rewrite Hrun.
Qed.

Example outcomes :
  (fun r => r.1.1) <$> result
  = Some [o_record {| vr_id := 1; vr_data := Text "hello" |};
          o_object {| snap_id := 2; snap_class_name := "Counter";
                      snap_state := [arg "value" (Integer 7)] |};
          o_record {| vr_id := 3; vr_data := Integer 42 |}; o_value (Integer 12);
          o_values {| vp_values := [{| vr_id := 1; vr_data := Text "hello" |}]; vp_next := 1 |};
          fail numeric_overflow].
Proof. vm_compute. reflexivity. Qed.

Lemma execute_refines_witness :
  exists o st' i', execute builtin_registry store ids (get_value 3) = Some (o, st', i')
    /\ spec_step builtin_registry (abs store) ids (get_value 3) o (abs st') i'.
Proof.
  destruct (execute_refines builtin_registry store ids (get_value 3) builtin_registry_wf store_wf)
    as (o & st' & i' & He & _ & _ & Hs); [unfold operation_typed, in_u64, u64_max; lia|].
  exists o, st', i'. split; assumption.
Defined.

Lemma execute_failure_atomic_witness :
  let st := new_session_store default_limits in
  (st = st /\ ids0 = ids0)
  /\ execute builtin_registry st ids0 (get_value 9) = Some (fail not_found, st, ids0).
Proof.
  intros st.
  assert (He : execute builtin_registry st ids0 (get_value 9) = Some (fail not_found, st, ids0))
    by reflexivity.
  split; [exact (execute_failure_atomic builtin_registry st ids0 _ _ st ids0 He)|exact He].
Defined.

Lemma session_accounting_witness :
  exists os st' i', run builtin_registry (new_session_store default_limits) ids0 ops = Some (os, st', i')
    /\ accounted_bytes st' <= max_session_bytes.
Proof.
  destruct (session_accounting builtin_registry default_limits ids0 ops builtin_registry_wf)
    as (os & st' & i' & Hr & _ & _ & Hb & _);
    [unfold in_u64, u64_max; simpl; lia|vm_compute; congruence..|apply ops_typed|].
  exists os, st', i'. split; [assumption|]. exact Hb.
Defined.

Lemma put_get_roundtrip_witness :
  exists os st2 i2, run builtin_registry
      (match execute builtin_registry (new_session_store default_limits) ids0 (put_value (Integer 1)) with
       | Some (_, st, _) => st | None => store end) {| next_ := 2 |} ops = Some (os, st2, i2)
    /\ execute builtin_registry st2 i2 (get_value 1)
       = Some (o_record {| vr_id := 1; vr_data := Integer 1 |}, st2, i2).
Proof.
  apply (put_get_roundtrip builtin_registry (new_session_store default_limits) ids0 (Integer 1)
    {| vr_id := 1; vr_data := Integer 1 |} _ _ ops builtin_registry_wf new_wf);
    [vm_compute; reflexivity|apply ops_typed].
Defined.

Lemma release_is_final_witness :
  exists os st2 i2, run builtin_registry
      (match execute builtin_registry store ids (release_object 2) with
       | Some (_, st, _) => st | None => store end) ids ops = Some (os, st2, i2)
    /\ execute builtin_registry st2 i2 (get_object 2) = Some (fail not_found, st2, i2).
Proof.
  destruct (release_is_final builtin_registry store ids 2
    (match execute builtin_registry store ids (release_object 2) with
       | Some (_, st, _) => st | None => store end) ids ops builtin_registry_wf store_wf)
    as (_ & os & st2 & i2 & Hr & Hg & _);
    [unfold in_u64, u64_max; lia|vm_compute; reflexivity|apply ops_typed|].
  exists os, st2, i2. split; assumption.
Defined.

Lemma values_enumeration_witness :
  collect (values_page builtin_registry store ids 1) 3 0 = Some [(1, Text "hello"); (3, Integer 42)].
Proof.
  destruct (values_enumeration builtin_registry store ids 1 builtin_registry_wf store_wf) as [Hc _];
    [unfold max_entries; lia|].
  transitivity (Some (entries (values_ store))); [exact Hc|vm_compute; reflexivity].
Defined.

Lemma lawful_session_expected_witness :
  exists os st' i', run builtin_registry (new_session_store default_limits) ids0 ops = Some (os, st', i')
    /\ Forall outcome_expected os.
Proof.
  destruct (lawful_session_expected builtin_registry builtin_registry_wf default_limits ids0 ops)
    as (os & st' & i' & Hr & _ & He); [unfold in_u64, u64_max; simpl; lia|vm_compute; congruence..| |].
  - repeat constructor; simpl; unfold in_u64, u64_max, i64_min, i64_max; lia.
  - exists os, st', i'. split; assumption.
Defined.
End Demo.
