(* ===== verification/Replies.v ===== *)
(** * Every outcome of a session can be sent

    Composition of the domain and the codec.  The quotas of the domain (page byte
    budget, object state bytes, description nodes) are chosen so that an outcome always
    fits one payload: whatever the plug-ins do, the server is never left with a
    response that [encode_response] refuses. *)
From stdpp Require Import prelude gmap strings sorting.
From Stdlib Require Import ZArith Lia.
From S2P Require Import Prelude Pagination Utf8 Contracts Validation Framing Messages Codec CodecProofs CodecSpec Wire WireProofs Sizes Registry Store StoreProofs StoreSpec Lawful Builtins Sessions.

Lemma zsum_le {A} (f g : A -> Z) l : (forall x, x ∈ l -> f x <= g x) -> zsum f l <= zsum g l.
Proof.
  induction l as [|x l IH]; intros Hl; [done|]. cbn [zsum].
  pose proof (Hl x ltac:(set_solver)). specialize (IH ltac:(set_solver)). lia.
Qed.

(** What the domain guarantees of an outcome beyond its validity. *)
Definition outcome_charge (o : outcome) : Z :=
  match o with
  | o_values page => zsum (fun r => value_charge (vr_data r)) (vp_values page)
  | o_object s => fields_charge (snap_state s)
  | _ => 0
  end.

Definition reply_budget : Z := max_payload_bytes / 2.

(** ** Sizes *)
Section sizes.
Context `{Utf8Ops}.

Lemma bound_write_value v : bound_Value (write_value v) <= overhead + value_bytes v.
Proof. destruct v; cbn; unfold bound_string, overhead; lia. Qed.

Lemma bound_write_record r : overhead + bound_ValueRecord (write_record r) <= value_charge (vr_data r).
Proof.
  unfold bound_ValueRecord, write_record, value_charge, record_charge. cbn [ValueRecord_value bound_field].
  pose proof (bound_write_value (vr_data r)). unfold overhead in *. lia.
Qed.

Lemma bound_write_entry f : overhead + bound_NamedValue (write_entry f) <= field_charge f.
Proof.
  unfold bound_NamedValue, write_entry, field_charge, record_charge, bound_string.
  cbn [NamedValue_name NamedValue_value bound_field].
  pose proof (bound_write_value (nv_data f)). unfold overhead in *. lia.
Qed.

Definition node_bound : Z := 208.

Lemma bound_write_parameters l :
  Forall (fun p => valid_name (param_name p) false = true) l ->
  bound_fields bound_Parameter (write_parameters l) <= node_bound * len l.
Proof.
  intros Hl. unfold bound_fields, write_parameters. rewrite zsum_fmap, Z.mul_comm.
  apply zsum_bound. intros p Hp. rewrite Forall_forall in Hl.
  pose proof (valid_name_length _ _ (Hl p Hp)).
  unfold bound_Parameter, bound_string, write_parameter, max_name_bytes, overhead, node_bound in *.
  cbn [Parameter_name]. lia.
Qed.

Lemma bound_write_attributes l :
  Forall (fun a => valid_name (attr_name a) false = true) l ->
  bound_fields bound_Attribute (write_attribute <$> l) <= node_bound * len l.
Proof.
  intros Hl. unfold bound_fields. rewrite zsum_fmap, Z.mul_comm.
  apply zsum_bound. intros a Ha. rewrite Forall_forall in Hl.
  pose proof (valid_name_length _ _ (Hl a Ha)).
  unfold bound_Attribute, bound_string, write_attribute, max_name_bytes, overhead, node_bound in *.
  cbn [Attribute_name]. lia.
Qed.

Lemma bound_write_methods l :
  Forall (fun m => valid_name (method_name m) false = true) l -> Forall method_ok l ->
  bound_fields bound_Method (write_method <$> l)
  <= node_bound * (len l + zsum (fun m => len (method_parameters m)) l).
Proof.
  intros Hn Hok. unfold bound_fields. rewrite zsum_fmap.
  induction l as [|m l IH]; [done|]. apply Forall_cons in Hn as [Hm Hn]. apply Forall_cons in Hok as [Hk Hok].
  specialize (IH Hn Hok). cbn [zsum]. rewrite len_cons.
  destruct Hk as [_ (_ & Hp & _)%valid_parameters_spec]. apply bound_write_parameters in Hp.
  apply valid_name_length in Hm. unfold bound_Method at 1. unfold bound_string, max_name_bytes, overhead in *.
  cbn [write_method Method_name Method_parameters]. unfold node_bound in *. lia.
Qed.

Lemma bound_write_description d :
  valid_description d = true ->
  bound_ClassDescription (write_description d) <= node_bound * description_nodes d.
Proof.
  intros ((Hn & _ & _ & Ha & Hm & Hp) & _ & Hok & _)%valid_description_spec.
  apply valid_name_length in Hn. apply valid_names_spec in Ha as [Ha _]. apply valid_names_spec in Hm as [Hm _].
  apply valid_parameters_spec in Hp as (_ & Hp & _).
  apply bound_write_attributes in Ha. apply bound_write_parameters in Hp.
  pose proof (bound_write_methods _ Hm Hok) as Hms.
  unfold bound_ClassDescription, description_nodes, write_description, bound_string, max_name_bytes, overhead in *.
  cbn [ClassDescription_name ClassDescription_attributes ClassDescription_methods
       ClassDescription_constructor_parameters]. unfold node_bound in *. lia.
Qed.

Lemma bound_make_error c : bound_string (err_message (make_error c)) <= 100.
Proof. unfold make_error. split_match; done. Qed.

(** The largest reply stays below the payload bound. *)
Lemma bound_write_outcome o :
  outcome_valid o -> outcome_charge o <= reply_budget ->
  (forall e, o = o_error e -> exists c, e = make_error c) ->
  bound_outcome (write_outcome o) <= max_payload_bytes - 3 * overhead.
Proof.
  change reply_budget with 524288. change max_payload_bytes with 1048576.
  intros Hv Hc He. destruct o as [p|d|r|p|s| |v|e]; cbn [write_outcome bound_outcome outcome_valid outcome_charge] in *.
  - destruct Hv as (Hl & Hn & _ & Hnext). unfold write_classes. cbn [ClassesPage_names ClassesPage_next]. rewrite Forall_forall in Hn.
    assert (Hs : zsum bound_string (cp_names p) <= len (cp_names p) * 148).
    { apply zsum_bound. intros n Hin. pose proof (valid_name_length _ _ (Hn n Hin)).
      unfold bound_string, overhead, max_name_bytes in *. lia. }
    assert (Hb : bound_string (cp_next p) <= 148).
    { unfold bound_string, overhead. destruct Hnext as [-> |Hlast]; [done|].
      apply last_Some_elem_of, Hn, valid_name_length in Hlast. unfold max_name_bytes in *. lia. }
    unfold overhead, max_entries in *. lia.
  - pose proof (bound_write_description d Hv).
    apply valid_description_spec in Hv as (_ & _ & _ & Hn).
    unfold node_bound, max_message_nodes, overhead in *. lia.
  - destruct Hv as [_ Hv]. pose proof (bound_write_record r). apply value_bytes_bound in Hv.
    unfold value_charge, record_charge, max_string_bytes, overhead in *. lia.
  - unfold write_values, bound_fields. cbn [ValuesPage_values]. rewrite zsum_fmap.
    assert (zsum (fun r => overhead + bound_ValueRecord (write_record r)) (vp_values p)
            <= zsum (fun r => value_charge (vr_data r)) (vp_values p))
      by (apply zsum_le; intros r _; apply bound_write_record).
    unfold overhead in *. lia.
  - destruct Hv as (_ & Hn & _). apply valid_name_length in Hn.
    unfold bound_ObjectSnapshot, bound_fields, write_named, bound_string.
    cbn [ObjectSnapshot_class_name ObjectSnapshot_state]. rewrite zsum_fmap.
    assert (zsum (fun f => overhead + bound_NamedValue (write_entry f)) (snap_state s)
            <= fields_charge (snap_state s)) by (apply zsum_le; intros f _; apply bound_write_entry).
    unfold overhead, max_name_bytes in *. lia.
  - unfold overhead. lia.
  - pose proof (bound_write_value v). apply value_bytes_bound in Hv. unfold max_string_bytes, overhead in *. lia.
  - destruct (He e eq_refl) as [c ->]. pose proof (bound_make_error c). cbn [RemoteError_message]. unfold overhead in *. lia.
Qed.
End sizes.

(** ** Validity *)
Section valid.
Context `{Utf8Laws} {Obj : Type} `{ObjectOps Obj}.
Context (registry : class_registry Obj) (registry_ok : registry_wf registry).
Implicit Types (st : session_store Obj) (ids : identifier_source).

Definition reply_ok (o : outcome) : Prop :=
  outcome_valid o /\ outcome_charge o <= reply_budget
  /\ forall e, o = o_error e -> exists c, e = make_error c.

Lemma make_error_text c : wire_string (err_message (make_error c)).
Proof. unfold make_error. split_match; (split; [done|by apply utf8_ascii]). Qed.

Lemma fail_reply c : reply_ok (fail c).
Proof.
  split; [split; [apply make_error_code|apply make_error_text]|]. split; [done|].
  intros e [= <-]. by exists c.
Qed.

Lemma object_reply st ids id d i :
  store_wf registry st ids -> a_objects (abs st) !! id = Some (d, i) ->
  id <> 0 /\ registry_find registry (def_name d) = Some d /\ state_matches d (state i) = true.
Proof.
  intros wf Ho. cbn in Ho. apply lookup_fmap_Some in Ho as (o & [= <- <-] & Ho).
  destruct (wf_objects _ _ _ wf id o Ho) as ([Hpos _] & Hf & Hm & _). split; [lia|done].
Qed.

Lemma state_reply d i n id :
  registry_find registry n = Some d -> state_matches d (state i) = true -> id <> 0 ->
  valid_name n false = true ->
  reply_ok (o_object {| snap_id := id; snap_class_name := n; snap_state := state i |}).
Proof.
  intros Hf Hm Hid Hn. pose proof (registry_find_ok _ _ _ registry_ok Hf) as Hd.
  apply (state_matches_valid d) in Hm as [Hv Hc]; [|done].
  split; [by split_and!|]. split; [|done]. cbn [outcome_charge snap_state].
  unfold reply_budget, max_object_state_bytes in *. lia.
Qed.

Lemma definition_name_valid (d : class_definition Obj) : definition_ok d -> valid_name (def_name d) false = true.
Proof. intros (Hd & _). by apply valid_description_spec in Hd as ((Hn & _) & _). Qed.

Lemma classes_reply after limit page :
  len (cp_names page) <= limit <= max_entries ->
  page_ok id str_lt (names registry) after (cp_names page)
    (if bool_decide (cp_next page = "") then None else Some (cp_next page)) ->
  reply_ok (o_classes page).
Proof.
  intros Hl (rest & Hrem & Hnext). pose proof (names_sorted registry registry_ok) as Hs.
  apply (sorted_filter str_lt (str_lt after)) in Hs. unfold remaining in Hrem. rewrite Hrem in Hs.
  apply StronglySorted_app in Hs as (_ & Hs & _). split; [|done]. split; [lia|]. split; [|split; [done|]].
  - apply Forall_forall. intros n Hn. assert (Hin : n ∈ names registry).
    { assert (Hf : n ∈ filter (str_lt after) (names registry)) by (rewrite Hrem; set_solver).
      by apply list_elem_of_filter in Hf as [_ Hf]. }
    unfold names in Hin. apply list_elem_of_fmap in Hin as (d & -> & Hd). apply definition_name_valid.
    destruct registry_ok as (_ & Hall & _). by eapply Forall_forall in Hall.
  - case_bool_decide; [by left|]. destruct Hnext as (_ & x & Hx & ->). by right.
Qed.

Lemma values_reply st ids after limit l next :
  store_wf registry st ids -> len l <= limit <= max_entries ->
  zsum (fun e => value_charge e.2) l <= page_byte_budget ->
  page_ok fst past_key (entries (values_ st)) after l (if next =? 0 then None else Some next) ->
  reply_ok (o_values {| vp_values := entry_record <$> l; vp_next := next |}).
Proof.
  intros wf Hl Hc (rest & Hrem & Hnext).
  pose proof (upper_bound_sorted after (values_ st)) as Hs. unfold upper_bound in Hs.
  unfold remaining in Hrem. rewrite Hrem in Hs. apply StronglySorted_app in Hs as (_ & Hs & _).
  assert (Hin : forall e, e ∈ l -> 0 < e.1 /\ valid_value e.2 = true).
  { intros [k v] He. assert (Hk : (k, v) ∈ entries (values_ st)).
    { assert (Hf : (k, v) ∈ filter (past_key after) (entries (values_ st))) by (rewrite Hrem; set_solver).
      by apply list_elem_of_filter in Hf as [_ Hf]. }
    apply elem_of_entries, (wf_values _ _ _ wf) in Hk as [[Hp _] Hv]. split; [cbn; lia|done]. }
  assert (Hrec : forall r, r ∈ entry_record <$> l -> 0 < vr_id r /\ valid_value (vr_data r) = true).
  { intros r (e & -> & He)%list_elem_of_fmap. by apply Hin. }
  split; [|split; [|done]].
  - split_and!; cbn [vp_values vp_next].
    + rewrite len_fmap. lia.
    + apply Forall_forall. intros r Hr. destruct (Hrec r Hr). split; [lia|done].
    + rewrite <- list_fmap_compose. constructor.
      * clear -Hs. induction Hs as [|e l _ IH Hf]; [constructor|]. rewrite fmap_cons. constructor; [exact IH|].
        rewrite Forall_fmap. eapply Forall_impl; [exact Hf|]. done.
      * rewrite Forall_fmap. apply Forall_forall. intros e He. by apply Hin.
    + destruct (next =? 0) eqn:Ez; bool_simp; [by left|]. destruct Hnext as (_ & x & Hx & ->).
      right. by rewrite fmap_last, Hx.
  - cbn [outcome_charge vp_values]. rewrite zsum_fmap. exact Hc.
Qed.

Lemma answer_reply st ids op o :
  store_wf registry st ids -> answers registry (abs st) op o -> reply_ok o.
Proof.
  intros wf Ha. destruct Ha as [after limit page Hl Hp|n d Hf|id v Hv|after limit l next Hl Hc Hp|id d i Ho|id n d i f Ho Hin _].
  - by eapply classes_reply.
  - pose proof (registry_find_ok _ _ _ registry_ok Hf) as (Hd & _). by split_and!.
  - apply (wf_values _ _ _ wf) in Hv as [[Hp _] Hv]. split_and!; [split; [cbn; lia|done]|done|done].
  - by eapply values_reply.
  - destruct (object_reply st ids id d i wf Ho) as (Hid & Hf & Hm).
    eapply state_reply; [done..|]. by eapply definition_name_valid, registry_find_ok.
  - destruct (object_reply st ids id d i wf Ho) as (_ & Hf & Hm).
    apply (state_matches_valid d) in Hm as [Hv _]; [|by eapply registry_find_ok].
    apply valid_named_values_spec in Hv as (_ & _ & _ & Hv). rewrite Forall_forall in Hv.
    split_and!; [by apply Hv|done|done].
Qed.

Lemma execute_reply st ids op o st' ids' :
  store_wf registry st ids -> operation_typed op ->
  execute registry st ids op = Some (o, st', ids') -> reply_ok o.
Proof.
  intros wf Ht He. destruct (execute_step registry registry_ok st ids op wf Ht) as (r & Hr & wf' & _ & Hs).
  rewrite He in Hr. injection Hr as <-. cbn [fst snd] in *.
  destruct Hs as [|op c _ _|op o _ Ha|v id ids' _ Hv _ _ Hn _ _|n args d i id ids' _ (Hf & _) _ Hm _ Hn _ _
    |id d i _ _|id n args d i m c v c' _ _ _ _ Hv _ _ _]; try apply fail_reply.
  - exact (answer_reply st ids _ _ wf Ha).
  - destruct (issued_next _ _ _ (wf_ids _ _ _ wf) Hn) as [[Hp _] _].
    split_and!; [split; [cbn; lia|done]|done|done].
  - destruct (issued_next _ _ _ (wf_ids _ _ _ wf) Hn) as [[Hp _] _].
    eapply state_reply; [done|done|lia|].
    pose proof (registry_find_ok _ _ _ registry_ok Hf) as Hd. apply registry_find_Some in Hf as [_ <-].
    by apply definition_name_valid.
  - by split_and!.
  - by split_and!.
Qed.

(** A reply of the domain is encoded by whatever Protobuf keeps to the laws. *)
Lemma reply_encoded `{Protobuf} `{!ProtobufLaws} `{!ProtobufSizes} id o :
  reply_ok o -> id <> 0 ->
  exists b, encode_response {| resp_id := id; resp_body := o; resp_version := version |} = inl b
            /\ 0 < len b <= max_payload_bytes.
Proof.
  intros (Hv & Hc & He) Hid. set (r := {| resp_id := id; resp_body := o; resp_version := version |}).
  pose proof (encode_response_cases r) as Hr.
  pose proof (Response_size (response_message r) (proj2 (response_tree r))) as Hs.
  pose proof (Response_nonempty (response_message r) Hid) as Hpos.
  pose proof (bound_write_outcome o Hv Hc He) as Hb.
  assert (Hmax : size_Response (response_message r) <= max_payload_bytes).
  { unfold bound_Response in Hs. cbn [response_message Response_case bound_field resp_body r] in Hs. lia. }
  destruct (encode_response r) as [b|f]; cbn [response_encoded] in Hr.
  - exists b. split; [done|]. destruct Hr as (_ & -> & _). lia.
  - destruct Hr as [[]|[Hlt _]]; [by split_and!|lia].
Qed.
End valid.

(** ** Ranges *)
Section ranges.
Context `{Utf8Laws} {Obj : Type} `{ObjectOps Obj}.
Context (registry : class_registry Obj) `{!LawfulRegistry registry} (registry_ok : registry_wf registry).
Implicit Types (st : session_store Obj) (ids : identifier_source).

Lemma kind_in_u8 k : valid_kind k = true -> in_u8 k.
Proof. intros Hk%valid_kind_spec. unfold in_u8, kind_text, kind_integer, kind_real in *. lia. Qed.

Lemma parameters_in_u8 l : valid_parameters l = true -> parameters_in_range l.
Proof.
  intros (_ & _ & _ & Hk)%valid_parameters_spec. eapply Forall_impl; [done|]. intros p. apply kind_in_u8.
Qed.

Lemma description_u8 d : valid_description d = true -> description_in_range d.
Proof.
  intros ((_ & _ & _ & _ & _ & Hp) & Ha & Hm & _)%valid_description_spec. split_and!.
  - eapply Forall_impl; [done|]. intros a. apply kind_in_u8.
  - eapply Forall_impl; [done|]. intros m [Hk Hps]. split; [by apply kind_in_u8|by apply parameters_in_u8].
  - by apply parameters_in_u8.
Qed.

Lemma issued_u64 ids id : in_u64 (next_ ids) -> issued ids id -> in_u64 id.
Proof. unfold issued. ulia. Qed.

Lemma answer_in_range st ids op o :
  store_wf registry st ids -> objects_lawful registry (abs st) -> values_typed (abs st) ->
  answers registry (abs st) op o -> outcome_in_range o.
Proof.
  intros wf Hol Hvt Ha. pose proof (wf_ids _ _ _ wf) as Hu.
  assert (Hst : forall id d i, a_objects (abs st) !! id = Some (d, i) ->
    in_u64 id /\ Forall (fun f => value_typed (nv_data f)) (state i)).
  { intros id d i Ho. destruct (Hol _ _ _ Ho) as [Hd Hok]. split; [|by apply (lawful_state d i)].
    cbn in Ho. apply lookup_fmap_Some in Ho as (o' & _ & Ho).
    destruct (wf_objects _ _ _ wf id o' Ho) as [Hi _]. by eapply issued_u64. }
  assert (Hval : forall id v, values_ st !! id = Some v -> in_u64 id /\ value_typed v).
  { intros id v Hv. split; [|by apply (Hvt id)]. apply (wf_values _ _ _ wf) in Hv as [Hi _]. by eapply issued_u64. }
  destruct Ha as [after limit page Hl Hp|n d Hf|id v Hv|after limit l next Hl Hc Hp|id d i Ho|id n d i f Ho Hin _].
  - done.
  - pose proof (registry_find_ok _ _ _ registry_ok Hf) as (Hd & _). by apply description_u8.
  - by apply Hval.
  - destruct Hp as (rest & Hrem & Hnext).
    cbn [abs a_values] in Hrem. assert (Hl' : forall e, e ∈ l -> in_u64 e.1 /\ value_typed e.2).
    { intros [k v] He. apply Hval, elem_of_entries.
      assert (Hf : (k, v) ∈ remaining past_key (entries (values_ st)) after) by (rewrite Hrem; set_solver).
      by apply list_elem_of_filter in Hf as [_ Hf]. }
    split; cbn [vp_next vp_values].
    + destruct (next =? 0) eqn:Ez; bool_simp; [subst; ulia|]. destruct Hnext as (_ & x & Hx & ->).
      by apply last_Some_elem_of, Hl' in Hx as [Hx _].
    + rewrite Forall_fmap. apply Forall_forall. intros e He. by apply Hl'.
  - by apply (Hst id d).
  - destruct (Hst id d i Ho) as [_ Ht]. rewrite Forall_forall in Ht. by apply Ht.
Qed.

Lemma execute_in_range st ids op o st' ids' :
  store_wf registry st ids -> objects_lawful registry (abs st) -> values_typed (abs st) ->
  operation_typed op -> operation_values_typed op ->
  execute registry st ids op = Some (o, st', ids') -> outcome_in_range o.
Proof.
  intros wf Hol Hvt Ht Hov He.
  destruct (execute_step registry registry_ok st ids op wf Ht) as (r & Hr & wf' & _ & Hs).
  rewrite He in Hr. injection Hr as <-. cbn [fst snd] in *. pose proof (wf_ids _ _ _ wf) as Hu.
  assert (Hfail : forall c, outcome_in_range (fail c)).
  { intros c. pose proof (make_error_code c). unfold invalid_request, numeric_overflow in *. cbn. unfold in_u8. lia. }
  destruct Hs as [|op c _ _|op o _ Ha|v id ids' _ Hv _ _ Hn _ _|n args d i id ids' _ Hcon _ Hm _ Hn _ _
    |id d i _ _|id n args d i m c v c' _ Hcall Hcl Hinv Hv _ _ _]; try apply Hfail; try done.
  - exact (answer_in_range st ids _ _ wf Hol Hvt Ha).
  - destruct (issued_next _ _ _ Hu Hn) as [Hi _]. split; [|done]. eapply issued_u64; [apply wf'|done].
  - destruct (issued_next _ _ _ Hu Hn) as [Hi _]. destruct (lawful_constructs _ _ _ _ _ Hcon Hov) as [Hd Hok].
    split; [eapply issued_u64; [apply wf'|done]|]. by apply (lawful_state d i).
  - destruct (lawful_calls _ _ _ _ _ _ _ _ _ Hol Hcall Hcl Hov) as [_ Hl]. rewrite Hinv in Hl. apply Hl.
Qed.
End ranges.

(** ** Properties *)

(** C13: Every outcome fits a payload.  On a well-formed session over arbitrary
    registered plug-ins, whatever the operation, the outcome of [execute] is a valid
    contract that [encode_response] turns into one nonempty payload within the bound:
    pages, snapshots, descriptions and errors alike. *)
Theorem replies_encodable `{Utf8Laws} `{Protobuf} `{!ProtobufLaws} `{!ProtobufSizes}
    {Obj : Type} `{ObjectOps Obj} (registry : class_registry Obj) st ids op id :
  registry_wf registry -> store_wf registry st ids -> operation_typed op -> id <> 0 ->
  exists o st' ids' b,
    execute registry st ids op = Some (o, st', ids') /\ outcome_valid o
    /\ encode_response {| resp_id := id; resp_body := o; resp_version := version |} = inl b
    /\ 0 < len b <= max_payload_bytes.
Proof.
  intros Hr wf Ht Hid. destruct (execute_step registry Hr st ids op wf Ht) as ([[o st'] ids'] & He & _).
  pose proof (execute_reply registry Hr st ids op o st' ids' wf Ht He) as Ho.
  destruct (reply_encoded id o Ho Hid) as (b & Hb & Hl). exists o, st', ids', b.
  split_and!; [done|apply Ho|done|apply Hl|apply Hl].
Qed.

Module ReplyDemo.
#[local] Existing Instance utf8_reference.
#[local] Existing Instance utf8_reference_laws.
#[local] Existing Instance wire_protobuf.
#[local] Existing Instance wire_laws.
#[local] Existing Instance wire_sizes.

Lemma replies_encodable_witness :
  exists o st' ids' b,
    execute builtin_registry Demo.store Demo.ids (list_values 0 64) = Some (o, st', ids') /\ outcome_valid o
    /\ encode_response {| resp_id := 5; resp_body := o; resp_version := version |} = inl b
    /\ 0 < len b <= max_payload_bytes.
Proof.
  apply (replies_encodable builtin_registry Demo.store Demo.ids (list_values 0 64) 5).
  - exact builtin_registry_wf.
  - exact Demo.store_wf.
  - unfold operation_typed. lia.
  - discriminate.
Defined.
End ReplyDemo.
