(* ===== verification/Dispatcher.v ===== *)
(** * Request dispatch (include/pipeforge/services.hpp, src/server/dispatcher.cpp)

    The boundary between decoded envelopes and the session store.  [process] and
    [reject] are the two handlers; the optional diagnostic observer is a boolean and
    the lines it is given are returned.  The profiling scope of [dispatch] has no
    effect on the result and is not represented. *)
From stdpp Require Import prelude gmap strings sorting pretty.
From Stdlib Require Import Ascii ZArith Lia.
From S2P Require Import Prelude Diagnostics Pagination Utf8 Contracts Validation Framing Registry Store StoreProofs StoreSpec Lawful Builtins Sessions.

Definition operation_name (op : operation) : string :=
  match op with
  | list_classes _ _ => "list_classes"
  | describe_class _ => "describe_class"
  | put_value _ => "put_value"
  | get_value _ => "get_value"
  | list_values _ _ => "list_values"
  | create_object _ _ => "create_object"
  | get_object _ => "get_object"
  | release_object _ => "release_object"
  | get_attribute _ _ => "get_attribute"
  | invoke_method _ _ _ => "invoke_method"
  end.

(** [std::get_if<remote_error>]. *)
Definition get_error (o : outcome) : option remote_error :=
  match o with o_error e => Some e | _ => None end.

Definition log_line (id : Z) (op : operation) (o : outcome) : log_level * string :=
  let error := get_error o in
  (if has_value error then level_warning else level_info,
   "request=" +:+ to_string id +:+ " operation=" +:+ operation_name op +:+ " code="
   +:+ to_string (match error with Some e => err_code e | None => 0 end)).

Definition reject (f : failure) : response + failure :=
  match f_request_id f with
  | Some id =>
      if f_close_session f || (id =? 0) || bool_decide (f_code f = fc_malformed)
         || bool_decide (f_code f = fc_truncated)
      then inr {| f_code := f_code f; f_close_session := true; f_request_id := None |}
      else
        let code := if bool_decide (f_code f = fc_unsupported_version) then unsupported_version
                    else if bool_decide (f_code f = fc_limit_exceeded) then quota_exceeded
                    else invalid_request in
        inl {| resp_id := id; resp_body := o_error (make_error code); resp_version := version |}
  | None => inr {| f_code := f_code f; f_close_session := true; f_request_id := None |}
  end.

Section dispatcher.
Context `{Utf8Ops} {Obj : Type} `{ObjectOps Obj}.
Context (registry : class_registry Obj) (diagnostics_ : bool).
Implicit Types (st : session_store Obj) (ids : identifier_source).

Definition process st ids (r : request)
  : option ((response + failure) * session_store Obj * identifier_source * list (log_level * string)) :=
  if req_id r =? 0 then
    Some (inr {| f_code := fc_invalid_fields; f_close_session := true; f_request_id := None |}, st, ids, [])
  else
    match (if req_version r =? version then execute registry st ids (req_body r)
           else Some (fail unsupported_version, st, ids)) with
    | None => None
    | Some (result, st', ids') =>
        Some (inl {| resp_id := req_id r; resp_body := result; resp_version := version |}, st', ids',
              if diagnostics_ then [log_line (req_id r) (req_body r) result] else [])
    end.

Definition dispatch st ids (r : request) := process st ids r.
End dispatcher.

(** ** Log lines are single printable lines *)
Definition log_char (c : ascii) : bool := (32 <=? char_code c) && (char_code c <? 127).

Lemma pretty_char_printable n : log_char (pretty_N_char n) = true.
Proof. unfold pretty_N_char. repeat case_match; done. Qed.

Lemma pretty_go_printable n s :
  str_forallb log_char s = true -> str_forallb log_char (pretty_N_go n s) = true.
Proof.
  revert s. induction (N.lt_wf_0 n) as [n _ IH]; intros s Hs.
  destruct (decide (n = 0)%N) as [->|Hn]; [by rewrite pretty_N_go_0|].
  rewrite pretty_N_go_step by lia. apply IH; [apply N.div_lt; lia|].
  simpl. by rewrite pretty_char_printable.
Qed.

Lemma to_string_printable z : str_forallb log_char (to_string z) = true.
Proof.
  unfold to_string, pretty, pretty_N. case_decide; [done|]. by apply pretty_go_printable.
Qed.

Lemma log_line_printable id op o : str_forallb log_char (log_line id op o).2 = true.
Proof.
  unfold log_line. cbn [snd].
  rewrite !str_forallb_app, !to_string_printable. by destruct op.
Qed.

(** ** Properties *)

(** Correlated dispatch.  On a well-formed session, [dispatch] is defined for
    every request: a zero identifier is a fatal failure, an unsupported version is
    answered as such, both without touching the store, and any other request gets
    exactly the outcome of [execute].  Every response carries the identifier of its
    request and the supported version; the store stays well-formed; with diagnostics
    on, one printable single-line message is logged per response and none for a
    fatal failure. *)
Lemma dispatch_correlated `{Utf8Ops} {Obj : Type} `{ObjectOps Obj}
    (registry : class_registry Obj) diagnostics st ids (r : request) :
  registry_wf registry -> store_wf registry st ids -> operation_typed (req_body r) ->
  exists result st' ids' log,
    dispatch registry diagnostics st ids r = Some (result, st', ids', log)
    /\ store_wf registry st' ids'
    /\ Forall (fun line => str_forallb log_char line.2 = true) log
    /\ match result with
       | inr f => req_id r = 0 /\ f_close_session f = true /\ f_request_id f = None
                  /\ st' = st /\ ids' = ids /\ log = []
       | inl resp =>
           req_id r <> 0 /\ resp_id resp = req_id r /\ resp_version resp = version
           /\ length log = (if diagnostics then 1 else 0)%nat
           /\ if req_version r =? version
              then execute registry st ids (req_body r) = Some (resp_body resp, st', ids')
              else resp_body resp = fail unsupported_version /\ st' = st /\ ids' = ids
       end.
Proof.
  intros Hr wf Hop. unfold dispatch, process. destruct (req_id r =? 0) eqn:Hz; bool_simp.
  { eexists _, st, ids, []. split_and!; done. }
  destruct (req_version r =? version) eqn:Hv.
  - destruct (execute_step registry Hr st ids _ wf Hop) as ([[o st'] ids'] & He & wf' & _). rewrite He.
    eexists _, st', ids', _. split; [done|]. split; [done|]. split.
    + destruct diagnostics; [|done]. apply Forall_singleton, log_line_printable.
    + simpl. split_and!; [done..|by destruct diagnostics|done].
  - eexists _, st, ids, _. split; [done|]. split; [done|]. split.
    + destruct diagnostics; [|done]. apply Forall_singleton, log_line_printable.
    + simpl. split_and!; [done..|by destruct diagnostics|done|done|done].
Qed.

(** C32: Rejection.  A codec failure is answered on the stream exactly when it does not
    close the session, is neither malformed nor truncated input and carries a nonzero
    correlation identifier; the answer then names that identifier and a fixed public
    code.  In every other case the failure stays fatal and loses its identifier. *)
Theorem reject_correct (f : failure) :
  match reject f with
  | inl resp =>
      f_close_session f = false /\ f_request_id f = Some (resp_id resp) /\ resp_id resp <> 0
      /\ f_code f <> fc_malformed /\ f_code f <> fc_truncated /\ resp_version resp = version
      /\ resp_body resp
         = fail (match f_code f with
                 | fc_unsupported_version => unsupported_version
                 | fc_limit_exceeded => quota_exceeded
                 | _ => invalid_request
                 end)
  | inr g =>
      (f_close_session f = true \/ f_request_id f = None \/ f_request_id f = Some 0
       \/ f_code f = fc_malformed \/ f_code f = fc_truncated)
      /\ g = {| f_code := f_code f; f_close_session := true; f_request_id := None |}
  end.
Proof.
  unfold reject. destruct f as [code close [id|]]; simpl; [|auto].
  destruct close; simpl; [auto|]. destruct (id =? 0) eqn:Hz; bool_simp; simpl; [subst; auto|].
  destruct code; simpl; by auto 10.
Qed.

Module DispatchDemo.
#[local] Existing Instance utf8_reference.

Lemma dispatch_correlated_witness :
  exists resp st' ids' log,
    dispatch builtin_registry true Demo.store Demo.ids
      {| req_id := 77; req_body := get_value 3; req_version := 1 |}
    = Some (inl resp, st', ids', log)
    /\ resp_id resp = 77 /\ length log = 1%nat.
Proof.
  destruct (dispatch_correlated builtin_registry true
    Demo.store Demo.ids {| req_id := 77; req_body := get_value 3; req_version := 1 |}
    builtin_registry_wf Demo.store_wf) as (result & st' & ids' & log & Hd & _ & _ & Hres);
    [unfold operation_typed, in_u64, u64_max; simpl; lia|].
  destruct result as [resp|f]; [|destruct Hres as [Hz _]; discriminate Hz].
  destruct Hres as (_ & Hid & _ & Hlog & _). exists resp, st', ids', log.
  split; [exact Hd|]. split; [exact Hid|exact Hlog].
Defined.

Example log_example :
  (log_line 77 (get_value 3) (fail not_found))
  = (level_warning, "request=77 operation=get_value code=2").
Proof. vm_compute. reflexivity. Qed.
End DispatchDemo.
