(* ===== verification/Server.v ===== *)
(** * The pipe server (src/transport/windows/server.cpp, include/pipeforge/pipe_server.hpp)

    [server_state] with its worker threads as a step system.  A worker is the program
    point of its loop with the locals that are live there; a step is one worker moving to
    its next point with one answer of its environment (a native call, the clock, the
    mutex), or the controller requesting a stop.  The registry is frozen; the identifier
    source, the stop flag, the gate and the counters are shared.  The gate is explicit:
    the step that uses the domain is enabled only for its holder.  The updates of one
    [record] call are one step. *)
From stdpp Require Import prelude gmap strings sorting pretty.
From Stdlib Require Import ZArith Lia.
From S2P Require Import Prelude Diagnostics Utf8 Contracts Validation Framing Transport Native Messages Codec Registry Store Dispatcher.

Record server_options := {
  opt_endpoint : wstring;
  opt_request_timeout : Z;
  opt_sessions : Z;
  opt_storage : session_limits;
}.

(** The shared members; [gate_] is the worker that owns [domain_gate_]. *)
Record server_state := {
  identifiers_ : identifier_source;
  shutdown_ : bool;
  gate_ : option nat;
  connections_ : Z;
  completed_ : Z;
  protocol_errors_ : Z;
  io_errors_ : Z;
  active_ : Z;
  last_error_ : Z;
  log_ : list (log_level * string);
}.

(** Where a worker is. *)
Inductive worker (Obj : Type) :=
  | Looping                                  (* the condition of the loop of [run] *)
  | InAccept                                 (* in [native::accept] *)
  | ServeHead (st : session_store Obj)       (* the condition of the loop of [serve] *)
  | Receiving (st : session_store Obj)       (* in [stream.receive] *)
  | Waiting (st : session_store Obj) (decoded : request + failure)   (* before the gate *)
  | Holding (st : session_store Obj) (decoded : request + failure)   (* the gate is ours *)
  | Responding (st : session_store Obj) (answer : response + failure) (* gate released *)
  | Closing (st : session_store Obj)         (* [serve] returned *)
  | Disconnecting                            (* the store is gone *)
  | Stopped.
Arguments Looping {Obj}.
Arguments InAccept {Obj}.
Arguments ServeHead {Obj} _.
Arguments Receiving {Obj} _.
Arguments Waiting {Obj} _ _.
Arguments Holding {Obj} _ _.
Arguments Responding {Obj} _ _.
Arguments Closing {Obj} _.
Arguments Disconnecting {Obj}.
Arguments Stopped {Obj}.

(** What the environment answers to the call a worker is in.  A clock reading is
    whether the request's deadline has passed. *)
Inductive event :=
  | ev_check
  | ev_accept (r : Z + t_failure)
  | ev_receive (r : bytes + t_failure)
  | ev_gate (expired acquired : bool)
  | ev_locked (expired : bool)
  | ev_send (r : Z + t_failure)
  | ev_close
  | ev_disconnect (code : option Z).

Inductive label := L_worker (i : nat) (ev : event) | L_request_stop.

Record server (Obj : Type) := { sv_state : server_state; sv_workers : list (worker Obj) }.
Arguments sv_state {Obj} _.
Arguments sv_workers {Obj} _.

(** ** Updates of the shared members *)
Definition set_identifiers (s : server_state) (ids : identifier_source) : server_state := {|
  identifiers_ := ids; shutdown_ := shutdown_ s; gate_ := gate_ s; connections_ := connections_ s;
  completed_ := completed_ s; protocol_errors_ := protocol_errors_ s; io_errors_ := io_errors_ s;
  active_ := active_ s; last_error_ := last_error_ s; log_ := log_ s |}.
Definition request_stop (s : server_state) : server_state := {|
  identifiers_ := identifiers_ s; shutdown_ := true; gate_ := gate_ s; connections_ := connections_ s;
  completed_ := completed_ s; protocol_errors_ := protocol_errors_ s; io_errors_ := io_errors_ s;
  active_ := active_ s; last_error_ := last_error_ s; log_ := log_ s |}.
Definition set_gate (s : server_state) (g : option nat) : server_state := {|
  identifiers_ := identifiers_ s; shutdown_ := shutdown_ s; gate_ := g; connections_ := connections_ s;
  completed_ := completed_ s; protocol_errors_ := protocol_errors_ s; io_errors_ := io_errors_ s;
  active_ := active_ s; last_error_ := last_error_ s; log_ := log_ s |}.
Definition open_session (s : server_state) : server_state := {|
  identifiers_ := identifiers_ s; shutdown_ := shutdown_ s; gate_ := gate_ s;
  connections_ := connections_ s ⊞ 1;
  completed_ := completed_ s; protocol_errors_ := protocol_errors_ s; io_errors_ := io_errors_ s;
  active_ := active_ s ⊞ 1; last_error_ := last_error_ s; log_ := log_ s |}.
Definition end_session (s : server_state) : server_state := {|
  identifiers_ := identifiers_ s; shutdown_ := shutdown_ s; gate_ := gate_ s; connections_ := connections_ s;
  completed_ := completed_ s; protocol_errors_ := protocol_errors_ s; io_errors_ := io_errors_ s;
  active_ := active_ s ⊟ 1; last_error_ := last_error_ s; log_ := log_ s |}.
Definition count_completed (s : server_state) : server_state := {|
  identifiers_ := identifiers_ s; shutdown_ := shutdown_ s; gate_ := gate_ s; connections_ := connections_ s;
  completed_ := completed_ s ⊞ 1; protocol_errors_ := protocol_errors_ s; io_errors_ := io_errors_ s;
  active_ := active_ s; last_error_ := last_error_ s; log_ := log_ s |}.
Definition count_protocol_error (s : server_state) : server_state := {|
  identifiers_ := identifiers_ s; shutdown_ := shutdown_ s; gate_ := gate_ s; connections_ := connections_ s;
  completed_ := completed_ s; protocol_errors_ := protocol_errors_ s ⊞ 1; io_errors_ := io_errors_ s;
  active_ := active_ s; last_error_ := last_error_ s; log_ := log_ s |}.
Definition count_io_error (s : server_state) : server_state := {|
  identifiers_ := identifiers_ s; shutdown_ := shutdown_ s; gate_ := gate_ s; connections_ := connections_ s;
  completed_ := completed_ s; protocol_errors_ := protocol_errors_ s; io_errors_ := io_errors_ s ⊞ 1;
  active_ := active_ s; last_error_ := last_error_ s; log_ := log_ s |}.
Definition set_last_error (s : server_state) (code : Z) : server_state := {|
  identifiers_ := identifiers_ s; shutdown_ := shutdown_ s; gate_ := gate_ s; connections_ := connections_ s;
  completed_ := completed_ s; protocol_errors_ := protocol_errors_ s; io_errors_ := io_errors_ s;
  active_ := active_ s; last_error_ := code; log_ := log_ s |}.
Definition add_log (s : server_state) (lines : list (log_level * string)) : server_state := {|
  identifiers_ := identifiers_ s; shutdown_ := shutdown_ s; gate_ := gate_ s; connections_ := connections_ s;
  completed_ := completed_ s; protocol_errors_ := protocol_errors_ s; io_errors_ := io_errors_ s;
  active_ := active_ s; last_error_ := last_error_ s; log_ := log_ s ++ lines |}.

(** What [statistics] reports: the counters, read one by one. *)
Record server_statistics := {
  st_connections : Z;
  st_completed_requests : Z;
  st_protocol_failures : Z;
  st_io_failures : Z;
  st_active_sessions : Z;
  st_last_native_error : Z;
}.
Definition statistics (s : server_state) : server_statistics := {|
  st_connections := connections_ s; st_completed_requests := completed_ s;
  st_protocol_failures := protocol_errors_ s; st_io_failures := io_errors_ s; st_active_sessions := active_ s;
  st_last_native_error := last_error_ s |}.

Definition kind_number (k : failure_kind) : Z :=
  match k with
  | fk_invalid_configuration => 0 | fk_timeout => 1 | fk_cancelled => 2 | fk_disconnected => 3
  | fk_access_denied => 4 | fk_io_failure => 5 | fk_protocol_violation => 6
  end.

Section server.
Context `{Utf8Ops} `{Protobuf} {Obj : Type} `{ObjectOps Obj}.
Context (registry_ : class_registry Obj) (options_ : server_options) (diagnostics_ : bool).
Implicit Types (s : server_state) (w : worker Obj) (st : session_store Obj).

Definition record s (error : t_failure) : server_state :=
  let s1 :=
    if bool_decide (t_kind error = fk_protocol_violation) then count_protocol_error s
    else if negb (bool_decide (t_kind error = fk_disconnected)) && negb (shutdown_ s)
         then count_io_error s else s in
  let s2 := if negb (t_native_error error =? 0) then set_last_error s1 (t_native_error error) else s1 in
  if diagnostics_ && negb (bool_decide (t_kind error = fk_disconnected)) && negb (shutdown_ s)
  then add_log s2 [(level_warning,
                    "transport kind=" +:+ to_string (kind_number (t_kind error))
                    +:+ " native=" +:+ to_string (t_native_error error))]
  else s2.

(** [native::preflight] with the server's stop token and a clock reading. *)
Definition server_preflight s (expired : bool) : option t_failure :=
  if shutdown_ s then Some (t_fail fk_cancelled)
  else if expired then Some (t_fail fk_timeout)
  else None.

(** [run]: the loop condition, [accept], and what follows [serve].  [run_close] takes
    the gate, closes the store and leaves the scope that owns it. *)
Definition run_check s : server_state * worker Obj := (s, if shutdown_ s then Stopped else InAccept).

Definition run_accept s (accepted : Z + t_failure) : server_state * worker Obj :=
  match accepted with
  | inr error =>
      if shutdown_ s then (s, Stopped)
      else
        let s' := record s error in
        if bool_decide (t_kind error = fk_disconnected) then (s', Looping)
        else (request_stop s', Stopped)
  | inl _ => (open_session s, ServeHead (new_session_store (opt_storage options_)))
  end.

Definition run_close s st : option (server_state * worker Obj) :=
  match gate_ s with
  | Some _ => None
  | None => Some (end_session s, Disconnecting)
  end.

Definition run_disconnect s (code : option Z) : server_state * worker Obj :=
  match code with
  | None => (s, Looping)
  | Some code =>
      if code =? ERROR_PIPE_NOT_CONNECTED then (s, Looping)
      else (request_stop (record s (io_failure code)), Looping)
  end.

(** [serve]: the loop condition and [receive]. *)
Definition serve_check s st : server_state * worker Obj :=
  (s, if shutdown_ s then Closing st else Receiving st).

Definition serve_receive s st (payload : bytes + t_failure) : server_state * worker Obj :=
  match payload with
  | inr error => (record s error, Closing st)
  | inl payload => (s, Waiting st (decode_request payload))
  end.

(** [dispatch]: one iteration of the gate loop, the guarded block, and the reply. *)
Definition dispatch_wait (i : nat) s st (decoded : request + failure) (expired acquired : bool)
  : option (server_state * worker Obj) :=
  match server_preflight s expired with
  | Some error => Some (record s error, Closing st)
  | None =>
      if acquired then
        match gate_ s with
        | Some _ => None
        | None => Some (set_gate s (Some i), Holding st decoded)
        end
      else Some (s, Waiting st decoded)
  end.

Definition dispatch_locked (i : nat) s st (decoded : request + failure) (expired : bool)
  : option (server_state * worker Obj) :=
  if negb (bool_decide (gate_ s = Some i)) then None
  else
    match server_preflight s expired with
    | Some error => Some (set_gate (record s error) None, Closing st)
    | None =>
        match decoded with
        | inr error => Some (set_gate (count_protocol_error s) None, Responding st (reject error))
        | inl r =>
            match dispatch registry_ diagnostics_ st (identifiers_ s) r with
            | None => None
            | Some (answer, st', ids', lines) =>
                Some (set_gate (add_log (set_identifiers s ids') lines) None, Responding st' answer)
            end
        end
    end.

(** The bytes that [dispatch] passes to [stream.send], if it gets there. *)
Definition reply_payload w : option bytes :=
  match w with
  | Responding _ (inl r) => match encode_response r with inl b => Some b | inr _ => None end
  | _ => None
  end.

(** What follows the answer; [sent] is what [stream.send] of [reply_payload] returned. *)
Definition dispatch_reply s st (answer : response + failure) (sent : Z + t_failure)
  : server_state * worker Obj :=
  match answer with
  | inr _ => (s, Closing st)
  | inl _ =>
      match reply_payload (Responding st answer) with
      | None => (record s (t_fail fk_protocol_violation), Closing st)
      | Some _ =>
          match sent with
          | inr error => (record s error, Closing st)
          | inl _ => (count_completed s, ServeHead st)
          end
      end
  end.

Definition worker_step (i : nat) s w (ev : event) : option (server_state * worker Obj) :=
  match w, ev with
  | Looping, ev_check => Some (run_check s)
  | InAccept, ev_accept r => Some (run_accept s r)
  | ServeHead st, ev_check => Some (serve_check s st)
  | Receiving st, ev_receive r => Some (serve_receive s st r)
  | Waiting st d, ev_gate expired acquired => dispatch_wait i s st d expired acquired
  | Holding st d, ev_locked expired => dispatch_locked i s st d expired
  | Responding st a, ev_send r => Some (dispatch_reply s st a r)
  | Closing st, ev_close => run_close s st
  | Disconnecting, ev_disconnect code => Some (run_disconnect s code)
  | _, _ => None
  end.

Definition server_step (c : server Obj) (l : label) : option (server Obj) :=
  match l with
  | L_request_stop => Some {| sv_state := request_stop (sv_state c); sv_workers := sv_workers c |}
  | L_worker i ev =>
      match sv_workers c !! i with
      | None => None
      | Some w =>
          match worker_step i (sv_state c) w ev with
          | None => None
          | Some (s', w') => Some {| sv_state := s'; sv_workers := <[i := w']> (sv_workers c) |}
          end
      end
  end.

Fixpoint server_run (c : server Obj) (ls : list label) : option (server Obj) :=
  match ls with
  | [] => Some c
  | l :: rest => match server_step c l with Some c' => server_run c' rest | None => None end
  end.

(** ** Startup *)
Definition initial_state : server_state := {|
  identifiers_ := {| next_ := 1 |}; shutdown_ := false; gate_ := None; connections_ := 0;
  completed_ := 0; protocol_errors_ := 0; io_errors_ := 0; active_ := 0; last_error_ := 0; log_ := [] |}.

(** [launch]: the security descriptor, the pipe instances and the threads; each answers
    a failure or nothing. *)
Fixpoint create_instances (pipes : list (option t_failure)) : option t_failure :=
  match pipes with
  | [] => None
  | Some error :: _ => Some error
  | None :: rest => create_instances rest
  end.

Definition launch (descriptor : option t_failure) (pipes : list (option t_failure)) (threads : option Z)
  : option t_failure :=
  match descriptor with
  | Some error => Some error
  | None =>
      match create_instances (take (Z.to_nat (opt_sessions options_)) pipes) with
      | Some error => Some error
      | None => match threads with Some code => Some (t_native fk_io_failure code) | None => None end
      end
  end.

Definition start (descriptor : option t_failure) (pipes : list (option t_failure)) (threads : option Z)
  : server Obj + t_failure :=
  if negb (valid_endpoint (opt_endpoint options_)) || (opt_sessions options_ =? 0)
     || (max_sessions <? opt_sessions options_) || (opt_request_timeout options_ <? minimum_timeout)
     || (maximum_timeout <? opt_request_timeout options_)
  then inr (t_fail fk_invalid_configuration)
  else
    match launch descriptor pipes threads with
    | Some error => inr error
    | None => inl {| sv_state := initial_state;
                     sv_workers := replicate (Z.to_nat (opt_sessions options_)) Looping |}
    end.
End server.
