(* ===== verification/ServerProofs.v ===== *)
(** * Safety and shutdown of the server

    The invariant of the step system of Server.v: every live session is a well-formed
    store under the shared identifier source, no identifier belongs to two sessions, the
    gate is held by exactly the worker inside the guarded block, and the counter of
    active sessions is exact.  A stop request makes every worker finish. *)
From stdpp Require Import prelude gmap strings sorting.
From Stdlib Require Import ZArith Lia.
From S2P Require Import Prelude Utf8 Contracts Validation Framing Transport Native Messages Codec CodecProofs CodecSpec Wire WireProofs Sizes Registry Store StoreProofs StoreSpec Lawful Builtins Sessions Replies Dispatcher Server.

(** The identifiers a session has handed out and still retains. *)
Definition uses {Obj} (st : session_store Obj) (id : Z) : Prop :=
  is_Some (values_ st !! id) \/ is_Some (objects_ st !! id).

Definition session {Obj} (w : worker Obj) : option (session_store Obj) :=
  match w with
  | ServeHead st | Receiving st | Waiting st _ | Holding st _ | Responding st _ | Closing st => Some st
  | _ => None
  end.

Definition holds {Obj} (w : worker Obj) : bool := match w with Holding _ _ => true | _ => false end.
Definition live {Obj} (w : worker Obj) : Z := if has_value (session w) then 1 else 0.

Lemma zsum_insert {A} (f : A -> Z) l i x y :
  l !! i = Some x -> zsum f (<[i := y]> l) = zsum f l - f x + f y.
Proof.
  revert i. induction l as [|z l IH]; intros [|i] Hi; try done; cbn in Hi.
  - injection Hi as ->. cbn. lia.
  - change (<[S i := y]> (z :: l)) with (z :: <[i := y]> l). cbn [zsum]. rewrite (IH i Hi). lia.
Qed.

Lemma typed_of_range op : operation_in_range op -> operation_typed op.
Proof. destruct op; cbn; unfold in_u32, in_u64; intuition lia. Qed.

Section effects.
Context `{Utf8Laws} `{Protobuf} `{!ProtobufLaws} {Obj : Type} `{ObjectOps Obj}.
Context (registry : class_registry Obj) (registry_ok : registry_wf registry).
Context (options : server_options) (diagnostics : bool).
Implicit Types (s : server_state) (w : worker Obj) (st : session_store Obj).

Context (limits_ok : 0 <= lim_values (opt_storage options) /\ 0 <= lim_objects (opt_storage options)
                     /\ 0 <= lim_bytes (opt_storage options)).

(** What the decoded request or the answer that a worker carries is known to be. *)
Definition carried_ok w : Prop :=
  match w with
  | Waiting _ (inl r) | Holding _ (inl r) =>
      req_id r <> 0 /\ req_version r = version /\ operation_typed (req_body r)
  | Responding _ (inl r) => resp_id r <> 0 /\ resp_version r = version /\ reply_ok (resp_body r)
  | _ => True
  end.

(** What one step changes of what the workers share. *)
Inductive effect (i : nat) (s : server_state) (w : worker Obj) : server_state -> worker Obj -> Prop :=
  | eff_local s' w' :
      identifiers_ s' = identifiers_ s -> gate_ s' = gate_ s -> active_ s' = active_ s ->
      session w' = session w -> holds w = false -> holds w' = false -> effect i s w s' w'
  | eff_open s' w' :
      identifiers_ s' = identifiers_ s -> gate_ s' = gate_ s -> active_ s' = active_ s ⊞ 1 ->
      session w = None -> session w' = Some (new_session_store (opt_storage options)) ->
      holds w = false -> holds w' = false -> effect i s w s' w'
  | eff_end s' w' :
      identifiers_ s' = identifiers_ s -> gate_ s = None -> gate_ s' = None -> active_ s' = active_ s ⊟ 1 ->
      is_Some (session w) -> session w' = None -> holds w = false -> holds w' = false -> effect i s w s' w'
  | eff_acquire s' w' :
      identifiers_ s' = identifiers_ s -> gate_ s = None -> gate_ s' = Some i -> active_ s' = active_ s ->
      session w' = session w -> holds w = false -> holds w' = true -> effect i s w s' w'
  | eff_release s' w' st st' :
      ids_le (identifiers_ s) (identifiers_ s') -> gate_ s = Some i -> gate_ s' = None ->
      active_ s' = active_ s -> session w = Some st -> session w' = Some st' ->
      store_wf registry st' (identifiers_ s') ->
      (forall id, uses st' id -> uses st id \/ ~ issued (identifiers_ s) id) ->
      holds w = true -> holds w' = false -> effect i s w s' w'.

Lemma record_frame s e :
  identifiers_ (record diagnostics s e) = identifiers_ s /\ gate_ (record diagnostics s e) = gate_ s
  /\ active_ (record diagnostics s e) = active_ s /\ shutdown_ (record diagnostics s e) = shutdown_ s.
Proof. unfold record. repeat case_match; done. Qed.

Lemma decoded_ok b st : carried_ok (Waiting st (decode_request b)).
Proof.
  cbn. destruct (decode_request b) as [r|f] eqn:Ed; [|done].
  destruct (request_decoded b r Ed) as ((Hid & Hv & _) & Hr & _). split_and!; [done..|]. by apply typed_of_range.
Qed.

(** An operation retains only identifiers the store had or that were not yet issued. *)
Lemma execute_uses st ids op o st' ids' id :
  store_wf registry st ids -> operation_typed op -> execute registry st ids op = Some (o, st', ids') ->
  uses st' id -> uses st id \/ ~ issued ids id.
Proof.
  intros wf Ht He. destruct (execute_step registry registry_ok st ids op wf Ht) as (r & Hr & _ & _ & Hs).
  rewrite He in Hr. injection Hr as <-. cbn [fst snd] in Hs. pose proof (wf_ids _ _ _ wf) as Hu.
  assert (Habs : forall t : session_store Obj, uses t id <-> is_Some (a_values (abs t) !! id) \/ is_Some (a_objects (abs t) !! id)).
  { intros t. unfold uses. cbn. rewrite lookup_fmap. destruct (objects_ t !! id); cbn; by rewrite ?is_Some_alt. }
  rewrite !Habs. clear Habs He. revert Hs. generalize (abs st), (abs st'). intros a a' Hs.
  destruct Hs as [| | |v i ids' _ _ _ _ Hn _ _|n args d x i ids' _ _ _ _ _ Hn _ _|i d x _ _
    |i n args d x m c v c' _ (Hl & _) _ _ _ _ _ _]; try tauto; cbn.
  - rewrite lookup_insert_is_Some. destruct (decide (i = id)) as [<-|]; [|tauto].
    right. by eapply (issued_next ids i).
  - rewrite lookup_insert_is_Some. destruct (decide (i = id)) as [<-|]; [|tauto].
    right. by eapply (issued_next ids i).
  - rewrite lookup_delete_is_Some. tauto.
  - rewrite lookup_insert_is_Some. destruct (decide (i = id)) as [<-|]; [|tauto]. left. right. eauto.
Qed.

Lemma reject_carried st f : carried_ok (Responding st (reject f)).
Proof.
  cbn. unfold reject. destruct (f_request_id f) as [id|]; [|done].
  destruct (_ || _ || _ || _) eqn:E; [done|]. bool_simp. cbn. split_and!; [done|done|apply fail_reply].
Qed.

(** The guarded block: what the dispatcher does to a well-formed session. *)
Lemma dispatch_carried st ids r :
  store_wf registry st ids -> req_id r <> 0 -> req_version r = version -> operation_typed (req_body r) ->
  exists o st' ids' lines,
    dispatch registry diagnostics st ids r
    = Some (inl {| resp_id := req_id r; resp_body := o; resp_version := version |}, st', ids', lines)
    /\ execute registry st ids (req_body r) = Some (o, st', ids')
    /\ store_wf registry st' ids' /\ ids_le ids ids' /\ reply_ok o.
Proof.
  intros wf Hid Hv Ht. destruct (execute_step registry registry_ok st ids _ wf Ht) as ([[o st'] ids'] & He & wf' & Hle & _).
  cbn [fst snd] in *. eexists o, st', ids', _. unfold dispatch, process.
  rewrite (proj2 (Z.eqb_neq _ 0)), Hv by done. cbn [Z.eqb version Pos.eqb]. rewrite He.
  split; [done|]. split; [done|]. split; [done|]. split; [done|].
  exact (execute_reply registry registry_ok st ids _ o st' ids' wf Ht He).
Qed.

Lemma worker_step_effect i s w ev s' w' :
  (forall st, session w = Some st -> store_wf registry st (identifiers_ s)) -> carried_ok w ->
  worker_step registry options diagnostics i s w ev = Some (s', w') ->
  effect i s w s' w' /\ carried_ok w'.
Proof.
  intros Hst Hc Hstep. pose proof (fun e => record_frame s e) as Hrec.
  destruct w as [| |st|st|st d|st d|st a|st| |]; destruct ev; try done; cbn [worker_step] in Hstep;
    unfold run_check, run_accept, serve_check, serve_receive, dispatch_wait, dispatch_locked, dispatch_reply, reply_payload,
      run_close, run_disconnect in Hstep.
  - injection Hstep as <- <-. destruct (shutdown_ s); split; (by apply eff_local) || done.
  - destruct r as [n|e]; [injection Hstep as <- <-; split; [by apply eff_open|done]|].
    destruct (Hrec e) as (Qi & Qg & Qa & _). destruct (shutdown_ s); [|case_bool_decide];
      injection Hstep as <- <-; split; (by apply eff_local) || done.
  - injection Hstep as <- <-. destruct (shutdown_ s); split; (by apply eff_local) || done.
  - destruct r as [b|e]; injection Hstep as <- <-; [split; [by apply eff_local|apply decoded_ok]|].
    destruct (Hrec e) as (Qi & Qg & Qa & _). split; [by apply eff_local|done].
  - destruct (server_preflight s expired) as [e|].
    { destruct (Hrec e) as (Qi & Qg & Qa & _). injection Hstep as <- <-. split; [by apply eff_local|done]. }
    destruct acquired; [|injection Hstep as <- <-; split; [by apply eff_local|done]].
    destruct (gate_ s) eqn:Eg; [done|]. injection Hstep as <- <-. split; [by apply eff_acquire|done].
  - case_bool_decide as Eg; cbn [negb] in Hstep; [|done].
    assert (Hsame : forall s1 w1, identifiers_ s1 = identifiers_ s -> active_ s1 = active_ s -> session w1 = Some st ->
      holds w1 = false -> effect i s (Holding st d) (set_gate s1 None) w1).
    { intros s1 w1 Hi Ha Hs Hh. eapply (eff_release _ _ _ _ _ st st); cbn; try done.
      - rewrite Hi. apply ids_le_refl, (Hst st eq_refl).
      - rewrite Hi. by apply Hst.
      - tauto. }
    destruct (server_preflight s expired) as [e|].
    { destruct (Hrec e) as (Qi & Qg & Qa & _). injection Hstep as <- <-. split; [by apply Hsame|done]. }
    destruct d as [r|f]; [|injection Hstep as <- <-; split; [by apply Hsame|apply reject_carried]].
    destruct Hc as (Hid & Hv & Ht). destruct (dispatch_carried st (identifiers_ s) r) as (o & st' & ids' & lines & Hd & He & wf' & Hle & Ho);
      [by apply Hst|done|done|done|]. rewrite Hd in Hstep. injection Hstep as <- <-. split; [|done].
    eapply (eff_release _ _ _ _ _ st st'); cbn; try done.
    intros id. eapply execute_uses; [by apply Hst|exact Ht|exact He].
  - destruct a as [resp|f]; [|injection Hstep as <- <-; split; [by apply eff_local|done]].
    destruct (encode_response resp) as [b|f]; [destruct r as [n|e]|]; injection Hstep as <- <-;
      [split; [by apply eff_local|done]|destruct (Hrec e) as (Qi & Qg & Qa & _)
      |destruct (Hrec (t_fail fk_protocol_violation)) as (Qi & Qg & Qa & _)]; (split; [by apply eff_local|done]).
  - destruct (gate_ s) eqn:Eg; [done|]. injection Hstep as <- <-. split; [by apply eff_end|done].
  - destruct code as [c|]; [|injection Hstep as <- <-; split; [by apply eff_local|done]].
    destruct (Hrec (io_failure c)) as (Qi & Qg & Qa & _).
    destruct (_ =? _); injection Hstep as <- <-; (split; [by apply eff_local|done]).
Qed.

(** ** The invariant *)
Record server_ok (c : server Obj) : Prop := {
  ok_ids : in_u64 (next_ (identifiers_ (sv_state c)));
  ok_stores i w st :
    sv_workers c !! i = Some w -> session w = Some st -> store_wf registry st (identifiers_ (sv_state c));
  ok_carried i w : sv_workers c !! i = Some w -> carried_ok w;
  ok_isolated i j wi wj sti stj id :
    i <> j -> sv_workers c !! i = Some wi -> sv_workers c !! j = Some wj ->
    session wi = Some sti -> session wj = Some stj -> uses sti id -> ~ uses stj id;
  ok_gate i : gate_ (sv_state c) = Some i <-> exists w, sv_workers c !! i = Some w /\ holds w = true;
  ok_active : active_ (sv_state c) = zsum live (sv_workers c);
  ok_size : len (sv_workers c) <= max_sessions;
}.

Lemma uses_issued st ids id : store_wf registry st ids -> uses st id -> issued ids id.
Proof.
  intros wf [[v Hv]|[o Ho]]; [by apply (wf_values _ _ _ wf) in Hv as []|by apply (wf_objects _ _ _ wf) in Ho as []].
Qed.

Lemma live_range (ws : list (worker Obj)) : 0 <= zsum live ws <= len ws.
Proof.
  assert (Hl : forall w : worker Obj, 0 <= live w <= 1) by (intros w; unfold live; case_match; lia).
  split; [apply zsum_nonneg; intros w _; by apply Hl|].
  pose proof (zsum_bound live ws 1) as Hb. specialize (Hb (fun w _ => proj2 (Hl w))). lia.
Qed.

Lemma live_some ws i w : ws !! i = Some w -> is_Some (session w) -> 1 <= zsum live (ws : list (worker Obj)).
Proof.
  intros Hw [st Hs]. apply list_elem_of_split_length in Hw as (l1 & l2 & -> & _). rewrite zsum_app. cbn [zsum].
  pose proof (live_range l1). pose proof (live_range l2). unfold live at 2. rewrite Hs. cbn. lia.
Qed.

Lemma effect_ids_le i s w s' w' :
  in_u64 (next_ (identifiers_ s)) -> effect i s w s' w' -> ids_le (identifiers_ s) (identifiers_ s').
Proof.
  intros Hu He. destruct He as [s' w' E|s' w' E|s' w' E|s' w' E|]; [rewrite E; by apply ids_le_refl..|done].
Qed.

(** The sessions after a step: another worker's, unchanged, or the stepping worker's. *)
Lemma effect_session i s w s' w' st :
  effect i s w s' w' -> session w' = Some st ->
  (session w = Some st /\ identifiers_ s' = identifiers_ s)
  \/ (st = new_session_store (opt_storage options) /\ identifiers_ s' = identifiers_ s)
  \/ (exists st0, session w = Some st0 /\ store_wf registry st (identifiers_ s')
                  /\ forall id, uses st id -> uses st0 id \/ ~ issued (identifiers_ s) id).
Proof.
  intros He Hs. destruct He as [s' w' E _ _ Hw|s' w' E _ _ _ Hw|s' w' E _ _ _ _ Hw|s' w' E _ _ _ Hw
    |s' w' st0 st' _ _ _ _ Hw0 Hw Hwf Hu].
  - left. split; [congruence|done].
  - right; left. split; [congruence|done].
  - congruence.
  - left. split; [congruence|done].
  - right; right. rewrite Hw in Hs. injection Hs as <-. eauto.
Qed.

Lemma new_store_unused limits id : ~ uses (new_session_store (Obj := Obj) limits) id.
Proof. intros [[? Hv]|[? Ho]]; cbn in *; by rewrite lookup_empty in *. Qed.

Lemma effect_gate i s w s' w' :
  effect i s w s' w' -> (gate_ s = Some i <-> holds w = true) ->
  (gate_ s' = Some i <-> holds w' = true) /\ forall j, i <> j -> gate_ s' = Some j <-> gate_ s = Some j.
Proof.
  intros He Hwas.
  destruct He; repeat match goal with E : gate_ ?a = _ |- context [gate_ ?a] => rewrite E end;
    split; intros; intuition congruence.
Qed.

Lemma effect_active i s w s' w' :
  effect i s w s' w' ->
  (active_ s' = active_ s /\ live w' = live w) \/ (active_ s' = active_ s ⊞ 1 /\ live w' = live w + 1)
  \/ (active_ s' = active_ s ⊟ 1 /\ live w' = live w - 1 /\ is_Some (session w)).
Proof.
  unfold live. intros He. destruct He as [s1 w1 _ _ E Hs|s1 w1 _ _ E Hs Hs'|s1 w1 _ _ _ E Hs Hs'|s1 w1 _ _ _ E Hs|s1 w1 st st' _ _ _ E Hs Hs'].
  - left. by rewrite Hs.
  - right; left. by rewrite Hs, Hs'.
  - right; right. destruct Hs as [st Hs]. rewrite Hs, Hs'. split_and!; [done|done|eauto].
  - left. by rewrite Hs.
  - left. by rewrite Hs, Hs'.
Qed.

Section preservation.
Context (c : server Obj) (ok : server_ok c) (i : nat) (w : worker Obj) (s' : server_state) (w' : worker Obj).
Context (Hw : sv_workers c !! i = Some w) (He : effect i (sv_state c) w s' w').

Lemma keep_stores j v st :
  <[i := w']> (sv_workers c) !! j = Some v -> session v = Some st -> store_wf registry st (identifiers_ s').
Proof.
  intros Hj Hs. pose proof (effect_ids_le _ _ _ _ _ (ok_ids c ok) He) as Hle.
  apply list_lookup_insert_Some in Hj as [(<- & <- & _)|(Hne & Hj)].
  2: { eapply store_wf_le; [done|by eapply ok_stores]. }
  destruct (effect_session _ _ _ _ _ _ He Hs) as [(H1' & ->)|[(-> & ->)|(st0 & _ & Hwf & _)]]; [| |done].
  - by eapply ok_stores.
  - destruct limits_ok as (? & ? & ?). by apply new_session_wf; [apply ok|..].
Qed.

(** An identifier that another session uses is not used by the stepping one. *)
Lemma keep_apart j wj stj st id :
  i <> j -> sv_workers c !! j = Some wj -> session wj = Some stj -> session w' = Some st ->
  uses st id -> uses stj id -> False.
Proof.
  intros Hne Hj Hsj Hs Hu Huj.
  destruct (effect_session _ _ _ _ _ _ He Hs) as [(H1' & _)|[(-> & _)|(st0 & Hs0 & _ & Hfresh)]].
  - by eapply (ok_isolated c ok i j).
  - by eapply new_store_unused.
  - destruct (Hfresh id Hu) as [Hu0|Hni]; [by eapply (ok_isolated c ok i j)|].
    apply Hni. eapply uses_issued; [|done]. by eapply ok_stores.
Qed.

Lemma keep_isolated a b wa wb sta stb id :
  a <> b -> <[i := w']> (sv_workers c) !! a = Some wa -> <[i := w']> (sv_workers c) !! b = Some wb ->
  session wa = Some sta -> session wb = Some stb -> uses sta id -> ~ uses stb id.
Proof.
  intros Hab Ha Hb Hsa Hsb Hua Hub.
  apply list_lookup_insert_Some in Ha as [(<- & <- & _)|(Hna & Ha)];
    apply list_lookup_insert_Some in Hb as [(<- & <- & _)|(Hnb & Hb)]; try done.
  - by eapply (keep_apart b).
  - by eapply (keep_apart a).
  - by eapply (ok_isolated c ok a b).
Qed.

Lemma keep_gate j :
  gate_ s' = Some j <-> exists v, <[i := w']> (sv_workers c) !! j = Some v /\ holds v = true.
Proof.
  assert (Hlt : (i < length (sv_workers c))%nat) by by eapply lookup_lt_Some.
  assert (Hother : i <> j -> gate_ (sv_state c) = Some j
    <-> exists v, <[i := w']> (sv_workers c) !! j = Some v /\ holds v = true).
  { intros Hne. rewrite list_lookup_insert_ne by done. apply ok. }
  assert (Hself : (exists v, <[i := w']> (sv_workers c) !! i = Some v /\ holds v = true) <-> holds w' = true).
  { rewrite list_lookup_insert_eq by done. split; [by intros (v & [= <-] & Hv)|eauto]. }
  assert (Hwas : gate_ (sv_state c) = Some i <-> holds w = true).
  { rewrite (ok_gate c ok i), Hw. split; [by intros (v & [= <-] & Hv)|eauto]. }
  destruct (effect_gate _ _ _ _ _ He Hwas) as [Hi Hj].
  destruct (decide (i = j)) as [<-|Hne]; [by rewrite Hself|]. rewrite <- Hother by done. by apply Hj.
Qed.

Lemma keep_active : active_ s' = zsum live (<[i := w']> (sv_workers c)).
Proof.
  rewrite (zsum_insert live _ i w w') by done. rewrite <- (ok_active c ok).
  pose proof (ok_active c ok) as Ha. pose proof (live_range (sv_workers c)). pose proof (ok_size c ok) as Hsz.
  assert (Hlive : is_Some (session w) -> 1 <= active_ (sv_state c)) by (rewrite Ha; exact (live_some _ i w Hw)).
  unfold max_sessions in *.
  destruct (effect_active _ _ _ _ _ He) as [(-> & ->)|[(-> & ->)|(-> & -> & Hs)]].
  - lia.
  - rewrite u64_add_exact by ulia. lia.
  - specialize (Hlive Hs). rewrite u64_sub_exact by ulia. lia.
Qed.
End preservation.

Lemma server_step_ok c l c' :
  server_ok c -> server_step registry options diagnostics c l = Some c' -> server_ok c'.
Proof.
  intros ok Hs. destruct l as [i ev|]; cbn in Hs.
  - destruct (sv_workers c !! i) as [w|] eqn:Hw; [|done].
    destruct (worker_step _ _ _ _ _ _ _) as [[s' w']|] eqn:Est; [|done]. injection Hs as <-.
    destruct (worker_step_effect i (sv_state c) w ev s' w') as [He Hc];
      [intros st Hst; by eapply (ok_stores c ok i w)|by eapply (ok_carried c ok i)|done|].
    split; cbn [sv_state sv_workers].
    + by apply (effect_ids_le _ _ _ _ _ (ok_ids c ok) He).
    + intros j v st. by eapply keep_stores.
    + intros j v Hj. apply list_lookup_insert_Some in Hj as [(<- & <- & _)|(_ & Hj)]; [done|by eapply (ok_carried c ok)].
    + intros a b wa wb sta stb id. by eapply keep_isolated.
    + intros j. by eapply keep_gate.
    + by eapply keep_active.
    + unfold len. rewrite length_insert. apply ok.
  - injection Hs as <-. destruct ok. by split.
Qed.

Lemma server_step_ids c l c' :
  server_ok c -> server_step registry options diagnostics c l = Some c' ->
  ids_le (identifiers_ (sv_state c)) (identifiers_ (sv_state c')).
Proof.
  intros ok Hs. destruct l as [i ev|]; cbn in Hs; [|injection Hs as <-; apply ids_le_refl, ok].
  destruct (sv_workers c !! i) as [w|] eqn:Hw; [|done].
  destruct (worker_step _ _ _ _ _ _ _) as [[s' w']|] eqn:Est; [|done]. injection Hs as <-.
  destruct (worker_step_effect i (sv_state c) w ev s' w') as [He _];
    [intros st Hst; by eapply (ok_stores c ok i w)|by eapply (ok_carried c ok i)|done|].
  by apply (effect_ids_le _ _ _ _ _ (ok_ids c ok) He).
Qed.

Lemma server_run_ok c ls c' :
  server_ok c -> server_run registry options diagnostics c ls = Some c' -> server_ok c'.
Proof.
  revert c. induction ls as [|l ls IH]; intros c ok Hr; cbn in Hr; [by injection Hr as <-|].
  destruct (server_step _ _ _ c l) as [c1|] eqn:Es; [|done]. eapply IH; [|done]. by eapply server_step_ok.
Qed.

Lemma start_ok descriptor pipes threads c :
  0 <= opt_sessions options -> start (Obj := Obj) options descriptor pipes threads = inl c ->
  server_ok c /\ sv_state c = initial_state /\ len (sv_workers c) = opt_sessions options.
Proof.
  intros Hn. unfold start. destruct (_ || _ || _ || _ || _) eqn:Eg; [done|]. bool_simp.
  destruct (launch _ _ _ _); [done|]. intros [= <-]. cbn [sv_state sv_workers].
  assert (Hall : forall i (w : worker Obj), replicate (Z.to_nat (opt_sessions options)) Looping !! i = Some w -> w = Looping).
  { intros i w Hw. by apply lookup_replicate in Hw as [-> _]. }
  split; [|split; [done|unfold len; rewrite length_replicate; lia]]. split; cbn [sv_state sv_workers].
  - done.
  - intros i w st Hw. apply Hall in Hw as ->. done.
  - intros i w Hw. apply Hall in Hw as ->. done.
  - intros i j wi wj sti stj id _ Hi _ Hsi. apply Hall in Hi as ->. done.
  - intros i. split; [done|]. intros (w & Hw & Hh). apply Hall in Hw as ->. done.
  - cbn [active_ initial_state]. generalize (Z.to_nat (opt_sessions options)). induction n as [|n IH]; [done|].
    cbn [replicate zsum]. rewrite <- IH. done.
  - unfold len. rewrite length_replicate. lia.
Qed.

(** ** Shutdown *)
Definition rank w : Z :=
  match w with
  | Stopped => 0 | Looping => 1 | Disconnecting => 2 | Closing _ => 3
  | ServeHead _ | Waiting _ _ | Holding _ _ => 4
  | InAccept | Receiving _ | Responding _ _ => 5
  end.
Definition is_worker (l : label) : bool := match l with L_worker _ _ => true | L_request_stop => false end.

Lemma worker_step_rank i s w ev s' w' :
  shutdown_ s = true -> worker_step registry options diagnostics i s w ev = Some (s', w') ->
  rank w' <= rank w - 1 /\ shutdown_ s' = true.
Proof.
  intros Hd Hstep. pose proof (fun e => record_frame s e) as Hrec.
  assert (Hr : forall e, shutdown_ (record diagnostics s e) = true)
    by (intros e; destruct (Hrec e) as (_ & _ & _ & ->); done).
  destruct w as [| |st|st|st d|st d|st a|st| |]; destruct ev; try done; cbn [worker_step] in Hstep;
    unfold run_check, run_accept, serve_check, serve_receive, dispatch_wait, dispatch_locked, dispatch_reply, reply_payload,
      run_close, run_disconnect, server_preflight in Hstep; rewrite ?Hd in Hstep;
    repeat case_match; simplify_eq; cbn; split; done || lia || apply Hr.
Qed.

Lemma server_run_stops c ls c' :
  shutdown_ (sv_state c) = true -> server_run registry options diagnostics c ls = Some c' ->
  len (filter is_worker ls) + zsum rank (sv_workers c') <= zsum rank (sv_workers c)
  /\ shutdown_ (sv_state c') = true.
Proof.
  revert c. induction ls as [|l ls IH]; intros c Hd Hr; cbn in Hr.
  { injection Hr as <-. split; [|done]. rewrite filter_nil, len_nil. lia. }
  destruct (server_step _ _ _ c l) as [c1|] eqn:Es; [|done].
  destruct l as [i ev|]; cbn in Es.
  - destruct (sv_workers c !! i) as [w|] eqn:Hw; [|done].
    destruct (worker_step _ _ _ _ _ _ _) as [[s' w']|] eqn:Est; [|done]. injection Es as <-.
    destruct (worker_step_rank _ _ _ _ _ _ Hd Est) as [Hrank Hd']. destruct (IH {| sv_state := s'; sv_workers := _ |} Hd' Hr) as [Hlen Hfin].
    split; [|done]. cbn [sv_workers] in Hlen. rewrite (zsum_insert rank _ i w w') in Hlen by done.
    rewrite filter_cons_True by done. rewrite len_cons. lia.
  - injection Es as <-. destruct (IH {| sv_state := request_stop _; sv_workers := _ |} eq_refl Hr) as [Hlen Hfin]. split; [|done].
    rewrite filter_cons_False by (cbn; tauto). exact Hlen.
Qed.

Definition enabled c (i : nat) : Prop :=
  exists ev c', server_step registry options diagnostics c (L_worker i ev) = Some c'.

Lemma enabled_intro c i w ev s' w' :
  sv_workers c !! i = Some w -> worker_step registry options diagnostics i (sv_state c) w ev = Some (s', w') ->
  enabled c i.
Proof. intros Hw Hs. eexists ev, _. cbn. rewrite Hw, Hs. done. Qed.

(** A worker can move unless it has stopped or waits for the holder of the gate. *)
Lemma worker_enabled c i w :
  server_ok c -> sv_workers c !! i = Some w -> w <> Stopped ->
  enabled c i \/ exists st j, w = Closing st /\ gate_ (sv_state c) = Some j /\ enabled c j.
Proof.
  intros ok Hw Hne.
  assert (Hhold : forall j st d, sv_workers c !! j = Some (Holding st d) -> enabled c j).
  { intros j st d Hj. pose proof (proj2 (ok_gate c ok j) (ex_intro _ _ (conj Hj eq_refl))) as Hg.
    apply (enabled_intro c j _ (ev_locked true) (set_gate (record diagnostics (sv_state c)
      (if shutdown_ (sv_state c) then t_fail fk_cancelled else t_fail fk_timeout)) None) (Closing st) Hj).
    cbn. unfold dispatch_locked, server_preflight. rewrite bool_decide_eq_true_2 by done. cbn.
    by destruct (shutdown_ (sv_state c)). }
  destruct w as [| |st|st|st d|st d|st a|st| |]; try done.
  - left. by eapply (enabled_intro c i _ ev_check).
  - left. by eapply (enabled_intro c i _ (ev_accept (inl 0))).
  - left. by eapply (enabled_intro c i _ ev_check).
  - left. by eapply (enabled_intro c i _ (ev_receive (inl []))).
  - left. destruct (worker_step registry options diagnostics i (sv_state c) (Waiting st d) (ev_gate true false))
      as [[s' w']|] eqn:E; [by eapply enabled_intro|]. cbn in E. unfold dispatch_wait, server_preflight in E.
    by destruct (shutdown_ (sv_state c)).
  - left. by eapply Hhold.
  - left. destruct (worker_step registry options diagnostics i (sv_state c) (Responding st a) (ev_send (inl 0)))
      as [[s' w']|] eqn:E; [by eapply enabled_intro|]. done.
  - destruct (gate_ (sv_state c)) as [j|] eqn:Eg.
    + right. exists st, j. split_and!; [done|done|]. apply (ok_gate c ok) in Eg as (v & Hv & Hh).
      destruct v; try done. by eapply Hhold.
    + left. eapply (enabled_intro c i _ ev_close _ _ Hw). cbn. unfold run_close. by rewrite Eg.
  - left. by eapply (enabled_intro c i _ (ev_disconnect None)).
Qed.

Lemma quiescent_stopped c :
  server_ok c -> (forall i, ~ enabled c i) ->
  Forall (fun w => w = Stopped) (sv_workers c) /\ active_ (sv_state c) = 0 /\ gate_ (sv_state c) = None.
Proof.
  intros ok Hq. assert (Hall : Forall (fun w => w = Stopped) (sv_workers c)).
  { apply Forall_lookup. intros i w Hw. destruct w; try done;
      (edestruct (worker_enabled c i _ ok Hw) as [He|(? & j & _ & _ & He)]; [done|by destruct (Hq i)|by destruct (Hq j)]). }
  split_and!; [done| |].
  - rewrite (ok_active c ok). clear -Hall. induction Hall as [|w ws -> _ IH]; [done|]. cbn [zsum]. by rewrite IH.
  - destruct (gate_ (sv_state c)) as [j|] eqn:Eg; [|done]. apply (ok_gate c ok) in Eg as (w & Hw & Hh).
    rewrite Forall_lookup in Hall. by rewrite (Hall j w Hw) in Hh.
Qed.

Lemma rank_total ws : zsum rank ws <= 5 * len ws.
Proof. pose proof (zsum_bound rank ws 5) as Hb. specialize (Hb ltac:(intros [] _; cbn; lia)). lia. Qed.

Definition is_stopped w : bool := match w with Stopped => true | _ => false end.

Lemma server_can_finish c :
  server_ok c -> shutdown_ (sv_state c) = true ->
  exists ls c', server_run registry options diagnostics c ls = Some c' /\ Forall (fun w => w = Stopped) (sv_workers c').
Proof.
  assert (Hnn : forall ws : list (worker Obj), 0 <= zsum rank ws) by (intros ws; apply zsum_nonneg; intros [] _; done).
  intros ok Hd. remember (Z.to_nat (zsum rank (sv_workers c))) as n eqn:Hn.
  assert (Hle : (Z.to_nat (zsum rank (sv_workers c)) <= n)%nat) by lia. clear Hn. revert c ok Hd Hle.
  induction n as [|n IH]; intros c ok Hd Hle.
  - exists [], c. split; [done|]. apply Forall_lookup. intros i w Hw.
    apply list_elem_of_split_length in Hw as (l1 & l2 & Hw & _). rewrite Hw, zsum_app in Hle. cbn [zsum] in Hle.
    pose proof (Hnn l1). pose proof (Hnn l2). destruct w; cbn in Hle; lia || done.
  - destruct (forallb is_stopped (sv_workers c)) eqn:Ef.
    { exists [], c. split; [done|]. rewrite forallb_spec in Ef. eapply Forall_impl; [done|]. by intros []. }
    assert (Hex : exists i w, sv_workers c !! i = Some w /\ w <> Stopped).
    { clear -Ef. induction (sv_workers c) as [|w ws IH]; [done|]. cbn in Ef. destruct (is_stopped w) eqn:E.
      - destruct (IH Ef) as (i & v & Hi & Hv). by exists (S i), v.
      - exists 0%nat, w. split; [done|]. by intros ->. }
    destruct Hex as (i & w & Hw & Hne).
    assert (Hen : exists j, enabled c j) by (destruct (worker_enabled c i w ok Hw Hne) as [?|(_ & j & _ & _ & ?)]; eauto).
    destruct Hen as (j & ev & c1 & Hs). assert (ok1 : server_ok c1) by by eapply server_step_ok.
    destruct (server_run_stops c [L_worker j ev] c1 Hd) as [Hr Hd1]; [cbn [server_run]; by rewrite Hs|].
    rewrite filter_cons_True, filter_nil in Hr by done. change (len [L_worker j ev]) with 1 in Hr.
    pose proof (Hnn (sv_workers c1)). destruct (IH c1 ok1 Hd1) as (ls & c2 & Hrun & Hall); [lia|].
    exists (L_worker j ev :: ls), c2. split; [|done]. cbn [server_run]. by rewrite Hs.
Qed.
End effects.

(** ** Properties *)
Section properties.
Context `{Utf8Laws} `{Protobuf} `{!ProtobufLaws} {Obj : Type} `{ObjectOps Obj}.
Context (registry : class_registry Obj) (options : server_options) (diagnostics : bool).

(** C5: Safety of the server.  From startup, whatever the clients, the clock, the native
    calls, the plug-ins and the scheduler do: every live session is a well-formed store
    under the shared identifier source; no identifier is ever used by two sessions; a
    worker is inside the guarded block exactly when it holds the domain gate, so at most
    one is; every answer in flight is valid; and [active_] is the exact number of live
    sessions, at most four. *)
Theorem server_safe descriptor pipes threads c0 ls c :
  registry_wf registry -> 0 <= opt_sessions options ->
  0 <= lim_values (opt_storage options) -> 0 <= lim_objects (opt_storage options) ->
  0 <= lim_bytes (opt_storage options) ->
  start options descriptor pipes threads = inl c0 ->
  server_run registry options diagnostics c0 ls = Some c -> server_ok registry c.
Proof.
  intros Hr Hn Hv Ho Hb Hs Hrun. destruct (start_ok registry options descriptor pipes threads c0 Hn Hs) as [ok _].
  by eapply (server_run_ok registry Hr options diagnostics (conj Hv (conj Ho Hb)) c0 ls).
Qed.

(** C12: Shutdown.  Once a stop is requested the workers together take at most twenty
    more steps; when none of them can move, all have stopped, no session is active and
    the gate is free; and from every such state they can all reach that end: no worker
    is left waiting for the gate. *)
Theorem server_stops c ls c' :
  registry_wf registry ->
  0 <= lim_values (opt_storage options) /\ 0 <= lim_objects (opt_storage options)
  /\ 0 <= lim_bytes (opt_storage options) ->
  server_ok registry c -> shutdown_ (sv_state c) = true ->
  server_run registry options diagnostics c ls = Some c' ->
  len (filter is_worker ls) <= 20
  /\ ((forall i, ~ enabled registry options diagnostics c' i) ->
      Forall (fun w => w = Stopped) (sv_workers c') /\ active_ (sv_state c') = 0 /\ gate_ (sv_state c') = None)
  /\ exists ls' c'', server_run registry options diagnostics c' ls' = Some c''
       /\ Forall (fun w => w = Stopped) (sv_workers c'').
Proof.
  intros Hr Hl ok Hd Hrun. pose proof (server_run_ok registry Hr options diagnostics Hl c ls c' ok Hrun) as ok'.
  destruct (server_run_stops registry options diagnostics Hl c ls c' Hd Hrun) as [Hlen Hd'].
  split_and!.
  - pose proof (rank_total (sv_workers c)). pose proof (ok_size _ c ok).
    assert (0 <= zsum rank (sv_workers c')) by (apply zsum_nonneg; intros [] _; done).
    unfold max_sessions in *. lia.
  - by apply quiescent_stopped.
  - by apply server_can_finish.
Qed.

(** C39: A recoverable decode failure is counted and the session goes on.  A request that
    the codec refuses with a trusted identifier adds one to [protocol_errors_], is
    answered under that identifier, counts as completed, and leaves the worker serving
    the same, unchanged session. *)
Theorem rejected_request_counted `{!ProtobufSizes} c i st f resp sent :
  server_ok registry c -> shutdown_ (sv_state c) = false ->
  sv_workers c !! i = Some (Holding st (inr f)) -> reject f = inl resp ->
  exists c', server_run registry options diagnostics c
      [L_worker i (ev_locked false); L_worker i (ev_send (inl sent))] = Some c'
    /\ protocol_errors_ (sv_state c') = protocol_errors_ (sv_state c) ⊞ 1
    /\ completed_ (sv_state c') = completed_ (sv_state c) ⊞ 1
    /\ sv_workers c' !! i = Some (ServeHead st).
Proof.
  intros ok Hd Hw Hrej.
  assert (Hb : exists b, encode_response resp = inl b).
  { pose proof (reject_carried st f) as Hc. rewrite Hrej in Hc. destruct Hc as (Hid & Hv & Hr).
    destruct (reply_encoded _ _ Hr Hid) as (b & Hb & _). exists b. destruct resp. cbn in *. by rewrite Hv. }
  destruct Hb as [b Hb]. pose proof (proj2 (ok_gate _ c ok i) (ex_intro _ _ (conj Hw eq_refl))) as Hg.
  pose proof (lookup_lt_Some _ _ _ Hw) as Hlt.
  cbn [server_run server_step]. rewrite Hw. cbn [worker_step]. unfold dispatch_locked, server_preflight.
  rewrite bool_decide_eq_true_2, Hd, Hrej by done. cbn [negb sv_state sv_workers].
  rewrite list_lookup_insert_eq by done. cbn [worker_step]. unfold dispatch_reply, reply_payload. rewrite Hb.
  eexists. split; [done|]. cbn. split_and!; [done|done|].
  rewrite list_lookup_insert_eq; [done|]. by rewrite length_insert.
Qed.
End properties.

(** ** A request, from its bytes to the bytes of its response *)
Section answered.
Context `{Utf8Laws} `{Protobuf} `{!ProtobufLaws} `{!ProtobufSizes} {Obj : Type} `{ObjectOps Obj}.
Context (registry : class_registry Obj) `{!LawfulRegistry registry}.
Context (options : server_options) (diagnostics : bool).

Lemma values_of_range op : operation_in_range op -> operation_values_typed op.
Proof. destruct op; cbn; tauto. Qed.

(** The events of worker [i] in a schedule. *)
Definition own_event (i : nat) (l : label) : option event :=
  match l with L_worker j ev => if decide (j = i) then Some ev else None | L_request_stop => None end.
Definition own (i : nat) (ls : list label) : list event := omap (own_event i) ls.
Lemma own_cons i l ls : own i (l :: ls) = option_list (own_event i l) ++ own i ls.
Proof. unfold own. cbn. by destruct (own_event i l). Qed.

(** One request of a worker whose deadline does not pass: the payload, the rounds of the
    gate loop that do not get it, the round that does, and the guarded block. *)
Definition request_events (b : bytes) (rounds : nat) : list event :=
  ev_receive (inl b) :: replicate rounds (ev_gate false false) ++ [ev_gate false true; ev_locked false].

Definition reply_to (r : request) (o : outcome) : response :=
  {| resp_id := req_id r; resp_body := o; resp_version := version |}.

(** Where a worker is on the way, with the events that are left. *)
Inductive on_the_way (st : session_store Obj) (b : bytes) (r : request) (ids : identifier_source)
  : worker Obj -> list event -> Prop :=
  | way_receive n : on_the_way st b r ids (Receiving st) (request_events b n)
  | way_wait n :
      on_the_way st b r ids (Waiting st (inl r)) (replicate n (ev_gate false false) ++ [ev_gate false true; ev_locked false])
  | way_hold : on_the_way st b r ids (Holding st (inl r)) [ev_locked false]
  | way_answer ids1 o st' ids2 :
      ids_le ids ids1 -> store_wf registry st ids1 -> execute registry st ids1 (req_body r) = Some (o, st', ids2) ->
      on_the_way st b r ids (Responding st' (inl (reply_to r o))) [].

Section way.
Context (registry_ok : registry_wf registry).
Context (limits_ok : 0 <= lim_values (opt_storage options) /\ 0 <= lim_objects (opt_storage options)
                     /\ 0 <= lim_bytes (opt_storage options)).
Context (st : session_store Obj) (b : bytes) (r : request) (decoded : decode_request b = inl r).
Context (ids : identifier_source).

(** One event of the worker itself. *)
Lemma way_step i c w ev evs s' w' :
  server_ok registry c -> ids_le ids (identifiers_ (sv_state c)) -> shutdown_ (sv_state c) = false ->
  sv_workers c !! i = Some w -> on_the_way st b r ids w (ev :: evs) ->
  worker_step registry options diagnostics i (sv_state c) w ev = Some (s', w') -> on_the_way st b r ids w' evs.
Proof.
  intros ok Hle Hd Hw Hway Hs. remember (ev :: evs) as l eqn:E2. destruct Hway as [n|n| |]; [| | |done].
  - injection E2 as <- <-. cbn in Hs. rewrite decoded in Hs. injection Hs as <- <-. constructor.
  - destruct n as [|n]; cbn in E2; injection E2 as <- <-; cbn in Hs; unfold dispatch_wait, server_preflight in Hs;
      rewrite Hd in Hs.
    + destruct (gate_ (sv_state c)); [done|]. injection Hs as <- <-. constructor.
    + injection Hs as <- <-. constructor.
  - injection E2 as <- <-. cbn in Hs. unfold dispatch_locked, server_preflight in Hs.
    destruct (negb _); [done|]. rewrite Hd in Hs.
    destruct (request_decoded b r decoded) as ((Hid & Hv & _) & Hrange & _).
    pose proof (ok_stores _ c ok i _ st Hw eq_refl) as wf.
    destruct (dispatch_carried registry registry_ok diagnostics st _ r wf Hid Hv (typed_of_range _ Hrange))
      as (o & st' & ids' & lines & Hdis & He & _). rewrite Hdis in Hs. injection Hs as <- <-.
    by apply (way_answer st b r ids (identifiers_ (sv_state c)) o st' ids').
Qed.

Lemma way_run i ls c c' w :
  server_ok registry c -> ids_le ids (identifiers_ (sv_state c)) -> sv_workers c !! i = Some w ->
  on_the_way st b r ids w (own i ls) ->
  server_run registry options diagnostics c ls = Some c' -> shutdown_ (sv_state c') = false ->
  server_ok registry c' /\ exists w', sv_workers c' !! i = Some w' /\ on_the_way st b r ids w' [].
Proof.
  revert c w. induction ls as [|l ls IH]; intros c w ok Hle Hw Hway Hr Hd'; cbn [server_run] in Hr.
  { injection Hr as <-. split; [done|]. by exists w. }
  destruct (server_step _ _ _ c l) as [c1|] eqn:Es; [|done].
  assert (Hd : shutdown_ (sv_state c) = false).
  { destruct (shutdown_ (sv_state c)) eqn:Hd; [|done].
    destruct (server_run_stops registry options diagnostics limits_ok c (l :: ls) c' Hd) as [_ ?]; [|congruence].
    cbn [server_run]. by rewrite Es. }
  pose proof (server_step_ok registry registry_ok options diagnostics limits_ok c l c1 ok Es) as ok1.
  pose proof (server_step_ids registry registry_ok options diagnostics limits_ok c l c1 ok Es) as Hle1.
  assert (Hle' : ids_le ids (identifiers_ (sv_state c1))) by (by trans (identifiers_ (sv_state c))).
  rewrite own_cons in Hway. destruct l as [j ev|]; cbn [server_step own_event] in Es, Hway.
  2: { injection Es as <-. by apply (IH _ w ok1 Hle'). }
  destruct (decide (j = i)) as [->|Hne]; cbn [option_list app] in Hway.
  - rewrite Hw in Es. destruct (worker_step _ _ _ _ _ _ _) as [[s' w']|] eqn:Est; [|done]. injection Es as <-.
    eapply (IH _ w' ok1 Hle'); [|by apply (way_step i c w ev (own i ls) s' w')|done|done].
    cbn. rewrite list_lookup_insert_eq; [done|]. by eapply lookup_lt_Some.
  - destruct (sv_workers c !! j) as [v|]; [|done].
    destruct (worker_step _ _ _ _ _ _ _) as [[s' v']|]; [|done]. injection Es as <-.
    eapply (IH _ w ok1 Hle'); [|done|done|done]. cbn. by rewrite list_lookup_insert_ne.
Qed.
End way.

(** C38: Requests are executed and answered.  Let worker [i] receive a payload that
    decodes to a request, pass its deadline checks, get the gate after any number of rounds
    of waiting, and run the guarded block, while the other workers take any steps in
    between and no stop is requested.  Then it has executed exactly that operation on its
    own session under the identifiers the others left, and the bytes it passes to the pipe
    are the encoding of that outcome under the request's identifier: the peer decodes them
    to exactly that outcome.  When they are sent, the request is counted as completed and
    the worker goes on serving.  With the gate free such a schedule exists. *)
Theorem request_answered (c : server Obj) i st b r rounds :
  registry_wf registry ->
  0 <= lim_values (opt_storage options) /\ 0 <= lim_objects (opt_storage options)
  /\ 0 <= lim_bytes (opt_storage options) ->
  server_ok registry c -> sv_workers c !! i = Some (Receiving st) ->
  objects_lawful registry (abs st) -> values_typed (abs st) -> decode_request b = inl r ->
  (forall ls c1, own i ls = request_events b rounds ->
     server_run registry options diagnostics c ls = Some c1 -> shutdown_ (sv_state c1) = false ->
     exists ids o st' ids' w p,
       ids_le (identifiers_ (sv_state c)) ids
       /\ execute registry st ids (req_body r) = Some (o, st', ids')
       /\ sv_workers c1 !! i = Some w /\ reply_payload w = Some p
       /\ decode_response p = inl {| resp_id := req_id r; resp_body := o; resp_version := version |}
       /\ forall sent, exists c2,
            server_step registry options diagnostics c1 (L_worker i (ev_send (inl sent))) = Some c2
            /\ sv_workers c2 = <[i := ServeHead st']> (sv_workers c1)
            /\ completed_ (sv_state c2) = completed_ (sv_state c1) ⊞ 1)
  /\ (shutdown_ (sv_state c) = false -> gate_ (sv_state c) = None ->
      exists c1, server_run registry options diagnostics c (L_worker i <$> request_events b rounds) = Some c1
        /\ shutdown_ (sv_state c1) = false).
Proof.
  intros Hr Hl ok Hw Hol Hvt Hb. destruct (request_decoded b r Hb) as ((Hid & Hv & _) & Hrange & Hidr & _).
  pose proof (typed_of_range _ Hrange) as Ht. split.
  - intros ls c1 Hown Hrun Hd1. pose proof (ids_le_refl _ (ok_ids _ c ok)) as Hle.
    destruct (way_run Hr Hl st b r Hb _ i ls c c1 (Receiving st) ok Hle Hw) as (ok1 & w & Hw1 & Hway);
      [rewrite Hown; constructor|done|done|].
    remember [] as evs eqn:E. destruct Hway as [n|n| |ids1 o st' ids2 Hle1 wf He]; [done|by destruct n|done|]. clear E.
    pose proof (execute_in_range registry Hr st _ _ _ _ _ wf Hol Hvt Ht (values_of_range _ Hrange) He) as Hin.
    destruct (ok_carried _ c1 ok1 i _ Hw1) as (_ & _ & Hok).
    destruct (reply_encoded (req_id r) o Hok Hid) as (p & Hp & _).
    assert (Hpay : reply_payload (Responding st' (inl (reply_to r o))) = Some p)
      by (unfold reply_payload, reply_to; by rewrite Hp).
    eexists ids1, o, st', ids2, _, p. split_and!; [done|done|exact Hw1|done| |].
    + apply (response_roundtrip _ p); [|done]. split; [done|]. split; [done|exact Hin].
    + intros sent. eexists. cbn [server_step]. rewrite Hw1. cbn [worker_step]. unfold dispatch_reply. rewrite Hpay.
      split; [reflexivity|]. by split.
  - intros Hd Hg. pose proof (lookup_lt_Some _ _ _ Hw) as Hlt. pose proof (ok_stores _ c ok i _ st Hw eq_refl) as wf.
    destruct (dispatch_carried registry Hr diagnostics st _ r wf Hid Hv Ht) as (o & st' & ids' & lines & Hdis & _).
    cbn [request_events fmap list_fmap server_run server_step]. rewrite Hw. cbn [worker_step serve_receive]. rewrite Hb.
    induction rounds as [|n IH]; cbn [replicate app fmap list_fmap server_run server_step sv_workers sv_state];
      rewrite list_lookup_insert_eq by done; cbn [worker_step]; unfold dispatch_wait, server_preflight; rewrite Hd.
    + rewrite Hg. cbn [sv_workers sv_state]. rewrite list_insert_insert_eq, list_lookup_insert_eq by done.
      cbn [worker_step]. unfold dispatch_locked, server_preflight. cbn [gate_ set_gate shutdown_ identifiers_].
      rewrite bool_decide_eq_true_2, Hd, Hdis by done. cbn [negb]. by eexists.
    + rewrite list_insert_insert_eq. exact IH.
Qed.
End answered.

(** ** A server with two workers over the built-in classes *)
Module ServerDemo.
#[local] Existing Instance utf8_reference.
#[local] Existing Instance utf8_reference_laws.
#[local] Existing Instance wire_protobuf.
#[local] Existing Instance wire_laws.
#[local] Existing Instance wire_sizes.

Definition options : server_options := {|
  opt_endpoint := default_endpoint; opt_request_timeout := default_timeout; opt_sessions := 2;
  opt_storage := default_limits |}.
Definition store : session_store builtin_object := new_session_store default_limits.
Definition idle : server builtin_object := {| sv_state := initial_state; sv_workers := [Looping; Looping] |}.
Definition serving : server builtin_object := {|
  sv_state := open_session initial_state; sv_workers := [Receiving store; Looping] |}.
Definition accept_one : list label :=
  [L_worker 0 ev_check; L_worker 0 (ev_accept (inl 0)); L_worker 0 ev_check].

Lemma started : start (Obj := builtin_object) options None [None; None] None = inl idle.
Proof. vm_compute. reflexivity. Qed.
Lemma accepted : server_run builtin_registry options true idle accept_one = Some serving.
Proof. reflexivity. Qed.

Lemma server_safe_witness : server_ok builtin_registry serving.
Proof.
  apply (server_safe builtin_registry options true None [None; None] None idle accept_one serving).
  - exact builtin_registry_wf.
  - discriminate.
  - discriminate.
  - discriminate.
  - discriminate.
  - exact started.
  - exact accepted.
Defined.

Lemma serving_ok : server_ok builtin_registry serving.
Proof.
  apply (server_run_ok builtin_registry builtin_registry_wf options true) with (c := idle) (ls := accept_one).
  - split_and!; done.
  - by apply (start_ok builtin_registry options None [None; None] None idle).
  - exact accepted.
Qed.

Definition stopping : server builtin_object := {|
  sv_state := request_stop (sv_state serving); sv_workers := sv_workers serving |}.
Lemma stopping_ok : server_ok builtin_registry stopping.
Proof.
  apply (server_run_ok builtin_registry builtin_registry_wf options true) with (c := serving) (ls := [L_request_stop]).
  - split_and!; done.
  - exact serving_ok.
  - reflexivity.
Qed.

Lemma server_stops_witness :
  exists ls' c'', server_run builtin_registry options true stopping ls' = Some c''
    /\ Forall (fun w => w = Stopped) (sv_workers c'').
Proof.
  destruct (server_stops builtin_registry options true stopping [] stopping) as (_ & _ & Hend).
  - exact builtin_registry_wf.
  - repeat split; discriminate.
  - exact stopping_ok.
  - reflexivity.
  - reflexivity.
  - exact Hend.
Defined.

(** Request 5 without an operation, as the first worker holds the gate. *)
Definition bad : failure := recoverable fc_invalid_fields 5.
Definition holding : server builtin_object := {|
  sv_state := set_gate (sv_state serving) (Some 0%nat); sv_workers := [Holding store (inr bad); Looping] |}.
Lemma holding_ok : server_ok builtin_registry holding.
Proof.
  apply (server_run_ok builtin_registry builtin_registry_wf options true) with (c := serving)
    (ls := [L_worker 0 (ev_receive (inl [Byte.x08; Byte.x01; Byte.x10; Byte.x05])); L_worker 0 (ev_gate false true)]).
  - split_and!; done.
  - exact serving_ok.
  - assert (Hd : decode_request [Byte.x08; Byte.x01; Byte.x10; Byte.x05] = inr bad) by (vm_compute; reflexivity).
    cbn [server_run server_step serving sv_workers lookup list_lookup worker_step serve_receive]. rewrite Hd. reflexivity.
Qed.

Lemma rejected_request_counted_witness :
  exists c', server_run builtin_registry options true holding
      [L_worker 0 (ev_locked false); L_worker 0 (ev_send (inl 40))] = Some c'
    /\ protocol_errors_ (sv_state c') = 1 /\ completed_ (sv_state c') = 1
    /\ sv_workers c' !! 0%nat = Some (ServeHead store).
Proof.
  apply (rejected_request_counted builtin_registry options true holding 0 store bad
    {| resp_id := 5; resp_body := fail invalid_request; resp_version := 1 |} 40).
  - exact holding_ok.
  - reflexivity.
  - reflexivity.
  - reflexivity.
Defined.

Definition put_payload : bytes :=
  [Byte.x08; Byte.x01; Byte.x10; Byte.x01; Byte.x62; Byte.x04; Byte.x0a; Byte.x02; Byte.x10; Byte.x01].

(** The second worker accepts a client while the first waits for the gate. *)
Definition busy : list label :=
  [L_worker 0 (ev_receive (inl put_payload)); L_worker 1 ev_check; L_worker 0 (ev_gate false false);
   L_worker 0 (ev_gate false true); L_worker 1 (ev_accept (inl 0)); L_worker 0 (ev_locked false)].

Lemma request_answered_witness :
  exists c1 ids o st' ids' w p,
    server_run builtin_registry options true serving busy = Some c1
    /\ execute builtin_registry store ids (put_value (Integer (-1))) = Some (o, st', ids')
    /\ sv_workers c1 !! 0%nat = Some w /\ reply_payload w = Some p
    /\ decode_response p = inl {| resp_id := 1; resp_body := o; resp_version := version |}.
Proof.
  destruct (request_answered builtin_registry options true serving 0 store put_payload
    {| req_id := 1; req_body := put_value (Integer (-1)); req_version := 1 |} 1) as [Hrun _].
  - exact builtin_registry_wf.
  - repeat split; discriminate.
  - exact serving_ok.
  - reflexivity.
  - intros id d x Hl. cbn in Hl. rewrite fmap_empty in Hl. discriminate Hl.
  - intros id v Hl. discriminate Hl.
  - vm_compute. reflexivity.
  - destruct (server_run builtin_registry options true serving busy) as [c1|] eqn:Ebusy.
    + assert (Hd : shutdown_ (sv_state c1) = false).
      { assert (Hc : (fun c : server builtin_object => shutdown_ (sv_state c))
            <$> server_run builtin_registry options true serving busy = Some false) by (vm_compute; reflexivity).
        rewrite Ebusy in Hc. injection Hc as Hc. exact Hc. }
      destruct (Hrun busy c1 eq_refl Ebusy Hd) as (ids & o & st' & ids' & w & p & _ & He & Hw & Hp & Hdec & _).
      exists c1, ids, o, st', ids', w, p. repeat split; assumption.
    + assert (Hc : is_Some (server_run builtin_registry options true serving busy)).
      { apply not_eq_None_Some. vm_compute. discriminate. }
      rewrite Ebusy in Hc. destruct Hc as [x Hx]. discriminate Hx.
Defined.
End ServerDemo.
