(* ===== verification/Client.v ===== *)
(** * The client connection (src/client/client.cpp, include/pipeforge/client.hpp)

    [connection_state] as a step system.  All its members are protected by one mutex, so
    a step is one critical section of the caller, the writer, the reader or the monitor,
    with the answers of its environment: the channel, the clock and the stop tokens.
    A [pending_call] is shared between the map [pending_], the deque [queued_] and the
    writer; the calls are therefore a heap [calls_] indexed by the request identifier,
    and the containers hold identifiers.  A promise can be completed once: completing it
    again is the fatal [std::future_error], the result [Fatal]. *)
From stdpp Require Import prelude gmap strings sorting.
From Stdlib Require Import ZArith Lia.
From S2P Require Import Prelude Diagnostics Utf8 Contracts Validation Framing Transport Messages Codec Store.

Definition max_pending_calls : Z := 16.

Inductive c_kind :=
  | ck_invalid_request
  | ck_not_connected
  | ck_quota_exceeded
  | ck_timeout
  | ck_cancelled
  | ck_disconnected
  | ck_access_denied
  | ck_protocol_violation
  | ck_transport_failure
  | ck_internal_failure.

Record c_failure := { c_failure_kind : c_kind; c_native_error : Z }.
Definition c_fail (kind : c_kind) : c_failure := {| c_failure_kind := kind; c_native_error := 0 |}.

Abbreviation connect_result := (unit + c_failure)%type.
Abbreviation call_result := (response + c_failure)%type.

Definition translate (error : t_failure) : c_failure :=
  {| c_failure_kind :=
       match t_kind error with
       | fk_timeout => ck_timeout
       | fk_cancelled => ck_cancelled
       | fk_disconnected => ck_disconnected
       | fk_access_denied => ck_access_denied
       | fk_protocol_violation => ck_protocol_violation
       | fk_invalid_configuration => ck_invalid_request
       | fk_io_failure => ck_transport_failure
       end;
     c_native_error := t_native_error error |}.

(** Whether an outcome can answer an operation. *)
Definition matches (op : operation) (o : outcome) : bool :=
  match o with
  | o_error _ => true
  | _ =>
      match op, o with
      | list_classes _ _, o_classes _ => true
      | describe_class name, o_description d => bool_decide (desc_name d = name)
      | put_value data, o_record r => value_eqb (vr_data r) data
      | get_value id, o_record r => vr_id r =? id
      | list_values _ _, o_values _ => true
      | create_object class_name _, o_object s => bool_decide (snap_class_name s = class_name)
      | get_object id, o_object s => snap_id s =? id
      | release_object _, o_released => true
      | get_attribute _ _, o_value _ => true
      | invoke_method _ _ _, o_value _ => true
      | _, _ => false
      end
  end.

(** ** State *)
Inductive phase := ph_queued | ph_writing | ph_sent.

Record pending_call := {
  pc_request : request;
  pc_encoded : bytes;
  pc_progress : phase;
  pc_promise : option call_result;
}.

(** Where the three threads are. *)
Inductive writer_pc := W_none | W_opening | W_idle | W_sending (id : Z) | W_done.
Inductive reader_pc := R_none | R_waiting | R_head | R_receiving | R_logging (id : Z) | R_done.
Inductive monitor_pc := M_none | M_waiting | M_watching | M_done.

Record client := {
  calls_ : gmap Z pending_call;
  pending_ : gset Z;
  queued_ : list Z;
  next_id_ : Z;
  started_ : bool;
  connected_ : bool;
  opening_done_ : bool;
  closed_ : bool;
  c_shutdown_ : bool;
  channel_ : bool;
  opening_ : option connect_result;
  writer_ : writer_pc;
  reader_ : reader_pc;
  monitor_ : monitor_pc;
  c_log_ : list (log_level * string);      (* handed to [diagnostics_->log] *)
}.

Definition new_client : client := {|
  calls_ := ∅; pending_ := ∅; queued_ := []; next_id_ := 1; started_ := false; connected_ := false;
  opening_done_ := false; closed_ := false; c_shutdown_ := false; channel_ := false; opening_ := None;
  writer_ := W_none; reader_ := R_none; monitor_ := M_none; c_log_ := [] |}.

Definition set_calls (c : client) calls pending queued : client := {|
  calls_ := calls; pending_ := pending; queued_ := queued; next_id_ := next_id_ c; started_ := started_ c;
  connected_ := connected_ c; opening_done_ := opening_done_ c; closed_ := closed_ c;
  c_shutdown_ := c_shutdown_ c; channel_ := channel_ c; opening_ := opening_ c;
  writer_ := writer_ c; reader_ := reader_ c; monitor_ := monitor_ c; c_log_ := c_log_ c |}.
Definition set_next_id (c : client) id : client := {|
  calls_ := calls_ c; pending_ := pending_ c; queued_ := queued_ c; next_id_ := id; started_ := started_ c;
  connected_ := connected_ c; opening_done_ := opening_done_ c; closed_ := closed_ c;
  c_shutdown_ := c_shutdown_ c; channel_ := channel_ c; opening_ := opening_ c;
  writer_ := writer_ c; reader_ := reader_ c; monitor_ := monitor_ c; c_log_ := c_log_ c |}.
Definition set_flags (c : client) started connected opening_done closed shutdown channel opening : client := {|
  calls_ := calls_ c; pending_ := pending_ c; queued_ := queued_ c; next_id_ := next_id_ c;
  started_ := started; connected_ := connected; opening_done_ := opening_done; closed_ := closed;
  c_shutdown_ := shutdown; channel_ := channel; opening_ := opening;
  writer_ := writer_ c; reader_ := reader_ c; monitor_ := monitor_ c; c_log_ := c_log_ c |}.
Definition set_threads (c : client) w r m : client := {|
  calls_ := calls_ c; pending_ := pending_ c; queued_ := queued_ c; next_id_ := next_id_ c;
  started_ := started_ c; connected_ := connected_ c; opening_done_ := opening_done_ c; closed_ := closed_ c;
  c_shutdown_ := c_shutdown_ c; channel_ := channel_ c; opening_ := opening_ c;
  writer_ := w; reader_ := r; monitor_ := m; c_log_ := c_log_ c |}.
Definition add_client_log (c : client) line : client := {|
  calls_ := calls_ c; pending_ := pending_ c; queued_ := queued_ c; next_id_ := next_id_ c;
  started_ := started_ c; connected_ := connected_ c; opening_done_ := opening_done_ c; closed_ := closed_ c;
  c_shutdown_ := c_shutdown_ c; channel_ := channel_ c; opening_ := opening_ c;
  writer_ := writer_ c; reader_ := reader_ c; monitor_ := monitor_ c; c_log_ := c_log_ c ++ [line] |}.
Definition set_writer (c : client) w : client := set_threads c w (reader_ c) (monitor_ c).
Definition set_reader (c : client) r : client := set_threads c (writer_ c) r (monitor_ c).
Definition set_monitor (c : client) m : client := set_threads c (writer_ c) (reader_ c) m.

(** ** Promises *)
Definition with_promise (e : pending_call) (r : call_result) : pending_call := {|
  pc_request := pc_request e; pc_encoded := pc_encoded e; pc_progress := pc_progress e;
  pc_promise := Some r |}.
Definition with_progress (e : pending_call) (p : phase) : pending_call := {|
  pc_request := pc_request e; pc_encoded := pc_encoded e; pc_progress := p; pc_promise := pc_promise e |}.

(** [promise.set_value]; [None] is the fatal second completion. *)
Definition set_value (calls : gmap Z pending_call) (id : Z) (r : call_result) : option (gmap Z pending_call) :=
  match calls !! id with
  | Some e => match pc_promise e with None => Some (<[id := with_promise e r]> calls) | Some _ => None end
  | None => None
  end.

Fixpoint set_values (calls : gmap Z pending_call) (ids : list Z) (r : Z -> call_result)
  : option (gmap Z pending_call) :=
  match ids with
  | [] => Some calls
  | id :: rest =>
      match set_value calls id (r id) with
      | None => None
      | Some calls' => set_values calls' rest r
      end
  end.

(** The keys of [pending_] in map order. *)
Definition pending_ids (c : client) : list Z := merge_sort Z.le (elements (pending_ c)).

(** [fail_locked]: [None] is fatal. *)
Definition fail_locked (c : client) (common : c_failure) (specific_id : Z) (specific : c_failure) : option client :=
  if closed_ c then Some c
  else
    let opening := started_ c && negb (opening_done_ c) in
    match (if opening then match opening_ c with Some _ => None | None => Some (Some (inr common)) end
           else Some (opening_ c)) with
    | None => None
    | Some promise =>
        match set_values (calls_ c) (pending_ids c)
                (fun id => inr (if id =? specific_id then specific else common)) with
        | None => None
        | Some calls =>
            Some (set_calls (set_flags c (started_ c) (connected_ c) (opening_done_ c || opening) true true
                               (channel_ c) promise) calls ∅ [])
        end
    end.

Definition fail_all (c : client) (common : c_failure) : option client :=
  fail_locked c common 0 (c_fail ck_transport_failure).

(** ** Steps *)
Inductive stepped := Step (c : client) | Blocked | Fatal.
Definition step_of (o : option client) : stepped := match o with Some c => Step c | None => Fatal end.
Definition then_writer (o : option client) (w : writer_pc) : stepped :=
  step_of (option_map (fun c => set_writer c w) o).
Definition then_reader (o : option client) (r : reader_pc) : stepped :=
  step_of (option_map (fun c => set_reader c r) o).
Definition then_monitor (o : option client) (m : monitor_pc) : stepped :=
  step_of (option_map (fun c => set_monitor c m) o).

Definition cause (cancelled : bool) : c_failure := c_fail (if cancelled then ck_cancelled else ck_timeout).

(** A future is already completed, or is the one of an admitted call. *)
Inductive future := Ready (r : call_result) | Later (id : Z).

Section client.
Context `{Utf8Ops} `{Protobuf}.

(** [connect_async]: the connector is present, the endpoint; then the stop token, the
    clock and the creation of the threads, which the system can refuse after a number of
    them exist.  The first component is the failure of a
    future that is already completed; otherwise the future is the one of [opening_]. *)
Definition started_threads (c : client) (created : nat) : client :=
  set_threads c (if (1 <=? created)%nat then W_opening else writer_ c)
    (if (2 <=? created)%nat then R_waiting else reader_ c) (if (3 <=? created)%nat then M_waiting else monitor_ c).

Definition connect_async (c : client) (open : bool) (endpoint : wstring) (cancelled expired : bool)
    (threads : option (nat * Z)) : option c_failure * stepped :=
  if started_ c || closed_ c || negb open || negb (valid_endpoint endpoint)
  then (Some (c_fail ck_invalid_request), Step c)
  else
    let c1 := set_flags c true (connected_ c) (opening_done_ c) (closed_ c) (c_shutdown_ c) (channel_ c)
                (opening_ c) in
    (None,
     if cancelled || expired then step_of (fail_all c1 (cause cancelled))
     else
       match threads with
       | Some (created, code) =>
           step_of (fail_all (started_threads c1 created)
                      {| c_failure_kind := ck_internal_failure; c_native_error := code |})
       | None => Step (started_threads c1 3)
       end).

Definition call_async (c : client) (op : operation) (cancelled expired : bool) : future * client :=
  if negb (connected_ c) || closed_ c then (Ready (inr (c_fail ck_not_connected)), c)
  else if cancelled then (Ready (inr (c_fail ck_cancelled)), c)
  else if expired then (Ready (inr (c_fail ck_timeout)), c)
  else if (max_pending_calls <=? Z.of_nat (size (pending_ c))) || (next_id_ c =? u64_max)
  then (Ready (inr (c_fail ck_quota_exceeded)), c)
  else
    let request := {| req_id := next_id_ c; req_body := op; req_version := version |} in
    match encode_request request with
    | inr _ => (Ready (inr (c_fail ck_invalid_request)), c)
    | inl encoded =>
        let id := next_id_ c in
        (Later id,
         set_calls (set_next_id c (next_id_ c ⊞ 1))
           (<[id := {| pc_request := request; pc_encoded := encoded; pc_progress := ph_queued;
                       pc_promise := None |}]> (calls_ c))
           ({[id]} ∪ pending_ c) (queued_ c ++ [id]))
    end.

(** [close], and the stop token of the connection attempt while it is running. *)
Definition close_client (c : client) : stepped := step_of (fail_all c (c_fail ck_cancelled)).
Definition connect_stop (c : client) : stepped :=
  match writer_ c with
  | W_opening => Step (set_flags c (started_ c) (connected_ c) (opening_done_ c) (closed_ c) true (channel_ c)
                         (opening_ c))
  | _ => Blocked
  end.

(** [write_loop]: the connector returned a channel (or a null one) or a failure. *)
Definition writer_opened (c : client) (opened : bool + t_failure) (expired : bool) : stepped :=
  match writer_ c with
  | W_opening =>
      match opened with
      | inr error => then_writer (fail_all c (translate error)) W_done
      | inl channel =>
          let c1 := set_flags c (started_ c) (connected_ c) (opening_done_ c) (closed_ c) (c_shutdown_ c) channel
                      (opening_ c) in
          if closed_ c1 then Step (set_writer c1 W_done)
          else if negb channel then then_writer (fail_all c1 (c_fail ck_internal_failure)) W_done
          else if c_shutdown_ c1 then then_writer (fail_all c1 (c_fail ck_cancelled)) W_done
          else if expired then then_writer (fail_all c1 (c_fail ck_timeout)) W_done
          else
            match opening_ c1 with
            | Some _ => Fatal
            | None =>
                Step (set_writer (set_flags c1 (started_ c1) true true (closed_ c1) (c_shutdown_ c1) (channel_ c1)
                                    (Some (inl tt))) W_idle)
            end
      end
  | _ => Blocked
  end.

(** The writer takes the first queued call. *)
Definition writer_pick (c : client) (cancelled expired : bool) : stepped :=
  match writer_ c with
  | W_idle =>
      if closed_ c then Step (set_writer c W_done)
      else
        match queued_ c with
        | [] => Blocked
        | id :: queued =>
            if cancelled || expired then
              match set_value (calls_ c) id (inr (cause cancelled)) with
              | None => Fatal
              | Some calls => Step (set_calls c calls (pending_ c ∖ {[id]}) queued)
              end
            else
              Step (set_writer (set_calls c (alter (fun e => with_progress e ph_writing) id (calls_ c))
                                  (pending_ c) queued) (W_sending id))
        end
  | _ => Blocked
  end.

(** [channel_->send] returned. *)
Definition writer_sent (c : client) (sent : Z + t_failure) : stepped :=
  match writer_ c with
  | W_sending id =>
      if closed_ c then Step (set_writer c W_done)
      else
        match sent with
        | inr error => then_writer (fail_locked c (c_fail ck_disconnected) id (translate error)) W_done
        | inl _ =>
            if bool_decide (id ∈ pending_ c)
            then Step (set_writer (set_calls c (alter (fun e => with_progress e ph_sent) id (calls_ c))
                                     (pending_ c) (queued_ c)) W_idle)
            else Step (set_writer c W_idle)
        end
  | _ => Blocked
  end.

(** [wait_connected]: whether the wait is over, and then its answer. *)
Definition wait_connected (c : client) : option bool :=
  if connected_ c || closed_ c then Some (negb (closed_ c)) else None.

(** [read_loop]: [wait_connected], the loop condition, and a received payload; the two
    flags are the stop token and the clock for the call it answers. *)
Definition reader_connected (c : client) : stepped :=
  match reader_ c with
  | R_waiting =>
      match wait_connected c with
      | None => Blocked
      | Some open => Step (set_reader c (if open then R_head else R_done))
      end
  | _ => Blocked
  end.

Definition reader_check (c : client) : stepped :=
  match reader_ c with
  | R_head => Step (set_reader c (if c_shutdown_ c then R_done else R_receiving))
  | _ => Blocked
  end.

Definition is_queued (p : phase) : bool := match p with ph_queued => true | _ => false end.

Definition reader_received (c : client) (payload : bytes + t_failure) (cancelled expired : bool) : stepped :=
  match reader_ c with
  | R_receiving =>
      if closed_ c then Step (set_reader c R_done)
      else
        match payload with
        | inr error => then_reader (fail_all c (translate error)) R_done
        | inl payload =>
            match decode_response payload with
            | inr _ => then_reader (fail_all c (c_fail ck_protocol_violation)) R_done
            | inl r =>
                let found := if bool_decide (resp_id r ∈ pending_ c) then calls_ c !! resp_id r else None in
                match found with
                | None => then_reader (fail_all c (c_fail ck_protocol_violation)) R_done
                | Some entry =>
                    if is_queued (pc_progress entry) || negb (matches (req_body (pc_request entry)) (resp_body r))
                    then then_reader (fail_all c (c_fail ck_protocol_violation)) R_done
                    else if cancelled || expired
                    then then_reader (fail_locked c (c_fail ck_disconnected) (resp_id r) (cause cancelled)) R_done
                    else
                      match set_value (calls_ c) (resp_id r) (inl r) with
                      | None => Fatal
                      | Some calls =>
                          Step (set_reader (set_calls c calls (pending_ c ∖ {[resp_id r]}) (queued_ c))
                                  (R_logging (resp_id r)))
                      end
                end
            end
        end
  | _ => Blocked
  end.

(** The debug line of a completed response, written outside the mutex. *)
Definition response_line (id : Z) : log_level * string :=
  (level_debug, "client response id=" +:+ to_string id).
Definition reader_logged (c : client) : stepped :=
  match reader_ c with
  | R_logging id => Step (set_reader (add_client_log c (response_line id)) R_head)
  | _ => Blocked
  end.

(** [monitor_loop]: one sweep over the pending calls; [probe] is the stop token and the
    clock for each of them. *)
Fixpoint sweep (c : client) (probe : Z -> bool * bool) (ids : list Z) : stepped :=
  match ids with
  | [] => Step c
  | id :: rest =>
      let '(cancelled, expired) := probe id in
      if cancelled || expired then
        match calls_ c !! id with
        | None => Fatal
        | Some entry =>
            if negb (is_queued (pc_progress entry))
            then then_monitor (fail_locked c (c_fail ck_disconnected) id (cause cancelled)) M_done
            else
              match set_value (calls_ c) id (inr (cause cancelled)) with
              | None => Fatal
              | Some calls =>
                  sweep (set_calls c calls (pending_ c ∖ {[id]}) (filter (fun q => q <> id) (queued_ c))) probe rest
              end
        end
      else sweep c probe rest
  end.

Definition monitor_step (c : client) (probe : Z -> bool * bool) : stepped :=
  match monitor_ c with
  | M_waiting =>
      match wait_connected c with
      | None => Blocked
      | Some open => Step (set_monitor c (if open then M_watching else M_done))
      end
  | M_watching => if closed_ c then Step (set_monitor c M_done) else sweep c probe (pending_ids c)
  | _ => Blocked
  end.

(** ** Runs *)
Inductive c_event :=
  | ce_connect (open : bool) (endpoint : wstring) (cancelled expired : bool) (threads : option (nat * Z))
  | ce_call (op : operation) (cancelled expired : bool)
  | ce_close
  | ce_connect_stop
  | ce_opened (opened : bool + t_failure) (expired : bool)
  | ce_pick (cancelled expired : bool)
  | ce_sent (sent : Z + t_failure)
  | ce_reader_connected
  | ce_reader_check
  | ce_received (payload : bytes + t_failure) (cancelled expired : bool)
  | ce_logged
  | ce_monitor (probe : Z -> bool * bool).

Definition client_step (c : client) (ev : c_event) : stepped :=
  match ev with
  | ce_connect open endpoint cancelled expired threads => (connect_async c open endpoint cancelled expired threads).2
  | ce_call op cancelled expired => Step (call_async c op cancelled expired).2
  | ce_close => close_client c
  | ce_connect_stop => connect_stop c
  | ce_opened opened expired => writer_opened c opened expired
  | ce_pick cancelled expired => writer_pick c cancelled expired
  | ce_sent sent => writer_sent c sent
  | ce_reader_connected => reader_connected c
  | ce_reader_check => reader_check c
  | ce_received payload cancelled expired => reader_received c payload cancelled expired
  | ce_logged => reader_logged c
  | ce_monitor probe => monitor_step c probe
  end.

Fixpoint client_run (c : client) (evs : list c_event) : stepped :=
  match evs with
  | [] => Step c
  | ev :: rest => match client_step c ev with Step c' => client_run c' rest | r => r end
  end.
End client.
