(* ===== verification/ClientProofs.v ===== *)
(** * What a caller of the client can rely on

    The invariant of the step system of Client.v: an admitted call is pending or its
    promise is completed, never both; the queue holds exactly the pending calls whose
    writing has not begun; a completed response carries the identifier of its call and
    can answer its operation.  So no promise is completed twice, and closing completes
    all of them. *)
From stdpp Require Import prelude gmap strings sorting.
From Stdlib Require Import ZArith Lia.
From S2P Require Import Prelude Diagnostics Utf8 Contracts Validation Framing Transport Messages Codec CodecProofs CodecSpec Wire WireProofs Registry Store StoreProofs StoreSpec Builtins Client.

Lemma wait_connected_eq c :
  wait_connected c = if closed_ c then Some false else if connected_ c then Some true else None.
Proof. unfold wait_connected. by destruct (connected_ c), (closed_ c). Qed.

(** ** Calls *)
Section calls.
Context `{Utf8Ops} `{Protobuf}.

(** A result that may complete a call. *)
Definition may_complete (e : pending_call) (r : call_result) : Prop :=
  match r with
  | inl resp =>
      resp_id resp = req_id (pc_request e) /\ matches (req_body (pc_request e)) (resp_body resp) = true
      /\ pc_progress e <> ph_queued
  | inr _ => True
  end.

Definition entry_ok (next : Z) (id : Z) (e : pending_call) : Prop :=
  (req_id (pc_request e) = id /\ req_version (pc_request e) = version) /\ encode_request (pc_request e) = inl (pc_encoded e) /\ 1 <= id < next
  /\ forall r, pc_promise e = Some r -> may_complete e r.

Record calls_ok (calls : gmap Z pending_call) (pending : gset Z) (queued : list Z) (next : Z) : Prop := {
  co_pending id : id ∈ pending <-> exists e, calls !! id = Some e /\ pc_promise e = None;
  co_entry id e : calls !! id = Some e -> entry_ok next id e;
  co_nodup : NoDup queued;
  co_queue id :
    id ∈ queued <-> exists e, calls !! id = Some e /\ pc_promise e = None /\ pc_progress e = ph_queued;
  co_size : Z.of_nat (size pending) <= max_pending_calls;
  co_next : 1 <= next <= u64_max;
}.

Implicit Types (calls : gmap Z pending_call) (pending : gset Z) (queued : list Z).

Lemma set_value_pending calls pending queued next id r :
  calls_ok calls pending queued next -> id ∈ pending ->
  exists e, calls !! id = Some e /\ set_value calls id r = Some (<[id := with_promise e r]> calls).
Proof.
  intros ok Hid. apply (co_pending _ _ _ _ ok) in Hid as (e & He & Hp). exists e. split; [done|].
  unfold set_value. by rewrite He, Hp.
Qed.

(** Completing a pending call takes it out of the map and of the queue. *)
Lemma settle_ok calls pending queued next id e r :
  calls_ok calls pending queued next -> calls !! id = Some e -> id ∈ pending -> may_complete e r ->
  calls_ok (<[id := with_promise e r]> calls) (pending ∖ {[id]}) (filter (fun q => q <> id) queued) next.
Proof.
  intros ok He Hid Hr. destruct ok as [Hp Hen Hnd Hq Hsz Hnx]. split.
  - intros j. rewrite elem_of_difference, elem_of_singleton, Hp. destruct (decide (id = j)) as [<-|Hne].
    + rewrite lookup_insert_eq. split; [tauto|]. intros (e' & [= <-] & Hn). discriminate Hn.
    + rewrite lookup_insert_ne by done. intuition.
  - intros j e' Hj. apply lookup_insert_Some in Hj as [[<- <-]|[_ Hj]]; [|by apply Hen].
    destruct (Hen id e He) as (H1' & H2' & H3' & _). do 3 (split; [done|]). by intros r' [= <-].
  - by apply NoDup_filter.
  - intros j. rewrite list_elem_of_filter, Hq. destruct (decide (id = j)) as [<-|Hne].
    + rewrite lookup_insert_eq. split; [tauto|]. intros (e' & [= <-] & Hn & _). discriminate Hn.
    + rewrite lookup_insert_ne by done. intuition.
  - etrans; [|exact Hsz]. apply inj_le, subseteq_size. set_solver.
  - done.
Qed.

Lemma alter_progress_ok calls pending queued queued' next id p :
  calls_ok calls pending queued next -> p <> ph_queued -> NoDup queued' ->
  (forall j, j ∈ queued' <-> j ∈ queued /\ j <> id) ->
  calls_ok (alter (fun e => with_progress e p) id calls) pending queued' next.
Proof.
  intros ok Hph Hnd' Hq'. destruct ok as [Hp Hen Hnd Hq Hsz Hnx].
  assert (Hl : forall j e, alter (fun e => with_progress e p) id calls !! j = Some e <->
    exists e0, calls !! j = Some e0 /\ e = if decide (id = j) then with_progress e0 p else e0).
  { intros j e. destruct (decide (id = j)) as [<-|Hne].
    - rewrite lookup_alter_eq, fmap_Some. done.
    - rewrite lookup_alter_ne by done. split; [eauto|]. by intros (e0 & He & ->). }
  split; [| | | |done|done].
  - intros j. rewrite Hp. setoid_rewrite Hl. split.
    + intros (e & He & Hn). eexists. split; [by exists e|]. by case_decide.
    + intros (e & (e0 & He & ->) & Hn). exists e0. split; [done|]. by case_decide.
  - intros j e Hj. apply Hl in Hj as (e0 & He & ->). destruct (Hen j e0 He) as (H1' & H2' & H3' & H4').
    case_decide; [|done]. do 3 (split; [done|]). intros r Hr. specialize (H4' r Hr). destruct r; [|done].
    destruct H4' as (? & ? & _). by split_and!.
  - done.
  - intros j. rewrite Hq', Hq. setoid_rewrite Hl. split.
    + intros [(e & He & Hn & Hpr) Hne]. eexists. split; [by exists e|]. by rewrite decide_False.
    + intros (e & (e0 & He & ->) & Hn & Hpr). case_decide; [done|]. split; [by exists e0|done].
Qed.

Lemma admit_ok calls pending queued next req enc :
  calls_ok calls pending queued next -> Z.of_nat (size pending) < max_pending_calls -> next <> u64_max ->
  req_id req = next -> req_version req = version -> encode_request req = inl enc ->
  calls_ok (<[next := {| pc_request := req; pc_encoded := enc; pc_progress := ph_queued; pc_promise := None |}]> calls)
    ({[next]} ∪ pending) (queued ++ [next]) (next + 1).
Proof.
  intros ok Hlt Hmax Hid Hver Henc. destruct ok as [Hp Hen Hnd Hq Hsz Hnx].
  assert (Hfresh : calls !! next = None).
  { destruct (calls !! next) as [e|] eqn:E; [|done]. destruct (Hen next e E) as (_ & _ & Hr & _). lia. }
  assert (Hnp : next ∉ pending) by (rewrite Hp; intros (e & He & _); congruence).
  assert (Hnq : next ∉ queued) by (rewrite Hq; intros (e & He & _); congruence).
  split.
  - intros j. rewrite elem_of_union, elem_of_singleton, Hp. destruct (decide (next = j)) as [<-|Hne].
    + rewrite lookup_insert_eq. split; [intros _; by eexists|by left].
    + rewrite lookup_insert_ne by done. split; [by intros [?|?]|by right].
  - intros j e Hj. apply lookup_insert_Some in Hj as [[<- <-]|[_ Hj]].
    + split_and!; [done|done|done|lia|lia|done].
    + destruct (Hen j e Hj) as ([H1' H1''] & H2' & H3' & H4'). split_and!; [done|done|done|lia|lia|done].
  - apply NoDup_app. split_and!; [done|set_solver|apply NoDup_singleton].
  - intros j. rewrite elem_of_app, list_elem_of_singleton, Hq. destruct (decide (next = j)) as [<-|Hne].
    + rewrite lookup_insert_eq. split; [intros _; by eexists|by right].
    + rewrite lookup_insert_ne by done. split; [by intros [?|?]|by left].
  - rewrite size_union by set_solver. rewrite size_singleton. unfold max_pending_calls in *. lia.
  - lia.
Qed.

Lemma set_values_ok calls pending queued next ids (r : Z -> c_failure) :
  calls_ok calls pending queued next -> NoDup ids -> (forall id, id ∈ ids -> id ∈ pending) ->
  exists calls' queued', set_values calls ids (fun id => inr (r id)) = Some calls'
    /\ calls_ok calls' (pending ∖ list_to_set ids) queued' next
    /\ forall id, calls' !! id = if decide (id ∈ ids) then ((fun e => with_promise e (inr (r id))) <$> calls !! id)
                                else calls !! id.
Proof.
  intros ok Hnd. revert calls pending queued ok. induction Hnd as [|id ids Hni Hnd IH]; intros calls pending queued ok Hin.
  - exists calls, queued. split; [done|]. split; [|done]. by replace (pending ∖ list_to_set []) with pending by set_solver.
  - destruct (set_value_pending calls pending queued next id (inr (r id)) ok) as (e & He & Hs); [set_solver|].
    pose proof (settle_ok calls pending queued next id e (inr (r id)) ok He ltac:(set_solver) I) as ok1.
    destruct (IH _ _ _ ok1) as (calls' & queued' & Hsv & ok' & Hl); [set_solver|].
    exists calls', queued'. cbn [set_values]. rewrite Hs. split; [done|]. split.
    + by replace (pending ∖ list_to_set (id :: ids)) with (pending ∖ {[id]} ∖ list_to_set ids) by set_solver.
    + intros j. rewrite Hl. destruct (decide (id = j)) as [<-|Hne].
      * rewrite decide_False, decide_True by set_solver. by rewrite lookup_insert_eq, He.
      * rewrite lookup_insert_ne by done. destruct (decide (j ∈ ids)); [rewrite decide_True by set_solver; done|].
        by rewrite decide_False by set_solver.
Qed.
End calls.

(** ** The invariant *)
Section invariant.
Context `{Utf8Ops} `{Protobuf}.

Record client_ok (c : client) : Prop := {
  ck_calls : calls_ok (calls_ c) (pending_ c) (queued_ c) (next_id_ c);
  ck_opening : opening_done_ c = has_value (opening_ c);
  ck_started : started_ c = false -> opening_ c = None /\ connected_ c = false /\ writer_ c = W_none;
  ck_connected : connected_ c = true -> opening_ c = Some (inl tt);
  ck_closed :
    closed_ c = true ->
    pending_ c = ∅ /\ c_shutdown_ c = true /\ (started_ c = true -> is_Some (opening_ c));
  ck_writer : writer_ c = W_opening -> closed_ c = false -> opening_ c = None;
  ck_sending id : writer_ c = W_sending id -> (id ∉ queued_ c) /\ id < next_id_ c;
}.

Lemma new_client_ok : client_ok new_client.
Proof.
  split; try done. split; cbn; try done.
  - intros id. split; [set_solver|]. by intros (e & He & _).
  - constructor.
  - intros id. split; [by intros ?%elem_of_nil|]. by intros (e & He & _).
Qed.

Lemma pending_ids_spec c id : id ∈ pending_ids c <-> id ∈ pending_ c.
Proof. unfold pending_ids. by rewrite merge_sort_Permutation, elem_of_elements. Qed.
Lemma pending_ids_nodup c : NoDup (pending_ids c).
Proof. unfold pending_ids. rewrite merge_sort_Permutation. apply NoDup_elements. Qed.

(** How the calls look after a failure of the connection. *)
Definition failed_as (c c' : client) (common : c_failure) (sid : Z) (specific : c_failure) : Prop :=
  forall id, calls_ c' !! id =
    if decide (id ∈ pending_ c)
    then ((fun e => with_promise e (inr (if id =? sid then specific else common))) <$> calls_ c !! id)
    else calls_ c !! id.

Lemma fail_locked_ok c common sid specific :
  client_ok c -> closed_ c = false ->
  exists c', fail_locked c common sid specific = Some c' /\ client_ok c' /\ closed_ c' = true
    /\ pending_ c' = ∅ /\ failed_as c c' common sid specific
    /\ opening_ c' = (if started_ c && negb (opening_done_ c) then Some (inr common) else opening_ c)
    /\ started_ c' = started_ c /\ writer_ c' = writer_ c /\ next_id_ c' = next_id_ c.
Proof.
  intros ok Hc. destruct (set_values_ok (calls_ c) (pending_ c) (queued_ c) (next_id_ c) (pending_ids c)
    (fun id => if id =? sid then specific else common) (ck_calls c ok) (pending_ids_nodup c))
    as (calls' & queued' & Hs & okc & Hl); [intros id; apply pending_ids_spec|].
  assert (Hempty : pending_ c ∖ list_to_set (pending_ids c) = ∅).
  { apply set_eq. intros id. rewrite elem_of_difference, elem_of_list_to_set, pending_ids_spec. set_solver. }
  rewrite Hempty in okc.
  assert (Hq : queued' = []).
  { destruct queued' as [|q l]; [done|]. assert (Hin : q ∈ q :: l) by set_solver.
    apply (co_queue _ _ _ _ okc) in Hin as (e & He & Hn & _).
    assert (q ∈ (∅ : gset Z)) by (apply (co_pending _ _ _ _ okc); eauto). set_solver. }
  subst queued'. unfold fail_locked. rewrite Hc.
  assert (Hop : (if started_ c && negb (opening_done_ c)
    then match opening_ c with Some _ => None | None => Some (Some (inr common)) end else Some (opening_ c))
    = Some (if started_ c && negb (opening_done_ c) then Some (inr common) else opening_ c)).
  { pose proof (ck_opening c ok) as Ho. destruct (started_ c); [|done]. cbn [andb].
    destruct (opening_done_ c) eqn:Ed; [done|]. cbn [negb]. by destruct (opening_ c). }
  rewrite Hop, Hs. eexists. split; [done|]. cbn. split.
  - pose proof (ck_opening c ok) as Ho. destruct ok as [_ _ Hst Hcon _ Hw Hsend]. split; cbn; try done.
    + rewrite Ho. destruct (started_ c), (opening_ c); done.
    + intros Hns. rewrite Hns. cbn. by apply Hst.
    + intros Hcn. rewrite Ho, (Hcon Hcn). by rewrite andb_false_r.
    + intros _. split_and!; [done|done|]. intros ->. rewrite Ho. destruct (opening_ c); by eexists.
    + intros id Hid. split; [set_solver|by apply Hsend].
  - split_and!; try done. intros id. cbn. rewrite Hl. destruct (decide (id ∈ pending_ids c)) as [Hi|Hi];
      rewrite pending_ids_spec in Hi; [by rewrite decide_True|by rewrite decide_False].
Qed.

Lemma fail_locked_closed c common sid specific : closed_ c = true -> fail_locked c common sid specific = Some c.
Proof. intros Hc. unfold fail_locked. by rewrite Hc. Qed.

(** ** Progress of the calls *)

(** A call keeps its request for ever, and its result once it has one. *)
Definition calls_grow (calls calls' : gmap Z pending_call) : Prop :=
  forall id e, calls !! id = Some e ->
    exists e', calls' !! id = Some e' /\ pc_request e' = pc_request e /\ pc_encoded e' = pc_encoded e
      /\ forall r, pc_promise e = Some r -> pc_promise e' = Some r.

#[export] Instance calls_grow_preorder : PreOrder calls_grow.
Proof.
  split.
  - intros calls id e He. by exists e.
  - intros c1 c2 c3 H12 H23 id e He. destruct (H12 id e He) as (e2 & He2 & Hr2 & Hn2 & Hp2).
    destruct (H23 id e2 He2) as (e3 & He3 & Hr3 & Hn3 & Hp3). exists e3. split_and!; [done|congruence|congruence|auto].
Qed.

Record client_le (c c' : client) : Prop := {
  cl_calls : calls_grow (calls_ c) (calls_ c');
  cl_opening r : opening_ c = Some r -> opening_ c' = Some r;
  cl_next : next_id_ c <= next_id_ c';
  cl_closed : closed_ c = true -> closed_ c' = true;
  cl_started : started_ c = true -> started_ c' = true;
}.

#[export] Instance client_le_preorder : PreOrder client_le.
Proof.
  split.
  - intros c. split; done.
  - intros c1 c2 c3 [] []. split; [by etrans|auto|lia|auto|auto].
Qed.

Lemma grow_settle calls id e r :
  calls !! id = Some e -> pc_promise e = None -> calls_grow calls (<[id := with_promise e r]> calls).
Proof.
  intros He Hn j e' Hj. destruct (decide (id = j)) as [<-|Hne].
  - exists (with_promise e r). rewrite lookup_insert_eq. rewrite He in Hj. injection Hj as <-. split_and!; try done. congruence.
  - exists e'. by rewrite lookup_insert_ne.
Qed.

Lemma grow_progress calls id p : calls_grow calls (alter (fun e => with_progress e p) id calls).
Proof.
  intros j e Hj. destruct (decide (id = j)) as [<-|Hne].
  - exists (with_progress e p). by rewrite lookup_alter_eq, Hj.
  - exists e. by rewrite lookup_alter_ne.
Qed.

Lemma grow_failed c c' common sid specific :
  client_ok c -> failed_as c c' common sid specific -> calls_grow (calls_ c) (calls_ c').
Proof.
  intros ok Hf id e He. rewrite Hf, He. case_decide as Hp; [|by exists e]. eexists. split; [done|]. cbn.
  split_and!; try done. apply (co_pending _ _ _ _ (ck_calls c ok)) in Hp as (e' & He' & Hn). congruence.
Qed.

(** ** Steps *)
Definition step_good (c : client) (r : stepped) : Prop :=
  match r with Step c' => client_ok c' /\ client_le c c' | Blocked => True | Fatal => False end.

Lemma set_threads_ok c w r m :
  client_ok c -> (started_ c = false -> w = W_none) -> (w = W_opening -> closed_ c = false -> opening_ c = None) ->
  (forall id, w = W_sending id -> (id ∉ queued_ c) /\ id < next_id_ c) -> client_ok (set_threads c w r m).
Proof.
  intros ok Hw1 Hw2 Hw3. destruct ok as [Hc Ho Hst Hcon Hcl Hw Hs]. split; try done.
  cbn. intros Hns. destruct (Hst Hns) as (? & ? & _). auto.
Qed.

Lemma set_calls_ok c calls pending queued :
  client_ok c -> calls_ok calls pending queued (next_id_ c) -> pending ⊆ pending_ c ->
  (forall q, q ∈ queued -> q ∈ queued_ c) -> client_ok (set_calls c calls pending queued).
Proof.
  intros [Hc Ho Hst Hcon Hcl Hw Hs] Hk Hp Hq. split; try done; cbn.
  - intros Hcd. destruct (Hcl Hcd) as (He & ? & ?). split_and!; [set_solver|done|done].
  - intros id Hid. destruct (Hs id Hid). auto.
Qed.

Lemma set_calls_le c calls pending queued :
  calls_grow (calls_ c) calls -> client_le c (set_calls c calls pending queued).
Proof. intros Hg. by split. Qed.
Lemma set_threads_le c c' w r m : client_le c c' -> client_le c (set_threads c' w r m).
Proof. by intros []. Qed.

Lemma fail_good c common sid specific :
  client_ok c ->
  exists c', fail_locked c common sid specific = Some c' /\ client_ok c' /\ client_le c c'
    /\ closed_ c' = true /\ started_ c' = started_ c.
Proof.
  intros ok. destruct (closed_ c) eqn:Hc.
  - exists c. rewrite fail_locked_closed by done. split_and!; [done|done|by reflexivity|done|done].
  - destruct (fail_locked_ok c common sid specific ok Hc) as (c' & Hf & ok' & Hcl & _ & Hfa & Hop & Hst & _ & Hn).
    exists c'. split_and!; try done. split; try done.
    + by eapply grow_failed.
    + intros r Hr. rewrite Hop, (ck_opening c ok), Hr. by rewrite andb_false_r.
    + by rewrite Hn.
    + by rewrite Hst.
Qed.

Lemma writer_fails_good c common sid specific :
  client_ok c -> started_ c = true -> step_good c (then_writer (fail_locked c common sid specific) W_done).
Proof.
  intros ok Hst. destruct (fail_good c common sid specific ok) as (c' & -> & ok' & Hle & _ & Hs).
  split; [|by apply set_threads_le]. apply set_threads_ok; try done. congruence.
Qed.

Lemma reader_ok c r : client_ok c -> client_ok (set_reader c r).
Proof.
  intros ok. apply set_threads_ok; [done|apply (ck_started c ok)|apply (ck_writer c ok)|apply (ck_sending c ok)].
Qed.
Lemma monitor_ok c m : client_ok c -> client_ok (set_monitor c m).
Proof.
  intros ok. apply set_threads_ok; [done|apply (ck_started c ok)|apply (ck_writer c ok)|apply (ck_sending c ok)].
Qed.
Lemma reader_good c r : client_ok c -> step_good c (Step (set_reader c r)).
Proof. intros ok. split; [by apply reader_ok|by apply set_threads_le]. Qed.
Lemma monitor_good c m : client_ok c -> step_good c (Step (set_monitor c m)).
Proof. intros ok. split; [by apply monitor_ok|by apply set_threads_le]. Qed.

Lemma reader_fails_good c common sid specific :
  client_ok c -> step_good c (then_reader (fail_locked c common sid specific) R_done).
Proof.
  intros ok. destruct (fail_good c common sid specific ok) as (c' & -> & ok' & Hle & _).
  split; [by apply reader_ok|by apply set_threads_le].
Qed.
Lemma monitor_fails_good c common sid specific :
  client_ok c -> step_good c (then_monitor (fail_locked c common sid specific) M_done).
Proof.
  intros ok. destruct (fail_good c common sid specific ok) as (c' & -> & ok' & Hle & _).
  split; [by apply monitor_ok|by apply set_threads_le].
Qed.

Lemma connect_good c open endpoint cancelled expired threads :
  client_ok c -> step_good c (connect_async c open endpoint cancelled expired threads).2.
Proof.
  intros ok. unfold connect_async.
  destruct (started_ c) eqn:Hs; [split; [done|reflexivity]|]. destruct (closed_ c) eqn:Hc; [split; [done|reflexivity]|].
  cbn [orb]. destruct (negb open || negb (valid_endpoint endpoint)); [split; [done|reflexivity]|].
  destruct (ck_started c ok Hs) as (Ho & Hcon & Hw).
  set (c1 := set_flags c true _ _ _ _ _ _).
  assert (Hle1 : client_le c c1) by (split; cbn; congruence || reflexivity).
  assert (ok1 : client_ok c1).
  { destruct ok as [? ? ? ? ? ? ?]. split; cbn; congruence || done. }
  assert (ok1' : forall created, client_ok (started_threads c1 created) /\ client_le c (started_threads c1 created)).
  { intros created. split; [|by apply set_threads_le]. apply set_threads_ok; try done.
    intros id. destruct (1 <=? created)%nat; [done|]. cbn. by rewrite Hw. }
  assert (Hfail : forall c2 f, client_ok c2 -> client_le c c2 -> step_good c (step_of (fail_all c2 f))).
  { intros c2 f ok2 Hle2. unfold fail_all. edestruct (fail_good c2 f 0) as (c' & -> & ok' & Hle' & _); [done|].
    split; [done|]. by etrans. }
  cbn [snd]. destruct (cancelled || expired); [by apply Hfail|]. destruct threads as [[created code]|].
  - by apply Hfail; apply ok1'.
  - apply ok1'.
Qed.

Lemma wrap_next next : 1 <= next <= u64_max -> next <> u64_max -> next ⊞ 1 = next + 1.
Proof. intros Hr Hne. apply u64_add_exact; unfold u64_max, two64 in *; lia. Qed.

Lemma call_good c op cancelled expired :
  client_ok c -> client_ok (call_async c op cancelled expired).2 /\ client_le c (call_async c op cancelled expired).2.
Proof.
  intros ok. unfold call_async.
  assert (Hsame : client_ok c /\ client_le c c) by (split; [done|reflexivity]).
  destruct (connected_ c) eqn:Hcon; [cbn [negb orb]|exact Hsame]. destruct (closed_ c) eqn:Hc; [exact Hsame|].
  destruct cancelled; [exact Hsame|]. destruct expired; [exact Hsame|].
  destruct (max_pending_calls <=? Z.of_nat (size (pending_ c))) eqn:Hsz; [exact Hsame|].
  destruct (next_id_ c =? u64_max) eqn:Hmax; [exact Hsame|]. cbn [orb].
  destruct (encode_request _) as [enc|] eqn:Henc; [|exact Hsame]. cbn [snd].
  apply Z.leb_gt in Hsz. apply Z.eqb_neq in Hmax.
  pose proof (ck_calls c ok) as okc. pose proof (co_next _ _ _ _ okc) as Hnx.
  pose proof (admit_ok _ _ _ _ {| req_id := next_id_ c; req_body := op; req_version := version |} enc okc Hsz Hmax eq_refl eq_refl Henc) as okc'.
  assert (Hfresh : calls_ c !! next_id_ c = None).
  { destruct (calls_ c !! next_id_ c) as [e|] eqn:E; [|done].
    destruct (co_entry _ _ _ _ okc _ e E) as (_ & _ & Hr & _). lia. }
  rewrite wrap_next by done. split.
  - destruct ok as [_ Ho Hst Hcon' Hcl Hw Hsn]. split; cbn; try done.
    + congruence.
    + intros id Hid. destruct (Hsn id Hid) as [Hnq Hlt]. split; [|lia]. rewrite elem_of_app, list_elem_of_singleton.
      intros [?| ->]; [done|lia].
  - split; cbn; try done; [|lia]. intros id e He. exists e. rewrite lookup_insert_ne by congruence. done.
Qed.

Lemma opened_good c opened expired : client_ok c -> step_good c (writer_opened c opened expired).
Proof.
  intros ok. unfold writer_opened. destruct (writer_ c) eqn:Hw; try done.
  assert (Hst : started_ c = true).
  { destruct (started_ c) eqn:E; [done|]. destruct (ck_started c ok E) as (_ & _ & ?). congruence. }
  destruct opened as [channel|error]; [|by apply writer_fails_good].
  set (c1 := set_flags c _ _ _ _ _ channel _).
  assert (ok1 : client_ok c1) by (destruct ok; by split).
  assert (Hgood : forall r, step_good c1 r -> step_good c r).
  { intros [c'| |] Hg; [|done|done]. destruct Hg as [? Hle]. split; [done|]. by destruct Hle; split. }
  apply Hgood. clear Hgood.
  destruct (closed_ c1) eqn:Hc.
  { split; [|by apply set_threads_le]. apply set_threads_ok; try done. cbn. congruence. }
  destruct (negb channel); [by apply writer_fails_good|]. destruct (c_shutdown_ c1); [by apply writer_fails_good|].
  destruct expired; [by apply writer_fails_good|].
  assert (Ho : opening_ c1 = None) by (by apply (ck_writer c ok)). rewrite Ho. split.
  - destruct ok1 as [Hk Ho' Hs Hcon Hcl Hwr Hsn]. split; cbn; try done. congruence.
  - split; cbn; try done || reflexivity; [intros r Hr; change (opening_ c1 = Some r) in Hr|intros Hcd; change (closed_ c1 = true) in Hcd];
      congruence.
Qed.

Lemma queued_pending c id : client_ok c -> id ∈ queued_ c -> id ∈ pending_ c.
Proof.
  intros ok Hq. apply (co_queue _ _ _ _ (ck_calls c ok)) in Hq as (e & He & Hn & _).
  apply (co_pending _ _ _ _ (ck_calls c ok)). eauto.
Qed.

(** Completing one pending call. *)
Lemma settle_good c id e r :
  client_ok c -> calls_ c !! id = Some e -> id ∈ pending_ c -> may_complete e r ->
  let c' := set_calls c (<[id := with_promise e r]> (calls_ c)) (pending_ c ∖ {[id]})
              (filter (fun q => q <> id) (queued_ c)) in
  set_value (calls_ c) id r = Some (calls_ c') /\ client_ok c' /\ client_le c c'.
Proof.
  intros ok He Hp Hr c'.
  destruct (set_value_pending _ _ _ _ id r (ck_calls c ok) Hp) as (e' & He' & Hs).
  rewrite He in He'. injection He' as <-. split; [exact Hs|]. split.
  - apply set_calls_ok; [done|by apply settle_ok; [apply ck_calls|..]|set_solver|].
    intros q Hq. apply list_elem_of_filter in Hq. tauto.
  - apply set_calls_le, grow_settle; [done|].
    apply (co_pending _ _ _ _ (ck_calls c ok)) in Hp as (e' & He' & Hn). congruence.
Qed.

Lemma filter_other (id : Z) (l : list Z) : id ∉ l -> filter (fun q => q <> id) l = l.
Proof.
  induction l as [|q l IH]; [done|]. intros Hn. rewrite filter_cons_True by set_solver. f_equal. apply IH. set_solver.
Qed.

Lemma pick_good c cancelled expired : client_ok c -> step_good c (writer_pick c cancelled expired).
Proof.
  intros ok. unfold writer_pick. destruct (writer_ c) eqn:Hw; try done.
  assert (Hst : started_ c = true).
  { destruct (started_ c) eqn:E; [done|]. destruct (ck_started c ok E) as (_ & _ & ?). congruence. }
  destruct (closed_ c) eqn:Hc.
  { split; [|by apply set_threads_le]. apply set_threads_ok; try done. congruence. }
  destruct (queued_ c) as [|id queued] eqn:Hq; [done|].
  pose proof (ck_calls c ok) as okc. pose proof (co_nodup _ _ _ _ okc) as Hnd. rewrite Hq in Hnd.
  apply NoDup_cons in Hnd as [Hni Hnd].
  assert (Hp : id ∈ pending_ c) by (apply queued_pending; [done|rewrite Hq; set_solver]).
  pose proof Hp as (e & He & Hn)%(co_pending _ _ _ _ okc).
  destruct (cancelled || expired).
  - destruct (settle_good c id e (inr (cause cancelled)) ok He Hp I) as (-> & ok' & Hle).
    rewrite Hq, filter_cons_False, filter_other in ok', Hle by (done || tauto). by split.
  - assert (ok' : client_ok (set_calls c (alter (fun e => with_progress e ph_writing) id (calls_ c)) (pending_ c) queued)).
    { apply set_calls_ok; [done| |done|rewrite Hq; set_solver]. eapply alter_progress_ok; [exact okc|done|done|].
      intros j. rewrite Hq. set_solver. }
    split; [|by apply set_threads_le, set_calls_le, grow_progress].
    apply set_threads_ok; try done; [cbn; congruence|]. intros j [= <-]. cbn. split; [done|].
    destruct (co_entry _ _ _ _ okc id e He) as (_ & _ & ? & _). lia.
Qed.

Lemma sent_good c sent : client_ok c -> step_good c (writer_sent c sent).
Proof.
  intros ok. unfold writer_sent. destruct (writer_ c) as [| | |id|] eqn:Hw; try done.
  assert (Hst : started_ c = true).
  { destruct (started_ c) eqn:E; [done|]. destruct (ck_started c ok E) as (_ & _ & ?). congruence. }
  assert (Hset : forall c2 w, client_ok c2 -> client_le c c2 -> started_ c2 = true -> w = W_idle \/ w = W_done ->
    step_good c (Step (set_writer c2 w))).
  { intros c2 w ok2 Hle Hs2 Hw2. split; [|by apply set_threads_le].
    apply set_threads_ok; [done|congruence| |]; destruct Hw2; by subst. }
  destruct (closed_ c) eqn:Hc; [apply Hset; auto; reflexivity|].
  destruct sent as [n|error]; [|by apply writer_fails_good].
  destruct (bool_decide (id ∈ pending_ c)); [|apply Hset; auto; reflexivity].
  apply Hset; auto; [|by apply set_calls_le, grow_progress].
  destruct (ck_sending c ok id Hw) as [Hnq _]. apply set_calls_ok; [done| |done|done].
  eapply alter_progress_ok; [apply ck_calls, ok|done|apply (co_nodup _ _ _ _ (ck_calls c ok))|].
  intros j. split; [|tauto]. intros Hj. split; [done|]. by intros ->.
Qed.

Lemma received_good c payload cancelled expired :
  client_ok c -> step_good c (reader_received c payload cancelled expired).
Proof.
  intros ok. unfold reader_received. destruct (reader_ c) eqn:Hrd; try done.
  destruct (closed_ c) eqn:Hc; [by apply reader_good|].
  destruct payload as [payload|error]; [|by apply reader_fails_good].
  destruct (decode_response payload) as [r|]; [|by apply reader_fails_good].
  case_bool_decide as Hp; [|by apply reader_fails_good].
  pose proof Hp as (e & He & Hn)%(co_pending _ _ _ _ (ck_calls c ok)). rewrite He.
  destruct (is_queued (pc_progress e)) eqn:Hph; [by apply reader_fails_good|]. cbn [orb].
  destruct (matches (req_body (pc_request e)) (resp_body r)) eqn:Hm; [cbn [negb]|by apply reader_fails_good].
  destruct (cancelled || expired); [by apply reader_fails_good|].
  destruct (co_entry _ _ _ _ (ck_calls c ok) _ e He) as ([Hid _] & _).
  destruct (settle_good c (resp_id r) e (inl r) ok He Hp) as (-> & ok' & Hle).
  { split_and!; [congruence|done|]. by intros Hq; rewrite Hq in Hph. }
  assert (Hnq : resp_id r ∉ queued_ c).
  { intros (e' & He' & _ & Hq)%(co_queue _ _ _ _ (ck_calls c ok)). rewrite He in He'. injection He' as <-.
    by rewrite Hq in Hph. }
  rewrite filter_other in ok', Hle by done. split; [by apply reader_ok|by apply set_threads_le].
Qed.

(** A sweep of the monitor visits the calls that were pending when it began. *)
Lemma sweep_good probe ids : forall c, client_ok c -> NoDup ids -> (forall id, id ∈ ids -> id ∈ pending_ c) ->
  step_good c (sweep c probe ids).
Proof.
  induction ids as [|id ids IH]; intros c ok Hnd Hin; [split; [done|reflexivity]|].
  apply NoDup_cons in Hnd as [Hni Hnd]. cbn [sweep]. destruct (probe id) as [cancelled expired].
  destruct (cancelled || expired); [|by apply IH; [..|set_solver]].
  assert (Hp : id ∈ pending_ c) by (apply Hin; set_solver).
  pose proof Hp as (e & He & Hn)%(co_pending _ _ _ _ (ck_calls c ok)). rewrite He.
  destruct (negb (is_queued (pc_progress e))); [by apply monitor_fails_good|].
  destruct (settle_good c id e (inr (cause cancelled)) ok He Hp I) as (-> & ok' & Hle). cbn [calls_ set_calls].
  set (c' := set_calls c _ _ _) in *.
  assert (Hg : step_good c' (sweep c' probe ids)).
  { apply IH; [done|done|]. intros j Hj. cbn. rewrite elem_of_difference, elem_of_singleton.
    split; [set_solver|]. by intros ->. }
  destruct (sweep c' probe ids) as [c2| |]; [|done|done]. destruct Hg as [? ?]. split; [done|by etrans].
Qed.

Lemma monitor_step_good c probe : client_ok c -> step_good c (monitor_step c probe).
Proof.
  intros ok. unfold monitor_step. rewrite ?wait_connected_eq. destruct (monitor_ c); try done.
  - destruct (closed_ c); [by apply monitor_good|]. destruct (connected_ c); [by apply monitor_good|done].
  - destruct (closed_ c); [by apply monitor_good|]. apply sweep_good; [done|apply pending_ids_nodup|].
    intros id. apply pending_ids_spec.
Qed.

Lemma client_step_good c ev : client_ok c -> step_good c (client_step c ev).
Proof.
  intros ok. destruct ev; cbn [client_step].
  - by apply connect_good.
  - by apply call_good.
  - unfold close_client, fail_all. edestruct (fail_good c (c_fail ck_cancelled) 0) as (c' & -> & ? & ? & _); [done|by split].
  - unfold connect_stop. destruct (writer_ c) eqn:Hw; try done. split.
    + destruct ok as [? ? ? ? Hcl ? ?]. split; cbn; try done. intros Hc. destruct (Hcl Hc) as (? & _ & ?). by split_and!.
    + by split.
  - by apply opened_good.
  - by apply pick_good.
  - by apply sent_good.
  - unfold reader_connected. rewrite ?wait_connected_eq. destruct (reader_ c); try done. destruct (closed_ c); [by apply reader_good|].
    destruct (connected_ c); [by apply reader_good|done].
  - unfold reader_check. destruct (reader_ c); try done. by apply reader_good.
  - by apply received_good.
  - unfold reader_logged. destruct (reader_ c); try done. split; [|by split]. apply reader_ok. destruct ok. by split.
  - by apply monitor_step_good.
Qed.

Lemma client_run_good evs : forall c, client_ok c -> step_good c (client_run c evs).
Proof.
  induction evs as [|ev evs IH]; intros c ok; [split; [done|reflexivity]|]. cbn [client_run].
  pose proof (client_step_good c ev ok) as Hg. destruct (client_step c ev) as [c1| |]; [|done|done].
  destruct Hg as [ok1 Hle1]. specialize (IH c1 ok1). destruct (client_run c1 evs) as [c2| |]; [|done|done].
  destruct IH as [ok2 Hle2]. split; [done|by etrans].
Qed.
End invariant.

(** ** Closing *)
Section closing.
Context `{Utf8Ops} `{Protobuf}.

(** Each thread that is still running ends with its next step, whatever its environment
    answers: the joins of [close] return. *)
Definition writer_ends (c : client) (ev : c_event) : Prop :=
  exists c', client_step c ev = Step c' /\ writer_ c' = W_done /\ calls_ c' = calls_ c /\ opening_ c' = opening_ c.
Definition reader_ends (c : client) (ev : c_event) : Prop :=
  exists c', client_step c ev = Step c' /\ reader_ c' = R_done /\ calls_ c' = calls_ c /\ opening_ c' = opening_ c.
Definition monitor_ends (c : client) (ev : c_event) : Prop :=
  exists c', client_step c ev = Step c' /\ monitor_ c' = M_done /\ calls_ c' = calls_ c /\ opening_ c' = opening_ c.

Definition joins (c : client) : Prop :=
  match writer_ c with
  | W_opening => forall opened expired, writer_ends c (ce_opened opened expired)
  | W_idle => forall cancelled expired, writer_ends c (ce_pick cancelled expired)
  | W_sending _ => forall sent, writer_ends c (ce_sent sent)
  | W_none | W_done => True
  end
  /\ match reader_ c with
     | R_waiting => reader_ends c ce_reader_connected
     | R_head => reader_ends c ce_reader_check
     | R_receiving => forall payload cancelled expired, reader_ends c (ce_received payload cancelled expired)
     | R_logging _ => exists c', client_step c ce_logged = Step c' /\ calls_ c' = calls_ c /\ reader_ends c' ce_reader_check
     | R_none | R_done => True
     end
  /\ match monitor_ c with
     | M_waiting | M_watching => forall probe, monitor_ends c (ce_monitor probe)
     | M_none | M_done => True
     end.

Lemma closed_joins c : client_ok c -> closed_ c = true -> joins c.
Proof.
  intros ok Hc. destruct (ck_closed c ok Hc) as (_ & Hsd & _). split_and!.
  - destruct (writer_ c) eqn:Hw; try done; intros; unfold writer_ends; cbn [client_step];
      unfold writer_opened, writer_pick, writer_sent; rewrite Hw.
    + destruct opened as [channel|error]; [cbn [closed_ set_flags]; rewrite Hc; by eexists|].
      unfold then_writer, fail_all. rewrite fail_locked_closed by done. by eexists.
    + rewrite Hc. by eexists.
    + rewrite Hc. by eexists.
  - destruct (reader_ c) eqn:Hr; try done; intros; unfold reader_ends; cbn [client_step];
      unfold reader_connected, reader_check, reader_received, reader_logged; rewrite ?wait_connected_eq, Hr, ?Hc, ?Hsd;
      [by eexists..|]. eexists. split; [done|]. split; [done|]. cbn. rewrite Hsd. by eexists.
  - destruct (monitor_ c) eqn:Hm; try done; intros; unfold monitor_ends; cbn [client_step];
      unfold monitor_step; rewrite ?wait_connected_eq, Hm, Hc; by eexists.
Qed.

Lemma closed_settled c id e :
  client_ok c -> closed_ c = true -> calls_ c !! id = Some e -> is_Some (pc_promise e).
Proof.
  intros ok Hc He. destruct (pc_promise e) eqn:Hp; [done|]. exfalso.
  assert (Hin : id ∈ pending_ c) by (apply (co_pending _ _ _ _ (ck_calls c ok)); eauto).
  destruct (ck_closed c ok Hc) as (Hem & _). set_solver.
Qed.

(** A call that is not pending keeps its result when the connection fails; a pending
    one gets the failure. *)
Definition result_after (e : pending_call) (r : c_failure) : call_result :=
  match pc_promise e with Some r0 => r0 | None => inr r end.

Lemma fail_results c common sid specific c' id e :
  client_ok c -> closed_ c = false -> fail_locked c common sid specific = Some c' -> calls_ c !! id = Some e ->
  exists e', calls_ c' !! id = Some e' /\ pc_request e' = pc_request e
    /\ pc_promise e' = Some (result_after e (if id =? sid then specific else common)).
Proof.
  intros ok Hc Hf He. destruct (fail_locked_ok c common sid specific ok Hc) as (c2 & Hf2 & _ & _ & _ & Hfa & _).
  rewrite Hf in Hf2. injection Hf2 as <-. rewrite Hfa, He. pose proof (co_pending _ _ _ _ (ck_calls c ok) id) as Hp.
  unfold result_after. case_decide as Hin.
  - eexists. split; [done|]. split; [done|]. apply Hp in Hin as (e' & He' & Hn). rewrite He in He'. injection He' as <-.
    by rewrite Hn.
  - exists e. destruct (pc_promise e) eqn:Hpe; [done|]. exfalso. apply Hin, Hp. eauto.
Qed.

Lemma reachable_ok evs c : client_run new_client evs = Step c -> client_ok c.
Proof. intros Hr. pose proof (client_run_good evs new_client new_client_ok) as Hg. rewrite Hr in Hg. apply Hg. Qed.
(** The connection is closed: every call has a result, the pending ones a failure. *)
Definition failed_with (c c' : client) (f : Z -> c_failure) : Prop :=
  closed_ c' = true
  /\ forall id e, calls_ c !! id = Some e ->
      exists e', calls_ c' !! id = Some e' /\ pc_request e' = pc_request e
        /\ pc_promise e' = Some (result_after e (f id)).

(** Only call [id] got a result; the connection goes on. *)
Definition completed_with (c c' : client) (id : Z) (e : pending_call) (r : call_result) : Prop :=
  closed_ c' = false /\ connected_ c' = connected_ c /\ pending_ c' = pending_ c ∖ {[id]}
  /\ calls_ c' = <[id := with_promise e r]> (calls_ c).

Lemma fail_failed_with c common sid specific :
  client_ok c -> closed_ c = false ->
  exists c', fail_locked c common sid specific = Some c'
    /\ failed_with c c' (fun id => if id =? sid then specific else common).
Proof.
  intros ok Hc. destruct (fail_locked_ok c common sid specific ok Hc) as (c' & Hf & _ & Hc' & _).
  exists c'. split; [done|]. split; [done|]. intros id e He. by eapply fail_results.
Qed.

Lemma fail_all_failed_with c common :
  client_ok c -> closed_ c = false ->
  exists c', fail_all c common = Some c' /\ failed_with c c' (fun _ => common).
Proof.
  intros ok Hc. destruct (fail_failed_with c common 0 (c_fail ck_transport_failure) ok Hc) as (c' & Hf & Hc' & Hw).
  exists c'. split; [done|]. split; [done|]. intros id e He. destruct (Hw id e He) as (e' & ? & ? & Hp).
  destruct (co_entry _ _ _ _ (ck_calls c ok) id e He) as (_ & _ & Hrange & _).
  rewrite (proj2 (Z.eqb_neq id 0)) in Hp by lia. by exists e'.
Qed.

Definition only (id : Z) (cancelled expired : bool) (j : Z) : bool * bool :=
  if j =? id then (cancelled, expired) else (false, false).

Lemma sweep_quiet c id cancelled expired ids :
  id ∉ ids -> sweep c (only id cancelled expired) ids = Step c.
Proof.
  induction ids as [|j ids IH]; [done|]. intros Hn. cbn [sweep]. unfold only at 1.
  rewrite (proj2 (Z.eqb_neq j id)) by set_solver. cbn. apply IH. set_solver.
Qed.

Lemma sweep_before c id cancelled expired l1 l2 :
  id ∉ l1 -> sweep c (only id cancelled expired) (l1 ++ l2) = sweep c (only id cancelled expired) l2.
Proof.
  induction l1 as [|j l1 IH]; [done|]. intros Hn. cbn [app sweep]. unfold only at 1.
  rewrite (proj2 (Z.eqb_neq j id)) by set_solver. cbn. apply IH. set_solver.
Qed.

(** A payload that answers a call whose writing has begun. *)
Definition accepts (c : client) (payload : bytes) (r : response) (e : pending_call) : Prop :=
  decode_response payload = inl r /\ calls_ c !! resp_id r = Some e /\ pc_promise e = None
  /\ pc_progress e <> ph_queued /\ matches (req_body (pc_request e)) (resp_body r) = true.

(** The outcomes of a receive. *)
Inductive responded (c c' : client) (cancelled expired : bool) : bytes + t_failure -> Prop :=
  | responded_completed p r e :
      accepts c p r e -> cancelled || expired = false -> completed_with c c' (resp_id r) e (inl r) ->
      responded c c' cancelled expired (inl p)
  | responded_late p r e :
      accepts c p r e -> cancelled || expired = true ->
      failed_with c c' (fun j => if j =? resp_id r then cause cancelled else c_fail ck_disconnected) ->
      responded c c' cancelled expired (inl p)
  | responded_rejected p :
      (forall r e, ~ accepts c p r e) -> failed_with c c' (fun _ => c_fail ck_protocol_violation) ->
      responded c c' cancelled expired (inl p)
  | responded_broken error :
      failed_with c c' (fun _ => translate error) -> responded c c' cancelled expired (inr error).
End closing.

(** ** Properties *)
Section properties.
Context `{Utf8Ops} `{Protobuf}.

(** C3: Single completion.  Whatever the callers, the threads, the channel, the clock
    and the stop tokens do, no promise is ever completed twice (the fatal defect the
    source warns of is unreachable).  At every moment at most sixteen calls are pending;
    a call is pending exactly while it has no result; its identifier is its key, nonzero
    and never issued again, and its payload is the encoding of its request; a successful
    result carries that identifier and can answer its operation.  Later activity keeps
    every request, every result and the result of the connection. *)
Theorem client_single_completion evs evs' :
  match client_run new_client evs with
  | Fatal => False
  | Blocked => True
  | Step c =>
      Z.of_nat (size (pending_ c)) <= max_pending_calls
      /\ (forall id e, calls_ c !! id = Some e ->
            1 <= id < next_id_ c /\ req_id (pc_request e) = id /\ encode_request (pc_request e) = inl (pc_encoded e)
            /\ (id ∈ pending_ c <-> pc_promise e = None)
            /\ forall resp, pc_promise e = Some (inl resp) ->
                 resp_id resp = id /\ matches (req_body (pc_request e)) (resp_body resp) = true)
      /\ match client_run c evs' with
         | Fatal => False
         | Blocked => True
         | Step c' => calls_grow (calls_ c) (calls_ c') /\ next_id_ c <= next_id_ c'
                      /\ forall r, opening_ c = Some r -> opening_ c' = Some r
         end
  end.
Proof.
  pose proof (client_run_good evs new_client new_client_ok) as Hg.
  destruct (client_run new_client evs) as [c| |]; [|done|done]. destruct Hg as [ok _].
  pose proof (ck_calls c ok) as okc. split; [apply (co_size _ _ _ _ okc)|]. split.
  - intros id e He. destruct (co_entry _ _ _ _ okc id e He) as ([Hid _] & Henc & Hr & Hp).
    split; [done|]. split; [done|]. split; [done|]. split.
    + rewrite (co_pending _ _ _ _ okc). split; [intros (e' & He' & Hn); congruence|eauto].
    + intros resp Hresp. destruct (Hp _ Hresp) as (? & ? & _). split; [congruence|done].
  - pose proof (client_run_good evs' c ok) as Hg'. destruct (client_run c evs') as [c'| |]; [|done|done].
    destruct Hg' as [_ [? ? ? _ _]]. by split_and!.
Qed.

(** C9: Closing.  From any reachable state, [close] succeeds and resolves everything
    once: a call that had a result keeps it, every other admitted call is cancelled, and
    the future of a started connection attempt is completed (as cancelled, if it was
    still open).  From then on calls are refused as not connected without being
    admitted, closing again changes nothing, and each of the three threads ends with its
    next step (a reader that is writing its debug line, with the one after it), so that
    the joins return. *)
Theorem client_close_resolves evs c :
  client_run new_client evs = Step c ->
  exists c', close_client c = Step c' /\ closed_ c' = true /\ pending_ c' = ∅ /\ queued_ c' = []
    /\ (forall id e, calls_ c !! id = Some e ->
          exists e', calls_ c' !! id = Some e' /\ pc_request e' = pc_request e
            /\ pc_promise e' = Some (result_after e (c_fail ck_cancelled)))
    /\ (started_ c = true ->
          opening_ c' = Some (match opening_ c with Some r => r | None => inr (c_fail ck_cancelled) end))
    /\ (forall op cancelled expired,
          call_async c' op cancelled expired = (Ready (inr (c_fail ck_not_connected)), c'))
    /\ close_client c' = Step c' /\ joins c'.
Proof.
  intros Hrun%reachable_ok. rename Hrun into ok. unfold close_client, fail_all.
  assert (Hq : forall c2, client_ok c2 -> closed_ c2 = true -> queued_ c2 = []).
  { intros c2 ok2 Hc2. destruct (queued_ c2) as [|q l] eqn:E; [done|].
    assert (Hin : q ∈ pending_ c2) by (apply queued_pending; [done|rewrite E; set_solver]).
    destruct (ck_closed c2 ok2 Hc2) as (Hem & _). set_solver. }
  assert (Hend : forall c2, client_ok c2 -> closed_ c2 = true ->
    (forall op cancelled expired, call_async c2 op cancelled expired = (Ready (inr (c_fail ck_not_connected)), c2))
    /\ step_of (fail_locked c2 (c_fail ck_cancelled) 0 (c_fail ck_transport_failure)) = Step c2 /\ joins c2).
  { intros c2 ok2 Hc2. split; [|split].
    - intros. unfold call_async. by rewrite Hc2, orb_true_r.
    - by rewrite fail_locked_closed.
    - by apply closed_joins. }
  destruct (closed_ c) eqn:Hc.
  - exists c. rewrite fail_locked_closed by done. destruct (ck_closed c ok Hc) as (Hem & _ & Ho).
    split_and!; try done; try (by apply Hend); [by apply Hq| |].
    + intros id e He. exists e. destruct (closed_settled c id e ok Hc He) as [r Hr]. unfold result_after. by rewrite Hr.
    + intros Hs. destruct (Ho Hs) as [r Hr]. by rewrite Hr.
  - destruct (fail_locked_ok c (c_fail ck_cancelled) 0 (c_fail ck_transport_failure) ok Hc)
      as (c' & Hf & ok' & Hc' & Hem & Hfa & Ho & _). exists c'. rewrite Hf.
    split_and!; try done; try (by apply Hend); [by apply Hq| |].
    + intros id e He. destruct (fail_results c _ _ _ c' id e ok Hc Hf He) as (e' & He' & Hr' & Hp').
      exists e'. split_and!; [done|done|]. rewrite Hp'. do 2 f_equal.
      destruct (co_entry _ _ _ _ (ck_calls c ok) id e He) as (_ & _ & Hrange & _).
      by rewrite (proj2 (Z.eqb_neq id 0)) by lia.
    + intros Hs. rewrite Ho, Hs, (ck_opening c ok). by destruct (opening_ c).
Qed.

(** C10: Cancellation.  When the monitor finds one pending call cancelled or expired, the
    effect depends on whether its writing has begun.  If not, the call never reaches the
    server: only its own future fails, with the cause, it leaves the queue, and the
    connection and all other calls go on.  If so, its execution is indeterminate: the
    connection is closed, the call fails with its cause and every other pending call
    as disconnected; results already delivered stay. *)
Theorem cancellation_scope evs c id e cancelled expired :
  client_run new_client evs = Step c -> closed_ c = false -> monitor_ c = M_watching ->
  calls_ c !! id = Some e -> pc_promise e = None -> cancelled || expired = true ->
  exists c', client_step c (ce_monitor (only id cancelled expired)) = Step c'
    /\ if is_queued (pc_progress e)
       then completed_with c c' id e (inr (cause cancelled))
            /\ queued_ c' = filter (fun q => q <> id) (queued_ c)
       else failed_with c c' (fun j => if j =? id then cause cancelled else c_fail ck_disconnected).
Proof.
  intros ok%reachable_ok Hc Hm He Hn Hx. cbn [client_step]. unfold monitor_step. rewrite ?wait_connected_eq. rewrite Hm, Hc.
  assert (Hp : id ∈ pending_ c) by (apply (co_pending _ _ _ _ (ck_calls c ok)); eauto).
  pose proof (pending_ids_nodup c) as Hnd.
  destruct (list_elem_of_split _ _ (proj2 (pending_ids_spec c id) Hp)) as (l1 & l2 & El). rewrite El in Hnd |- *.
  apply NoDup_app in Hnd as (_ & Hd & Hnd2). apply NoDup_cons in Hnd2 as [Hn2 _].
  rewrite sweep_before by set_solver. cbn [sweep]. unfold only at 1. rewrite Z.eqb_refl, Hx, He.
  destruct (is_queued (pc_progress e)) eqn:Hq; cbn [negb].
  - destruct (settle_good c id e (inr (cause cancelled)) ok He Hp I) as (-> & _ & _).
    rewrite sweep_quiet by done. eexists. split; [done|]. split; [|done]. by split_and!.
  - destruct (fail_failed_with c (c_fail ck_disconnected) id (cause cancelled) ok Hc) as (c' & -> & Hf).
    eexists. split; [done|]. exact Hf.
Qed.

(** C11: Responses.  What the reader does with what it receives on an open connection.
    A payload is accepted when it decodes, names a pending call whose writing has begun
    and can answer its operation.  An accepted response completes exactly that call,
    unless the call is already cancelled or expired: a late response never becomes a
    success, but closes the connection.  A payload that is not accepted is a protocol
    violation, and a failed receive is translated; both close the connection, and every
    pending call gets that failure. *)
Theorem response_correlated evs c payload cancelled expired :
  client_run new_client evs = Step c -> closed_ c = false -> reader_ c = R_receiving ->
  exists c', client_step c (ce_received payload cancelled expired) = Step c'
    /\ responded c c' cancelled expired payload.
Proof.
  intros ok%reachable_ok Hc Hr. cbn [client_step]. unfold reader_received. rewrite Hr, Hc.
  destruct payload as [p|error].
  2: { destruct (fail_all_failed_with c (translate error) ok Hc) as (c' & -> & Hf). eexists. split; [done|]. by constructor. }
  assert (Hbad : (forall r e, ~ accepts c p r e) ->
    exists c', then_reader (fail_all c (c_fail ck_protocol_violation)) R_done = Step c'
      /\ responded c c' cancelled expired (inl p)).
  { intros Hna. destruct (fail_all_failed_with c (c_fail ck_protocol_violation) ok Hc) as (c' & -> & Hf).
    eexists. split; [done|]. by apply responded_rejected. }
  destruct (decode_response p) as [r|f] eqn:Ed.
  2: { apply Hbad. intros r e (Hd & _). congruence. }
  case_bool_decide as Hp.
  2: { apply Hbad. intros r' e (Hd & He & Hn & _). apply Hp, (co_pending _ _ _ _ (ck_calls c ok)).
       rewrite Ed in Hd. injection Hd as <-. eauto. }
  pose proof Hp as (e & He & Hn)%(co_pending _ _ _ _ (ck_calls c ok)). rewrite He.
  destruct (is_queued (pc_progress e) || _) eqn:Hq.
  { apply Hbad. intros r' e' (Hd & He' & _ & Hph & Hm). rewrite Ed in Hd. injection Hd as <-.
    rewrite He in He'. injection He' as <-. rewrite Hm, orb_false_r in Hq. by destruct (pc_progress e). }
  apply orb_false_iff in Hq as [Hq Hm]. apply negb_false_iff in Hm.
  assert (Hacc : accepts c p r e).
  { split_and!; [done|done|done| |done]. by intros Hph; rewrite Hph in Hq. }
  destruct (cancelled || expired) eqn:Hx.
  - destruct (fail_failed_with c (c_fail ck_disconnected) (resp_id r) (cause cancelled) ok Hc) as (c' & -> & Hf).
    eexists. split; [done|]. by eapply responded_late.
  - unfold set_value. rewrite He, Hn. eexists. split; [done|]. eapply responded_completed; [done..|]. by split_and!.
Qed.
End properties.

Module ClientDemo.
#[local] Existing Instance utf8_reference.
#[local] Existing Instance wire_protobuf.

(** A connection with two calls: the first is sent, the second is queued. *)
Definition demo_events : list c_event :=
  [ce_connect true default_endpoint false false None; ce_opened (inl true) false; ce_reader_connected;
   ce_monitor (fun _ => (false, false)); ce_reader_check; ce_call (put_value (Integer 5)) false false;
   ce_call (get_value 3) false false; ce_pick false false; ce_sent (inl 30)].
Definition demo : client := match client_run new_client demo_events with Step c => c | _ => new_client end.
Definition call (id : Z) (op : operation) (p : phase) : pending_call :=
  let request := {| req_id := id; req_body := op; req_version := version |} in
  {| pc_request := request; pc_encoded := match encode_request request with inl b => b | inr _ => [] end;
     pc_progress := p; pc_promise := None |}.

Lemma demo_run : client_run new_client demo_events = Step demo.
Proof. vm_compute. reflexivity. Qed.

Lemma client_close_resolves_witness :
  exists c', close_client demo = Step c' /\ closed_ c' = true /\ pending_ c' = ∅ /\ queued_ c' = []
    /\ (exists e', calls_ c' !! 1 = Some e' /\ pc_promise e' = Some (inr (c_fail ck_cancelled))) /\ joins c'.
Proof.
  destruct (client_close_resolves demo_events demo demo_run) as (c' & Hs & Hc & Hp & Hq & Hcalls & _ & _ & _ & Hj).
  exists c'. split; [exact Hs|]. split; [exact Hc|]. split; [exact Hp|]. split; [exact Hq|]. split; [|exact Hj].
  destruct (Hcalls 1 (call 1 (put_value (Integer 5)) ph_sent)) as (e' & He' & _ & Hr); [vm_compute; reflexivity|].
  exists e'. split; [exact He'|exact Hr].
Defined.

Lemma cancellation_scope_witness :
  (exists c', client_step demo (ce_monitor (only 2 true false)) = Step c'
     /\ completed_with demo c' 2 (call 2 (get_value 3) ph_queued) (inr (cause true)))
  /\ exists c', client_step demo (ce_monitor (only 1 false true)) = Step c'
     /\ failed_with demo c' (fun j => if j =? 1 then cause false else c_fail ck_disconnected).
Proof.
  split.
  - destruct (cancellation_scope demo_events demo 2 (call 2 (get_value 3) ph_queued) true false demo_run)
      as (c' & Hs & Hr & _); [vm_compute; reflexivity..|]. exists c'. split; [exact Hs|exact Hr].
  - destruct (cancellation_scope demo_events demo 1 (call 1 (put_value (Integer 5)) ph_sent) false true demo_run)
      as (c' & Hs & Hr); [vm_compute; reflexivity..|]. exists c'. split; [exact Hs|exact Hr].
Defined.

(** The server's answer to the first call, in time and late, and a broken pipe. *)
Definition answer : bytes :=
  match encode_response {| resp_id := 1; resp_body := o_record {| vr_id := 9; vr_data := Integer 5 |};
                           resp_version := version |} with inl b => b | inr _ => [] end.

Lemma response_correlated_witness :
  (exists c', client_step demo (ce_received (inl answer) false false) = Step c'
     /\ responded demo c' false false (inl answer))
  /\ (exists c', client_step demo (ce_received (inl answer) false true) = Step c'
        /\ responded demo c' false true (inl answer))
  /\ exists c', client_step demo (ce_received (inr (t_fail fk_disconnected)) false false) = Step c'
        /\ responded demo c' false false (inr (t_fail fk_disconnected)).
Proof.
  split; [|split]; apply (response_correlated demo_events demo); exact demo_run || (vm_compute; reflexivity).
Defined.

Example answer_completes :
  (exists c' e, client_step demo (ce_received (inl answer) false false) = Step c' /\ calls_ c' !! 1 = Some e
     /\ closed_ c' = false
     /\ pc_promise e = Some (inl {| resp_id := 1; resp_body := o_record {| vr_id := 9; vr_data := Integer 5 |};
                                    resp_version := 1 |})).
Proof. do 2 eexists. split; [vm_compute; reflexivity|]. split; [vm_compute; reflexivity|]. split; vm_compute; reflexivity. Qed.
End ClientDemo.
