(* ===== verification/ClientSteps.v ===== *)
(** * What a step of the client does to its calls

    Three steps of Client.v move a call: the writer takes it from the queue, the channel
    has sent it, the reader completes it with a response.  Every other step is [quiet]:
    it may admit one call, fail queued calls, or close the connection and fail all of
    them, but it moves no call towards the server and completes none with a response.
    [threads_ok] says where the threads of an open connection can be. *)
From stdpp Require Import prelude gmap strings sorting.
From Stdlib Require Import ZArith Lia.
From S2P Require Import Prelude Diagnostics Utf8 Contracts Validation Framing Transport Messages Codec Registry Store Client ClientProofs.

Section steps.
Context `{Utf8Ops} `{Protobuf}.
Implicit Types (c : client) (e : pending_call).

(** What may happen to the promise of a call: nothing, or a failure, and that only when
    the call is still queued or the connection closes. *)
Definition untouched c' e e' : Prop :=
  pc_request e' = pc_request e /\ pc_encoded e' = pc_encoded e /\ pc_progress e' = pc_progress e
  /\ (pc_promise e' = pc_promise e
      \/ (pc_promise e = None /\ (exists f, pc_promise e' = Some (inr f))
          /\ (closed_ c' = true \/ pc_progress e = ph_queued))).

Definition queued_entry e : Prop := pc_progress e = ph_queued /\ pc_promise e = None.

(** [fresh] is the identifier of the call the step admitted, if it did. *)
Record quiet (fresh : list Z) c c' : Prop := {
  q_old id e : calls_ c !! id = Some e -> exists e', calls_ c' !! id = Some e' /\ untouched c' e e';
  q_new id e : calls_ c' !! id = Some e -> calls_ c !! id = None -> id ∈ fresh /\ queued_entry e;
  q_queued : queued_ c' `sublist_of` queued_ c ++ fresh;
  q_writer id : writer_ c' = W_sending id -> writer_ c = W_sending id;
  q_kept id : writer_ c = W_sending id -> writer_ c' = W_sending id \/ closed_ c' = true;
  q_closed : closed_ c = true -> closed_ c' = true;
}.

Lemma untouched_refl c e : untouched c e e.
Proof. split_and!; auto. Qed.

Lemma untouched_trans c1 c2 e e1 e2 :
  (closed_ c1 = true -> closed_ c2 = true) -> untouched c1 e e1 -> untouched c2 e1 e2 -> untouched c2 e e2.
Proof.
  intros Hc (Hr1 & Hn1 & Hp1 & H1) (Hr2 & Hn2 & Hp2 & H2). split_and!; [congruence..|].
  destruct H1 as [H1|(H1 & (f & Hf) & Hw)], H2 as [H2|(H2 & (f2 & Hf2) & Hw2)].
  - left. congruence.
  - right. rewrite <- H1, <- Hp1. eauto.
  - right. split; [done|]. rewrite H2. split; [eauto|]. destruct Hw; auto.
  - congruence.
Qed.

Lemma quiet_same c c' :
  calls_ c' = calls_ c -> queued_ c' = queued_ c ->
  (closed_ c' = true \/ forall id, writer_ c = W_sending id -> writer_ c' = W_sending id) ->
  (forall id, writer_ c' = W_sending id -> writer_ c = W_sending id) ->
  (closed_ c = true -> closed_ c' = true) -> quiet [] c c'.
Proof.
  intros Hk Hq Hkept Hw Hc. split; try done.
  - intros id e He. exists e. rewrite Hk. split; [done|apply untouched_refl].
  - rewrite Hk. congruence.
  - by rewrite Hq, app_nil_r.
  - destruct Hkept; auto.
Qed.
Lemma quiet_refl c : quiet [] c c.
Proof. apply quiet_same; auto. Qed.

Lemma quiet_trans fresh c1 c2 c3 : quiet [] c1 c2 -> quiet fresh c2 c3 -> quiet fresh c1 c3.
Proof.
  intros [Ho1 Hn1 Hq1 Hw1 Hk1 Hc1] [Ho2 Hn2 Hq2 Hw2 Hk2 Hc2]. split; auto.
  - intros id e He. destruct (Ho1 id e He) as (e1 & He1 & Hu1). destruct (Ho2 id e1 He1) as (e2 & He2 & Hu2).
    exists e2. split; [done|]. by eapply untouched_trans.
  - intros id e He Hn. destruct (calls_ c2 !! id) as [e2|] eqn:E2; [|by apply Hn2].
    destruct (Hn1 id e2 E2 Hn) as [Hin%elem_of_nil _]. done.
  - rewrite app_nil_r in Hq1. etrans; [done|]. by apply sublist_app.
  - intros id Hw. destruct (Hk1 id Hw); auto.
Qed.

(** The threads can move. *)
Lemma quiet_threads fresh c c' w r m :
  quiet fresh c c' -> (closed_ c' = true \/ forall id, writer_ c = W_sending id -> w = W_sending id) ->
  (forall id, w = W_sending id -> writer_ c = W_sending id) -> quiet fresh c (set_threads c' w r m).
Proof. intros [] Hk ?. split; try done. destruct Hk; auto. Qed.

(** Failing the connection. *)
Lemma quiet_fail c common sid specific c' :
  client_ok c -> fail_locked c common sid specific = Some c' -> quiet [] c c' /\ closed_ c' = true.
Proof.
  intros ok Hf. destruct (closed_ c) eqn:Hc.
  { rewrite fail_locked_closed in Hf by done. injection Hf as <-. split; [apply quiet_refl|done]. }
  destruct (fail_locked_ok c common sid specific ok Hc) as (c2 & Hf2 & ok2 & Hcl & Hpe & Hfa & _ & _ & Hw & _).
  rewrite Hf in Hf2. injection Hf2 as <-. split; [|done]. split; try done.
  - intros id e He. rewrite Hfa, He. case_decide as Hp; [|exists e; split; [done|apply untouched_refl]].
    eexists. split; [done|]. split_and!; try done. right. cbn.
    apply (co_pending _ _ _ _ (ck_calls c ok)) in Hp as (e0 & He0 & Hn). split; [congruence|]. eauto.
  - intros id e. rewrite Hfa. intros He Hn. rewrite Hn in He. by case_decide.
  - rewrite app_nil_r. destruct (queued_ c') as [|q l] eqn:Eq; [apply sublist_nil_l|].
    assert (Hin : q ∈ pending_ c') by (apply queued_pending; [done|rewrite Eq; set_solver]). set_solver.
  - congruence.
  - by right.
Qed.

(** Failing one queued call. *)
Lemma quiet_settle c id e f :
  client_ok c -> calls_ c !! id = Some e -> pc_promise e = None -> pc_progress e = ph_queued ->
  quiet [] c (set_calls c (<[id := with_promise e (inr f)]> (calls_ c)) (pending_ c ∖ {[id]})
                (filter (fun q => q <> id) (queued_ c))).
Proof.
  intros ok He Hn Hq. split; try done; cbn.
  - intros j e0 Hj. destruct (decide (id = j)) as [<-|Hne].
    + rewrite lookup_insert_eq. eexists. split; [done|]. rewrite He in Hj. injection Hj as <-.
      split_and!; try done. right. eauto.
    + rewrite lookup_insert_ne by done. exists e0. split; [done|apply untouched_refl].
  - intros j e0 Hj Hno. rewrite lookup_insert_ne in Hj by congruence. congruence.
  - rewrite app_nil_r. apply sublist_filter.
  - by left.
Qed.

Lemma quiet_fail_step (f : option client -> stepped) (g : client -> client) c common sid specific c' :
  (forall o, f o = step_of (option_map g o)) ->
  (forall c2, closed_ (g c2) = closed_ c2) -> (forall c2, quiet [] c c2 -> closed_ c2 = true -> quiet [] c (g c2)) ->
  client_ok c -> f (fail_locked c common sid specific) = Step c' -> quiet [] c c' /\ closed_ c' = true.
Proof.
  intros Hf Hc Hg ok. rewrite Hf. destruct (fail_locked c common sid specific) as [c2|] eqn:E; [|done].
  intros [= <-]. destruct (quiet_fail c common sid specific c2 ok E) as [Hq Hcl]. split; [by apply Hg|by rewrite Hc].
Qed.
Lemma quiet_writer_fails c common sid specific c' :
  client_ok c -> then_writer (fail_locked c common sid specific) W_done = Step c' -> quiet [] c c' /\ closed_ c' = true.
Proof. apply (quiet_fail_step (fun o => then_writer o W_done) (fun c => set_writer c W_done)); try done. intros. apply quiet_threads; auto; done. Qed.
Lemma quiet_reader_fails c common sid specific c' :
  client_ok c -> then_reader (fail_locked c common sid specific) R_done = Step c' -> quiet [] c c' /\ closed_ c' = true.
Proof.
  apply (quiet_fail_step (fun o => then_reader o R_done) (fun c => set_reader c R_done)); try done. intros c2 Hq Hc. apply quiet_threads; [done|by left|apply Hq].
Qed.
Lemma quiet_monitor_fails c common sid specific c' :
  client_ok c -> then_monitor (fail_locked c common sid specific) M_done = Step c' -> quiet [] c c' /\ closed_ c' = true.
Proof.
  apply (quiet_fail_step (fun o => then_monitor o M_done) (fun c => set_monitor c M_done)); try done. intros c2 Hq Hc. apply quiet_threads; [done|by left|apply Hq].
Qed.
Lemma quiet_reader c r : quiet [] c (set_reader c r).
Proof. apply quiet_threads; [apply quiet_refl|by right|done]. Qed.
Lemma quiet_monitor c m : quiet [] c (set_monitor c m).
Proof. apply quiet_threads; [apply quiet_refl|by right|done]. Qed.
Lemma quiet_writer_done c : closed_ c = true -> quiet [] c (set_writer c W_done).
Proof. intros Hc. apply quiet_threads; [apply quiet_refl|by left|done]. Qed.

(** ** The effect of every step *)
Inductive client_effect c : c_event -> client -> Prop :=
  | ef_quiet ev c' : quiet [] c c' -> client_effect c ev c'
  | ef_admit op cancelled expired c' e :
      quiet [next_id_ c] c c' -> calls_ c' !! next_id_ c = Some e -> req_body (pc_request e) = op ->
      calls_ c !! next_id_ c = None -> next_id_ c' = next_id_ c + 1 -> 
      client_effect c (ce_call op cancelled expired) c'
  | ef_taken cancelled expired id queued :
      closed_ c = false -> writer_ c = W_idle -> queued_ c = id :: queued ->
      client_effect c (ce_pick cancelled expired)
        (set_writer (set_calls c (alter (fun e => with_progress e ph_writing) id (calls_ c)) (pending_ c) queued)
           (W_sending id))
  | ef_written sent id :
      closed_ c = false -> writer_ c = W_sending id -> id ∈ pending_ c ->
      client_effect c (ce_sent (inl sent))
        (set_writer (set_calls c (alter (fun e => with_progress e ph_sent) id (calls_ c)) (pending_ c) (queued_ c))
           W_idle)
  | ef_returned sent id :
      closed_ c = false -> writer_ c = W_sending id -> (id ∉ pending_ c) ->
      client_effect c (ce_sent (inl sent)) (set_writer c W_idle)
  | ef_completed p r e cancelled expired :
      closed_ c = false -> accepts c p r e ->
      client_effect c (ce_received (inl p) cancelled expired)
        (set_reader (set_calls c (<[resp_id r := with_promise e (inl r)]> (calls_ c)) (pending_ c ∖ {[resp_id r]})
                       (queued_ c)) (R_logging (resp_id r)))
  | ef_logged id :
      reader_ c = R_logging id ->
      client_effect c ce_logged (set_reader (add_client_log c (response_line id)) R_head).

(** A step that fails the connection, perhaps after other changes. *)
Ltac failing lemma :=
  let Hf := fresh in
  intros Hf; apply lemma in Hf; [destruct Hf as [Hf _]|done];
  first [exact Hf | by apply ef_quiet | by eapply quiet_trans].

Lemma quiet_connect c open endpoint cancelled expired threads c' :
  client_ok c -> (connect_async c open endpoint cancelled expired threads).2 = Step c' -> quiet [] c c'.
Proof.
  intros ok. pose proof (connect_good c open endpoint cancelled expired) as Hgood. unfold connect_async in *.
  destruct (started_ c) eqn:Hs; [intros [= <-]; apply quiet_refl|]. destruct (closed_ c) eqn:Hc; [intros [= <-]; apply quiet_refl|].
  cbn [orb]. destruct (negb open || negb (valid_endpoint endpoint)); [intros [= <-]; apply quiet_refl|].
  destruct (ck_started c ok Hs) as (Ho & Hcon & Hw). cbn [snd].
  set (c1 := set_flags c true _ _ _ _ _ _).
  assert (Hq1 : quiet [] c c1) by (apply quiet_same; try done; cbn; auto; congruence).
  assert (ok1 : client_ok c1) by (destruct ok; split; cbn; congruence || done).
  assert (Hth : forall created, quiet [] c (started_threads c1 created) /\ client_ok (started_threads c1 created)).
  { intros created. split; [apply quiet_threads; [done|right|]|apply set_threads_ok; try done];
      intros id; destruct (1 <=? created)%nat; cbn; congruence. }
  assert (Hfail : forall c2 f, quiet [] c c2 -> client_ok c2 -> step_of (fail_all c2 f) = Step c' -> quiet [] c c').
  { intros c2 f Hq2 ok2 Hf. unfold fail_all in Hf. destruct (fail_locked c2 f 0 _) as [c3|] eqn:E; [|done].
    injection Hf as <-. eapply quiet_trans; [exact Hq2|]. by eapply quiet_fail. }
  destruct (cancelled || expired); [by eapply Hfail|]. destruct threads as [[created code]|].
  - by eapply Hfail; apply Hth.
  - intros [= <-]. apply Hth.
Qed.

Lemma quiet_opened c opened expired c' : client_ok c -> writer_opened c opened expired = Step c' -> quiet [] c c'.
Proof.
  intros ok. unfold writer_opened. destruct (writer_ c) eqn:Hw; try done.
  destruct opened as [channel|error]; [|failing quiet_writer_fails].
  set (c1 := set_flags c _ _ _ _ _ channel _).
  assert (ok1 : client_ok c1) by (destruct ok; by split).
  assert (Hq1 : quiet [] c c1) by (apply quiet_same; auto).
  destruct (closed_ c1) eqn:Hc; [intros [= <-]; apply quiet_threads; auto; done|].
  destruct (negb channel); [failing quiet_writer_fails|].
  destruct (c_shutdown_ c1); [failing quiet_writer_fails|].
  destruct expired; [failing quiet_writer_fails|].
  destruct (opening_ c1); [done|]. intros [= <-]. change (closed_ c = false) in Hc.
  apply quiet_same; cbn; auto; try congruence. right. congruence.
Qed.

Lemma quiet_sweep probe ids : forall c c', client_ok c -> NoDup ids -> (forall id, id ∈ ids -> id ∈ pending_ c) ->
  sweep c probe ids = Step c' -> quiet [] c c'.
Proof.
  induction ids as [|id ids IH]; intros c c' ok Hnd Hin; cbn [sweep]; [intros [= <-]; apply quiet_refl|].
  apply NoDup_cons in Hnd as [Hni Hnd]. destruct (probe id) as [cancelled expired].
  destruct (cancelled || expired); [|apply IH; [done..|set_solver]].
  assert (Hp : id ∈ pending_ c) by (apply Hin; set_solver).
  pose proof Hp as (e & He & Hn)%(co_pending _ _ _ _ (ck_calls c ok)). rewrite He.
  destruct (is_queued (pc_progress e)) eqn:Hq; cbn [negb]; [|failing quiet_monitor_fails].
  destruct (settle_good c id e (inr (cause cancelled)) ok He Hp I) as (-> & ok' & _). cbn [calls_ set_calls].
  intros Hs. eapply quiet_trans; [apply (quiet_settle c id e (cause cancelled)); try done; by destruct (pc_progress e)|].
  eapply IH; [exact ok'|done| |exact Hs]. intros j Hj. cbn. rewrite elem_of_difference, elem_of_singleton.
  split; [set_solver|]. by intros ->.
Qed.

Lemma call_effect c op cancelled expired :
  client_ok c -> client_effect c (ce_call op cancelled expired) (call_async c op cancelled expired).2.
Proof.
  intros ok. unfold call_async.
  assert (Hsame : client_effect c (ce_call op cancelled expired) c) by apply ef_quiet, quiet_refl.
  destruct (negb (connected_ c) || closed_ c); [exact Hsame|].
  destruct cancelled; [exact Hsame|]. destruct expired; [exact Hsame|].
  destruct ((max_pending_calls <=? Z.of_nat (size (pending_ c))) || (next_id_ c =? u64_max)) eqn:Hsz; [exact Hsame|].
  destruct (encode_request _) as [enc|] eqn:Henc; [|exact Hsame]. cbn [snd]. apply orb_false_iff in Hsz as [_ Hmax%Z.eqb_neq].
  pose proof (co_next _ _ _ _ (ck_calls c ok)) as Hnx.
  assert (Hfresh : calls_ c !! next_id_ c = None).
  { destruct (calls_ c !! next_id_ c) as [e|] eqn:E; [|done].
    destruct (co_entry _ _ _ _ (ck_calls c ok) _ e E) as (_ & _ & Hr & _). lia. }
  eapply ef_admit; [|cbn; by rewrite lookup_insert_eq|done|done|by apply wrap_next]. split; try done; cbn.
  - intros id e He. exists e. rewrite lookup_insert_ne by congruence. split; [done|apply untouched_refl].
  - intros id e He Hn. apply lookup_insert_Some in He as [[<- <-]|[_ He]]; [|congruence]. split; [set_solver|done].
  - by left.
Qed.

Lemma pick_effect c cancelled expired c' :
  client_ok c -> writer_pick c cancelled expired = Step c' -> client_effect c (ce_pick cancelled expired) c'.
Proof.
  intros ok.
  unfold writer_pick. destruct (writer_ c) eqn:Hw; try done.
  destruct (closed_ c) eqn:Hc; [intros [= <-]; by apply ef_quiet, quiet_writer_done|].
  destruct (queued_ c) as [|id queued] eqn:Hq; [done|].
  destruct (cancelled || expired) eqn:Hx; [|intros [= <-]; by apply ef_taken].
  assert (Hin : id ∈ queued_ c) by (rewrite Hq; set_solver).
  pose proof (co_nodup _ _ _ _ (ck_calls c ok)) as Hnd. rewrite Hq in Hnd. apply NoDup_cons in Hnd as [Hni _].
  pose proof Hin as (e & He & Hn & Hph)%(co_queue _ _ _ _ (ck_calls c ok)).
  unfold set_value. rewrite He, Hn. intros [= <-].
  pose proof (quiet_settle c id e (cause cancelled) ok He Hn Hph) as Hs.
  rewrite Hq, filter_cons_False, filter_other in Hs by (done || tauto). by apply ef_quiet.
Qed.

Lemma received_effect c payload cancelled expired c' :
  client_ok c -> reader_received c payload cancelled expired = Step c' ->
  client_effect c (ce_received payload cancelled expired) c'.
Proof.
  intros ok.
  unfold reader_received. destruct (reader_ c) eqn:Hrd; try done.
  destruct (closed_ c) eqn:Hc; [intros [= <-]; apply ef_quiet, quiet_reader|].
  destruct payload as [p|error]; [|failing quiet_reader_fails].
  destruct (decode_response p) as [r|] eqn:Hd; [|failing quiet_reader_fails].
  case_bool_decide as Hp; [|failing quiet_reader_fails].
  pose proof Hp as (e & He & Hn)%(co_pending _ _ _ _ (ck_calls c ok)). rewrite He.
  destruct (is_queued (pc_progress e)) eqn:Hph; [failing quiet_reader_fails|]. cbn [orb].
  destruct (matches _ _) eqn:Hm; [cbn [negb]|failing quiet_reader_fails].
  destruct (cancelled || expired); [failing quiet_reader_fails|].
  unfold set_value. rewrite He, Hn. intros [= <-]. apply ef_completed; [done|]. split_and!; try done.
  intros E. by rewrite E in Hph.
Qed.

Lemma client_step_effect c ev c' : client_ok c -> client_step c ev = Step c' -> client_effect c ev c'.
Proof.
  intros ok. destruct ev; cbn [client_step].
  - intros Hs. by eapply ef_quiet, quiet_connect.
  - intros [= <-]. by apply call_effect.
  - unfold close_client, fail_all. intros Hs. destruct (fail_locked c _ _ _) as [c2|] eqn:E; [|done]. injection Hs as <-.
    by eapply ef_quiet, quiet_fail.
  - unfold connect_stop. destruct (writer_ c); try done. intros [= <-]. apply ef_quiet, quiet_same; auto.
  - intros Hs. by eapply ef_quiet, quiet_opened.
  - by apply pick_effect.
  - unfold writer_sent. destruct (writer_ c) as [| | |id|] eqn:Hw; try done.
    destruct (closed_ c) eqn:Hc; [intros [= <-]; by apply ef_quiet, quiet_writer_done|].
    destruct sent as [n|error]; [|failing quiet_writer_fails].
    case_bool_decide; intros [= <-]; [by apply ef_written|by eapply ef_returned].
  - unfold reader_connected. rewrite ?wait_connected_eq. destruct (reader_ c); try done. destruct (closed_ c); [intros [= <-]; apply ef_quiet, quiet_reader|].
    destruct (connected_ c); [intros [= <-]; apply ef_quiet, quiet_reader|done].
  - unfold reader_check. destruct (reader_ c); try done. intros [= <-]; apply ef_quiet, quiet_reader.
  - by apply received_effect.
  - unfold reader_logged. destruct (reader_ c) as [| | | |id|] eqn:Hr; try done. intros [= <-]. by apply ef_logged.
  - unfold monitor_step. rewrite ?wait_connected_eq. destruct (monitor_ c); try done.
    + destruct (closed_ c); [intros [= <-]; apply ef_quiet, quiet_monitor|].
      destruct (connected_ c); [intros [= <-]; apply ef_quiet, quiet_monitor|done].
    + destruct (closed_ c); [intros [= <-]; apply ef_quiet, quiet_monitor|]. intros Hs. eapply ef_quiet, quiet_sweep;
        [done|apply pending_ids_nodup| |exact Hs]. intros id. apply pending_ids_spec.
Qed.

(** A payload that can be accepted completes its call, or the connection closes. *)
Lemma read_effect c p r e cancelled expired c' :
  client_ok c -> accepts c p r e -> closed_ c = false ->
  client_step c (ce_received (inl p) cancelled expired) = Step c' ->
  (quiet [] c c' /\ closed_ c' = true)
  \/ c' = set_reader (set_calls c (<[resp_id r := with_promise e (inl r)]> (calls_ c)) (pending_ c ∖ {[resp_id r]})
                        (queued_ c)) (R_logging (resp_id r)).
Proof.
  intros ok (Hd & He & Hn & Hph & Hm) Hc. cbn [client_step]. unfold reader_received.
  destruct (reader_ c) eqn:Hrd; try done. rewrite Hc, Hd, bool_decide_eq_true_2, He, Hm
    by (apply (co_pending _ _ _ _ (ck_calls c ok)); eauto).
  replace (is_queued (pc_progress e)) with false by (by destruct (pc_progress e)). cbn [orb negb].
  destruct (cancelled || expired); [intros Hf%quiet_reader_fails; [by left|done]|].
  unfold set_value. rewrite He, Hn. intros [= <-]. by right.
Qed.

Lemma read_closed c payload cancelled expired c' :
  closed_ c = true -> client_step c (ce_received payload cancelled expired) = Step c' ->
  quiet [] c c' /\ closed_ c' = true.
Proof.
  intros Hc. cbn [client_step]. unfold reader_received. destruct (reader_ c); try done. rewrite Hc.
  intros [= <-]. split; [apply quiet_reader|done].
Qed.

(** ** The threads of an open connection *)
Record threads_ok c : Prop := {
  th_closed : connected_ c = true -> closed_ c = false -> c_shutdown_ c = false;
  th_writer : connected_ c = true -> closed_ c = false -> writer_ c = W_idle \/ exists id, writer_ c = W_sending id;
  th_reader :
    connected_ c = true -> closed_ c = false -> 
      reader_ c = R_waiting \/ reader_ c = R_head \/ (exists id, reader_ c = R_logging id) \/ reader_ c = R_receiving;
  th_opening : writer_ c = W_opening -> connected_ c = false /\ (closed_ c = true \/ reader_ c = R_waiting);
  th_before : connected_ c = false -> reader_ c = R_none \/ reader_ c = R_waiting \/ reader_ c = R_done;
  th_started : started_ c = false -> connected_ c = false;
}.

Lemma new_client_threads : threads_ok new_client.
Proof. split; cbn; auto; done. Qed.

(** What failing the connection and sweeping the calls leave alone. *)
Definition same_threads c c' : Prop :=
  connected_ c' = connected_ c /\ started_ c' = started_ c /\ reader_ c' = reader_ c /\ writer_ c' = writer_ c
  /\ (closed_ c' = true \/ closed_ c' = closed_ c /\ c_shutdown_ c' = c_shutdown_ c).

Lemma same_threads_trans c1 c2 c3 : same_threads c1 c2 -> same_threads c2 c3 -> same_threads c1 c3.
Proof. unfold same_threads. intuition congruence. Qed.

Lemma fail_threads c common sid specific c' :
  fail_locked c common sid specific = Some c' -> same_threads c c' /\ closed_ c' = true.
Proof. unfold fail_locked, same_threads. intros Hf. repeat case_match; simplify_eq; cbn; auto 10. Qed.

(** A thread may end, and the connection may close. *)
Lemma threads_ok_ends c c' :
  threads_ok c -> connected_ c' = connected_ c -> (started_ c = true -> started_ c' = true) ->
  (writer_ c' = writer_ c \/ (closed_ c' = true /\ writer_ c' = W_done)) ->
  (reader_ c' = reader_ c \/ (closed_ c' = true /\ reader_ c' = R_done)) ->
  (closed_ c' = true \/ closed_ c' = closed_ c /\ c_shutdown_ c' = c_shutdown_ c) -> threads_ok c'.
Proof.
  intros [H1 H2 H3 H4 H5 H6] Hcon Hst Hw Hr Hc. split; rewrite ?Hcon.
  - intros Hn Hcl. destruct Hc as [?|[? ->]]; [congruence|]. apply H1; congruence.
  - intros Hn Hcl. destruct Hw as [->|[? _]], Hc as [?|[? _]]; try congruence. apply H2; congruence.
  - intros Hn Hcl. destruct Hr as [->|[? _]], Hc as [?|[? _]]; try congruence. apply H3; congruence.
  - intros Hop. destruct Hw as [Hw|[_ Hw]]; [|congruence]. rewrite Hw in Hop. destruct (H4 Hop) as [? Hor].
    split; [done|]. destruct Hc as [?|[Hce _]]; [by left|].
    destruct Hor as [|Hrw]; [left; congruence|].
    destruct Hr as [->|[Hcl _]]; [by right|by left].
  - intros Hn. destruct Hr as [->|[_ ->]]; auto.
  - intros Hns. apply H6. destruct (started_ c); [|done]. by rewrite Hst in Hns.
Qed.

Lemma same_threads_ok c c' : threads_ok c -> same_threads c c' -> threads_ok c'.
Proof. intros ok (Hcon & Hst & Hr & Hw & Hc). apply (threads_ok_ends c c' ok); auto. by rewrite Hst. Qed.

Lemma sweep_threads probe ids : forall c c', sweep c probe ids = Step c' -> same_threads c c'.
Proof.
  induction ids as [|id ids IH]; intros c c'; cbn [sweep]; [intros [= <-]; unfold same_threads; auto 10|].
  destruct (probe id) as [cancelled expired]. destruct (cancelled || expired); [|apply IH].
  destruct (calls_ c !! id) as [e|]; [|done]. destruct (negb (is_queued (pc_progress e))).
  - destruct (fail_locked c _ _ _) as [c2|] eqn:E; [|done]. intros [= <-]. by apply fail_threads in E as [E _].
  - destruct (set_value (calls_ c) id _) as [calls|]; [|done]. intros Hs%IH.
    eapply same_threads_trans; [|exact Hs]. unfold same_threads. cbn. auto 10.
Qed.

Lemma fail_threads_ok c common sid specific c' :
  threads_ok c -> fail_locked c common sid specific = Some c' ->
  threads_ok c' /\ threads_ok (set_writer c' W_done) /\ threads_ok (set_reader c' R_done)
  /\ threads_ok (set_monitor c' M_done).
Proof.
  intros ok [(Hcon & Hst & Hr & Hw & Hc) Hcl]%fail_threads.
  split_and!; apply (threads_ok_ends c _ ok); cbn; rewrite ?Hst; auto.
Qed.

(** Closes a step that fails the connection. *)
Ltac fail_threads_tac :=
  match goal with
  | |- context [fail_locked ?c ?a ?b ?d] =>
      let E := fresh in destruct (fail_locked c a b d) as [?|] eqn:E; [|done];
      apply fail_threads_ok in E; [|done]; intros [= <-]; apply E
  end.

Lemma connect_threads c open endpoint cancelled expired threads c' :
  client_ok c -> threads_ok c -> (connect_async c open endpoint cancelled expired threads).2 = Step c' -> threads_ok c'.
Proof.
  intros ok Hok. unfold connect_async. destruct (started_ c) eqn:Hs; [by intros [= <-]|].
  destruct (closed_ c) eqn:Hc; [by intros [= <-]|]. cbn [orb].
  destruct (negb open || negb (valid_endpoint endpoint)); [by intros [= <-]|]. cbn [snd].
  destruct (ck_started c ok Hs) as (_ & Hcon & Hw). unfold fail_all.
  set (c1 := set_flags c true _ _ _ _ _ _).
  assert (Hok1 : threads_ok c1) by (apply (threads_ok_ends c _ Hok); cbn; auto).
  destruct (cancelled || expired); [fail_threads_tac|]. destruct threads as [[created code]|].
  - destruct (fail_locked _ _ _ _) as [c2|] eqn:E; [|done]. intros [= <-].
    apply fail_threads in E as [(Hcon2 & Hst2 & Hr2 & Hw2 & _) Hcl2].
    pose proof (th_before c Hok Hcon) as Hb. cbn in Hcon2, Hst2, Hr2.
    split; try (intros; congruence).
    + intros _. rewrite Hcon2. auto.
    + intros _. rewrite Hr2. destruct created as [|[|n]]; auto.
  - intros [= <-]. split; cbn; try congruence; auto.
Qed.

Lemma opened_threads c opened expired c' : client_ok c -> threads_ok c -> writer_opened c opened expired = Step c' -> threads_ok c'.
Proof.
  intros ok Hok.
  unfold writer_opened, fail_all. destruct (writer_ c) eqn:Hw; try done.
  destruct opened as [channel|error]; [|unfold then_writer; fail_threads_tac].
  set (c1 := set_flags c _ _ _ _ _ channel _).
  assert (Hok1 : threads_ok c1) by (apply (threads_ok_ends c _ Hok); cbn; auto). unfold then_writer.
  destruct (closed_ c1) eqn:Hc; [intros [= <-]; apply (threads_ok_ends c _ Hok); cbn; auto|].
  destruct (negb channel); [fail_threads_tac|]. destruct (c_shutdown_ c1) eqn:Hsd; [fail_threads_tac|].
  destruct expired; [fail_threads_tac|]. destruct (opening_ c1); [done|]. intros [= <-].
  destruct (th_opening c Hok Hw) as [_ [Hbad|Hrw]]; [change (closed_ c = false) in Hc; congruence|].
  assert (Hst : started_ c <> false) by (intros E; destruct (ck_started c ok E) as (_ & _ & ?); congruence).
  split; cbn; try congruence; auto.
Qed.

Lemma writer_threads c cancelled expired c' : threads_ok c -> writer_pick c cancelled expired = Step c' -> threads_ok c'.
Proof.
  intros Hok.
  unfold writer_pick. destruct (writer_ c) eqn:Hw; try done.
  destruct (closed_ c) eqn:Hc; [intros [= <-]; apply (threads_ok_ends c _ Hok); cbn; auto|].
  destruct (queued_ c) as [|id queued]; [done|]. destruct (cancelled || expired).
  - destruct (set_value _ _ _); [|done]. intros [= <-]. apply (threads_ok_ends c _ Hok); cbn; auto.
  - intros [= <-]. destruct Hok as [H1 H2 H3 H4 H5 H6]. split; cbn; eauto; done.
Qed.

Lemma sent_threads c sent c' : threads_ok c -> writer_sent c sent = Step c' -> threads_ok c'.
Proof.
  intros Hok.
  unfold writer_sent. destruct (writer_ c) as [| | |id|] eqn:Hw; try done.
  destruct (closed_ c) eqn:Hc; [intros [= <-]; apply (threads_ok_ends c _ Hok); cbn; auto|].
  destruct sent as [n|error]; [|unfold then_writer; fail_threads_tac].
  case_bool_decide as Hpen; intros [= <-]; destruct Hok as [H1 H2 H3 H4 H5 H6]; split; cbn; eauto; done.
Qed.

Lemma connected_threads c c' : threads_ok c -> reader_connected c = Step c' -> threads_ok c'.
Proof.
  intros Hok.
  unfold reader_connected. rewrite ?wait_connected_eq. destruct (reader_ c) eqn:Hr; try done.
  destruct (closed_ c) eqn:Hc; [intros [= <-]; apply (threads_ok_ends c _ Hok); cbn; auto|].
  destruct (connected_ c) eqn:Hcon; [|done]. intros [= <-]. destruct Hok as [H1 H2 H3 H4 H5 H6].
  split; cbn; rewrite ?Hcon; auto; try done; intros Hx; [destruct (H4 Hx)|specialize (H6 Hx)]; congruence.
Qed.

Lemma check_threads c c' : threads_ok c -> reader_check c = Step c' -> threads_ok c'.
Proof.
  intros Hok.
  unfold reader_check. destruct (reader_ c) eqn:Hr; try done. intros [= <-].
  destruct Hok as [H1 H2 H3 H4 H5 H6]. split; cbn; auto.
  - intros Hcon Hc. rewrite H1 by done. auto.
  - intros Hw. destruct (H4 Hw) as [? [?|?]]; [auto|congruence].
  - intros Hcon. destruct (H5 Hcon) as [?|[?|?]]; congruence.
Qed.

Lemma received_threads c payload cancelled expired c' :
  threads_ok c -> reader_received c payload cancelled expired = Step c' -> threads_ok c'.
Proof.
  intros Hok.
  unfold reader_received. destruct (reader_ c) eqn:Hr; try done.
  destruct (closed_ c) eqn:Hc; [intros [= <-]; apply (threads_ok_ends c _ Hok); cbn; auto|].
  unfold then_reader, fail_all. destruct payload as [p|error]; [|fail_threads_tac].
  destruct (decode_response p) as [r|]; [|fail_threads_tac].
  destruct (if bool_decide _ then _ else _) as [e|]; [|fail_threads_tac].
  destruct (_ || _); [fail_threads_tac|]. destruct (_ || _); [fail_threads_tac|].
  destruct (set_value _ _ _); [|done]. intros [= <-]. destruct Hok as [H1 H2 H3 H4 H5 H6]. split; cbn; eauto 6.
  - intros Hw. destruct (H4 Hw) as [? [?|?]]; congruence.
  - intros Hcon. destruct (H5 Hcon) as [?|[?|?]]; congruence.
Qed.

Lemma logged_threads c c' : threads_ok c -> reader_logged c = Step c' -> threads_ok c'.
Proof.
  intros Hok. unfold reader_logged. destruct (reader_ c) as [| | | |id|] eqn:Hr; try done. intros [= <-].
  destruct Hok as [H1 H2 H3 H4 H5 H6]. split; cbn; auto.
  - intros Hw. destruct (H4 Hw) as [? [?|?]]; [auto|congruence].
  - intros Hcon. destruct (H5 Hcon) as [?|[?|?]]; congruence.
Qed.

Lemma client_step_threads c ev c' : client_ok c -> threads_ok c -> client_step c ev = Step c' -> threads_ok c'.
Proof.
  intros ok Hok. destruct ev; cbn [client_step].
  - by apply connect_threads.
  - intros [= <-]. unfold call_async. repeat case_match; try done. apply (threads_ok_ends c _ Hok); cbn; auto.
  - unfold close_client, fail_all. fail_threads_tac.
  - unfold connect_stop. destruct (writer_ c) eqn:Hw; try done. intros [= <-]. destruct Hok as [H1 H2 H3 H4 H5 H6].
    destruct (H4 Hw) as [Hcon _]. split; cbn; congruence || auto.
  - by apply opened_threads.
  - by apply writer_threads.
  - by apply sent_threads.
  - by apply connected_threads.
  - by apply check_threads.
  - by apply received_threads.
  - by apply logged_threads.
  - unfold monitor_step. rewrite ?wait_connected_eq. destruct (monitor_ c); try done;
      (destruct (closed_ c) eqn:Hc; [intros [= <-]; apply (threads_ok_ends c _ Hok); cbn; auto|]).
    + destruct (connected_ c); [|done]. intros [= <-]. apply (threads_ok_ends c _ Hok); cbn; auto.
    + intros Hs%sweep_threads. by eapply same_threads_ok.
Qed.

(** ** The debug log *)

(** The lines of the log, with the one the reader is about to write. *)
Definition log_lines_of c : list (log_level * string) :=
  c_log_ c ++ match reader_ c with R_logging id => [response_line id] | _ => [] end.
Definition answered c (line : log_level * string) : Prop :=
  exists id e r, calls_ c !! id = Some e /\ pc_promise e = Some (inl r) /\ line = response_line id.
Definition log_ok c : Prop := Forall (answered c) (log_lines_of c).

Lemma fail_log c common sid specific c' :
  fail_locked c common sid specific = Some c' -> c_log_ c' = c_log_ c /\ reader_ c' = reader_ c.
Proof. unfold fail_locked. intros Hf. repeat case_match; simplify_eq; done. Qed.

Lemma sweep_log probe ids : forall c c', sweep c probe ids = Step c' -> c_log_ c' = c_log_ c /\ reader_ c' = reader_ c.
Proof.
  induction ids as [|id ids IH]; intros c c'; cbn [sweep]; [by intros [= <-]|].
  destruct (probe id) as [cancelled expired]. destruct (cancelled || expired); [|apply IH].
  destruct (calls_ c !! id) as [e|]; [|done]. destruct (negb (is_queued (pc_progress e))).
  - destruct (fail_locked c _ _ _) as [c2|] eqn:E; [|done]. intros [= <-]. by apply fail_log in E.
  - destruct (set_value (calls_ c) id _) as [calls|]; [|done]. by intros Hs%IH.
Qed.

(** A step writes the line the reader holds, or leaves the log alone; the reader gets a
    line to write only with a call it has completed. *)
Definition logs c c' : Prop :=
  (c_log_ c' = c_log_ c
   /\ (reader_ c' = reader_ c \/ (forall id, reader_ c' <> R_logging id)
       \/ exists id e r, reader_ c' = R_logging id /\ calls_ c' !! id = Some e /\ pc_promise e = Some (inl r)))
  \/ (exists id, reader_ c = R_logging id /\ c_log_ c' = c_log_ c ++ [response_line id] /\ reader_ c' = R_head).

Lemma step_log c ev c' : client_step c ev = Step c' -> logs c c'.
Proof.
  unfold logs. destruct ev; cbn [client_step]; intros Hs;
    unfold connect_async, call_async, close_client, connect_stop, writer_opened, writer_pick, writer_sent, reader_connected,
      reader_check, reader_received, reader_logged, monitor_step, fail_all, then_writer, then_reader, then_monitor, step_of,
      option_map in Hs;
    repeat case_match; simplify_eq; cbn in *; simplify_eq;
    try match goal with
    | E : fail_locked _ _ _ _ = Some _ |- _ => apply fail_log in E as [El Er]; cbn in El, Er; rewrite ?El, ?Er
    | E : sweep _ _ _ = Step _ |- _ => apply sweep_log in E as [El Er]; rewrite ?El, ?Er
    end; try (by left; split; [|by right; left]); eauto 6; left; (split; [done|]).
  - destruct n as [|[|n]]; [by left..|right; by left].
  - right; right. unfold set_value in *. repeat case_match; simplify_eq. eexists _, _, _. rewrite lookup_insert_eq. done.
Qed.

Lemma answered_grow c c' line : calls_grow (calls_ c) (calls_ c') -> answered c line -> answered c' line.
Proof.
  intros Hg (id & e & r & He & Hp & ->). destruct (Hg id e He) as (e' & He' & _ & _ & Hk). exists id, e', r. auto.
Qed.

Lemma step_log_ok c ev c' : client_ok c -> log_ok c -> client_step c ev = Step c' -> log_ok c'.
Proof.
  intros ok Hl Hs. pose proof (client_step_good c ev ok) as Hg. rewrite Hs in Hg. destruct Hg as [_ [Hg _ _ _ _]].
  assert (Hl' : Forall (answered c') (log_lines_of c)) by (eapply Forall_impl; [done|]; intros; by eapply answered_grow).
  unfold log_ok, log_lines_of in *. apply Forall_app in Hl' as [Hl1 Hl2].
  destruct (step_log c ev c' Hs) as [(-> & [->|[Hn|(id & e & r & -> & He & Hp)]])|(id & Hr & -> & ->)];
    (apply Forall_app; split; [try done|try done]).
  - destruct (reader_ c'); try done. by destruct (Hn id).
  - apply Forall_singleton. by exists id, e, r.
  - rewrite Hr in Hl2. apply Forall_app. by split.
Qed.

(** Every line of the client's debug log names a call that was completed with a response. *)
Theorem client_log_correct evs c :
  client_run new_client evs = Step c -> Forall (answered c) (c_log_ c).
Proof.
  assert (Hind : forall evs c0, client_ok c0 -> log_ok c0 -> client_run c0 evs = Step c -> log_ok c).
  { intros l. induction l as [|ev l IH]; intros c0 ok Hl Hr; cbn in Hr; [by injection Hr as <-|].
    destruct (client_step c0 ev) as [c1| |] eqn:Es; [|done..]. apply (IH c1); [|by eapply step_log_ok|done].
    pose proof (client_step_good c0 ev ok) as Hg. rewrite Es in Hg. apply Hg. }
  intros Hr. specialize (Hind evs new_client new_client_ok (Forall_nil_2 _) Hr). by apply Forall_app in Hind as [? _].
Qed.
End steps.
