(* ===== verification/Application.v ===== *)
(** * The applications (src/cli/application.cpp, src/cli/server_commands.cpp, apps)

    [run_application] parses the arguments, opens the diagnostics, runs one command inside
    a profiling scope and reports the exit code; [run_server_command] registers the
    built-in classes, starts the host and stops it when its controller asks.  The streams
    are the texts written to them; the clock, the sinks and the operating system answer
    through the arguments.  A result [None] is a null dereference. *)
From stdpp Require Import prelude gmap strings pretty.
From Stdlib Require Import Ascii ZArith Lia.
From S2P Require Import Prelude Json Diagnostics DiagnosticsProofs Utf8 Contracts Validation Framing Transport Messages Codec CommandLine Registry Store Builtins Dispatcher Server.

Definition newline : string := String "010" "".

(** The lines of standard input, the texts inserted into the two output streams, whether
    the output stream is still good, and the session. *)
Record console := { c_in : list string; c_out : string; c_out_ok : bool; c_err : string; c_session : session_world }.
Definition set_in (c : console) (lines : list string) : console :=
  {| c_in := lines; c_out := c_out c; c_out_ok := c_out_ok c; c_err := c_err c; c_session := c_session c |}.
(** [ok] is whether the stream took the text; a stream that failed stays failed. *)
Definition put_out (ok : bool) (c : console) (text : string) : console :=
  {| c_in := c_in c; c_out := c_out c +:+ text; c_out_ok := c_out_ok c && ok; c_err := c_err c; c_session := c_session c |}.
Definition put_err (c : console) (text : string) : console :=
  {| c_in := c_in c; c_out := c_out c; c_out_ok := c_out_ok c; c_err := c_err c +:+ text; c_session := c_session c |}.
Definition set_session (c : console) (w : session_world) : console :=
  {| c_in := c_in c; c_out := c_out c; c_out_ok := c_out_ok c; c_err := c_err c; c_session := w |}.

(** A command and its exit code. *)
Definition command_handler : Type := invocation -> console -> Z * console.

(** What the environment answers during one run: clock readings, whether the sinks wrote
    a line and the output stream its text, and the identity of the thread. *)
Record app_env := {
  env_open : Z;
  env_header : bool;
  env_process : bool;
  env_begin : Z;
  env_print : Z * Z * sink_io;
  env_output : bool;
  env_started : bool;
  env_completed : bool;
  env_end : Z * sink_io;
  env_finish : sink_io;
  env_thread : Z;
}.

(** The scope objects of [run_application] and [print_command]. *)
Definition command_scope : Z := 1.
Definition print_scope : Z := 2.

Section application.
Context `{Json} `{Filesystem} (process_id : Z) (profiling_enabled : bool) (binary_version : string).

Definition usage (name : string) : string :=
  "Usage: " +:+ name +:+ " [--log-file PATH] [--trace-file PATH] COMMAND [OPTIONS]" +:+ newline
  +:+ "Commands: --help, --version, "
  +:+ (if bool_decide (name = "pipeforge-server") then "--serve" else "--demo-sync, --demo-async, --demo-mixed")
  +:+ newline
  +:+ "Options: --endpoint LOCAL_PIPE --timeout-ms 10..60000; server: --sessions 1..4" +:+ newline
  +:+ "Server: type stop or close stdin for graceful shutdown." +:+ newline
  +:+ "Profiling: " +:+ (if profiling_enabled then "enabled" else "disabled") +:+ newline
  +:+ "Protocol: " +:+ to_string supported_version +:+ " (Protobuf)" +:+ newline
  +:+ "Runtime IPC commands require Windows x64." +:+ newline.

Definition command_output (name : string) (command : application_command) : string :=
  match command with
  | cmd_version => name +:+ " " +:+ binary_version +:+ newline
  | _ => usage name
  end.

(** The state of the output stream is not looked at. *)
Definition print_command (name : string) (command : application_command) (env : app_env) (c : console)
  : option (Z * console) :=
  let '(start, stop, io) := env_print env in
  let c1 := set_session c (open_scope (c_session c) print_scope (env_thread env) "print_command" start) in
  let c2 := put_out (env_output env) c1 (command_output name command) in
  match close_scope process_id (c_session c2) print_scope stop io with
  | None => None
  | Some (_, w) => Some (0, set_session c2 w)
  end.

(** The guards before the diagnostics are opened. *)
Definition usage_error (name : string) (arguments : list string) (handler : option command_handler)
  : (invocation * diagnostic_options) + string :=
  match parse name arguments default_diagnostics with
  | inr error => inr error
  | inl (parsed, options) =>
      if is_runtime (inv_command parsed) && negb (has_value handler)
      then inr "Runtime IPC commands require Windows x64."
      else if negb profiling_enabled && negb (path_empty (trace_file options))
      then inr "Profiling is disabled in this build."
      else inl (parsed, options)
  end.

(** The block of the scope [cli.command]: what precedes the command, and what follows it. *)
Definition begin_command (env : app_env) (c : console) : console :=
  let c1 := set_session c (open_scope (c_session c) command_scope (env_thread env) "cli.command" (env_begin env)) in
  set_session c1 (session_log (c_session c1) level_info "Command started" (env_started env)).

Definition end_command (env : app_env) (result : Z) (c : console) : option (Z * console) :=
  let c1 := set_session c (session_log (c_session c) level_info "Command completed" (env_completed env)) in
  match close_scope process_id (c_session c1) command_scope (env_end env).1 (env_end env).2 with
  | None => None
  | Some (_, w) => Some (result, set_session c1 w)
  end.

Definition run_command (name : string) (parsed : invocation) (handler : option command_handler) (env : app_env)
    (c : console) : option (Z * console) :=
  let c1 := begin_command env c in
  match (match handler, is_runtime (inv_command parsed) with
         | Some h, true => Some (h parsed c1)
         | _, _ => print_command name (inv_command parsed) env c1
         end) with
  | None => None
  | Some (result, c2) => end_command env result c2
  end.

Definition run_application (name : string) (arguments : list string) (handler : option command_handler)
    (env : app_env) (c : console) : option (Z * console) :=
  match usage_error name arguments handler with
  | inr error => Some (2, put_err c (error +:+ newline))
  | inl (parsed, options) =>
      match open_diagnostic_session process_id profiling_enabled name options (env_open env) (env_header env)
              (env_process env) with
      | inr error => Some (1, put_err c ("Diagnostics I/O error: " +:+ error +:+ newline))
      | inl session =>
          match run_command name parsed handler env (set_session c session) with
          | None => None
          | Some (result, c1) =>
              let '(finished, w) := session_finish (c_session c1) (env_finish env) in
              let c2 := set_session c1 w in
              if negb finished
              then Some (1, put_err c2 ("Diagnostics I/O failed while writing output." +:+ newline))
              else Some (result, c2)
          end
      end
  end.

(** The two entry points; the handler exists on Windows only. *)
Definition client_main (windows : bool) (argv : list string) (run_client_command : command_handler) (env : app_env)
    (c : console) : option (Z * console) :=
  run_application "pipeforge-client" (drop 1 argv) (if windows then Some run_client_command else None) env c.
Definition server_main (windows : bool) (argv : list string) (run_server_command : command_handler) (env : app_env)
    (c : console) : option (Z * console) :=
  run_application "pipeforge-server" (drop 1 argv) (if windows then Some run_server_command else None) env c.
End application.

(** ** The server command *)

(** [output.put(static_cast<char>(character))]. *)
Definition narrow_char (c : Z) : ascii := Ascii.ascii_of_N (Z.to_N (c mod 256)).
Definition narrow (s : wstring) : string := String.string_of_list_ascii (narrow_char <$> s).

(** The loop over standard input: [stop], an empty line or the end of the input. *)
Fixpoint await_stop (lines : list string) : list string :=
  match lines with
  | [] => []
  | line :: rest => if bool_decide (line = "stop") || bool_decide (line = "") then rest else await_stop rest
  end.

Record server_env := {
  se_descriptor : option t_failure;
  se_pipes : list (option t_failure);
  se_threads : option Z;
  se_ready_ok : bool;          (* the output stream took the READY line *)
  se_stopped_ok : bool;        (* and the STOPPED line *)
  se_stdin_bad : bool;
  se_serving : list label;     (* what the workers do until the stop request *)
  se_stopping : list label;    (* and until they are joined *)
}.

Definition failure_text (prefix : string) (kind native : Z) : string :=
  prefix +:+ " kind=" +:+ to_string kind +:+ " native=" +:+ to_string native +:+ newline.

Section server_command.
Context `{Utf8Ops} `{Protobuf}.

Definition register_builtins : option (class_registry builtin_object) :=
  let '(failed, r1) := registry_add empty_registry counter_definition in
  if has_value failed then None
  else
    let '(failed, r2) := registry_add r1 text_buffer_definition in
    if has_value failed then None else Some r2.

Definition options_of_invocation (i : invocation) : server_options := {|
  opt_endpoint := inv_endpoint i; opt_request_timeout := inv_timeout i; opt_sessions := inv_sessions i;
  opt_storage := default_limits |}.

(** [workers_.clear()] joins every thread. *)
Definition joined (host : server builtin_object) : bool :=
  forallb (fun w => match w with Stopped => true | _ => false end) (sv_workers host).

(** The workers run until the controller asks, and then [pipe_server::stop]: the request,
    what the workers still do, and the join; [None] is a join that waits. *)
Definition stop_host (registry : class_registry builtin_object) (i : invocation) (diagnostics : bool)
    (env : server_env) (host : server builtin_object) : option (server builtin_object) :=
  match server_run registry (options_of_invocation i) diagnostics host (se_serving env) with
  | None => None
  | Some running =>
      match server_run registry (options_of_invocation i) diagnostics running (L_request_stop :: se_stopping env) with
      | None => None
      | Some stopped => if joined stopped then Some stopped else None
      end
  end.

(** The exit code, the streams, and the host if it was started; [None] when the steps of
    the environment are not steps of the workers up to their end. *)
Definition run_server_command (i : invocation) (diagnostics : bool) (env : server_env) (c : console)
  : option (Z * console * option (server builtin_object)) :=
  match register_builtins with
  | None => Some (1, put_err c ("Built-in class registration failed." +:+ newline), None)
  | Some registry =>
      match start (Obj := builtin_object) (options_of_invocation i) (se_descriptor env) (se_pipes env) (se_threads env) with
      | inr error =>
          Some (1, put_err c (failure_text "Server startup failed" (kind_number (t_kind error)) (t_native_error error)),
                None)
      | inl host =>
          let c1 := put_out (se_ready_ok env) c ("READY " +:+ narrow (inv_endpoint i) +:+ newline) in
          if negb (c_out_ok c1) then
            match stop_host registry i diagnostics env host with
            | None => None
            | Some stopped => Some (1, c1, Some stopped)
            end
          else
            let c2 := set_in c1 (await_stop (c_in c1)) in
            match stop_host registry i diagnostics env host with
            | None => None
            | Some stopped =>
                let c3 := put_out (se_stopped_ok env) c2
                  ("STOPPED connections=" +:+ to_string (st_connections (statistics (sv_state stopped))) +:+ newline) in
                Some (if se_stdin_bad env || negb (c_out_ok c3) then 1 else 0, c3, Some stopped)
            end
      end
  end.
End server_command.
