(* ===== verification/ApplicationProofs.v ===== *)
(** * What the applications guarantee

    The exit codes of [run_application] and their side effects, with the guarantees of
    the diagnostics behind them; and the server command: a parsed command line is always
    a valid configuration, and the host is stopped on every path. *)
From stdpp Require Import prelude gmap strings pretty.
From Stdlib Require Import Ascii ZArith Lia.
From S2P Require Import Prelude Json Diagnostics DiagnosticsProofs Utf8 Contracts Validation Framing Transport Messages Codec CodecProofs CodecSpec Wire WireProofs CommandLine Registry Store StoreProofs StoreSpec Builtins Dispatcher Server ServerProofs Application.

(** ** The server command *)
Lemma narrow_wide s : valid_endpoint s = true -> to_wide (narrow s) = s.
Proof.
  unfold valid_endpoint. destruct (_ || _ || _) eqn:E; [done|]. intros Hall.
  apply orb_false_iff in E as [[E1%negb_false_iff _]%orb_false_iff _].
  unfold starts_with in E1. apply bool_decide_eq_true in E1.
  assert (Hc : Forall (fun c => 0 <= c < 128) s).
  { rewrite <- (take_drop (length endpoint_prefix) s), E1. apply Forall_app. split.
    - unfold endpoint_prefix. repeat (constructor; [lia|]). constructor.
    - apply forallb_spec in Hall. eapply Forall_impl; [exact Hall|]. intros c Hx. unfold endpoint_char in Hx. lia. }
  clear -Hc. unfold to_wide, narrow. rewrite String.list_ascii_of_string_of_list_ascii.
  induction Hc as [|c s Hc Hs IH]; [done|]. cbn [fmap list_fmap]. f_equal; [|exact IH].
  unfold wide_char, char_code, narrow_char. rewrite Ascii.N_ascii_embedding.
  - rewrite Z.mod_small, Z2N.id by lia. destruct (c <? 128) eqn:E; [done|lia].
  - rewrite Z.mod_small by lia. lia.
Qed.

Section server_command.
Context `{Utf8Laws} `{Protobuf} `{!ProtobufLaws}.

Lemma register_builtins_ok : register_builtins = Some builtin_registry.
Proof.
  unfold register_builtins, builtin_registry.
  assert (Hc : (registry_add (Obj := builtin_object) empty_registry counter_definition).1 = None).
  { unfold registry_add. set (b := _ || _). assert (b = false) as -> by (by vm_compute). reflexivity. }
  destruct (registry_add empty_registry counter_definition) as [f1 r1] eqn:E1. cbn in Hc. subst f1. cbn [has_value snd].
  assert (Ht : (registry_add r1 text_buffer_definition).1 = None).
  { assert (Hr : r1 = {| definitions_ := [counter_definition] |}).
    { unfold registry_add in E1. revert E1. set (b := _ || _). assert (b = false) as -> by (by vm_compute).
      intros [= <-]. reflexivity. }
    rewrite Hr. unfold registry_add. set (b := _ || _). assert (b = false) as -> by (by vm_compute). reflexivity. }
  destruct (registry_add r1 text_buffer_definition) as [f2 r2]. cbn in Ht. by subst f2.
Qed.

(** A parsed command line passes the configuration check. *)
Lemma start_configured name args d0 i d descriptor pipes threads :
  parse name args d0 = inl (i, d) ->
  start (Obj := builtin_object) (options_of_invocation i) descriptor pipes threads
  = match launch (options_of_invocation i) descriptor pipes threads with
    | Some error => inr error
    | None => inl {| sv_state := initial_state; sv_workers := replicate (Z.to_nat (inv_sessions i)) Looping |}
    end.
Proof.
  intros (He & Ht & Hs & _)%parsed_bounds. unfold start. cbn. rewrite He.
  rewrite (proj2 (Z.eqb_neq _ 0)), (proj2 (Z.ltb_ge _ _)), (proj2 (Z.ltb_ge _ _)), (proj2 (Z.ltb_ge _ _)) by lia.
  done.
Qed.
End server_command.

(** ** Sessions of a command *)
Section sessions.
Context `{Json} (pid : Z) (application : string).

(** The session is sound and exactly the scopes [open] are open. *)
Definition held (w : session_world) (open : gmap Z scope) : Prop :=
  (exists out, w_ok pid application w out) /\ scopes w = open.

Lemma held_log w open level message ok0 : held w open -> held (session_log w level message ok0) open.
Proof.
  intros [[out ok] Hs]. split; [|done].
  destruct (step_ok pid application w out (de_log level message ok0) ok eq_refl) as (o & w' & Hst & ok').
  cbn [d_step] in Hst. injection Hst as _ <-. eauto.
Qed.

Lemma held_open w open key identifier name clock :
  held w open -> open !! key = None -> exists open', held (open_scope w key identifier name clock) open' /\ delete key open' = open.
Proof.
  intros [[out ok] <-] Hk.
  destruct (step_ok pid application w out (de_open key identifier name clock) ok) as (o & w' & Hst & ok').
  { cbn. by rewrite Hk. }
  cbn [d_step] in Hst. injection Hst as _ <-. eexists. split; [by split; [eauto|]|].
  unfold open_scope. destruct (state_ w) as [d|]; [|by apply delete_id].
  destruct (negb _); [by apply delete_id|]. destruct (begin_scope d identifier) as [[thread|] d']; cbn;
    [by rewrite delete_insert_id|by apply delete_id].
Qed.

Lemma held_close w open key stop io :
  held w open -> exists o w', close_scope pid w key stop io = Some (o, w') /\ held w' (delete key open).
Proof.
  intros [[out ok] <-]. destruct (step_ok pid application w out (de_close key stop io) ok eq_refl) as (o & w' & Hst & ok').
  exists o, w'. split; [exact Hst|]. split; [eauto|]. cbn [d_step] in Hst. unfold close_scope in Hst.
  destruct (scopes w !! key) as [s|] eqn:Es; [|injection Hst as _ <-; symmetry; by apply delete_id].
  unfold w_ok in ok. destruct (state_ w) as [d|].
  - destruct (end_scope _ _ _ _ _ _ _) as [[event d']|]; [|done]. by injection Hst as _ <-.
  - destruct ok as [Hem _]. by rewrite Hem in Es.
Qed.

Lemma held_run w open evs outs w' : held w open -> d_run pid w evs outs (Some w') -> scopes w' = open -> held w' open.
Proof.
  intros [[out ok] _] Hrun Hs. destruct (run_ok pid application w evs outs _ Hrun out ok) as (w2 & [= <-] & ok'). split; eauto.
Qed.
End sessions.

(** ** Properties *)

(** A handler that, called with a sound session in which only the scope of the command is
    open, uses it only through its operations, closes the scopes it opens, and returns 0
    or 1. *)
Definition well_behaved `{Json} (pid : Z) (h : command_handler) : Prop :=
  forall application out i c,
    w_ok pid application (c_session c) out ->
    (forall key, is_Some (scopes (c_session c) !! key) -> key = command_scope) ->
    ((h i c).1 = 0 \/ (h i c).1 = 1)
    /\ (exists evs outs, d_run pid (c_session c) evs outs (Some (c_session (h i c).2)))
    /\ scopes (c_session (h i c).2) = scopes (c_session c).

(** The artefacts of a finished session are complete. *)
Definition artefacts_complete (w : session_world) : Prop :=
  forall d, state_ w = Some d ->
    failed_ d = false /\ trace_ d = false /\ Diagnostics.log_ d = false /\ scopes w = ∅
    /\ forall eol, str_forallb ws_char eol = true -> trace_enabled_ d = true -> json_text (file_text eol (trace_lines d)).

Section application.
Context `{Json} `{!JsonLaws} `{Filesystem} (pid : Z) (profiling : bool) (binary_version : string).

(** The command's scope is the only one open inside its block. *)
Lemma begin_held name env c :
  held pid name (c_session c) ∅ ->
  exists open, held pid name (c_session (begin_command env c)) open /\ delete command_scope open = ∅.
Proof.
  intros Hw.
  destruct (held_open pid name _ _ command_scope (env_thread env) "cli.command" (env_begin env) Hw) as (o & Ho & Hd); [done|].
  exists o. split; [|done]. by apply held_log.
Qed.

Lemma end_held name env result c open :
  held pid name (c_session c) open -> delete command_scope open = ∅ ->
  exists w, end_command pid env result c = Some (result, set_session c w) /\ held pid name w ∅.
Proof.
  intros Hw Hd. apply (held_log pid name _ _ level_info "Command completed" (env_completed env)) in Hw.
  destruct (held_close pid name _ _ command_scope (env_end env).1 (env_end env).2 Hw) as (o & w & Hc & Hw').
  exists w. unfold end_command. cbn [c_session set_session]. rewrite Hc, <- Hd. by split.
Qed.

Lemma print_held name command env c open :
  held pid name (c_session c) open -> delete command_scope open = ∅ ->
  exists w, print_command pid profiling binary_version name command env c
            = Some (0, set_session (put_out (env_output env) c (command_output profiling binary_version name command)) w)
    /\ held pid name w open.
Proof.
  intros Hw Hd. unfold print_command. destruct (env_print env) as [[start stop] io].
  assert (Hfresh : open !! print_scope = None).
  { rewrite <- (lookup_delete_ne open command_scope print_scope) by done. by rewrite Hd. }
  destruct (held_open pid name _ _ print_scope (env_thread env) "print_command" start Hw Hfresh) as (o2 & Ho & Hdo).
  destruct (held_close pid name _ _ print_scope stop io Ho) as (o & w & Hc & Hw'). rewrite Hdo in Hw'.
  exists w. split; [|done]. cbn [c_session set_session put_out]. by rewrite Hc.
Qed.

Lemma command_session name parsed handler env c :
  (forall h, handler = Some h -> well_behaved pid h) -> held pid name (c_session c) ∅ ->
  exists code c', run_command pid profiling binary_version name parsed handler env c = Some (code, c')
    /\ (code = 0 \/ code = 1) /\ held pid name (c_session c') ∅
    /\ (is_runtime (inv_command parsed) = false ->
        code = 0 /\ c_out_ok c' = c_out_ok c && env_output env
        /\ c_out c' = c_out c +:+ command_output profiling binary_version name (inv_command parsed)).
Proof.
  intros Hh Hw. destruct (begin_held name env c Hw) as (open & Hb & Hd).
  destruct (print_held name (inv_command parsed) env _ open Hb Hd) as (wp & Hp & Hwp).
  destruct (end_held name env 0 (set_session (put_out (env_output env) (begin_command env c)
    (command_output profiling binary_version name (inv_command parsed))) wp) open Hwp Hd) as (wb & Hend & Hwb).
  unfold run_command.
  destruct handler as [h|]; [destruct (is_runtime (inv_command parsed)) eqn:Er|].
  - pose proof Hb as [[out0 ok0] Hop].
    assert (Honly : forall key, is_Some (scopes (c_session (begin_command env c)) !! key) -> key = command_scope).
    { intros key Hk. destruct (decide (key = command_scope)) as [|Hne]; [done|].
      rewrite Hop, <- (lookup_delete_ne open command_scope key), Hd in Hk by done. by destruct Hk. }
    destruct (Hh h eq_refl name out0 parsed _ ok0 Honly) as (Hcode & (evs & outs & Hrun) & Hsc).
    destruct (h parsed _) as [code c3]. cbn [fst snd] in *.
    assert (Hw3 : held pid name (c_session c3) open) by (eapply held_run; [exact Hb|exact Hrun|rewrite Hsc; apply Hb]).
    destruct (end_held name env code c3 open Hw3 Hd) as (w & Hc & Hw5). eexists _, _. split; [exact Hc|]. by split.
  - rewrite Hp, Hend. eexists _, _. split; [done|]. split; [by left|]. done.
  - rewrite Hp, Hend. eexists _, _. split; [done|]. split; [by left|]. done.
Qed.

(** What an application promises of its run: the exit codes and what they mean. *)
Definition exit_codes name args handler env c code c' : Prop :=
  (code = 0 \/ code = 1 \/ code = 2)
  /\ (code = 2 <-> exists error, usage_error profiling name args handler = inr error)
  /\ (code = 2 -> c_out c' = c_out c /\ c_session c' = c_session c
                  /\ exists line, c_err c' = c_err c +:+ line +:+ newline)
  /\ (code = 0 -> artefacts_complete (c_session c'))
  /\ (forall parsed options w, usage_error profiling name args handler = inl (parsed, options) ->
        is_runtime (inv_command parsed) = false ->
        open_diagnostic_session pid profiling name options (env_open env) (env_header env) (env_process env) = inl w ->
        c_out c' = c_out c +:+ command_output profiling binary_version name (inv_command parsed)
        /\ c_out_ok c' = c_out_ok c && env_output env
        /\ (code = 0 <-> session_failed (c_session c') = false)).

Lemma application_codes name args handler env c :
  (forall h, handler = Some h -> well_behaved pid h) ->
  exists code c', run_application pid profiling binary_version name args handler env c = Some (code, c')
    /\ exit_codes name args handler env c code c'.
Proof.
  intros Hh. unfold run_application, exit_codes. destruct (usage_error profiling name args handler) as [[parsed options]|error] eqn:Eu.
  2: { eexists _, _. split; [done|]. split_and!; [tauto|split; eauto|intros _; split_and!; eauto|done|done]. }
  assert (Hlim : in_u64 (trace_event_limit options)).
  { unfold usage_error in Eu. destruct (parse _ _ _) as [[p o]|] eqn:Ep; [|done]. apply parsed_limit in Ep.
    split_match_in Eu; simplify_eq. rewrite Ep. cbn. unfold default_trace_event_limit. ulia. }
  destruct (open_diagnostic_session _ _ _ _ _ _ _) as [w|error] eqn:Eo.
  2: { eexists _, _. split; [done|]. split_and!; [tauto|split; [done|by intros [? ?]]|done|done|]. intros; congruence. }
  assert (Hw : held pid name w ∅).
  { pose proof (session_opened_ok pid name _ _ _ _ _ _ Hlim Eo) as ok. split; [eauto|].
    unfold open_diagnostic_session in Eo. repeat case_match; by simplify_eq. }
  destruct (command_session name parsed handler env (set_session c w) Hh Hw) as (code & c1 & Hrun & Hcode & [[out ok] Hs] & Hb).
  rewrite Hrun. unfold session_finish. unfold w_ok in ok. rewrite Hs in ok.
  assert (Hno2 : code = 2 <-> exists error : string, inl (parsed, options) = (inr error : _ + string)).
  { split; [lia|by intros [? ?]]. }
  destruct (state_ (c_session c1)) as [d|] eqn:Ed.
  - destruct (finish_done pid name d out (env_finish env) ok) as (Hr & ok' & Hcl & Ha).
    destruct (Diagnostics.finish d (env_finish env)) as [fin d']. cbn [fst snd] in *. subst fin. cbn [negb].
    destruct (failed_ d') eqn:Ef; cbn [negb]; eexists _, _; (split; [done|]).
    + split_and!; [tauto|split; [done|by intros [? ?]]|done|done|]. intros p o w' [= <- <-] Hrt _.
      destruct (Hb Hrt) as (_ & Hk & Ho). split; [exact Ho|]. split; [exact Hk|]. split; [done|]. cbn. unfold failed. congruence.
    + split_and!; [tauto|exact Hno2|lia| |].
      * intros _ d0 [= <-]. destruct ok' as [core Hfin]. destruct (Hfin Hcl Ha) as [Ht Hl]. split_and!; try done.
        intros eol Hws Hen. by eapply (trace_complete pid name d' out eol).
      * intros p o w' [= <- <-] Hrt _. destruct (Hb Hrt) as (H0' & Hk & Ho). split; [exact Ho|]. by split.
  - cbn [negb]. eexists _, _. split; [done|].
    split_and!; [tauto|exact Hno2|lia| |].
    + intros _ d0 Hd0. cbn in Hd0. congruence.
    + intros p o w' [= <- <-] Hrt _. destruct (Hb Hrt) as (H0' & Hk & Ho). split; [exact Ho|].
      split; [exact Hk|]. unfold session_failed. cbn. by rewrite Ed.
Qed.
End application.

Section server_claim.
Context `{Utf8Laws} `{Protobuf} `{!ProtobufLaws}.

Lemma default_limits_ok i :
  0 <= lim_values (opt_storage (options_of_invocation i)) /\ 0 <= lim_objects (opt_storage (options_of_invocation i))
  /\ 0 <= lim_bytes (opt_storage (options_of_invocation i)).
Proof. cbn. unfold max_stored_values, max_stored_objects, max_session_bytes. lia. Qed.

(** [stop]: after the join every worker has stopped and no session is active. *)
Lemma stop_host_stops i diagnostics env h0 h2 :
  server_ok builtin_registry h0 -> stop_host builtin_registry i diagnostics env h0 = Some h2 ->
  server_ok builtin_registry h2 /\ shutdown_ (sv_state h2) = true
  /\ Forall (fun w => w = Stopped) (sv_workers h2) /\ active_ (sv_state h2) = 0.
Proof.
  intros ok0. unfold stop_host. destruct (server_run _ _ _ h0 (se_serving env)) as [h1|] eqn:E1; [|done].
  destruct (server_run _ _ _ h1 _) as [h|] eqn:E2; [|done]. destruct (joined h) eqn:Ej; [|done]. intros [= <-].
  assert (ok1 : server_ok builtin_registry h1).
  { by eapply (server_run_ok builtin_registry builtin_registry_wf _ _ (default_limits_ok i) h0). }
  assert (ok2 : server_ok builtin_registry h).
  { by eapply (server_run_ok builtin_registry builtin_registry_wf _ _ (default_limits_ok i) h1). }
  assert (Hall : Forall (fun w => w = Stopped) (sv_workers h)).
  { unfold joined in Ej. rewrite forallb_spec in Ej. eapply Forall_impl; [exact Ej|]. by intros []. }
  split_and!; [done| |done|].
  - cbn in E2. by eapply (server_run_stops _ _ _ (default_limits_ok i)) in E2 as [_ ?].
  - rewrite (ok_active _ h ok2). clear -Hall. induction Hall as [|w ws -> _ IH]; [done|]. cbn [zsum]. by rewrite IH.
Qed.

(** C26: The server command.  For a command line that [parse] accepted, the built-in
    classes register and the host's configuration is valid, so that starting can fail only
    for a resource of the system; then the command prints the failure and returns 1.  A
    started host announces its endpoint, which the printed text determines, and is stopped
    on every path: the stop is requested, every worker is joined at its end, no session is
    active and the state is sound.  The exit code is 0 exactly when the streams stayed
    good. *)
Theorem server_command_correct name args d0 i d diagnostics env c code c' host :
  parse name args d0 = inl (i, d) -> run_server_command i diagnostics env c = Some (code, c', host) ->
  to_wide (narrow (inv_endpoint i)) = inv_endpoint i
  /\ match host with
     | None =>
         code = 1 /\ c_out c' = c_out c /\ c_in c' = c_in c
         /\ exists error, launch (options_of_invocation i) (se_descriptor env) (se_pipes env) (se_threads env) = Some error
              /\ c_err c' = c_err c +:+ "Server startup failed kind=" +:+ to_string (kind_number (t_kind error))
                            +:+ " native=" +:+ to_string (t_native_error error) +:+ newline
     | Some h =>
         launch (options_of_invocation i) (se_descriptor env) (se_pipes env) (se_threads env) = None
         /\ server_ok builtin_registry h /\ shutdown_ (sv_state h) = true
         /\ Forall (fun w => w = Stopped) (sv_workers h) /\ active_ (sv_state h) = 0
         /\ (code = 0 <-> c_out_ok c = true /\ se_ready_ok env = true /\ se_stdin_bad env = false
                          /\ se_stopped_ok env = true)
         /\ c_err c' = c_err c
         /\ c_out c' = c_out c +:+ "READY " +:+ narrow (inv_endpoint i) +:+ newline
                       +:+ (if c_out_ok c && se_ready_ok env
                            then "STOPPED connections=" +:+ to_string (connections_ (sv_state h)) +:+ newline else "")
     end.
Proof.
  intros Hp Hrun. pose proof (parsed_bounds _ _ _ _ _ Hp) as (Hep & _ & Hse & _). split; [by apply narrow_wide|].
  unfold run_server_command in Hrun. rewrite register_builtins_ok in Hrun.
  pose proof (start_configured name args d0 i d (se_descriptor env) (se_pipes env) (se_threads env) Hp) as Hst.
  destruct (launch _ _ _ _) as [error|]; rewrite Hst in Hrun.
  { injection Hrun as <- <- <-. split_and!; [done|done|done|]. exists error. split; [done|].
    reflexivity. }
  set (h0 := {| sv_state := initial_state; sv_workers := _ |}) in *.
  assert (ok0 : server_ok builtin_registry h0).
  { destruct (start_ok builtin_registry (options_of_invocation i) _ _ _ h0 ltac:(cbn; lia) Hst) as (? & _). done. }
  destruct (stop_host builtin_registry i diagnostics env h0) as [h2|] eqn:Es; [|by destruct (negb _)].
  destruct (stop_host_stops i diagnostics env h0 h2 ok0 Es) as (ok2 & Hd & Hall & Hact).
  cbn [c_out_ok put_out set_in] in Hrun. destruct (c_out_ok c), (se_ready_ok env); cbn [andb negb] in Hrun |- *;
    injection Hrun as <- <- <-; split_and!; try done; cbn; rewrite ?str_app_nil_r, ?str_app_assoc; try done;
    try (split; [done|intros Hx; decompose [and] Hx; done]).
  destruct (se_stdin_bad env), (se_stopped_ok env); cbn; split; try done;
    intros Hx; decompose [and] Hx; done.
Qed.
End server_claim.

Module ApplicationDemo.
#[local] Existing Instance utf8_reference.
#[local] Existing Instance utf8_reference_laws.
#[local] Existing Instance wire_protobuf.
#[local] Existing Instance wire_laws.
#[local] Existing Instance json_reference.
#[local] Existing Instance json_reference_laws.
#[local] Existing Instance DiagnosticsDemo.plain_files.

Definition console0 : console := {| c_in := ["stop"]; c_out := ""; c_out_ok := true; c_err := ""; c_session := {| state_ := None; scopes := ∅ |} |}.
Definition served : server_env := {|
  se_descriptor := None; se_pipes := [None]; se_threads := None; se_ready_ok := true; se_stopped_ok := true;
  se_stdin_bad := false; se_serving := [L_worker 0 ev_check];
  se_stopping := [L_worker 0 (ev_accept (inr (t_fail fk_cancelled)))] |}.
Definition options1 : invocation := {|
  inv_command := cmd_serve; inv_endpoint := default_endpoint; inv_timeout := 5000; inv_sessions := 1 |}.

Lemma server_command_correct_witness :
  exists h c', run_server_command options1 true served console0 = Some (0, c', Some h)
    /\ server_ok builtin_registry h
    /\ c_out c' = "READY " +:+ narrow default_endpoint +:+ newline +:+ "STOPPED connections=0" +:+ newline.
Proof.
  destruct (run_server_command options1 true served console0) as [[[code c'] [h|]]|] eqn:E;
    [|vm_compute in E; discriminate E..].
  destruct (server_command_correct "pipeforge-server" ["--serve"; "--sessions"; "1"] default_diagnostics options1
    default_diagnostics true served console0 code c' (Some h)) as (_ & _ & ok & _ & _ & _ & _ & _ & Hout).
  - vm_compute. reflexivity.
  - exact E.
  - exists h, c'. vm_compute in E. injection E as <- <- <-. split; [reflexivity|]. split; [exact ok|]. exact Hout.
Defined.
End ApplicationDemo.
