(* ===== verification/Demo.v ===== *)
(** * The demo scenario of the client (src/cli/client_commands.cpp)

    [scenario] drives the public interface of [client::connection] only, the class
    [ClientApi]: connections and futures are handles, an action of the interface is an
    action on the state of the world behind it.  The members of [scenario] are
    [scenario_state]; [client_] is the handle of its connection.  The loop over the pages
    of [list_values] has fuel; [None] is the fuel running out. *)
From stdpp Require Import prelude gmap strings pretty.
From Stdlib Require Import Ascii ZArith Lia.
From S2P Require Import Prelude Json Diagnostics Utf8 Contracts Validation Framing Transport Messages Codec CommandLine Registry Store Builtins Dispatcher Server Application Client.

Definition initial_counter : Z := 7.
Definition other_counter : Z := 42.
Definition increment_by : Z := 5.
Definition page_size : Z := 2.
Definition quota_probe_limit : nat := 128.

(** ** What the scenario uses of [client::connection] *)
Class ClientApi (K : Type) := {
  clock_now : stateM K Z;
  new_connection : stateM K Z;                                       (* over [named_pipe_connector()] *)
  start_connect (c : Z) (endpoint : wstring) (until : Z) : stateM K Z;   (* [connect_async] *)
  connect_get (future : Z) : stateM K connect_result;
  start_call (c : Z) (op : operation) (until : Z) : stateM K Z;          (* [call_async] *)
  call_get (future : Z) : stateM K call_result;
  close_connection (c : Z) : stateM K unit;                          (* [close], and the destructor *)
}.

Section blocking.
Context {K : Type} `{ClientApi K}.

(** The blocking methods. *)
Definition connect (c : Z) (endpoint : wstring) (until : Z) : stateM K connect_result :=
  let! future := start_connect c endpoint until in connect_get future.
Definition call (c : Z) (op : operation) (until : Z) : stateM K call_result :=
  let! future := start_call c op until in call_get future.

(** The scope of a [connection] object; its destructor closes it. *)
Definition with_connection {A} (body : Z -> stateM K A) : stateM K A :=
  let! c := new_connection in
  let! result := body c in
  let! _ := close_connection c in sret result.
End blocking.

(** ** The standard library *)

(** [std::ranges::binary_search]: [lower_bound] by halving the range of [count] names
    from [first], then the comparison with the name found. *)
Fixpoint lower_bound (fuel : nat) (names : list string) (first count : nat) (name : string) : nat :=
  match fuel, count with
  | S fuel, S _ =>
      let half := Nat.div2 count in
      if bool_decide (str_lt (default "" (names !! (first + half)%nat)) name)
      then lower_bound fuel names (first + half + 1)%nat (count - half - 1)%nat name
      else lower_bound fuel names first half name
  | _, _ => first
  end.
Definition binary_search (names : list string) (name : string) : bool :=
  match names !! lower_bound (length names) names 0 (length names) name with
  | Some found => negb (bool_decide (str_lt name found))
  | None => false
  end.

(** [operator==] of vectors, records and named values. *)
Fixpoint equal_by {A} (eqb : A -> A -> bool) (l m : list A) : bool :=
  match l, m with
  | [], [] => true
  | x :: l, y :: m => eqb x y && equal_by eqb l m
  | _, _ => false
  end.
Definition record_eqb (r s : value_record) : bool := (vr_id r =? vr_id s) && value_eqb (vr_data r) (vr_data s).
Definition named_value_eqb (v w : named_value) : bool :=
  bool_decide (nv_name v = nv_name w) && value_eqb (nv_data v) (nv_data w).

(** ** The scenario *)
Record scenario_state := { calls_ : Z; retained_object_ : Z; stored_value_ : Z }.
Definition new_scenario : scenario_state := {| calls_ := 0; retained_object_ := 0; stored_value_ := 0 |}.
Definition count_call (s : scenario_state) : scenario_state :=
  {| calls_ := calls_ s ⊞ 1; retained_object_ := retained_object_ s; stored_value_ := stored_value_ s |}.
Definition set_retained (id : Z) (s : scenario_state) : scenario_state :=
  {| calls_ := calls_ s; retained_object_ := id; stored_value_ := stored_value_ s |}.
Definition set_stored (id : Z) (s : scenario_state) : scenario_state :=
  {| calls_ := calls_ s; retained_object_ := retained_object_ s; stored_value_ := id |}.

(** [std::get_if<T>] on the outcome, for the alternatives the scenario asks for. *)
Definition as_record (o : outcome) : option value_record := match o with o_record r => Some r | _ => None end.
Definition as_values (o : outcome) : option values_page := match o with o_values p => Some p | _ => None end.
Definition as_classes (o : outcome) : option classes_page := match o with o_classes p => Some p | _ => None end.
Definition as_description (o : outcome) : option class_description :=
  match o with o_description d => Some d | _ => None end.
Definition as_object (o : outcome) : option object_snapshot := match o with o_object s => Some s | _ => None end.
Definition as_value (o : outcome) : option value := match o with o_value v => Some v | _ => None end.
Definition as_released (o : outcome) : option unit := match o with o_released => Some tt | _ => None end.

Definition extract {T} (get_if : outcome -> option T) (result : call_result) : option T :=
  match result with inl r => get_if (resp_body r) | inr _ => None end.

(** A value and the bits of the two doubles [0] and [1.25]. *)
Definition inputs : list value := [
  Text ""; Text (String "c" (String "a" (String "f" (String "195" (String "169" "")))));
  Integer i64_min; Integer i64_max; Real 0; Real 4608308318706860032].

Notation "'ask!' x := m 'in' e" := (sbind m (fun o => match o with Some x => e | None => sret false end))
  (at level 10, x name, m at level 100, e at level 200).

(** How the loop over the pages ends. *)
Inductive listing := Listed (records : list value_record) | Refused | OutOfFuel.

Section scenario.
Context {K : Type} `{ClientApi K} (options_ : invocation).
Abbreviation SM := (stateM (scenario_state * K)).

Definition member {A} (m : stateM K A) : SM A := slift m.
Definition update (f : scenario_state -> scenario_state) : SM unit := smodify (fun s => (f s.1, s.2)).

Definition until : stateM K Z := let! t := clock_now in sret (t + inv_timeout options_ * 1000000).

Definition execute_call (client_ : Z) (op : operation) : SM call_result :=
  let! _ := update count_call in
  let! count := sget (fun s => calls_ s.1) in
  let! deadline := member until in
  let blocking := bool_decide (inv_command options_ = cmd_demo_sync)
    || bool_decide (inv_command options_ = cmd_demo_mixed) && (count mod page_size =? 0) in
  if blocking then member (call client_ op deadline)
  else let! future := member (start_call client_ op deadline) in member (call_get future).

Definition ask {T} (get_if : outcome -> option T) (client_ : Z) (op : operation) : SM (option T) :=
  let! result := execute_call client_ op in sret (extract get_if result).

Definition error (client_ : Z) (op : operation) (expected : error_code) : SM bool :=
  ask! e := ask get_error client_ op in sret (err_code e =? expected).

(** [values]: the puts, one at a time or as a batch of futures. *)
Fixpoint put_each (client_ : Z) (values : list value) : SM (option (list value_record)) :=
  match values with
  | [] => sret (Some [])
  | v :: rest =>
      let! r := ask as_record client_ (put_value v) in
      match r with
      | None => sret None
      | Some r => let! saved := put_each client_ rest in sret (cons r <$> saved)
      end
  end.
Fixpoint submit_all (client_ : Z) (values : list value) : SM (list Z) :=
  match values with
  | [] => sret []
  | v :: rest =>
      let! deadline := member until in
      let! future := member (start_call client_ (put_value v) deadline) in
      let! pending := submit_all client_ rest in sret (future :: pending)
  end.
Fixpoint await_all (pending : list Z) : SM (option (list value_record)) :=
  match pending with
  | [] => sret (Some [])
  | future :: rest =>
      let! r := member (call_get future) in
      match extract as_record r with
      | None => sret None
      | Some r => let! saved := await_all rest in sret (cons r <$> saved)
      end
  end.
Definition put_inputs (client_ : Z) : SM (option (list value_record)) :=
  if bool_decide (inv_command options_ = cmd_demo_sync) then put_each client_ inputs
  else let! pending := submit_all client_ inputs in await_all pending.

(** Each record read back, the pages of the listing, and the quota. *)
Fixpoint read_back (client_ : Z) (saved : list value_record) (values : list value) : SM bool :=
  match saved, values with
  | r :: saved, v :: values =>
      ask! got := ask as_record client_ (get_value (vr_id r)) in
      if negb (value_eqb (vr_data got) v) then sret false else read_back client_ saved values
  | _, _ => sret true
  end.
Fixpoint list_pages (fuel : nat) (client_ : Z) (listed : list value_record) (cursor : Z) : SM listing :=
  match fuel with
  | O => sret OutOfFuel
  | S fuel =>
      let! page := ask as_values client_ (list_values cursor page_size) in
      match page with
      | None => sret Refused
      | Some page =>
          if len inputs <? len listed + len (vp_values page) then sret Refused
          else
            let listed := listed ++ vp_values page in
            if vp_next page =? 0 then sret (Listed listed)
            else if bool_decide (vp_values page = []) || (vp_next page <=? cursor) then sret Refused
            else list_pages fuel client_ listed (vp_next page)
      end
  end.
Fixpoint probe_quota (probes : nat) (client_ : Z) : SM bool :=
  match probes with
  | O => sret false
  | S probes =>
      let! result := execute_call client_ (put_value (Integer 0)) in
      match result with
      | inr _ => sret false
      | inl r =>
          match resp_body r with
          | o_error e => sret (err_code e =? quota_exceeded)
          | o_record _ => probe_quota probes client_
          | _ => sret false
          end
      end
  end.

Definition values (client_ : Z) : SM (option bool) :=
  let! saved := put_inputs client_ in
  match saved with
  | None => sret (Some false)
  | Some saved =>
      let! same := read_back client_ saved inputs in
      if negb same then sret (Some false)
      else
        let! listed := list_pages (S (length inputs)) client_ [] 0 in
        match listed with
        | OutOfFuel => sret None
        | Refused => sret (Some false)
        | Listed listed =>
            if negb (equal_by record_eqb listed saved) then sret (Some false)
            else
              let! _ := update (set_stored (match saved with r :: _ => vr_id r | [] => 0 end)) in
              let! full := probe_quota quota_probe_limit client_ in sret (Some full)
        end
  end.

(** [objects]: the classes, two counters, a text buffer, the errors, the release, and
    what another connection sees. *)
Definition argument (name : string) (v : value) : list named_value := [{| nv_name := name; nv_data := v |}].

Definition check_classes (client_ : Z) : SM bool :=
  ask! classes := ask as_classes client_ (list_classes "" default_page_size) in
  if negb (binary_search (cp_names classes) "Counter") || negb (binary_search (cp_names classes) "TextBuffer")
  then sret false
  else
    ask! metadata := ask as_description client_ (describe_class "TextBuffer") in
    sret (negb (bool_decide (desc_constructor_parameters metadata = []))
          && negb (bool_decide (desc_methods metadata = []))).

Definition check_counters (client_ first second : Z) : SM bool :=
  let! changed := ask as_value client_ (invoke_method first "increment" (argument "delta" (Integer increment_by))) in
  let! attribute := ask as_value client_ (get_attribute first "value") in
  let! retained := ask as_object client_ (get_object first) in
  let! independent := ask as_value client_ (get_attribute second "value") in
  let expected := Integer (initial_counter + increment_by) in
  match changed, attribute, retained, independent with
  | Some changed, Some attribute, Some retained, Some independent =>
      sret (value_eqb changed expected && value_eqb attribute expected
            && value_eqb independent (Integer other_counter)
            && equal_by named_value_eqb (snap_state retained) (argument "value" expected))
  | _, _, _, _ => sret false
  end.

Definition check_text (client_ : Z) : SM bool :=
  ask! text := ask as_object client_ (create_object "TextBuffer" (argument "initial" (Text "hello"))) in
  ask! appended := ask as_value client_ (invoke_method (snap_id text) "append" (argument "suffix" (Text " world"))) in
  sret (value_eqb appended (Text "hello world")).

(** [a && b] of two conditions that act. *)
Definition and_also (a b : SM bool) : SM bool := let! x := a in if (x : bool) then b else sret false.

Definition check_errors (client_ first : Z) : SM bool :=
  and_also (error client_ (invoke_method first "increment" (argument "delta" (Text "wrong"))) invalid_request)
    (and_also (error client_ (get_attribute first "missing") not_found)
       (error client_ (create_object "MissingClass" []) not_found)).

Definition check_release (client_ first : Z) : SM bool :=
  ask! _ := ask as_released client_ (release_object first) in error client_ (get_object first) not_found.

(** A second [scenario] over its own connection, which sees neither identifier. *)
Definition sees_nothing (other_ object value : Z) : stateM K bool :=
  fun k =>
    let '(result, (_, k')) :=
      and_also (error other_ (get_object object) not_found) (error other_ (get_value value) not_found)
        (new_scenario, k) in
    (result, k').

(** [isolated] and [fresh] differ in the method that opens them. *)
Definition other_session (open : Z -> wstring -> Z -> stateM K connect_result) (object value : Z) : stateM K bool :=
  with_connection (fun other =>
    let! deadline := until in
    let! opened := open other (inv_endpoint options_) deadline in
    match opened with inl _ => sees_nothing other object value | inr _ => sret false end).

Definition connect_future (c : Z) (endpoint : wstring) (deadline : Z) : stateM K connect_result :=
  let! future := start_connect c endpoint deadline in connect_get future.

Definition objects (client_ : Z) : SM bool :=
  let! known := check_classes client_ in
  if negb known then sret false
  else
    let! first := ask as_object client_ (create_object "Counter" (argument "initial" (Integer initial_counter))) in
    let! second := ask as_object client_ (create_object "Counter" (argument "initial" (Integer other_counter))) in
    match first, second with
    | Some first, Some second =>
        if snap_id first =? snap_id second then sret false
        else
          let! _ := update (set_retained (snap_id second)) in
          and_also (check_counters client_ (snap_id first) (snap_id second))
            (and_also (check_text client_)
               (and_also (check_errors client_ (snap_id first))
                  (and_also (check_release client_ (snap_id first))
                     (let! stored := sget (fun s => stored_value_ s.1) in
                      member (other_session connect_future (snap_id second) stored)))))
    | _, _ => sret false
    end.

Definition reconnect (client_ : Z) : SM bool :=
  let! _ := member (close_connection client_) in
  let! object := sget (fun s => retained_object_ s.1) in
  let! stored := sget (fun s => stored_value_ s.1) in
  member (other_session connect object stored).

(** ** The command *)
Definition c_kind_number (k : c_kind) : Z :=
  match k with
  | ck_invalid_request => 0 | ck_not_connected => 1 | ck_quota_exceeded => 2 | ck_timeout => 3 | ck_cancelled => 4
  | ck_disconnected => 5 | ck_access_denied => 6 | ck_protocol_violation => 7 | ck_transport_failure => 8
  | ck_internal_failure => 9
  end.

(** [!values() || !objects() || !reconnect()], negated. *)
Definition run_scenario (client_ : Z) : SM (option bool) :=
  let! first := values client_ in
  match first with
  | None => sret None
  | Some false => sret (Some false)
  | Some true => let! rest := and_also (objects client_) (reconnect client_) in sret (Some rest)
  end.

(** The local [demo]: a fresh scenario. *)
Definition run_demo (client_ : Z) : stateM K (option bool) :=
  fun k => let '(passed, (_, k')) := run_scenario client_ (new_scenario, k) in (passed, k').

Definition mode_name (command : application_command) : string :=
  match command with cmd_demo_sync => "sync" | cmd_demo_async => "async" | _ => "mixed" end.

(** [output_good]: the output stream took the last line. *)
Definition run_client_command (output_good : bool) (c : console) : stateM K (option (Z * console)) :=
  with_connection (fun client_ =>
    let! deadline := until in
    let! opened := (if bool_decide (inv_command options_ = cmd_demo_sync)
                    then connect client_ (inv_endpoint options_) deadline
                    else connect_future client_ (inv_endpoint options_) deadline) in
    match opened with
    | inr e =>
        sret (Some (1, put_err c (failure_text "Client connection failed" (c_kind_number (c_failure_kind e)) (c_native_error e))))
    | inl _ =>
        let! passed := run_demo client_ in
        sret match passed with
             | None => None
             | Some false => Some (1, put_err c ("R1-R8 scenario failed; no operation was replayed." +:+ newline))
             | Some true =>
                 let c1 := put_out output_good c ("R1-R8 scenario passed mode=" +:+ mode_name (inv_command options_) +:+ newline) in
                 Some (if c_out_ok c1 then 0 else 1, c1)
             end
    end).
End scenario.
