(* ===== verification/DemoProofs.v ===== *)
(** * The demo scenario ends, whatever answers it

    [counting] puts a ledger of the connections and calls in front of any [ClientApi].
    [uses] bounds what an action adds to the ledger; the bounds add up along the code.
    [binary_search] is membership in a sorted list. *)
From stdpp Require Import prelude gmap strings pretty sorting.
From Stdlib Require Import Ascii ZArith Lia.
From S2P Require Import Prelude Json Diagnostics DiagnosticsProofs Utf8 Contracts Validation Framing Transport Messages Codec CommandLine Registry Store Builtins Dispatcher Server Client Application ApplicationProofs Demo.

Record ledger := { created : list Z; closed : list Z; submitted : Z }.
Definition new_ledger : ledger := {| created := []; closed := []; submitted := 0 |}.

Section counting.
Context {K : Type} `{ClientApi K}.

(** The interface with its connections and calls written down. *)
Definition counting : ClientApi (ledger * K) := {|
  clock_now := slift clock_now;
  new_connection := fun s =>
    let '(h, k) := new_connection s.2 in
    (h, ({| created := h :: created s.1; closed := closed s.1; submitted := submitted s.1 |}, k));
  start_connect c endpoint until := slift (start_connect c endpoint until);
  connect_get f := slift (connect_get f);
  start_call c op until := fun s =>
    let '(f, k) := start_call c op until s.2 in
    (f, ({| created := created s.1; closed := closed s.1; submitted := submitted s.1 + 1 |}, k));
  call_get f := slift (call_get f);
  close_connection c := fun s =>
    let '(u, k) := close_connection c s.2 in
    (u, ({| created := created s.1; closed := c :: closed s.1; submitted := submitted s.1 |}, k)) |}.
End counting.

(** At most [n] calls and [m] connections more, every new connection closed. *)
Record spent (n m : Z) (l l' : ledger) : Prop := {
  sp_calls : submitted l' <= submitted l + n;
  sp_created : len (created l') <= len (created l) + m;
  sp_closed : forall h, h ∈ closed l -> h ∈ closed l';
  sp_new : forall h, h ∈ created l' -> h ∈ created l \/ h ∈ closed l';
}.

Lemma spent_refl n m l : 0 <= n -> 0 <= m -> spent n m l l.
Proof. split; [lia|lia|done|by left]. Qed.

Lemma spent_trans n m n' m' l1 l2 l3 :
  spent n m l1 l2 -> spent n' m' l2 l3 -> spent (n + n') (m + m') l1 l3.
Proof.
  intros [Hc Hl Hs Hn] [Hc' Hl' Hs' Hn']. split; [lia|lia|auto|].
  intros h [Hh|]%Hn'; [|by right]. destruct (Hn h Hh); auto.
Qed.

Lemma spent_weaken n m n' m' l l' : spent n m l l' -> n <= n' -> m <= m' -> spent n' m' l l'.
Proof. intros [Hc Hl Hs Hn] ??. split; [lia|lia|done|done]. Qed.

(** ** Actions that use a bounded part of the ledger *)
Section uses.
Context {S : Type} (led : S -> ledger).

Definition uses {A} (n m : Z) (a : stateM S A) : Prop := forall s, spent n m (led s) (led (a s).2).

Lemma uses_ret {A} (x : A) : uses 0 0 (sret x).
Proof. intros s. by apply spent_refl. Qed.
Lemma uses_get {A} (f : S -> A) : uses 0 0 (sget f).
Proof. intros s. by apply spent_refl. Qed.
Lemma uses_weaken {A} n m n' m' (a : stateM S A) : uses n m a -> n <= n' -> m <= m' -> uses n' m' a.
Proof. intros Ha ?? s. by eapply spent_weaken. Qed.
Lemma uses_bind {A B} n m n' m' (a : stateM S A) (f : A -> stateM S B) :
  uses n m a -> (forall x, uses n' m' (f x)) -> uses (n + n') (m + m') (sbind a f).
Proof.
  intros Ha Hf s. unfold sbind. specialize (Ha s). destruct (a s) as [x s']. eapply spent_trans; [exact Ha|apply Hf].
Qed.
(** A continuation that stops early. *)
Lemma uses_ask {A} n m n' m' (a : stateM S (option A)) (f : A -> stateM S bool) :
  uses n m a -> (forall x, uses n' m' (f x)) -> 0 <= n' -> 0 <= m' ->
  uses (n + n') (m + m') (sbind a (fun o => match o with Some x => f x | None => sret false end)).
Proof.
  intros Ha Hf ??. apply uses_bind; [done|]. intros [x|]; [apply Hf|]. eapply uses_weaken; [apply uses_ret|lia|lia].
Qed.
(** Branches that stop. *)
Lemma uses_stop {A} n m (x : A) : 0 <= n -> 0 <= m -> uses n m (sret x).
Proof. intros ?? s. by apply spent_refl. Qed.
Lemma uses_if {A} n m (c : bool) (a b : stateM S A) : uses n m a -> uses n m b -> uses n m (if c then a else b).
Proof. by destruct c. Qed.
End uses.

(** Follow the code; [uses] holds the lemmas of the actions. *)
Create HintDb uses.
Ltac use :=
  repeat first
    [ apply uses_ret | solve [eauto with uses]
    | apply uses_ask | apply uses_bind
    | match goal with
      | |- forall _, _ => intros ?
      | |- uses _ _ _ (if _ then sret _ else _) => apply uses_if; [apply uses_stop|]
      | |- uses _ _ _ (if _ then _ else sret _) => apply uses_if; [|apply uses_stop]
      end ].
Ltac uses_total := eapply uses_weaken; [use|..]; lia.

Section scenario_uses.
Context {K : Type} `{ClientApi K} (options : invocation).
#[local] Existing Instance counting | 0.
Abbreviation outer := (fun s : scenario_state * (ledger * K) => s.2.1).
Abbreviation inner := (fun s : ledger * K => s.1).
Abbreviation scenario_uses n m a := (uses outer n m a).

Lemma member_uses {A} n m (a : stateM (ledger * K) A) : uses inner n m a -> scenario_uses n m (member a).
Proof. intros Ha [s k]. specialize (Ha k). unfold member, slift. cbn. by destruct (a k). Qed.
Lemma update_uses f : scenario_uses 0 0 (update (K := ledger * K) f).
Proof. intros s. by apply spent_refl. Qed.
Lemma slift_uses {A} (a : stateM K A) : uses inner 0 0 (slift (S := ledger) a).
Proof. intros [l k]. unfold slift. cbn. destruct (a k). cbn. by apply spent_refl. Qed.
Lemma call_get_uses f : uses inner 0 0 (call_get (ClientApi := counting) f).
Proof. apply slift_uses. Qed.
Lemma start_connect_uses c e t : uses inner 0 0 (start_connect (ClientApi := counting) c e t).
Proof. apply slift_uses. Qed.
Lemma connect_get_uses f : uses inner 0 0 (connect_get (ClientApi := counting) f).
Proof. apply slift_uses. Qed.
Lemma start_uses c op t : uses inner 1 0 (start_call (ClientApi := counting) c op t).
Proof. intros [l k]. cbn. destruct (start_call c op t k). cbn. split; cbn; [lia|lia|done|by left]. Qed.
Lemma close_uses c : uses inner 0 0 (close_connection (ClientApi := counting) c).
Proof. intros [l k]. cbn. destruct (close_connection c k). cbn. split; cbn; [lia|lia|set_solver|by left]. Qed.
Lemma until_uses : uses inner 0 0 (until (H := counting) options).
Proof. change 0 with (0 + 0). apply uses_bind; [apply slift_uses|intros; apply uses_ret]. Qed.
#[local] Hint Resolve member_uses update_uses call_get_uses start_connect_uses connect_get_uses start_uses close_uses until_uses uses_get : uses.

Lemma execute_call_uses c op : scenario_uses 1 0 (execute_call (H := counting) options c op).
Proof.
  unfold execute_call. eapply uses_weaken; [apply (uses_bind _ 0 0 1 0); [apply update_uses|]|lia|lia].
  intros _. apply (uses_bind _ 0 0 1 0); [apply uses_get|]. intros n.
  apply (uses_bind _ 0 0 1 0); [apply member_uses, until_uses|]. intros t.
  apply uses_if; [apply member_uses; unfold call|]; apply (uses_bind _ 1 0 0 0); eauto with uses.
Qed.
#[local] Hint Resolve execute_call_uses : uses.

Lemma ask_uses {T} (get_if : outcome -> option T) c op : scenario_uses 1 0 (ask (H := counting) options get_if c op).
Proof. unfold ask. uses_total. Qed.
#[local] Hint Resolve ask_uses : uses.

Lemma error_uses c op e : scenario_uses 1 0 (error (H := counting) options c op e).
Proof. unfold error. uses_total. Qed.
#[local] Hint Resolve error_uses : uses.

Lemma put_each_uses c vs : scenario_uses (len vs) 0 (put_each (H := counting) options c vs).
Proof.
  induction vs as [|v vs IH]; cbn [put_each]; [apply uses_ret|].
  eapply uses_weaken; [eapply (uses_bind _ _ _ (len vs) 0); [use|]|rewrite len_cons; lia|lia].
  intros [r|]; [|apply uses_stop; unfold len; lia]. uses_total.
Qed.

Lemma submit_all_uses c vs : scenario_uses (len vs) 0 (submit_all (H := counting) options c vs).
Proof.
  induction vs as [|v vs IH]; cbn [submit_all]; [apply uses_ret|].
  eapply uses_weaken; [use|rewrite len_cons; lia|lia].
Qed.

Lemma await_all_uses fs : scenario_uses 0 0 (await_all (H := counting) fs).
Proof.
  induction fs as [|f fs IH]; cbn [await_all]; [apply uses_ret|].
  eapply uses_weaken; [eapply (uses_bind _ _ _ 0 0); [use|]|lia|lia].
  intros r. destruct (extract as_record r); [uses_total|apply uses_ret].
Qed.

Lemma put_inputs_uses c : scenario_uses 6 0 (put_inputs (H := counting) options c).
Proof.
  unfold put_inputs. apply uses_if; [apply (put_each_uses c inputs)|].
  eapply uses_weaken; [apply uses_bind; [apply (submit_all_uses c inputs)|intros; apply await_all_uses]|unfold len; cbn; lia|lia].
Qed.

Lemma read_back_uses c rs vs : scenario_uses (len vs) 0 (read_back (H := counting) options c rs vs).
Proof.
  revert rs. induction vs as [|v vs IH]; intros [|r rs]; cbn [read_back]; try (apply uses_stop; unfold len; lia).
  eapply uses_weaken; [use; [unfold len; lia..]|rewrite len_cons; lia|lia].
Qed.

Lemma list_pages_uses fuel c l cursor : scenario_uses (Z.of_nat fuel) 0 (list_pages (H := counting) options fuel c l cursor).
Proof.
  revert l cursor. induction fuel as [|fuel IH]; intros l cursor; cbn [list_pages]; [apply uses_ret|].
  eapply uses_weaken; [eapply (uses_bind _ _ _ (Z.of_nat fuel) 0); [use|]|lia|lia].
  intros [p|]; [|apply uses_stop; lia]. repeat (apply uses_if; [apply uses_stop; lia|]). apply IH.
Qed.

Lemma probe_uses n c : scenario_uses (Z.of_nat n) 0 (probe_quota (H := counting) options n c).
Proof.
  induction n as [|n IH]; cbn [probe_quota]; [apply uses_ret|].
  eapply uses_weaken; [eapply (uses_bind _ _ _ (Z.of_nat n) 0); [use|]|lia|lia].
  intros [r|]; [|apply uses_stop; lia]. destruct (resp_body r); first [apply IH|apply uses_stop; lia].
Qed.

Lemma values_uses c : scenario_uses 147 0 (values (H := counting) options c).
Proof.
  unfold values. apply (uses_bind _ 6 0 141 0); [apply put_inputs_uses|]. intros [saved|]; [|by apply uses_stop].
  apply (uses_bind _ 6 0 135 0); [apply (read_back_uses c saved inputs)|]. intros same.
  apply uses_if; [by apply uses_stop|].
  apply (uses_bind _ 7 0 128 0); [apply (list_pages_uses 7)|]. intros [l| |]; try by apply uses_stop.
  apply uses_if; [by apply uses_stop|].
  apply (uses_bind _ 0 0 128 0); [apply update_uses|]. intros _.
  apply (uses_bind _ 128 0 0 0); [apply (probe_uses 128)|]. intros. apply uses_ret.
Qed.
Lemma and_also_uses n m n' m' (a b : stateM (scenario_state * (ledger * K)) bool) :
  scenario_uses n m a -> scenario_uses n' m' b -> 0 <= n' -> 0 <= m' -> scenario_uses (n + n') (m + m') (and_also a b).
Proof. intros Ha Hb ??. apply uses_bind; [done|]. intros x. apply uses_if; [done|by apply uses_stop]. Qed.

Lemma check_classes_uses c : scenario_uses 2 0 (check_classes (H := counting) options c).
Proof. unfold check_classes. uses_total. Qed.
Lemma check_counters_uses c x y : scenario_uses 4 0 (check_counters (H := counting) options c x y).
Proof.
  unfold check_counters. eapply uses_weaken; [do 4 (apply uses_bind; [apply ask_uses|intros ?])|..].
  - destruct x0, x1, x2, x3; apply uses_ret.
  - lia.
  - lia.
Qed.
Lemma check_text_uses c : scenario_uses 2 0 (check_text (H := counting) options c).
Proof. unfold check_text. uses_total. Qed.
Lemma check_errors_uses c x : scenario_uses 3 0 (check_errors (H := counting) options c x).
Proof.
  apply (and_also_uses 1 0 2 0); [apply error_uses| |lia|lia].
  apply (and_also_uses 1 0 1 0); [apply error_uses|apply error_uses|lia|lia].
Qed.
Lemma check_release_uses c x : scenario_uses 2 0 (check_release (H := counting) options c x).
Proof. unfold check_release. uses_total. Qed.

Lemma sees_nothing_uses c x v : uses inner 2 0 (sees_nothing (H := counting) options c x v).
Proof.
  intros k. unfold sees_nothing.
  assert (Hu : scenario_uses 2 0 (and_also (error (H := counting) options c (get_object x) not_found)
                                   (error (H := counting) options c (get_value v) not_found)))
    by (apply (and_also_uses 1 0 1 0); [apply error_uses|apply error_uses|lia|lia]).
  specialize (Hu (new_scenario, k)). destruct (and_also _ _ _) as [r [s k']]. exact Hu.
Qed.

(** A connection that is created here is closed here. *)
Lemma session_uses {A} n m (body : Z -> stateM (ledger * K) A) :
  (forall c, uses inner n m (body c)) ->
  uses inner n (m + 1) (with_connection (H := counting) body).
Proof.
  intros Hb [l k]. unfold with_connection, sbind at 1. cbn [new_connection counting fst snd].
  destruct (new_connection k) as [c k1]. unfold sbind at 1.
  specialize (Hb c ({| created := c :: created l; closed := closed l; submitted := submitted l |}, k1)).
  destruct (body c _) as [r [l2 k2]]. unfold sbind. cbn [close_connection counting fst snd].
  destruct (close_connection c k2) as [u k3]. cbn in *. destruct Hb as [Hc Hl Hs Hn]. cbn in *.
  split; cbn; [done|unfold len in *; cbn in Hl; lia|set_solver|].
  intros h Hh. destruct (Hn h Hh); set_solver.
Qed.

Lemma other_session_uses open x v :
  (forall c e t, uses inner 0 0 (open c e t)) -> uses inner 2 1 (other_session (H := counting) options open x v).
Proof.
  intros Ho. apply (session_uses 2 0). intros c. apply (uses_bind _ 0 0 2 0); [apply until_uses|]. intros t.
  apply (uses_bind _ 0 0 2 0); [apply Ho|]. intros [u|e]; [apply sees_nothing_uses|by apply uses_stop].
Qed.

Lemma connect_uses c e t : uses inner 0 0 (connect (H := counting) c e t).
Proof. unfold connect. uses_total. Qed.
Lemma connect_future_uses c e t : uses inner 0 0 (connect_future (H := counting) c e t).
Proof. apply connect_uses. Qed.

Lemma objects_uses c : scenario_uses 17 1 (objects (H := counting) options c).
Proof.
  unfold objects. apply (uses_bind _ 2 0 15 1); [apply check_classes_uses|]. intros known.
  apply uses_if; [by apply uses_stop|].
  apply (uses_bind _ 1 0 14 1); [apply ask_uses|]. intros first.
  apply (uses_bind _ 1 0 13 1); [apply ask_uses|]. intros second.
  destruct first as [x|], second as [y|]; try by apply uses_stop. apply uses_if; [by apply uses_stop|].
  apply (uses_bind _ 0 0 13 1); [apply update_uses|]. intros _.
  apply (and_also_uses 4 0 9 1); [apply check_counters_uses| |lia|lia].
  apply (and_also_uses 2 0 7 1); [apply check_text_uses| |lia|lia].
  apply (and_also_uses 3 0 4 1); [apply check_errors_uses| |lia|lia].
  apply (and_also_uses 2 0 2 1); [apply check_release_uses| |lia|lia].
  apply (uses_bind _ 0 0 2 1); [apply uses_get|]. intros v. apply member_uses, other_session_uses, connect_future_uses.
Qed.

Lemma reconnect_uses c : scenario_uses 2 1 (reconnect (H := counting) options c).
Proof.
  unfold reconnect. apply (uses_bind _ 0 0 2 1); [apply member_uses, close_uses|]. intros _.
  do 2 (apply (uses_bind _ 0 0 2 1); [apply uses_get|]; intros ?). apply member_uses, other_session_uses, connect_uses.
Qed.

Lemma run_scenario_uses c : scenario_uses 166 2 (run_scenario (H := counting) options c).
Proof.
  unfold run_scenario. apply (uses_bind _ 147 0 19 2); [apply values_uses|]. intros [[]|]; try by apply uses_stop.
  eapply uses_weaken; [apply uses_bind; [apply (and_also_uses 17 1 2 1); [apply objects_uses|apply reconnect_uses|lia|lia]|
    intros; apply uses_ret]|lia|lia].
Qed.

Lemma command_uses good c : uses inner 166 3 (run_client_command (H := counting) options good c).
Proof.
  apply (session_uses 166 2). intros h. apply (uses_bind _ 0 0 166 2); [apply until_uses|]. intros t.
  apply (uses_bind _ 0 0 166 2); [apply uses_if; [apply connect_uses|apply connect_future_uses]|].
  intros [u|e]; [|by apply uses_stop]. apply (uses_bind _ 166 2 0 0); [|intros; apply uses_ret].
  intros k. pose proof (run_scenario_uses h (new_scenario, k)) as Hu. unfold run_demo.
  destruct (run_scenario _ _ _) as [b [s k']]. exact Hu.
Qed.
End scenario_uses.

(** ** Termination *)
Section termination.
Context {K : Type} `{ClientApi K} (options : invocation).

(** A page that does not end the listing adds a record, and there are at most as many
    records as inputs. *)
Lemma list_pages_enough fuel c l cursor s :
  len l <= len inputs -> len inputs < Z.of_nat fuel + len l -> (list_pages options fuel c l cursor s).1 <> OutOfFuel.
Proof.
  revert l cursor s. induction fuel as [|fuel IH]; intros l cursor s Hl Hf; [lia|].
  cbn [list_pages]. unfold sbind.
  destruct (ask _ _ _ _ s) as [[p|] s']; [|done]. destruct (Z.ltb_spec (len inputs) (len l + len (vp_values p))); [done|].
  destruct (vp_next p =? 0); [done|]. case_bool_decide as Hp; [done|]. cbn [orb].
  destruct (vp_next p <=? cursor); [done|]. apply IH; unfold len in *; rewrite length_app; [lia|].
  destruct (vp_values p); [done|]. cbn in *. lia.
Qed.

Lemma values_answers c s : (values options c s).1 <> None.
Proof.
  unfold values, sbind. destruct (put_inputs _ _ _) as [[saved|] s1]; [|done].
  destruct (read_back _ _ _ _ _) as [same s2]. destruct same; [|done]. cbn [negb].
  pose proof (list_pages_enough (S (length inputs)) c [] 0 s2) as Hf.
  destruct (list_pages _ _ _ _ _ s2) as [[l| |] s3]; [|done|by destruct Hf].
  destruct (equal_by _ _ _); [|done]. cbn [negb]. by destruct (update _ _) as [[] s4], (probe_quota _ _ _ _) as [b s5].
Qed.

Lemma run_demo_answers c k : (run_demo options c k).1 <> None.
Proof.
  unfold run_demo, run_scenario, sbind. pose proof (values_answers c (new_scenario, k)) as Hv.
  destruct (values _ _ _) as [[[]|] [s1 k1]]; [|done|done]. by destruct (and_also _ _ _) as [b [s2 k2]].
Qed.

(** The lines of a run that passed, and the exit code. *)
Definition reported (good : bool) (c : console) (code : Z) (c' : console) : Prop :=
  (code = (if c_out_ok c && good then 0 else 1)
   /\ c' = put_out good c ("R1-R8 scenario passed mode=" +:+ mode_name (inv_command options) +:+ newline))
  \/ (code = 1 /\ exists text, c' = put_err c text).

Lemma command_answers good c k :
  exists code c' k', run_client_command options good c k = (Some (code, c'), k') /\ reported good c code c'.
Proof.
  unfold run_client_command, with_connection, sbind. destruct (new_connection k) as [h k1], (until options k1) as [t k2].
  destruct (_ k2) as [[u|e] k3]; cbn [sret]; cycle 1.
  { unfold sret. destruct (close_connection h k3) as [v k4]. do 3 eexists. split; [done|right]. eauto. }
  pose proof (run_demo_answers h k3) as Hd. destruct (run_demo _ _ _) as [[b|] k4]; [|done]. cbn [sret].
  destruct (close_connection h k4) as [v k5]. unfold reported.
  destruct b; eauto 12.
Qed.
End termination.

(** C24: Termination of the demo.  Whatever server and connection answer it, the demo command
    ends with the exit code 0 or 1: the paging loop cannot run out of its fuel, the last
    line of a run is the one of its exit code, and on the way at most 166 calls are
    submitted and at most three connections created, every one of which is closed. *)
Theorem demo_terminates {K : Type} `{ClientApi K} (options : invocation) (good : bool) (c : console) :
  (forall k, exists code c' k',
    run_client_command options good c k = (Some (code, c'), k') /\ reported options good c code c')
  /\ (forall k, let '(_, (l, _)) := run_client_command (H := counting) options good c (new_ledger, k) in
      submitted l <= 166 /\ len (created l) <= 3 /\ (forall h, h ∈ created l -> h ∈ closed l)).
Proof.
  split; [intros k; apply command_answers|]. intros k.
  pose proof (command_uses options good c (new_ledger, k)) as [Hc Hl _ Hn].
  destruct (run_client_command _ _ _ _) as [r [l k']]. cbn in *. split; [lia|]. split; [done|].
  intros h [Hh|]%Hn; [set_solver|done].
Qed.

(** ** The search in the class names *)
Lemma lower_bound_spec fuel names first count name :
  (count <= fuel)%nat -> (first + count <= length names)%nat ->
  (forall i j a b, names !! i = Some a -> names !! j = Some b -> (i <= j)%nat -> String.le a b) ->
  (forall i a, (i < first)%nat -> names !! i = Some a -> str_lt a name) ->
  (forall i a, (first + count <= i)%nat -> names !! i = Some a -> String.le name a) ->
  let r := lower_bound fuel names first count name in
  (forall i a, (i < r)%nat -> names !! i = Some a -> str_lt a name)
  /\ (forall i a, (r <= i)%nat -> names !! i = Some a -> String.le name a).
Proof.
  intros Hf Hc Hsorted. revert first count Hf Hc.
  induction fuel as [|fuel IH]; intros first [|count] Hf Hc Hlo Hhi; cbn [lower_bound];
    try (rewrite Nat.add_0_r in Hhi; done); [lia|].
  pose proof (Nat.lt_div2 (S count) ltac:(lia)) as Hh.
  set (half := Nat.div2 (S count)) in *. clearbody half.
  destruct (lookup_lt_is_Some_2 names (first + half)) as [mid Hm]; [lia|].
  rewrite Hm. cbn [default from_option id]. case_bool_decide as Hlt.
  - apply IH; [lia|lia| |intros i a Hi; apply Hhi; lia].
    intros i a Hi Ha. assert (Hle : String.le a mid) by (eapply Hsorted; [exact Ha|exact Hm|lia]).
    destruct (decide (a = mid)) as [->|]; [done|]. eapply str_lt_trans; [|exact Hlt]. by split.
  - apply IH; [lia|lia|done|]. intros i a Hi Ha.
    transitivity mid; [by apply str_not_lt|]. eapply Hsorted; [exact Hm|exact Ha|lia].
Qed.

Lemma sorted_lookup (names : list string) i j a b :
  StronglySorted String.le names -> names !! i = Some a -> names !! j = Some b -> (i <= j)%nat -> String.le a b.
Proof.
  intros Hs. revert i j. induction Hs as [|x l Hs IH Hx]; intros i j Ha Hb Hij; [done|].
  destruct i as [|i], j as [|j]; cbn in *; simplify_eq; [done| |lia|by eapply IH; [| |apply le_S_n]].
  rewrite Forall_forall in Hx. by eapply Hx, list_elem_of_lookup_2.
Qed.

(** On sorted names the search decides membership. *)
Lemma binary_search_correct names name :
  StronglySorted String.le names -> binary_search names name = bool_decide (name ∈ names).
Proof.
  intros Hs. pose proof (lower_bound_spec (length names) names 0 (length names) name) as Hb. unfold binary_search.
  destruct Hb as [Hlo Hhi];
    [lia|lia|intros; by eapply sorted_lookup|lia|intros i a Hi Ha%lookup_lt_Some; lia|].
  set (r := lower_bound _ _ _ _ _) in *. clearbody r.
  destruct (names !! r) as [found|] eqn:Hr; case (bool_decide_reflect (name ∈ names)) as [Hin|Hin]; cbn.
  - apply negb_true_iff, bool_decide_eq_false_2. intros Hlt. apply list_elem_of_lookup in Hin as [i Hi].
    destruct (decide (i < r)%nat) as [Hi'|]; [by apply (str_lt_irrefl name), (Hlo i)|].
    apply (str_lt_irrefl name), (str_lt_le_trans _ found); [done|]. eapply sorted_lookup; [done|exact Hr|exact Hi|lia].
  - apply negb_false_iff, bool_decide_eq_true_2. split; [by apply (Hhi r)|]. intros ->. by eapply Hin, list_elem_of_lookup_2.
  - apply list_elem_of_lookup in Hin as [i Hi]. apply lookup_ge_None in Hr. pose proof (lookup_lt_Some _ _ _ Hi).
    by destruct (str_lt_irrefl name), (Hlo i name ltac:(lia) Hi).
  - done.
Qed.
