(* ===== verification/Executables.v ===== *)
(** * The two executables (apps, src/cli)

    The handlers that [pipeforge-server] and [pipeforge-client] pass to [run_application]
    are commands of Application.v and Demo.v; while they run, the threads of the library
    use the diagnostic session.  These calls come in the order in which they take the
    mutex of the session; the scopes of the library are objects of blocks that end before
    their thread is joined, and the threads are joined before the command returns. *)
From stdpp Require Import prelude gmap strings pretty.
From Stdlib Require Import Ascii ZArith Lia.
From S2P Require Import Prelude Json Diagnostics DiagnosticsProofs Utf8 Contracts Validation Framing Transport Messages Codec CodecSpec Wire WireProofs CommandLine Registry Store Builtins Dispatcher Server Application ApplicationProofs Client Demo DemoProofs.

(** ** The calls of the library on the session *)

(** Every scope is constructed once and destroyed, none is the one of the command, and
    the session is not finished; [live] are the objects under construction. *)
Fixpoint balanced (live : gset Z) (evs : list d_event) : bool :=
  match evs with
  | [] => bool_decide (live = ∅)
  | de_log _ _ _ :: rest => balanced live rest
  | de_open key _ _ _ :: rest =>
      bool_decide (key ∉ live) && negb (key =? command_scope) && balanced ({[key]} ∪ live) rest
  | de_close key _ _ :: rest => bool_decide (key ∈ live) && balanced (live ∖ {[key]}) rest
  | _ => false
  end.

(** The lines logged. *)
Definition logged_line (ev : d_event) : option (log_level * string) :=
  match ev with de_log level message _ => Some (level, message) | _ => None end.
Definition logged (evs : list d_event) : list (log_level * string) := omap logged_line evs.

Section calls.
Context `{Json} (pid : Z) (application : string).

Lemma open_scopes w key identifier name clock key' :
  key' <> key -> scopes (open_scope w key identifier name clock) !! key' = scopes w !! key'.
Proof.
  intros Hne. unfold open_scope. destruct (state_ w) as [d|]; [|done]. destruct (negb _); [done|].
  destruct (begin_scope d identifier) as [[t|] d']; cbn; [by rewrite lookup_insert_ne|done].
Qed.
Lemma close_scopes w out key stop io o w' :
  w_ok pid application w out -> close_scope pid w key stop io = Some (o, w') -> scopes w' = delete key (scopes w).
Proof.
  intros ok. unfold close_scope, w_ok in *. destruct (scopes w !! key) as [s|] eqn:Es.
  - destruct (state_ w) as [d|]; [|destruct ok as [Hem _]; by rewrite Hem in Es].
    destruct (end_scope _ _ _ _ _ _ _) as [[event d']|]; [|done]. by intros [= _ <-].
  - intros [= _ <-]. symmetry. by apply delete_id.
Qed.

(** Balanced calls leave the scope of the command and no other. *)
Lemma balanced_scopes w evs outs r : d_run pid w evs outs r ->
  forall out live w', r = Some w' -> w_ok pid application w out -> balanced live evs = true ->
  (command_scope ∉ live) -> (forall key, is_Some (scopes w !! key) -> key = command_scope \/ key ∈ live) ->
  scopes w' !! command_scope = scopes w !! command_scope
  /\ forall key, is_Some (scopes w' !! key) -> key = command_scope.
Proof.
  induction 1 as [w|w ev evs Hal Hst|w ev o w1 evs outs r Hal Hst Hrun IH]; intros out live w' Hr ok Hb Hc Hlive; [|done|].
  - injection Hr as <-. cbn in Hb. apply bool_decide_eq_true in Hb as ->. split; [done|].
    intros key [|Hk]%Hlive; [done|set_solver].
  - destruct (step_ok pid application w out ev ok Hal) as (o' & w2 & Hs & ok1). rewrite Hst in Hs. injection Hs as <- <-.
    destruct ev as [level message ok0|key identifier name clock|key stop io|io|io]; cbn in Hb, Hst; try done.
    + injection Hst as <- <-. exact (IH _ live w' Hr ok1 Hb Hc Hlive).
    + bool_simp. injection Hst as <- <-.
      destruct (IH (out ++ []) ({[key]} ∪ live) w' Hr ok1) as [Hk Hrest]; [done|set_solver| |].
      * intros key' Hk'. destruct (decide (key' = key)) as [->|Hne]; [set_solver|].
        rewrite open_scopes in Hk' by done. destruct (Hlive key' Hk'); set_solver.
      * split; [|done]. rewrite Hk. by apply open_scopes.
    + bool_simp. pose proof (close_scopes w out key stop io o w1 ok Hst) as Hdel.
      destruct (IH (out ++ o) (live ∖ {[key]}) w' Hr ok1) as [Hk Hrest]; [done|set_solver| |].
      * rewrite Hdel. intros key' [Hne Hk']%lookup_delete_is_Some. destruct (Hlive key' Hk') as [|Hin]; [by left|].
        right. set_solver.
      * split; [|done]. rewrite Hk, Hdel. apply lookup_delete_ne. set_solver.
Qed.
End calls.

(** ** The handlers *)
Section handlers.
Context `{Json} `{Utf8Ops} `{Protobuf} {K : Type} `{ClientApi K} (pid : Z).

(** A run of a command, with the calls that the library made meanwhile. *)
Definition with_calls (result : Z * console) (evs : list d_event) (c' : console) (code : Z) : Prop :=
  code = result.1 /\ balanced ∅ evs = true
  /\ exists outs w, d_run pid (c_session result.2) evs outs (Some w) /\ c' = set_session result.2 w.

(** [run_server_command]: its result is one that the model gives for some behaviour of
    the system, and the lines logged are those of the host. *)
Definition server_handler (h : command_handler) : Prop :=
  forall i c, exists env code c' host evs,
    run_server_command i true env c = Some (code, c', host)
    /\ logged evs = match host with Some s => Server.log_ (sv_state s) | None => [] end
    /\ with_calls (code, c') evs (h i c).2 (h i c).1.

(** [run_client_command], over some world behind the connections. *)
Definition client_handler (h : command_handler) : Prop :=
  forall i c, exists good k code c' k' evs,
    run_client_command i good c k = (Some (code, c'), k') /\ with_calls (code, c') evs (h i c).2 (h i c).1.

Lemma server_command_result i diagnostics env c code c' host :
  run_server_command i diagnostics env c = Some (code, c', host) ->
  (code = 0 \/ code = 1) /\ c_session c' = c_session c.
Proof.
  unfold run_server_command. destruct register_builtins as [registry|]; [|intros [= <- <- _]; auto].
  destruct (start _ _ _ _) as [h|e]; [|intros [= <- <- _]; auto]. destruct (stop_host _ _ _ _ _) as [h'|]; [|by destruct (negb _)].
  destruct (negb _); intros [= <- <- _]; [auto|]. split; [destruct (_ || _); auto|done].
Qed.

Lemma calls_behaved result evs c c' code application out :
  c_session result.2 = c_session c -> (result.1 = 0 \/ result.1 = 1) -> with_calls result evs c' code ->
  w_ok pid application (c_session c) out -> (forall key, is_Some (scopes (c_session c) !! key) -> key = command_scope) ->
  (code = 0 \/ code = 1) /\ (exists evs outs, d_run pid (c_session c) evs outs (Some (c_session c')))
  /\ scopes (c_session c') = scopes (c_session c).
Proof.
  intros Hs Hcode (-> & Hb & outs & w & Hrun & ->) ok Honly. rewrite Hs in Hrun. split; [done|].
  split; [by exists evs, outs|]. cbn [c_session set_session].
  destruct (balanced_scopes pid application _ _ _ _ Hrun out ∅ w eq_refl ok Hb) as [Hk Hrest];
    [set_solver|intros key Hk; left; by apply Honly|].
  apply map_eq. intros key. destruct (decide (key = command_scope)) as [->|Hne]; [done|].
  transitivity (None : option scope); [|symmetry]; apply eq_None_not_Some; intros Hx;
    [by apply Hrest in Hx|by apply Honly in Hx].
Qed.

Lemma server_handler_behaved h : server_handler h -> well_behaved pid h.
Proof.
  intros Hh application out i c ok Honly. destruct (Hh i c) as (env & code & c' & host & evs & Hrun & _ & Hw).
  apply server_command_result in Hrun as [Hcode Hs].
  eapply (calls_behaved (code, c')); [exact Hs|exact Hcode|exact Hw|exact ok|exact Honly].
Qed.

Lemma client_handler_behaved h : client_handler h -> well_behaved pid h.
Proof.
  intros Hh application out i c ok Honly. destruct (Hh i c) as (good & k & code & c' & k' & evs & Hrun & Hw).
  destruct (command_answers i good c k) as (code2 & c2 & k2 & Hrun2 & Hrep). rewrite Hrun in Hrun2.
  injection Hrun2 as <- <- <-. eapply (calls_behaved (code, c')); [|..|exact Hw|exact ok|exact Honly].
  - by destruct Hrep as [[_ ->]|(_ & text & ->)].
  - destruct Hrep as [[-> _]|[-> _]]; [destruct (_ && _); auto|auto].
Qed.
End handlers.

(** ** Properties *)

(** C25: Exit codes.  Run with its own command, or with none as on Linux, an executable
    always returns, with 0, 1 or 2, whatever the system, the peers, the sinks and the
    threads of the library do.  It returns 2 exactly for arguments that are invalid or not
    supported; then it prints one line to the error stream, nothing to the output, and
    opens no diagnostics.  It returns 0 only when the requested diagnostics are complete:
    no sink failed, both sinks are released and a trace is one JSON text.  [--help] and
    [--version] insert their text into the output stream and return 0 exactly when the
    diagnostics did not fail: a failure of the output stream itself is not reported. *)
Theorem application_exit_codes `{Json} `{!JsonLaws} `{Filesystem} `{Utf8Ops} `{Protobuf} {K : Type} `{ClientApi K}
    (pid : Z) (profiling : bool) (binary_version : string) name args handler env c :
  (forall h, handler = Some h -> server_handler pid h \/ client_handler pid h) ->
  exists code c', run_application pid profiling binary_version name args handler env c = Some (code, c')
    /\ (code = 0 \/ code = 1 \/ code = 2)
    /\ (code = 2 <-> exists error, usage_error profiling name args handler = inr error)
    /\ (code = 2 -> c_out c' = c_out c /\ c_session c' = c_session c
                    /\ exists line, c_err c' = c_err c +:+ line +:+ newline)
    /\ (code = 0 -> artefacts_complete (c_session c'))
    /\ (forall parsed options w, usage_error profiling name args handler = inl (parsed, options) ->
          is_runtime (inv_command parsed) = false ->
          open_diagnostic_session pid profiling name options (env_open env) (env_header env) (env_process env) = inl w ->
          c_out c' = c_out c +:+ command_output profiling binary_version name (inv_command parsed)
          /\ c_out_ok c' = c_out_ok c && env_output env
          /\ (code = 0 <-> session_failed (c_session c') = false)).
Proof.
  intros Hh. apply application_codes. intros h [Hs|Hc]%Hh; [by apply server_handler_behaved|by apply client_handler_behaved].
Qed.

(** A failed output stream goes unnoticed: [--version] without diagnostics returns 0. *)
Lemma version_output_unchecked `{Json} `{Filesystem} pid profiling binary_version env c :
  env_output env = false ->
  exists c', run_application pid profiling binary_version "pipeforge-client" ["--version"] None env c = Some (0, c')
    /\ c_out_ok c' = false.
Proof.
  intros Ho. unfold run_application.
  replace (usage_error profiling "pipeforge-client" ["--version"] None)
    with (inl ({| inv_command := cmd_version; inv_endpoint := default_endpoint; inv_timeout := default_timeout;
                  inv_sessions := max_sessions |}, default_diagnostics)
          : (invocation * diagnostic_options) + string) by (destruct profiling; vm_compute; reflexivity).
  cbn. unfold run_command, print_command. cbn. destruct (env_print env) as [[start stop] io]. cbn.
  eexists. split; [reflexivity|]. cbn. rewrite Ho. by destruct (c_out_ok c).
Qed.

Module ExecutablesDemo.
#[local] Existing Instance utf8_reference.
#[local] Existing Instance wire_protobuf.
#[local] Existing Instance json_reference.
#[local] Existing Instance json_reference_laws.
#[local] Existing Instance DiagnosticsDemo.plain_files.

Definition env : app_env := {|
  env_open := 0; env_header := true; env_process := true; env_begin := 10; env_print := (20, 30, io_ok);
  env_output := true; env_started := true; env_completed := true; env_end := (40, io_ok); env_finish := io_ok;
  env_thread := 5 |}.
Definition arguments : list string := ["--serve"; "--sessions"; "1"; "--log-file"; "a.log"; "--trace-file"; "a.json"].

(** A system that serves one session and denies more. *)
Definition denied : server_env := {|
  se_descriptor := Some (t_native fk_access_denied 5); se_pipes := []; se_threads := None; se_ready_ok := true;
  se_stopped_ok := true; se_stdin_bad := false; se_serving := []; se_stopping := [] |}.
Definition system (i : invocation) : server_env :=
  if inv_sessions i =? 1 then ApplicationDemo.served else denied.
Definition serve : command_handler := fun i c =>
  match run_server_command i true (system i) c with Some (code, c', _) => (code, c') | None => (1, c) end.

Lemma served_always i c :
  exists code c' host, run_server_command i true (system i) c = Some (code, c', host)
    /\ match host with Some s => Server.log_ (sv_state s) = [] | None => True end.
Proof.
  unfold run_server_command. destruct register_builtins as [registry|]; [|by eexists _, _, _].
  unfold system. destruct (Z.eqb_spec (inv_sessions i) 1) as [E|E].
  - destruct (start _ _ _ _) as [host|e] eqn:Es; [|by eexists _, _, _].
    assert (Hh : host = {| sv_state := initial_state; sv_workers := [Looping] |}).
    { unfold start, launch in Es. cbn [opt_sessions options_of_invocation] in Es. rewrite E in Es.
      destruct (_ || _); [done|]. by injection Es as <-. }
    subst host. destruct (negb _); by eexists _, _, _.
  - unfold start, launch. cbn [se_descriptor denied]. destruct (_ || _); by eexists _, _, _.
Qed.

(** What stands behind the connections of a client is not needed here. *)
#[local] Instance no_client : ClientApi unit := {|
  clock_now := sret 0; new_connection := sret 0; start_connect _ _ _ := sret 0;
  connect_get _ := sret (inr {| c_failure_kind := ck_timeout; c_native_error := 0 |});
  start_call _ _ _ := sret 0; call_get _ := sret (inr {| c_failure_kind := ck_timeout; c_native_error := 0 |});
  close_connection _ := sret tt |}.

Lemma serve_handler : server_handler 7 serve.
Proof.
  intros i c. destruct (served_always i c) as (code & c' & host & Hrun & Hlog).
  exists (system i), code, c', host, []. split; [exact Hrun|]. split; [destruct host; [by rewrite Hlog|done]|].
  unfold serve. rewrite Hrun. split; [done|]. split; [done|]. exists [], (c_session c'). split; [constructor|]. by destruct c'.
Qed.

Lemma application_exit_codes_witness :
  exists c', run_application 7 true "1.0" "pipeforge-server" arguments (Some serve) env ApplicationDemo.console0 = Some (0, c')
    /\ artefacts_complete (c_session c').
Proof.
  destruct (application_exit_codes 7 true "1.0" "pipeforge-server" arguments (Some serve) env ApplicationDemo.console0)
    as (code & c' & Hrun & _ & _ & _ & Hart & _).
  - intros h Hh. injection Hh as <-. left. exact serve_handler.
  - assert (Hcode : code = 0).
    { assert (Hx : option_map fst (run_application 7 true "1.0" "pipeforge-server" arguments (Some serve) env
                     ApplicationDemo.console0) = Some 0) by (vm_compute; reflexivity).
      rewrite Hrun in Hx. cbn in Hx. congruence. }
    subst code. exists c'. split; [exact Hrun|]. apply Hart. reflexivity.
Defined.
End ExecutablesDemo.
