(* ===== verification/EndToEnd.v ===== *)
(** * A remote call, from the client's queue to its future

    The client, the codec, the dispatcher and the session store together: the payload
    of an admitted call is decoded by the server to the call's request, the store
    executes it, its reply is encodable, and the reader of the client accepts the
    reply and completes the call with the outcome of the store. *)
From stdpp Require Import prelude gmap strings.
From Stdlib Require Import ZArith Lia.
From S2P Require Import Prelude Utf8 Contracts Validation Framing Transport Messages Codec CodecProofs CodecSpec Wire WireProofs Sizes Registry Store StoreProofs StoreSpec Lawful Builtins Sessions Replies Dispatcher Server ServerProofs Client ClientProofs.

Section end_to_end.
Context `{Utf8Laws} `{Protobuf} `{!ProtobufLaws} `{!ProtobufSizes} {Obj : Type} `{ObjectOps Obj}.
Context (registry : class_registry Obj).

Lemma answers_match (a : abs_store) op o : answers registry a op o -> matches op o = true.
Proof.
  intros Ha. destruct Ha as [| n d Hf | | | |]; cbn; try done.
  - apply registry_find_Some in Hf as [_ Hn]. by apply bool_decide_eq_true_2.
  - apply Z.eqb_refl.
  - apply Z.eqb_refl.
Qed.

(** Whatever the store answers can answer the operation. *)
Lemma step_matches (a : abs_store) ids op o a' ids' :
  spec_step registry a ids op o a' ids' -> matches op o = true.
Proof.
  intros Hs. destruct Hs as [op _|op c _ _|op o _ Ha|v id ids' _ Hv _ _ _ _ _| | |]; cbn; try done.
  - by eapply answers_match.
  - by apply valid_value_eqb_refl.
  - by apply bool_decide_eq_true_2.
Qed.

Lemma received_accepted c p r e :
  client_ok c -> closed_ c = false -> reader_ c = R_receiving -> accepts c p r e ->
  exists c', client_step c (ce_received (inl p) false false) = Step c'
    /\ completed_with c c' (resp_id r) e (inl r) /\ reader_ c' = R_logging (resp_id r) /\ client_ok c'.
Proof.
  intros ok Hc Hr (Hd & He & Hn & Hph & Hm).
  assert (Hp : resp_id r ∈ pending_ c) by (apply (co_pending _ _ _ _ (ck_calls c ok)); eauto).
  pose proof (client_step_good c (ce_received (inl p) false false) ok) as Hg.
  assert (Hs : client_step c (ce_received (inl p) false false)
    = Step (set_reader (set_calls c (<[resp_id r := with_promise e (inl r)]> (calls_ c))
                          (pending_ c ∖ {[resp_id r]}) (queued_ c)) (R_logging (resp_id r)))).
  { cbn [client_step]. unfold reader_received. rewrite Hr, Hc, Hd, bool_decide_eq_true_2, He, Hm by done.
    unfold set_value. rewrite He, Hn. by destruct (pc_progress e). }
  rewrite Hs in Hg. eexists. split; [exact Hs|]. split; [by split_and!|]. split; [done|]. apply Hg.
Qed.

End end_to_end.

(** Remote calls.  Take a client reachable from its creation, an open connection
    with the reader waiting for a payload, and an admitted call without result whose
    writing has begun; and a server session with a lawful registry.  Then the server
    decodes the call's payload to its request and executes it on the session; the
    reply is encodable; and when the reader receives it in time, the call's future gets
    exactly the outcome of the store, no other call changes, and the connection stays
    open. *)
Theorem remote_call_correct `{Utf8Laws} `{Protobuf} `{!ProtobufLaws} `{!ProtobufSizes} {Obj : Type} `{ObjectOps Obj}
    (registry : class_registry Obj) `{!LawfulRegistry registry} (diagnostics : bool) evs c id e st ids :
  registry_wf registry -> store_wf registry st ids -> objects_lawful registry (abs st) -> values_typed (abs st) ->
  client_run new_client evs = Step c -> closed_ c = false -> reader_ c = R_receiving ->
  calls_ c !! id = Some e -> pc_promise e = None -> pc_progress e <> ph_queued ->
  operation_in_range (req_body (pc_request e)) ->
  exists o st' ids' lines p c',
    decode_request (pc_encoded e) = inl (pc_request e)
    /\ dispatch registry diagnostics st ids (pc_request e)
       = Some (inl {| resp_id := id; resp_body := o; resp_version := version |}, st', ids', lines)
    /\ execute registry st ids (req_body (pc_request e)) = Some (o, st', ids')
    /\ encode_response {| resp_id := id; resp_body := o; resp_version := version |} = inl p
    /\ client_step c (ce_received (inl p) false false) = Step c'
    /\ completed_with c c' id e (inl {| resp_id := id; resp_body := o; resp_version := version |}).
Proof.
  intros Hr wf Hol Hvt ok%reachable_ok Hc Hrd He Hn Hph Hrange.
  destruct (co_entry _ _ _ _ (ck_calls c ok) id e He) as ([Hid Hver] & Henc & Hidr & _).
  pose proof (co_next _ _ _ _ (ck_calls c ok)) as Hnx.
  assert (Hinr : request_in_range (pc_request e)).
  { unfold request_in_range. rewrite Hid, Hver. split; [unfold in_u32, two32, version; lia|]. split; [|done]. ulia. }
  destruct (request_roundtrip _ _ Hinr Henc) as [Hdec _].
  pose proof (typed_of_range _ Hrange) as Ht.
  destruct (dispatch_carried registry Hr diagnostics st ids (pc_request e) wf) as (o & st' & ids' & lines & Hdis & Hex & _ & _ & Hok);
    [lia|done|done|]. rewrite Hid in Hdis.
  destruct (execute_step registry Hr st ids _ wf Ht) as ([[o2 st2] ids2] & Hex2 & _ & _ & Hspec).
  rewrite Hex in Hex2. injection Hex2 as <- <- <-.
  pose proof (execute_in_range registry Hr st ids _ _ _ _ wf Hol Hvt Ht (values_of_range _ Hrange) Hex) as Hin.
  destruct (reply_encoded id o Hok) as (p & Hp & _); [lia|].
  destruct (response_roundtrip {| resp_id := id; resp_body := o; resp_version := version |} p) as [Hback _]; [|done|].
  { split; [unfold in_u32, two32, version; cbn; lia|]. split; [cbn; ulia|done]. }
  destruct (received_accepted c p {| resp_id := id; resp_body := o; resp_version := version |} e ok Hc Hrd)
    as (c' & Hs & Hw & _).
  { split_and!; [done|done|done|done|]. exact (step_matches registry _ _ _ _ _ _ Hspec). }
  exists o, st', ids', lines, p, c'. by split_and!.
Qed.

Module EndToEndDemo.
#[local] Existing Instance utf8_reference.
#[local] Existing Instance utf8_reference_laws.
#[local] Existing Instance wire_protobuf.
#[local] Existing Instance wire_laws.
#[local] Existing Instance wire_sizes.

Lemma remote_call_correct_witness :
  exists o st' ids' p c',
    execute builtin_registry ServerDemo.store (identifiers_ initial_state) (put_value (Integer 5)) = Some (o, st', ids')
    /\ client_step ClientDemo.demo (ce_received (inl p) false false) = Step c'
    /\ completed_with ClientDemo.demo c' 1 (ClientDemo.call 1 (put_value (Integer 5)) ph_sent)
         (inl {| resp_id := 1; resp_body := o; resp_version := version |}).
Proof.
  destruct (remote_call_correct builtin_registry true ClientDemo.demo_events ClientDemo.demo 1
    (ClientDemo.call 1 (put_value (Integer 5)) ph_sent) ServerDemo.store (identifiers_ initial_state))
    as (o & st' & ids' & lines & p & c' & _ & _ & He & _ & Hs & Hw).
  - exact builtin_registry_wf.
  - exact (ok_stores _ _ ServerDemo.serving_ok 0 _ ServerDemo.store eq_refl eq_refl).
  - intros i d x Hl. cbn in Hl. rewrite fmap_empty in Hl. discriminate Hl.
  - intros i v Hl. discriminate Hl.
  - exact ClientDemo.demo_run.
  - vm_compute. reflexivity.
  - vm_compute. reflexivity.
  - vm_compute. reflexivity.
  - reflexivity.
  - discriminate.
  - cbn. unfold in_i64, i64_min, i64_max. lia.
  - exists o, st', ids', p, c'. split; [exact He|]. split; [exact Hs|exact Hw].
Defined.
End EndToEndDemo.
