(* ===== verification/Link.v ===== *)
(** * A client and a server over one pipe

    [link] composes the step systems of Client.v and Server.v: one client connection,
    the whole server host, and the pipe instance between the client and the worker [w]
    that accepted it, in every interleaving of the three client threads, the callers,
    the workers and the pipe.  The pipe carries payloads in order in both directions
    (the frames and the native transfers below it are Framing.v, Native.v and Stream.v).
    A payload enters the pipe while its [send] is running, so the peer may have answered
    before [send] returns; a send can fail with or without the payload having entered;
    a receive can fail at any time.  [l_history] is a ghost: the requests the worker has
    executed in this session, with their outcomes. *)
From stdpp Require Import prelude gmap strings.
From Stdlib Require Import ZArith Lia.
From S2P Require Import Prelude Utf8 Contracts Validation Framing Transport Messages Codec Registry Store StoreProofs StoreSpec Dispatcher Server Client.

Record link (Obj : Type) := {
  l_client : client;
  l_server : server Obj;
  l_up : list bytes;                       (* from the client to the server *)
  l_down : list bytes;
  l_written : bool;                        (* the payload the writer is sending is in the pipe *)
  l_replied : bool;                        (* the reply the worker is sending is in the pipe *)
  l_over : bool;                           (* the worker has ended this session *)
  l_history : list (request * outcome);
}.
Arguments l_client {Obj} _.
Arguments l_server {Obj} _.
Arguments l_up {Obj} _.
Arguments l_down {Obj} _.
Arguments l_written {Obj} _.
Arguments l_replied {Obj} _.
Arguments l_over {Obj} _.
Arguments l_history {Obj} _.

Inductive link_event :=
  | LE_client (ev : c_event)               (* a step of the client without a payload *)
  | LE_write                               (* the payload of the writer enters the pipe *)
  | LE_read (cancelled expired : bool)     (* the reader receives the next payload *)
  | LE_server (l : label)                  (* a step of the server without a payload *)
  | LE_serve                               (* the worker receives the next payload *)
  | LE_reply.                              (* the reply of the worker enters the pipe *)

Section link.
Context `{Utf8Ops} `{Protobuf} {Obj : Type} `{ObjectOps Obj}.
Context (registry : class_registry Obj) (options : server_options) (diagnostics : bool) (w : nat).
Implicit Types (l : link Obj).

Definition new_link (sv : server Obj) : link Obj := {|
  l_client := new_client; l_server := sv; l_up := []; l_down := []; l_written := false; l_replied := false;
  l_over := false; l_history := [] |}.

(** [channel_->send] and [channel_->receive] return a success only when the payload has
    passed through the pipe. *)
Definition client_may l (ev : c_event) : bool :=
  match ev with
  | ce_sent (inl _) => l_written l
  | ce_received (inl _) _ _ => false
  | _ => true
  end.

(** The client becomes [c]; a send that goes on keeps its payload where it is. *)
Definition with_client l (c : client) (down : list bytes) : link Obj := {|
  l_client := c; l_server := l_server l; l_up := l_up l; l_down := down;
  l_written := match writer_ (l_client l), writer_ c with W_sending _, W_sending _ => l_written l | _, _ => false end;
  l_replied := l_replied l; l_over := l_over l; l_history := l_history l |}.

Definition link_client l (ev : c_event) : option (link Obj) :=
  if client_may l ev then
    match client_step (l_client l) ev with Step c => Some (with_client l c (l_down l)) | _ => None end
  else None.

Definition link_read l (cancelled expired : bool) : option (link Obj) :=
  match l_down l with
  | [] => None
  | p :: down =>
      match client_step (l_client l) (ce_received (inl p) cancelled expired) with
      | Step c => Some (with_client l c down)
      | _ => None
      end
  end.

(** The request whose payload the writer still has to put into the pipe. *)
Definition sending (c : client) (written : bool) : option pending_call :=
  match writer_ c with W_sending id => if written then None else calls_ c !! id | _ => None end.

Definition link_write l : option (link Obj) :=
  match sending (l_client l) (l_written l) with
  | None => None
  | Some e => Some {|
      l_client := l_client l; l_server := l_server l; l_up := l_up l ++ [pc_encoded e]; l_down := l_down l;
      l_written := true; l_replied := l_replied l; l_over := l_over l; l_history := l_history l |}
  end.

(** The same for the worker of this session. *)
Definition worker_may l (ev : event) : bool :=
  match ev with
  | ev_send (inl _) => l_replied l
  | ev_receive (inl _) => false
  | _ => true
  end.

(** The request a step of the worker has executed. *)
Definition executed (wk wk' : option (worker Obj)) : list (request * outcome) :=
  match wk, wk' with
  | Some (Holding _ (inl r)), Some (Responding _ (inl a)) => [(r, resp_body a)]
  | _, _ => []
  end.

(** The server becomes [sv] by a step of this session's worker, or by another step. *)
Definition with_session l (sv : server Obj) (up : list bytes) (over : bool) : link Obj := {|
  l_client := l_client l; l_server := sv; l_up := up; l_down := l_down l; l_written := l_written l;
  l_replied := match sv_workers (l_server l) !! w with Some (Holding _ _) => false | _ => l_replied l end;
  l_over := over;
  l_history := l_history l ++ executed (sv_workers (l_server l) !! w) (sv_workers sv !! w) |}.
Definition with_others l (sv : server Obj) : link Obj := {|
  l_client := l_client l; l_server := sv; l_up := l_up l; l_down := l_down l; l_written := l_written l;
  l_replied := l_replied l; l_over := l_over l; l_history := l_history l |}.

Definition link_server l (lab : label) : option (link Obj) :=
  match server_step registry options diagnostics (l_server l) lab with
  | None => None
  | Some sv =>
      match lab with
      | L_worker i ev =>
          if bool_decide (i = w) && negb (l_over l) then
            if worker_may l ev
            then Some (with_session l sv (l_up l) (match ev with ev_close => true | _ => false end))
            else None
          else Some (with_others l sv)
      | L_request_stop => Some (with_others l sv)
      end
  end.

Definition link_serve l : option (link Obj) :=
  match l_up l with
  | [] => None
  | p :: up =>
      if l_over l then None
      else
        match server_step registry options diagnostics (l_server l) (L_worker w (ev_receive (inl p))) with
        | Some sv => Some (with_session l sv up false)
        | None => None
        end
  end.

Definition link_reply l : option (link Obj) :=
  if l_over l || l_replied l then None
  else
    match sv_workers (l_server l) !! w with
    | Some wk =>
        match reply_payload wk with
        | Some b => Some {|
            l_client := l_client l; l_server := l_server l; l_up := l_up l; l_down := l_down l ++ [b];
            l_written := l_written l; l_replied := true; l_over := l_over l; l_history := l_history l |}
        | None => None
        end
    | None => None
    end.

Definition link_step l (ev : link_event) : option (link Obj) :=
  match ev with
  | LE_client ev => link_client l ev
  | LE_write => link_write l
  | LE_read cancelled expired => link_read l cancelled expired
  | LE_server lab => link_server l lab
  | LE_serve => link_serve l
  | LE_reply => link_reply l
  end.

Fixpoint link_run l (evs : list link_event) : option (link Obj) :=
  match evs with
  | [] => Some l
  | ev :: rest => match link_step l ev with Some l' => link_run l' rest | None => None end
  end.

(** ** The abstract session

    What the histories of a session must be: steps of the contract of the store, from
    the empty store on, between which other sessions may take identifiers. *)
Inductive session_trace (a0 : abs_store (Obj := Obj)) (ids0 : identifier_source)
  : list (request * outcome) -> abs_store (Obj := Obj) -> identifier_source -> Prop :=
  | trace_start : session_trace a0 ids0 [] a0 ids0
  | trace_others h a ids ids' :
      session_trace a0 ids0 h a ids -> ids_le ids ids' -> session_trace a0 ids0 h a ids'
  | trace_step h a ids r o a' ids' :
      session_trace a0 ids0 h a ids -> spec_step registry a ids (req_body r) o a' ids' ->
      session_trace a0 ids0 (h ++ [(r, o)]) a' ids'.
End link.
