(* ===== verification/LinkProofs.v ===== *)
(** * The link refines a sequential session

    In every interleaving, what the clients' futures report is a run of the abstract
    session: the worker executes the calls in the order in which they were made, each at
    most once, and a successful result is the outcome of that execution.  The invariant
    says where every call is between its queue and its future. *)
From stdpp Require Import prelude gmap strings sorting.
From Stdlib Require Import ZArith Lia.
From S2P Require Import Prelude Utf8 Contracts Validation Framing Transport Native Messages Codec CodecProofs CodecSpec Wire WireProofs Sizes Registry Store StoreProofs StoreSpec Lawful Builtins Sessions Replies Dispatcher Server ServerProofs Client ClientProofs ClientSteps EndToEnd Link.

Lemma sublist_sorted {A} (R : A -> A -> Prop) (l1 l2 : list A) :
  l1 `sublist_of` l2 -> StronglySorted R l2 -> StronglySorted R l1.
Proof.
  induction 1 as [|x l1 l2 Hs IH|x l1 l2 Hs IH]; intros Hl; [done| |]; apply StronglySorted_cons in Hl as [Hx Hl].
  - apply StronglySorted_cons. split; [|by apply IH]. rewrite Forall_forall in Hx |- *.
    intros y Hy. apply Hx. by eapply elem_of_submseteq, sublist_submseteq.
  - by apply IH.
Qed.

Section invariant.
Context `{Utf8Laws} `{Protobuf} `{!ProtobufLaws} `{!ProtobufSizes} {Obj : Type} `{ObjectOps Obj}.
Context (registry : class_registry Obj) `{!LawfulRegistry registry} (registry_ok : registry_wf registry).
Context (options : server_options) (diagnostics : bool) (w : nat).
Context (limits_ok : 0 <= lim_values (opt_storage options) /\ 0 <= lim_objects (opt_storage options)
                     /\ 0 <= lim_bytes (opt_storage options)).
Context (ids0 : identifier_source).
Implicit Types (l : link Obj) (c : client).

Definition reply (h : request * outcome) : response :=
  {| resp_id := req_id h.1; resp_body := h.2; resp_version := version |}.

(** An executed request whose reply the client will accept. *)
Definition answer_ok (h : request * outcome) : Prop :=
  matches (req_body h.1) h.2 = true
  /\ exists b, encode_response (reply h) = inl b /\ decode_response b = inl (reply h).

(** Where the worker of the session is: the store, the executed request whose reply has
    not entered the pipe (of which a closing session may leave several unanswered), and
    the request it is about to execute. *)
Inductive serving : worker Obj -> bool -> session_store Obj -> list (request * outcome) -> list request -> Prop :=
  | serving_head st b : serving (ServeHead st) b st [] []
  | serving_receiving st b : serving (Receiving st) b st [] []
  | serving_waiting st b r : serving (Waiting st (inl r)) b st [] [r]
  | serving_holding st b r : serving (Holding st (inl r)) b st [] [r]
  | serving_unsent st h : serving (Responding st (inl (reply h))) false st [h] []
  | serving_sent st h : serving (Responding st (inl (reply h))) true st [] []
  | serving_closing st b lost : serving (Closing st) b st lost [].

Definition current l : list request := option_list (pc_request <$> sending (l_client l) (l_written l)).

(** The calls that have left the queue, and those of them that are still under way. *)
Definition line l (mid ups : list request) : list request := (l_history l).*1 ++ mid ++ ups ++ current l.
Definition under_way l (sent unsent : list (request * outcome)) (mid ups : list request) : list request :=
  (sent ++ unsent).*1 ++ mid ++ ups ++ current l.

(** The history is a trace of the abstract session, whose state is the worker's store. *)
Definition session_ok l (unsent : list (request * outcome)) (mid : list request) : Prop := exists a,
  session_trace registry (abs (new_session_store (opt_storage options))) ids0 (l_history l) a
    (identifiers_ (sv_state (l_server l)))
  /\ if l_over l then mid = []
     else exists wk st, sv_workers (l_server l) !! w = Some wk /\ serving wk (l_replied l) st unsent mid
            /\ a = abs st /\ objects_lawful registry (abs st) /\ values_typed (abs st).

Record link_ok l (got sent unsent : list (request * outcome)) (mid ups : list request) : Prop := {
  li_client : client_ok (l_client l);
  li_server : server_ok registry (l_server l);
  li_typed id e : calls_ (l_client l) !! id = Some e -> operation_in_range (req_body (pc_request e));
  li_history : l_history l = got ++ sent ++ unsent;
  li_answers : Forall answer_ok (l_history l);
  li_session : session_ok l unsent mid;
  li_down : Forall2 (fun h b => encode_response (reply h) = inl b) sent (l_down l);
  li_up : Forall2 (fun r b => encode_request r = inl b) ups (l_up l);
  li_sorted : StronglySorted Z.lt ((req_id <$> line l mid ups) ++ queued_ (l_client l));
  li_known r : r ∈ line l mid ups ->
    exists e, calls_ (l_client l) !! req_id r = Some e /\ pc_request e = r /\ pc_progress e <> ph_queued;
  li_pending r e : closed_ (l_client l) = false -> r ∈ under_way l sent unsent mid ups ->
    calls_ (l_client l) !! req_id r = Some e -> pc_promise e = None;
  li_results id e r : calls_ (l_client l) !! id = Some e -> pc_promise e = Some (inl r) ->
    exists o, r = reply (pc_request e, o) /\ (pc_request e, o) ∈ got;
  li_complete id e wk : closed_ (l_client l) = false -> l_over l = false -> sv_workers (l_server l) !! w = Some wk ->
    (forall st, wk <> Closing st) -> calls_ (l_client l) !! id = Some e -> pc_promise e = None ->
    pc_progress e <> ph_queued -> pc_request e ∈ under_way l sent unsent mid ups;
  li_sending id : writer_ (l_client l) = W_sending id -> is_Some (calls_ (l_client l) !! id);
}.

Definition link_good l : Prop := exists got sent unsent mid ups, link_ok l got sent unsent mid ups.

(** ** The start *)
Lemma new_link_good sv :
  server_ok registry sv -> sv_workers sv !! w = Some (ServeHead (new_session_store (opt_storage options))) ->
  identifiers_ (sv_state sv) = ids0 -> link_good (new_link sv).
Proof.
  intros ok Hw Hids. exists [], [], [], [], []. split; try done; cbn.
  - apply new_client_ok.
  - eexists. cbn. split; [rewrite Hids; constructor|]. eexists _, _. split; [done|]. split; [constructor|]. split_and!; [done| |].
    + intros id d i Hl. cbn in Hl. by rewrite fmap_empty in Hl.
    + intros id v Hl. done.
  - constructor.
  - by intros r ?%elem_of_nil.
Qed.

(** ** Steps of the client *)
Lemma sending_quiet fresh c c' written :
  client_ok c -> quiet fresh c c' -> Forall (fun id => next_id_ c <= id) fresh ->
  match sending c' (match writer_ c, writer_ c' with W_sending _, W_sending _ => written | _, _ => false end) with
  | Some e' => exists e, sending c written = Some e /\ pc_request e' = pc_request e
  | None => closed_ c' = false -> sending c written = None
  end.
Proof.
  intros ok Hq Hf. unfold sending. destruct (writer_ c') as [| | |id|] eqn:Ew'.
  4: { pose proof (q_writer _ _ _ Hq id Ew') as Ew. rewrite Ew. destruct written; [done|].
       destruct (calls_ c !! id) as [e|] eqn:He.
       - destruct (q_old _ _ _ Hq id e He) as (e' & -> & Hr & _). eauto.
       - destruct (calls_ c' !! id) as [e'|] eqn:He'; [|done].
         destruct (q_new _ _ _ Hq id e' He' He) as [Hin _]. rewrite Forall_forall in Hf. specialize (Hf id Hin).
         destruct (ck_sending c ok id Ew). lia. }
  all: intros Hc; destruct (writer_ c) as [| | |id|] eqn:Ew; try done;
    destruct (q_kept _ _ _ Hq id Ew); congruence.
Qed.

Lemma entry_id c id e : client_ok c -> calls_ c !! id = Some e -> req_id (pc_request e) = id /\ 1 <= id < next_id_ c.
Proof. intros ok He. destruct (co_entry _ _ _ _ (ck_calls c ok) id e He) as ([? _] & _ & ? & _). done. Qed.

(** Everything that has left the queue, or is in it, was admitted. *)
Lemma line_admitted l got sent unsent mid ups :
  link_ok l got sent unsent mid ups ->
  Forall (fun id => id < next_id_ (l_client l)) ((req_id <$> line l mid ups) ++ queued_ (l_client l)).
Proof.
  intros ok. apply Forall_app. split; apply Forall_forall.
  - intros id (r & -> & Hr)%list_elem_of_fmap. destruct (li_known _ _ _ _ _ _ ok r Hr) as (e & He & _).
    by eapply entry_id in He as [_ ?]; [lia|apply ok].
  - intros id (e & He & _)%(co_queue _ _ _ _ (ck_calls _ (li_client _ _ _ _ _ _ ok))).
    by eapply entry_id in He as [_ ?]; [lia|apply ok].
Qed.

Lemma current_quiet l fresh c' down :
  client_ok (l_client l) -> quiet fresh (l_client l) c' -> Forall (fun id => next_id_ (l_client l) <= id) fresh ->
  current (with_client l c' down) = current l \/ (current (with_client l c' down) = [] /\ closed_ c' = true).
Proof.
  intros ok Hq Hf. unfold current. cbn [l_client l_written with_client].
  pose proof (sending_quiet fresh (l_client l) c' (l_written l) ok Hq Hf) as Hs.
  destruct (sending c' _) as [e'|].
  - destruct Hs as (e & -> & Hr). left. cbn. by rewrite Hr.
  - destruct (closed_ c'); [by right|]. left. by rewrite Hs.
Qed.

Lemma quiet_keeps l fresh c' down got sent got' sent' unsent mid ups :
  link_ok l got sent unsent mid ups -> client_ok c' -> quiet fresh (l_client l) c' ->
  Forall (fun id => next_id_ (l_client l) <= id) fresh -> StronglySorted Z.lt fresh ->
  (forall id e, calls_ c' !! id = Some e -> operation_in_range (req_body (pc_request e))) ->
  Forall2 (fun h b => encode_response (reply h) = inl b) sent' down ->
  got ++ sent = got' ++ sent' -> (forall h, h ∈ got -> h ∈ got') -> (closed_ c' = true \/ sent' = sent) ->
  link_ok (with_client l c' down) got' sent' unsent mid ups.
Proof.
  intros ok okc' Hq Hf Hfs Ht Hdown Happ Hgot Hsent.
  pose proof (line_admitted _ _ _ _ _ _ ok) as Hadm.
  pose proof (current_quiet l fresh c' down (li_client _ _ _ _ _ _ ok) Hq Hf) as Hcur.
  assert (Hline : line (with_client l c' down) mid ups `sublist_of` line l mid ups).
  { unfold line. cbn. repeat apply sublist_app; try done. destruct Hcur as [E|[E _]]; rewrite E; [done|apply sublist_nil_l]. }
  destruct ok as [okc oks _ Hhist Hans Hsess _ Hup Hsort Hkn Hpe Hres Hcom Hsd]. split; try done; cbn.
  - rewrite Hhist, !app_assoc. by rewrite Happ.
  - apply (sublist_sorted _ _ (((req_id <$> line l mid ups) ++ queued_ (l_client l)) ++ fresh)).
    + rewrite <- app_assoc. apply sublist_app; [by apply fmap_sublist|apply Hq].
    + apply StronglySorted_app_2; [|done|done]. rewrite Forall_forall in Hadm, Hf. intros i j Hi Hj.
      specialize (Hadm i Hi). specialize (Hf j Hj). lia.
  - intros r Hr. assert (Hr0 : r ∈ line l mid ups) by by eapply elem_of_submseteq, sublist_submseteq.
    destruct (Hkn r Hr0) as (e & He & Hreq & Hph). destruct (q_old _ _ _ Hq _ e He) as (e' & He' & Hre & _ & Hpr & _).
    exists e'. split_and!; congruence.
  - intros r e' Hc Hr He'. destruct Hsent as [?| ->]; [congruence|]. destruct Hcur as [Hcur|[_ ?]]; [|congruence].
    unfold under_way in Hr. rewrite Hcur in Hr.
    assert (Hc0 : closed_ (l_client l) = false).
    { destruct (closed_ (l_client l)) eqn:E; [|done]. apply (q_closed _ _ _ Hq) in E. congruence. }
    assert (Hr0 : r ∈ line l mid ups).
    { unfold line. rewrite Hhist, fmap_app. set_solver. }
    destruct (Hkn r Hr0) as (e & He & Hreq & Hph).
    destruct (q_old _ _ _ Hq _ e He) as (e2 & He2 & _ & _ & _ & Hpr). assert (e2 = e') as -> by congruence.
    pose proof (Hpe r e Hc0 Hr He) as Hn. destruct Hpr as [->|(_ & _ & [?|?])]; congruence.
  - intros id e' r He' Hr. destruct (calls_ (l_client l) !! id) as [e|] eqn:He.
    + destruct (q_old _ _ _ Hq _ e He) as (e2 & He2 & Hreq & _ & _ & Hpr). assert (e2 = e') as -> by congruence.
      destruct Hpr as [Hpr|(_ & (f & Hf2) & _)]; [|congruence]. rewrite Hpr in Hr.
      destruct (Hres id e r He Hr) as (o & -> & Hin). exists o. rewrite Hreq. auto.
    + destruct (q_new _ _ _ Hq id e' He' He) as (_ & _ & ?). congruence.
  - intros id e' wk Hc Hov Hwk Hncl He' Hn Hph. destruct Hsent as [?| ->]; [congruence|].
    destruct Hcur as [Hcur|[_ ?]]; [|congruence]. unfold under_way. rewrite Hcur.
    assert (Hc0 : closed_ (l_client l) = false).
    { destruct (closed_ (l_client l)) eqn:E; [|done]. apply (q_closed _ _ _ Hq) in E. congruence. }
    destruct (calls_ (l_client l) !! id) as [e|] eqn:He.
    + destruct (q_old _ _ _ Hq _ e He) as (e2 & He2 & Hreq & _ & Hpg & Hpr). assert (e2 = e') as -> by congruence.
      rewrite Hreq. eapply (Hcom id e wk); try done; [|congruence].
      destruct Hpr as [Hpr|(? & _)]; congruence.
    + destruct (q_new _ _ _ Hq id e' He' He) as (_ & ? & _). congruence.
  - intros id Hw. destruct (Hsd id (q_writer _ _ _ Hq id Hw)) as [e He]. destruct (q_old _ _ _ Hq _ e He) as (e' & -> & _). eauto.
Qed.

(** A step that only moves calls out of the queue. *)
Definition same_call (e e' : pending_call) : Prop :=
  pc_request e' = pc_request e /\ pc_promise e' = pc_promise e /\ (pc_progress e <> ph_queued -> pc_progress e' <> ph_queued).

Lemma moved_keeps l c' got sent unsent mid ups :
  let l' := with_client l c' (l_down l) in
  link_ok l got sent unsent mid ups -> client_ok c' -> closed_ c' = closed_ (l_client l) ->
  (req_id <$> current l') ++ queued_ c' = (req_id <$> current l) ++ queued_ (l_client l) ->
  (forall j e, calls_ (l_client l) !! j = Some e -> exists e', calls_ c' !! j = Some e' /\ same_call e e') ->
  (forall j e', calls_ c' !! j = Some e' -> exists e, calls_ (l_client l) !! j = Some e /\ same_call e e'
     /\ (pc_progress e' <> ph_queued -> pc_progress e <> ph_queued \/ pc_request e ∈ current l')) ->
  (forall r, r ∈ current l -> r ∈ current l') ->
  (forall r, r ∈ current l' -> r ∈ current l \/
     exists e', calls_ c' !! req_id r = Some e' /\ pc_request e' = r /\ pc_progress e' <> ph_queued /\ pc_promise e' = None) ->
  (forall id, writer_ c' = W_sending id -> is_Some (calls_ (l_client l) !! id)) ->
  link_ok l' got sent unsent mid ups.
Proof.
  intros l' ok okc' Hc Hsame Hfwd Hbwd Hcur Hnew Hkept.
  destruct ok as [okc oks Ht Hhist Hans Hsess Hdown Hup Hsort Hkn Hpe Hres Hcom Hsd]. split; try done.
  - intros id e' He'. cbn in He'. destruct (Hbwd id e' He') as (e & He & (-> & _) & _). by eapply Ht.
  - unfold line in *. change (queued_ (l_client l')) with (queued_ c'). change (l_history l') with (l_history l).
    rewrite !fmap_app, <- !app_assoc in Hsort |- *. by rewrite Hsame.
  - intros r Hr. unfold line in Hr. change (l_history l') with (l_history l) in Hr. cbn.
    assert (Hor : r ∈ line l mid ups \/ r ∈ current l') by (unfold line; set_solver).
    assert (Hold : r ∈ line l mid ups -> exists e, calls_ c' !! req_id r = Some e /\ pc_request e = r /\ pc_progress e <> ph_queued).
    { intros Hl. destruct (Hkn r Hl) as (e & He & <- & Hph). destruct (Hfwd _ e He) as (e' & He' & Hreq & _ & Hp).
      exists e'. split_and!; auto. }
    destruct Hor as [Hl|Hcu]; [by apply Hold|]. destruct (Hnew r Hcu) as [Hcl|(e' & He' & Hr' & Hph & _)]; [|eauto].
    apply Hold. unfold line. set_solver.
  - cbn. rewrite Hc. intros r e' Hcl Hr He'. unfold under_way in Hr.
    assert (Hor : r ∈ under_way l sent unsent mid ups \/ r ∈ current l') by (unfold under_way; set_solver).
    destruct (Hbwd _ e' He') as (e & He & (_ & -> & _) & _).
    assert (Hold : r ∈ under_way l sent unsent mid ups -> pc_promise e = None) by (intros Hu; by eapply Hpe).
    destruct Hor as [Hl|Hcu]; [by apply Hold|]. destruct (Hnew r Hcu) as [Hcc|(e2 & He2 & _ & _ & Hn)].
    + apply Hold. unfold under_way. set_solver.
    + destruct (Hfwd _ e He) as (e3 & He3 & _ & Hp3 & _). congruence.
  - cbn. intros id e' r He' Hr. destruct (Hbwd _ e' He') as (e & He & (Hreq & Hp & _) & _). rewrite Hp in Hr. rewrite Hreq.
    by eapply Hres.
  - cbn. rewrite Hc. intros id e' wk Hcl Hov Hwk Hncl He' Hn Hph.
    destruct (Hbwd _ e' He') as (e & He & (Hreq & Hp & _) & Hq). rewrite Hp in Hn. rewrite Hreq.
    destruct (Hq Hph) as [Hph0|Hin]; [|unfold under_way; set_solver].
    pose proof (Hcom id e wk Hcl Hov Hwk Hncl He Hn Hph0) as Hin. unfold under_way in Hin |- *. set_solver.
  - intros id Hw. destruct (Hkept id Hw) as [e He]. destruct (Hfwd id e He) as (e' & He' & _). eauto.
Qed.

Lemma alter_progress_fwd (calls : gmap Z pending_call) id p j e :
  p <> ph_queued -> calls !! j = Some e ->
  exists e', alter (fun e => with_progress e p) id calls !! j = Some e' /\ same_call e e'.
Proof.
  intros Hp He. destruct (decide (id = j)) as [<-|Hne].
  - rewrite lookup_alter_eq, He. eexists. split; [done|]. by split_and!.
  - rewrite lookup_alter_ne by done. exists e. by split_and!.
Qed.
Lemma alter_progress_bwd (calls : gmap Z pending_call) id p j e' :
  p <> ph_queued -> alter (fun e => with_progress e p) id calls !! j = Some e' ->
  exists e, calls !! j = Some e /\ same_call e e' /\ (id = j \/ e' = e).
Proof.
  intros Hp. destruct (decide (id = j)) as [<-|Hne].
  - rewrite lookup_alter_eq. intros (e & He & ->)%fmap_Some. exists e. split; [done|]. split; [by split_and!|auto].
  - rewrite lookup_alter_ne by done. intros He. exists e'. split; [done|]. split; [by split_and!|auto].
Qed.

Lemma taken_keeps l id queued c' got sent unsent mid ups :
  link_ok l got sent unsent mid ups -> writer_ (l_client l) = W_idle -> queued_ (l_client l) = id :: queued ->
  c' = set_writer (set_calls (l_client l) (alter (fun e => with_progress e ph_writing) id (calls_ (l_client l)))
                     (pending_ (l_client l)) queued) (W_sending id) ->
  client_ok c' -> link_ok (with_client l c' (l_down l)) got sent unsent mid ups.
Proof.
  intros ok Hw Hq Hc' okc'. pose proof (li_client _ _ _ _ _ _ ok) as okc.
  assert (Hin : id ∈ queued_ (l_client l)) by (rewrite Hq; set_solver).
  apply (co_queue _ _ _ _ (ck_calls _ okc)) in Hin as (e & He & Hn & Hph).
  pose proof (entry_id _ _ _ okc He) as [Hid _].
  assert (Hcl : current l = []) by (unfold current, sending; by rewrite Hw).
  assert (Hcl' : current (with_client l c' (l_down l)) = [pc_request e]).
  { unfold current, sending. cbn. rewrite Hc', Hw. cbn. by rewrite lookup_alter_eq, He. }
  apply moved_keeps; try done; rewrite ?Hcl, ?Hcl'.
  - by rewrite Hc'.
  - rewrite Hc', Hq. cbn. by rewrite Hid.
  - intros j e0 Hj. rewrite Hc'. by apply alter_progress_fwd.
  - intros j e' Hj. rewrite Hc' in Hj. apply alter_progress_bwd in Hj as (e0 & He0 & Hsc & Hor); [|done].
    exists e0. split_and!; [done..|]. intros Hnq. destruct Hor as [<-|<-]; [|by left]. right.
    assert (e0 = e) as -> by congruence. set_solver.
  - by intros r ?%elem_of_nil.
  - intros r ->%list_elem_of_singleton. right. rewrite Hc', Hid. cbn. rewrite lookup_alter_eq, He. cbn.
    eexists. split; [done|]. by split_and!.
  - rewrite Hc'. intros j [= <-]. eauto.
Qed.

Lemma returned_keeps l id calls c' got sent unsent mid ups :
  link_ok l got sent unsent mid ups -> writer_ (l_client l) = W_sending id -> l_written l = true ->
  calls = calls_ (l_client l)
  \/ calls = alter (fun e => with_progress e ph_sent) id (calls_ (l_client l)) /\ id ∈ pending_ (l_client l) ->
  c' = set_writer (set_calls (l_client l) calls (pending_ (l_client l)) (queued_ (l_client l))) W_idle ->
  client_ok c' -> link_ok (with_client l c' (l_down l)) got sent unsent mid ups.
Proof.
  intros ok Hw Hwr Hcalls Hc' okc'. pose proof (li_client _ _ _ _ _ _ ok) as okc.
  assert (Hcl : current l = []) by (unfold current, sending; by rewrite Hw, Hwr).
  assert (Hcl' : current (with_client l c' (l_down l)) = []) by (unfold current, sending; cbn; by rewrite Hc').
  apply moved_keeps; try done; rewrite ?Hcl, ?Hcl'.
  - by rewrite Hc'.
  - by rewrite Hc'.
  - intros j e0 Hj. rewrite Hc'. cbn. destruct Hcalls as [->|[-> _]]; [|by apply alter_progress_fwd].
    exists e0. split; [done|]. by split_and!.
  - intros j e' Hj. rewrite Hc' in Hj. cbn in Hj. destruct Hcalls as [->|[-> Hpen]].
    + exists e'. split; [done|]. split; [by split_and!|by left].
    + apply alter_progress_bwd in Hj as (e0 & He0 & Hsc & Hor); [|done]. exists e0. split_and!; [done..|].
      intros Hph. left. destruct Hor as [<-|<-]; [|done]. intros Hq. destruct (ck_sending _ okc id Hw) as [Hni _].
      apply (co_pending _ _ _ _ (ck_calls _ okc)) in Hpen as (e1 & He1 & Hn).
      apply Hni, (co_queue _ _ _ _ (ck_calls _ okc)). exists e0. split_and!; congruence.
  - by intros r ?%elem_of_nil.
  - by intros r ?%elem_of_nil.
  - by rewrite Hc'.
Qed.

Lemma logged_keeps l id got sent unsent mid ups :
  let c' := set_reader (add_client_log (l_client l) (response_line id)) R_head in
  link_ok l got sent unsent mid ups -> client_ok c' -> link_ok (with_client l c' (l_down l)) got sent unsent mid ups.
Proof.
  intros c' ok okc'.
  assert (Hcur : current (with_client l c' (l_down l)) = current l).
  { unfold current, sending. cbn. by destruct (writer_ (l_client l)). }
  apply moved_keeps; try done; rewrite ?Hcur; auto.
  - intros j e He. exists e. split; [done|]. by split_and!.
  - intros j e He. exists e. split; [done|]. split; [by split_and!|auto].
  - apply ok.
Qed.

(** The head of the pipe answers its call. *)
Lemma head_accepted l h sent p got unsent mid ups :
  link_ok l got (h :: sent) unsent mid ups -> encode_response (reply h) = inl p -> closed_ (l_client l) = false ->
  exists e, accepts (l_client l) p (reply h) e /\ pc_request e = h.1.
Proof.
  intros ok Hp Hc. destruct ok as [okc oks Ht Hhist Hans Hsess Hdown Hup Hsort Hkn Hpe Hres Hcom Hsd].
  assert (Hin : h ∈ l_history l) by (rewrite Hhist; set_solver).
  destruct (Hkn h.1) as (e & He & Hreq & Hph); [unfold line; set_solver|].
  exists e. split; [|done]. rewrite Forall_forall in Hans. destruct (Hans h Hin) as (Hm & b & Hb & Hd).
  assert (b = p) as -> by congruence. split_and!; try done.
  - apply (Hpe h.1); [done|unfold under_way; set_solver|done].
  - by rewrite Hreq.
Qed.

Lemma completed_keeps l h e down c' got sent unsent mid ups :
  link_ok l got (h :: sent) unsent mid ups ->
  Forall2 (fun h b => encode_response (reply h) = inl b) sent down ->
  calls_ (l_client l) !! req_id h.1 = Some e -> pc_request e = h.1 -> client_ok c' ->
  c' = set_reader (set_calls (l_client l) (<[req_id h.1 := with_promise e (inl (reply h))]> (calls_ (l_client l)))
                     (pending_ (l_client l) ∖ {[req_id h.1]}) (queued_ (l_client l))) (R_logging (req_id h.1)) ->
  link_ok (with_client l c' down) (got ++ [h]) sent unsent mid ups.
Proof.
  intros ok Hdown He Hreq okc' Hc'.
  destruct ok as [okc oks Ht Hhist Hans Hsess _ Hup Hsort Hkn Hpe Hres Hcom Hsd].
  assert (Hcur : current (with_client l c' down) = current l).
  { unfold current, sending. cbn. rewrite Hc'. cbn. destruct (writer_ (l_client l)) as [| | |id|]; try done.
    destruct (l_written l); [done|]. destruct (decide (req_id h.1 = id)) as [<-|Hne].
    - by rewrite lookup_insert_eq, He.
    - by rewrite lookup_insert_ne. }
  assert (Hline : forall r, r ∈ (sent ++ unsent).*1 ++ mid ++ ups ++ current l -> req_id h.1 < req_id r).
  { intros r Hr. apply StronglySorted_app_1_l in Hsort. unfold line in Hsort. rewrite Hhist in Hsort.
    replace ((got ++ (h :: sent) ++ unsent).*1 ++ mid ++ ups ++ current l)
      with ((got.*1 ++ [h.1]) ++ ((sent ++ unsent).*1 ++ mid ++ ups ++ current l)) in Hsort
      by (rewrite !fmap_app, fmap_cons, <- !app_assoc; done).
    rewrite fmap_app in Hsort. apply (StronglySorted_app_1_elem_of _ _ _ _ _ Hsort); apply list_elem_of_fmap; eexists; split; [done| |done|done].
    set_solver. }
  assert (Hlk : forall j e', calls_ c' !! j = Some e' -> (j = req_id h.1 /\ e' = with_promise e (inl (reply h)))
    \/ (req_id h.1 <> j /\ calls_ (l_client l) !! j = Some e')).
  { intros j e'. rewrite Hc'. cbn. rewrite lookup_insert_Some. naive_solver. }
  split; try done; cbn [l_client with_client l_history l_server l_over l_replied l_up l_down].
  - intros id e' He'. destruct (Hlk _ _ He') as [[-> ->]|[_ He0]]; [by apply (Ht _ e He)|by eapply Ht].
  - rewrite Hhist, <- app_assoc. done.
  - unfold line. rewrite Hcur, Hc'. exact Hsort.
  - intros r Hr. unfold line in Hr. rewrite Hcur in Hr. destruct (Hkn r Hr) as (e0 & He0 & Hr0 & Hph).
    rewrite Hc'. cbn. destruct (decide (req_id h.1 = req_id r)) as [Heq|Hne].
    + rewrite Heq, lookup_insert_eq. eexists. split; [done|]. cbn. rewrite <- Heq, He in He0. injection He0 as <-. done.
    + rewrite lookup_insert_ne by done. eauto.
  - intros r e' Hcl Hr He'. unfold under_way in Hr. rewrite Hcur in Hr. pose proof (Hline r Hr) as Hlt.
    destruct (Hlk _ _ He') as [[Heq _]|[_ He0]]; [lia|]. rewrite Hc' in Hcl. cbn in Hcl.
    eapply (Hpe r e' Hcl); [unfold under_way; cbn; set_solver|done].
  - intros id e' r He' Hr. destruct (Hlk _ _ He') as [[-> ->]|[_ He0]].
    + cbn in Hr. injection Hr as <-. exists h.2. cbn. rewrite Hreq. destruct h; set_solver.
    + destruct (Hres id e' r He0 Hr) as (o & ? & ?). exists o. set_solver.
  - intros id e' wk Hcl Hov Hwk Hncl He' Hn Hph. destruct (Hlk _ _ He') as [[-> ->]|[Hne He0]]; [done|].
    rewrite Hc' in Hcl. cbn in Hcl. pose proof (Hcom id e' wk Hcl Hov Hwk Hncl He0 Hn Hph) as Hin.
    unfold under_way in Hin |- *. rewrite Hcur. pose proof (entry_id _ _ _ okc He0) as [Hid _].
    cbn in Hin. rewrite elem_of_cons in Hin. destruct Hin as [Heq|Hin]; [congruence|done].
  - intros id Hw. rewrite Hc' in Hw |- *. cbn in *. apply lookup_insert_is_Some.
    destruct (decide (req_id h.1 = id)); [by left|right]. auto.
Qed.

Lemma link_read_good l cancelled expired l' : link_good l -> link_read l cancelled expired = Some l' -> link_good l'.
Proof.
  intros (got & sent & unsent & mid & ups & ok) Hs. unfold link_read in Hs.
  destruct (l_down l) as [|p down] eqn:Ed; [done|]. destruct (client_step _ _) as [c'| |] eqn:Es; [|done..].
  injection Hs as <-. pose proof (li_client _ _ _ _ _ _ ok) as okc.
  pose proof (client_step_good _ (ce_received (inl p) cancelled expired) okc) as Hg. rewrite Es in Hg. destruct Hg as [okc' _].
  pose proof (li_down _ _ _ _ _ _ ok) as Hdown. rewrite Ed in Hdown. apply Forall2_cons_inv_r in Hdown as (h & sent' & Hp & Hdown & ->).
  assert (Hquiet : quiet [] (l_client l) c' /\ closed_ c' = true -> link_good (with_client l c' down)).
  { intros [Hq Hcl]. exists (got ++ [h]), sent', unsent, mid, ups.
    eapply (quiet_keeps l []); try done; [constructor| |by rewrite <- app_assoc|set_solver|by left].
    intros id e' He'. destruct (calls_ (l_client l) !! id) as [e|] eqn:He.
    - destruct (q_old _ _ _ Hq _ e He) as (e2 & He2 & Hreq & _). assert (e2 = e') as -> by congruence. rewrite Hreq.
      by eapply (li_typed _ _ _ _ _ _ ok).
    - by destruct (q_new _ _ _ Hq id e' He' He) as [?%elem_of_nil _]. }
  destruct (closed_ (l_client l)) eqn:Hc; [apply Hquiet; by eapply read_closed|].
  destruct (head_accepted l h sent' p got unsent mid ups ok Hp Hc) as (e & Hacc & Hreq).
  destruct (read_effect _ p _ e cancelled expired c' okc Hacc Hc Es) as [Hq|Hc']; [by apply Hquiet|].
  exists (got ++ [h]), sent', unsent, mid, ups. eapply completed_keeps; try done. apply Hacc.
Qed.

(** The operations of the callers are values of their C++ types. *)
Definition event_typed (ev : link_event) : Prop :=
  match ev with LE_client (ce_call op _ _) => operation_in_range op | _ => True end.

Lemma quiet_typed l fresh c' got sent unsent mid ups :
  link_ok l got sent unsent mid ups -> quiet fresh (l_client l) c' ->
  (forall id e, id ∈ fresh -> calls_ c' !! id = Some e -> operation_in_range (req_body (pc_request e))) ->
  forall id e, calls_ c' !! id = Some e -> operation_in_range (req_body (pc_request e)).
Proof.
  intros ok Hq Hf id e' He'. destruct (calls_ (l_client l) !! id) as [e|] eqn:He.
  - destruct (q_old _ _ _ Hq _ e He) as (e2 & He2 & Hreq & _). assert (e2 = e') as -> by congruence. rewrite Hreq.
    by eapply (li_typed _ _ _ _ _ _ ok).
  - destruct (q_new _ _ _ Hq id e' He' He) as [? _]. by eapply Hf.
Qed.

Lemma link_client_good l ev l' :
  link_good l -> event_typed (LE_client ev) -> link_client l ev = Some l' -> link_good l'.
Proof.
  intros (got & sent & unsent & mid & ups & ok) Ht Hs. unfold link_client in Hs.
  destruct (client_may l ev) eqn:Hmay; [|done]. destruct (client_step _ _) as [c'| |] eqn:Es; [|done..].
  injection Hs as <-. pose proof (li_client _ _ _ _ _ _ ok) as okc.
  pose proof (client_step_good _ ev okc) as Hg. rewrite Es in Hg. destruct Hg as [okc' _].
  exists got, sent, unsent, mid, ups.
  destruct (client_step_effect _ ev c' okc Es) as [ev c' Hq|op ca ex c' e Hq He Hop Hn Hnx|ca ex id queued Hc Hw Hq
    |n id Hc Hw Hp|n id Hc Hw Hp|p r e ca ex Hc Hacc|id Hrd].
  - eapply (quiet_keeps l []); try done; [constructor| |apply (li_down _ _ _ _ _ _ ok)|by right].
    eapply quiet_typed; [done..|]. by intros ???%elem_of_nil.
  - eapply (quiet_keeps l [next_id_ (l_client l)]); try done;
      [by repeat constructor|by repeat constructor| |apply (li_down _ _ _ _ _ _ ok)|by right].
    eapply quiet_typed; [done..|]. intros id e2 ->%list_elem_of_singleton He2. rewrite He in He2. injection He2 as <-.
    by rewrite Hop.
  - by eapply taken_keeps.
  - eapply returned_keeps; try done. by right.
  - eapply (returned_keeps l id (calls_ (l_client l))); try done. by left.
  - done.
  - by apply logged_keeps.
Qed.

(** ** Steps of the pipe and of the server *)
Definition session_open l : Prop :=
  l_over l = false /\ exists wk, sv_workers (l_server l) !! w = Some wk /\ forall st, wk <> Closing st.

(** Payloads move, the client does not. *)
Lemma server_keeps l l' got sent unsent mid ups sent' unsent' mid' ups' :
  link_ok l got sent unsent mid ups -> l_client l' = l_client l -> server_ok registry (l_server l') ->
  l_history l' = got ++ sent' ++ unsent' -> Forall answer_ok (l_history l') -> session_ok l' unsent' mid' ->
  Forall2 (fun h b => encode_response (reply h) = inl b) sent' (l_down l') ->
  Forall2 (fun r b => encode_request r = inl b) ups' (l_up l') ->
  line l' mid' ups' `sublist_of` line l mid ups ->
  (forall r, r ∈ under_way l' sent' unsent' mid' ups' -> r ∈ under_way l sent unsent mid ups) ->
  (session_open l' -> session_open l
     /\ forall r, r ∈ under_way l sent unsent mid ups -> r ∈ under_way l' sent' unsent' mid' ups') ->
  link_ok l' got sent' unsent' mid' ups'.
Proof.
  intros ok Hc oks' Hhist' Hans' Hsess' Hdown' Hup' Hline Hway Hopen.
  destruct ok as [okc oks Ht Hhist Hans Hsess Hdown Hup Hsort Hkn Hpe Hres Hcom Hsd]. split; try done; rewrite ?Hc; try done.
  - eapply sublist_sorted; [|exact Hsort]. apply sublist_app; [by apply fmap_sublist|done].
  - intros r Hr. apply Hkn. by eapply elem_of_submseteq, sublist_submseteq.
  - intros r e Hcl Hr He. eapply Hpe; [done| |done]. by apply Hway.
  - intros id e wk Hcl Hov Hwk Hncl He Hn Hph. destruct Hopen as [(Hov0 & wk0 & Hwk0 & Hncl0) Hsub]; [split; eauto|].
    by eapply Hsub, (Hcom id e wk0).
Qed.

Lemma link_write_good l l' : link_good l -> link_write l = Some l' -> link_good l'.
Proof.
  intros (got & sent & unsent & mid & ups & ok) Hs. unfold link_write in Hs.
  destruct (sending _ _) as [e|] eqn:Es; [|done]. injection Hs as <-.
  assert (Hcur : current l = [pc_request e]) by (unfold current; by rewrite Es).
  assert (Henc : encode_request (pc_request e) = inl (pc_encoded e)).
  { unfold sending in Es. destruct (writer_ (l_client l)) as [| | |id|]; try done. destruct (l_written l); [done|].
    by destruct (co_entry _ _ _ _ (ck_calls _ (li_client _ _ _ _ _ _ ok)) id e Es) as (_ & ? & _). }
  set (l' := {| l_client := _ |}). assert (Hcur' : current l' = []).
  { unfold current, sending. cbn. by destruct (writer_ (l_client l)). }
  exists got, sent, unsent, mid, (ups ++ [pc_request e]). eapply server_keeps; try done; try apply ok.
  - apply Forall2_app; [apply ok|by repeat constructor].
  - unfold line. rewrite Hcur, Hcur', app_nil_r. done.
  - unfold under_way. rewrite Hcur, Hcur'. set_solver.
  - intros Ho. split; [exact Ho|]. unfold under_way. rewrite Hcur, Hcur'. set_solver.
Qed.

Lemma link_reply_good l l' : link_good l -> link_reply w l = Some l' -> link_good l'.
Proof.
  intros (got & sent & unsent & mid & ups & ok) Hs. unfold link_reply in Hs.
  destruct (l_over l) eqn:Hov; [done|]. destruct (l_replied l) eqn:Hrep; [done|]. cbn in Hs.
  destruct (li_session _ _ _ _ _ _ ok) as (a & Htr & Hse). rewrite Hov, Hrep in Hse.
  destruct Hse as (wk & st & Hwk & Hsv & Ha & Hol & Hvt). rewrite Hwk in Hs.
  inversion Hsv; subst; try done. cbn [reply_payload] in Hs.
  destruct (encode_response (reply h)) as [b|] eqn:Hb; [|done]. injection Hs as <-.
  pose proof (li_history _ _ _ _ _ _ ok) as Hhist.
  set (l' := {| l_client := _ |}). assert (Hcur' : current l' = current l) by done.
  exists got, (sent ++ [h]), [], [], ups. eapply server_keeps; try done; try apply ok; cbn.
  - by rewrite app_nil_r.
  - exists (abs st). cbn. split; [done|]. eexists _, _. split; [done|]. split; [constructor|done].
  - apply Forall2_app; [apply ok|by repeat constructor].
  - unfold under_way. rewrite Hcur'. set_solver.
  - intros (_ & wk' & Hwk' & Hncl). split; [split; eauto|]. unfold under_way. rewrite Hcur'. set_solver.
Qed.

(** A step outside this session. *)
Lemma others_good l lab sv' :
  link_good l -> server_step registry options diagnostics (l_server l) lab = Some sv' ->
  (l_over l = false -> sv_workers sv' !! w = sv_workers (l_server l) !! w) -> link_good (with_others l sv').
Proof.
  intros (got & sent & unsent & mid & ups & ok) Hs Hsame.
  pose proof (server_step_ids registry registry_ok options diagnostics limits_ok _ _ _ (li_server _ _ _ _ _ _ ok) Hs) as Hle.
  exists got, sent, unsent, mid, ups. eapply server_keeps; try done; try apply ok; cbn.
  - by eapply (server_step_ok registry registry_ok options diagnostics limits_ok); [apply ok|].
  - destruct (li_session _ _ _ _ _ _ ok) as (a & Htr & Hse). exists a. cbn. split; [by eapply trace_others|].
    destruct (l_over l); [done|]. by rewrite Hsame.
  - intros (Hov & wk & Hwk & Hncl). cbn in *. rewrite Hsame in Hwk by done. split; [split; eauto|]. done.
Qed.

(** The guarded block: the store answers a request as its contract allows, and the reply
    is one the client accepts. *)
Lemma executed_ok st ids r :
  store_wf registry st ids -> objects_lawful registry (abs st) -> values_typed (abs st) ->
  1 <= req_id r < u64_max -> req_version r = version -> operation_in_range (req_body r) ->
  exists o st' ids' lines,
    dispatch registry diagnostics st ids r = Some (inl (reply (r, o)), st', ids', lines)
    /\ spec_step registry (abs st) ids (req_body r) o (abs st') ids'
    /\ objects_lawful registry (abs st') /\ values_typed (abs st') /\ answer_ok (r, o).
Proof.
  intros wf Hol Hvt Hid Hver Hrange. pose proof (typed_of_range _ Hrange) as Ht.
  destruct (dispatch_carried registry registry_ok diagnostics st ids r wf) as (o & st' & ids' & lines & Hdis & Hex & _ & _ & Hok);
    [lia|done|done|].
  destruct (execute_step registry registry_ok st ids _ wf Ht) as ([[o2 st2] ids2] & Hex2 & _ & _ & Hspec).
  rewrite Hex in Hex2. injection Hex2 as <- <- <-. cbn [fst snd] in Hspec.
  pose proof (execute_in_range registry registry_ok st ids _ _ _ _ wf Hol Hvt Ht (values_of_range _ Hrange) Hex) as Hin.
  destruct (spec_step_lawful registry _ _ _ _ _ _ Hol Hvt (values_of_range _ Hrange) Hspec) as [Hol' Hvt'].
  exists o, st', ids', lines. split_and!; try done. split; [exact (step_matches registry _ _ _ _ _ _ Hspec)|].
  destruct (reply_encoded (req_id r) o Hok) as (p & Hp & _); [lia|]. exists p. split; [exact Hp|].
  apply (response_roundtrip (reply (r, o)) p); [|exact Hp].
  split; [cbn; unfold in_u32, two32, version; lia|]. split; [cbn; ulia|done].
Qed.

Lemma known_request l got sent unsent mid ups r :
  link_ok l got sent unsent mid ups -> r ∈ line l mid ups ->
  1 <= req_id r < u64_max /\ req_version r = version /\ operation_in_range (req_body r)
  /\ exists b, encode_request r = inl b.
Proof.
  intros ok Hr. destruct (li_known _ _ _ _ _ _ ok r Hr) as (e & He & Hreq & _).
  pose proof (ck_calls _ (li_client _ _ _ _ _ _ ok)) as okc.
  destruct (co_entry _ _ _ _ okc _ e He) as ([Hid Hver] & Henc & Hidr & _).
  pose proof (co_next _ _ _ _ okc). rewrite Hreq in Hver, Henc. split; [lia|]. split; [done|]. split; [|eauto].
  rewrite <- Hreq. by eapply (li_typed _ _ _ _ _ _ ok).
Qed.

(** A step of the session's worker that executes nothing. *)
Lemma session_keeps l sv ev (over : bool) wk wk' st got sent unsent (mid mid' ups : list request) :
  link_ok l got sent unsent mid ups -> server_step registry options diagnostics (l_server l) (L_worker w ev) = Some sv ->
  l_over l = false -> sv_workers (l_server l) !! w = Some wk -> sv_workers sv !! w = Some wk' ->
  executed (Some wk) (Some wk') = [] -> serving wk (l_replied l) st unsent mid ->
  (if over then mid' = []
   else serving wk' (match wk with Holding _ _ => false | _ => l_replied l end) st unsent mid') ->
  (mid' = mid \/ mid' = [] /\ wk' = Closing st) -> (over = false -> forall st', wk = Closing st' -> wk' = Closing st') ->
  link_good (with_session w l sv (l_up l) over).
Proof.
  intros ok Hs Hov Hwk Hwk' Hex Hsv Hsv' Hmid Hcl.
  pose proof (server_step_ids registry registry_ok options diagnostics limits_ok _ _ _ (li_server _ _ _ _ _ _ ok) Hs) as Hle.
  assert (Hh : l_history (with_session w l sv (l_up l) over) = l_history l) by (cbn; by rewrite Hwk, Hwk', Hex, app_nil_r).
  exists got, sent, unsent, mid', ups. eapply server_keeps; try done; rewrite ?Hh; try apply ok.
  - by eapply (server_step_ok registry registry_ok options diagnostics limits_ok); [apply ok|].
  - destruct (li_session _ _ _ _ _ _ ok) as (a & Htr & Hse). rewrite Hov in Hse.
    destruct Hse as (wk0 & st0 & Hwk0 & Hsv0 & Ha & Hol & Hvt). exists a. rewrite Hh. cbn. split; [by eapply trace_others|].
    destruct over; [done|]. exists wk', st. rewrite Hwk. split; [done|]. split; [done|].
    assert (st0 = st) as ->; [|done]. assert (wk0 = wk) as -> by congruence.
    clear -Hsv Hsv0. inversion Hsv; subst; inversion Hsv0; by subst.
  - unfold line. rewrite Hh. destruct Hmid as [->|[-> _]]; [done|]. apply sublist_app; [done|]. cbn.
    by apply sublist_inserts_l.
  - intros r. unfold under_way. destruct Hmid as [->|[-> _]]; [done|]. set_solver.
  - intros (Hov' & wk2 & Hwk2 & Hncl). cbn in Hov', Hwk2. assert (wk2 = wk') as -> by congruence. split.
    + split; [done|]. exists wk. split; [done|]. intros st' E. eapply Hncl, Hcl; done.
    + destruct Hmid as [->|[_ E]]; [done|]. by destruct (Hncl st).
Qed.

(** The guarded block executes the request the worker holds. *)
Lemma locked_good l sv expired st r got sent ups :
  link_ok l got sent [] [r] ups -> l_over l = false ->
  sv_workers (l_server l) !! w = Some (Holding st (inl r)) -> objects_lawful registry (abs st) -> values_typed (abs st) ->
  session_trace registry (abs (new_session_store (opt_storage options))) ids0 (l_history l) (abs st)
    (identifiers_ (sv_state (l_server l))) ->
  server_step registry options diagnostics (l_server l) (L_worker w (ev_locked expired)) = Some sv ->
  link_good (with_session w l sv (l_up l) false).
Proof.
  intros ok Hov Hwk Hol Hvt Htr Hs. pose proof Hs as Hstep. cbn in Hstep. rewrite Hwk in Hstep. cbn [worker_step] in Hstep.
  unfold dispatch_locked in Hstep. destruct (negb _); [done|].
  pose proof (lookup_lt_Some _ _ _ Hwk) as Hlt. pose proof (li_server _ _ _ _ _ _ ok) as oks.
  destruct (server_preflight _ _) as [e|].
  { injection Hstep as Hsv. eapply (session_keeps l sv (ev_locked expired) false _ (Closing st) st got sent [] [r] [] ups);
      try done; [|constructor|constructor|by right]. rewrite <- Hsv. cbn. by rewrite list_lookup_insert_eq. }
  destruct (known_request l got sent [] [r] ups r ok) as (Hid & Hver & Hrange & _); [unfold line; set_solver|].
  destruct (executed_ok st _ r (ok_stores _ _ oks w _ st Hwk eq_refl) Hol Hvt Hid Hver Hrange)
    as (o & st' & ids' & lines & Hdis & Hspec & Hol' & Hvt' & Hans). rewrite Hdis in Hstep. injection Hstep as Hsv.
  assert (Hwk' : sv_workers sv !! w = Some (Responding st' (inl (reply (r, o))))).
  { rewrite <- Hsv. cbn. by rewrite list_lookup_insert_eq. }
  set (l' := with_session w l sv (l_up l) false).
  assert (Hh : l_history l' = l_history l ++ [(r, o)]) by (cbn; by rewrite Hwk, Hwk').
  pose proof (li_history _ _ _ _ _ _ ok) as Hhist. rewrite app_nil_r in Hhist.
  exists got, sent, [(r, o)], [], ups. eapply server_keeps; try done; rewrite ?Hh; try apply ok.
  - by eapply (server_step_ok registry registry_ok options diagnostics limits_ok).
  - by rewrite Hhist, <- app_assoc.
  - apply Forall_app. split; [apply ok|by apply Forall_singleton].
  - exists (abs st'). rewrite Hh. cbn. rewrite Hwk. split; [|eexists _, _; split; [exact Hwk'|split; [constructor|done]]].
    replace (identifiers_ (sv_state sv)) with ids' by (by rewrite <- Hsv). by eapply trace_step.
  - unfold line. rewrite Hh, fmap_app, <- app_assoc. done.
  - intros x. unfold under_way. change (current l') with (current l). rewrite !fmap_app, !elem_of_app. cbn. tauto.
  - intros _. split; [split; [done|by eexists]|]. intros x. unfold under_way. change (current l') with (current l).
    rewrite !fmap_app, !elem_of_app. cbn. tauto.
Qed.

(** The worker moves on with [mid] before it. *)
Ltac keeping Hkeep mid := apply (Hkeep mid); solve [by left|by right|by constructor|done].

Lemma session_good l ev sv :
  link_good l -> l_over l = false -> worker_may l ev = true ->
  server_step registry options diagnostics (l_server l) (L_worker w ev) = Some sv ->
  link_good (with_session w l sv (l_up l) (match ev with ev_close => true | _ => false end)).
Proof.
  intros (got & sent & unsent & mid & ups & ok) Hov Hmay Hs.
  destruct (li_session _ _ _ _ _ _ ok) as (a & Htr & Hse). rewrite Hov in Hse.
  destruct Hse as (wk & st & Hwk & Hsv & -> & Hol & Hvt).
  pose proof (lookup_lt_Some _ _ _ Hwk) as Hlt. pose proof Hs as Hstep. cbn in Hstep. rewrite Hwk in Hstep.
  destruct (worker_step _ _ _ _ _ _ _) as [[s' wk']|] eqn:Est; [|done]. injection Hstep as Hsv'.
  assert (Hwk' : sv_workers sv !! w = Some wk') by (rewrite <- Hsv'; cbn; by rewrite list_lookup_insert_eq).
  assert (Hkeep : forall mid', executed (Some wk) (Some wk') = [] ->
    (if match ev with ev_close => true | _ => false end then mid' = []
     else serving wk' (match wk with Holding _ _ => false | _ => l_replied l end) st unsent mid') ->
    (mid' = mid \/ mid' = [] /\ wk' = Closing st) ->
    (match ev with ev_close => true | _ => false end = false -> forall st', wk = Closing st' -> wk' = Closing st') ->
    link_good (with_session w l sv (l_up l) (match ev with ev_close => true | _ => false end))).
  { intros mid' H1' H2' H3' H4'. by eapply session_keeps. }
  inversion Hsv; subst wk st unsent mid; destruct ev; try done; cbn in Est;
    unfold serve_check, serve_receive, dispatch_wait, dispatch_reply, run_close in Est.
  - injection Est as <- <-. destruct (shutdown_ _); keeping Hkeep (@nil request).
  - destruct r; [done|]. injection Est as <- <-. keeping Hkeep (@nil request).
  - destruct (server_preflight _ _); [|destruct acquired; [destruct (gate_ _); [done|]|]]; injection Est as <- <-.
    + keeping Hkeep (@nil request).
    + keeping Hkeep [r].
    + keeping Hkeep [r].
  - by eapply locked_good.
  - assert (Hin : h ∈ l_history l) by (rewrite (li_history _ _ _ _ _ _ ok); set_solver).
    pose proof (li_answers _ _ _ _ _ _ ok) as Hans. rewrite Forall_forall in Hans. destruct (Hans h Hin) as (_ & b & Hb & _).
    rewrite Hb in Est. cbn in Hmay. destruct r; [congruence|]. injection Est as <- <-.
    keeping Hkeep (@nil request).
  - destruct (encode_response (reply h)); [destruct r|]; injection Est as <- <-; keeping Hkeep (@nil request).
  - destruct (gate_ _); [done|]. injection Est as <- <-. keeping Hkeep (@nil request).
Qed.

Lemma link_server_good l lab l' :
  link_good l -> link_server registry options diagnostics w l lab = Some l' -> link_good l'.
Proof.
  intros Hg Hs. unfold link_server in Hs. destruct (server_step _ _ _ _ _) as [sv|] eqn:Est; [|done].
  destruct lab as [i ev|].
  - case_bool_decide as Hi; cbn [andb] in Hs.
    + subst i. destruct (l_over l) eqn:Hov; cbn [negb] in Hs.
      * injection Hs as <-. eapply others_good; [done..|]. congruence.
      * destruct (worker_may l ev) eqn:Hmay; [|done]. injection Hs as <-. by apply session_good.
    + injection Hs as <-. eapply others_good; [done..|]. intros _. cbn in Est.
      destruct (sv_workers (l_server l) !! i) as [wk|]; [|done]. destruct (worker_step _ _ _ _ _ _ _) as [[s' wk']|]; [|done].
      injection Est as <-. cbn. by rewrite list_lookup_insert_ne.
  - injection Hs as <-. eapply others_good; [done..|]. intros _. cbn in Est. by injection Est as <-.
Qed.

(** The worker receives the payload at the head of the pipe, and decodes its request. *)
Lemma link_serve_good l l' :
  link_good l -> link_serve registry options diagnostics w l = Some l' -> link_good l'.
Proof.
  intros (got & sent & unsent & mid & ups & ok) Hs. unfold link_serve in Hs.
  destruct (l_up l) as [|p up] eqn:Hup; [done|]. destruct (l_over l) eqn:Hov; [done|].
  destruct (server_step _ _ _ _ _) as [sv|] eqn:Est; [|done]. injection Hs as <-. pose proof Est as Hstep.
  pose proof (li_up _ _ _ _ _ _ ok) as Hups. rewrite Hup in Hups. apply Forall2_cons_inv_r in Hups as (r & ups' & Hp & Hups & ->).
  destruct (known_request l got sent unsent mid (r :: ups') r ok) as (Hid & Hver & Hrange & _); [unfold line; set_solver|].
  assert (Hdec : decode_request p = inl r).
  { apply (request_roundtrip r p); [|done]. split; [rewrite Hver; unfold in_u32, two32, version; lia|]. split; [ulia|done]. }
  destruct (li_session _ _ _ _ _ _ ok) as (a & Htr & Hse). rewrite Hov in Hse.
  destruct Hse as (wk & st & Hwk & Hsv & -> & Hol & Hvt). pose proof (lookup_lt_Some _ _ _ Hwk) as Hlt.
  cbn in Est. rewrite Hwk in Est. inversion Hsv; subst; try done. cbn in Est. rewrite Hdec in Est. injection Est as Hsv'.
  assert (Hwk' : sv_workers sv !! w = Some (Waiting st (inl r))) by (rewrite <- Hsv'; cbn; by rewrite list_lookup_insert_eq).
  set (l' := with_session w l sv up false).
  assert (Hh : l_history l' = l_history l) by (cbn; by rewrite Hwk, app_nil_r).
  exists got, sent, [], [r], ups'. eapply server_keeps; try done; rewrite ?Hh; try apply ok.
  - by eapply (server_step_ok registry registry_ok options diagnostics limits_ok); [apply ok|].
  - exists (abs st). rewrite Hh. cbn. rewrite Hwk. split.
    + by replace (identifiers_ (sv_state sv)) with (identifiers_ (sv_state (l_server l))) by (by rewrite <- Hsv').
    + eexists _, _. split; [exact Hwk'|]. split; [constructor|done].
  - unfold line. by rewrite Hh.
  - intros _. split; [split; [done|by eexists]|]. done.
Qed.

Lemma link_step_good l ev l' :
  link_good l -> event_typed ev -> link_step registry options diagnostics w l ev = Some l' -> link_good l'.
Proof.
  intros Hg Ht. destruct ev; cbn [link_step].
  - by apply link_client_good.
  - by apply link_write_good.
  - by apply link_read_good.
  - by apply link_server_good.
  - by apply link_serve_good.
  - by apply link_reply_good.
Qed.

Lemma link_run_good evs : forall l l',
  link_good l -> Forall event_typed evs -> link_run registry options diagnostics w l evs = Some l' -> link_good l'.
Proof.
  induction evs as [|ev evs IH]; intros l l' Hg Ht Hr; cbn in Hr; [by injection Hr as <-|].
  apply Forall_cons in Ht as [Ht Hts]. destruct (link_step _ _ _ _ l ev) as [l1|] eqn:Es; [|done].
  eapply IH; [|done|done]. by eapply link_step_good.
Qed.
End invariant.


(** ** Properties *)

(** C1: A remote session is sequential.  Take the host in any state it can reach and a
    worker that has just accepted a client; let the client, its callers and its threads,
    all workers, the pipe, the clock and the stop tokens interleave in any way.  The
    requests the worker has executed in the session, with their outcomes, form a run of
    the abstract session from the empty store, whose state is the worker's store while
    the session lasts; they are calls of this client, executed in the order in which the
    calls were made, each at most once.  A successful result of a call is the outcome of
    exactly its execution.  And on an open connection every reply that arrives is
    accepted: the client never sees a protocol violation of this server. *)
Theorem remote_session_sequential `{Utf8Laws} `{Protobuf} `{!ProtobufLaws} `{!ProtobufSizes} {Obj : Type} `{ObjectOps Obj}
    (registry : class_registry Obj) `{!LawfulRegistry registry} (options : server_options) (diagnostics : bool) (w : nat)
    descriptor pipes threads c0 ls sv evs l :
  registry_wf registry -> 0 <= opt_sessions options ->
  0 <= lim_values (opt_storage options) /\ 0 <= lim_objects (opt_storage options) /\ 0 <= lim_bytes (opt_storage options) ->
  start options descriptor pipes threads = inl c0 -> server_run registry options diagnostics c0 ls = Some sv ->
  sv_workers sv !! w = Some (ServeHead (new_session_store (opt_storage options))) ->
  Forall event_typed evs -> link_run registry options diagnostics w (new_link sv) evs = Some l ->
  (exists a, session_trace registry (abs (new_session_store (opt_storage options))) (identifiers_ (sv_state sv))
               (l_history l) a (identifiers_ (sv_state (l_server l)))
     /\ (l_over l = false -> exists wk st, sv_workers (l_server l) !! w = Some wk /\ session wk = Some st /\ a = abs st))
  /\ StronglySorted Z.lt (req_id <$> (l_history l).*1)
  /\ (forall r o, (r, o) ∈ l_history l -> exists e, calls_ (l_client l) !! req_id r = Some e /\ pc_request e = r)
  /\ (forall id e resp, calls_ (l_client l) !! id = Some e -> pc_promise e = Some (inl resp) ->
        exists o, resp = reply (pc_request e, o) /\ (pc_request e, o) ∈ l_history l)
  /\ (forall p down, l_down l = p :: down -> closed_ (l_client l) = false -> exists r e, accepts (l_client l) p r e).
Proof.
  intros Hr Hn Hlim Hst Hrun Hw Ht Hlink.
  destruct (start_ok registry options descriptor pipes threads c0 Hn Hst) as [ok0 _].
  pose proof (server_run_ok registry Hr options diagnostics Hlim c0 ls sv ok0 Hrun) as oksv.
  destruct (link_run_good registry Hr options diagnostics w Hlim (identifiers_ (sv_state sv)) evs (new_link sv) l)
    as (got & sent & unsent & mid & ups & ok); [by apply new_link_good|done|done|].
  split_and!.
  - destruct (li_session _ _ _ _ _ _ _ _ _ _ ok) as (a & Htr & Hse). exists a. split; [done|]. intros Hov. rewrite Hov in Hse.
    destruct Hse as (wk & st & Hwk & Hsv & Ha & _). exists wk, st. split_and!; try done. by destruct Hsv.
  - pose proof (li_sorted _ _ _ _ _ _ _ _ _ _ ok) as Hs. unfold line in Hs. rewrite fmap_app, <- app_assoc in Hs.
    by apply StronglySorted_app_1_l in Hs.
  - intros r o Hin. destruct (li_known _ _ _ _ _ _ _ _ _ _ ok r) as (e & He & Hreq & _); [|eauto].
    unfold line. apply elem_of_app. left. apply list_elem_of_fmap. by exists (r, o).
  - intros id e resp He Hp. destruct (li_results _ _ _ _ _ _ _ _ _ _ ok id e resp He Hp) as (o & -> & Hin).
    exists o. split; [done|]. rewrite (li_history _ _ _ _ _ _ _ _ _ _ ok). set_solver.
  - intros p down Hd Hc. pose proof (li_down _ _ _ _ _ _ _ _ _ _ ok) as Hdown. rewrite Hd in Hdown.
    apply Forall2_cons_inv_r in Hdown as (h & sent' & Hp & _ & ->).
    edestruct head_accepted as (e & He & _); [..|exact ok|exact Hp|exact Hc|eauto]; done.
Qed.

(** ** A session with two calls, the second made before the first is answered *)
Module LinkDemo.
#[local] Existing Instance utf8_reference.
#[local] Existing Instance utf8_reference_laws.
#[local] Existing Instance wire_protobuf.
#[local] Existing Instance wire_laws.
#[local] Existing Instance wire_sizes.

Definition accepting : list label := [L_worker 0 ev_check; L_worker 0 (ev_accept (inl 0))].
Definition accepted_server : server builtin_object :=
  {| sv_state := Server.open_session initial_state; sv_workers := [ServeHead ServerDemo.store; Looping] |}.
Lemma accepting_run : server_run builtin_registry ServerDemo.options true ServerDemo.idle accepting = Some accepted_server.
Proof. reflexivity. Qed.

Definition connecting : list link_event :=
  [LE_client (ce_connect true default_endpoint false false None); LE_client (ce_opened (inl true) false);
   LE_client ce_reader_connected; LE_client ce_reader_check].
Definition exchanging : list link_event :=
  [LE_client (ce_call (put_value (Integer 5)) false false); LE_client (ce_call (list_values 0 8) false false);
   LE_client (ce_pick false false); LE_server (L_worker 0 ev_check); LE_write; LE_serve;
   LE_server (L_worker 0 (ev_gate false true)); LE_server (L_worker 0 (ev_locked false)); LE_reply;
   LE_read false false; LE_client (ce_sent (inl 30)); LE_client (ce_pick false false); LE_write;
   LE_server (L_worker 0 (ev_send (inl 30))); LE_server (L_worker 0 ev_check); LE_serve;
   LE_server (L_worker 0 (ev_gate false true)); LE_server (L_worker 0 (ev_locked false)); LE_reply].
Definition demo_link : link builtin_object :=
  match link_run builtin_registry ServerDemo.options true 0 (new_link accepted_server) (connecting ++ exchanging) with
  | Some l => l
  | None => new_link accepted_server
  end.

Lemma demo_link_run :
  link_run builtin_registry ServerDemo.options true 0 (new_link accepted_server) (connecting ++ exchanging) = Some demo_link.
Proof. vm_compute. reflexivity. Qed.
Lemma demo_link_typed : Forall event_typed (connecting ++ exchanging).
Proof.
  repeat (apply List.Forall_cons; [cbn; unfold in_i64, i64_min, i64_max, in_u64, in_u32, two64, two32; done || lia|]).
  apply List.Forall_nil.
Qed.

Lemma remote_session_sequential_witness :
  StronglySorted Z.lt (req_id <$> (l_history demo_link).*1)
  /\ (forall p down, l_down demo_link = p :: down -> closed_ (l_client demo_link) = false ->
        exists r e, accepts (l_client demo_link) p r e)
  /\ length (l_history demo_link) = 2%nat.
Proof.
  destruct (remote_session_sequential builtin_registry ServerDemo.options true 0 None [None; None] None
    ServerDemo.idle accepting accepted_server (connecting ++ exchanging) demo_link) as (_ & Hs & _ & _ & Hacc).
  - exact builtin_registry_wf.
  - discriminate.
  - repeat split; discriminate.
  - exact ServerDemo.started.
  - exact accepting_run.
  - reflexivity.
  - exact demo_link_typed.
  - exact demo_link_run.
  - split; [exact Hs|]. split; [exact Hacc|]. vm_compute. reflexivity.
Defined.

(** The first call has the outcome of its execution; the reply of the second is in the pipe. *)
Example first_call_answered :
  (exists e, calls_ (l_client demo_link) !! 1 = Some e
     /\ pc_promise e = Some (inl {| resp_id := 1; resp_body := o_record {| vr_id := 1; vr_data := Integer 5 |}; resp_version := 1 |}))
  /\ length (l_down demo_link) = 1%nat.
Proof. split; [eexists; split; vm_compute; reflexivity|]. vm_compute. reflexivity. Qed.
End LinkDemo.
