(* ===== verification/LinkProgress.v ===== *)
(** * No call of a healthy connection is stuck

    While a connection is open, its session lasts and the host is not stopping, some
    step of the link brings the pending calls nearer to their results, and none of those
    steps needs a failure: the composition of the client, the pipe and the server has no
    deadlock.  [weight] bounds the number of those steps. *)
From stdpp Require Import prelude gmap strings sorting.
From Stdlib Require Import ZArith Lia.
From S2P Require Import Prelude Utf8 Contracts Validation Framing Transport Native Messages Codec CodecProofs CodecSpec Wire WireProofs Sizes Registry Store StoreProofs StoreSpec Lawful Builtins Sessions Replies Dispatcher Server ServerProofs Client ClientProofs ClientSteps EndToEnd Link LinkProofs.

Section progress.
Context `{Utf8Laws} `{Protobuf} `{!ProtobufLaws} `{!ProtobufSizes} {Obj : Type} `{ObjectOps Obj}.
Context (registry : class_registry Obj) `{!LawfulRegistry registry} (registry_ok : registry_wf registry).
Context (options : server_options) (diagnostics : bool) (w : nat).
Context (limits_ok : 0 <= lim_values (opt_storage options) /\ 0 <= lim_objects (opt_storage options)
                     /\ 0 <= lim_bytes (opt_storage options)).
Context (ids0 : identifier_source).
Implicit Types (l : link Obj) (c : client).

Abbreviation step := (link_step registry options diagnostics w).
Abbreviation good := (link_good registry options w ids0).

(** An open connection in a running host. *)
Record alive l : Prop := {
  al_good : good l;
  al_threads : threads_ok (l_client l);
  al_closed : closed_ (l_client l) = false;
  al_connected : connected_ (l_client l) = true;
  al_session : session_open w l;
  al_running : shutdown_ (sv_state (l_server l)) = false;
}.

Definition writer_weight c (written : bool) : nat :=
  match writer_ c with W_sending _ => if written then 1 else 17 | _ => 0 end.
Definition reader_weight c : nat :=
  match reader_ c with R_waiting | R_logging _ => 2 | R_head => 1 | _ => 0 end.
Definition worker_weight (wk : worker Obj) (free replied : bool) : nat :=
  match wk with
  | ServeHead _ => 1
  | Waiting _ _ => if free then 12 else 13
  | Holding _ _ => 11
  | Responding _ _ => if replied then 2 else 10
  | _ => 0
  end.
Definition session_weight (sv : server Obj) (replied : bool) : nat :=
  match sv_workers sv !! w with
  | Some wk => worker_weight wk (bool_decide (gate_ (sv_state sv) = None)) replied
  | None => 0
  end.
Definition weight l : nat :=
  20 * length (queued_ (l_client l)) + writer_weight (l_client l) (l_written l)
  + 14 * length (l_up l) + session_weight (l_server l) (l_replied l)
  + 4 * length (l_down l) + reader_weight (l_client l).

(** Every failure was there before. *)
Definition no_failure c c' : Prop :=
  forall id e' f, calls_ c' !! id = Some e' -> pc_promise e' = Some (inr f) ->
    exists e, calls_ c !! id = Some e /\ pc_promise e = Some (inr f).

Definition advances l : Prop :=
  exists ev l', event_typed ev /\ step l ev = Some l' /\ alive l' /\ (weight l' < weight l)%nat
    /\ calls_grow (calls_ (l_client l)) (calls_ (l_client l')) /\ no_failure (l_client l) (l_client l').

Lemma no_failure_same c c' : calls_ c' = calls_ c -> no_failure c c'.
Proof. intros E id e' f. rewrite E. eauto. Qed.

(** ** One step *)
Lemma step_client l ev l' :
  step l ev = Some l' -> l_client l' = l_client l \/ exists cev, client_step (l_client l) cev = Step (l_client l').
Proof.
  intros Hs. destruct ev; cbn in Hs; unfold link_client, link_write, link_read, link_server, link_serve, link_reply in Hs;
    repeat case_match; simplify_eq; eauto.
Qed.

Lemma run_threads evs : forall l l',
  good l -> threads_ok (l_client l) -> Forall event_typed evs -> link_run registry options diagnostics w l evs = Some l' ->
  threads_ok (l_client l').
Proof.
  induction evs as [|ev evs IH]; intros l l' Hg Hth Ht Hr; cbn in Hr; [by injection Hr as <-|].
  apply Forall_cons in Ht as [Ht Hts]. destruct (link_step _ _ _ _ l ev) as [l1|] eqn:Es; [|done].
  eapply (IH l1); [|..]; try done.
  - by eapply (link_step_good registry registry_ok options diagnostics w limits_ok ids0).
  - destruct Hg as (? & ? & ? & ? & ? & ok). destruct (step_client l ev l1 Es) as [->|[cev Hc]]; [done|].
    eapply client_step_threads; [apply ok|exact Hth|exact Hc].
Qed.

Lemma advance l ev l' :
  alive l -> event_typed ev -> step l ev = Some l' ->
  closed_ (l_client l') = false -> connected_ (l_client l') = true -> session_open w l' ->
  shutdown_ (sv_state (l_server l')) = false -> (weight l' < weight l)%nat ->
  no_failure (l_client l) (l_client l') -> advances l.
Proof.
  intros Hal Ht Hs Hcl Hcon Hop Hrun Hw Hnf. exists ev, l'.
  assert (okc : client_ok (l_client l)) by (destruct (al_good l Hal) as (? & ? & ? & ? & ? & ok); apply ok).
  assert (Hcl' : threads_ok (l_client l') /\ calls_grow (calls_ (l_client l)) (calls_ (l_client l'))).
  { destruct (step_client l ev l' Hs) as [->|[cev Hc]]; [split; [apply Hal|reflexivity]|]. split.
    - by eapply client_step_threads; [..|apply Hal|exact Hc].
    - pose proof (client_step_good _ cev okc) as Hg. rewrite Hc in Hg. apply Hg. }
  destruct Hcl' as [Hth Hgr]. split_and!; try done. split; try done.
  by eapply (link_step_good registry registry_ok options diagnostics w limits_ok ids0); [apply Hal|..].
Qed.

(** A step of the client that keeps it open. *)
Lemma client_advance l ev c' :
  alive l -> client_may l ev = true -> event_typed (LE_client ev) -> client_step (l_client l) ev = Step c' ->
  closed_ c' = false -> connected_ c' = true ->
  (20 * length (queued_ c') + writer_weight c' (l_written (with_client l c' (l_down l))) + reader_weight c'
   < 20 * length (queued_ (l_client l)) + writer_weight (l_client l) (l_written l) + reader_weight (l_client l))%nat ->
  no_failure (l_client l) c' -> advances l.
Proof.
  intros Hal Hmay Ht Hs Hcl Hcon Hw Hnf. apply (advance l (LE_client ev) (with_client l c' (l_down l))); try done.
  - cbn. unfold link_client. by rewrite Hmay, Hs.
  - apply Hal.
  - apply Hal.
  - unfold weight. cbn [l_client with_client l_up l_down l_server l_replied]. lia.
Qed.

(** A step of the session's worker. *)
Lemma worker_advance l ev wk s' wk' :
  alive l -> sv_workers (l_server l) !! w = Some wk ->
  worker_step registry options diagnostics w (sv_state (l_server l)) wk ev = Some (s', wk') ->
  worker_may l ev = true -> ev <> ev_close -> (forall st, wk' <> Closing st) -> shutdown_ s' = false ->
  (worker_weight wk' (bool_decide (gate_ s' = None)) (match wk with Holding _ _ => false | _ => l_replied l end)
   < worker_weight wk (bool_decide (gate_ (sv_state (l_server l)) = None)) (l_replied l))%nat -> advances l.
Proof.
  intros Hal Hwk Hst Hmay Hev Hncl Hrun Hlt. destruct (al_session l Hal) as [Hov _].
  pose proof (lookup_lt_Some _ _ _ Hwk) as Hlen.
  set (sv := {| sv_state := s'; sv_workers := <[w := wk']> (sv_workers (l_server l)) |}).
  assert (Hwk' : sv_workers sv !! w = Some wk') by (cbn; by rewrite list_lookup_insert_eq).
  apply (advance l (LE_server (L_worker w ev)) (with_session w l sv (l_up l) false)); try done.
  - cbn [link_step]. unfold link_server. cbn [server_step]. rewrite Hwk, Hst, bool_decide_eq_true_2, Hov, Hmay by done.
    by destruct ev.
  - apply Hal.
  - apply Hal.
  - split; [done|]. by exists wk'.
  - unfold weight, session_weight. cbn [l_client l_up l_down l_server l_replied l_written with_session]. rewrite Hwk', Hwk. cbn [sv_state sv]. lia.
  - by apply no_failure_same.
Qed.

(** ** What the parts can do *)
Lemma reader_advances l p down : alive l -> l_down l = p :: down -> advances l.
Proof.
  intros Hal Hd. pose proof (al_closed l Hal) as Hcl. pose proof (al_connected l Hal) as Hcon.
  destruct (th_reader _ (al_threads l Hal) Hcon Hcl) as [Hr|[Hr|[[id Hr]|Hr]]].
  - apply (client_advance l ce_reader_connected (set_reader (l_client l) R_head)); try done; [| |by apply no_failure_same].
    + cbn. unfold reader_connected. by rewrite wait_connected_eq, Hr, Hcl, Hcon.
    + unfold reader_weight, writer_weight. cbn. rewrite Hr. destruct (writer_ (l_client l)); lia.
  - apply (client_advance l ce_reader_check (set_reader (l_client l) R_receiving)); try done; [| |by apply no_failure_same].
    + cbn. unfold reader_check. by rewrite Hr, (th_closed _ (al_threads l Hal) Hcon Hcl).
    + unfold reader_weight, writer_weight. cbn. rewrite Hr. destruct (writer_ (l_client l)); lia.
  - apply (client_advance l ce_logged (set_reader (add_client_log (l_client l) (response_line id)) R_head)); try done;
      [| |by apply no_failure_same].
    + cbn. unfold reader_logged. by rewrite Hr.
    + unfold reader_weight, writer_weight. cbn. rewrite Hr. destruct (writer_ (l_client l)); lia.
  - destruct (al_good l Hal) as (got & sent & unsent & mid & ups & ok).
    pose proof (li_down _ _ _ _ _ _ _ _ _ _ ok) as Hdown. rewrite Hd in Hdown.
    apply Forall2_cons_inv_r in Hdown as (h & sent' & Hp & _ & ->).
    pose proof (li_client _ _ _ _ _ _ _ _ _ _ ok) as okc.
    edestruct head_accepted as (e & Hacc & _); [..|exact ok|exact Hp|exact Hcl|]; try done.
    destruct (received_accepted (l_client l) p _ e okc Hcl Hr Hacc) as (c' & Hs & Hw & _).
    destruct (read_effect _ p _ e false false c' okc Hacc Hcl Hs) as [[_ ?]|Hc']; [destruct Hw; congruence|].
    apply (advance l (LE_read false false) (with_client l c' down)); try done.
    + cbn [link_step]. unfold link_read. by rewrite Hd, Hs.
    + apply Hw.
    + cbn. by rewrite Hc'.
    + apply Hal.
    + apply Hal.
    + unfold weight, reader_weight, writer_weight. cbn [l_client with_client l_up l_down l_server l_replied l_written].
      rewrite Hd, Hc'. cbn. rewrite Hr. destruct (writer_ (l_client l)); lia.
    + intros id e' f He' Hf. cbn in He'. rewrite Hc' in He'. cbn in He'.
      apply lookup_insert_Some in He' as [[<- <-]|[_ He']]; [done|eauto].
Qed.

(** The holder of the gate leaves its guarded block. *)
Lemma holder_advances l j st d :
  alive l -> j <> w -> gate_ (sv_state (l_server l)) = Some j -> sv_workers (l_server l) !! w = Some (Waiting st d) ->
  advances l.
Proof.
  intros Hal Hj Hg Hwk. destruct (al_good l Hal) as (got & sent & unsent & mid & ups & ok).
  pose proof (li_server _ _ _ _ _ _ _ _ _ _ ok) as oks. pose proof (proj1 (ok_gate _ _ oks j) Hg) as (wj & Hwj & Hh).
  destruct wj as [| | | | |stj dj| | | |]; try done.
  assert (Hst : exists s' wk', worker_step registry options diagnostics j (sv_state (l_server l)) (Holding stj dj) (ev_locked false)
    = Some (s', wk') /\ gate_ s' = None /\ shutdown_ s' = false).
  { cbn. unfold dispatch_locked, server_preflight. rewrite bool_decide_eq_true_2, (al_running l Hal) by done. cbn [negb].
    destruct dj as [r|f]; [|eexists _, _; split; [done|]; split; [done|apply Hal]].
    destruct (ok_carried _ _ oks j _ Hwj) as (Hid & Hver & Ht).
    destruct (dispatch_carried registry registry_ok diagnostics stj _ r (ok_stores _ _ oks j _ stj Hwj eq_refl) Hid Hver Ht)
      as (o & st' & ids' & lines & -> & _). eexists _, _. split; [done|]. split; [done|apply Hal]. }
  destruct Hst as (s' & wk' & Hst & Hg' & Hrun).
  set (sv := {| sv_state := s'; sv_workers := <[j := wk']> (sv_workers (l_server l)) |}).
  assert (Hwk' : sv_workers sv !! w = Some (Waiting st d)) by (cbn; by rewrite list_lookup_insert_ne).
  destruct (al_session l Hal) as [Hov _].
  apply (advance l (LE_server (L_worker j (ev_locked false))) (with_others l sv)); try done.
  - cbn [link_step]. unfold link_server. cbn [server_step]. by rewrite Hwj, Hst, bool_decide_eq_false_2.
  - apply Hal.
  - apply Hal.
  - split; [done|]. by eexists.
  - unfold weight, session_weight. cbn [l_client l_up l_down l_server l_replied l_written with_others].
    rewrite Hwk', Hwk. cbn [sv_state sv worker_weight]. rewrite Hg', Hg. cbn. lia.
  - by apply no_failure_same.
Qed.

(** The worker moves unless it waits for a payload. *)
Lemma worker_advances l wk :
  alive l -> sv_workers (l_server l) !! w = Some wk -> (forall st, wk <> Receiving st) -> advances l.
Proof.
  intros Hal Hwk Hnr. pose proof (al_running l Hal) as Hrun. destruct (al_session l Hal) as (Hov & wk0 & Hwk0 & Hncl).
  assert (wk0 = wk) as -> by congruence.
  destruct (al_good l Hal) as (got & sent & unsent & mid & ups & ok). pose proof (li_server _ _ _ _ _ _ _ _ _ _ ok) as oks.
  destruct (li_session _ _ _ _ _ _ _ _ _ _ ok) as (a & _ & Hse). rewrite Hov in Hse.
  destruct Hse as (wk1 & st & Hwk1 & Hsv & _). assert (wk1 = wk) as -> by congruence.
  assert (Henc : forall h, wk = Responding st (inl (reply h)) -> exists b, encode_response (reply h) = inl b).
  { intros h ->. destruct (ok_carried _ _ oks w _ Hwk) as (Hid & _ & Hrep).
    destruct (reply_encoded _ _ Hrep Hid) as (b & Hb & _). by exists b. }
  inversion Hsv as [st' b|st' b|st' b r|st' b r|st' h|st' h|st' b lost]; subst; try done;
    try match goal with E : _ = l_replied l |- _ => symmetry in E; rename E into Hrep end.
  - apply (worker_advance l ev_check _ (sv_state (l_server l)) (Receiving st) Hal Hwk); try done; [cbn; unfold serve_check; by rewrite Hrun|cbn; lia].
  - by destruct (Hnr st).
  - destruct (gate_ (sv_state (l_server l))) as [j|] eqn:Hg.
    + apply (holder_advances l j st (inl r)); try done. intros ->. apply (ok_gate _ _ oks) in Hg as (v & Hv & Hh). by simplify_eq.
    + apply (worker_advance l (ev_gate false true) _ (set_gate (sv_state (l_server l)) (Some w)) (Holding st (inl r)) Hal Hwk); try done.
      * cbn. unfold dispatch_wait, server_preflight. by rewrite Hrun, Hg.
      * cbn [worker_weight]. rewrite Hg. cbn. lia.
  - pose proof (proj2 (ok_gate _ _ oks w) (ex_intro _ _ (conj Hwk eq_refl))) as Hg.
    destruct (ok_carried _ _ oks w _ Hwk) as (Hid & Hver & Ht).
    destruct (dispatch_carried registry registry_ok diagnostics st _ r (ok_stores _ _ oks w _ st Hwk eq_refl) Hid Hver Ht)
      as (o & st' & ids' & lines & Hdis & _).
    apply (worker_advance l (ev_locked false) _ (set_gate (add_log (set_identifiers (sv_state (l_server l)) ids') lines) None)
      (Responding st' (inl (reply (r, o)))) Hal Hwk); try done.
    + cbn. unfold dispatch_locked, server_preflight. by rewrite bool_decide_eq_true_2, Hrun, Hdis by done.
    + cbn. lia.
  - destruct (Henc h eq_refl) as [b Hb].
    set (l' := {| l_client := l_client l; l_server := l_server l; l_up := l_up l; l_down := l_down l ++ [b];
            l_written := l_written l; l_replied := true; l_over := l_over l; l_history := l_history l |}).
    apply (advance l LE_reply l'); try done; try apply Hal.
    + cbn. unfold link_reply, reply_payload, l'. by rewrite Hov, Hrep, Hwk, Hb.
    + unfold weight, session_weight. cbn. rewrite Hwk, length_app, Hrep. cbn. lia.
    + by apply no_failure_same.
  - destruct (Henc h eq_refl) as [b Hb].
    apply (worker_advance l (ev_send (inl 0)) _ (count_completed (sv_state (l_server l))) (ServeHead st) Hal Hwk); try done.
    + cbn. unfold dispatch_reply, reply_payload. by rewrite Hb.
    + cbn. rewrite Hrep. lia.
  - by destruct (Hncl st).
Qed.

(** With nothing under way, every pending call is queued. *)
Lemma pending_queued l st :
  alive l -> pending_ (l_client l) <> ∅ -> l_up l = [] -> l_down l = [] -> writer_ (l_client l) = W_idle ->
  sv_workers (l_server l) !! w = Some (Receiving st) -> queued_ (l_client l) <> [].
Proof.
  intros Hal Hpe Hup Hdown Hw Hwk Hq. destruct (al_session l Hal) as [Hov _]. pose proof (al_closed l Hal) as Hcl.
  destruct (al_good l Hal) as (got & sent & unsent & mid & ups & ok). pose proof (li_client _ _ _ _ _ _ _ _ _ _ ok) as okc.
  apply Hpe, set_eq. intros id. split; [|set_solver].
  intros (e & He & Hn)%(co_pending _ _ _ _ (ck_calls _ okc)).
  assert (Hph : pc_progress e <> ph_queued).
  { intros E. assert (Hin : id ∈ queued_ (l_client l)) by (apply (co_queue _ _ _ _ (ck_calls _ okc)); eauto).
    rewrite Hq in Hin. by apply elem_of_nil in Hin. }
  pose proof (li_complete _ _ _ _ _ _ _ _ _ _ ok id e _ Hcl Hov Hwk ltac:(done) He Hn Hph) as Hin.
  destruct (li_session _ _ _ _ _ _ _ _ _ _ ok) as (a & _ & Hse). rewrite Hov in Hse.
  destruct Hse as (wk1 & st1 & Hwk1 & Hsv & _). assert (wk1 = Receiving st) as -> by congruence. inversion Hsv; subst.
  pose proof (li_down _ _ _ _ _ _ _ _ _ _ ok) as Hd. rewrite Hdown in Hd. apply Forall2_nil_inv_r in Hd as ->.
  pose proof (li_up _ _ _ _ _ _ _ _ _ _ ok) as Hu. rewrite Hup in Hu. apply Forall2_nil_inv_r in Hu as ->.
  unfold under_way, current, sending in Hin. rewrite Hw in Hin. by apply elem_of_nil in Hin.
Qed.

Lemma no_failure_progress c id p calls pending queued wr :
  p <> ph_queued -> calls = calls_ c \/ calls = alter (fun e => with_progress e p) id (calls_ c) ->
  no_failure c (set_writer (set_calls c calls pending queued) wr).
Proof.
  intros Hp [->| ->] j e' f He' Hf; cbn in He'; [eauto|].
  apply alter_progress_bwd in He' as (e & He & (_ & Hpr & _) & _); [|done]. exists e. split; congruence.
Qed.

(** The three moves of the writer. *)
Lemma pick_advances l id queued :
  alive l -> writer_ (l_client l) = W_idle -> queued_ (l_client l) = id :: queued -> advances l.
Proof.
  intros Hal Hw Hq. pose proof (al_closed l Hal) as Hcl. pose proof (al_connected l Hal) as Hcon.
  apply (client_advance l (ce_pick false false)
    (set_writer (set_calls (l_client l) (alter (fun e => with_progress e ph_writing) id (calls_ (l_client l)))
                   (pending_ (l_client l)) queued) (W_sending id))); try done.
  - cbn. unfold writer_pick. by rewrite Hw, Hcl, Hq.
  - unfold writer_weight, reader_weight. cbn. rewrite Hw, Hq. cbn. lia.
  - apply (no_failure_progress _ id ph_writing); auto.
Qed.

Lemma sent_advances l id : alive l -> writer_ (l_client l) = W_sending id -> l_written l = true -> advances l.
Proof.
  intros Hal Hw Hwr. pose proof (al_closed l Hal) as Hcl. pose proof (al_connected l Hal) as Hcon.
  set (calls := if bool_decide (id ∈ pending_ (l_client l))
    then alter (fun e => with_progress e ph_sent) id (calls_ (l_client l)) else calls_ (l_client l)).
  apply (client_advance l (ce_sent (inl 0))
    (set_writer (set_calls (l_client l) calls (pending_ (l_client l)) (queued_ (l_client l))) W_idle)); try done.
  - cbn. unfold writer_sent, calls. rewrite Hw, Hcl. by case_bool_decide.
  - unfold writer_weight, reader_weight. cbn. rewrite Hw, Hwr. lia.
  - apply (no_failure_progress _ id ph_sent); [done|]. unfold calls. case_bool_decide; auto.
Qed.

Lemma write_advances l id : alive l -> writer_ (l_client l) = W_sending id -> l_written l = false -> advances l.
Proof.
  intros Hal Hw Hwr. destruct (al_good l Hal) as (got & sent & unsent & mid & ups & ok).
  destruct (li_sending _ _ _ _ _ _ _ _ _ _ ok id Hw) as [e He].
  assert (Hs : sending (l_client l) (l_written l) = Some e) by (unfold sending; by rewrite Hw, Hwr).
  set (l' := {| l_client := l_client l; l_server := l_server l; l_up := l_up l ++ [pc_encoded e]; l_down := l_down l;
    l_written := true; l_replied := l_replied l; l_over := l_over l; l_history := l_history l |}).
  apply (advance l LE_write l'); try done; try apply Hal.
  - cbn. unfold link_write. by rewrite Hs.
  - unfold weight, writer_weight. cbn. rewrite Hw, Hwr, length_app. cbn. lia.
  - by apply no_failure_same.
Qed.

Lemma writer_advances l st :
  alive l -> pending_ (l_client l) <> ∅ -> l_up l = [] -> l_down l = [] ->
  sv_workers (l_server l) !! w = Some (Receiving st) -> advances l.
Proof.
  intros Hal Hpe Hup Hdown Hwk.
  destruct (th_writer _ (al_threads l Hal) (al_connected l Hal) (al_closed l Hal)) as [Hw|[id Hw]].
  - destruct (queued_ (l_client l)) as [|id queued] eqn:Eq; [by eapply pending_queued in Eq|by eapply pick_advances].
  - destruct (l_written l) eqn:Hwr; [by eapply sent_advances|by eapply write_advances].
Qed.

(** ** A run to the end *)
Lemma pending_advances l : alive l -> pending_ (l_client l) <> ∅ -> advances l.
Proof.
  intros Hal Hpe. destruct (l_down l) as [|p down] eqn:Hd; [|by eapply reader_advances].
  destruct (al_session l Hal) as (Hov & wk & Hwk & Hncl).
  assert (Hor : (exists st, wk = Receiving st) \/ forall st, wk <> Receiving st) by (destruct wk; eauto; by right).
  destruct Hor as [[st ->]|Hnr]; [|by eapply worker_advances].
  destruct (l_up l) as [|p up] eqn:Hup; [by eapply writer_advances|].
  destruct (al_good l Hal) as (got & sent & unsent & mid & ups & ok).
  set (sv := {| sv_state := sv_state (l_server l);
                sv_workers := <[w := Waiting st (decode_request p)]> (sv_workers (l_server l)) |}).
  assert (Hwk' : sv_workers sv !! w = Some (Waiting st (decode_request p))).
  { cbn. rewrite list_lookup_insert_eq; [done|]. by eapply lookup_lt_Some. }
  apply (advance l LE_serve (with_session w l sv up false)); try done; try apply Hal.
  - cbn. unfold link_serve. rewrite Hup, Hov. cbn. by rewrite Hwk.
  - split; [done|]. eexists. by split.
  - unfold weight, session_weight. cbn [l_client l_up l_down l_server l_replied l_written with_session].
    rewrite Hwk', Hwk, Hup. cbn [length worker_weight]. case_bool_decide; lia.
  - by apply no_failure_same.
Qed.

Lemma pending_answered n : forall l, (weight l <= n)%nat -> alive l ->
  exists evs l', Forall event_typed evs /\ link_run registry options diagnostics w l evs = Some l' /\ alive l'
    /\ pending_ (l_client l') = ∅ /\ (length evs <= weight l)%nat
    /\ calls_grow (calls_ (l_client l)) (calls_ (l_client l')) /\ no_failure (l_client l) (l_client l').
Proof.
  assert (Hend : forall l, alive l -> pending_ (l_client l) = ∅ ->
    exists evs l', Forall event_typed evs /\ link_run registry options diagnostics w l evs = Some l' /\ alive l'
    /\ pending_ (l_client l') = ∅ /\ (length evs <= weight l)%nat
    /\ calls_grow (calls_ (l_client l)) (calls_ (l_client l')) /\ no_failure (l_client l) (l_client l')).
  { intros l Hal Hpe. exists [], l. split_and!; try done; [cbn [length]; lia|by apply no_failure_same]. }
  induction n as [|n IH]; intros l Hn Hal; (destruct (decide (pending_ (l_client l) = ∅)) as [Hpe|Hpe]; [by apply Hend|]);
    destruct (pending_advances l Hal Hpe) as (ev & l1 & Ht & Hs & Hal1 & Hw & Hg & Hnf); [lia|].
  destruct (IH l1 ltac:(lia) Hal1) as (evs & l2 & Hts & Hr & Hal2 & Hpe2 & Hlen & Hg2 & Hnf2).
  exists (ev :: evs), l2. split_and!; try done.
  - by constructor.
  - cbn [link_run]. by rewrite Hs.
  - cbn [length]. lia.
  - by etrans.
  - intros id e' f He' Hf. destruct (Hnf2 id e' f He' Hf) as (e1 & He1 & Hf1). by eapply Hnf.
Qed.
End progress.

(** ** Properties *)

(** C2: No call is stuck.  In every state that the link of a client and a worker can
    reach, if the connection is open, the session lasts and the host is not stopping,
    then there is a continuation, at most [weight] steps long, that
    completes every pending call, each with the outcome of its execution, and leaves the
    connection open: neither the threads, nor the gate, nor the pipe can deadlock. *)
Theorem pending_calls_answerable `{Utf8Laws} `{Protobuf} `{!ProtobufLaws} `{!ProtobufSizes} {Obj : Type} `{ObjectOps Obj}
    (registry : class_registry Obj) `{!LawfulRegistry registry} (options : server_options) (diagnostics : bool) (w : nat)
    descriptor pipes threads c0 ls sv evs l :
  registry_wf registry -> 0 <= opt_sessions options ->
  0 <= lim_values (opt_storage options) /\ 0 <= lim_objects (opt_storage options) /\ 0 <= lim_bytes (opt_storage options) ->
  start options descriptor pipes threads = inl c0 -> server_run registry options diagnostics c0 ls = Some sv ->
  sv_workers sv !! w = Some (ServeHead (new_session_store (opt_storage options))) ->
  Forall event_typed evs -> link_run registry options diagnostics w (new_link sv) evs = Some l ->
  connected_ (l_client l) = true -> closed_ (l_client l) = false -> session_open w l ->
  shutdown_ (sv_state (l_server l)) = false ->
  exists evs' l', Forall event_typed evs' /\ (length evs' <= weight w l)%nat
    /\ link_run registry options diagnostics w l evs' = Some l'
    /\ closed_ (l_client l') = false /\ pending_ (l_client l') = ∅
    /\ forall id e, calls_ (l_client l) !! id = Some e -> pc_promise e = None ->
         exists e' o, calls_ (l_client l') !! id = Some e' /\ pc_promise e' = Some (inl (reply (pc_request e, o)))
           /\ (pc_request e, o) ∈ l_history l'.
Proof.
  intros Hr Hn Hlim Hst Hrun Hw Ht Hlink Hcon Hcl Hop Hup.
  destruct (start_ok registry options descriptor pipes threads c0 Hn Hst) as [ok0 _].
  pose proof (server_run_ok registry Hr options diagnostics Hlim c0 ls sv ok0 Hrun) as oksv.
  set (ids0 := identifiers_ (sv_state sv)).
  assert (Hnew : link_good registry options w ids0 (new_link sv)) by by apply new_link_good.
  assert (Hal : alive registry options w ids0 l).
  { split; try done.
    - by eapply (link_run_good registry Hr options diagnostics w Hlim ids0 evs (new_link sv)).
    - by eapply (run_threads registry Hr options diagnostics w Hlim ids0 evs (new_link sv)); [|apply new_client_threads|..]. }
  destruct (pending_answered registry Hr options diagnostics w Hlim ids0 _ l (le_n _) Hal)
    as (evs' & l' & Hts & Hrun' & Hal' & Hpe & Hlen & Hg & Hnf).
  exists evs', l'. split_and!; try done; [apply Hal'|]. intros id e He Hp.
  destruct (al_good _ _ _ _ _ Hal') as (got & sent & unsent & mid & ups & ok).
  destruct (Hg id e He) as (e' & He' & Hreq & _ & _).
  destruct (pc_promise e') as [[resp|f]|] eqn:Hp'.
  - destruct (li_results _ _ _ _ _ _ _ _ _ _ ok id e' resp He' Hp') as (o & -> & Hin). exists e', o. rewrite <- Hreq.
    split_and!; try done. rewrite (li_history _ _ _ _ _ _ _ _ _ _ ok). set_solver.
  - destruct (Hnf id e' f He' Hp') as (e0 & He0 & Hf). congruence.
  - assert (Hin : id ∈ pending_ (l_client l')) by (apply (co_pending _ _ _ _ (ck_calls _ (li_client _ _ _ _ _ _ _ _ _ _ ok))); eauto).
    set_solver.
Qed.

Module ProgressDemo.
#[local] Existing Instance utf8_reference.
#[local] Existing Instance utf8_reference_laws.
#[local] Existing Instance wire_protobuf.
#[local] Existing Instance wire_laws.
#[local] Existing Instance wire_sizes.

Definition second_call : pending_call :=
  {| pc_request := {| req_id := 2; req_body := list_values 0 8; req_version := version |};
     pc_encoded := match encode_request {| req_id := 2; req_body := list_values 0 8; req_version := version |} with
                   | inl b => b | inr _ => [] end;
     pc_progress := ph_writing; pc_promise := None |}.

Lemma pending_calls_answerable_witness :
  exists evs' l', link_run builtin_registry ServerDemo.options true 0 LinkDemo.demo_link evs' = Some l'
    /\ closed_ (l_client l') = false
    /\ exists e' o, calls_ (l_client l') !! 2 = Some e'
         /\ pc_promise e' = Some (inl (reply (pc_request second_call, o)))
         /\ (pc_request second_call, o) ∈ l_history l'.
Proof.
  destruct (pending_calls_answerable builtin_registry ServerDemo.options true 0 None [None; None] None
    ServerDemo.idle LinkDemo.accepting LinkDemo.accepted_server (LinkDemo.connecting ++ LinkDemo.exchanging) LinkDemo.demo_link)
    as (evs' & l' & _ & _ & Hrun & Hcl & _ & Hall).
  - exact builtin_registry_wf.
  - discriminate.
  - repeat split; discriminate.
  - exact ServerDemo.started.
  - exact LinkDemo.accepting_run.
  - reflexivity.
  - exact LinkDemo.demo_link_typed.
  - exact LinkDemo.demo_link_run.
  - vm_compute. reflexivity.
  - vm_compute. reflexivity.
  - split; [vm_compute; reflexivity|]. eexists. split; [vm_compute; reflexivity|]. intros st E. discriminate E.
  - vm_compute. reflexivity.
  - exists evs', l'. split; [exact Hrun|]. split; [exact Hcl|].
    apply (Hall 2 second_call); vm_compute; reflexivity.
Defined.
End ProgressDemo.
