(* ===== verification/System.v ===== *)
(** * The client and the server together

    [system] is a server host with its workers, the client connections, and the futures
    handed out; its actions drive the step systems of Client.v and Server.v with the
    answers of a pipe that works: what one side sends is what the other receives.  It
    implements the interface [ClientApi], so the demo of client_commands.cpp runs
    against the whole stack: queue, codec, dispatcher, session store, built-in classes,
    and back.

    This is an executable environment for one run, not a model of code: it fixes one
    schedule, a clock that stands still and a pipe that never fails, and [open_pipe]
    answers the timeout of a connection attempt whenever no worker waits for a client.
    The properties over all schedules are those of LinkProofs.v and LinkProgress.v. *)
From stdpp Require Import prelude gmap strings pretty.
From Stdlib Require Import Ascii ZArith Lia.
From S2P Require Import Prelude Json Diagnostics DiagnosticsProofs Utf8 Contracts Validation Framing Transport Messages Codec Wire CommandLine Registry Store Builtins Dispatcher Server Client Application ApplicationProofs Demo.

(** What a future stands for. *)
Inductive promise :=
  | P_refused (error : c_failure)          (* [connect_async] failed at once *)
  | P_opening (c : nat)                    (* the connection attempt of a client *)
  | P_call (c : nat) (f : future).

Record system := {
  sys_server : server builtin_object;
  sys_clients : list (client * option nat);    (* each with the worker that serves it *)
  sys_promises : list promise;
}.
Definition with_server (s : system) sv : system :=
  {| sys_server := sv; sys_clients := sys_clients s; sys_promises := sys_promises s |}.
Definition with_client (s : system) (i : nat) c : system :=
  {| sys_server := sys_server s; sys_clients := <[i := c]> (sys_clients s); sys_promises := sys_promises s |}.
Definition promised (s : system) (p : promise) : Z * system :=
  (len (sys_promises s),
   {| sys_server := sys_server s; sys_clients := sys_clients s; sys_promises := sys_promises s ++ [p] |}).

Section system.
Context `{Utf8Ops} `{Protobuf} (options : server_options).

Definition stuck : c_failure := c_fail ck_internal_failure.

(** A worker takes the steps [evs]; a client its steps. *)
Definition serve (i : nat) (evs : list event) (s : system) : option system :=
  with_server s <$> server_run builtin_registry options false (sys_server s) (L_worker i <$> evs).
Definition drive (i : nat) (evs : list c_event) (s : system) : option system :=
  match sys_clients s !! i with
  | Some (c, w) => match client_run c evs with Step c' => Some (with_client s i (c', w)) | _ => None end
  | None => None
  end.
Definition attach (i : nat) (w : option nat) (s : system) : system :=
  match sys_clients s !! i with Some (c, _) => with_client s i (c, w) | None => s end.

(** The first worker that waits for a client. *)
Fixpoint idle_worker (i : nat) (ws : list (worker builtin_object)) : option nat :=
  match ws with
  | [] => None
  | InAccept :: _ => Some i
  | _ :: ws => idle_worker (S i) ws
  end.

Definition open_pipe (i : nat) (endpoint : wstring) (s : system) : option system :=
  match (if bool_decide (endpoint = opt_endpoint options) then idle_worker 0 (sv_workers (sys_server s)) else None) with
  | None => drive i [ce_opened (inr (t_fail fk_timeout)) true] s
  | Some w =>
      s1 ← serve w [ev_accept (inl 0); ev_check] s;
      drive i [ce_opened (inl true) false; ce_reader_connected; ce_reader_check] (attach i (Some w) s1)
  end.

(** One request and its response, over the pipe. *)
Definition exchange (i : nat) (s : system) : option system :=
  s1 ← drive i [ce_pick false false] s;
  '(c, w) ← sys_clients s1 !! i;
  w ← w;
  payload ← (match writer_ c with W_sending id => pc_encoded <$> Client.calls_ c !! id | _ => None end);
  s2 ← drive i [ce_sent (inl (len payload))] s1;
  s3 ← serve w [ev_receive (inl payload); ev_gate false true; ev_locked false] s2;
  reply ← sv_workers (sys_server s3) !! w ≫= reply_payload;
  s4 ← serve w [ev_send (inl (len reply)); ev_check] s3;
  drive i [ce_received (inl reply) false false; ce_logged; ce_reader_check] s4.

(** The result of a call, after the exchanges of the calls before it. *)
Definition result_of (s : system) (i : nat) (id : Z) : option call_result :=
  '(c, _) ← sys_clients s !! i; e ← Client.calls_ c !! id; pc_promise e.
Fixpoint await (fuel : nat) (i : nat) (id : Z) (s : system) : call_result * system :=
  match result_of s i id, fuel with
  | Some r, _ => (r, s)
  | None, O => (inr stuck, s)
  | None, S fuel => match exchange i s with Some s' => await fuel i id s' | None => (inr stuck, s) end
  end.

Definition hang_up (i : nat) (s : system) : option system :=
  s1 ← drive i [ce_close] s;
  '(_, w) ← sys_clients s1 !! i;
  match w with
  | None => Some s1
  | Some w => serve w [ev_receive (inr (t_fail fk_disconnected)); ev_close; ev_disconnect None; ev_check] (attach i None s1)
  end.

Definition or_same (o : option system) (s : system) : system := default s o.

#[local] Instance system_api : ClientApi system := {
  clock_now := sret 0;
  new_connection := fun s =>
    (len (sys_clients s),
     {| sys_server := sys_server s; sys_clients := sys_clients s ++ [(new_client, None)];
        sys_promises := sys_promises s |});
  start_connect c endpoint _ := fun s =>
    let i := Z.to_nat c in
    match sys_clients s !! i with
    | None => promised s (P_refused stuck)
    | Some (cl, w) =>
        match connect_async cl true endpoint false false None with
        | (Some error, _) => promised s (P_refused error)
        | (None, Step cl') =>
            let s1 := with_client s i (cl', w) in promised (or_same (open_pipe i endpoint s1) s1) (P_opening i)
        | (None, _) => promised s (P_refused stuck)
        end
    end;
  connect_get f := fun s =>
    (match sys_promises s !! Z.to_nat f with
     | Some (P_refused e) => inr e
     | Some (P_opening i) =>
         match sys_clients s !! i with Some (cl, _) => default (inr stuck) (opening_ cl) | None => inr stuck end
     | _ => inr stuck
     end, s);
  start_call c op _ := fun s =>
    let i := Z.to_nat c in
    match sys_clients s !! i with
    | None => promised s (P_call i (Ready (inr stuck)))
    | Some (cl, w) => let '(f, cl') := call_async cl op false false in promised (with_client s i (cl', w)) (P_call i f)
    end;
  call_get f := fun s =>
    match sys_promises s !! Z.to_nat f with
    | Some (P_call i (Ready r)) => (r, s)
    | Some (P_call i (Later id)) => await (Z.to_nat max_pending_calls) i id s
    | _ => (inr stuck, s)
    end;
  close_connection c := fun s => (tt, or_same (hang_up (Z.to_nat c) s) s);
}.

(** The host started with its workers waiting for clients. *)
Definition started_system : option system :=
  match start (Obj := builtin_object) options None [] None with
  | inr _ => None
  | inl sv =>
      sv' ← server_run builtin_registry options false sv ((fun i => L_worker i ev_check) <$> seq 0 (Z.to_nat (opt_sessions options)));
      Some {| sys_server := sv'; sys_clients := []; sys_promises := [] |}
  end.
End system.

(** ** The two programs *)
Section programs.
#[local] Existing Instance utf8_reference.
#[local] Existing Instance wire_protobuf.
#[local] Existing Instance system_api.

Definition parsed (name : string) (arguments : list string) : invocation :=
  match parse name arguments default_diagnostics with inl (i, _) => i | inr _ => default_invocation end.

(** [pipeforge-server --serve --sessions sessions], then [pipeforge-client flag]: the exit
    code and streams of the client, and the counters of the server when it is done. *)
Definition served_demo (sessions flag : string) (good : bool) (c : console) : option (Z * console * server_state) :=
  let options := options_of_invocation (parsed "pipeforge-server" ["--serve"; "--sessions"; sessions]) in
  s ← started_system options;
  let '(result, s') := run_client_command (H := system_api options) (parsed "pipeforge-client" [flag]) good c s in
  '(code, c') ← result; Some (code, c', sv_state (sys_server s')).

Definition demo_modes : list (string * string) := [("--demo-sync", "sync"); ("--demo-async", "async"); ("--demo-mixed", "mixed")].

(** The server reports [connections] sessions and [replies] replies, all sessions ended and
    nothing failed. *)
Definition clean (sv : server_state) (connections replies : Z) : Prop :=
  statistics sv = {| st_connections := connections; st_completed_requests := replies; st_protocol_failures := 0;
                     st_io_failures := 0; st_active_sessions := 0; st_last_native_error := 0 |}
  /\ gate_ sv = None /\ shutdown_ sv = false.

(** One run of the demo through the whole stack, in each mode, on the schedule of
    [system_api].  Against a server started with two to four sessions it passes: it reports
    the mode and exits with 0 (1 if the output failed), the server has answered 129 requests
    on three connections, has no session left and counted no error.  Against a server with
    one session it fails, since its second connection finds no free instance. *)
Example demo_passes :
  Forall (fun '(flag, mode) =>
    Forall (fun n => forall good c, exists sv,
      served_demo n flag good c
        = Some (if c_out_ok c && good then 0 else 1, put_out good c ("R1-R8 scenario passed mode=" +:+ mode +:+ newline), sv)
      /\ clean sv 3 129) ["2"; "3"; "4"]
    /\ forall good c, exists sv,
      served_demo "1" flag good c
        = Some (1, put_err c ("R1-R8 scenario failed; no operation was replayed." +:+ newline), sv)
      /\ clean sv 1 125) demo_modes.
Proof.
  unfold demo_modes. repeat constructor.
  all: intros good c; eexists; split; [vm_compute; reflexivity|].
  all: vm_compute; by split_and!.
Qed.
End programs.
