(* ===== verification/Handles.v ===== *)
(** * Handle ownership (src/transport/windows/native.hpp, native.cpp)

    [unique_handle] objects by their address, each with the member [handle_], and the
    [CloseHandle] calls made so far.  An operation on an object that does not exist is
    [None].  The theorem is a conservation law: a handle given to an object is closed, held
    by exactly one object or was released to the caller, and nothing is closed twice. *)
From stdpp Require Import prelude gmap.
From Stdlib Require Import ZArith Lia.
From S2P Require Import Prelude.

(** Pointers as unsigned numbers. *)
Definition nullptr : Z := 0.
Definition INVALID_HANDLE_VALUE : Z := u64_max.

Record handles := { objects : gmap Z Z; kernel_closed : list Z }.
Definition no_handles : handles := {| objects := ∅; kernel_closed := [] |}.

(** [explicit operator bool]. *)
Definition is_handle (h : Z) : bool := negb (h =? nullptr) && negb (h =? INVALID_HANDLE_VALUE).

Definition put_object (s : handles) (o h : Z) : handles :=
  {| objects := <[o := h]> (objects s); kernel_closed := kernel_closed s |}.
Definition CloseHandle (s : handles) (h : Z) : handles :=
  {| objects := objects s; kernel_closed := h :: kernel_closed s |}.

Definition handle_get (s : handles) (o : Z) : option Z := objects s !! o.

Definition handle_new (s : handles) (o h : Z) : option handles :=
  match objects s !! o with Some _ => None | None => Some (put_object s o h) end.

Definition handle_reset (s : handles) (o h : Z) : option handles :=
  match objects s !! o with
  | None => None
  | Some handle_ =>
      let s1 := if is_handle handle_ then CloseHandle s handle_ else s in
      Some (put_object s1 o h)
  end.

Definition handle_release (s : handles) (o : Z) : option (Z * handles) :=
  match objects s !! o with
  | None => None
  | Some handle_ => Some (handle_, put_object s o nullptr)
  end.

Definition handle_move (s : handles) (o other : Z) : option handles :=
  match handle_release s other with None => None | Some (h, s1) => handle_new s1 o h end.

Definition handle_assign (s : handles) (o other : Z) : option handles :=
  if o =? other then match objects s !! o with Some _ => Some s | None => None end
  else match handle_release s other with None => None | Some (h, s1) => handle_reset s1 o h end.

(** The destructor, and the end of the object. *)
Definition handle_delete (s : handles) (o : Z) : option handles :=
  match handle_reset s o nullptr with
  | None => None
  | Some s1 => Some {| objects := delete o (objects s1); kernel_closed := kernel_closed s1 |}
  end.

(** ** Programs over handle objects *)
Inductive handle_op :=
  | H_new (o h : Z)
  | H_delete (o : Z)
  | H_move (o other : Z)
  | H_assign (o other : Z)
  | H_reset (o h : Z)
  | H_release (o : Z).

(** The state after an operation, with the handles released to the caller. *)
Definition handle_step (s : handles) (op : handle_op) : option (list Z * handles) :=
  match op with
  | H_new o h => pair [] <$> handle_new s o h
  | H_delete o => pair [] <$> handle_delete s o
  | H_move o other => pair [] <$> handle_move s o other
  | H_assign o other => pair [] <$> handle_assign s o other
  | H_reset o h => pair [] <$> handle_reset s o h
  | H_release o => (fun '(h, s') => (if is_handle h then [h] else [], s')) <$> handle_release s o
  end.

Fixpoint handle_run (s : handles) (ops : list handle_op) : option (list Z * handles) :=
  match ops with
  | [] => Some ([], s)
  | op :: rest =>
      match handle_step s op with
      | None => None
      | Some (out, s1) =>
          match handle_run s1 rest with None => None | Some (outs, s2) => Some (out ++ outs, s2) end
      end
  end.

(** ** Conservation *)
Definition real (h : Z) : list Z := if is_handle h then [h] else [].
Definition acquired_by (op : handle_op) : list Z :=
  match op with H_new _ h | H_reset _ h => real h | _ => [] end.
Definition acquired (ops : list handle_op) : list Z := concat (acquired_by <$> ops).

Definition held_in (m : gmap Z Z) : list Z := concat (real <$> (map_to_list m).*2).
Definition held (s : handles) : list Z := held_in (objects s).

Lemma held_in_insert m o h : m !! o = None -> held_in (<[o := h]> m) ≡ₚ real h ++ held_in m.
Proof. intros Hm. unfold held_in. by rewrite (map_to_list_insert m o h Hm). Qed.

Lemma held_in_delete m o h : m !! o = Some h -> held_in m ≡ₚ real h ++ held_in (delete o m).
Proof.
  intros Hm. rewrite <- (insert_delete_id m o h Hm) at 1. apply held_in_insert. apply lookup_delete_eq.
Qed.

Lemma held_in_update m o h h' : m !! o = Some h -> held_in (<[o := h']> m) ++ real h ≡ₚ held_in m ++ real h'.
Proof.
  intros Hm. rewrite <- (insert_delete_eq m o h'), (held_in_insert _ _ _ (lookup_delete_eq m o)), (held_in_delete m o h Hm).
  solve_Permutation.
Qed.

Lemma real_null : real nullptr = [].
Proof. reflexivity. Qed.

Lemma reset_conserves s o h s' :
  handle_reset s o h = Some s' -> real h ++ held s ++ kernel_closed s ≡ₚ held s' ++ kernel_closed s'.
Proof.
  unfold handle_reset, held. intros Hr. destruct (objects s !! o) as [h0|] eqn:Ho; [|done]. injection Hr as <-. cbn.
  pose proof (held_in_update _ _ _ h Ho) as Hu. unfold real at 1 in Hu. destruct (is_handle h0); cbn.
  - rewrite (app_assoc (real h)), (Permutation_app_comm (real h)), <- Hu. solve_Permutation.
  - rewrite app_nil_r in Hu. rewrite Hu. solve_Permutation.
Qed.

Lemma release_conserves s o h s' :
  handle_release s o = Some (h, s') -> held s ≡ₚ real h ++ held s' /\ kernel_closed s' = kernel_closed s.
Proof.
  unfold handle_release, held. intros Hr. destruct (objects s !! o) as [h0|] eqn:Ho; [|done]. injection Hr as -> <-. cbn.
  split; [|done]. pose proof (held_in_update _ _ _ nullptr Ho) as Hu. rewrite real_null, app_nil_r in Hu.
  rewrite <- Hu. solve_Permutation.
Qed.

Lemma new_conserves s o h s' :
  handle_new s o h = Some s' -> held s' ≡ₚ real h ++ held s /\ kernel_closed s' = kernel_closed s.
Proof.
  unfold handle_new, held. intros Hr. destruct (objects s !! o) eqn:Ho; [done|]. injection Hr as <-. cbn.
  split; [by apply held_in_insert|done].
Qed.

Lemma delete_conserves s o s' :
  handle_delete s o = Some s' -> held s ++ kernel_closed s ≡ₚ held s' ++ kernel_closed s'.
Proof.
  unfold handle_delete. intros Hd. destruct (handle_reset s o nullptr) as [s1|] eqn:Hr; [|done]. injection Hd as <-.
  pose proof (reset_conserves _ _ _ _ Hr) as Hc. rewrite real_null in Hc. cbn [app] in Hc. rewrite Hc. unfold held. cbn.
  unfold handle_reset in Hr. destruct (objects s !! o); [|done]. injection Hr as <-. cbn.
  destruct (is_handle z); cbn; by rewrite (held_in_delete _ o nullptr) at 1 by apply lookup_insert_eq.
Qed.

Lemma step_conserves s op out s' :
  handle_step s op = Some (out, s') ->
  acquired_by op ++ held s ++ kernel_closed s ≡ₚ held s' ++ kernel_closed s' ++ out.
Proof.
  destruct op as [o h|o|o p|o p|o h|o]; cbn; intros Hs; apply fmap_Some in Hs as (x & Hx & Hs).
  - injection Hs as -> ->. apply new_conserves in Hx as [-> ->]. solve_Permutation.
  - injection Hs as -> ->. rewrite app_nil_r. by apply delete_conserves in Hx.
  - injection Hs as -> ->. unfold handle_move in Hx. destruct (handle_release s p) as [[h s1]|] eqn:Hr; [|done].
    apply release_conserves in Hr as [-> <-]. apply new_conserves in Hx as [-> ->]. solve_Permutation.
  - injection Hs as -> ->. unfold handle_assign in Hx. rewrite app_nil_r. destruct (o =? p).
    + by destruct (objects s !! o); simplify_eq.
    + destruct (handle_release s p) as [[h s1]|] eqn:Hr; [|done].
      apply release_conserves in Hr as [-> <-]. apply reset_conserves in Hx. by rewrite <- Hx, app_assoc.
  - injection Hs as -> ->. rewrite app_nil_r. by apply reset_conserves in Hx.
  - destruct x as [h s1]. injection Hs as -> ->. apply release_conserves in Hx as [-> ->].
    fold (real h). solve_Permutation.
Qed.

Lemma run_conserves ops s outs s' :
  handle_run s ops = Some (outs, s') ->
  acquired ops ++ held s ++ kernel_closed s ≡ₚ held s' ++ kernel_closed s' ++ outs.
Proof.
  revert s outs. induction ops as [|op ops IH]; intros s outs Hr; cbn in Hr.
  { injection Hr as <- <-. by rewrite app_nil_r. }
  destruct (handle_step s op) as [[out s1]|] eqn:Hs; [|done].
  destruct (handle_run s1 ops) as [[outs1 s2]|] eqn:Hrest; [|done]. injection Hr as <- <-.
  apply step_conserves in Hs. apply IH in Hrest. unfold acquired in *. cbn [fmap list_fmap concat].
  rewrite <- (Permutation_app_comm (concat _)), <- app_assoc, Hs.
  rewrite (app_assoc (held s1)), (app_assoc (concat _)), Hrest. solve_Permutation.
Qed.

(** C23: Handles are owned by one object and closed once.  Run any program over handle
    objects (construction, destruction, move construction, move assignment, also onto
    itself, [reset], [release]) in which every kernel handle is acquired once.  Then no
    handle is closed twice, none is closed after it was released to the caller, the
    handle of a live object is open and no other live object holds it; and when all
    objects are gone, every acquired handle was closed or released. *)
Theorem handle_ownership ops released s :
  NoDup (acquired ops) -> handle_run no_handles ops = Some (released, s) ->
  NoDup (kernel_closed s ++ released)
  /\ (forall o h, handle_get s o = Some h -> is_handle h = true ->
        (h ∉ kernel_closed s) /\ (h ∉ released) /\ forall o', handle_get s o' = Some h -> o' = o)
  /\ (objects s = ∅ -> acquired ops ≡ₚ kernel_closed s ++ released).
Proof.
  intros Hnd Hr%run_conserves. cbn in Hr. rewrite !app_nil_r in Hr.
  assert (Hn : NoDup (held s ++ kernel_closed s ++ released)) by (by rewrite <- Hr).
  apply NoDup_app in Hn as (Hheld & Hdisj & Hcl). split; [done|]. split.
  - intros o h Ho Hh. assert (Hin : h ∈ held s).
    { unfold held. rewrite (held_in_delete _ _ _ Ho). unfold real. rewrite Hh. set_solver. }
    specialize (Hdisj h Hin). split; [set_solver|]. split; [set_solver|].
    intros o' Ho'. destruct (decide (o' = o)) as [|Hne]; [done|]. exfalso.
    unfold held in Hheld. rewrite (held_in_delete _ _ _ Ho), (held_in_delete (delete o (objects s)) o' h) in Hheld
      by (rewrite lookup_delete_ne; done).
    unfold real in Hheld. rewrite Hh in Hheld. apply NoDup_cons in Hheld as [Hni _]. apply Hni. set_solver.
  - intros He. rewrite Hr. unfold held. by rewrite He.
Qed.

Module HandlesDemo.
(** A handle is replaced, another moved through two objects, a self-assignment, and one
    released. *)
Definition program : list handle_op :=
  [H_new 1 40; H_reset 1 44; H_new 2 48; H_move 3 2; H_assign 1 3; H_assign 1 1; H_new 4 52; H_release 4;
   H_new 5 INVALID_HANDLE_VALUE; H_delete 1; H_delete 2; H_delete 3; H_delete 4; H_delete 5].

Lemma handle_ownership_witness :
  NoDup [48; 44; 40; 52] /\ acquired program ≡ₚ [48; 44; 40; 52].
Proof.
  destruct (handle_ownership program [52] {| objects := ∅; kernel_closed := [48; 44; 40] |}) as (Hn & _ & Hp).
  - apply (bool_decide_unpack _). vm_compute. exact I.
  - vm_compute. reflexivity.
  - split; [exact Hn|exact (Hp eq_refl)].
Defined.
End HandlesDemo.
