(* ===== verification/Security.v ===== *)
(** * Pipe instances and their security (src/transport/windows/native.cpp, server.cpp)

    [logon_security] builds the descriptor that admits only the logon session of the
    process, [create_instance] creates one pipe instance with it, and [launch_native] is
    the part of [server_state::launch] that acquires them, with the threads as an answer
    of the environment.  The Win32 functions are the class [SecurityApi].  [tracing] puts a
    ledger of handles, memory and created pipes in front of any such class. *)
From stdpp Require Import prelude gmap strings.
From Stdlib Require Import Ascii ZArith Lia.
From S2P Require Import Prelude Contracts Framing Transport Native Handles Server.

(** Win32 constants and the sizes on x64. *)
Definition ERROR_INVALID_SID : Z := 1337.
Definition sizeof_TOKEN_GROUPS : Z := 24.
Definition SECURITY_MAX_SID_SIZE : Z := 68.
Definition token_storage : Z := sizeof_TOKEN_GROUPS + SECURITY_MAX_SID_SIZE.
Definition PIPE_ACCESS_DUPLEX : Z := 3.
Definition FILE_FLAG_OVERLAPPED : Z := 1073741824.
Definition FILE_FLAG_FIRST_PIPE_INSTANCE : Z := 524288.
Definition PIPE_TYPE_BYTE : Z := 0.
Definition PIPE_READMODE_BYTE : Z := 0.
Definition PIPE_WAIT : Z := 0.
Definition PIPE_REJECT_REMOTE_CLIENTS : Z := 8.

(** What [GetTokenInformation] reports: the size, and the record in the buffer. *)
Record token_groups := { tg_size : Z; tg_count : Z; tg_sid : Z }.

(** The arguments of [CreateNamedPipeW]. *)
Record pipe_arguments := {
  pa_name : wstring; pa_open_mode : Z; pa_pipe_mode : Z; pa_instances : Z;
  pa_out_bytes : Z; pa_in_bytes : Z; pa_default_timeout : Z; pa_descriptor : Z; pa_inherit : bool;
}.

Class SecurityApi (K : Type) := {
  OpenProcessToken : stateM K (option Z);
  GetTokenInformation (token size : Z) : stateM K (option token_groups);
  IsValidSid (sid : Z) : stateM K bool;
  ConvertSidToStringSidW (sid : Z) : stateM K (option (Z * wstring));
  ConvertStringSecurityDescriptor (sddl : wstring) : stateM K (option Z);
  CreateNamedPipeW (arguments : pipe_arguments) : stateM K Z;
  close_handle (handle : Z) : stateM K unit;
  LocalFree (memory : Z) : stateM K unit;
  last_error : K -> Z;
}.

(** [D:P(A;;GA;;;] and the closing parenthesis. *)
Definition sddl_prefix : wstring := [68; 58; 80; 40; 65; 59; 59; 71; 65; 59; 59; 59].
Definition logon_sddl (sid : wstring) : wstring := sddl_prefix ++ sid ++ [41].

Section security.
Context {K : Type} `{SecurityApi K}.

(** The destructors of [unique_handle] and [local_memory]. *)
Definition drop_handle (h : Z) : stateM K unit := if is_handle h then close_handle h else sret tt.
Definition drop_memory (p : Z) : stateM K unit := if p =? nullptr then sret tt else LocalFree p.
Definition with_handle {A} (h : Z) (body : stateM K A) : stateM K A :=
  let! r := body in let! _ := drop_handle h in sret r.
Definition with_memory {A} (p : Z) (body : stateM K A) : stateM K A :=
  let! r := body in let! _ := drop_memory p in sret r.

Definition native_failure {A} : stateM K (A + t_failure) := sget (fun k => inr (io_failure (last_error k))).
Definition no_logon_sid {A} : A + t_failure := inr (t_native fk_access_denied ERROR_INVALID_SID).

(** The descriptor for the logon SID of an open token. *)
Definition token_descriptor (token : Z) : stateM K (Z + t_failure) :=
  let! information := GetTokenInformation token token_storage in
  match information with
  | None => native_failure
  | Some groups =>
      if (tg_size groups <? sizeof_TOKEN_GROUPS) || (token_storage <? tg_size groups) then sret no_logon_sid
      else if negb (tg_count groups =? 1) then sret no_logon_sid
      else
        let! valid := IsValidSid (tg_sid groups) in
        if negb valid then sret no_logon_sid
        else
          let! converted := ConvertSidToStringSidW (tg_sid groups) in
          match converted with
          | None => native_failure
          | Some (raw_sid, text) =>
              with_memory raw_sid
                (let! descriptor := ConvertStringSecurityDescriptor (logon_sddl text) in
                 match descriptor with None => native_failure | Some p => sret (inl p) end)
          end
  end.

Definition logon_security : stateM K (Z + t_failure) :=
  let! opened := OpenProcessToken in
  match opened with
  | None => native_failure
  | Some token => with_handle token (token_descriptor token)
  end.

Definition instance_arguments (name : wstring) (slots : Z) (first : bool) (descriptor : Z) : pipe_arguments := {|
  pa_name := name;
  pa_open_mode := Z.lor (Z.lor PIPE_ACCESS_DUPLEX FILE_FLAG_OVERLAPPED) (if first then FILE_FLAG_FIRST_PIPE_INSTANCE else 0);
  pa_pipe_mode := Z.lor (Z.lor (Z.lor PIPE_TYPE_BYTE PIPE_READMODE_BYTE) PIPE_WAIT) PIPE_REJECT_REMOTE_CLIENTS;
  pa_instances := slots mod two32; pa_out_bytes := buffer_bytes; pa_in_bytes := buffer_bytes; pa_default_timeout := 0;
  pa_descriptor := descriptor; pa_inherit := false |}.

Definition create_instance (name : wstring) (slots : Z) (first : bool) (descriptor : Z) : stateM K (Z + t_failure) :=
  let! pipe := CreateNamedPipeW (instance_arguments name slots first descriptor) in
  if negb (is_handle pipe) then native_failure else sret (inl pipe).

(** The loop of [launch]: the pipes so far and the failure that ended it. *)
Fixpoint create_pipes (count : nat) (index : Z) (name : wstring) (slots descriptor : Z) (pipes : list Z)
  : stateM K (list Z * option t_failure) :=
  match count with
  | O => sret (pipes, None)
  | S count =>
      let! pipe := create_instance name slots (index =? 0) descriptor in
      match pipe with
      | inr error => sret (pipes, Some error)
      | inl pipe => create_pipes count (index + 1) name slots descriptor (pipes ++ [pipe])
      end
  end.

(** [pipes_.clear()], after the workers are joined. *)
Fixpoint clear_pipes (pipes : list Z) : stateM K unit :=
  match pipes with
  | [] => sret tt
  | pipe :: rest => let! _ := drop_handle pipe in clear_pipes rest
  end.

(** [launch] with the destructor of a state that could not be launched: the pipes of the
    host, or the failure. *)
Definition launch_native (options : server_options) (threads : option Z) : stateM K (list Z + t_failure) :=
  let! descriptor := logon_security in
  match descriptor with
  | inr error => sret (inr error)
  | inl descriptor =>
      let! launched :=
        with_memory descriptor
          (let! created := create_pipes (Z.to_nat (opt_sessions options)) 0 (opt_endpoint options) (opt_sessions options)
                             descriptor [] in
           match created.2, threads with
           | Some error, _ => sret (created.1, Some error)
           | None, Some code => let! _ := clear_pipes created.1 in sret ([], Some (t_native fk_io_failure code))
           | None, None => sret (created.1, None)
           end) in
      match launched.2 with
      | Some error => let! _ := clear_pipes launched.1 in sret (inr error)
      | None => sret (inl launched.1)
      end
  end.
End security.

(** ** The calls made *)
Inductive native_event :=
  | E_token (h : Z)
  | E_groups (token : Z) (g : token_groups)
  | E_valid (sid : Z) (valid : bool)
  | E_sid (sid p : Z) (text : wstring)
  | E_descriptor (sddl : wstring) (p : Z)
  | E_pipe (a : pipe_arguments) (h : Z)
  | E_close (h : Z)
  | E_free (p : Z).

Definition memory (p : Z) : list Z := if p =? nullptr then [] else [p].
Definition opened_by (e : native_event) : list Z := match e with E_token h | E_pipe _ h => real h | _ => [] end.
Definition closed_by (e : native_event) : list Z := match e with E_close h => [h] | _ => [] end.
Definition allocated_by (e : native_event) : list Z := match e with E_sid _ p _ | E_descriptor _ p => memory p | _ => [] end.
Definition freed_by (e : native_event) : list Z := match e with E_free p => [p] | _ => [] end.
Definition made_by (e : native_event) : list (pipe_arguments * Z) := match e with E_pipe a h => [(a, h)] | _ => [] end.
(** What the events of a trace amount to. *)
Definition total {A} (f : native_event -> list A) (tr : list native_event) : list A := concat (f <$> tr).

Lemma total_app {A} (f : native_event -> list A) es es' : total f (es ++ es') = total f es ++ total f es'.
Proof. unfold total. by rewrite fmap_app, concat_app. Qed.
Lemma total_each (f : native_event -> list Z) (g : Z -> native_event) l :
  (forall x, f (g x) = [x]) -> total f (g <$> l) = l.
Proof. intros Hf. unfold total. induction l as [|x l IH]; cbn; [done|]. by rewrite Hf, IH. Qed.
Lemma total_none {A} (f : native_event -> list A) (g : Z -> native_event) l :
  (forall x, f (g x) = []) -> total f (g <$> l) = [].
Proof. intros Hf. unfold total. induction l as [|x l IH]; cbn; [done|]. by rewrite Hf, IH. Qed.

Ltac totals := rewrite ?total_app; repeat first [rewrite total_none by done | rewrite total_each by done].

Section tracing.
Context {K : Type} `{SecurityApi K}.
Definition noting {A} (m : stateM K A) (note : A -> list native_event) : stateM (list native_event * K) A :=
  fun s => let '(a, k) := m s.2 in (a, (s.1 ++ note a, k)).

Definition tracing : SecurityApi (list native_event * K) := {|
  OpenProcessToken := noting OpenProcessToken (fun a => match a with Some h => [E_token h] | None => [] end);
  GetTokenInformation t n := noting (GetTokenInformation t n) (fun a => match a with Some g => [E_groups t g] | None => [] end);
  IsValidSid sid := noting (IsValidSid sid) (fun b => [E_valid sid b]);
  ConvertSidToStringSidW sid :=
    noting (ConvertSidToStringSidW sid) (fun a => match a with Some (p, text) => [E_sid sid p text] | None => [] end);
  ConvertStringSecurityDescriptor sddl :=
    noting (ConvertStringSecurityDescriptor sddl) (fun a => match a with Some p => [E_descriptor sddl p] | None => [] end);
  CreateNamedPipeW a := noting (CreateNamedPipeW a) (fun h => [E_pipe a h]);
  close_handle h := noting (close_handle h) (fun _ => [E_close h]);
  LocalFree p := noting (LocalFree p) (fun _ => [E_free p]);
  last_error s := last_error s.2 |}.

(** ** The descriptor *)

(** The descriptor the host must use, in the security descriptor language: a protected
    access list with one entry, which grants all access to the SID [text]. *)
Definition wide (text : string) : wstring := (fun c => Z.of_N (Ascii.N_of_ascii c)) <$> String.list_ascii_of_string text.
Definition grants_only (text : wstring) : wstring := wide "D:P(A;;GA;;;" ++ text ++ wide ")".

(** The calls of a success: the process token is opened, its one logon group is read and
    valid, its SID is written as text, the descriptor is made of that text, and the text
    and the token are released. *)
Definition logon_trace (token : Z) (g : token_groups) (q : Z) (text : wstring) (p : Z) : list native_event :=
  [E_token token; E_groups token g; E_valid (tg_sid g) true; E_sid (tg_sid g) q text; E_descriptor (grants_only text) p]
  ++ (E_free <$> memory q) ++ (E_close <$> real token).

Definition one_group (g : token_groups) : Prop :=
  sizeof_TOKEN_GROUPS <= tg_size g <= token_storage /\ tg_count g = 1.

(** Nothing is left open or allocated. *)
Definition settled_trace (tr : list native_event) : Prop :=
  total opened_by tr ≡ₚ total closed_by tr /\ total allocated_by tr ≡ₚ total freed_by tr /\ total made_by tr = [].

#[local] Existing Instance tracing | 0.

Lemma drop_handle_trace h s :
  exists k', drop_handle (H := tracing) h s = (tt, (s.1 ++ (E_close <$> real h), k')).
Proof.
  unfold drop_handle, real. destruct s as [tr k]. destruct (is_handle h); cbn; [|rewrite app_nil_r; eauto].
  unfold noting. cbn. destruct (close_handle h k) as [[] k']. eauto.
Qed.
Lemma drop_memory_trace p s :
  exists k', drop_memory (H := tracing) p s = (tt, (s.1 ++ (E_free <$> memory p), k')).
Proof.
  unfold drop_memory, memory. destruct s as [tr k]. destruct (p =? nullptr); cbn; [rewrite app_nil_r; eauto|].
  unfold noting. cbn. destruct (LocalFree p k) as [[] k']. eauto.
Qed.

(** The scope of an owner adds its destructor to the trace of the block. *)
Lemma with_handle_trace {A} h (body : stateM (list native_event * K) A) s r tr1 k1 :
  body s = (r, (tr1, k1)) -> exists k2, with_handle (H := tracing) h body s = (r, (tr1 ++ (E_close <$> real h), k2)).
Proof.
  intros Hb. unfold with_handle, sbind. rewrite Hb. destruct (drop_handle_trace h (tr1, k1)) as [k2 Hd].
  rewrite Hd. unfold sret. eauto.
Qed.
Lemma with_memory_trace {A} p (body : stateM (list native_event * K) A) s r tr1 k1 :
  body s = (r, (tr1, k1)) -> exists k2, with_memory (H := tracing) p body s = (r, (tr1 ++ (E_free <$> memory p), k2)).
Proof.
  intros Hb. unfold with_memory, sbind. rewrite Hb. destruct (drop_memory_trace p (tr1, k1)) as [k2 Hd].
  rewrite Hd. unfold sret. eauto.
Qed.

(** How [logon_security] ends: with the trace of a success, or settled. *)
Definition logon_result (tr : list native_event) (r : Z + t_failure) (tr' : list native_event) : Prop :=
  exists es, tr' = tr ++ es
    /\ match r with
       | inl p => exists token g q text, one_group g /\ es = logon_trace token g q text p
       | inr _ => settled_trace es
       end.

(** A trace that opens a token, looks at it and closes it. *)
Lemma settled_token token es :
  settled_trace es -> settled_trace ([E_token token] ++ es ++ (E_close <$> real token)).
Proof.
  intros (Ho & Ha & Hm). unfold settled_trace. totals. rewrite Ho, Ha, Hm. unfold total. cbn. rewrite !app_nil_r.
  split_and!; [solve_Permutation|done|done].
Qed.

Lemma settled_quiet es : Forall (fun e => match e with E_groups _ _ | E_valid _ _ => True | _ => False end) es -> settled_trace es.
Proof.
  unfold settled_trace, total. induction 1 as [|e es He _ (Ho & Ha & Hm)]; [done|]. destruct e; try done.
Qed.

(** What the block between the token and its release adds to the trace. *)
Definition descriptor_trace (token : Z) (r : Z + t_failure) (es : list native_event) : Prop :=
  match r with
  | inl p => exists g q text, one_group g /\
      es = [E_groups token g; E_valid (tg_sid g) true; E_sid (tg_sid g) q text; E_descriptor (grants_only text) p]
           ++ (E_free <$> memory q)
  | inr _ => settled_trace es
  end.

Lemma token_descriptor_trace token tr k :
  exists r es k', token_descriptor (H := tracing) token (tr, k) = (r, (tr ++ es, k')) /\ descriptor_trace token r es.
Proof.
  unfold token_descriptor, sbind at 1. cbn [GetTokenInformation tracing]. unfold noting. cbn [fst snd].
  destruct (GetTokenInformation token token_storage k) as [[g|] k1]; [|by eexists _, [], _].
  destruct (_ || _) eqn:Hsize; [eexists _, _, _; split; [done|]; by apply settled_quiet; repeat constructor|].
  destruct (tg_count g =? 1) eqn:Hcount; cbn [negb];
    [|eexists _, _, _; split; [done|]; by apply settled_quiet; repeat constructor].
  unfold sbind at 1. cbn [IsValidSid tracing fst snd]. unfold noting. cbn [fst snd].
  destruct (IsValidSid (tg_sid g) k1) as [valid k2]. rewrite <- app_assoc.
  destruct valid; cbn [negb]; [|eexists _, _, _; split; [done|]; by apply settled_quiet; repeat constructor].
  unfold sbind at 1. cbn [ConvertSidToStringSidW tracing fst snd]. unfold noting. cbn [fst snd].
  destruct (ConvertSidToStringSidW (tg_sid g) k2) as [[[q text]|] k3];
    [|eexists _, _, _; split; [by rewrite app_nil_r|]; by apply settled_quiet; repeat constructor].
  rewrite <- app_assoc. cbn [app].
  match goal with |- context [with_memory q ?b ?s] => destruct (b s) as [r [tr1 k4]] eqn:Hb end.
  destruct (with_memory_trace q _ _ _ _ _ Hb) as [k5 ->].
  unfold sbind in Hb. cbn [ConvertStringSecurityDescriptor tracing] in Hb. unfold noting in Hb. cbn [fst snd] in Hb.
  destruct (ConvertStringSecurityDescriptor (logon_sddl text) k3) as [[p|] k6]; injection Hb as <- <- <-;
    rewrite <- !app_assoc; eexists _, _, _; (split; [reflexivity|]).
  - bool_simp. exists g, q, text. split; [|done]. unfold one_group. lia.
  - unfold descriptor_trace, settled_trace. totals. unfold total. cbn. rewrite !app_nil_r. by split_and!.
Qed.

Lemma logon_security_trace tr k :
  exists r tr' k', logon_security (H := tracing) (tr, k) = (r, (tr', k')) /\ logon_result tr r tr'.
Proof.
  unfold logon_security, sbind at 1. cbn [OpenProcessToken tracing]. unfold noting at 1. cbn [fst snd].
  destruct (OpenProcessToken k) as [[token|] k1]; cycle 1.
  { eexists _, _, _. split; [reflexivity|]. exists []. by split. }
  destruct (token_descriptor_trace token (tr ++ [E_token token]) k1) as (r & es & k2 & Hb & Hr).
  apply (with_handle_trace token) in Hb as [k3 ->]. eexists _, _, _. split; [reflexivity|].
  exists ([E_token token] ++ es ++ (E_close <$> real token)). split; [by rewrite <- !app_assoc|].
  destruct r as [p|e]; [|by apply settled_token]. destruct Hr as (g & q & text & Hg & ->).
  exists token, g, q, text. split; [done|]. unfold logon_trace. by rewrite <- !app_assoc.
Qed.

(** ** The pipes *)
Lemma clear_pipes_trace pipes tr k :
  Forall (fun h => is_handle h = true) pipes ->
  exists k', clear_pipes (H := tracing) pipes (tr, k) = (tt, (tr ++ (E_close <$> pipes), k')).
Proof.
  intros Hp. revert tr k. induction Hp as [|h pipes Hh _ IH]; intros tr k; cbn [clear_pipes]; [rewrite app_nil_r; eauto|].
  unfold sbind. destruct (drop_handle_trace h (tr, k)) as [k1 ->]. unfold real. rewrite Hh.
  destruct (IH (tr ++ [E_close h]) k1) as [k2 Hr]. cbn. rewrite Hr, <- app_assoc. eauto.
Qed.

(** ** The instance the host must ask for

    The values are those of the Windows headers: access 3 is duplex, flag 0x40000000
    overlapped, 0x80000 the first instance of a name; pipe mode 0x8 rejects remote
    clients, and 0x1, 0x2 and 0x4 would be non-blocking, message reads and messages. *)
Record guarded_pipe (options : server_options) (descriptor : Z) (index : nat) (a : pipe_arguments) : Prop := {
  gp_name : pa_name a = opt_endpoint options;
  gp_access : Z.land (pa_open_mode a) 0x40000003 = 0x40000003;
  gp_first : (Z.land (pa_open_mode a) 0x80000 = 0x80000) <-> index = 0%nat;
  gp_local : Z.land (pa_pipe_mode a) 0x8 = 0x8;
  gp_bytes : Z.land (pa_pipe_mode a) 0x7 = 0;
  gp_instances : 0 <= opt_sessions options < 2 ^ 32 -> pa_instances a = opt_sessions options;
  gp_buffers : pa_out_bytes a = 16384 /\ pa_in_bytes a = 16384;
  gp_descriptor : pa_descriptor a = descriptor;
  gp_private : pa_inherit a = false;
}.

Lemma instance_guarded options d (i : nat) :
  guarded_pipe options d i (instance_arguments (opt_endpoint options) (opt_sessions options) (Z.of_nat i =? 0) d).
Proof.
  split; try done.
  - by destruct (Z.of_nat i =? 0).
  - destruct (Z.eqb_spec (Z.of_nat i) 0) as [E|E]; cbn; split; try done; lia.
  - intros Hs. cbn. by apply Z.mod_small.
Qed.

(** What the loop adds: it opens [out] and nothing else, and if it does not fail these
    are all the instances, each with its arguments. *)
Record pipes_trace (n : nat) (index : Z) (name : wstring) (slots d : Z) (out : list Z) (err : option t_failure)
    (es : list native_event) : Prop := {
  pt_opened : total opened_by es = out;
  pt_closed : total closed_by es = [];
  pt_allocated : total allocated_by es = [];
  pt_freed : total freed_by es = [];
  pt_real : Forall (fun h => is_handle h = true) out;
  pt_length : err = None -> length out = n;
  pt_made : err = None ->
    total made_by es = zip_with (fun i h => (instance_arguments name slots (i =? 0) d, h)) (seqZ index (Z.of_nat n)) out;
  pt_answers : exists answers, create_instances (take n answers) = err;
}.

Lemma create_pipes_trace n index name slots d pipes tr k :
  exists out err es k', create_pipes (H := tracing) n index name slots d pipes (tr, k) = ((pipes ++ out, err), (tr ++ es, k'))
    /\ pipes_trace n index name slots d out err es.
Proof.
  revert index pipes tr k. induction n as [|n IH]; intros index pipes tr k; cbn [create_pipes].
  { eexists [], _, [], _. rewrite !app_nil_r. split; [done|]. split; try done. by exists []. }
  unfold sbind, create_instance, sbind. cbn [CreateNamedPipeW tracing]. unfold noting. cbn [fst snd].
  destruct (CreateNamedPipeW _ k) as [h k1]. destruct (is_handle h) eqn:Hh; cbn [negb]; cycle 1.
  { eexists [], _, _, _. rewrite app_nil_r. split; [reflexivity|]. unfold total. split; cbn; rewrite ?app_nil_r; try done.
    - unfold real. by rewrite Hh.
    - by exists [Some (io_failure (last_error k1))]. }
  unfold sret. destruct (IH (index + 1) (pipes ++ [h]) (tr ++ [E_pipe (instance_arguments name slots (index =? 0) d) h]) k1)
    as (out & err & es & k2 & -> & [Ho Hc Ha Hf Hr Hl Hm [ps Hp]]).
  rewrite <- !app_assoc. eexists (h :: out), err, (_ :: es), k2. split; [reflexivity|].
  unfold total in *. split; cbn; rewrite ?Ho, ?Hc, ?Ha, ?Hf; try done.
  - unfold real. by rewrite Hh.
  - by constructor.
  - intros He. by rewrite Hl.
  - intros He. rewrite (Hm He), (seqZ_cons index) by lia. replace (Z.pred (Z.of_nat (S n))) with (Z.of_nat n) by lia. done.
  - by exists (None :: ps).
Qed.

(** ** The launch *)
Lemma logon_totals token g q text p :
  let tr := logon_trace token g q text p in
  total opened_by tr = real token /\ total closed_by tr = real token
  /\ total allocated_by tr = memory q ++ memory p /\ total freed_by tr = memory q /\ total made_by tr = [].
Proof.
  unfold logon_trace. cbn zeta. totals. unfold total. cbn. rewrite !app_nil_r. by split_and!.
Qed.

(** The pipes of the host or the failure, given what the loop answered. *)
Definition launch_outcome (pipes : list Z) (err : option t_failure) (threads : option Z) : list Z + t_failure :=
  match err, threads with
  | Some error, _ => inr error
  | None, Some code => inr (t_native fk_io_failure code)
  | None, None => inl pipes
  end.

(** The destructors that follow the loop, in either order. *)
Definition cleanup (p : Z) (pipes : list Z) (err : option t_failure) (threads : option Z) : list native_event :=
  match err, threads with
  | Some _, _ => (E_free <$> memory p) ++ (E_close <$> pipes)
  | None, Some _ => (E_close <$> pipes) ++ (E_free <$> memory p)
  | None, None => E_free <$> memory p
  end.

Lemma launch_native_trace options threads k :
  exists r tr k', launch_native (H := tracing) options threads ([], k) = (r, (tr, k'))
    /\ ((exists e, r = inr e /\ settled_trace tr)
        \/ exists token g q text p out err es, one_group g
             /\ pipes_trace (Z.to_nat (opt_sessions options)) 0 (opt_endpoint options) (opt_sessions options) p out err es
             /\ r = launch_outcome out err threads
             /\ tr = logon_trace token g q text p ++ es ++ cleanup p out err threads).
Proof.
  unfold launch_native, sbind at 1. destruct (logon_security_trace [] k) as (r & tr & k1 & -> & es & -> & Hr).
  destruct r as [p|e]; [|unfold sret; eauto 8]. destruct Hr as (token & g & q & text & Hg & ->).
  match goal with |- context [with_memory p ?b] => set (body := b) end.
  destruct (create_pipes_trace (Z.to_nat (opt_sessions options)) 0 (opt_endpoint options) (opt_sessions options) p []
              ([] ++ logon_trace token g q text p) k1) as (out & err & es & k2 & Hc & Hp).
  assert (Hreal := pt_real _ _ _ _ _ _ _ _ Hp). unfold sbind at 1.
  destruct err as [error|]; [|destruct threads as [code|]].
  - assert (Hb : body ([] ++ logon_trace token g q text p, k1) = ((out, Some error), (logon_trace token g q text p ++ es, k2)))
      by (unfold body, sbind; by rewrite Hc).
    apply (with_memory_trace p) in Hb as [k3 ->]. cbn [fst snd]. unfold sbind.
    destruct (clear_pipes_trace out ((logon_trace token g q text p ++ es) ++ (E_free <$> memory p)) k3 Hreal) as [k4 ->].
    unfold sret. eexists _, _, _. split; [reflexivity|]. right. exists token, g, q, text, p, out, (Some error), es.
    rewrite <- !app_assoc. by split_and!.
  - destruct (clear_pipes_trace out (logon_trace token g q text p ++ es) k2 Hreal) as [k3 Hx].
    assert (Hb : body ([] ++ logon_trace token g q text p, k1)
      = (([], Some (t_native fk_io_failure code)), ((logon_trace token g q text p ++ es) ++ (E_close <$> out), k3)))
      by (unfold body, sbind; rewrite Hc; cbn [fst snd app]; by rewrite Hx).
    apply (with_memory_trace p) in Hb as [k4 ->]. cbn. eexists _, _, _. split; [reflexivity|]. right.
    exists token, g, q, text, p, out, None, es. rewrite <- !app_assoc. by split_and!.
  - assert (Hb : body ([] ++ logon_trace token g q text p, k1) = ((out, None), (logon_trace token g q text p ++ es, k2)))
      by (unfold body, sbind; by rewrite Hc).
    apply (with_memory_trace p) in Hb as [k3 ->]. cbn [fst snd]. unfold sret. eexists _, _, _. split; [reflexivity|].
    right. exists token, g, q, text, p, out, None, es. rewrite <- !app_assoc. by split_and!.
Qed.
End tracing.

(** C21: The server starts closed to other logons and leaks nothing.  Whatever the system
    answers, a launch ends with every token, string and descriptor released.  A launch
    that fails has closed every pipe it created.  A launch that succeeds holds exactly its
    pipes, one per session, created in order for the endpoint as byte pipes with one
    instance per session: the first and no other with the first-instance flag, all of them
    rejecting remote clients, not inheritable, and carrying the descriptor made of the text
    [D:P(A;;GA;;;sid)] for the one valid logon SID of the process token.  The result is one
    that [launch] of the host model allows. *)
Theorem launch_secure {K : Type} `{SecurityApi K} (options : server_options) (threads : option Z) (k : K) :
  exists r tr k', launch_native (H := tracing) options threads ([], k) = (r, (tr, k'))
    /\ total allocated_by tr ≡ₚ total freed_by tr
    /\ match r with
       | inr _ => total opened_by tr ≡ₚ total closed_by tr
       | inl pipes =>
           total opened_by tr ≡ₚ pipes ++ total closed_by tr /\ length pipes = Z.to_nat (opt_sessions options)
           /\ exists token g q text p rest arguments, one_group g /\ tr = logon_trace token g q text p ++ rest
                /\ total made_by tr = zip arguments pipes /\ length arguments = length pipes
                /\ forall i a, arguments !! i = Some a -> guarded_pipe options p i a
       end
    /\ exists descriptor answers,
         launch options descriptor answers threads = match r with inl _ => None | inr e => Some e end.
Proof.
  destruct (launch_native_trace options threads k) as (r & tr & k' & Hrun & Hr). exists r, tr, k'. split; [done|].
  destruct Hr as [(e & -> & Ho & Ha & _)|(token & g & q & text & p & out & err & es & Hg & [Ho Hc Ha Hf _ Hl Hm [ps Hps]] & -> & ->)].
  { split; [done|]. split; [done|]. by exists (Some e), []. }
  destruct (logon_totals token g q text p) as (Lo & Lc & La & Lf & Lm).
  rewrite !total_app, Lo, Lc, La, Lf, Lm, Ho, Hc, Ha, Hf. unfold launch.
  split; [destruct err, threads; cbn [cleanup]; totals; solve_Permutation|].
  split; [|exists None, ps; rewrite Hps; by destruct err, threads].
  destruct err as [e|], threads as [code|]; cbn [launch_outcome cleanup]; totals; [solve_Permutation..|].
  specialize (Hl eq_refl). split; [solve_Permutation|]. split; [done|].
  exists token, g, q, text, p, (es ++ (E_free <$> memory p)),
    ((fun i => instance_arguments (opt_endpoint options) (opt_sessions options) (i =? 0) p) <$> seqZ 0 (Z.of_nat (length out))).
  rewrite (Hm eq_refl), Hl, app_nil_r, zip_with_fmap_l, length_fmap, length_seqZ. split_and!; [done|done|done|lia|].
  intros i a Ha'. rewrite list_lookup_fmap_Some in Ha'. destruct Ha' as (z & -> & [-> _]%lookup_seqZ).
  rewrite Z.add_0_l. apply instance_guarded.
Qed.
