(* ===== verification/Connect.v ===== *)
(** * Opening a pipe (src/transport/windows/stream.cpp, src/client/windows_channel.cpp)

    [connect] retries [CreateFileW] until the server has a free instance, its deadline
    passes or the attempt is cancelled; between two attempts it waits in slices.  The
    functions it calls are the class [ConnectApi], the clock, the stop token and the error
    code those of [Win32].  The loop has fuel; [None] is the fuel running out. *)
From stdpp Require Import prelude.
From Stdlib Require Import ZArith Lia.
From S2P Require Import Prelude Contracts Framing Transport Native Stream Handles.

Definition ERROR_FILE_NOT_FOUND : Z := 2.
Definition ERROR_SEM_TIMEOUT : Z := 121.
Definition ERROR_PIPE_BUSY : Z := 231.
Definition WAIT_FAILED : Z := 4294967295.
Definition GENERIC_READ_WRITE : Z := Z.lor 2147483648 1073741824.
Definition OPEN_EXISTING : Z := 3.
(** [FILE_FLAG_OVERLAPPED | SECURITY_SQOS_PRESENT | SECURITY_IDENTIFICATION]. *)
Definition open_flags : Z := Z.lor (Z.lor 1073741824 1048576) 65536.
Definition retry_milliseconds : Z := 50.

Class ConnectApi (K : Type) := {
  CreateFileW (name : wstring) (access share disposition flags : Z) : stateM K Z;
  WaitNamedPipeW (name : wstring) (milliseconds : Z) : stateM K bool;
  WaitForSingleObject (milliseconds : Z) : stateM K Z;      (* on the event [cancelled] *)
  close_event : stateM K unit;
  close_pipe (handle : Z) : stateM K unit;
}.

(** A connected stream: its pipe handle and its state. *)
Record pipe_stream := { ps_pipe : Z; ps_state : stream_state }.

Section connect.
Context {K : Type} `{Win32 K} `{ConnectApi K}.

(** The wait between two attempts; [None] is another attempt. *)
Definition await_instance (name : wstring) (slice : Z) : stateM K (option t_failure) :=
  let! free := WaitNamedPipeW name slice in
  if (free : bool) then sret None
  else
    let! wait_error := sget GetLastError in
    if negb (wait_error =? ERROR_FILE_NOT_FOUND) && negb (wait_error =? ERROR_SEM_TIMEOUT)
       && negb (wait_error =? ERROR_PIPE_BUSY)
    then sret (Some (io_failure wait_error))
    else if wait_error =? ERROR_FILE_NOT_FOUND then
      let! waited := WaitForSingleObject slice in
      if waited =? WAIT_FAILED then sget (fun k => Some (io_failure (GetLastError k))) else sret None
    else sret None.

(** One round of the loop; [None] goes on. *)
Definition attempt (name : wstring) (until : Z) : stateM K (option (pipe_stream + t_failure)) :=
  let! refused := preflight until in
  match refused with
  | Some error => sret (Some (inr error))
  | None =>
      let! pipe := CreateFileW name GENERIC_READ_WRITE 0 OPEN_EXISTING open_flags in
      if is_handle pipe then sret (Some (inl {| ps_pipe := pipe; ps_state := fresh_stream |}))
      else
        let! code := sget GetLastError in
        if negb (code =? ERROR_PIPE_BUSY) && negb (code =? ERROR_FILE_NOT_FOUND)
        then sret (Some (inr (io_failure code)))
        else
          let! left := remaining until in
          let slice := left `min` retry_milliseconds in
          if slice =? 0 then sret (Some (inr (t_fail fk_timeout)))
          else let! failed := await_instance name slice in sret (inr <$> failed)
  end.

Fixpoint connect_loop (fuel : nat) (name : wstring) (until : Z) : stateM K (option (pipe_stream + t_failure)) :=
  match fuel with
  | O => sret None
  | S fuel =>
      let! round := attempt name until in
      match round with Some result => sret (Some result) | None => connect_loop fuel name until end
  end.

Definition connect_stream (fuel : nat) (endpoint : wstring) (until : Z) : stateM K (option (pipe_stream + t_failure)) :=
  if negb (valid_endpoint endpoint) then sret (Some (inr (t_fail fk_invalid_configuration)))
  else
    let! refused := preflight until in
    match refused with
    | Some error => sret (Some (inr error))
    | None =>
        let! created := CreateEventW in
        if negb created then sget (fun k => Some (inr (io_failure (GetLastError k))))
        else
          let! result := connect_loop fuel endpoint until in
          let! _ := close_event in sret result
    end.

(** ** The channel of the client: [named_pipe_connector] and [pipe_channel] *)
Definition named_pipe_connector (fuel : nat) (endpoint : wstring) (until : Z)
  : stateM K (option (option pipe_stream + t_failure)) :=
  let! opened := connect_stream fuel endpoint until in
  sret match opened with
       | None => None
       | Some (inr error) => Some (inr error)
       | Some (inl stream) => Some (inl (Some stream))
       end.

(** [pipe_stream::close] resets the state, which owns the handle. *)
Definition channel_close (channel : option pipe_stream) : stateM K (option pipe_stream) :=
  match channel with
  | None => sret None
  | Some stream => let! _ := close_pipe (ps_pipe stream) in sret None
  end.

Definition native_handle (channel : option pipe_stream) : Z :=
  match channel with Some stream => ps_pipe stream | None => nullptr end.
End connect.

Section channel.
Context {P : Type} `{NativePipe P}.

Definition with_stream {A} (r : option (A * option stream_state * P)) (stream : pipe_stream)
  : option (A * option pipe_stream * P) :=
  match r with
  | None => None
  | Some (a, s, p) => Some (a, (fun s' => {| ps_pipe := ps_pipe stream; ps_state := s' |}) <$> s, p)
  end.
Definition channel_send (channel : option pipe_stream) (payload : bytes) (until : Z) (p : P)
  : option ((Z + t_failure) * option pipe_stream * P) :=
  match channel with
  | None => Some (inr (t_fail fk_disconnected), None, p)
  | Some stream => with_stream (send (Some (ps_state stream)) payload until p) stream
  end.
Definition channel_receive (channel : option pipe_stream) (until : Z) (p : P)
  : option ((bytes + t_failure) * option pipe_stream * P) :=
  match channel with
  | None => Some (inr (t_fail fk_disconnected), None, p)
  | Some stream => with_stream (receive (Some (ps_state stream)) until p) stream
  end.
End channel.

(** ** The calls made *)
Inductive connect_note :=
  | N_event
  | N_event_closed
  | N_open (handle : Z)
  | N_wait (milliseconds : Z)
  | N_close (handle : Z).

Definition noted {K A} (m : stateM K A) (note : A -> list connect_note) : stateM (list connect_note * K) A :=
  fun s => let '(a, k) := m s.2 in (a, (s.1 ++ note a, k)).

Section noting.
Context {K : Type} `{Win32 K} `{ConnectApi K}.

Definition noting_win32 : Win32 (list connect_note * K) := {|
  now := slift now; stop_requested := slift stop_requested;
  CreateEventW := noted CreateEventW (fun b : bool => if b then [N_event] else []);
  GetLastError s := GetLastError s.2; ConnectNamedPipe := slift ConnectNamedPipe;
  ReadFile n := slift (ReadFile n); WriteFile b := slift (WriteFile b);
  WaitForMultipleObjects t := slift (WaitForMultipleObjects t); CancelIoEx := slift CancelIoEx;
  GetOverlappedResult w := slift (GetOverlappedResult w); in_flight s := in_flight s.2 |}.

Definition noting_connect : ConnectApi (list connect_note * K) := {|
  CreateFileW n a s d f := noted (CreateFileW n a s d f) (fun h => if is_handle h then [N_open h] else []);
  WaitNamedPipeW n ms := noted (WaitNamedPipeW n ms) (fun _ => [N_wait ms]);
  WaitForSingleObject ms := noted (WaitForSingleObject ms) (fun _ => [N_wait ms]);
  close_event := noted close_event (fun _ => [N_event_closed]);
  close_pipe h := noted (close_pipe h) (fun _ => [N_close h]) |}.

Lemma preflight_noted until s :
  preflight (H := noting_win32) until s = slift (preflight until) s.
Proof.
  destruct s as [tr k]. unfold preflight, sbind, slift. cbn. unfold slift. cbn.
  destruct (stop_requested k) as [[] k1]; cbn; [done|]. destruct (now k1) as [t k2]. cbn. by destruct (until <=? t).
Qed.
Lemma remaining_noted until s :
  remaining (H := noting_win32) until s = slift (remaining until) s.
Proof.
  destruct s as [tr k]. unfold remaining, sbind, slift. cbn. destruct (until =? deadline_max); cbn; [done|].
  unfold slift. cbn. destruct (now k) as [t k1]. cbn. by destruct (_ <=? 0).
Qed.

Lemma remaining_nonneg until k : 0 <= (remaining until k).1.
Proof.
  unfold remaining, sbind, INFINITE. destruct (until =? deadline_max); cbn; [done|]. destruct (now k) as [t k1].
  destruct (Z.leb_spec (ceil_milliseconds (until - t)) 0); cbn; lia.
Qed.
End noting.

(** ** Time

    [time] is the steady clock, and no call turns it back.  Only two calls are known to
    let it pass: a [WaitNamedPipeW] that reports its timeout, and a back-off that reports
    its own; each takes at least [tick].  A [WaitNamedPipeW] on a missing name returns at
    once.  A back-off that ends early was signalled by the stop token.  An instance
    reported free, or still busy, may be lost to another client at once as well, [races]
    times from a state on. *)
Definition advances {K : Type} (time races : K -> Z) (k k' : K) : Prop := time k <= time k' /\ races k' <= races k.

Class ClockLaws {K : Type} `{Win32 K} `{ConnectApi K} (time races : K -> Z) (tick : Z) : Prop := {
  tick_pos : 0 < tick;
  races_nonneg k : 0 <= races k;
  now_time k : time k <= (now k).1 <= time (now k).2;
  now_races k : races (now k).2 <= races k;
  stop_advances k : advances time races k (stop_requested k).2;
  event_advances k : advances time races k (CreateEventW k).2;
  open_advances n a s d f k : advances time races k (CreateFileW n a s d f k).2;
  wait_advances n ms k : advances time races k (WaitNamedPipeW n ms k).2;
  backoff_advances ms k : advances time races k (WaitForSingleObject ms k).2;
  close_event_advances k : advances time races k (close_event k).2;
  wait_slice n ms k :
    1 <= ms -> (WaitNamedPipeW n ms k).1 = false -> GetLastError (WaitNamedPipeW n ms k).2 = ERROR_SEM_TIMEOUT ->
    time k + tick <= time (WaitNamedPipeW n ms k).2;
  wait_race n ms k :
    (WaitNamedPipeW n ms k).1 = true \/ GetLastError (WaitNamedPipeW n ms k).2 = ERROR_PIPE_BUSY ->
    time k + tick <= time (WaitNamedPipeW n ms k).2 \/ races (WaitNamedPipeW n ms k).2 < races k;
  backoff_slice ms k :
    1 <= ms -> (WaitForSingleObject ms k).1 = WAIT_TIMEOUT -> time k + tick <= time (WaitForSingleObject ms k).2;
  backoff_signal ms k :
    (WaitForSingleObject ms k).1 <> WAIT_TIMEOUT -> (WaitForSingleObject ms k).1 <> WAIT_FAILED ->
    (stop_requested (WaitForSingleObject ms k).2).1 = true;
}.

(** What a round that tries again has gained: time, a lost race, or the stop request. *)
Definition gains {K : Type} `{Win32 K} (time races : K -> Z) (tick : Z) (k k' : K) : Prop :=
  advances time races k k'
  /\ (time k + tick <= time k' \/ races k' < races k \/ (stop_requested k').1 = true).

#[export] Instance advances_preorder {K : Type} (time races : K -> Z) : PreOrder (advances time races).
Proof. unfold advances. split; [intros k; lia|intros k1 k2 k3; lia]. Qed.

Lemma ceil_milliseconds_pos d : 0 < d -> 0 < ceil_milliseconds d.
Proof.
  intros Hd. unfold ceil_milliseconds. pose proof (Z.quot_pos d 1000000 ltac:(lia) ltac:(lia)).
  destruct (Z.ltb_spec (Z.quot d 1000000 * 1000000) d); lia.
Qed.

(** The handles of the pipes opened and closed, and what is left of the event. *)
Definition opened_of (n : connect_note) : list Z := match n with N_open h => [h] | _ => [] end.
Definition opened_pipes (notes : list connect_note) : list Z := concat (opened_of <$> notes).
Definition event_balance (notes : list connect_note) : Z :=
  foldr (fun n total => match n with N_event => total + 1 | N_event_closed => total - 1 | _ => total end) 0 notes.
(** A wait is a slice; the loop neither creates nor closes the event. *)
Definition loop_note (n : connect_note) : bool :=
  match n with N_wait ms => (1 <=? ms) && (ms <=? retry_milliseconds) | N_open _ => true | _ => false end.
Definition stream_pipe (r : pipe_stream + t_failure) : list Z := match r with inl ps => [ps_pipe ps] | inr _ => [] end.

Section timed.
Context {K : Type} `{Win32 K} `{ConnectApi K} (time races : K -> Z) (tick : Z) `{!ClockLaws time races tick}.
#[local] Abbreviation advances := (advances time races).
#[local] Abbreviation gains := (gains time races tick).

(** The clock only advances in [preflight] and [remaining], and they report the deadline
    only when it has passed; a stop request is reported first. *)
Lemma preflight_time until k :
  advances k (preflight until k).2
  /\ match (preflight until k).1 with
     | None => time k < until /\ (stop_requested k).1 = false
     | Some e => (e = t_fail fk_cancelled /\ (stop_requested k).1 = true)
                 \/ (e = t_fail fk_timeout /\ (stop_requested k).1 = false /\ until <= time (preflight until k).2)
     end.
Proof.
  unfold preflight, sbind. pose proof (stop_advances k) as Hs. destruct (stop_requested k) as [[] k1]; cbn in *; [by auto|].
  pose proof (now_time k1) as Hn. pose proof (now_races k1) as Hr. destruct (now k1) as [t k2]. unfold Connect.advances in *.
  cbn in *. destruct (Z.leb_spec until t); cbn; [|by split; [lia|split; [lia|]]].
  split; [lia|]. right. split_and!; [done|done|lia].
Qed.

Lemma remaining_time until k :
  advances k (remaining until k).2 /\ ((remaining until k).1 = 0 -> until <= time (remaining until k).2).
Proof.
  unfold remaining, sbind. destruct (until =? deadline_max); cbn; [done|]. pose proof (now_time k) as Hn.
  pose proof (now_races k) as Hr. unfold Connect.advances.
  destruct (now k) as [t k1]. cbn in *. destruct (Z.leb_spec (ceil_milliseconds (until - t)) 0); cbn; [|unfold INFINITE; lia].
  split; [lia|]. intros _. destruct (Z.le_gt_cases (until - t) 0); [lia|]. pose proof (ceil_milliseconds_pos (until - t)). lia.
Qed.

Lemma io_failure_kind code : t_kind (io_failure code) <> fk_timeout /\ t_kind (io_failure code) <> fk_invalid_configuration.
Proof. unfold io_failure. repeat case_match; done. Qed.

(** What the loop promises from a state, with the notes it adds. *)
Definition loop_result (until : Z) (k : K) (r : pipe_stream + t_failure) (es : list connect_note) (k' : K) : Prop :=
  advances k k' /\ forallb loop_note es = true /\ opened_pipes es = stream_pipe r
  /\ match r with
     | inl ps => ps_state ps = fresh_stream /\ time k < until
     | inr e => (t_kind e = fk_timeout -> until <= time k') /\ t_kind e <> fk_invalid_configuration
     end.

(** The notes are slices, and nothing was opened. *)
Definition waits_only (es : list connect_note) : Prop := forallb loop_note es = true /\ opened_pipes es = [].

Lemma await_instance_result name slice tr k :
  1 <= slice <= retry_milliseconds ->
  exists o es k', await_instance (H := noting_win32) (H0 := noting_connect) name slice (tr, k) = (o, (tr ++ es, k'))
    /\ waits_only es /\ advances k k'
    /\ match o with None => gains k k' | Some e => exists code, e = io_failure code end.
Proof.
  intros Hs. assert (Hn : loop_note (N_wait slice) = true) by (cbn; lia).
  assert (Hw1 : waits_only [N_wait slice]) by (split; [cbn [forallb]; by rewrite Hn|done]).
  assert (Hw2 : waits_only ([N_wait slice] ++ [N_wait slice])) by (split; [cbn [forallb app]; by rewrite Hn|done]).
  unfold await_instance, sbind at 1. cbn [WaitNamedPipeW noting_connect]. unfold noted at 1. cbn [fst snd].
  pose proof (wait_advances name slice k) as Ha. pose proof (wait_slice name slice k ltac:(lia)) as Hsl.
  pose proof (wait_race name slice k) as Hra. destruct (WaitNamedPipeW name slice k) as [free k1]; cbn [fst snd] in *.
  destruct free.
  { eexists _, _, _. split; [reflexivity|]. split_and!; [done|done|]. split; [done|]. destruct Hra; auto. }
  unfold sbind at 1, sget at 1. cbn [GetLastError noting_win32 snd].
  destruct (Z.eqb_spec (GetLastError k1) ERROR_FILE_NOT_FOUND) as [E1|E1]; cbn [negb andb].
  - unfold sbind at 1. cbn [WaitForSingleObject noting_connect]. unfold noted at 1. cbn [fst snd].
    pose proof (backoff_advances slice k1) as Hb. pose proof (backoff_slice slice k1 ltac:(lia)) as Hbs.
    pose proof (backoff_signal slice k1) as Hsig.
    destruct (WaitForSingleObject slice k1) as [w k2]; cbn [fst snd] in *. rewrite <- app_assoc.
    assert (Hadv : advances k k2) by (by trans k1).
    destruct (Z.eqb_spec w WAIT_FAILED) as [Ew|Ew].
    { eexists _, _, _. split; [reflexivity|]. split_and!; [done|done|]. eauto. }
    eexists _, _, _. split; [reflexivity|]. split_and!; [done|done|]. split; [done|].
    destruct (decide (w = WAIT_TIMEOUT)) as [Et|Et]; [left|right; right; auto].
    specialize (Hbs Et). unfold Connect.advances in Ha. lia.
  - destruct (Z.eqb_spec (GetLastError k1) ERROR_SEM_TIMEOUT) as [E2|E2]; cbn [negb andb].
    { eexists _, _, _. split; [reflexivity|]. split_and!; [done|done|]. split; [done|]. left. auto. }
    destruct (Z.eqb_spec (GetLastError k1) ERROR_PIPE_BUSY) as [E3|E3]; cbn [negb andb].
    { eexists _, _, _. split; [reflexivity|]. split_and!; [done|done|]. split; [done|]. destruct Hra; auto. }
    eexists _, _, _. split; [reflexivity|]. split_and!; [done|done|]. eauto.
Qed.

Lemma loop_result_io until k code es k' :
  advances k k' -> waits_only es -> loop_result until k (inr (io_failure code)) es k'.
Proof. intros Ht [Hf Ho]. destruct (io_failure_kind code). by split_and!. Qed.

Lemma gains_from k1 k2 k3 : advances k1 k2 -> gains k2 k3 -> gains k1 k3.
Proof.
  intros Ha [Hb Hg]. split; [by trans k2|]. unfold Connect.advances in *.
  destruct Hg as [Hg|[Hg|Hg]]; [left; lia|right; left; lia|auto].
Qed.

Lemma attempt_result name until tr k :
  exists o es k', attempt (H := noting_win32) (H0 := noting_connect) name until (tr, k) = (o, (tr ++ es, k'))
    /\ match o with
       | Some r => loop_result until k r es k'
       | None => waits_only es /\ gains k k' /\ time k < until /\ (stop_requested k).1 = false
       end.
Proof.
  unfold attempt, sbind at 1. rewrite preflight_noted. unfold slift at 1. cbn [fst snd].
  destruct (preflight_time until k) as [Ht1 Hp]. destruct (preflight until k) as [[e|] k1]; cbn [fst snd] in *.
  { eexists _, [], _. rewrite app_nil_r. split; [reflexivity|].
    destruct Hp as [[-> _]|(-> & _ & Hu)]; by split_and!. }
  unfold sbind at 1. cbn [CreateFileW noting_connect]. unfold noted at 1. cbn [fst snd].
  pose proof (open_advances name GENERIC_READ_WRITE 0 OPEN_EXISTING open_flags k1) as Ht2.
  destruct (CreateFileW _ _ _ _ _ k1) as [pipe k2]; cbn [fst snd] in *.
  assert (Ha2 : advances k k2) by (by trans k1). destruct (is_handle pipe).
  { eexists _, [_], _. split; [reflexivity|]. destruct Hp. by split_and!. }
  rewrite app_nil_r. unfold sbind at 1, sget at 1. cbn [GetLastError noting_win32 fst snd].
  destruct (negb _ && negb _).
  { eexists _, [], _. rewrite app_nil_r. split; [reflexivity|]. by apply loop_result_io. }
  unfold sbind at 1. rewrite remaining_noted. unfold slift at 1. cbn [fst snd].
  destruct (remaining_time until k2) as [Ht3 Hr]. pose proof (remaining_nonneg until k2) as Hnn.
  destruct (remaining until k2) as [left k3]; cbn [fst snd] in *. assert (Ha3 : advances k k3) by (by trans k2).
  destruct (Z.eqb_spec (left `min` retry_milliseconds) 0) as [Hz|Hz]; unfold retry_milliseconds in Hz.
  { eexists _, [], _. rewrite app_nil_r. split; [reflexivity|]. split_and!; [done|done|done| |done].
    intros _. apply Hr. lia. }
  unfold sbind at 1. destruct (await_instance_result name (left `min` retry_milliseconds) tr k3)
    as (o & es & k4 & -> & Hw & Ha & Ho); [unfold retry_milliseconds; lia|].
  eexists _, es, k4. split; [reflexivity|]. destruct o as [e|]; cbn.
  - destruct Ho as [code ->]. apply loop_result_io; [by trans k3|done].
  - destruct Hp. split_and!; [done|by apply (gains_from k k3)|done|done].
Qed.

(** The rounds that can follow: a stop request ends the next one. *)
Definition rounds_left (until : Z) (fuel : nat) (k : K) : Prop :=
  (1 <= fuel)%nat
  /\ ((stop_requested k).1 = true \/ until - time k <= (Z.of_nat fuel - 2 - races k) * tick).

Lemma connect_loop_result fuel name until tr k :
  rounds_left until fuel k ->
  exists r es k', connect_loop (H := noting_win32) (H0 := noting_connect) fuel name until (tr, k) = (Some r, (tr ++ es, k'))
    /\ loop_result until k r es k'.
Proof.
  pose proof (tick_pos (time := time)) as Hpos. revert tr k. induction fuel as [|fuel IH]; intros tr k [Hfuel Hbound]; [lia|].
  cbn [connect_loop]. unfold sbind. destruct (attempt_result name until tr k) as (o & es1 & k1 & -> & Ho).
  destruct o as [r|]; [by exists r, es1, k1|]. destruct Ho as ([Hf Hop] & [Ha Hg] & Hu & Hns).
  destruct Hbound as [?|Hbound]; [congruence|]. pose proof (races_nonneg (time := time) k) as Hr0.
  pose proof (races_nonneg (time := time) k1) as Hr1.
  assert (Hleft : rounds_left until fuel k1).
  { unfold Connect.advances in Ha. split; [nia|]. destruct Hg as [Hg|[Hg|Hg]]; [right; nia|right; nia|by left]. }
  destruct (IH (tr ++ es1) k1 Hleft) as (r & es & k' & -> & Ha' & Hf' & Hop' & Hr).
  exists r, (es1 ++ es), k'. rewrite app_assoc. split; [done|]. unfold loop_result, opened_pipes in *.
  rewrite forallb_app, fmap_app, concat_app, Hf, Hf', Hop. split_and!; [by trans k1|done|done|].
  destruct r; [|done]. by destruct Hr.
Qed.
End timed.

(** The notes of the loop between the creation of the event and its end. *)
Lemma loop_scope es :
  forallb loop_note es = true ->
  let notes := N_event :: es ++ [N_event_closed] in
  event_balance notes = 0 /\ (forall ms, N_wait ms ∈ notes -> 1 <= ms <= retry_milliseconds)
  /\ opened_pipes notes = opened_pipes es.
Proof.
  rewrite forallb_forall. intros Hf. cbn zeta. split; [|split].
  - unfold event_balance. cbn [foldr]. rewrite foldr_app. cbn [foldr].
    enough (forall z, foldr (fun n total => match n with N_event => total + 1 | N_event_closed => total - 1 | _ => total end) z es = z)
      as -> by lia.
    intros z. induction es as [|n es IH]; [done|]. cbn.
    rewrite IH by (intros x Hx; apply Hf; by right). specialize (Hf n (or_introl eq_refl)). by destruct n.
  - intros ms Hin. rewrite elem_of_cons, elem_of_app, list_elem_of_singleton in Hin.
    destruct Hin as [[=]|[Hin|[=]]]. apply list_elem_of_In, Hf in Hin. cbn in Hin. lia.
  - unfold opened_pipes. cbn. rewrite fmap_app, concat_app. cbn. by rewrite app_nil_r.
Qed.

(** C22: Opening a connection.  On a clock that passes with every wait that reports its
    timeout, and with at most [races k] instances lost to other clients at once, the
    attempt ends within the rounds the deadline allows: while the name is missing, when
    [WaitNamedPipeW] returns at once, it is the back-off that lets the time pass.  Its event
    is created at most once and closed if it was created; every wait is a slice of 1 to 50
    milliseconds, never 0 (the default timeout of the server) and never longer; the one
    pipe opened is the one returned, with a fresh stream, and a failed attempt leaves none
    open.  [invalid_configuration] is returned exactly for an invalid endpoint.  On a valid
    one, a stop requested at the call is answered by [cancelled] and otherwise a deadline
    passed at the call by [timeout], both without a call to the system; a stream is
    returned only for a deadline that had not passed at the call, and [timeout] only when
    the deadline has passed at the return. *)
Theorem connect_correct {K : Type} `{Win32 K} `{ConnectApi K} (time races : K -> Z) (tick : Z)
    `{!ClockLaws time races tick} (fuel : nat) (endpoint : wstring) (until : Z) (k : K) :
  until - time k <= (Z.of_nat fuel - 2 - races k) * tick ->
  exists r notes k',
    connect_stream (H := noting_win32) (H0 := noting_connect) fuel endpoint until ([], k) = (Some r, (notes, k'))
    /\ event_balance notes = 0
    /\ (forall ms, N_wait ms ∈ notes -> 1 <= ms <= retry_milliseconds)
    /\ opened_pipes notes = stream_pipe r
    /\ (valid_endpoint endpoint = true -> (stop_requested k).1 = true -> r = inr (t_fail fk_cancelled) /\ notes = [])
    /\ (valid_endpoint endpoint = true -> (stop_requested k).1 = false -> until <= time k ->
        r = inr (t_fail fk_timeout) /\ notes = [])
    /\ match r with
       | inl stream => ps_state stream = fresh_stream /\ valid_endpoint endpoint = true /\ time k < until
       | inr e => (t_kind e = fk_timeout -> until <= time k')
                  /\ (t_kind e = fk_invalid_configuration <-> valid_endpoint endpoint = false)
       end.
Proof.
  intros Hfuel. unfold connect_stream. destruct (valid_endpoint endpoint); cbn [negb]; cycle 1.
  { eexists _, [], _. split; [reflexivity|]. split_and!; try done. set_solver. }
  unfold sbind at 1. rewrite preflight_noted. unfold slift at 1. cbn [fst snd].
  destruct (preflight_time time races tick until k) as [Ht1 Hp].
  destruct (preflight until k) as [[e|] k1]; cbn [fst snd] in *.
  { eexists _, [], _. split; [reflexivity|].
    destruct Hp as [[-> Hst]|(-> & Hst & Hu)]; rewrite Hst; split_and!; try done; set_solver. }
  destruct Hp as [Hu Hst]. unfold sbind at 1. cbn [CreateEventW noting_win32]. unfold noted at 1. cbn [fst snd].
  pose proof (event_advances (time := time) k1) as Ht2. assert (Hnu : ~ until <= time k) by lia.
  destruct (CreateEventW k1) as [[] k2]; cbn [fst snd negb] in *; cycle 1.
  { destruct (io_failure_kind (GetLastError k2)).
    eexists _, [], _. split; [reflexivity|]. split_and!; try done; [set_solver|by rewrite Hst]. }
  unfold sbind at 1. pose proof (tick_pos (time := time)) as Htick. assert (Ha2 : advances time races k k2) by (by trans k1).
  destruct (connect_loop_result time races tick fuel endpoint until ([] ++ [N_event]) k2)
    as (r & es & k3 & -> & Ht & Hf & Ho & Hr).
  { pose proof (races_nonneg (time := time) k). unfold advances in Ha2. split; [nia|right; nia]. }
  unfold sbind. cbn [close_event noting_connect]. unfold noted. cbn [fst snd].
  pose proof (close_event_advances (time := time) k3) as Hc. destruct (close_event k3) as [u k4]; cbn [snd] in Hc. unfold sret.
  destruct (loop_scope es Hf) as (Hb & Hw & Hs). unfold advances in *.
  eexists _, _, _. split; [reflexivity|]. cbn [app]. rewrite Hs, Hst. split_and!; try done.
  destruct r as [ps|e]; [destruct Hr; split_and!; [done|done|lia]|]. destruct Hr as [Hto Hic].
  split; [intros Hk; specialize (Hto Hk); lia|done].
Qed.

(** The connector never hands out a null channel, which the client would report as an
    internal failure. *)
Lemma connector_never_null {K : Type} `{Win32 K} `{ConnectApi K} (fuel : nat) (endpoint : wstring) (until : Z) (k : K) :
  (named_pipe_connector fuel endpoint until k).1 <> Some (inl None).
Proof. unfold named_pipe_connector, sbind. by destruct (connect_stream fuel endpoint until k) as [[[stream|e]|] k']. Qed.

(** Closing a channel closes its pipe, once. *)
Lemma channel_close_once {K : Type} `{ConnectApi K} (channel : option pipe_stream) (k : K) :
  let '(closed, (notes, k')) := channel_close (H0 := noting_connect) channel ([], k) in
  closed = None /\ notes = (N_close <$> (ps_pipe <$> option_list channel))
  /\ channel_close (H0 := noting_connect) closed (notes, k') = (None, (notes, k')).
Proof.
  destruct channel as [stream|]; cbn; [|done]. unfold sbind, noted. cbn. by destruct (close_pipe (ps_pipe stream) k) as [u k'].
Qed.

Module ConnectDemo.
(** A server that starts after some time: its name is missing, and then [WaitNamedPipeW]
    returns at once; then its instance is busy, and once lost to another client; then it
    answers. *)
Record world := { w_time : Z; w_error : Z; w_races : nat }.
Definition passes (w : world) (t error : Z) : world :=
  {| w_time := w_time w + t; w_error := error; w_races := w_races w |}.
Definition loses (w : world) : world := {| w_time := w_time w; w_error := 0; w_races := pred (w_races w) |}.

#[local] Instance slow_win32 : Win32 world := {
  now w := (w_time w, w); stop_requested w := (false, w); CreateEventW w := (true, w); GetLastError := w_error;
  ConnectNamedPipe w := (false, w); ReadFile _ w := (None, w); WriteFile _ w := (None, w);
  WaitForMultipleObjects _ w := (0, w); CancelIoEx w := (true, w); GetOverlappedResult _ w := (None, w);
  in_flight _ := false;
}.
#[local] Instance slow_server : ConnectApi world := {
  CreateFileW _ _ _ _ _ w :=
    if w_time w <? 60000000 then (INVALID_HANDLE_VALUE, passes w 0 ERROR_FILE_NOT_FOUND)
    else if w_time w <? 90000000 then (INVALID_HANDLE_VALUE, passes w 0 ERROR_PIPE_BUSY)
    else (77, passes w 0 0);
  WaitNamedPipeW _ ms w :=
    if w_time w <? 60000000 then (false, passes w 0 ERROR_FILE_NOT_FOUND)
    else match w_races w with
         | S _ => (true, loses w)
         | O => (false, passes w (0 `max` (ms * 1000000)) ERROR_SEM_TIMEOUT)
         end;
  WaitForSingleObject ms w := (WAIT_TIMEOUT, passes w (0 `max` (ms * 1000000)) 0);
  close_event w := (tt, w);
  close_pipe _ w := (tt, w);
}.

Definition lost (w : world) : Z := Z.of_nat (w_races w).

#[local] Instance slow_clock : ClockLaws w_time lost 1000000.
Proof.
  split; unfold advances, lost; intros; cbn in *; repeat case_match; cbn in *; try lia; try done;
    unfold ERROR_FILE_NOT_FOUND, ERROR_SEM_TIMEOUT, ERROR_PIPE_BUSY in *; lia.
Qed.

Lemma connect_correct_witness :
  let k := {| w_time := 0; w_error := 0; w_races := 1 |} in
  exists stream notes,
    (connect_stream (H := noting_win32) (H0 := noting_connect) 1000 default_endpoint 900000000 ([], k)).1 = Some (inl stream)
    /\ ps_pipe stream = 77 /\ opened_pipes notes = [77] /\ event_balance notes = 0.
Proof.
  intros k. destruct (connect_correct w_time lost 1000000 1000 default_endpoint 900000000 k)
    as (r & notes & k' & Hrun & Hb & _ & Ho & _).
  - unfold k, lost. cbn. lia.
  - assert (Hv : (connect_stream (H := noting_win32) (H0 := noting_connect) 1000 default_endpoint 900000000 ([], k)).1
        = Some (inl {| ps_pipe := 77; ps_state := fresh_stream |}))
      by (vm_compute; reflexivity).
    rewrite Hrun in Hv. injection Hv as ->. exists {| ps_pipe := 77; ps_state := fresh_stream |}, notes.
    rewrite Hrun. split; [reflexivity|]. split; [reflexivity|]. split; [exact Ho|exact Hb].
Defined.
End ConnectDemo.
